(* ===== verification/_CoqProject ===== *)
-Q . S2P
Prelude.v
GoStrings.v
GoFlag.v
Memory.v
Lifecycle.v
GoNet.v
NetBits.v
TlsParse.v
Attr.v
ResolverRun.v
Policy.v
Engine.v
Aggregate.v
Datapath.v
Hooks.v
Programmer.v
Enforcement.v
Config.v
L7.v
Output.v
DnsLearn.v
EgressMon.v
ConnectLog.v
System.v
Moments.v
PolicySource.v
Crd.v
DeepCopy.v
Sharing.v
Consumers.v
Pipeline.v
AgentRun.v
Cluster.v
Metrics.v
SinkRun.v
SslSnoop.v
Uprobe.v
Runs.v
Cli.v
Agent.v
Operator.v
