(* ===== verification/Prelude.v ===== *)
(** * ebfw: a verification library for the egress firewall

    ebfw is a Kubernetes node agent.  Policies (a YAML file, or the EgressPolicy and
    ClusterEgressPolicy custom resources) say which pods may reach which
    destinations.  An engine evaluates them on observed flows; a programmer
    compiles them into BPF maps; BPF programs on the root cgroup pass or drop
    packets by those maps and report what they see through a ring buffer; the
    monitor decodes the reports, attributes them to pods and prints them with a
    verdict.  A learner turns DNS answers into map entries for domain rules, a
    uprobe on SSL_write recovers HTTPS requests, and an operator validates the
    custom resources.

    ** Parts, and where they are modelled (sources under src/)

    - Shared: this file ([go], the outcomes of Go code: value, error, panic, out of
      fuel; bytes and byte order; slices that panic; first match in a list),
      [GoStrings] (package strings on byte strings), [GoFlag] (package flag), [GoNet]
      (package net: ParseIP, ParseCIDR, Contains, IP.String), [NetBits] (prefixes as
      bit strings), [Lifecycle] (functions that open, defer, launch and read until an
      error: which resources are held and which goroutines started at each exit),
      [Memory] (arrays and maps that objects share, views with the locations they
      reach, programs that only allocate).
    - [Policy]: internal/policy/policy.go, selector.go, flow.go.  [Engine]: engine.go.
      [Aggregate]: aggregate.go.
    - [PolicySource]: internal/policy/filesource.go, source.go; channels are one slot
      and a history, a poll is a step, and for what subscribers hear a step is one lock.
    - [Crd]: api/v1 (conversion), internal/crdsource (rebuilds as threads stopped
      between their shared accesses), internal/controller (both reconcilers).
    - [DeepCopy]: api/v1/zz_generated.deepcopy.go on memory.  [Sharing]: the
      conversion, folding, aggregation, rebuild and Reconcile once more, on memory.
    - [Consumers]: what the sink, the programmer and the learner see of a policy
      source ([PolicyFeed], with the file, CRD and empty sources as instances), and
      the sink of internal/enforce/sink.go.
    - [Attr]: internal/attr; modules [Parse] (parse.go), [Index] (cgroupfs.go),
      [Resolve] (attr.go, k8s.go).  [Resolve.PodResolver] is what the monitors see of
      it.  [ResolverRun]: the resolver under goroutines, one access at a time.
    - [Datapath]: the maps and verdict_for of bpf/egress.bpf.c; [Kernel] states what
      the agent relies on of BPF maps (a map may refuse a write when it is full, the
      LRU map never refuses but may evict).  [Hooks]: the programs egress, connect4
      and dns_ingress.  [Uprobe]: the program of bpf/sslsnoop.bpf.c.
    - [Programmer]: internal/enforce/programmer.go.  [Enforcement]: the theorems that
      join engine, programmer and datapath.
    - [DnsLearn]: internal/enforce/dnslearn.go, over [DnsParser].  [System]: programmer
      and learner as two goroutines on one map, and a domain rule from the DNS packet
      to the dropped connection.  [Moments]: the same two goroutines one map call at
      a time, so that a re-programming can be seen half done.
    - [Pipeline]: informer caches, CRD source, channel, [Programmer.Run], maps and
      packet hook in a row.  [AgentRun]: the same parts and the learner all running at
      once, over any [PolicyFeed].  [Cluster]: the operator's control loop on the
      objects of the API server, and the agents beside it.
    - [Output]: internal/output/output.go and the evaluation in internal/enforce/sink.go.
      [Metrics]: internal/metrics/metrics.go, the counters the monitors move and the
      learner's gauge.  [SinkRun]: both sinks under their mutex, with several producers.
    - [TlsParse]: internal/tlsparse.  [L7]: internal/l7, over [Hpack].
    - [EgressMon]: internal/egress/egress.go, the handling of a record; [ConnectLog]: its
      reports over a whole run, against a reference that reads the samples itself
      ([observed]).  [SslSnoop]: internal/sslsnoop/sslsnoop.go, the tracker and
      discovery.  [Runs]: the functions
      that run them, modules [Egress] (egress.Run), [Ssl] (sslsnoop.Run and its
      discovery loop), [Crds] (crdsource.New), [Enrichment] (attr.NewK8sEnricher).
    - [Config]: internal/config/config.go.  [Cli]: internal/cli/policytest.go.
      [Agent]: main.go.  [Operator]: cmd/operator/main.go.

    Definitions keep the source's names; a record stands for each struct, a string
    for each string-typed enum (so that invalid values exist), Z for machine
    integers with the wrap written out, gmap and gset for Go maps, and an argument
    for every order Go leaves open (map iteration, goroutine interleaving).  A
    mutable object is threaded as state; caches and counters too.  Slices and maps
    are values except in [DeepCopy], [Sharing] and the TLS options of [Operator],
    where their sharing is what matters; [Sharing] proves that treating them as
    values elsewhere is right for the path from the custom resources to the policy.

    ** What the theorems show

    - Decision: the compiled engine is first match on the rules as written; merging
      cluster and namespaced policies is the documented precedence, is confined to the
      pods a policy governs, lets no tenant override an admin rule (in the engine; in
      the kernel a more specific tenant entry wins), and does not depend on listing
      order; validation accepts exactly the well-formed policies and whatever is
      accepted compiles.
    - Datapath: [apply] leaves exactly the entries of the first rule per key and
      nothing stale over any history; on rules ordered by specificity the kernel's
      answer is the engine's, end to end from the policies; egress drops exactly the
      complete IPv4 TCP and non-DNS UDP packets that [verdict_for] denies, outside
      dry-run; connect4 agrees with it; the agent fails open when it stops.
    - Programmer and learner together: every entry of the shared map has an owner,
      values stay Allow or Deny, nothing is left behind once domain rules are gone,
      and a domain rule that limits neither method nor path is enforced from the
      moment its DNS answer has been handled (one that does is enforced too, on the
      whole address, against the documentation: see [DnsLearn]).
    - Moments: call by call, every entry has an owner at every moment, a lookup gives
      the old entry or that of a rule that writes it and never a gap for an entry that
      stays, a re-walk is invisible where the rules on a lookup agree, and when an
      interrupted re-programming ends the kernel answers as the engine; whole events
      are runs of such calls.  About the LRU verdict map the theorems say what holds
      under any eviction, and more under [verdicts_fit]: the kernel keeps as many keys
      as are in play.
    - End to end: in any interleaving of resource changes, rebuilds, deliveries and
      map calls of programmer and learner, whenever the source is up to date and the
      programmer has dealt with what was delivered, a packet is dropped exactly when
      the accepted custom resources deny it (for resources whose explicit rules are of
      one action and which the maps can express; the programmer must have subscribed
      in time and the learner have no entry there); from every state the programmer
      alone gets there; when it stops nothing is dropped any more, though the learner
      may still write; agents with the same objects run the same policy; a status that
      names the current generation is right and Accepted means enforced on every node;
      the control loop comes to rest with at most one write per object.
    - Reports: the bytes a BPF program writes decode to its record, and the verdict
      that is shown is the maps' for that packet, which is its fate outside dry-run;
      over any run the reports are those read off the samples one by one, an allowed
      connection only the first time; a cgroup that exists when it is asked for is
      attributed to its pod whatever other goroutines do; events of several producers
      come out whole and in order; the counters are the numbers read off the samples.
    - Inputs: every parser returns on every input without a panic (TLS, HTTP/1,
      HTTP/2, DNS answers, ring-buffer samples), reads back what was rendered, and
      HTTP/2 decoding does not depend on how the stream was cut, from the write of the
      process to the request reported.
    - Sources: whatever the files or resources and however goroutines interleave, the
      snapshot compiles; every subscriber hears of every change, missing only
      intermediate policies, and a consumer that has emptied its channel is current
      (unless the policy changed between its snapshot and its subscription and never
      since); the operator's Accepted condition is the agents' decision; the policy
      test command predicts the agent.
    - Memory: a deep copy reads the same and shares nothing; a rebuild and a Reconcile
      change nothing in the informer cache, though they share slices and write in
      place, and give the values of their pure models.
    - Runs: for every answer of the kernel, the cluster and the files, which error or
      exit code the run functions, the agent's and the operator's main give, that what
      was opened is closed in reverse order, that nothing is handled before an error
      of start-up, which samples are handled, and when main returns.

    Some theorems and examples state limits of the code instead (label conflicts in
    folding, longest prefix against rule order, learned entries removing static
    ones, races at start and between rebuilds, a policy missed between Snapshot and
    Subscribe, entries that flicker while a policy is written again, a refreshed
    entry lost to a sweep, connects hidden by another pod's, writes longer than the
    probe copies, pointer reuse in the HTTPS tracker, a gauge set from an overtaken
    count, JSON lines out of the order of their times); each says so in its comment.

    ** Fuel and bounds

    A loop that is not structural takes fuel and has its own outcome when it runs
    out; every caller passes the length of what the loop consumes (bytes of a
    message, questions and answers a DNS header announces, bytes of the HTTP/2
    buffer, samples a reader delivers before it is closed), and the theorems show
    that this is always enough.  Packet payloads are at most 512 bytes, the HTTPS
    tracker holds at most 16384 connections and an HTTP/2 connection buffers less
    than one maximal frame with its header, all three proved.

    ** What is not modelled, and why

    What cilium/ebpf, client-go, controller-runtime and Prometheus do inside is
    library code: their answers (a load or attach that fails, the samples of a ring
    buffer, informers that sync, servers that start) are arguments, for which the
    theorems quantify over all answers.  YAML and JSON decoding, HPACK, DNS messages,
    meta.SetStatusCondition and the DeepCopyInto methods of Kubernetes types are
    parameters, those used beyond their type with the laws used, each law shown to
    hold for a concrete instance; so is the capacity append gives a new array (with
    both certificates configured the operator depends on it, see [Operator]); non-ASCII case mapping is a parameter
    ([UnicodeCase]).  Log texts, padding of table columns and go:generate
    directives are left out.  What the API server does to objects ([Cluster]) and when
    informers deliver them are premises of the steps, as Kubernetes documents them.
    What is done under one lock is one step; memory ordering below that is not
    modelled.  Nil and empty slices of API objects are one value in [DeepCopy] and
    [Sharing]; only the generated copies tell them apart, to keep nil as nil.  In
    [AgentRun] the CRD source makes one rebuild at a time; overlapping rebuilds are in
    [Crd], where they can leave an old policy in place.  The same holds of the file
    source there: a poll stores and announces in one step, which differs from the two
    locks of the code only for a reader of the snapshot in between ([tick_between]). *)

From stdpp Require Export base option list strings gmap sorting.
From Stdlib Require Export ZArith Lia.
From Stdlib Require Ascii String.
From Stdlib Require Export Strings.Byte.

#[export] Set Default Goal Selector "!".

(** ** Outcomes of Go code

    A Go function that indexes or slices can return a value, return an [error],
    or panic; a loop modelled with fuel can also run out of it.  The four are
    kept apart, so that "never panics" and "fuel suffices" are statements. *)
Inductive go (E A : Type) : Type :=
  | Ok (a : A)
  | Err (e : E)
  | Panic
  | OutOfFuel.
Arguments Ok {E A} a.
Arguments Err {E A} e.
Arguments Panic {E A}.
Arguments OutOfFuel {E A}.

#[export] Instance go_ret {E} : MRet (go E) := λ A a, Ok a.
#[export] Instance go_bind {E} : MBind (go E) := λ A B f m,
  match m with
  | Ok a => f a
  | Err e => Err e
  | Panic => Panic
  | OutOfFuel => OutOfFuel
  end.

(** [returns m]: the code neither panicked nor ran out of fuel. *)
Definition returns {E A} (m : go E A) : Prop :=
  match m with Ok _ | Err _ => True | Panic | OutOfFuel => False end.

Definition is_ok {E A} (m : go E A) : bool :=
  match m with Ok _ => true | _ => false end.

Lemma returns_bind {E A B} (m : go E A) (f : A → go E B) :
  returns m → (∀ a, m = Ok a → returns (f a)) → returns (m ≫= f).
Proof. destruct m; simpl; eauto. Qed.

Lemma go_bind_ok {E A B} (m : go E A) (f : A → go E B) b :
  m ≫= f = Ok b ↔ ∃ a, m = Ok a ∧ f a = Ok b.
Proof. destruct m; simpl; naive_solver. Qed.

(** ** Bytes, machine integers and byte order *)
Abbreviation bytes := (list byte).

#[export] Instance byte_eq_dec : EqDecision byte := Byte.byte_eq_dec.
#[export] Program Instance byte_countable : Countable byte :=
  inj_countable Byte.to_N Byte.of_N _.
Next Obligation. apply Byte.of_to_N. Qed.

(** The value of a byte, and the byte of a value (reduced modulo 256, as a Go
    conversion [byte(x)] does). *)
Definition b2z (b : byte) : Z := Z.of_N (Byte.to_N b).
Definition z2b (z : Z) : byte :=
  default x00 (Byte.of_N (Z.to_N (z mod 256)%Z)).

(** [wrap w z]: [z] kept at [w] bits. *)
Definition wrap (w z : Z) : Z := (z mod 2 ^ w)%Z.

Lemma b2z_range b : (0 ≤ b2z b < 256)%Z.
Proof. unfold b2z. pose proof (Byte.to_N_bounded b). lia. Qed.

Lemma b2z_z2b z : b2z (z2b z) = (z mod 256)%Z.
Proof.
  unfold b2z, z2b. pose proof (Z.mod_pos_bound z 256 ltac:(lia)) as Hb.
  destruct (Byte.of_N (Z.to_N (z mod 256))) as [b|] eqn:E; simpl.
  - apply Byte.to_of_N in E. lia.
  - apply Byte.of_N_None_iff in E. lia.
Qed.

Lemma z2b_b2z b : z2b (b2z b) = b.
Proof.
  unfold z2b. rewrite Z.mod_small by apply b2z_range.
  unfold b2z. by rewrite N2Z.id, Byte.of_to_N.
Qed.

Lemma b2z_inj b1 b2 : b2z b1 = b2z b2 → b1 = b2.
Proof. intros H. by rewrite <-(z2b_b2z b1), H, z2b_b2z. Qed.

(** Big-endian and little-endian readers ([binary.BigEndian], the hand-written
    [int(p[0])<<8 | int(p[1])], and [binary.LittleEndian]). *)
Definition be16 (b0 b1 : byte) : Z := Z.lor (Z.shiftl (b2z b0) 8) (b2z b1).
Fixpoint le_get (l : bytes) : Z :=
  match l with
  | [] => 0
  | b :: l => Z.lor (b2z b) (Z.shiftl (le_get l) 8)
  end.
Fixpoint le_put (n : nat) (z : Z) : bytes :=
  match n with
  | O => []
  | S n => z2b z :: le_put n (Z.shiftr z 8)
  end.
Definition be_put16 (z : Z) : bytes := [z2b (Z.shiftr z 8); z2b z].

Lemma lor_shiftl_8 a b : (0 ≤ b < 256)%Z → Z.lor (Z.shiftl a 8) b = (a * 256 + b)%Z.
Proof.
  intros Hb. assert (Z.land (Z.shiftl a 8) b = 0%Z) as Hl.
  { apply Z.bits_inj'. intros n Hn. rewrite Z.land_spec, Z.bits_0.
    destruct (decide (n < 8)%Z).
    - by rewrite Z.shiftl_spec_low by lia.
    - rewrite <-(Z.mod_small b (2 ^ 8)), Z.mod_pow2_bits_high by lia.
      apply andb_false_r. }
  pose proof (Z.add_lor_land (Z.shiftl a 8) b) as H.
  rewrite Hl in H. rewrite Z.shiftl_mul_pow2 in * by lia. lia.
Qed.

Lemma be16_eq b0 b1 : be16 b0 b1 = (b2z b0 * 256 + b2z b1)%Z.
Proof. apply lor_shiftl_8, b2z_range. Qed.

Lemma be16_range b0 b1 : (0 ≤ be16 b0 b1 < 65536)%Z.
Proof. rewrite be16_eq. pose proof (b2z_range b0). pose proof (b2z_range b1). lia. Qed.

Lemma le_get_cons b l : le_get (b :: l) = (b2z b + 256 * le_get l)%Z.
Proof. simpl. rewrite Z.lor_comm, lor_shiftl_8 by apply b2z_range. lia. Qed.

Lemma le_get_range l : (0 ≤ le_get l < 2 ^ (8 * Z.of_nat (length l)))%Z.
Proof.
  induction l as [|b l IH]; [simpl; lia|].
  rewrite le_get_cons, length_cons, Nat2Z.inj_succ, Z.mul_succ_r, Z.pow_add_r by lia.
  pose proof (b2z_range b). change (2 ^ 8)%Z with 256%Z. nia.
Qed.

Lemma length_le_put n z : length (le_put n z) = n.
Proof. revert z. induction n; intros z; simpl; auto. Qed.

Lemma le_get_put n z : le_get (le_put n z) = (z mod 2 ^ (8 * Z.of_nat n))%Z.
Proof.
  revert z. induction n as [|n IH]; intros z.
  { simpl. by rewrite Z.mod_1_r. }
  cbn [le_put]. rewrite le_get_cons, IH, b2z_z2b, Z.shiftr_div_pow2 by lia.
  rewrite Nat2Z.inj_succ, Z.mul_succ_r, Z.pow_add_r by lia.
  change (2 ^ 8)%Z with 256%Z.
  rewrite (Z.mul_comm (2 ^ _) 256), Z.rem_mul_r by lia. lia.
Qed.

Lemma le_put_inj n z1 z2 :
  (0 ≤ z1 < 2 ^ (8 * Z.of_nat n))%Z → (0 ≤ z2 < 2 ^ (8 * Z.of_nat n))%Z →
  le_put n z1 = le_put n z2 → z1 = z2.
Proof.
  intros H1 H2 H. apply (f_equal le_get) in H. rewrite !le_get_put in H.
  by rewrite !Z.mod_small in H by done.
Qed.

Lemma be16_put z :
  (0 ≤ z < 65536)%Z → be16 (z2b (Z.shiftr z 8)) (z2b z) = z.
Proof.
  intros Hz. rewrite be16_eq, !b2z_z2b, Z.shiftr_div_pow2 by lia.
  change (2 ^ 8)%Z with 256%Z. rewrite (Z.mod_small (z / 256)); [|split].
  - pose proof (Z.div_mod z 256). lia.
  - apply Z.div_pos; lia.
  - apply Z.div_lt_upper_bound; lia.
Qed.

(** ** Slices

    [l[lo:hi]] and [l[i]], with the panic that Go raises out of range.  (Go
    bounds a re-slice by the capacity; the model bounds it by the length, so a
    proof that the model does not panic also shows that no re-slice reaches
    past the length.) *)
Definition gslice {E A} (lo hi : nat) (l : list A) : go E (list A) :=
  if bool_decide (lo ≤ hi ∧ hi ≤ length l) then Ok (take (hi - lo) (drop lo l)) else Panic.
Definition gfrom {E A} (lo : nat) (l : list A) : go E (list A) := gslice lo (length l) l.
Definition gindex {E A} (i : nat) (l : list A) : go E A :=
  match l !! i with Some a => Ok a | None => Panic end.

Lemma gslice_ok {E A} lo hi (l : list A) :
  lo ≤ hi → hi ≤ length l → gslice (E:=E) lo hi l = Ok (take (hi - lo) (drop lo l)).
Proof. intros. unfold gslice. by rewrite bool_decide_true. Qed.

Lemma gfrom_ok {E A} lo (l : list A) :
  lo ≤ length l → gfrom (E:=E) lo l = Ok (drop lo l).
Proof.
  intros. unfold gfrom. rewrite gslice_ok by lia. f_equal.
  apply take_ge. rewrite length_drop. lia.
Qed.

Lemma gindex_ok {E A} i (l : list A) :
  i < length l → ∃ a, l !! i = Some a ∧ gindex (E:=E) i l = Ok a.
Proof.
  intros [a Ha]%lookup_lt_is_Some_2. exists a. unfold gindex. by rewrite Ha.
Qed.

(** ** First match in a list *)
(** [first f l]: the first [Some] that [f] gives along [l]; the shape of every
    first-match-wins loop of the program. *)
Fixpoint first {A B} (f : A → option B) (l : list A) : option B :=
  match l with
  | [] => None
  | x :: l => match f x with Some b => Some b | None => first f l end
  end.

Definition orelse {A} (x y : option A) : option A :=
  match x with Some a => Some a | None => y end.

Lemma first_app {A B} (f : A → option B) l k :
  first f (l ++ k) = orelse (first f l) (first f k).
Proof. induction l as [|x l IH]; simpl; [done|]. by destruct (f x). Qed.

Lemma first_ext {A B} (f g : A → option B) l :
  (∀ x, x ∈ l → f x = g x) → first f l = first g l.
Proof.
  induction l as [|x l IH]; simpl; [done|]. intros H.
  rewrite (H x), IH; [done| |left]. intros y Hy. apply H. by right.
Qed.

Lemma first_None {A B} (f : A → option B) l :
  first f l = None ↔ ∀ x, x ∈ l → f x = None.
Proof.
  induction l as [|x l IH]; simpl.
  - split; [|done]. intros _ y Hy. by apply not_elem_of_nil in Hy.
  - destruct (f x) eqn:E.
    + split; [done|]. intros H. rewrite (H x) in E; [done|left].
    + rewrite IH. split.
      * intros H y [->|Hy]%elem_of_cons; auto.
      * intros H y Hy. apply H. by right.
Qed.

Lemma first_Some {A B} (f : A → option B) l b :
  first f l = Some b →
  ∃ l1 x l2, l = l1 ++ x :: l2 ∧ f x = Some b ∧ ∀ y, y ∈ l1 → f y = None.
Proof.
  induction l as [|x l IH]; simpl; [done|].
  destruct (f x) as [b'|] eqn:E.
  - intros [= ->]. exists [], x, l. repeat split; [done|].
    intros y Hy. by apply not_elem_of_nil in Hy.
  - intros (l1 & y & l2 & -> & Hy & Hl1)%IH. exists (x :: l1), y, l2.
    repeat split; [done|]. intros z [->|Hz]%elem_of_cons; auto.
Qed.

Lemma first_map {A B C} (g : C → A) (f : A → option B) (l : list C) :
  first f (g <$> l) = first (f ∘ g) l.
Proof. induction l as [|x l IH]; simpl; [done|]. by destruct (f (g x)). Qed.

Lemma first_concat {A B C} (g : C → list A) (f : A → option B) (l : list C) :
  first f (l ≫= g) = first (λ x, first f (g x)) l.
Proof.
  induction l as [|x l IH]; [done|].
  rewrite bind_cons, first_app, IH. simpl. by destruct (first f (g x)).
Qed.

(** ** Automation *)
Create HintDb ebfw discriminated.
#[export] Hint Resolve b2z_range be16_range returns_bind : ebfw.

(** Split every boolean [if] and [match] in the goal, keeping equations. *)
Ltac cases :=
  repeat (case_match || case_bool_decide); simplify_eq/=; try done.
