(* ===== verification/GoStrings.v ===== *)
(** * The part of Go's [strings] package that ebfw uses

    A Go string is a byte sequence; here it is a [string] of 8-bit characters.
    [TrimSpace] and [Fields] follow [unicode.IsSpace] over the UTF-8 bytes.
    [ToLower] and [ToUpper] are written out for ASCII strings; what Go's Unicode
    case tables do to a string with a byte above 127 is data of the [unicode]
    package and a parameter, the class [UnicodeCase]. *)

From S2P Require Import Prelude.
From Stdlib Require Import Ascii.
From Stdlib Require String.
From stdpp Require Export pretty.

(** ** Strings as character lists *)
Abbreviation slen := String.length.
Definition chars (s : string) : list ascii := String.list_ascii_of_string s.
Definition of_chars (l : list ascii) : string := String.string_of_list_ascii l.

Lemma of_chars_chars s : of_chars (chars s) = s.
Proof. apply String.string_of_list_ascii_of_string. Qed.
Lemma chars_of_chars l : chars (of_chars l) = l.
Proof. apply String.list_ascii_of_string_of_list_ascii. Qed.
Lemma chars_inj s t : chars s = chars t → s = t.
Proof. intros H. by rewrite <-(of_chars_chars s), H, of_chars_chars. Qed.
Lemma chars_app s t : chars (s +:+ t) = chars s ++ chars t.
Proof. unfold chars. induction s as [|c s IH]; simpl; [done|]. by f_equal. Qed.
Lemma length_chars s : length (chars s) = slen s.
Proof. unfold chars. induction s as [|c s IH]; simpl; [done|]. by f_equal. Qed.
Lemma slen_app s t : slen (s +:+ t) = slen s + slen t.
Proof. by rewrite <-!length_chars, chars_app, length_app. Qed.
Lemma str_app_assoc s t u : s +:+ (t +:+ u) = (s +:+ t) +:+ u.
Proof. apply chars_inj. by rewrite !chars_app, (assoc_L (++)). Qed.
Lemma str_app_nil_r s : s +:+ "" = s.
Proof. apply chars_inj. by rewrite chars_app, app_nil_r. Qed.
Lemma str_app_inv_tail s t u : s +:+ u = t +:+ u → s = t.
Proof.
  intros H%(f_equal chars). rewrite !chars_app in H.
  by apply chars_inj, (inj (.++ chars u)).
Qed.
Lemma str_app_inv_head s t u : u +:+ s = u +:+ t → s = t.
Proof.
  intros H%(f_equal chars). rewrite !chars_app in H.
  by apply chars_inj, (inj (chars u ++.)).
Qed.
Create Rewrite HintDb ebfw_str.
#[export] Hint Rewrite chars_app slen_app str_app_nil_r : ebfw_str.

(** A string given by its bytes (used for the UTF-8 encodings below). *)
Definition bstr (l : list N) : string := of_chars (ascii_of_N <$> l).

(** ** Slicing *)
Definition str_take (n : nat) (s : string) : string := of_chars (take n (chars s)).
Definition str_drop (n : nat) (s : string) : string := of_chars (drop n (chars s)).

Lemma str_take_drop n s : str_take n s +:+ str_drop n s = s.
Proof.
  apply chars_inj. unfold str_take, str_drop.
  by rewrite chars_app, !chars_of_chars, take_drop.
Qed.
Lemma str_drop_app s t : str_drop (slen s) (s +:+ t) = t.
Proof.
  apply chars_inj. unfold str_drop. rewrite chars_of_chars, chars_app.
  by rewrite <-length_chars, drop_app_length.
Qed.
Lemma str_take_app s t : str_take (slen s) (s +:+ t) = s.
Proof.
  apply chars_inj. unfold str_take. rewrite chars_of_chars, chars_app.
  by rewrite <-length_chars, take_app_length.
Qed.

(** ** HasPrefix, HasSuffix, TrimPrefix, TrimSuffix *)
Definition HasPrefix (s prefix : string) : bool :=
  bool_decide (slen prefix ≤ slen s) && bool_decide (str_take (slen prefix) s = prefix).
Definition HasSuffix (s suffix : string) : bool :=
  bool_decide (slen suffix ≤ slen s) &&
  bool_decide (str_drop (slen s - slen suffix) s = suffix).
Definition TrimPrefix (s prefix : string) : string :=
  if HasPrefix s prefix then str_drop (slen prefix) s else s.
Definition TrimSuffix (s suffix : string) : string :=
  if HasSuffix s suffix then str_take (slen s - slen suffix) s else s.

Lemma HasPrefix_spec s p : HasPrefix s p = true ↔ ∃ t, s = p +:+ t.
Proof.
  unfold HasPrefix. rewrite andb_true_iff, !bool_decide_eq_true. split.
  - intros [_ H]. exists (str_drop (slen p) s). by rewrite <-H at 1; rewrite str_take_drop.
  - intros [t ->]. rewrite slen_app, str_take_app. split; [lia|done].
Qed.

Lemma HasSuffix_spec s suf : HasSuffix s suf = true ↔ ∃ t, s = t +:+ suf.
Proof.
  unfold HasSuffix. rewrite andb_true_iff, !bool_decide_eq_true. split.
  - intros [_ H]. exists (str_take (slen s - slen suf) s).
    by rewrite <-H at 2; rewrite str_take_drop.
  - intros [t ->]. rewrite slen_app. split; [lia|].
    replace (slen t + slen suf - slen suf) with (slen t) by lia. apply str_drop_app.
Qed.

Lemma TrimPrefix_app p s : TrimPrefix (p +:+ s) p = s.
Proof.
  unfold TrimPrefix. rewrite (proj2 (HasPrefix_spec _ _)) by eauto. apply str_drop_app.
Qed.
Lemma TrimSuffix_app s suf : TrimSuffix (s +:+ suf) suf = s.
Proof.
  unfold TrimSuffix. rewrite (proj2 (HasSuffix_spec _ _)) by eauto. rewrite slen_app.
  replace (slen s + slen suf - slen suf) with (slen s) by lia. apply str_take_app.
Qed.

(** ** Case mapping *)
Class UnicodeCase := {
  unicode_lower : string → string;
  unicode_upper : string → string;
}.

Definition is_ascii_char (c : ascii) : bool := (N_of_ascii c <? 128)%N.
Definition is_ascii (s : string) : bool := forallb is_ascii_char (chars s).
Definition lower_char (c : ascii) : ascii :=
  let n := N_of_ascii c in
  if (65 <=? n)%N && (n <=? 90)%N then ascii_of_N (n + 32) else c.
Definition upper_char (c : ascii) : ascii :=
  let n := N_of_ascii c in
  if (97 <=? n)%N && (n <=? 122)%N then ascii_of_N (n - 32) else c.

Definition ToLower `{UnicodeCase} (s : string) : string :=
  if is_ascii s then of_chars (lower_char <$> chars s) else unicode_lower s.
Definition ToUpper `{UnicodeCase} (s : string) : string :=
  if is_ascii s then of_chars (upper_char <$> chars s) else unicode_upper s.

(** The instance used by the worked examples: it leaves non-ASCII strings alone. *)
Definition ascii_case : UnicodeCase := {| unicode_lower := id; unicode_upper := id |}.

Lemma ascii_check (P : ascii → Prop) `{!∀ c, Decision (P c)} :
  forallb (λ c, bool_decide (P c)) (ascii_of_nat <$> seq 0 256) = true → ∀ c, P c.
Proof.
  intros Hall c. rewrite forallb_forall in Hall. apply (bool_decide_eq_true_1 _), Hall.
  apply list_elem_of_In, list_elem_of_fmap. exists (nat_of_ascii c).
  rewrite ascii_nat_embedding. split; [done|]. apply elem_of_seq.
  pose proof (nat_ascii_bounded c). lia.
Qed.

(** Prove a decidable fact of every character by running through the 256. *)
Ltac ascii_cases :=
  match goal with c : ascii |- _ => revert c end; refine (ascii_check _ _); by vm_compute.

Lemma lower_char_idemp c : lower_char (lower_char c) = lower_char c.
Proof. ascii_cases. Qed.
Lemma lower_char_ascii c : is_ascii_char (lower_char c) = is_ascii_char c.
Proof. ascii_cases. Qed.

Lemma is_ascii_lower s : is_ascii (of_chars (lower_char <$> chars s)) = is_ascii s.
Proof.
  unfold is_ascii. rewrite chars_of_chars. induction (chars s) as [|c l IH]; [done|].
  rewrite fmap_cons. cbn [forallb]. by rewrite lower_char_ascii, IH.
Qed.

Lemma is_ascii_app s t : is_ascii (s +:+ t) = is_ascii s && is_ascii t.
Proof. unfold is_ascii. by rewrite chars_app, forallb_app. Qed.

Lemma ToLower_idemp `{UnicodeCase} s :
  is_ascii s = true → ToLower (ToLower s) = ToLower s.
Proof.
  intros Hs. unfold ToLower. rewrite Hs, is_ascii_lower, Hs, chars_of_chars. f_equal.
  rewrite <-list_fmap_compose. apply list_fmap_ext. intros; apply lower_char_idemp.
Qed.

Lemma ToLower_app `{UnicodeCase} s t :
  is_ascii s = true → is_ascii t = true → ToLower (s +:+ t) = ToLower s +:+ ToLower t.
Proof.
  intros Hs Ht. unfold ToLower. rewrite is_ascii_app, Hs, Ht. simpl.
  apply chars_inj. by rewrite !chars_app, !chars_of_chars, fmap_app.
Qed.

(** ** EqualFold against an ASCII literal

    Simple folding maps exactly two non-ASCII runes to ASCII letters: U+017F to
    [s] and U+212A to [k]; every other non-ASCII rune differs from each ASCII one. *)
Definition u017f : string := bstr [197; 191]%N.
Definition u212a : string := bstr [226; 132; 170]%N.

Fixpoint equal_fold_ascii (s : list ascii) (lit : list ascii) : bool :=
  match lit with
  | [] => bool_decide (s = [])
  | l :: lit' =>
      let l := lower_char l in
      match s with
      | [] => false
      | c :: s' =>
          if bool_decide (lower_char c = l) then equal_fold_ascii s' lit'
          else match s with
               | c1 :: c2 :: s2 =>
                   if bool_decide ([c1; c2] = chars u017f) && bool_decide (l = "s"%char)
                   then equal_fold_ascii s2 lit'
                   else match s2 with
                        | c3 :: s3 =>
                            if bool_decide ([c1; c2; c3] = chars u212a) && bool_decide (l = "k"%char)
                            then equal_fold_ascii s3 lit' else false
                        | [] => false
                        end
               | _ => false
               end
      end
  end.
Definition EqualFold (s lit : string) : bool := equal_fold_ascii (chars s) (chars lit).

(** ** White space *)
(** The UTF-8 encodings of the runes of [unicode.IsSpace]. *)
Definition space_runes : list string :=
  bstr <$> [[9]; [10]; [11]; [12]; [13]; [32];
            [194; 133]; [194; 160]; [225; 154; 128];
            [226; 128; 128]; [226; 128; 129]; [226; 128; 130]; [226; 128; 131];
            [226; 128; 132]; [226; 128; 133]; [226; 128; 134]; [226; 128; 135];
            [226; 128; 136]; [226; 128; 137]; [226; 128; 138];
            [226; 128; 168]; [226; 128; 169]; [226; 128; 175];
            [226; 129; 159]; [227; 128; 128]]%N.

Definition prefix_of_list (p l : list ascii) : bool := bool_decide (take (length p) l = p).

(** Width of the space rune at the head (0: the head is not a space). *)
Definition space_width (runes : list (list ascii)) (l : list ascii) : nat :=
  match list_find (λ p, prefix_of_list p l = true) runes with
  | Some (_, p) => length p
  | None => 0
  end.

Fixpoint trim_left_runes (runes : list (list ascii)) (fuel : nat) (l : list ascii) : list ascii :=
  match fuel with
  | O => l
  | S fuel =>
      match space_width runes l with
      | O => l
      | w => trim_left_runes runes fuel (drop w l)
      end
  end.

Definition space_chars : list (list ascii) := chars <$> space_runes.
Definition TrimLeftSpace (l : list ascii) : list ascii :=
  trim_left_runes space_chars (length l) l.
Definition TrimRightSpace (l : list ascii) : list ascii :=
  reverse (trim_left_runes (reverse <$> space_chars) (length l) (reverse l)).
Definition TrimSpace (s : string) : string :=
  of_chars (TrimRightSpace (TrimLeftSpace (chars s))).

(** [strings.TrimRight(s, "c")] and [strings.Trim(s, "c")] for one character. *)
Fixpoint drop_char (c : ascii) (l : list ascii) : list ascii :=
  match l with
  | [] => []
  | a :: l' => if bool_decide (a = c) then drop_char c l' else l
  end.
Definition TrimRightChar (c : ascii) (s : string) : string :=
  of_chars (reverse (drop_char c (reverse (chars s)))).
Definition TrimChar (c : ascii) (s : string) : string :=
  TrimRightChar c (of_chars (drop_char c (chars s))).

(** ** IndexByte, Cut, Split, SplitN, Fields *)
Fixpoint cut_chars (sep : ascii) (l : list ascii) : option (list ascii * list ascii) :=
  match l with
  | [] => None
  | c :: l => if bool_decide (c = sep) then Some ([], l)
              else prod_map (c ::.) id <$> cut_chars sep l
  end.
(** [strings.Cut(s, sep)] for a one-character separator: [None] is [found = false]. *)
Definition Cut (sep : ascii) (s : string) : option (string * string) :=
  prod_map of_chars of_chars <$> cut_chars sep (chars s).

Fixpoint split_chars (sep : ascii) (l : list ascii) : list (list ascii) :=
  match l with
  | [] => [[]]
  | c :: l =>
      if bool_decide (c = sep) then [] :: split_chars sep l
      else match split_chars sep l with
           | w :: ws => (c :: w) :: ws
           | [] => [[c]]
           end
  end.
Definition Split (sep : ascii) (s : string) : list string := of_chars <$> split_chars sep (chars s).

(** [strings.SplitN(s, sep, n)] for [n > 0]: at most [n] pieces. *)
Fixpoint SplitN (sep : ascii) (n : nat) (s : string) : list string :=
  match n with
  | S (S _ as n') =>
      match Cut sep s with
      | Some (a, b) => a :: SplitN sep n' b
      | None => [s]
      end
  | _ => [s]
  end.

(** [strings.Fields]: the maximal runs of non-space bytes. *)
Fixpoint fields_chars (fuel : nat) (cur : list ascii) (l : list ascii) : list (list ascii) :=
  let flush := match cur with [] => [] | _ => [reverse cur] end in
  match fuel, l with
  | S fuel, c :: l' =>
      match space_width space_chars l with
      | O => fields_chars fuel (c :: cur) l'
      | w => flush ++ fields_chars fuel [] (drop w l)
      end
  | _, _ => flush
  end.
Definition Fields (s : string) : list string :=
  of_chars <$> fields_chars (length (chars s)) [] (chars s).

(** ** Lemmas on splitting *)
Lemma split_chars_ne sep l : split_chars sep l ≠ [].
Proof. destruct l as [|c l]; simpl; [done|]. case_bool_decide; [done|]. by destruct split_chars. Qed.

Lemma split_chars_app sep a b :
  split_chars sep (a ++ sep :: b) = split_chars sep a ++ split_chars sep b.
Proof.
  induction a as [|c a IH]; simpl; [by rewrite bool_decide_true|].
  case_bool_decide; rewrite IH; [done|].
  destruct (split_chars sep a) eqn:E; [by apply split_chars_ne in E|done].
Qed.

(** The inverse of [split_chars]. *)
Fixpoint join_chars (sep : ascii) (ws : list (list ascii)) : list ascii :=
  match ws with
  | [] => []
  | [w] => w
  | w :: ws => w ++ sep :: join_chars sep ws
  end.

Lemma join_split_chars sep l : join_chars sep (split_chars sep l) = l.
Proof.
  induction l as [|c l IH]; simpl; [done|]. case_bool_decide; subst.
  - destruct (split_chars sep l) eqn:E; [by apply split_chars_ne in E|].
    rewrite <-IH. done.
  - destruct (split_chars sep l) as [|w [|w' ws]] eqn:E; [by apply split_chars_ne in E|..];
      rewrite <-IH; done.
Qed.

Lemma join_chars_app sep a b :
  a ≠ [] → b ≠ [] → join_chars sep (a ++ b) = join_chars sep a ++ sep :: join_chars sep b.
Proof.
  intros Ha Hb. induction a as [|w a IH]; [done|].
  destruct a as [|w' a]; simpl in *.
  - by destruct b.
  - rewrite IH by done. by rewrite <-(assoc_L (++)).
Qed.

Lemma split_chars_inj sep a b : split_chars sep a = split_chars sep b → a = b.
Proof. intros H. by rewrite <-(join_split_chars sep a), H, join_split_chars. Qed.

(** A list whose split ends with the split of [b] ends with [b] after a separator
    (or is [b]). *)
Lemma split_chars_suffix sep a b :
  (∃ pre, split_chars sep a = pre ++ split_chars sep b) ↔
  a = b ∨ ∃ t, a = t ++ sep :: b.
Proof.
  split.
  - intros [[|w pre] H].
    + left. by apply split_chars_inj in H.
    + right. exists (join_chars sep (w :: pre)).
      rewrite <-(join_split_chars sep a), H, join_chars_app by (done || apply split_chars_ne).
      by rewrite join_split_chars.
  - intros [->|[t ->]]; [by exists []|]. exists (split_chars sep t). apply split_chars_app.
Qed.

Lemma cut_chars_spec sep l a b :
  cut_chars sep l = Some (a, b) ↔ l = a ++ sep :: b ∧ sep ∉ a.
Proof.
  revert a b. induction l as [|c l IH]; intros a b; simpl.
  { split; [done|]. intros [H _]. by destruct a. }
  case_bool_decide as Hc; subst.
  - split; [intros [= <- <-]; split; [done|apply not_elem_of_nil]|].
    intros [H Ha]. destruct a as [|c' a]; simplify_eq/=; [done|].
    exfalso. apply Ha. left.
  - rewrite fmap_Some. split.
    + intros ([a' b'] & (-> & Ha)%IH & [= -> ->]). split; [done|].
      rewrite not_elem_of_cons. auto.
    + intros [H Ha]. destruct a as [|c' a]; simplify_eq/=.
      exists (a, b). rewrite IH. rewrite not_elem_of_cons in Ha. naive_solver.
Qed.
Lemma Cut_app c a b : c ∉ chars a → Cut c (a +:+ String c b) = Some (a, b).
Proof.
  intros Ha. unfold Cut. rewrite chars_app. change (chars (String c b)) with (c :: chars b).
  rewrite (proj2 (cut_chars_spec c _ (chars a) (chars b))) by done. simpl. by rewrite !of_chars_chars.
Qed.

Lemma cut_chars_None sep l : cut_chars sep l = None ↔ sep ∉ l.
Proof.
  induction l as [|c l IH]; simpl; [split; [intros; apply not_elem_of_nil|done]|].
  case_bool_decide; subst.
  - split; [done|]. intros H. exfalso. apply H. left.
  - rewrite fmap_None, IH, not_elem_of_cons. naive_solver.
Qed.

(** ** Trimming a string that has nothing to trim *)
Lemma TrimSpace_of_clean (s : string) :
  space_width space_chars (chars s) = 0 →
  space_width (reverse <$> space_chars) (reverse (chars s)) = 0 →
  TrimSpace s = s.
Proof.
  intros H1 H2. unfold TrimSpace, TrimLeftSpace, TrimRightSpace.
  assert (∀ r n l, space_width r l = 0 → trim_left_runes r n l = l) as Ht.
  { intros r [|n] l H; simpl; [done|]. by rewrite H. }
  rewrite (Ht _ _ _ H1), (Ht _ _ _ H2), reverse_involutive. apply of_chars_chars.
Qed.
