(* ===== verification/GoFlag.v ===== *)
(** * The [flag] package

    [FlagSet.Parse] over a set of typed flags, as the two commands and the policy
    tester use it: what an argument looks like, boolean flags that take no separate
    value, the help request, and where parsing stops. *)

From S2P Require Import Prelude GoStrings.
From Stdlib Require Import Ascii.

(** ** Arguments *)
Inductive arg_kind := Positional | Terminator | BadFlag | Flag (name : string) (value : option string).
Definition classify (arg : string) : arg_kind :=
  match chars arg with
  | "-"%char :: c :: l =>
      if bool_decide (c = "-"%char) && bool_decide (l = []) then Terminator
      else
        let name := if bool_decide (c = "-"%char) then l else c :: l in
        match name with
        | [] => BadFlag
        | n0 :: _ =>
            if bool_decide (n0 = "-"%char) || bool_decide (n0 = "="%char) then BadFlag
            else match Cut "="%char (of_chars name) with
                 | Some (n, v) => Flag n (Some v)
                 | None => Flag (of_chars name) None
                 end
        end
  | _ => Positional
  end.

(** [strconv.ParseBool]. *)
Definition ParseBool (s : string) : option bool :=
  if bool_decide (s ∈ ["1"; "t"; "T"; "TRUE"; "true"; "True"]) then Some true
  else if bool_decide (s ∈ ["0"; "f"; "F"; "FALSE"; "false"; "False"]) then Some false
  else None.

(** ** Flag sets *)
(** [fs_bool name]: [None] when no such flag is defined, else whether it is a
    boolean flag; [fs_set] is the flag's [Set], [None] an error. *)
Record FlagSet (S : Type) := { fs_bool : string → option bool; fs_set : string → string → S → option S }.
Arguments fs_bool {_} _ _. Arguments fs_set {_} _ _ _ _.
Inductive parse_error := ErrHelp | ErrParse.

Section parse.
Context {S : Type} (fs : FlagSet S).
Definition assign (name value : string) (s : S) : go parse_error S :=
  match fs_set fs name value s with Some s => Ok s | None => Err ErrParse end.
(** [FlagSet.Parse]: the values and the arguments left. *)
Fixpoint Parse (args : list string) (s : S) : go parse_error (S * list string) :=
  match args with
  | [] => Ok (s, [])
  | a :: args' =>
      match classify a with
      | Positional => Ok (s, args)
      | Terminator => Ok (s, args')
      | BadFlag => Err ErrParse
      | Flag name value =>
          match fs_bool fs name with
          | None => Err (if bool_decide (name ∈ ["help"; "h"]) then ErrHelp else ErrParse)
          | Some true => s ← assign name (default "true" value) s; Parse args' s
          | Some false =>
              match value, args' with
              | Some v, _ => s ← assign name v s; Parse args' s
              | None, v :: args' => s ← assign name v s; Parse args' s
              | None, [] => Err ErrParse
              end
          end
      end
  end.
Lemma Parse_returns args s : returns (Parse args s).
Proof.
  remember (length args) as n eqn:Hn. revert args s Hn. induction (lt_wf n) as [n _ IH]. intros [|a args] s ->; [done|].
  cbn [Parse]. destruct (classify a) as [| | |name value]; try done. unfold assign.
  destruct (fs_bool fs name) as [[]|]; [|destruct value as [v|]|done].
  - destruct (fs_set fs name _ s); [|done]. cbn [mbind go_bind]. eapply IH; [|done]. simpl. lia.
  - destruct (fs_set fs name _ s); [|done]. cbn [mbind go_bind]. eapply IH; [|done]. simpl. lia.
  - destruct args as [|v args]; [done|]. destruct (fs_set fs name _ s); [|done]. cbn [mbind go_bind]. eapply IH; [|done]. simpl. lia.
Qed.
(** With [ExitOnError]: the process's exit code on an error. *)
Definition exit_code (e : parse_error) : Z := match e with ErrHelp => 0 | ErrParse => 2 end.

(** ** Facts *)
(** [-name=value] as one argument. *)
Definition put_flag (nv : string * string) : string := "-" +:+ nv.1 +:+ String "=" nv.2.
Definition flag_name (n : string) : Prop :=
  match chars n with [] => False | c :: _ => c ≠ "-"%char ∧ "="%char ∉ chars n end.

Lemma classify_put_flag n v : flag_name n → classify (put_flag (n, v)) = Flag n (Some v).
Proof.
  unfold flag_name, classify, put_flag. intros Hn. cbn [fst snd].
  rewrite !chars_app. change (chars "-") with ["-"%char]. cbn [app].
  pose proof (Cut_app "="%char n v) as Hcut.
  assert (n +:+ String "=" v = of_chars (chars n ++ chars (String "=" v))) as E by (by rewrite <-chars_app, of_chars_chars).
  destruct (chars n) as [|c l] eqn:Ec; [done|]. destruct Hn as [Hc He]. cbn [app] in *.
  rewrite !(bool_decide_false (c = "-"%char)) by done. cbn [andb orb].
  rewrite <-E. rewrite (bool_decide_false (c = "="%char)) by set_solver. cbn [orb]. by rewrite Hcut.
Qed.
(** What a sequence of assignments does, in order. *)
Definition assigns (nvs : list (string * string)) (s : S) : go parse_error S :=
  foldl (λ r nv, s ← r; assign nv.1 nv.2 s) (Ok s) nvs.
Lemma assigns_err nvs e : foldl (λ r nv, s ← r; assign nv.1 nv.2 s) (Err e) nvs = Err e.
Proof. induction nvs; done. Qed.
(** Arguments written as [-name=value] assign each flag in turn, whatever its
    type, the last value winning. *)
Lemma Parse_put_flags nvs s :
  Forall (λ nv, flag_name nv.1 ∧ is_Some (fs_bool fs nv.1)) nvs →
  Parse (put_flag <$> nvs) s = (s' ← assigns nvs s; Ok (s', [])).
Proof.
  intros Hn. revert s. induction Hn as [|[n v] nvs [Hn [b Hb]] _ IH]; intros s; [done|].
  cbn [fmap list_fmap Parse]. rewrite classify_put_flag by done. cbn [fst] in Hb. rewrite Hb.
  unfold assigns. cbn [foldl mbind go_bind fst snd].
  assert (assign n v s = Err ErrParse ∨ ∃ s', assign n v s = Ok s') as [E|[s' E]]
    by (unfold assign; destruct (fs_set fs n v s); eauto).
  - destruct b; cbn [default from_option id]; rewrite E; cbn [mbind go_bind]; by rewrite assigns_err.
  - destruct b; cbn [default from_option id]; rewrite E; cbn [mbind go_bind]; apply IH.
Qed.
End parse.
