(* ===== verification/Memory.v ===== *)
(** * Go memory: shared arrays and maps

    Most of the development treats slices and maps as values.  Where the program
    shares them (the deep copies of the API types, the conversion of a resource to
    a policy, folding a selector into a rule) this file gives the memory under
    them: a heap of arrays and maps, [view]s that read an object together with the
    locations it reaches, and programs on the heap.  [yields D h m w x] is the
    judgement used throughout: [m] runs on [h], changes nothing that is there, and
    its result reads as [x] without reaching any location in [D]. *)

From S2P Require Import Prelude.

Abbreviation loc := nat.
Abbreviation heap c := (gmap loc c).

(** ** Views *)
Definition view (c A : Type) : Type := heap c → option (A * gset loc).
#[export] Instance view_ret {c} : MRet (view c) := λ A a h, Some (a, ∅).
#[export] Instance view_bind {c} : MBind (view c) := λ A B k v h,
  match v h with
  | None => None
  | Some (a, fp) => match k a h with None => None | Some (b, fp') => Some (b, fp ∪ fp') end
  end.
Definition vread {c} (l : loc) : view c c := λ h, (λ x, (x, {[l]})) <$> h !! l.
Definition vof {c A} (o : option A) : view c A := λ h, (λ a, (a, ∅)) <$> o.
Fixpoint vmapM {c A B} (w : A → view c B) (l : list A) : view c (list B) :=
  match l with
  | [] => mret []
  | a :: l => b ← w a; bs ← vmapM w l; mret (b :: bs)
  end.

(** A view depends on the locations it reports, and these exist. *)
Class Local {c A} (v : view c A) : Prop := {
  local h h' a fp : v h = Some (a, fp) → (∀ l, l ∈ fp → h' !! l = h !! l) → v h' = Some (a, fp);
  grounded h a fp : v h = Some (a, fp) → fp ⊆ dom h
}.
#[export] Instance ret_local {c A} (a : A) : Local (c := c) (mret a).
Proof. split; unfold mret, view_ret; intros; simplify_eq; [done|set_solver]. Qed.
#[export] Instance of_local {c A} (o : option A) : Local (c := c) (vof o).
Proof. destruct o; split; unfold vof; simpl; intros; simplify_eq; [done|set_solver]. Qed.
#[export] Instance read_local {c} l : Local (c := c) (vread l).
Proof.
  split; unfold vread; intros h.
  - intros h' a fp. destruct (h !! l) eqn:E; intros; simplify_eq/=. rewrite H0, E by set_solver. done.
  - intros a fp. destruct (h !! l) eqn:E; intros; simplify_eq/=. assert (l ∈ dom h) by (apply elem_of_dom; eauto); set_solver.
Qed.
#[export] Instance bind_local {c A B} (k : A → view c B) v : Local v → (∀ a, Local (k a)) → Local (v ≫= k).
Proof.
  intros Hv Hk. split; unfold mbind, view_bind.
  - intros h h' b fp E Hl. destruct (v h) as [[a fp1]|] eqn:E1; [|done]. destruct (k a h) as [[b' fp2]|] eqn:E2; [|done]. simplify_eq.
    rewrite (local h h' a fp1 E1) by set_solver. rewrite (local h h' b fp2 E2) by set_solver. done.
  - intros h b fp E. destruct (v h) as [[a fp1]|] eqn:E1; [|done]. destruct (k a h) as [[b' fp2]|] eqn:E2; [|done]. simplify_eq.
    apply (grounded h) in E1, E2. set_solver.
Qed.
#[export] Instance mapM_local {c A B} (w : A → view c B) l : (∀ a, Local (w a)) → Local (vmapM w l).
Proof. intros Hw. induction l; simpl; apply _. Qed.

(** [reads D h v x]: [v] is [x] in [h], reached without the locations in [D]. *)
Definition reads {c A} (D : gset loc) (h : heap c) (v : view c A) (x : A) : Prop :=
  ∃ fp, v h = Some (x, fp) ∧ fp ## D.

Section reads.
Context {c : Type}.
Implicit Types (h : heap c) (D : gset loc).

Lemma reads_det {A} D D' h (v : view c A) x y : reads D h v x → reads D' h v y → x = y.
Proof. intros (? & E & _) (? & E' & _). congruence. Qed.
Lemma reads_weaken {A} D D' h (v : view c A) x : D' ⊆ D → reads D h v x → reads D' h v x.
Proof. intros HD (fp & E & Hd). exists fp. split; [done|set_solver]. Qed.
Lemma reads_mono {A} D h h' (v : view c A) `{!Local v} x : reads D h v x → h ⊆ h' → reads D h' v x.
Proof.
  intros (fp & E & Hd) Hs. exists fp. split; [|done]. apply (local h h'); [done|]. intros l Hin.
  apply (grounded h) in E. apply E in Hin. apply elem_of_dom in Hin as [y Hy]. rewrite Hy. by eapply lookup_weaken.
Qed.
Lemma reads_insert {A} D h l y (v : view c A) `{!Local v} x : l ∈ D → reads D h v x → reads D (<[l := y]> h) v x.
Proof.
  intros Hin (fp & E & Hd). exists fp. split; [|done]. apply (local h); [done|]. intros k Hk. apply lookup_insert_ne. set_solver.
Qed.
Lemma reads_ret {A} D h (x y : A) : reads (c := c) D h (mret x) y ↔ x = y.
Proof. split; [by intros (? & [= <- _] & _)|intros ->; exists ∅; by split; [|set_solver]]. Qed.
Lemma reads_of {A} D h (o : option A) y : reads (c := c) D h (vof o) y ↔ o = Some y.
Proof.
  unfold vof. split; [intros (? & E & _); destruct o; simplify_eq/=; done|intros ->; exists ∅; by split; [|set_solver]].
Qed.
Lemma reads_read D h l y : reads D h (vread l) y ↔ h !! l = Some y ∧ l ∉ D.
Proof.
  unfold vread. split; [intros (? & E & Hd); destruct (h !! l); simplify_eq/=; set_solver|].
  intros [E Hl]. exists {[l]}. rewrite E. split; [done|set_solver].
Qed.
Lemma reads_bind {A B} D h (k : A → view c B) v y : reads D h (v ≫= k) y ↔ ∃ x, reads D h v x ∧ reads D h (k x) y.
Proof.
  unfold reads, mbind, view_bind. split.
  - intros (fp & E & Hd). destruct (v h) as [[a fp1]|] eqn:E1; [|done]. destruct (k a h) as [[b fp2]|] eqn:E2; [|done]. simplify_eq.
    exists a. split; [exists fp1|exists fp2]; split; set_solver.
  - intros (x & (fp1 & -> & ?) & (fp2 & -> & ?)). exists (fp1 ∪ fp2). split; [done|set_solver].
Qed.
Lemma reads_mapM {A B} D h (w : A → view c B) l ys : reads D h (vmapM w l) ys ↔ Forall2 (λ a y, reads D h (w a) y) l ys.
Proof.
  revert ys. induction l as [|a l IH]; intros ys; cbn [vmapM].
  - rewrite reads_ret. split; [by intros <-|by intros ?%Forall2_nil_inv_l].
  - rewrite reads_bind. setoid_rewrite reads_bind. setoid_rewrite reads_ret. setoid_rewrite IH. split; [naive_solver|].
    intros (? & ? & ? & ? & ->)%Forall2_cons_inv_l. eauto.
Qed.
End reads.

(** What was read stays readable while the heap grows. *)
Ltac still := first [eassumption | eapply reads_mono; [apply _ | eassumption | first [eassumption | etrans; eassumption | etrans; [|etrans]; eassumption]]].

(** ** Programs *)
Definition mem (c A : Type) : Type := heap c → option (A * heap c).
#[export] Instance mem_ret {c} : MRet (mem c) := λ A a h, Some (a, h).
#[export] Instance mem_bind {c} : MBind (mem c) := λ A B k m h,
  match m h with None => None | Some (a, h) => k a h end.
(** Reading through a view; allocating; writing. *)
Definition observe {c A} (v : view c A) : mem c A := λ h, (λ r, (r.1, h)) <$> v h.
Definition alloc {c} (x : c) : mem c loc := λ h, let l := fresh (dom h) in Some (l, <[l := x]> h).
Definition store {c} (l : loc) (x : c) : mem c unit := λ h, if bool_decide (is_Some (h !! l)) then Some (tt, <[l := x]> h) else None.
Fixpoint mmapM {c A B} (f : A → mem c B) (l : list A) : mem c (list B) :=
  match l with
  | [] => mret []
  | a :: l => b ← f a; bs ← mmapM f l; mret (b :: bs)
  end.
Fixpoint mfoldM {c S A} (f : S → A → mem c S) (st : S) (l : list A) : mem c S :=
  match l with
  | [] => mret st
  | a :: l => st ← f st a; mfoldM f st l
  end.

Definition yields {c A V} (D : gset loc) (h : heap c) (m : mem c A) (w : A → view c V) (x : V) : Prop :=
  D ⊆ dom h → ∃ a h', m h = Some (a, h') ∧ h ⊆ h' ∧ reads D h' (w a) x.

Section yields.
Context {c : Type}.
Implicit Types (h : heap c) (D : gset loc).

Lemma yields_ret {A V} D h (a : A) (w : A → view c V) x : reads D h (w a) x → yields D h (mret a) w x.
Proof. intros Hr _. by exists a, h. Qed.
Lemma yields_bind {A B V W} D h (m : mem c A) (k : A → mem c B) (w : A → view c V) (w' : B → view c W) x y :
  yields D h m w x → (∀ a h', h ⊆ h' → reads D h' (w a) x → yields D h' (k a) w' y) → yields D h (m ≫= k) w' y.
Proof.
  intros Hm Hk HD. destruct (Hm HD) as (a & h' & E & Hs & Hr).
  destruct (Hk a h' Hs Hr) as (b & h'' & E' & Hs' & Hr'); [by etrans; [|apply subseteq_dom]|].
  exists b, h''. unfold mbind, mem_bind. rewrite E. split; [done|]. split; [by etrans|done].
Qed.
Lemma yields_observe {A B W} D D' h (v : view c A) (k : A → mem c B) (w' : B → view c W) x y :
  reads D' h v x → yields D h (k x) w' y → yields D h (observe v ≫= k) w' y.
Proof. intros (fp & E & _) Hk HD. unfold mbind, mem_bind, observe. rewrite E. simpl. by apply Hk. Qed.
Lemma yields_weaken {A V} D D' h (m : mem c A) (w : A → view c V) x : D' ⊆ D → D ⊆ dom h → yields D h m w x → yields D' h m w x.
Proof. intros HD HD' Hy _. destruct (Hy HD') as (a & h' & E & Hs & Hr). exists a, h'. eauto using reads_weaken. Qed.
Lemma yields_alloc {V} D h (y : c) (w : loc → view c V) x :
  (∀ l, l ∉ dom h → l ∉ D → reads D (<[l := y]> h) (w l) x) → yields D h (alloc y) w x.
Proof.
  intros Hr HD. eexists _, _. split; [done|]. pose proof (is_fresh (dom h)) as Hf.
  split; [by apply insert_subseteq, not_elem_of_dom|]. apply Hr; [done|set_solver].
Qed.
Lemma yields_mapM {A B V} D h (f : A → mem c B) (w : B → view c V) l xs :
  (∀ b, Local (w b)) →
  Forall2 (λ a x, ∀ h', h ⊆ h' → yields D h' (f a) w x) l xs → yields D h (mmapM f l) (vmapM w) xs.
Proof.
  intros Hw HF. assert (∀ h', h ⊆ h' → yields D h' (mmapM f l) (vmapM w) xs) as Hgo; [|by apply Hgo].
  induction HF as [|a x l xs Ha _ IH]; intros h' Hs; cbn [mmapM]; [by apply yields_ret, reads_ret|].
  eapply yields_bind; [by apply Ha|]. intros b h1 Hs1 Hb. eapply yields_bind; [apply IH; by etrans|]. intros bs h2 Hs2 Hbs.
  apply yields_ret. cbn [vmapM]. rewrite reads_bind. exists x. split; [still|].
  rewrite reads_bind. exists xs. split; [done|]. by rewrite reads_ret.
Qed.
Lemma yields_foldM {S A V B} D h (f : S → A → mem c S) (w : S → view c V) (g : V → B → V) (wa : A → view c B) l ys st x :
  (∀ a, Local (wa a)) →
  (∀ h' st x a b, reads D h' (w st) x → reads D h' (wa a) b → yields D h' (f st a) w (g x b)) →
  Forall2 (λ a b, reads D h (wa a) b) l ys → reads D h (w st) x → yields D h (mfoldM f st l) w (fold_left g ys x).
Proof.
  intros Hwa Hf HF. assert (∀ h' st x, h ⊆ h' → reads D h' (w st) x → yields D h' (mfoldM f st l) w (fold_left g ys x)) as Hgo; [|by apply Hgo].
  induction HF as [|a b l ys Ha _ IH]; intros h' st' x' Hs Hst; cbn [mfoldM fold_left]; [by apply yields_ret|].
  eapply yields_bind; [apply Hf; [done|still]|]. intros st2 h2 Hs2 Hst2. apply IH; [by etrans|done].
Qed.
End yields.

(** [f] returns a copy: what its argument reads as, with none of the locations in
    use before. *)
Definition copies {c A V} (f : A → mem c A) (w : A → view c V) : Prop :=
  ∀ h a x, reads ∅ h (w a) x → yields (dom h) h (f a) w x.

(** ** Slices *)
Record slice := { sl_arr : loc; sl_off : nat; sl_len : nat; sl_cap : nat }.
#[export] Instance slice_eq_dec : EqDecision slice.
Proof. solve_decision. Defined.
(** The types arrays can have; a variable is an array of one. *)
Class Elem (c A : Type) := {
  inj : list A → c; proj : c → option (list A); zero : A;
  proj_inj xs : proj (inj xs) = Some xs
}.

Section slices.
Context {c A : Type} `{!Elem c A}.

Definition array (l : loc) : view c (list A) := x ← vread l; vof (proj x).
(** The elements of a slice; nil has none. *)
Definition elems (s : option slice) : view c (list A) :=
  match s with
  | None => mret []
  | Some s => xs ← array (sl_arr s);
              if bool_decide (sl_off s + sl_len s ≤ length xs) then mret (take (sl_len s) (drop (sl_off s) xs)) else vof None
  end.
Definition slice_view {V} (w : A → view c V) (s : option slice) : view c (list V) := xs ← elems s; vmapM w xs.
(** A pointer. *)
Definition variable (l : loc) : view c A := xs ← array l; match xs with [x] => mret x | _ => vof None end.
Definition pointer_view {V} (w : A → view c V) (l : loc) : view c V := x ← variable l; w x.

Definition make (n : nat) : mem c slice :=
  l ← alloc (inj (replicate n zero)); mret {| sl_arr := l; sl_off := 0; sl_len := n; sl_cap := n |}.
(** [s[i] = x]. *)
Definition set_at (s : slice) (i : nat) (x : A) : mem c unit :=
  xs ← observe (array (sl_arr s)); store (sl_arr s) (inj (<[sl_off s + i := x]> xs)).
(** The builtin [copy(dst, src)]. *)
Definition copy (dst src : slice) : mem c unit :=
  xs ← observe (elems (Some src)); ys ← observe (array (sl_arr dst));
  let n := sl_len dst `min` sl_len src in
  store (sl_arr dst) (inj (take (sl_off dst) ys ++ take n xs ++ drop (sl_off dst + n) ys)).
(** A slice built by appending to nil; the arrays outgrown on the way are garbage. *)
Definition of_list (xs : list A) : mem c (option slice) :=
  match xs with
  | [] => mret None
  | _ => l ← alloc (inj xs); mret (Some {| sl_arr := l; sl_off := 0; sl_len := length xs; sl_cap := length xs |})
  end.
Definition new (x : A) : mem c loc := alloc (inj [x]).

(** The two ways generated code copies a slice that is not nil. *)
Definition copy_plain (s : option slice) : mem c (option slice) :=
  match s with
  | None => mret None
  | Some src => dst ← make (sl_len src); copy dst src;; mret (Some dst)
  end.
Fixpoint copy_loop (f : A → mem c A) (src dst : slice) (i k : nat) : mem c unit :=
  match k with
  | 0 => mret tt
  | S k => xs ← observe (elems (Some src));
           match xs !! i with
           | None => λ _, None
           | Some x => y ← f x; set_at dst i y;; copy_loop f src dst (S i) k
           end
  end.
Definition copy_each (f : A → mem c A) (s : option slice) : mem c (option slice) :=
  match s with
  | None => mret None
  | Some src => dst ← make (sl_len src); copy_loop f src dst 0 (sl_len src);; mret (Some dst)
  end.
(** [for i := range s { s[i] = f(s[i]) }]. *)
Fixpoint update_loop (f : A → A) (s : slice) (i k : nat) : mem c unit :=
  match k with
  | 0 => mret tt
  | S k => xs ← observe (array (sl_arr s));
           match xs !! (sl_off s + i) with
           | None => λ _, None
           | Some x => set_at s i (f x);; update_loop f s (S i) k
           end
  end.
(** [DeepCopy] of a type, from its [DeepCopyInto]. *)
Definition deep_copy (f : A → mem c A) (p : option loc) : mem c (option loc) :=
  match p with
  | None => mret None
  | Some l => out ← new zero; x ← observe (variable l); y ← f x; store out (inj [y]);; mret (Some out)
  end.
End slices.

Section slice_lemmas.
Context {c A : Type} `{!Elem c A}.
Implicit Types (h : heap c) (D : gset loc).

#[global] Instance array_local l : Local (array (c := c) (A := A) l).
Proof. apply _. Qed.
#[global] Instance elems_local s : Local (elems (c := c) (A := A) s).
Proof. destruct s as [s|]; [|apply _]. apply bind_local; [apply _|]. intros xs. case_bool_decide; apply _. Qed.
#[global] Instance slice_view_local {V} (w : A → view c V) s : (∀ a, Local (w a)) → Local (slice_view w s).
Proof. apply _. Qed.
#[global] Instance variable_local l : Local (variable (c := c) (A := A) l).
Proof. apply bind_local; [apply _|]. intros [|x [|? ?]]; apply _. Qed.
#[global] Instance pointer_view_local {V} (w : A → view c V) l : (∀ a, Local (w a)) → Local (pointer_view w l).
Proof. apply _. Qed.

Lemma reads_array D h l (xs : list A) : h !! l = Some (inj xs) → l ∉ D → reads D h (array l) xs.
Proof. intros Hl Hd. apply reads_bind. exists (inj xs). rewrite reads_read, reads_of, proj_inj. done. Qed.
Lemma reads_elems D h l xs n k : h !! l = Some (inj xs) → l ∉ D → n = length xs →
  reads D h (elems (A := A) (Some {| sl_arr := l; sl_off := 0; sl_len := n; sl_cap := k |})) xs.
Proof.
  intros Hl Hd ->. cbn [elems sl_arr sl_off sl_len]. apply reads_bind. exists xs. split; [by apply reads_array|].
  rewrite bool_decide_true by lia. rewrite reads_ret. rewrite drop_0. apply firstn_all.
Qed.
Lemma reads_elems_length D h s (xs : list A) : reads D h (elems (Some s)) xs → length xs = sl_len s.
Proof.
  cbn [elems]. rewrite reads_bind. intros (ys & _ & Hx). destruct (bool_decide_reflect (sl_off s + sl_len s ≤ length ys)).
  - apply reads_ret in Hx as <-. rewrite length_take, length_drop. lia.
  - by apply reads_of in Hx.
Qed.
Lemma reads_variable D h l (x : A) : h !! l = Some (inj [x]) → l ∉ D → reads D h (variable l) x.
Proof. intros Hl Hd. apply reads_bind. exists [x]. split; [by apply reads_array|]. by rewrite reads_ret. Qed.

(** A slice built from a list reads as the list. *)
Lemma of_list_yields {V} D h (w : A → view c V) xs vs :
  (∀ a, Local (w a)) → reads D h (vmapM w xs) vs → yields D h (of_list xs) (slice_view w) vs.
Proof.
  intros Hw Hr. destruct xs as [|x0 xs0] eqn:Ex; cbn [of_list];
    [by apply yields_ret; apply reads_bind; exists []; split; [apply reads_ret|]|].
  rewrite <-Ex in *. eapply (yields_bind _ _ _ _ (λ l, array l) _ xs); [apply yields_alloc; intros l Hl Hd; apply reads_array; [apply lookup_insert_eq|done]|].
  intros l h' Hs Hl. apply yields_ret. apply reads_bind. exists xs. split; [|still].
  apply reads_bind. exists xs. split; [done|]. cbn [sl_off sl_len]. rewrite bool_decide_true by lia. rewrite reads_ret, drop_0. apply firstn_all.
Qed.

(** [make] and the writes to the new array. *)
Lemma make_run n h : ∃ l, l ∉ dom h ∧
  make (c := c) (A := A) n h = Some ({| sl_arr := l; sl_off := 0; sl_len := n; sl_cap := n |}, <[l := inj (replicate n zero)]> h).
Proof. exists (fresh (dom h)). split; [apply is_fresh|done]. Qed.
Lemma observe_run {B} D h (v : view c B) x : reads D h v x → observe v h = Some (x, h).
Proof. intros (fp & E & _). unfold observe. by rewrite E. Qed.
Lemma set_at_run h s i x (xs : list A) : h !! sl_arr s = Some (inj xs) →
  set_at s i x h = Some (tt, <[sl_arr s := inj (<[sl_off s + i := x]> xs)]> h).
Proof.
  intros Hl. unfold set_at, mbind, mem_bind. erewrite (observe_run ∅); [|by apply reads_array; [|set_solver]].
  unfold store. rewrite bool_decide_true; [done|]. by exists (inj xs).
Qed.

Lemma update_loop_run f s k : ∀ i h (xs : list A), h !! sl_arr s = Some (inj xs) → sl_off s + i + k ≤ length xs →
  update_loop f s i k h =
    Some (tt, <[sl_arr s := inj (take (sl_off s + i) xs ++ (f <$> take k (drop (sl_off s + i) xs)) ++ drop (sl_off s + i + k) xs)]> h).
Proof.
  induction k as [|k IH]; intros i h xs Hl Hlen; cbn [update_loop].
  { rewrite Nat.add_0_r, take_0. cbn [fmap list_fmap app]. rewrite take_drop, insert_id by done. done. }
  destruct (lookup_lt_is_Some_2 xs (sl_off s + i)) as [x Hx]; [lia|].
  unfold mbind, mem_bind. rewrite (observe_run ∅ h _ xs) by (by apply reads_array; [|set_solver]). rewrite Hx.
  rewrite (set_at_run h s i _ xs Hl). rewrite (IH _ _ (<[sl_off s + i := f x]> xs)); [|apply lookup_insert_eq|rewrite length_insert; lia].
  rewrite insert_insert_eq. do 3 f_equal. set (p := sl_off s + i) in *. replace (sl_off s + S i) with (S p) by lia.
  rewrite (drop_S _ _ _ Hx). cbn [take fmap list_fmap]. rewrite (take_S_r _ _ (f x)) by (apply list_lookup_insert_eq; lia).
  rewrite take_insert_ge, !drop_insert_lt by lia. rewrite <-app_assoc. cbn [app]. by replace (p + S k) with (S p + k) by lia.
Qed.

Lemma copy_plain_copies : copies (copy_plain (c := c) (A := A)) elems.
Proof.
  intros h [s|] xs Hr; [|by apply yields_ret; apply reads_ret in Hr as <-; apply reads_ret]. intros _.
  pose proof (reads_elems_length _ _ _ _ Hr) as Hlen.
  cbn [copy_plain]. unfold mbind, mem_bind. destruct (make_run (sl_len s) h) as (l & Hl & ->). unfold copy, mbind, mem_bind.
  set (h1 := <[l := inj (replicate (sl_len s) zero)]> h).
  assert (h ⊆ h1) as Hs by by apply insert_subseteq, not_elem_of_dom.
  erewrite (observe_run ∅ h1); [|still].
  erewrite (observe_run ∅ h1); [|by apply (reads_array _ _ _ (replicate (sl_len s) zero)); [apply lookup_insert_eq|set_solver]].
  unfold store. cbn [sl_arr sl_off sl_len]. rewrite bool_decide_true by (by eexists; apply lookup_insert_eq).
  eexists _, _. split; [done|]. split.
  - unfold h1. rewrite insert_insert_eq. by apply insert_subseteq, not_elem_of_dom.
  - apply reads_elems; [|done|].
    + rewrite lookup_insert_eq. do 2 f_equal. rewrite Nat.min_id. cbn [take app Nat.add]. rewrite (take_ge xs) by lia.
      rewrite drop_ge by (rewrite length_replicate; lia). by rewrite app_nil_r.
    + done.
Qed.

(** The loop keeps what it has copied: it writes to the new array alone. *)
Lemma copy_loop_spec {V} (f : A → mem c A) (w : A → view c V) h0 src l n k' :
  (∀ a, Local (w a)) → copies f w → l ∉ dom h0 →
  ∀ k h xs ys v1 v2, reads ∅ h0 (elems (Some src)) xs → Forall2 (λ x v, reads ∅ h0 (w x) v) (drop (length ys) xs) v2 →
    length ys + k = length xs → h0 ⊆ h → h !! l = Some (inj (ys ++ replicate k zero)) →
    Forall2 (λ y v, reads (dom h0 ∪ {[l]}) h (w y) v) ys v1 →
  ∃ h' zs, copy_loop f src {| sl_arr := l; sl_off := 0; sl_len := n; sl_cap := k' |} (length ys) k h = Some (tt, h') ∧ h0 ⊆ h' ∧
    length zs = length xs ∧ h' !! l = Some (inj zs) ∧ Forall2 (λ y v, reads (dom h0 ∪ {[l]}) h' (w y) v) zs (v1 ++ v2).
Proof.
  intros Hw Hf Hl0. induction k as [|k IH]; intros h xs ys v1 v2 Hxs Hrest Hlen Hs Hl Hys.
  - rewrite drop_ge in Hrest by lia. apply Forall2_nil_inv_l in Hrest as ->. rewrite !app_nil_r in *.
    exists h, ys. cbn [copy_loop]. repeat split; auto; lia.
  - destruct (lookup_lt_is_Some_2 xs (length ys)) as [x Hx]; [lia|]. rewrite (drop_S _ _ _ Hx) in Hrest.
    apply Forall2_cons_inv_l in Hrest as (v & v2' & Hv & Hrest & ->). cbn [copy_loop]. unfold mbind, mem_bind at 1.
    erewrite (observe_run ∅ h) by still. rewrite Hx. unfold mbind, mem_bind.
    assert (reads ∅ h (w x) v) as Hv1 by still.
    destruct (Hf h x v Hv1) as (y & h1 & -> & Hs1 & Hy); [done|].
    assert (h1 !! l = Some (inj (ys ++ replicate (S k) zero))) as Hl1 by by eapply lookup_weaken.
    rewrite (set_at_run h1 _ _ _ (ys ++ replicate (S k) zero)) by done. cbn [sl_arr sl_off Nat.add].
    rewrite replicate_S, insert_app_r_alt, Nat.sub_diag by lia. cbn [list_insert insert].
    set (h2 := <[l := _]> h1).
    assert (dom h0 ∪ {[l]} ⊆ dom h) as HD.
    { apply subseteq_dom in Hs. assert (l ∈ dom h) by (apply elem_of_dom; eauto). set_solver. }
    assert (h0 ⊆ h2) as Hs2.
    { apply insert_subseteq_r; [by apply not_elem_of_dom|by etrans]. }
    destruct (IH h2 xs (ys ++ [y]) (v1 ++ [v]) v2') as (h' & zs & E & Hfin).
    + done.
    + rewrite length_app. cbn [length]. by replace (length ys + 1) with (S (length ys)) by lia.
    + rewrite length_app. cbn [length]. lia.
    + done.
    + unfold h2. rewrite lookup_insert_eq, <-app_assoc. done.
    + apply Forall2_app; [|constructor; [|constructor]].
      * eapply Forall2_impl; [exact Hys|]. cbn beta. intros y' v' Hy'. apply reads_insert; [apply _|set_solver|still].
      * apply reads_insert; [apply _|set_solver|]. by eapply reads_weaken.
    + exists h', zs. rewrite <-app_assoc in Hfin. split; [|exact Hfin]. rewrite <-E. f_equal. rewrite length_app. simpl. lia.
Qed.

Lemma copy_each_copies {V} (f : A → mem c A) (w : A → view c V) : (∀ a, Local (w a)) → copies f w → copies (copy_each f) (slice_view w).
Proof.
  intros Hw Hf h [s|] vs Hr; [|apply yields_ret; apply reads_bind in Hr as (xs & <-%reads_ret & <-%reads_ret);
    apply reads_bind; exists []; split; by apply reads_ret]. intros _.
  apply reads_bind in Hr as (xs & Hxs & Hvs). pose proof (reads_elems_length _ _ _ _ Hxs) as Hlen. apply reads_mapM in Hvs.
  cbn [copy_each]. unfold mbind, mem_bind. destruct (make_run (sl_len s) h) as (l & Hl & ->).
  destruct (copy_loop_spec f w h s l (sl_len s) (sl_len s) Hw Hf Hl (sl_len s) (<[l := inj (replicate (sl_len s) zero)]> h) xs [] [] vs) as (h' & zs & E & Hs & Hz & Hl' & HF);
    [done|done|done|by apply insert_subseteq, not_elem_of_dom|apply lookup_insert_eq|constructor|].
  cbn [length] in E. rewrite E. eexists _, _. split; [done|]. split; [done|]. apply reads_bind. exists zs.
  split; [apply reads_elems; [done|done|congruence]|]. apply reads_mapM. eapply Forall2_impl; [exact HF|].
  intros y v Hy. eapply reads_weaken; [|exact Hy]. set_solver.
Qed.

(** A deep copy of a variable is a new variable; nil stays nil. *)
Lemma deep_copy_copies {V} (f : A → mem c A) (w : A → view c V) h l x :
  (∀ a, Local (w a)) → copies f w → reads ∅ h (pointer_view w l) x →
  yields (dom h) h (deep_copy f (Some l)) (λ p, match p with Some l' => pointer_view w l' | None => vof None end) x.
Proof.
  intros Hw Hf Hr _. apply reads_bind in Hr as (a & Ha & Hx). cbn [deep_copy]. unfold new, mbind, mem_bind, alloc.
  set (l' := fresh (dom h)). pose proof (is_fresh (dom h) : l' ∉ dom h) as Hl'. set (h1 := <[l' := inj [zero]]> h).
  assert (h ⊆ h1) as Hs by by apply insert_subseteq, not_elem_of_dom.
  erewrite (observe_run ∅ h1) by still. assert (reads ∅ h1 (w a) x) as Hx1 by still.
  destruct (Hf h1 a x Hx1) as (y & h2 & -> & Hs2 & Hy); [done|]. unfold store.
  assert (h1 !! l' = Some (inj [zero])) as E1 by apply lookup_insert_eq.
  rewrite bool_decide_true by (by eexists; eapply lookup_weaken). eexists _, _. split; [done|].
  assert (dom h ∪ {[l']} ⊆ dom h1) as HD by (unfold h1; rewrite dom_insert; set_solver). split.
  - apply insert_subseteq_r; [by apply not_elem_of_dom|by etrans].
  - apply reads_bind. exists y. split; [apply reads_variable; [apply lookup_insert_eq|done]|].
    apply (reads_weaken (dom h ∪ {[l']})); [set_solver|]. apply reads_insert; [apply _|set_solver|]. by eapply reads_weaken.
Qed.
End slice_lemmas.

(** ** Writing to an array of another type

    A view that never reads arrays of the type of [l] does not reach [l]. *)
Class Avoids {c A} (h : heap c) (l : loc) (v : view c A) : Prop := avoids D x : reads D h v x → reads (D ∪ {[l]}) h v x.
#[export] Instance ret_avoids {c A} (h : heap c) l (a : A) : Avoids h l (mret a).
Proof. intros D x. by rewrite !reads_ret. Qed.
#[export] Instance bind_avoids {c A B} (h : heap c) l (k : A → view c B) v : Avoids h l v → (∀ a, Avoids h l (k a)) → Avoids h l (v ≫= k).
Proof. intros Hv Hk D y. rewrite !reads_bind. intros (x & Hx & Hy). exists x. split; [by apply Hv|by apply Hk]. Qed.
#[export] Instance mapM_avoids {c A B} (h : heap c) l (w : A → view c B) xs : (∀ a, Avoids h l (w a)) → Avoids h l (vmapM w xs).
Proof. intros Hw. induction xs; simpl; apply _. Qed.
Lemma elems_avoids {c A} `{!Elem c A} (h : heap c) l y s : h !! l = Some y → proj (A := A) y = None → Avoids h l (elems (A := A) s).
Proof.
  intros Hl Hy D xs. destruct s as [s|]; [|intros <-%reads_ret; by apply reads_ret]. cbn [elems]. rewrite !reads_bind. intros (ys & Ha & Hx).
  exists ys. unfold array in *. rewrite reads_bind in Ha |- *. destruct Ha as (z & Hz & Hp%reads_of). apply reads_read in Hz as [Hz Hd]. split.
  - exists z. rewrite reads_read, reads_of. split; [|done]. split; [done|]. assert (sl_arr s ≠ l) by congruence. set_solver.
  - case_bool_decide; [|by apply reads_of in Hx]. by rewrite reads_ret in Hx |- *.
Qed.

(** ** Copying records *)
Lemma copies_yields {c A V} (f : A → mem c A) (w : A → view c V) D D' h a x :
  copies f w → reads D' h (w a) x → yields D h (f a) w x.
Proof.
  intros Hf Hr HD. refine (yields_weaken (dom h) D h (f a) w x HD (reflexivity _) _ HD).
  apply Hf. eapply reads_weaken; [|exact Hr]. set_solver.
Qed.
Lemma copies_bind {c A B V W} (f : A → mem c A) (w : A → view c V) (k : A → mem c B) (w' : B → view c W) D D' h a x y :
  copies f w → reads D' h (w a) x → (∀ b h', h ⊆ h' → reads D h' (w b) x → yields D h' (k b) w' y) → yields D h (f a ≫= k) w' y.
Proof. intros Hf Hr Hk. eapply yields_bind; [by eapply copies_yields|done]. Qed.
Lemma ret_copies {c A} : copies (c := c) (A := A) mret mret.
Proof. intros h a x ->%reads_ret. by apply yields_ret, reads_ret. Qed.

(** A view taken apart, and put together. *)
Ltac unread := repeat match goal with
  | H : reads _ _ (mbind _ _) _ |- _ => apply reads_bind in H as (? & ? & ?)
  | H : reads _ _ (mret _) _ |- _ => apply reads_ret in H; subst
  end.
Ltac reread := repeat (apply reads_bind; eexists; split; [still|]); by apply reads_ret.
Ltac reread_all := lazymatch goal with
  | |- reads _ _ (mbind _ _) _ => apply reads_bind; eexists; split; [reread_all|reread_all]
  | |- reads _ _ (mret _) _ => apply reads_ret; reflexivity
  | |- reads _ _ (vmapM _ []) _ => apply reads_ret; reflexivity
  | |- _ => still
  end.
(** A record copied field by field: the lemmas for the fields are in [copying]. *)
Create HintDb copying.
#[export] Hint Resolve copy_plain_copies copy_each_copies ret_copies : copying.
Ltac copy_fields := repeat (eapply copies_bind; [eauto with copying typeclass_instances|still|intros ? ? ? ?]); apply yields_ret; reread.
