(* ===== verification/Lifecycle.v ===== *)
(** * Functions that hold resources

    A Go function that opens things, defers their closing, starts goroutines and
    may return early, block or end the process: a computation over a frame with
    the stack of deferred closings and the trace of what was opened, closed and
    started.  [run] is what the caller sees: on return (and on a panic) the deferred
    closings have run, last opened first; a blocked function still holds
    everything; [os.Exit] runs no deferred call. *)

From S2P Require Import Prelude.

Section lifecycle.
Context {R G E S : Type}.

Inductive action := Acquire (r : R) | Release (r : R) | Launch (g : G).
Record frame := { defers : list R; actions : list action; local : S }.
(** [Return None] is [return nil]; [Exit] is [os.Exit] and [log.Fatalf]. *)
Inductive flow (A : Type) :=
  | Val (a : A)
  | Return (e : option E)
  | Blocked
  | Crash
  | Exit (code : Z).
#[global] Arguments Val {_} _. #[global] Arguments Return {_} _. #[global] Arguments Blocked {_}.
#[global] Arguments Crash {_}. #[global] Arguments Exit {_} _.
Definition scoped (A : Type) : Type := frame → flow A * frame.
#[global] Instance scoped_ret : MRet scoped := λ A a fr, (Val a, fr).
#[global] Instance scoped_bind : MBind scoped := λ A B k m fr,
  match m fr with
  | (Val a, fr) => k a fr
  | (Return e, fr) => (Return e, fr)
  | (Blocked, fr) => (Blocked, fr)
  | (Crash, fr) => (Crash, fr)
  | (Exit c, fr) => (Exit c, fr)
  end.

(** ** Operations *)
(** Opening [r] with a deferred close; [err] is the failure, if any. *)
Definition acquire (err : option E) (r : R) : scoped unit := λ fr,
  match err with
  | Some e => (Return (Some e), fr)
  | None => (Val tt, {| defers := r :: defers fr; actions := actions fr ++ [Acquire r]; local := local fr |})
  end.
Definition start (g : G) : scoped unit := λ fr,
  (Val tt, {| defers := defers fr; actions := actions fr ++ [Launch g]; local := local fr |}).
Definition leave {A} (f : flow A) : scoped A := λ fr, (f, fr).
Definition update (f : S → go unit S) : scoped unit := λ fr,
  match f (local fr) with
  | Ok s => (Val tt, {| defers := defers fr; actions := actions fr; local := s |})
  | Err _ | Panic => (Crash, fr)
  | OutOfFuel => (Blocked, fr)
  end.
Definition when (b : bool) (m : scoped unit) : scoped unit := if b then m else mret tt.

(** ** The whole function *)
Inductive outcome := Returned (e : option E) | Running | Panicked | Exited (code : Z).
Record execution := { ex_outcome : outcome; ex_actions : list action; ex_local : S }.
Definition closings (fr : frame) : list action := actions fr ++ (Release <$> defers fr).
Definition run (m : scoped unit) (s : S) : execution :=
  let '(f, fr) := m {| defers := []; actions := []; local := s |} in
  match f with
  | Val _ => {| ex_outcome := Returned None; ex_actions := closings fr; ex_local := local fr |}
  | Return e => {| ex_outcome := Returned e; ex_actions := closings fr; ex_local := local fr |}
  | Crash => {| ex_outcome := Panicked; ex_actions := closings fr; ex_local := local fr |}
  | Blocked => {| ex_outcome := Running; ex_actions := actions fr; ex_local := local fr |}
  | Exit c => {| ex_outcome := Exited c; ex_actions := actions fr; ex_local := local fr |}
  end.

(** ** What is open *)
(** The resources a trace leaves open, last opened first; [None] when it closes
    something that is not the last one opened. *)
Context `{EqDecision R}.
Definition held_step (acc : option (list R)) (a : action) : option (list R) :=
  match acc, a with
  | Some l, Acquire r => Some (r :: l)
  | Some (r' :: l), Release r => if bool_decide (r = r') then Some l else None
  | Some l, Launch _ => Some l
  | _, _ => None
  end.
Definition held (tr : list action) : option (list R) := foldl held_step (Some []) tr.
Definition started (tr : list action) : list G := omap (λ a, match a with Launch g => Some g | _ => None end) tr.

Definition frame_ok (fr : frame) : Prop := held (actions fr) = Some (defers fr).
Definition well_scoped {A} (m : scoped A) : Prop := ∀ fr, frame_ok fr → frame_ok (m fr).2.

Lemma held_snoc tr a : held (tr ++ [a]) = held_step (held tr) a.
Proof. unfold held. by rewrite foldl_app. Qed.
Lemma held_closings tr l : held tr = Some l → held (tr ++ (Release <$> l)) = Some [].
Proof.
  revert tr. induction l as [|r l IH]; intros tr Ht; cbn [fmap list_fmap]; [by rewrite app_nil_r|].
  rewrite cons_middle, (assoc_L (++)). apply IH. rewrite held_snoc, Ht. simpl. by rewrite bool_decide_true.
Qed.
Lemma well_scoped_bind {A B} (m : scoped A) (k : A → scoped B) :
  well_scoped m → (∀ a, well_scoped (k a)) → well_scoped (m ≫= k).
Proof.
  intros Hm Hk fr Hfr. specialize (Hm fr Hfr). unfold mbind, scoped_bind. destruct (m fr) as [[]fr']; try done. by apply Hk.
Qed.
Lemma well_scoped_ret {A} (a : A) : well_scoped (mret a).
Proof. by intros fr. Qed.
Lemma well_scoped_acquire err r : well_scoped (acquire err r).
Proof. intros fr Hfr. destruct err; [done|]. unfold frame_ok in *. simpl. rewrite held_snoc, Hfr. by destruct (defers fr). Qed.
Lemma well_scoped_start g : well_scoped (start g).
Proof. intros fr Hfr. unfold frame_ok in *. simpl. rewrite held_snoc, Hfr. by destruct (defers fr). Qed.
Lemma well_scoped_leave {A} (f : flow A) : well_scoped (leave f).
Proof. by intros fr. Qed.
Lemma well_scoped_update f : well_scoped (update f).
Proof. intros fr Hfr. unfold update. by destruct (f (local fr)). Qed.
Lemma well_scoped_when b m : well_scoped m → well_scoped (when b m).
Proof. destruct b; [done|]. by intros _ fr. Qed.

(** ** Plans *)
(** A straight-line beginning: what is opened and started, in order.  [plan_prefix]
    is the part that happens: all of it, or what precedes the first opening that
    fails, whose error is [plan_error]. *)
Inductive plan_step := Open (r : R) | Go (g : G).
Context (fails : R → option E).
Definition exec_step (p : plan_step) : scoped unit := match p with Open r => acquire (fails r) r | Go g => start g end.
Definition exec_plan (plan : list plan_step) : scoped unit := foldr (λ p k, _ ← exec_step p; k) (mret tt) plan.
Fixpoint plan_prefix (plan : list plan_step) : list plan_step :=
  match plan with
  | [] => []
  | Go g :: plan => Go g :: plan_prefix plan
  | Open r :: plan => match fails r with Some _ => [] | None => Open r :: plan_prefix plan end
  end.
Fixpoint plan_error (plan : list plan_step) : option E :=
  match plan with
  | [] => None
  | Go _ :: plan => plan_error plan
  | Open r :: plan => match fails r with Some e => Some e | None => plan_error plan end
  end.
Definition opens (plan : list plan_step) : list R := omap (λ p, match p with Open r => Some r | Go _ => None end) plan.
Definition step_action (p : plan_step) : action := match p with Open r => Acquire r | Go g => Launch g end.

Lemma exec_plan_eq plan fr :
  exec_plan plan fr =
    (match plan_error plan with Some e => Return (Some e) | None => Val tt end,
     {| defers := reverse (opens (plan_prefix plan)) ++ defers fr;
        actions := actions fr ++ (step_action <$> plan_prefix plan); local := local fr |}).
Proof.
  revert fr. induction plan as [|[r|g] plan IH]; intros fr.
  - cbn. rewrite app_nil_r. by destruct fr.
  - cbn [exec_plan foldr exec_step plan_error plan_prefix]. unfold mbind, scoped_bind, acquire at 1.
    destruct (fails r); [cbn; rewrite app_nil_r; by destruct fr|].
    change (foldr _ _ plan) with (exec_plan plan). rewrite IH. cbn [actions defers local opens omap list_omap fmap list_fmap step_action].
    rewrite reverse_cons, <-!(assoc_L (++)). done.
  - cbn [exec_plan foldr exec_step plan_error plan_prefix]. unfold mbind, scoped_bind, start at 1.
    change (foldr _ _ plan) with (exec_plan plan). rewrite IH. cbn [actions defers local opens omap list_omap fmap list_fmap step_action].
    rewrite <-!(assoc_L (++)). done.
Qed.
Lemma exec_plan_app p1 p2 (k : unit → scoped unit) fr : (exec_plan (p1 ++ p2) ≫= k) fr = (exec_plan p1 ≫= λ _, exec_plan p2 ≫= k) fr.
Proof.
  revert fr. induction p1 as [|p p1 IH]; intros fr; [done|]. cbn [app exec_plan foldr].
  change (foldr _ _ (p1 ++ p2)) with (exec_plan (p1 ++ p2)). change (foldr _ _ p1) with (exec_plan p1).
  specialize (IH (exec_step p fr).2). unfold mbind, scoped_bind in *. by destruct (exec_step p fr) as [[[]| | | |] fr'].
Qed.
(** The plan's openings that do not happen are those from the first failure on. *)
Lemma plan_complete plan : plan_error plan = None → plan_prefix plan = plan.
Proof.
  induction plan as [|[r|g] plan IH]; cbn [plan_error plan_prefix]; [done| |intros; by rewrite IH].
  destruct (fails r); [done|]. intros. by rewrite IH.
Qed.
Lemma plan_error_first plan e :
  plan_error plan = Some e → ∃ r rest, plan = plan_prefix plan ++ Open r :: rest ∧ fails r = Some e.
Proof.
  induction plan as [|[r|g] plan IH]; cbn [plan_error plan_prefix]; [done| |].
  - destruct (fails r) as [e'|] eqn:Ef; [intros [= ->]; by exists r, plan|].
    intros He. destruct (IH He) as (r' & rest & Hp & Hr). exists r', rest. split; [|done]. cbn [app]. by f_equal.
  - intros He. destruct (IH He) as (r' & rest & Hp & Hr). exists r', rest. split; [|done]. cbn [app]. by f_equal.
Qed.

(** A function made of these closes everything it opened, in reverse, when it
    returns, and holds no more than it opened when it does not. *)
Lemma run_closes (m : scoped unit) s :
  well_scoped m →
  match ex_outcome (run m s) with
  | Returned _ | Panicked => held (ex_actions (run m s)) = Some []
  | Running | Exited _ => is_Some (held (ex_actions (run m s)))
  end.
Proof.
  intros Hm. specialize (Hm {| defers := []; actions := []; local := s |} eq_refl). unfold run.
  destruct (m _) as [[]fr]; cbn [snd] in Hm; cbn [ex_outcome ex_actions]; (by apply held_closings) || by eexists.
Qed.
End lifecycle.
Arguments action : clear implicits. Arguments frame : clear implicits. Arguments flow : clear implicits.
Arguments plan_step : clear implicits. Arguments outcome : clear implicits. Arguments execution : clear implicits. Arguments scoped : clear implicits.

Create HintDb scoped.
#[export] Hint Resolve well_scoped_bind well_scoped_ret well_scoped_acquire well_scoped_start well_scoped_leave
  well_scoped_update well_scoped_when : scoped.

(** ** Reading a ring buffer *)
(** What one [Read] answers. *)
Inductive read_result := ReadClosed | ReadError (msg : string) | Sample (raw : bytes).
(** The samples before the reader is closed, and whether it is. *)
Fixpoint samples (reads : list read_result) : list bytes :=
  match reads with
  | [] | ReadClosed :: _ => []
  | ReadError _ :: reads => samples reads
  | Sample raw :: reads => raw :: samples reads
  end.
#[export] Instance read_result_eq_dec : EqDecision read_result.
Proof. solve_decision. Defined.

Section read_loop.
Context {R G E S : Type} `{EqDecision R} (handle : bytes → S → go unit S).
(** [for { rec, err := rd.Read(); ... }]: a closed reader ends the function, any
    other error is logged, a sample is handled; the list is what the reads have
    answered so far. *)
Fixpoint read_loop (reads : list read_result) : scoped R G E S unit :=
  match reads with
  | [] => leave Blocked
  | ReadClosed :: _ => leave (Return None)
  | ReadError _ :: reads => read_loop reads
  | Sample raw :: reads => _ ← update (handle raw); read_loop reads
  end.
Lemma well_scoped_read_loop reads : well_scoped (read_loop reads).
Proof. induction reads as [|[] reads IH]; cbn [read_loop]; eauto with scoped. Qed.
(** The loop handles the samples in order, skips errors, and returns exactly when
    the reader is closed. *)
Lemma read_loop_eq reads fr s :
  foldl (λ r raw, r ≫= handle raw) (Ok (local fr)) (samples reads) = Ok s →
  read_loop reads fr =
    (if bool_decide (ReadClosed ∈ reads) then Return None else Blocked, {| defers := defers fr; actions := actions fr; local := s |}).
Proof.
  revert fr. induction reads as [|[|msg|raw] reads IH]; intros fr Hs; cbn [read_loop samples] in *.
  - simplify_eq/=. by destruct fr.
  - rewrite bool_decide_true by set_solver. simplify_eq/=. by destruct fr.
  - rewrite IH by done. by rewrite (bool_decide_ext (ReadClosed ∈ ReadError msg :: reads) (ReadClosed ∈ reads)) by set_solver.
  - cbn [foldl mbind go_bind] in Hs. unfold mbind, scoped_bind, update.
    destruct (handle raw (local fr)) as [s1| | |] eqn:Eh.
    + rewrite (IH {| defers := defers fr; actions := actions fr; local := s1 |}) by done.
      by rewrite (bool_decide_ext (ReadClosed ∈ Sample raw :: reads) (ReadClosed ∈ reads)) by set_solver.
    + exfalso. revert Hs. clear. generalize (samples reads). induction l; done.
    + exfalso. revert Hs. clear. generalize (samples reads). induction l; done.
    + exfalso. revert Hs. clear. generalize (samples reads). induction l; done.
Qed.

(** A plan followed by the loop: the whole execution. *)
Definition plan_loop_spec (fails : R → option E) (plan : list (plan_step R G)) (reads : list read_result) (s : S) (ex : execution R G E S) : Prop :=
  let open := reverse (opens (plan_prefix fails plan)) in
  let opening := step_action <$> plan_prefix fails plan in
  match plan_error fails plan with
  | Some e => ex_outcome ex = Returned (Some e) ∧ ex_actions ex = opening ++ (Release <$> open) ∧ ex_local ex = s
  | None =>
      foldl (λ r raw, r ≫= handle raw) (Ok s) (samples reads) = Ok (ex_local ex) ∧
      if bool_decide (ReadClosed ∈ reads)
      then ex_outcome ex = Returned None ∧ ex_actions ex = opening ++ (Release <$> open)
      else ex_outcome ex = Running ∧ ex_actions ex = opening
  end.
Lemma run_plan_loop fails plan reads s s' (m : scoped R G E S unit) :
  (∀ fr, m fr = (_ ← exec_plan fails plan; read_loop reads : scoped R G E S unit) fr) →
  foldl (λ r raw, r ≫= handle raw) (Ok s) (samples reads) = Ok s' →
  plan_loop_spec fails plan reads s (run m s).
Proof.
  intros Hm Hs. unfold plan_loop_spec, run. rewrite Hm. unfold mbind, scoped_bind. rewrite exec_plan_eq. cbn [defers actions local].
  rewrite app_nil_r. destruct (plan_error fails plan); [done|].
  rewrite (read_loop_eq _ _ s') by done. by case_bool_decide.
Qed.
(** What such an execution holds: nothing once it has returned, everything of the
    plan while it runs. *)
Lemma plan_loop_held fails plan reads s ex :
  plan_loop_spec fails plan reads s ex →
  held (ex_actions ex) = Some (match ex_outcome ex with Running => reverse (opens plan) | _ => [] end).
Proof.
  assert (∀ (p : list (plan_step R G)) tr l, held tr = Some l → held (tr ++ (step_action <$> p)) = Some (reverse (opens p) ++ l)) as Hp.
  { induction p as [|[r|g] p IH]; intros tr l Ht; cbn [fmap list_fmap]; [by rewrite app_nil_r| |].
    - rewrite cons_middle, (assoc_L (++)), (IH _ (r :: l)); [|by rewrite held_snoc, Ht; destruct l].
      cbn [opens omap list_omap]. by rewrite reverse_cons, <-(assoc_L (++)).
    - rewrite cons_middle, (assoc_L (++)), (IH _ l); [done|]. rewrite held_snoc, Ht. by destruct l. }
  specialize (Hp (plan_prefix fails plan) [] [] eq_refl). rewrite app_nil_r in Hp. cbn [app] in Hp.
  unfold plan_loop_spec. destruct (plan_error fails plan) as [e|] eqn:Ee.
  - intros (-> & -> & _). by apply held_closings.
  - intros [_ Hex]. case_bool_decide; destruct Hex as [-> ->]; [by apply held_closings|]. by rewrite Hp, plan_complete.
Qed.
End read_loop.
#[export] Hint Resolve well_scoped_read_loop : scoped.
