(* ===== verification/GoNet.v ===== *)
(** * The part of Go's [net] and [net/netip] packages that ebfw uses

    [net.IP] is a byte slice of length 4 or 16, [nil] the empty one.  [ParseIP],
    [ParseCIDR], [IPNet.Contains], [IPMask.Size] and [IP.String] follow the
    library's code, IPv6 text included. *)

From S2P Require Import Prelude GoStrings.
From Stdlib Require Import Ascii.

Abbreviation IP := bytes.
Record IPNet := { ipn_IP : IP; ipn_Mask : bytes }.

#[export] Instance IPNet_eq_dec : EqDecision IPNet.
Proof. solve_decision. Defined.

(** ** Addresses *)
Definition v4InV6Prefix : bytes := replicate 10 x00 ++ [xff; xff].

(** [ip.To4()]: [None] is nil. *)
Definition To4 (ip : IP) : option bytes :=
  if bool_decide (length ip = 4) then Some ip
  else if bool_decide (length ip = 16) && bool_decide (take 12 ip = v4InV6Prefix)
  then Some (drop 12 ip) else None.

Definition byte_and (a m : byte) : byte := z2b (Z.land (b2z a) (b2z m)).
Definition mask_bytes (ip m : bytes) : bytes := zip_with byte_and ip m.

(** [net.CIDRMask(ones, 8*l)]. *)
Fixpoint CIDRMask (l n : nat) : bytes :=
  match l with
  | O => []
  | S l => if bool_decide (8 ≤ n) then xff :: CIDRMask l (n - 8)
           else z2b (Z.lnot (Z.shiftr 255 (Z.of_nat n))) :: CIDRMask l 0
  end.

(** [ip.Mask(mask)]: [[]] is nil. *)
Definition IP_Mask (ip mask : bytes) : bytes :=
  let mask := if bool_decide (length mask = 16) && bool_decide (length ip = 4) &&
                 bool_decide (take 12 mask = replicate 12 xff) then drop 12 mask else mask in
  let ip := if bool_decide (length mask = 4) && bool_decide (length ip = 16) &&
               bool_decide (take 12 ip = v4InV6Prefix) then drop 12 ip else ip in
  if bool_decide (length ip = length mask) then mask_bytes ip mask else [].

(** Leading one bits of a byte, and what is left of it: the inner loop
    [for v&0x80 != 0 { n++; v <<= 1 }] of [simpleMaskLength]. *)
Fixpoint lead_ones (fuel : nat) (v : Z) : nat * Z :=
  match fuel with
  | O => (0, v)
  | S fuel => if Z.testbit v 7 then let '(n, v') := lead_ones fuel (wrap 8 (Z.shiftl v 1)) in (S n, v')
              else (0, v)
  end.
Fixpoint simpleMaskLength (mask : bytes) : option nat :=
  match mask with
  | [] => Some 0
  | b :: mask' =>
      if bool_decide (b = xff) then (λ n, 8 + n) <$> simpleMaskLength mask'
      else let '(n, v) := lead_ones 8 (b2z b) in
           if bool_decide (v = 0%Z) && forallb (λ b, bool_decide (b = x00)) mask'
           then Some n else None
  end.
(** The first result of [mask.Size()]: 0 for a mask that is not canonical. *)
Definition Mask_ones (mask : bytes) : nat := default 0 (simpleMaskLength mask).

(** ** Parsing addresses *)
Definition digit_val (c : ascii) : option Z :=
  let n := Z.of_N (N_of_ascii c) in
  if (48 <=? n)%Z && (n <=? 57)%Z then Some (n - 48)%Z else None.
Definition hex_val (c : ascii) : option Z :=
  let n := Z.of_N (N_of_ascii c) in
  if (48 <=? n)%Z && (n <=? 57)%Z then Some (n - 48)%Z
  else if (97 <=? n)%Z && (n <=? 102)%Z then Some (n - 87)%Z
  else if (65 <=? n)%Z && (n <=? 70)%Z then Some (n - 55)%Z
  else None.

(** [parseIPv4Fields]; [acc] holds the fields read so far, last first. *)
Fixpoint ipv4_fields (prev : option ascii) (val : Z) (digLen : nat) (acc : bytes)
    (s : list ascii) : option bytes :=
  match s with
  | [] => if bool_decide (length acc < 3) then None else Some (reverse (z2b val :: acc))
  | c :: s' =>
      match digit_val c with
      | Some d =>
          if bool_decide (digLen = 1) && (val =? 0)%Z then None
          else let val := (val * 10 + d)%Z in
               if (255 <? val)%Z then None
               else ipv4_fields (Some c) val (S digLen) acc s'
      | None =>
          if bool_decide (c = "."%char) then
            if bool_decide (prev = None) || bool_decide (s' = []) || bool_decide (prev = Some "."%char)
            then None
            else if bool_decide (length acc = 3) then None
            else ipv4_fields (Some c) 0 0 (z2b val :: acc) s'
          else None
      end
  end.

Fixpoint take_hex (s : list ascii) : list Z * list ascii :=
  match s with
  | [] => ([], [])
  | c :: s' => match hex_val c with
               | Some d => let '(ds, r) := take_hex s' in (d :: ds, r)
               | None => ([], s)
               end
  end.
Definition hex_num (ds : list Z) : Z := fold_left (λ acc d, acc * 16 + d)%Z ds 0%Z.

(** The loop of [parseIPv6]: [fuel] counts the 16-bit groups that still fit, so
    [i = 16 - 2 * fuel]; [acc] holds the address bytes, last first. *)
Fixpoint ipv6_loop (fuel : nat) (ell : option nat) (acc : bytes) (s : list ascii)
    : option (bytes * option nat * list ascii) :=
  match fuel with
  | O => Some (acc, ell, s)
  | S fuel' =>
      let i := 16 - 2 * fuel in
      let '(ds, rest) := take_hex s in
      if bool_decide (ds = []) || bool_decide (4 < length ds) then None
      else
        match rest with
        | "."%char :: _ =>
            if bool_decide (ell = None) && negb (bool_decide (i = 12)) then None
            else if bool_decide (16 < i + 4) then None
            else v4 ← ipv4_fields None 0 0 [] s; Some (reverse v4 ++ acc, ell, [])
        | _ =>
            let v := hex_num ds in
            let acc := z2b v :: z2b (Z.shiftr v 8) :: acc in
            match rest with
            | [] => Some (acc, ell, [])
            | c :: rest1 =>
                if negb (bool_decide (c = ":"%char)) then None
                else match rest1 with
                     | [] => None
                     | c2 :: rest2 =>
                         if bool_decide (c2 = ":"%char) then
                           if bool_decide (is_Some ell) then None
                           else match rest2 with
                                | [] => Some (acc, Some (i + 2), [])
                                | _ => ipv6_loop fuel' (Some (i + 2)) acc rest2
                                end
                         else ipv6_loop fuel' ell acc rest1
                     end
            end
        end
  end.

Definition ipv6_finish (r : bytes * option nat * list ascii) : option bytes :=
  let '(acc, ell, s) := r in
  let ip := reverse acc in
  if negb (bool_decide (s = [])) then None
  else match ell with
       | None => if bool_decide (length ip = 16) then Some ip else None
       | Some e => if bool_decide (length ip < 16)
                   then Some (take e ip ++ replicate (16 - length ip) x00 ++ drop e ip)
                   else None
       end.

(** [parseIPv6] followed by the callers' rejection of an address with a zone. *)
Definition parseIPv6 (s : list ascii) : option bytes :=
  if bool_decide ("%"%char ∈ s) then None
  else match s with
       | ":"%char :: ":"%char :: [] => Some (replicate 16 x00)
       | ":"%char :: ":"%char :: s' => ipv6_loop 8 (Some 0) [] s' ≫= ipv6_finish
       | _ => ipv6_loop 8 None [] s ≫= ipv6_finish
       end.

Inductive Addr := Addr4 (b : bytes) | Addr6 (b : bytes).
Definition As16 (a : Addr) : bytes :=
  match a with Addr4 b => v4InV6Prefix ++ b | Addr6 b => b end.
Definition BitLen (a : Addr) : nat := match a with Addr4 _ => 32 | Addr6 _ => 128 end.

(** [netip.ParseAddr]: the first of ['.'], [':'] and ['%'] decides the family. *)
Fixpoint addr_family (s : list ascii) : option ascii :=
  match s with
  | [] => None
  | c :: s => if bool_decide (c ∈ ["."%char; ":"%char; "%"%char]) then Some c else addr_family s
  end.
Definition ParseAddr (s : string) : option Addr :=
  let l := chars s in
  match addr_family l with
  | Some "."%char => Addr4 <$> ipv4_fields None 0 0 [] l
  | Some ":"%char => Addr6 <$> parseIPv6 l
  | _ => None
  end.

(** [net.ParseIP]: [[]] is nil. *)
Definition ParseIP (s : string) : IP := from_option As16 [] (ParseAddr s).

(** ** CIDR *)
(** [dtoi] over a whole string ([None]: empty, or a character is not a digit).
    Go gives up at 0xFFFFFF, above every prefix length the caller accepts. *)
Definition dtoi_all (s : list ascii) : option Z :=
  match mapM digit_val s with
  | Some ((_ :: _) as ds) => Some (fold_left (λ acc d, acc * 10 + d)%Z ds 0%Z)
  | _ => None
  end.

Definition ParseCIDR (s : string) : option (IP * IPNet) :=
  '(addr, mask) ← Cut "/"%char s;
  ipAddr ← ParseAddr addr;
  n ← dtoi_all (chars mask);
  if (n <=? Z.of_nat (BitLen ipAddr))%Z then
    let m := CIDRMask (BitLen ipAddr / 8) (Z.to_nat n) in
    Some (As16 ipAddr, {| ipn_IP := IP_Mask (As16 ipAddr) m; ipn_Mask := m |})
  else None.

Definition networkNumberAndMask (n : IPNet) : bytes * bytes :=
  let oip := match To4 (ipn_IP n) with
             | Some ip => Some ip
             | None => if bool_decide (length (ipn_IP n) = 16) then Some (ipn_IP n) else None
             end in
  match oip with
  | None => ([], [])
  | Some ip =>
      let m := ipn_Mask n in
      if bool_decide (length m = 4) then
        if bool_decide (length ip = 4) then (ip, m) else ([], [])
      else if bool_decide (length m = 16) then
        if bool_decide (length ip = 4) then (ip, drop 12 m) else (ip, m)
      else ([], [])
  end.

Definition Contains (n : IPNet) (ip : IP) : bool :=
  let '(nn, m) := networkNumberAndMask n in
  let ip := default ip (To4 ip) in
  if bool_decide (length ip = length nn)
  then bool_decide (mask_bytes nn m = mask_bytes ip m) else false.

(** ** [IP.String] *)
Definition dec_byte (b : byte) : string := pretty (Byte.to_N b).
Definition dotted (b : bytes) : string :=
  match dec_byte <$> b with
  | [a; b; c; d] => a +:+ "." +:+ b +:+ "." +:+ c +:+ "." +:+ d
  | _ => ""
  end.

Definition hex_digit (n : Z) : ascii :=
  ascii_of_N (Z.to_N (if (n <? 10)%Z then n + 48 else n + 87)%Z).
(** Lower-case hexadecimal without leading zeros ([appendHex]). *)
Definition hex16 (v : Z) : string :=
  let d k := hex_digit (Z.land (Z.shiftr v k) 15) in
  of_chars ((if (4096 <=? v)%Z then [d 12%Z] else []) ++ (if (256 <=? v)%Z then [d 8%Z] else []) ++
            (if (16 <=? v)%Z then [d 4%Z] else []) ++ [d 0%Z]).
Fixpoint groups (b : bytes) : list Z :=
  match b with
  | b0 :: b1 :: b => be16 b0 b1 :: groups b
  | _ => []
  end.
Fixpoint zero_run (g : list Z) : nat :=
  match g with 0%Z :: g => S (zero_run g) | _ => 0 end.
(** The first longest run of at least two zero groups: (start, end). *)
Fixpoint best_run (i : nat) (g : list Z) (best : nat * nat) : nat * nat :=
  match g with
  | [] => best
  | _ :: g' =>
      let l := zero_run g in
      best_run (S i) g'
        (if bool_decide (2 ≤ l) && bool_decide (best.2 - best.1 < l) then (i, i + l) else best)
  end.
Definition colon_join (l : list string) : string :=
  match l with
  | [] => ""
  | x :: l => fold_left (λ acc y, acc +:+ ":" +:+ y) l x
  end.
Definition string6 (b : bytes) : string :=
  let g := groups b in
  let '(zs, ze) := best_run 0 g (255, 255) in
  if bool_decide (zs < 8)
  then colon_join (hex16 <$> take zs g) +:+ "::" +:+ colon_join (hex16 <$> drop ze g)
  else colon_join (hex16 <$> g).
Definition hex_byte (b : byte) : string :=
  of_chars [hex_digit (Z.shiftr (b2z b) 4); hex_digit (Z.land (b2z b) 15)].
Definition IP_String (ip : IP) : string :=
  match ip with
  | [] => "<nil>"
  | _ => match To4 ip with
         | Some p4 => dotted p4
         | None => if bool_decide (length ip = 16) then string6 ip
                   else "?" +:+ foldr String.append "" (hex_byte <$> ip)
         end
  end.

(** Worked examples, one per branch of the parsers. *)
Example ParseIP_v4 : ParseIP "10.1.2.255" = v4InV6Prefix ++ [x0a; x01; x02; xff].
Proof. by vm_compute. Qed.
Example ParseIP_bad : ParseIP <$> ["1.2.3"; "01.2.3.4"; "1.2.3.256"; "1..2.3"; "1.2.3.4.5"; "x"; ""; "fe80::1%eth0"; "1::2::3"; ":1"; "1:"]
  = replicate 11 [].
Proof. by vm_compute. Qed.
Example ParseIP_v6 : IP_String ∘ ParseIP <$> ["::"; "::1"; "fe80::"; "2001:DB8:0:0:1:0:0:1"; "::ffff:1.2.3.4"; "1:2:3:4:5:6:7:8"; "64:ff9b::1.2.3.4"]
  = ["::"; "::1"; "fe80::"; "2001:db8::1:0:0:1"; "1.2.3.4"; "1:2:3:4:5:6:7:8"; "64:ff9b::102:304"].
Proof. by vm_compute. Qed.
Example ParseCIDR_dotted : snd <$> ParseCIDR "10.1.2.3/12" =
  Some {| ipn_IP := [x0a; x00; x00; x00]; ipn_Mask := [xff; xf0; x00; x00] |}.
Proof. by vm_compute. Qed.
Example ParseCIDR_mapped : Mask_ones ∘ ipn_Mask ∘ snd <$> ParseCIDR "::ffff:1.2.3.0/120" = Some 120.
Proof. by vm_compute. Qed.
Example Contains_ex : (λ s, Contains (snd (default ([], {| ipn_IP := []; ipn_Mask := [] |}) (ParseCIDR "172.16.0.0/12"))) (ParseIP s))
  <$> ["172.16.0.1"; "172.31.255.255"; "172.32.0.0"; "::1"] = [true; true; false; false].
Proof. by vm_compute. Qed.
