(* ===== verification/NetBits.v ===== *)
(** * Address prefixes as bit strings

    The engine tests a CIDR with masks ([IPNet.Contains]); the kernel's LPM trie
    compares leading bits.  This file relates the two. *)

From S2P Require Import Prelude GoStrings GoNet.
From Stdlib Require Import Ascii.

(** ** Bits of bytes, most significant first *)
Definition byte_bits (b : byte) : list bool := Z.testbit (b2z b) <$> [7; 6; 5; 4; 3; 2; 1; 0]%Z.
Definition bits (l : bytes) : list bool := l ≫= byte_bits.

Lemma length_bits l : length (bits l) = 8 * length l.
Proof. induction l as [|b l IH]; [done|]. unfold bits in *. rewrite bind_cons, length_app, IH. simpl. lia. Qed.
Lemma bits_cons b l : bits (b :: l) = byte_bits b ++ bits l.
Proof. done. Qed.
Lemma bits_app l k : bits (l ++ k) = bits l ++ bits k.
Proof. apply bind_app. Qed.

Lemma byte_bits_inj a b : byte_bits a = byte_bits b → a = b.
Proof.
  set (dec := λ l : list bool, match l with
    | [b7; b6; b5; b4; b3; b2; b1; b0] => Byte.of_bits (b0, (b1, (b2, (b3, (b4, (b5, (b6, b7)))))))
    | _ => x00 end).
  assert (∀ x, dec (byte_bits x) = x) as Hdec by (intros []; reflexivity).
  intros H%(f_equal dec). by rewrite !Hdec in H.
Qed.
Lemma bits_inj l k : bits l = bits k → l = k.
Proof.
  revert k. induction l as [|a l IH]; intros [|b k]; rewrite ?bits_cons; try done.
  intros [H1%byte_bits_inj H2%IH]%app_inj_1; [by subst|done].
Qed.

Lemma byte_bits_and a m : byte_bits (byte_and a m) = zip_with andb (byte_bits a) (byte_bits m).
Proof.
  assert (∀ i, (0 ≤ i < 8)%Z → Z.testbit (b2z (byte_and a m)) i = Z.testbit (b2z a) i && Z.testbit (b2z m) i) as Hi.
  { intros i Hi. unfold byte_and. rewrite b2z_z2b. change 256%Z with (2 ^ 8)%Z.
    by rewrite Z.mod_pow2_bits_low, Z.land_spec by lia. }
  unfold byte_bits. cbn [fmap list_fmap zip_with]. by rewrite !Hi by lia.
Qed.
Lemma bits_mask_bytes l m : bits (mask_bytes l m) = zip_with andb (bits l) (bits m).
Proof.
  revert m. induction l as [|a l IH]; intros [|b m]; try done.
  unfold mask_bytes in *. cbn [zip_with]. rewrite !bits_cons, zip_with_app by done. by rewrite IH, byte_bits_and.
Qed.

Lemma bits_CIDRMask l n : n ≤ 8 * l → bits (CIDRMask l n) = replicate n true ++ replicate (8 * l - n) false.
Proof.
  revert n. induction l as [|l IH]; intros n Hn.
  { by replace n with 0 by lia. }
  cbn [CIDRMask]. case_bool_decide as H8; rewrite bits_cons, IH by lia.
  - change (byte_bits xff) with (replicate 8 true).
    rewrite (assoc_L (++)), <-replicate_add. f_equal; f_equal; lia.
  - replace (8 * S l - n) with ((8 - n) + (8 * l - 0)) by lia.
    change (replicate 0 true) with (@nil bool).
    rewrite app_nil_l, replicate_add, (assoc_L (++)). f_equal.
    do 8 (destruct n as [|n]; [reflexivity|]). lia.
Qed.
Lemma length_CIDRMask l n : length (CIDRMask l n) = l.
Proof. revert n. induction l as [|l IH]; intros n; simpl; [done|]. case_bool_decide; simpl; by rewrite IH. Qed.

Lemma zip_and_true (l : list bool) : zip_with andb l (replicate (length l) true) = l.
Proof. induction l as [|x l IH]; simpl; [done|]. by rewrite IH, andb_true_r. Qed.
Lemma zip_and_false (l : list bool) : zip_with andb l (replicate (length l) false) = replicate (length l) false.
Proof. induction l as [|x l IH]; simpl; [done|]. by rewrite IH, andb_false_r. Qed.
Lemma zip_and_mask (l : list bool) n k :
  length l = n + k → zip_with andb l (replicate n true ++ replicate k false) = take n l ++ replicate k false.
Proof.
  intros Hl. rewrite <-(take_drop n l) at 1.
  assert (length (take n l) = n) as Ht by (rewrite length_take; lia).
  assert (length (drop n l) = k) as Hd by (rewrite length_drop; lia).
  rewrite zip_with_app by (by rewrite length_replicate).
  rewrite <-Ht at 2. rewrite <-Hd at 1 2. by rewrite zip_and_true, zip_and_false.
Qed.

(** Masking keeps the first [n] bits. *)
Lemma bits_masked l ip n :
  length ip = l → n ≤ 8 * l → bits (mask_bytes ip (CIDRMask l n)) = take n (bits ip) ++ replicate (8 * l - n) false.
Proof.
  intros <- Hn. rewrite bits_mask_bytes, bits_CIDRMask, zip_and_mask; [done| |done]. rewrite length_bits. lia.
Qed.
Lemma length_mask_bytes ip m : length ip = length m → length (mask_bytes ip m) = length ip.
Proof. intros H. unfold mask_bytes. rewrite length_zip_with_l_eq; done. Qed.

Lemma length_masked l ip n : length ip = l → length (mask_bytes ip (CIDRMask l n)) = l.
Proof. intros Hl. rewrite length_mask_bytes; by rewrite ?length_CIDRMask. Qed.

Lemma mask_bytes_eq_iff l a b n :
  length a = l → length b = l → n ≤ 8 * l →
  mask_bytes a (CIDRMask l n) = mask_bytes b (CIDRMask l n) ↔ take n (bits a) = take n (bits b).
Proof.
  intros Ha Hb Hn. split.
  - intros H%(f_equal bits). rewrite !(bits_masked l) in H by done. by apply app_inj_2 in H as [H _].
  - intros H. apply bits_inj. by rewrite !(bits_masked l), H.
Qed.
Lemma take_bits_masked l ip n :
  length ip = l → n ≤ 8 * l → take n (bits (mask_bytes ip (CIDRMask l n))) = take n (bits ip).
Proof.
  intros Hl Hn. rewrite (bits_masked l) by done. rewrite take_app_le by (rewrite length_take, length_bits; lia).
  rewrite take_take. f_equal. lia.
Qed.
Lemma mask_bytes_idem l ip n :
  length ip = l → n ≤ 8 * l → mask_bytes (mask_bytes ip (CIDRMask l n)) (CIDRMask l n) = mask_bytes ip (CIDRMask l n).
Proof.
  intros Hl Hn. apply (mask_bytes_eq_iff l); try done.
  - by apply length_masked.
  - by apply take_bits_masked.
Qed.

Lemma forallb_CIDRMask_0 l : forallb (λ b, bool_decide (b = x00)) (CIDRMask l 0) = true.
Proof. induction l as [|l IH]; [done|]. simpl. by rewrite IH. Qed.
Lemma Mask_ones_CIDRMask l n : n ≤ 8 * l → Mask_ones (CIDRMask l n) = n.
Proof.
  intros Hn. unfold Mask_ones. assert (simpleMaskLength (CIDRMask l n) = Some n) as ->; [|done].
  revert n Hn. induction l as [|l IH]; intros n Hn; [simpl; f_equal; lia|].
  cbn [CIDRMask simpleMaskLength]. case_bool_decide.
  - cbn [simpleMaskLength]. rewrite bool_decide_true, IH by (done || lia). simpl. f_equal. lia.
  - cbn [simpleMaskLength].
    do 8 (destruct n as [|n]; [simpl; by rewrite forallb_CIDRMask_0|]). lia.
Qed.

(** ** What [ParseCIDR] returns *)
Lemma ipv4_fields_length prev val d acc s b :
  length acc ≤ 3 → ipv4_fields prev val d acc s = Some b → length b = 4.
Proof.
  revert prev val d acc. induction s as [|c s IH]; intros prev val d acc Hacc; cbn [ipv4_fields].
  - case_bool_decide; [done|]. intros [= <-]. rewrite length_reverse. simpl. lia.
  - destruct (digit_val c).
    + destruct (_ && _); [done|]. destruct (_ <? _)%Z; [done|]. by apply IH.
    + case_bool_decide; [|done]. destruct (_ || _ || _); [done|].
      case_bool_decide as H3; [done|]. apply IH. simpl. lia.
Qed.

Lemma ipv6_finish_length r b : ipv6_finish r = Some b → length b = 16.
Proof.
  destruct r as [[acc ell] s]. unfold ipv6_finish. destruct (negb _); [done|].
  destruct ell as [e|]; case_bool_decide as Hl; try done; intros [= <-]; [|done].
  rewrite !length_app, length_take, length_drop, length_replicate. lia.
Qed.
Lemma parseIPv6_length s b : parseIPv6 s = Some b → length b = 16.
Proof.
  unfold parseIPv6. case_bool_decide; [done|].
  assert (∀ e s', ipv6_loop 8 e [] s' ≫= ipv6_finish = Some b → length b = 16) as Hl.
  { intros e s' (r & _ & Hr)%bind_Some. by apply ipv6_finish_length in Hr. }
  repeat case_match; try apply Hl; intros [= <-]; done.
Qed.

(** An IPv4 network: what [ParseCIDR] gives for dotted-quad text. *)
Definition net4 (ip : bytes) (n : nat) : IPNet :=
  {| ipn_IP := mask_bytes ip (CIDRMask 4 n); ipn_Mask := CIDRMask 4 n |}.

Lemma IP_Mask_v4 b m : length b = 4 → length m = 4 → IP_Mask (v4InV6Prefix ++ b) m = mask_bytes b m.
Proof.
  intros Hb Hm. destruct b as [|? [|? [|? [|? [|]]]]]; try done.
  destruct m as [|? [|? [|? [|? [|]]]]]; done.
Qed.
Lemma ParseCIDR_v4 c ip net :
  ParseCIDR c = Some (ip, net) → length (ipn_Mask net) = 4 →
  ∃ a n, length a = 4 ∧ n ≤ 32 ∧ net = net4 a n.
Proof.
  unfold ParseCIDR. destruct (Cut "/" c) as [[addr mask]|]; [|done]. cbn [mbind option_bind].
  destruct (ParseAddr addr) as [a|] eqn:Ea; [|done]. cbn [mbind option_bind].
  destruct (dtoi_all _) as [z|] eqn:Ez; [|done]. cbn [mbind option_bind].
  destruct (z <=? _)%Z eqn:Eb; [|done]. intros [= <- <-]. cbn [ipn_Mask].
  destruct a as [b|b]; [|intros H; by rewrite length_CIDRMask in H]. intros _.
  assert (length b = 4) as Hb.
  { unfold ParseAddr in Ea. destruct (addr_family _) as [x|]; [|done].
    destruct (ipv4_fields None 0 0 [] (chars addr)) as [b'|] eqn:Ef;
      [apply ipv4_fields_length in Ef; [|simpl; lia]|];
      destruct (parseIPv6 (chars addr)); repeat case_match; simplify_eq/=; done. }
  exists b, (Z.to_nat z). apply Z.leb_le in Eb. cbn [BitLen] in *. split_and!; [done|lia|].
  unfold net4. f_equal. by apply IP_Mask_v4; [|rewrite length_CIDRMask].
Qed.

Lemma ParseCIDR_v6 c ip net :
  ParseCIDR c = Some (ip, net) → length (ipn_Mask net) ≠ 4 →
  ∃ a n, length a = 16 ∧ n ≤ 128 ∧ net = {| ipn_IP := IP_Mask a (CIDRMask 16 n); ipn_Mask := CIDRMask 16 n |}.
Proof.
  unfold ParseCIDR. destruct (Cut "/" c) as [[addr mask]|]; [|done]. cbn [mbind option_bind].
  destruct (ParseAddr addr) as [a|] eqn:Ea; [|done]. cbn [mbind option_bind].
  destruct (dtoi_all _) as [z|] eqn:Ez; [|done]. cbn [mbind option_bind].
  destruct (z <=? _)%Z eqn:Eb; [|done]. intros [= <- <-]. cbn [ipn_Mask].
  destruct a as [b|b]; [intros H; by rewrite length_CIDRMask in H|]. intros _.
  exists b, (Z.to_nat z). apply Z.leb_le in Eb. cbn [BitLen] in *. split_and!; [|lia|done].
  unfold ParseAddr in Ea. destruct (addr_family _) as [x|]; [|done].
  destruct (ipv4_fields None 0 0 [] (chars addr)), (parseIPv6 (chars addr)) eqn:E6;
    try apply parseIPv6_length in E6; repeat case_match; simplify_eq/=; done.
Qed.

(** [IPNet.Contains] on an IPv4 network compares the leading bits. *)
Lemma Contains_net4 a n ip :
  length a = 4 → n ≤ 32 → length ip = 4 →
  Contains (net4 a n) ip = bool_decide (take n (bits a) = take n (bits ip)).
Proof.
  intros Ha Hn Hip. unfold Contains, networkNumberAndMask, net4. cbn [ipn_IP ipn_Mask].
  assert (length (mask_bytes a (CIDRMask 4 n)) = 4) as Hl by by apply length_masked.
  unfold To4. rewrite !(bool_decide_true (length _ = 4)) by (done || by rewrite length_CIDRMask).
  cbn [default from_option id]. rewrite bool_decide_true by congruence. apply bool_decide_ext.
  rewrite (mask_bytes_eq_iff 4) by (done || lia). by rewrite take_bits_masked by (done || lia).
Qed.
