(* ===== verification/TlsParse.v ===== *)
(** * The ClientHello parser ([internal/tlsparse/tlsparse.go])

    Every index and slice of the source is a [gindex] or [gslice] that panics out
    of range; the two loops take fuel.  [fuel_of] is enough: each iteration
    consumes at least three bytes. *)

From S2P Require Import Prelude.

(** ** Definitions *)
Inductive tls_error := ErrNotClientHello | ErrTruncated | ErrNoSNI.
Abbreviation tls := (go tls_error).

Definition recordHandshake : byte := x16.
Definition hsClientHello : byte := x01.
Definition extServerName : Z := 0.
Definition sniHostName : byte := x00.

(** [int(p[i])<<8 | int(p[i+1])]. *)
Definition read16 (p : bytes) (i : nat) : tls nat :=
  b0 ← gindex i p; b1 ← gindex (S i) p; Ok (Z.to_nat (be16 b0 b1)).

Definition skip8 (p : bytes) : tls (option bytes) :=
  if bool_decide (length p < 1) then Ok None
  else b ← gindex 0 p;
       let n := Z.to_nat (b2z b) in
       if bool_decide (length p < 1 + n) then Ok None
       else p ← gfrom (1 + n) p; Ok (Some p).
Definition skip16 (p : bytes) : tls (option bytes) :=
  if bool_decide (length p < 2) then Ok None
  else n ← read16 p 0;
       if bool_decide (length p < 2 + n) then Ok None
       else p ← gfrom (2 + n) p; Ok (Some p).

Fixpoint name_loop (fuel : nat) (sn : bytes) : tls bytes :=
  match fuel with
  | O => OutOfFuel
  | S fuel =>
      if bool_decide (length sn < 3) then Err ErrNoSNI
      else
        nameType ← gindex 0 sn;
        nameLen ← read16 sn 1;
        sn ← gfrom 3 sn;
        if bool_decide (length sn < nameLen) then Err ErrTruncated
        else if bool_decide (nameType = sniHostName) then gslice 0 nameLen sn
        else sn ← gfrom nameLen sn; name_loop fuel sn
  end.
Definition fuel_of (p : bytes) : nat := S (length p).

(** [if len(p) > n { p = p[:n] }]. *)
Definition clip (n : nat) (p : bytes) : tls bytes :=
  if bool_decide (n < length p) then gslice 0 n p else Ok p.

Definition parseServerNameList (ext : bytes) : tls bytes :=
  if bool_decide (length ext < 2) then Err ErrTruncated
  else
    listLen ← read16 ext 0;
    sn ← gfrom 2 ext;
    sn ← clip listLen sn;
    name_loop (fuel_of sn) sn.

Fixpoint ext_loop (fuel : nat) (p : bytes) : tls bytes :=
  match fuel with
  | O => OutOfFuel
  | S fuel =>
      if bool_decide (length p < 4) then Err ErrNoSNI
      else
        extType ← read16 p 0;
        extLen ← read16 p 2;
        p ← gfrom 4 p;
        if bool_decide (length p < extLen) then Err ErrTruncated
        else
          ext ← gslice 0 extLen p;
          p ← gfrom extLen p;
          if bool_decide (Z.of_nat extType ≠ extServerName) then ext_loop fuel p
          else parseServerNameList ext
  end.

Definition or_truncated (m : tls (option bytes)) : tls bytes :=
  o ← m; match o with Some p => Ok p | None => Err ErrTruncated end.

Definition ServerName (b : bytes) : tls bytes :=
  if bool_decide (length b < 5) then Err ErrNotClientHello
  else
    t ← gindex 0 b;
    if bool_decide (t ≠ recordHandshake) then Err ErrNotClientHello
    else
      p ← gfrom 5 b;
      if bool_decide (length p < 4) then Err ErrNotClientHello
      else
        t ← gindex 0 p;
        if bool_decide (t ≠ hsClientHello) then Err ErrNotClientHello
        else
          p ← gfrom 4 p;
          if bool_decide (length p < 34) then Err ErrTruncated
          else
            p ← gfrom 34 p;
            p ← or_truncated (skip8 p);
            p ← or_truncated (skip16 p);
            p ← or_truncated (skip8 p);
            if bool_decide (length p < 2) then Err ErrNoSNI
            else
              extTotal ← read16 p 0;
              p ← gfrom 2 p;
              p ← clip extTotal p;
              ext_loop (fuel_of p) p.

(** ** Encoding a ClientHello *)
Definition vec8 (l : bytes) : bytes := z2b (Z.of_nat (length l)) :: l.
Definition vec16 (l : bytes) : bytes := be_put16 (Z.of_nat (length l)) ++ l.
Record extension := { ext_type : Z; ext_body : bytes }.
Definition put_ext (e : extension) : bytes := be_put16 (ext_type e) ++ vec16 (ext_body e).
Definition put_name (t : byte) (name : bytes) : bytes := t :: vec16 name.
(** A server_name extension: entries of other types, then the host name, then
    anything. *)
Definition sni_body (others : list (byte * bytes)) (host rest : bytes) : bytes :=
  vec16 ((others ≫= λ tn, put_name tn.1 tn.2) ++ put_name sniHostName host ++ rest).
Record hello := {
  h_version : bytes; h_random : bytes; h_len : bytes; h_rec : bytes;
  h_session : bytes; h_ciphers : bytes; h_compression : bytes;
  h_before : list extension; h_others : list (byte * bytes); h_host : bytes; h_rest : bytes;
  h_after : bytes
}.
Definition hello_exts (h : hello) : bytes :=
  (h_before h ≫= put_ext) ++ put_ext {| ext_type := extServerName; ext_body := sni_body (h_others h) (h_host h) (h_rest h) |} ++ h_after h.
(** Record header (type, version, length), handshake header (type, length), then
    the body; [h_rec] and [h_len] are the four and three header bytes the parser
    skips. *)
Definition put_hello (h : hello) : bytes :=
  recordHandshake :: h_rec h ++ hsClientHello :: h_len h ++ h_version h ++ h_random h ++
  vec8 (h_session h) ++ vec16 (h_ciphers h) ++ vec8 (h_compression h) ++ vec16 (hello_exts h).
Definition hello_ok (h : hello) : Prop :=
  length (h_rec h) = 4 ∧ length (h_len h) = 3 ∧ length (h_version h) = 2 ∧ length (h_random h) = 32 ∧
  length (h_session h) < 256 ∧ (Z.of_nat (length (h_ciphers h)) < 65536)%Z ∧ length (h_compression h) < 256 ∧
  (Z.of_nat (length (hello_exts h)) < 65536)%Z ∧
  Forall (λ e, (0 < ext_type e < 65536)%Z) (h_before h) ∧ Forall (λ tn, tn.1 ≠ sniHostName) (h_others h).

(** ** No panic, enough fuel *)
Lemma read16_ok p i : S i < length p → ∃ n, read16 p i = Ok n.
Proof.
  intros Hi. unfold read16.
  destruct (gindex_ok (E := tls_error) i p) as (b0 & _ & ->); [lia|].
  destruct (gindex_ok (E := tls_error) (S i) p) as (b1 & _ & ->); [lia|]. eexists. reflexivity.
Qed.
(** Take the next in-range read or slice of the goal. *)
Ltac tls_step :=
  match goal with
  | |- context [gindex ?i ?p] => destruct (gindex_ok (E := tls_error) i p) as (? & _ & ->); [simpl in *; lia|]
  | |- context [read16 ?p ?i] => destruct (read16_ok p i) as [? ->]; [simpl in *; lia|]
  | |- context [gfrom ?n ?p] => rewrite (gfrom_ok n p) by lia
  | |- context [gslice 0 ?n ?p] => rewrite (gslice_ok 0 n p) by lia
  end; cbn [mbind go_bind].

Lemma name_loop_returns fuel sn : length sn < fuel → returns (name_loop fuel sn).
Proof.
  revert sn. induction fuel as [|fuel IH]; intros sn Hf; [lia|]. cbn [name_loop].
  case_bool_decide; [done|]. repeat tls_step. case_bool_decide; [done|].
  case_bool_decide; tls_step; [done|]. apply IH. rewrite !length_drop. lia.
Qed.
Lemma clip_ok n p : clip n p = Ok (take n p).
Proof.
  unfold clip. case_bool_decide; [|by rewrite take_ge by lia]. rewrite gslice_ok by lia.
  by rewrite Nat.sub_0_r, drop_0.
Qed.
Lemma parseServerNameList_returns ext : returns (parseServerNameList ext).
Proof.
  unfold parseServerNameList. case_bool_decide; [done|]. repeat tls_step. rewrite clip_ok. cbn [mbind go_bind].
  apply name_loop_returns. unfold fuel_of. lia.
Qed.
Lemma ext_loop_returns fuel p : length p < fuel → returns (ext_loop fuel p).
Proof.
  revert p. induction fuel as [|fuel IH]; intros p Hf; [lia|]. cbn [ext_loop].
  case_bool_decide; [done|]. repeat tls_step. case_bool_decide; [done|]. repeat tls_step.
  case_bool_decide; [|apply parseServerNameList_returns]. apply IH. rewrite !length_drop. lia.
Qed.
Lemma skip8_returns p : returns (or_truncated (skip8 p)).
Proof.
  unfold or_truncated, skip8. case_bool_decide; [done|]. tls_step. case_bool_decide; [done|]. by tls_step.
Qed.
Lemma skip16_returns p : returns (or_truncated (skip16 p)).
Proof.
  unfold or_truncated, skip16. case_bool_decide; [done|]. tls_step. case_bool_decide; [done|]. by tls_step.
Qed.

Lemma ServerName_returns b : returns (ServerName b).
Proof.
  unfold ServerName. case_bool_decide; [done|]. tls_step. case_bool_decide; [done|]. tls_step.
  case_bool_decide; [done|]. rewrite length_drop in *. 
  destruct (gindex_ok (E := tls_error) 0 (drop 5 b)) as (? & _ & ->); [rewrite length_drop; lia|]. cbn [mbind go_bind].
  case_bool_decide; [done|]. rewrite (gfrom_ok 4) by (rewrite length_drop; lia). cbn [mbind go_bind].
  case_bool_decide; [done|]. rewrite gfrom_ok by lia. cbn [mbind go_bind].
  do 3 (apply returns_bind; [apply skip8_returns || apply skip16_returns|]; intros ? _).
  case_bool_decide; [done|]. repeat tls_step. rewrite clip_ok. cbn [mbind go_bind].
  apply ext_loop_returns. unfold fuel_of. lia.
Qed.

(** C31: the ClientHello parser is total: on every byte sequence it returns a name
    or one of its errors, never reads or slices out of range, and its loops
    terminate. *)
Theorem ServerName_total b : returns (ServerName b).
Proof. apply ServerName_returns. Qed.

(** ** Truncated captures *)
Lemma gindex_app {A} i (p k : list A) a : gindex (E := tls_error) i p = Ok a → gindex (E := tls_error) i (p ++ k) = Ok a.
Proof. unfold gindex. destruct (p !! i) eqn:E; [|done]. by rewrite (lookup_app_l_Some _ _ _ _ E). Qed.
Lemma gslice_app {A} lo hi (p k : list A) x :
  gslice (E := tls_error) lo hi p = Ok x → gslice (E := tls_error) lo hi (p ++ k) = Ok x.
Proof.
  unfold gslice. case_bool_decide; [|done]. intros [= <-]. rewrite bool_decide_true by (rewrite length_app; lia).
  rewrite drop_app_le, take_app_le by (rewrite ?length_drop; lia). done.
Qed.
Lemma gfrom_app {A} lo (p k x : list A) :
  gfrom (E := tls_error) lo p = Ok x → gfrom (E := tls_error) lo (p ++ k) = Ok (x ++ k).
Proof.
  unfold gfrom at 1, gslice. case_bool_decide; [|done]. intros [= <-]. rewrite gfrom_ok by (rewrite length_app; lia).
  rewrite drop_app_le by lia. f_equal. f_equal. symmetry. apply take_ge. rewrite length_drop. lia.
Qed.
Lemma read16_app p k i n : read16 p i = Ok n → read16 (p ++ k) i = Ok n.
Proof.
  unfold read16. intros (b0 & H0 & (b1 & H1 & [= <-])%go_bind_ok)%go_bind_ok.
  by rewrite (gindex_app _ _ k _ H0), (gindex_app _ _ k _ H1).
Qed.
Lemma clip_app n p k x : clip n p = Ok x → ∃ k', clip n (p ++ k) = Ok (x ++ k').
Proof. rewrite !clip_ok. intros [= <-]. rewrite take_app. eauto. Qed.

(** Replace a read of [p] that succeeded by the same read of [p ++ k]. *)
Ltac app_step k :=
  match goal with
  | H : gindex _ ?p = Ok _ |- context [gindex _ (?p ++ k)] => rewrite (gindex_app _ _ k _ H)
  | H : read16 ?p _ = Ok _ |- context [read16 (?p ++ k) _] => rewrite (read16_app _ k _ _ H)
  | H : gfrom _ ?p = Ok _ |- context [gfrom _ (?p ++ k)] => rewrite (gfrom_app _ _ k _ H)
  | H : gslice _ _ ?p = Ok _ |- context [gslice _ _ (?p ++ k)] => rewrite (gslice_app _ _ _ k _ H)
  end; cbn [mbind go_bind].
Lemma app_not_short {A} (p k : list A) n : ¬ length p < n → bool_decide (length (p ++ k) < n) = false.
Proof. intros Hn. apply bool_decide_eq_false. rewrite length_app. lia. Qed.

Lemma name_loop_app fuel fuel' sn k s :
  name_loop fuel sn = Ok s → fuel ≤ fuel' → name_loop fuel' (sn ++ k) = Ok s.
Proof.
  revert fuel' sn k. induction fuel as [|fuel IH]; intros [|fuel'] sn k Hs Hle; try done; [lia|].
  cbn [name_loop] in *. case_bool_decide as H3; [done|]. rewrite app_not_short by done.
  apply go_bind_ok in Hs as (t & Ht & (n & Hn & (sn' & Hsn & Hs)%go_bind_ok)%go_bind_ok).
  repeat app_step k. case_bool_decide as Hl; [done|]. rewrite app_not_short by done.
  case_bool_decide; [by app_step k|]. apply go_bind_ok in Hs as (sn'' & Hsn'' & Hs). app_step k.
  apply IH; [done|lia].
Qed.
Lemma parseServerNameList_app ext k s : parseServerNameList ext = Ok s → parseServerNameList (ext ++ k) = Ok s.
Proof.
  unfold parseServerNameList. case_bool_decide as H2; [done|]. rewrite app_not_short by done.
  intros (n & Hn & (sn & Hsn & (sn' & Hc & Hs)%go_bind_ok)%go_bind_ok)%go_bind_ok. repeat app_step k.
  destruct (clip_app _ _ k _ Hc) as [k' ->]. cbn [mbind go_bind].
  eapply name_loop_app; [done|]. unfold fuel_of. rewrite length_app. lia.
Qed.
Lemma ext_loop_app fuel fuel' p k s :
  ext_loop fuel p = Ok s → fuel ≤ fuel' → ext_loop fuel' (p ++ k) = Ok s.
Proof.
  revert fuel' p k. induction fuel as [|fuel IH]; intros [|fuel'] p k Hs Hle; try done; [lia|].
  cbn [ext_loop] in *. case_bool_decide as H3; [done|]. rewrite app_not_short by done.
  apply go_bind_ok in Hs as (t & Ht & (n & Hn & (p' & Hp & Hs)%go_bind_ok)%go_bind_ok).
  repeat app_step k. case_bool_decide as Hl; [done|]. rewrite app_not_short by done.
  apply go_bind_ok in Hs as (ext & He & (p'' & Hp'' & Hs)%go_bind_ok). repeat app_step k.
  case_bool_decide; [|done]. apply IH; [done|lia].
Qed.
Lemma skip8_app p k x : or_truncated (skip8 p) = Ok x → or_truncated (skip8 (p ++ k)) = Ok (x ++ k).
Proof.
  unfold or_truncated, skip8. case_bool_decide as H1; [done|]. rewrite app_not_short by done.
  intros (o & (b & Hb & Ho)%go_bind_ok & Hx)%go_bind_ok. app_step k.
  case_bool_decide as H2; [by simplify_eq|]. rewrite app_not_short by done.
  apply go_bind_ok in Ho as (p' & Hp & [= <-]). app_step k. by simplify_eq.
Qed.
Lemma skip16_app p k x : or_truncated (skip16 p) = Ok x → or_truncated (skip16 (p ++ k)) = Ok (x ++ k).
Proof.
  unfold or_truncated, skip16. case_bool_decide as H1; [done|]. rewrite app_not_short by done.
  intros (o & (b & Hb & Ho)%go_bind_ok & Hx)%go_bind_ok. app_step k.
  case_bool_decide as H2; [by simplify_eq|]. rewrite app_not_short by done.
  apply go_bind_ok in Ho as (p' & Hp & [= <-]). app_step k. by simplify_eq.
Qed.

(** A capture cut short never yields a wrong name: the kernel copies at most
    512 bytes of the hello, and whenever the parser reports a name on such a
    prefix it reports the same name on the whole message. *)
Theorem ServerName_prefix b k s : ServerName b = Ok s → ServerName (b ++ k) = Ok s.
Proof.
  unfold ServerName. case_bool_decide as H5; [done|]. rewrite app_not_short by done.
  intros (t & Ht & Hs)%go_bind_ok. app_step k. case_bool_decide; [done|].
  apply go_bind_ok in Hs as (p & Hp & Hs). app_step k. case_bool_decide as H4; [done|]. rewrite app_not_short by done.
  apply go_bind_ok in Hs as (t2 & Ht2 & Hs). app_step k. case_bool_decide; [done|].
  apply go_bind_ok in Hs as (p2 & Hp2 & Hs). app_step k. case_bool_decide as H34; [done|]. rewrite app_not_short by done.
  apply go_bind_ok in Hs as (p3 & Hp3 & (p4 & Hp4 & (p5 & Hp5 & (p6 & Hp6 & Hs)%go_bind_ok)%go_bind_ok)%go_bind_ok).
  app_step k. rewrite (skip8_app _ k _ Hp4). cbn [mbind go_bind]. rewrite (skip16_app _ k _ Hp5). cbn [mbind go_bind].
  rewrite (skip8_app _ k _ Hp6). cbn [mbind go_bind].
  case_bool_decide as H2; [done|]. rewrite app_not_short by done.
  apply go_bind_ok in Hs as (n & Hn & (p7 & Hp7 & (p8 & Hp8 & Hs)%go_bind_ok)%go_bind_ok). repeat app_step k.
  destruct (clip_app _ _ k _ Hp8) as [k' ->]. cbn [mbind go_bind].
  eapply ext_loop_app; [done|]. unfold fuel_of. rewrite length_app. lia.
Qed.

(** ** Round trip *)
Lemma read16_put pre z l i :
  length pre = i → (0 ≤ z < 65536)%Z → read16 (pre ++ be_put16 z ++ l) i = Ok (Z.to_nat z).
Proof.
  intros <- Hz. unfold read16, gindex. simpl.
  assert ((pre ++ z2b (Z.shiftr z 8) :: z2b z :: l) !! length pre = Some (z2b (Z.shiftr z 8))) as ->
    by by apply list_lookup_middle.
  assert ((pre ++ z2b (Z.shiftr z 8) :: z2b z :: l) !! S (length pre) = Some (z2b z)) as ->.
  { rewrite cons_middle, (assoc_L (++)). apply list_lookup_middle. rewrite length_app. simpl. lia. }
  cbn [mbind go_bind]. by rewrite be16_put.
Qed.
Lemma length_be_put16 z : length (be_put16 z) = 2.
Proof. done. Qed.
Lemma length_vec16 l : length (vec16 l) = 2 + length l.
Proof. unfold vec16. by rewrite length_app, length_be_put16. Qed.
Lemma read16_put0 z l : (0 ≤ z < 65536)%Z → read16 (be_put16 z ++ l) 0 = Ok (Z.to_nat z).
Proof. by apply (read16_put []). Qed.
Lemma read16_put1 t z l : (0 ≤ z < 65536)%Z → read16 (t :: be_put16 z ++ l) 1 = Ok (Z.to_nat z).
Proof. by apply (read16_put [t]). Qed.
Lemma read16_put2 y z l : (0 ≤ z < 65536)%Z → read16 (be_put16 y ++ be_put16 z ++ l) 2 = Ok (Z.to_nat z).
Proof. by apply (read16_put (be_put16 y)). Qed.
Lemma gfrom_app_exact {E A} n (p k : list A) : length p = n → gfrom (E := E) n (p ++ k) = Ok k.
Proof. intros <-. rewrite gfrom_ok by (rewrite length_app; lia). by rewrite drop_app_length. Qed.
Lemma gslice_app_exact {E A} n (p k : list A) : length p = n → gslice (E := E) 0 n (p ++ k) = Ok p.
Proof.
  intros <-. rewrite gslice_ok by (rewrite ?length_app; lia). by rewrite drop_0, Nat.sub_0_r, take_app_length.
Qed.

Lemma gindex_0 {E A} (a : A) l : gindex (E := E) 0 (a :: l) = Ok a.
Proof. done. Qed.
Lemma gfrom_3 {E A} (a b c : A) l : gfrom (E := E) 3 (a :: b :: c :: l) = Ok l.
Proof. by rewrite gfrom_ok by (simpl; lia). Qed.
Lemma gfrom_4 {E A} (a b c d : A) l : gfrom (E := E) 4 (a :: b :: c :: d :: l) = Ok l.
Proof. by rewrite gfrom_ok by (simpl; lia). Qed.

Lemma skip8_put l r : length l < 256 → or_truncated (skip8 (vec8 l ++ r)) = Ok r.
Proof.
  intros Hl. unfold or_truncated, skip8, vec8. rewrite bool_decide_false by (simpl; lia). cbn [mbind go_bind].
  unfold gindex. simpl. rewrite b2z_z2b, Z.mod_small, Nat2Z.id by lia.
  rewrite bool_decide_false by (rewrite length_app; simpl; lia).
  by rewrite app_comm_cons, gfrom_app_exact.
Qed.
Lemma skip16_put l r : (Z.of_nat (length l) < 65536)%Z → or_truncated (skip16 (vec16 l ++ r)) = Ok r.
Proof.
  intros Hl. unfold or_truncated, skip16, vec16. rewrite bool_decide_false by (simpl; lia).
  rewrite <-(assoc_L (++)), read16_put0 by lia. cbn [mbind go_bind]. rewrite Nat2Z.id.
  rewrite bool_decide_false by (rewrite !length_app, length_be_put16; lia).
  rewrite (assoc_L (++)), (gfrom_app_exact (2 + length l)); [done|]. by rewrite length_app.
Qed.

Lemma name_loop_step fuel t name rest :
  (Z.of_nat (length name) < 65536)%Z →
  name_loop (S fuel) (put_name t name ++ rest) =
    if bool_decide (t = sniHostName) then Ok name else name_loop fuel rest.
Proof.
  intros Hl. unfold put_name, vec16. rewrite <-app_comm_cons, <-(assoc_L (++)). cbn [name_loop].
  rewrite bool_decide_false by (rewrite length_cons, length_app, length_be_put16; lia).
  rewrite gindex_0, read16_put1 by lia. cbn [mbind go_bind]. rewrite Nat2Z.id. cbn [be_put16 app]. rewrite gfrom_3.
  cbn [mbind go_bind]. rewrite bool_decide_false by (rewrite length_app; lia).
  rewrite gslice_app_exact, gfrom_app_exact by done. done.
Qed.
Lemma ext_loop_step fuel e rest :
  (0 ≤ ext_type e < 65536)%Z → (Z.of_nat (length (ext_body e)) < 65536)%Z →
  ext_loop (S fuel) (put_ext e ++ rest) =
    if bool_decide (ext_type e = extServerName) then parseServerNameList (ext_body e) else ext_loop fuel rest.
Proof.
  intros Ht Hl. unfold put_ext, vec16. rewrite <-!(assoc_L (++)). cbn [ext_loop].
  rewrite bool_decide_false by (rewrite !length_app, !length_be_put16; lia).
  rewrite read16_put0, read16_put2 by lia. cbn [mbind go_bind]. rewrite Nat2Z.id. cbn [be_put16 app]. rewrite gfrom_4.
  cbn [mbind go_bind]. rewrite bool_decide_false by (rewrite length_app; lia).
  rewrite gslice_app_exact, gfrom_app_exact by done. cbn [mbind go_bind].
  rewrite Z2Nat.id by lia. rewrite bool_decide_not. by case_bool_decide.
Qed.

Lemma length_put_name t n : length (put_name t n) = 3 + length n.
Proof. unfold put_name. by rewrite length_cons, length_vec16. Qed.
Lemma length_put_ext e : length (put_ext e) = 4 + length (ext_body e).
Proof. unfold put_ext. by rewrite length_app, length_be_put16, length_vec16. Qed.

Lemma name_loop_put fuel others host rest :
  (Z.of_nat (length (others ≫= λ tn, put_name tn.1 tn.2) + length host) < 65536)%Z →
  Forall (λ tn, tn.1 ≠ sniHostName) others → length others < fuel →
  name_loop fuel ((others ≫= λ tn, put_name tn.1 tn.2) ++ put_name sniHostName host ++ rest) = Ok host.
Proof.
  intros Hlen Hne. revert fuel Hlen. induction Hne as [|[t n] others Ht _ IH]; intros [|fuel] Hlen Hf;
    [lia| |rewrite length_cons in Hf; lia|].
  - change (([] : list (byte * bytes)) ≫= λ tn, put_name tn.1 tn.2) with ([] : bytes). rewrite app_nil_l.
    rewrite name_loop_step by lia. done.
  - rewrite bind_cons, length_app, length_put_name in Hlen. rewrite length_cons in Hf.
    rewrite bind_cons, <-(assoc_L (++)), name_loop_step by (simpl in *; lia).
    rewrite bool_decide_false by done. apply IH; lia.
Qed.
Lemma length_others (others : list (byte * bytes)) : length others ≤ length (others ≫= λ tn, put_name tn.1 tn.2).
Proof.
  induction others as [|tn others IH]; [done|]. rewrite bind_cons, length_app, length_put_name, length_cons. lia.
Qed.

Lemma parse_sni_body others host rest :
  (Z.of_nat (length (sni_body others host rest)) < 65536)%Z → Forall (λ tn, tn.1 ≠ sniHostName) others →
  parseServerNameList (sni_body others host rest) = Ok host.
Proof.
  unfold parseServerNameList, sni_body. set (names := (others ≫= _) ++ _). rewrite length_vec16. intros Hl Hne.
  rewrite bool_decide_false by lia. unfold vec16.
  rewrite read16_put0 by lia. cbn [mbind go_bind]. rewrite Nat2Z.id, (gfrom_app_exact 2) by done. cbn [mbind go_bind].
  rewrite clip_ok, take_ge by lia. cbn [mbind go_bind]. unfold names in *.
  rewrite !length_app, length_put_name in Hl. pose proof (length_others others).
  apply name_loop_put; [lia|done|]. unfold fuel_of. rewrite length_app. lia.
Qed.

Lemma ext_loop_put fuel before sni after :
  (Z.of_nat (length ((before ≫= put_ext) ++ put_ext sni ++ after)) < 65536)%Z →
  Forall (λ e, (0 < ext_type e < 65536)%Z) before → ext_type sni = extServerName → length before < fuel →
  ext_loop fuel ((before ≫= put_ext) ++ put_ext sni ++ after) = parseServerNameList (ext_body sni).
Proof.
  intros Hlen Hne Hs. revert fuel Hlen. induction Hne as [|e before He _ IH]; intros [|fuel] Hlen Hf;
    [lia| |rewrite length_cons in Hf; lia|].
  - change (([] : list extension) ≫= put_ext) with ([] : bytes) in *. rewrite app_nil_l in *.
    rewrite length_app, length_put_ext in Hlen. rewrite ext_loop_step by (rewrite ?Hs; unfold extServerName; lia).
    by rewrite bool_decide_true.
  - rewrite bind_cons, <-(assoc_L (++)) in *. rewrite length_app, length_put_ext in Hlen. rewrite length_cons in Hf.
    rewrite ext_loop_step by lia. rewrite bool_decide_false by (unfold extServerName; lia). apply IH; lia.
Qed.
Lemma length_before (before : list extension) : length before ≤ length (before ≫= put_ext).
Proof. induction before as [|e before IH]; [done|]. rewrite bind_cons, length_app, length_put_ext, length_cons. lia. Qed.

(** C32: the parser recovers the server name of a well-formed ClientHello: any
    version, random, session id, cipher suites and compression methods, any
    extensions before and after, entries of other name types first, and trailing
    bytes after the record. *)
Theorem ServerName_roundtrip h tail : hello_ok h → ServerName (put_hello h ++ tail) = Ok (h_host h).
Proof.
  intros (Hrec & Hlen & Hver & Hrnd & Hses & Hcip & Hcom & Hext & Hbef & Hoth).
  unfold put_hello. set (exts := hello_exts h) in *.
  set (body := h_version h ++ h_random h ++ vec8 (h_session h) ++ vec16 (h_ciphers h) ++ vec8 (h_compression h) ++ vec16 exts).
  destruct (h_rec h) as [|r0 [|r1 [|r2 [|r3 [|]]]]] eqn:Er; try done.
  destruct (h_len h) as [|l0 [|l1 [|l2 [|]]]] eqn:El; try done.
  unfold ServerName. cbn [app].
  rewrite bool_decide_false by (cbn [length]; lia). rewrite gindex_0. cbn [mbind go_bind].
  rewrite bool_decide_false by naive_solver.
  rewrite gfrom_ok by (cbn [length]; lia). cbn [drop mbind go_bind].
  rewrite bool_decide_false by (cbn [length]; lia). rewrite gindex_0. cbn [mbind go_bind].
  rewrite bool_decide_false by naive_solver. rewrite gfrom_4. cbn [mbind go_bind].
  assert (length (h_version h ++ h_random h) = 34) as H34 by (rewrite length_app; lia).
  unfold body. rewrite (assoc_L (++) (h_version h)), <-(assoc_L (++) (h_version h ++ h_random h)).
  rewrite bool_decide_false by (rewrite length_app, H34; lia). rewrite (gfrom_app_exact 34) by done. cbn [mbind go_bind].
  rewrite <-!(assoc_L (++)), skip8_put by done. cbn [mbind go_bind]. rewrite skip16_put by done. cbn [mbind go_bind].
  rewrite skip8_put by done. cbn [mbind go_bind].
  rewrite bool_decide_false by (rewrite length_app, length_vec16; lia). unfold vec16. rewrite <-(assoc_L (++)).
  rewrite read16_put0 by lia. cbn [mbind go_bind]. rewrite Nat2Z.id, (gfrom_app_exact 2) by done. cbn [mbind go_bind].
  rewrite clip_ok, take_app_length. cbn [mbind go_bind]. unfold exts, hello_exts in *.
  pose proof (length_before (h_before h)). rewrite ext_loop_put; [|done|done|done|].
  - apply parse_sni_body; [|done]. rewrite !length_app, length_put_ext in Hext. cbn [ext_body] in Hext. lia.
  - unfold fuel_of. rewrite length_app. lia.
Qed.

Definition ex_hello : hello := {|
  h_version := [x03; x03]; h_random := replicate 32 x2a; h_len := [x00; x00; x60]; h_rec := [x03; x01; x00; x64];
  h_session := [x01; x02]; h_ciphers := [x13; x01]; h_compression := [x00];
  h_before := [{| ext_type := 10; ext_body := [x00; x1d] |}];
  h_others := [(x05, [xff])]; h_host := String.list_byte_of_string "example.com"; h_rest := [x00];
  h_after := [x00; x2b]
|}.
Lemma ServerName_roundtrip_witness :
  ServerName (put_hello ex_hello ++ [xff]) = Ok (String.list_byte_of_string "example.com").
Proof.
  apply (ServerName_roundtrip ex_hello [xff]). unfold hello_ok.
  split_and!; try done; simpl; try lia; (apply Forall_singleton; simpl; (lia || done)).
Defined.
Lemma ServerName_prefix_witness :
  ServerName (take 90 (put_hello ex_hello) ++ drop 90 (put_hello ex_hello)) = Ok (String.list_byte_of_string "example.com").
Proof. apply ServerName_prefix. by vm_compute. Defined.
