(* ===== verification/Attr.v ===== *)
(** * Pod attribution ([internal/attr])

    [Parse]: the node-local pod identity read off a cgroup path (parse.go).
    [Index]: the inode index of the cgroup tree (cgroupfs.go).
    [Resolve]: [PodInfo], the enrichers and the caching [Resolver]
    (attr.go, k8s.go), as explicit state passing over the two maps the resolver
    guards with its mutex. *)

From S2P Require Import Prelude GoStrings.
From Stdlib Require Import Ascii.

Module Parse.

Record PodID := { UID : string; ContainerID : string; QoS : string }.
Definition PodID_zero : PodID := {| UID := ""; ContainerID := ""; QoS := "" |}.

#[export] Instance PodID_eq_dec : EqDecision PodID.
Proof. solve_decision. Defined.

(** ** The four regular expressions *)
Definition strip (p : string) (l : list ascii) : option (list ascii) :=
  if prefix_of_list (chars p) l then Some (drop (slen p) l) else None.
Definition strip_end (p : string) (l : list ascii) : option (list ascii) :=
  reverse <$> strip (of_chars (reverse (chars p))) (reverse l).

Definition between (a b : N) (c : ascii) : bool :=
  (a <=? N_of_ascii c)%N && (N_of_ascii c <=? b)%N.
(** [[0-9a-f]], [[0-9a-fA-F-]] and [[0-9a-fA-F_-]]. *)
Definition lower_hex (c : ascii) : bool := between 48 57 c || between 97 102 c.
Definition uid_char (c : ascii) : bool :=
  lower_hex c || between 65 70 c || bool_decide (c = "-"%char).
Definition uid_char_ (c : ascii) : bool := uid_char c || bool_decide (c = "_"%char).

Definition some_of (P : ascii → bool) (l : list ascii) : option string :=
  if negb (bool_decide (l = [])) && forallb P l then Some (of_chars l) else None.

(** [^kubepods-(?:(besteffort|burstable)-)?pod([0-9a-fA-F_-]+)\.slice$] *)
Definition reSystemdPod (s : string) : option (string * string) :=
  l ← strip "kubepods-" (chars s);
  let '(qos, l) := match strip "besteffort-" l, strip "burstable-" l with
                   | Some l, _ => ("besteffort", l)
                   | None, Some l => ("burstable", l)
                   | None, None => ("", l)
                   end in
  l ← strip "pod" l;
  l ← strip_end ".slice" l;
  (qos,.) <$> some_of uid_char_ l.

(** [^kubepods-(besteffort|burstable)\.slice$] *)
Definition reSystemdQoS (s : string) : option string :=
  if bool_decide (s = "kubepods-besteffort.slice") then Some "besteffort"
  else if bool_decide (s = "kubepods-burstable.slice") then Some "burstable" else None.

(** [^pod([0-9a-fA-F-]+)$] *)
Definition reCgroupfsPod (s : string) : option string :=
  strip "pod" (chars s) ≫= some_of uid_char.

(** [^(?:cri-containerd-|containerd-|crio-|docker-)?([0-9a-f]{64})(?:\.scope)?$] *)
Definition reContainer (s : string) : option string :=
  let l := chars s in
  let l := default l (first (λ p, strip p l) ["cri-containerd-"; "containerd-"; "crio-"; "docker-"]) in
  let l := default l (strip_end ".scope" l) in
  if bool_decide (length l = 64) && forallb lower_hex l then Some (of_chars l) else None.

(** [strings.ToLower(strings.ReplaceAll(uid, "_", "-"))] *)
Definition normalizeUID `{UnicodeCase} (uid : string) : string :=
  ToLower (of_chars ((λ c, if bool_decide (c = "_"%char) then "-"%char else c) <$> chars uid)).

(** ** ParsePath *)
Definition is_kubepods (s : string) : bool :=
  bool_decide (s = "kubepods") || bool_decide (s = "kubepods.slice") || HasPrefix s "kubepods-".

(** The body of the loop over the segments from the kubepods root on. *)
Definition seg_step `{UnicodeCase} (id : PodID) (s : string) : PodID :=
  if bool_decide (s = "") || bool_decide (s = "kubepods") || bool_decide (s = "kubepods.slice")
  then id
  else match reSystemdPod s with
  | Some (q, u) =>
      {| UID := normalizeUID u; ContainerID := ContainerID id;
         QoS := if bool_decide (q ≠ "") then q else QoS id |}
  | None =>
  match reCgroupfsPod s with
  | Some u => {| UID := normalizeUID u; ContainerID := ContainerID id; QoS := QoS id |}
  | None =>
  match reSystemdQoS s with
  | Some q => {| UID := UID id; ContainerID := ContainerID id; QoS := q |}
  | None =>
  if bool_decide (s = "besteffort") || bool_decide (s = "burstable") || bool_decide (s = "guaranteed")
  then {| UID := UID id; ContainerID := ContainerID id; QoS := s |}
  else match reContainer s with
  | Some c => {| UID := UID id; ContainerID := c; QoS := QoS id |}
  | None => id
  end end end end.

(** The suffix of the segments that starts at the first kubepods one. *)
Fixpoint from_kubepods (segs : list string) : option (list string) :=
  match segs with
  | [] => None
  | s :: segs' => if is_kubepods s then Some segs else from_kubepods segs'
  end.

(** [None] is [(PodID{}, false)]. *)
Definition ParsePath `{UnicodeCase} (path : string) : option PodID :=
  segs ← from_kubepods (Split "/"%char path);
  let id := fold_left seg_step segs PodID_zero in
  if bool_decide (UID id = "") then None
  else Some (if bool_decide (QoS id = "")
             then {| UID := UID id; ContainerID := ContainerID id; QoS := "guaranteed" |} else id).

End Parse.

Module Index.
Import Parse.

Definition hasKubepodsSegment (path : string) : bool := existsb is_kubepods (Split "/"%char path).

(** One call of the [WalkDir] callback: path, error, whether it is a directory
    and what [syscall.Stat] says of it. *)
Record entry := { e_path : string; e_err : bool; e_dir : bool; e_ino : option Z }.

Definition walk_step (root : string) (idx : gmap Z string) (e : entry) : gmap Z string :=
  if e_err e then idx
  else if negb (e_dir e) then idx
  else let rel := TrimPrefix (e_path e) root in
       if negb (hasKubepodsSegment rel) then idx
       else match e_ino e with Some ino => <[ino := rel]> idx | None => idx end.

(** [buildInoIndex(root)], given the calls [WalkDir(root, _)] makes, in order. *)
Definition buildInoIndex (root : string) (walk : list entry) : gmap Z string :=
  fold_left (walk_step root) walk ∅.

End Index.

Module Resolve.
Import Parse Index.

Record PodInfo := {
  Namespace : string; Name : string; pi_UID : string; Container : string;
  pi_QoS : string; Node : string; Labels : gmap string string
}.
Definition PodInfo_zero : PodInfo :=
  {| Namespace := ""; Name := ""; pi_UID := ""; Container := ""; pi_QoS := ""; Node := ""; Labels := ∅ |}.

#[export] Instance PodInfo_eq_dec : EqDecision PodInfo.
Proof. solve_decision. Defined.

Definition Known (p : PodInfo) : bool := bool_decide (pi_UID p ≠ "").
Definition PodInfo_String (p : PodInfo) : string :=
  if bool_decide (Namespace p ≠ "") && bool_decide (Name p ≠ "")
  then Namespace p +:+ "/" +:+ Name p
  else if bool_decide (pi_UID p ≠ "") then "uid:" +:+ pi_UID p
  else "".

(** The [Enricher] interface: what one call of [Enrich] answers ([None] is
    [ok = false]). *)
Definition Enricher := string → option (string * string * string * gmap string string).
Definition nopEnricher : Enricher := λ _, None.

(** [k8sEnricher.Enrich] over the informer's uid index: [ByIndex] answers an
    error ([None]) or the indexed objects, of which only pods have fields. *)
Record Pod := { p_UID : string; p_Namespace : string; p_Name : string; p_NodeName : string; p_Labels : gmap string string }.
Inductive object := PodObj (p : Pod) | OtherObj.
Definition k8s_Enrich (byIndex : string → option (list object)) : Enricher := λ uid,
  match byIndex uid with
  | None | Some [] => None
  | Some (PodObj p :: _) => Some (p_Namespace p, p_Name p, p_NodeName p, p_Labels p)
  | Some (OtherObj :: _) => None
  end.

(** The two maps of the [Resolver]; a cached [None] is [cacheEntry{ok: false}]. *)
Record Resolver := { inoIndex : gmap Z string; idCache : gmap Z (option PodID) }.
Definition NewResolver : Resolver := {| inoIndex := ∅; idCache := ∅ |}.

Definition enrich (enr : Enricher) (id : PodID) : PodInfo :=
  match enr (UID id) with
  | Some (ns, name, node, labels) =>
      {| Namespace := ns; Name := name; pi_UID := UID id; Container := ContainerID id;
         pi_QoS := QoS id; Node := node; Labels := labels |}
  | None =>
      {| Namespace := ""; Name := ""; pi_UID := UID id; Container := ContainerID id;
         pi_QoS := QoS id; Node := ""; Labels := ∅ |}
  end.

(** [lookupPath]: [idx] is what [buildInoIndex] would return at this moment. *)
Definition lookupPath (idx : gmap Z string) (id : Z) (r : Resolver) : option string * Resolver :=
  match inoIndex r !! id with
  | Some p => (Some p, r)
  | None => (idx !! id, {| inoIndex := idx; idCache := idCache r |})
  end.

Section resolver.
Context `{UnicodeCase}.

Definition ByCgroupID (idx : gmap Z string) (enr : Enricher) (id : Z) (r : Resolver)
    : PodInfo * Resolver :=
  if (id =? 0)%Z then (PodInfo_zero, r)
  else
    let '(ent, r) :=
      match idCache r !! id with
      | Some ent => (ent, r)
      | None =>
          let '(path, r) := lookupPath idx id r in
          let ent := path ≫= ParsePath in
          (ent, {| inoIndex := inoIndex r; idCache := <[id := ent]> (idCache r) |})
      end in
    (from_option (enrich enr) PodInfo_zero ent, r).

(** [Pods()]: the pods of the freshly walked index. *)
Definition Pods (idx : gmap Z string) (enr : Enricher) (r : Resolver) : gmap Z PodInfo * Resolver :=
  (omap (λ path, enrich enr <$> ParsePath path) idx,
   {| inoIndex := idx; idCache := idCache r |}).

End resolver.

(** What the monitors use of the resolver: a cgroup id gives a pod and moves the
    resolver's caches on.  The agent's resolver is one implementation, for the
    index and the enricher of the moment; a fixed table is another. *)
Class PodResolver := { rst : Type; by_cgroup : Z → rst → PodInfo * rst }.
Definition agent_resolver `{UnicodeCase} (idx : gmap Z string) (enr : Enricher) : PodResolver :=
  {| rst := Resolver; by_cgroup := ByCgroupID idx enr |}.
Definition fixed_pods (f : Z → PodInfo) : PodResolver := {| rst := unit; by_cgroup cg u := (f cg, u) |}.
End Resolve.

(** ** Properties of the parser *)
Module ParseFacts.
Import Parse Index.

Lemma strip_app p l : strip p (chars p ++ l) = Some l.
Proof.
  unfold strip, prefix_of_list. rewrite take_app_length, bool_decide_true by done.
  by rewrite <-length_chars, drop_app_length.
Qed.
Lemma strip_end_app p l : strip_end p (l ++ chars p) = Some l.
Proof.
  unfold strip_end. rewrite reverse_app.
  replace (reverse (chars p)) with (chars (of_chars (reverse (chars p)))) at 2
    by apply chars_of_chars.
  rewrite strip_app. simpl. by rewrite reverse_involutive.
Qed.
(** A prefix whose first character differs does not match. *)
Lemma strip_ne a p c l : a ≠ c → strip (String a p) (c :: l) = None.
Proof. intros. unfold strip, prefix_of_list. simpl. by rewrite bool_decide_false by naive_solver. Qed.

(** Characters of a canonical UID: lower-case hexadecimal and dashes. *)
Definition canon_char (c : ascii) : bool := lower_hex c || bool_decide (c = "-"%char).
Definition canon_uid (u : string) : bool := forallb canon_char (chars u).
Definition container_id (c : string) : bool :=
  bool_decide (slen c = 64) && forallb lower_hex (chars c).

Definition undash (c : ascii) : ascii := if bool_decide (c = "_"%char) then "-"%char else c.

Lemma canon_undash c : uid_char_ c = true → canon_char (lower_char (undash c)) = true.
Proof. ascii_cases. Qed.
Lemma undash_ascii c : uid_char_ c = true → is_ascii_char (undash c) = true.
Proof. ascii_cases. Qed.
Lemma uid_char_sub c : uid_char c = true → uid_char_ c = true.
Proof. unfold uid_char_. by intros ->. Qed.

Lemma forallb_impl {A} (P Q : A → bool) l :
  (∀ x, P x = true → Q x = true) → forallb P l = true → forallb Q l = true.
Proof. rewrite !forallb_forall. auto. Qed.

Lemma forallb_fmap {A B} (f : A → B) (P : B → bool) l :
  forallb P (f <$> l) = forallb (P ∘ f) l.
Proof. induction l as [|x l IH]; [done|]. rewrite fmap_cons. simpl. by rewrite IH. Qed.

Lemma normalizeUID_eq `{UnicodeCase} u :
  forallb uid_char_ (chars u) = true →
  normalizeUID u = of_chars (lower_char ∘ undash <$> chars u).
Proof.
  intros Hu. unfold normalizeUID, ToLower. fold undash. unfold is_ascii.
  rewrite !chars_of_chars, forallb_fmap, (forallb_impl uid_char_) by (done || apply undash_ascii).
  by rewrite <-list_fmap_compose.
Qed.

Lemma normalizeUID_canon `{UnicodeCase} u :
  forallb uid_char_ (chars u) = true → canon_uid (normalizeUID u) = true.
Proof.
  intros Hu. unfold canon_uid. rewrite normalizeUID_eq by done.
  rewrite chars_of_chars, forallb_fmap. by apply (forallb_impl uid_char_), Hu; apply canon_undash.
Qed.

Lemma some_of_Some P l u : some_of P l = Some u → l ≠ [] ∧ forallb P l = true ∧ u = of_chars l.
Proof.
  unfold some_of. destruct (forallb P l); rewrite ?andb_false_r; [|done].
  case_bool_decide; naive_solver.
Qed.

Lemma reSystemdPod_Some s q u :
  reSystemdPod s = Some (q, u) →
  (q = "" ∨ q = "besteffort" ∨ q = "burstable") ∧ u ≠ "" ∧ forallb uid_char_ (chars u) = true.
Proof.
  unfold reSystemdPod. intros (l & _ & Hl)%bind_Some.
  set (d := match strip "besteffort-" l, strip "burstable-" l with
            | Some l, _ => ("besteffort", l) | None, Some l => ("burstable", l)
            | None, None => ("", l) end) in Hl.
  assert (d.1 = "" ∨ d.1 = "besteffort" ∨ d.1 = "burstable") as Hq.
  { subst d. destruct (strip "besteffort-" l), (strip "burstable-" l); simpl; auto. }
  destruct d as [q' l']. apply bind_Some in Hl as (l2 & _ & Hl).
  apply bind_Some in Hl as (l3 & _ & Hl). apply fmap_Some in Hl as (u' & Hu & [= -> ->]).
  apply some_of_Some in Hu as (Hne & Hall & ->). rewrite chars_of_chars.
  repeat split; [done| |done]. intros Hu. apply Hne. by rewrite <-(chars_of_chars l3), Hu.
Qed.

Lemma reCgroupfsPod_Some s u :
  reCgroupfsPod s = Some u → u ≠ "" ∧ forallb uid_char_ (chars u) = true.
Proof.
  unfold reCgroupfsPod. intros (l & _ & (Hne & Hall & ->)%some_of_Some)%bind_Some.
  rewrite chars_of_chars. split.
  - intros Hu. apply Hne. by rewrite <-(chars_of_chars l), Hu.
  - eapply forallb_impl, Hall. apply uid_char_sub.
Qed.

Lemma reContainer_Some s c : reContainer s = Some c → container_id c = true.
Proof.
  unfold reContainer, container_id. set (l := default _ (strip_end _ _)).
  destruct (bool_decide (length l = 64) && forallb lower_hex l) eqn:E; [|done].
  intros [= <-]. by rewrite <-length_chars, chars_of_chars.
Qed.

(** What every intermediate identity satisfies. *)
Definition id_wf (id : PodID) : Prop :=
  canon_uid (UID id) = true ∧
  (ContainerID id = "" ∨ container_id (ContainerID id) = true) ∧
  (QoS id = "" ∨ QoS id = "besteffort" ∨ QoS id = "burstable" ∨ QoS id = "guaranteed").

Lemma seg_step_wf `{UnicodeCase} id s : id_wf id → id_wf (seg_step id s).
Proof.
  intros (Hu & Hc & Hq). unfold seg_step. case_match; [done|].
  destruct (reSystemdPod s) as [[q u]|] eqn:E1.
  { apply reSystemdPod_Some in E1 as (Hq' & _ & Hu').
    split_and!; simpl; [by apply normalizeUID_canon|done|]. case_bool_decide; naive_solver. }
  destruct (reCgroupfsPod s) as [u|] eqn:E2.
  { apply reCgroupfsPod_Some in E2 as [_ Hu'].
    split_and!; simpl; [by apply normalizeUID_canon|done..]. }
  destruct (reSystemdQoS s) as [q|] eqn:E3.
  { unfold reSystemdQoS in E3. split_and!; simpl; [done..|]. cases; auto. }
  destruct (bool_decide (s = "besteffort") || _ || _) eqn:E4.
  { rewrite !orb_true_iff, !bool_decide_eq_true in E4. split_and!; simpl; [done..|].
    destruct E4 as [[->| ->]| ->]; auto. }
  destruct (reContainer s) eqn:E5; [|done].
  split_and!; simpl; [done| |done]. right. by eapply reContainer_Some.
Qed.

Lemma fold_seg_step_wf `{UnicodeCase} segs id :
  id_wf id → id_wf (fold_left seg_step segs id).
Proof. revert id. induction segs; simpl; auto using seg_step_wf. Qed.

(** *** Paths as the kubelet builds them *)
Inductive driver := Systemd | Cgroupfs.
Inductive qos_class := Guaranteed | Burstable | BestEffort.
Definition qos_name (q : qos_class) : string :=
  match q with Guaranteed => "guaranteed" | Burstable => "burstable" | BestEffort => "besteffort" end.

(** The systemd driver writes the UID's dashes as underscores. *)
Definition dash_to_us (c : ascii) : ascii := if bool_decide (c = "-"%char) then "_"%char else c.
Definition escape_uid (u : string) : string := of_chars (dash_to_us <$> chars u).

(** The leaf of a container: bare, or with the prefix of its runtime, or as a scope; a
    pod's own cgroup has none. *)
Inductive runtime := CriContainerd | Containerd | Crio | Docker.
Definition runtime_prefix (r : option runtime) : string :=
  match r with
  | None => "" | Some CriContainerd => "cri-containerd-" | Some Containerd => "containerd-" | Some Crio => "crio-" | Some Docker => "docker-"
  end.
Definition leaf : Type := option (option runtime * bool * string).
Definition leaf_id (l : leaf) : string := match l with Some (_, _, cid) => cid | None => "" end.
Definition leaf_segments (l : leaf) : list string :=
  match l with
  | Some (r, scope, cid) => [runtime_prefix r +:+ cid +:+ (if scope : bool then ".scope" else "")]
  | None => []
  end.
Definition pod_segments (d : driver) (q : qos_class) (uid : string) (l : leaf) : list string :=
  match d, q with
  | Systemd, Guaranteed => ["kubepods.slice"; "kubepods-pod" +:+ escape_uid uid +:+ ".slice"]
  | Systemd, _ =>
      ["kubepods.slice"; "kubepods-" +:+ qos_name q +:+ ".slice"; "kubepods-" +:+ qos_name q +:+ "-pod" +:+ escape_uid uid +:+ ".slice"]
  | Cgroupfs, Guaranteed => ["kubepods"; "pod" +:+ uid]
  | Cgroupfs, _ => ["kubepods"; qos_name q; "pod" +:+ uid]
  end ++ leaf_segments l.
Definition add_segment (s : string) (rest : string) : string := "/" +:+ s +:+ rest.
Definition pod_path (pre : string) (d : driver) (q : qos_class) (uid : string) (l : leaf) : string :=
  pre +:+ foldr add_segment "" (pod_segments d q uid l).

Lemma split_chars_clean sep l : sep ∉ l → split_chars sep l = [l].
Proof.
  induction l as [|c l IH]; simpl; [done|]. rewrite not_elem_of_cons. intros [Hc Hl].
  by rewrite bool_decide_false, IH by congruence.
Qed.

Lemma Split_path pre segs :
  Forall (λ s, "/"%char ∉ chars s) segs →
  Split "/"%char (pre +:+ foldr add_segment "" segs) = Split "/"%char pre ++ segs.
Proof.
  intros Hs. unfold Split. rewrite chars_app. revert pre.
  induction Hs as [|s segs Hs _ IH]; intros pre; cbn [foldr].
  - by rewrite !app_nil_r.
  - unfold add_segment at 1.
    replace (chars ("/" +:+ s +:+ foldr add_segment "" segs))
      with ("/"%char :: chars s ++ chars (foldr add_segment "" segs))
      by (rewrite <-chars_app; done).
    rewrite split_chars_app, fmap_app. f_equal.
    rewrite (IH s), split_chars_clean by done.
    rewrite fmap_cons, fmap_nil, of_chars_chars. done.
Qed.

Lemma from_kubepods_app l k :
  existsb is_kubepods l = false → from_kubepods (l ++ k) = from_kubepods k.
Proof.
  induction l as [|s l IH]; simpl; [done|]. intros [-> ?]%orb_false_iff. auto.
Qed.

Lemma from_kubepods_iff segs : is_Some (from_kubepods segs) ↔ existsb is_kubepods segs = true.
Proof.
  induction segs as [|s segs IH]; simpl; [split; [intros []|]; done|].
  destruct (is_kubepods s); simpl; [|done]. split; eauto.
Qed.

(** *** What each kubelet segment contributes *)
Lemma canon_escape c : canon_char c = true →
  lower_char (undash (dash_to_us c)) = c ∧ uid_char_ (dash_to_us c) = true ∧
  lower_char (undash c) = c ∧ uid_char c = true ∧ c ≠ "/"%char ∧ dash_to_us c ≠ "/"%char.
Proof. ascii_cases. Qed.
Lemma lower_hex_first c : lower_hex c = true →
  c ≠ "k"%char ∧ c ≠ "p"%char ∧ c ≠ "r"%char ∧ c ≠ "/"%char.
Proof. ascii_cases. Qed.

Lemma forallb_not_in (P : ascii → bool) c l : P c = false → forallb P l = true → c ∉ l.
Proof. intros Hc Hl Hin. rewrite forallb_forall in Hl. apply list_elem_of_In, Hl in Hin. congruence. Qed.

Lemma map_canon (f : ascii → ascii) u :
  (∀ c, canon_char c = true → f c = c) → canon_uid u = true → of_chars (f <$> chars u) = u.
Proof.
  intros Hf Hu. rewrite <-(of_chars_chars u) at 2. f_equal. unfold canon_uid in Hu.
  induction (chars u) as [|c l IH]; [done|]. rewrite fmap_cons. simpl in Hu.
  apply andb_true_iff in Hu as [Hc Hl]. rewrite Hf, IH by done. done.
Qed.

Lemma escape_uid_chars u : canon_uid u = true → forallb uid_char_ (chars (escape_uid u)) = true.
Proof.
  intros Hu. unfold escape_uid. rewrite chars_of_chars, forallb_fmap.
  eapply forallb_impl, Hu. intros c Hc. by apply canon_escape in Hc as (_ & ? & _).
Qed.
Lemma canon_uid_chars u : canon_uid u = true → forallb uid_char (chars u) = true.
Proof. intros Hu. eapply forallb_impl, Hu. intros c Hc. by apply canon_escape in Hc as (_ & _ & _ & ? & _). Qed.

Lemma normalizeUID_escape `{UnicodeCase} u : canon_uid u = true → normalizeUID (escape_uid u) = u.
Proof.
  intros Hu. rewrite normalizeUID_eq by by apply escape_uid_chars.
  unfold escape_uid. rewrite chars_of_chars, <-list_fmap_compose.
  apply map_canon; [|done]. intros c Hc. by apply canon_escape in Hc as [? _].
Qed.
Lemma normalizeUID_id `{UnicodeCase} u : canon_uid u = true → normalizeUID u = u.
Proof.
  intros Hu. rewrite normalizeUID_eq.
  - apply map_canon; [|done]. intros c Hc. by apply canon_escape in Hc as (_ & _ & ? & _).
  - eapply forallb_impl, canon_uid_chars, Hu. apply uid_char_sub.
Qed.

Lemma some_of_chars P u : u ≠ "" → forallb P (chars u) = true → some_of P (chars u) = Some u.
Proof.
  intros Hu HP. unfold some_of. rewrite HP, bool_decide_false.
  - simpl. by rewrite of_chars_chars.
  - intros E. apply Hu. by rewrite <-(of_chars_chars u), E.
Qed.

Lemma chars_lit_app (lit : string) s : chars (lit +:+ s) = chars lit ++ chars s.
Proof. apply chars_app. Qed.

Lemma reSystemdPod_plain e :
  e ≠ "" → forallb uid_char_ (chars e) = true →
  reSystemdPod ("kubepods-pod" +:+ e +:+ ".slice") = Some ("", e).
Proof.
  intros He Hall. unfold reSystemdPod.
  change ("kubepods-pod" +:+ e +:+ ".slice") with ("kubepods-" +:+ ("pod" +:+ (e +:+ ".slice"))).
  rewrite chars_lit_app, strip_app. cbn [mbind option_bind].
  rewrite chars_lit_app.
  replace (strip "besteffort-" (chars "pod" ++ _)) with (@None (list ascii)) by done.
  replace (strip "burstable-" (chars "pod" ++ _)) with (@None (list ascii)) by done.
  rewrite strip_app. cbn [mbind option_bind].
  by rewrite chars_lit_app, strip_end_app; cbn [mbind option_bind]; rewrite some_of_chars.
Qed.

Lemma reSystemdPod_qos q e :
  q = "besteffort" ∨ q = "burstable" → e ≠ "" → forallb uid_char_ (chars e) = true →
  reSystemdPod ("kubepods-" +:+ q +:+ "-pod" +:+ e +:+ ".slice") = Some (q, e).
Proof.
  intros Hq He Hall. unfold reSystemdPod. rewrite chars_lit_app, strip_app. cbn [mbind option_bind].
  assert (∀ l, match strip "besteffort-" (chars q ++ "-"%char :: l), strip "burstable-" (chars q ++ "-"%char :: l) with
               | Some l, _ => ("besteffort", l) | None, Some l => ("burstable", l)
               | None, None => ("", chars q ++ "-"%char :: l) end = (q, l)) as Hd.
  { intros l. destruct Hq as [-> | ->].
    - change (chars "besteffort" ++ "-"%char :: l) with (chars "besteffort-" ++ l). by rewrite strip_app.
    - change (chars "burstable" ++ "-"%char :: l) with (chars "burstable-" ++ l).
      replace (strip "besteffort-" (chars "burstable-" ++ l)) with (@None (list ascii)) by done.
      by rewrite strip_app. }
  replace (chars (q +:+ "-pod" +:+ e +:+ ".slice"))
    with (chars q ++ "-"%char :: chars ("pod" +:+ (e +:+ ".slice")))
    by (rewrite (chars_app q); done).
  rewrite Hd, chars_lit_app, strip_app. cbn [mbind option_bind].
  by rewrite chars_lit_app, strip_end_app; cbn [mbind option_bind]; rewrite some_of_chars.
Qed.

Lemma strip_hex p l :
  forallb lower_hex (chars p) = false → forallb lower_hex l = true → strip p l = None.
Proof.
  intros Hp Hl. unfold strip, prefix_of_list. case_bool_decide as E; [|done].
  rewrite <-E in Hp. rewrite <-(take_drop (length (chars p)) l), forallb_app, Hp in Hl. done.
Qed.
Lemma strip_end_hex p l :
  forallb lower_hex (reverse (chars p)) = false → forallb lower_hex l = true → strip_end p l = None.
Proof.
  intros Hp Hl. unfold strip_end. rewrite strip_hex; [done| |].
  - by rewrite chars_of_chars.
  - rewrite forallb_forall in Hl |- *. intros x Hx. apply Hl.
    by apply list_elem_of_In, elem_of_reverse, list_elem_of_In.
Qed.

Lemma strip_hex_app p l r :
  forallb lower_hex (chars p) = false → forallb lower_hex l = true → slen p ≤ length l → strip p (l ++ r) = None.
Proof.
  intros Hp Hl Hlen. rewrite <-length_chars in Hlen. unfold strip, prefix_of_list. case_bool_decide as E; [|done].
  rewrite take_app_le in E by done. rewrite <-E in Hp. rewrite <-(take_drop (length (chars p)) l), forallb_app, Hp in Hl. done.
Qed.
(** The leaf without its runtime prefix. *)
Lemma unprefix_leaf r c (scope : bool) :
  container_id c = true → let l := chars c ++ chars (if scope then ".scope" else "") in
  default (chars (runtime_prefix r) ++ l) (first (λ p, strip p (chars (runtime_prefix r) ++ l)) ["cri-containerd-"; "containerd-"; "crio-"; "docker-"]) = l.
Proof.
  intros [Hlen%bool_decide_eq_true Hhex]%andb_true_iff. cbn zeta. rewrite <-length_chars in Hlen. set (l := _ ++ chars (if scope then _ else _)).
  destruct r as [[]|]; cbn [runtime_prefix first].
  - by rewrite strip_app.
  - assert (∀ l, strip "cri-containerd-" (chars "containerd-" ++ l) = None) as -> by done. by rewrite strip_app.
  - assert (∀ l, strip "cri-containerd-" (chars "crio-" ++ l) = None) as -> by done.
    assert (∀ l, strip "containerd-" (chars "crio-" ++ l) = None) as -> by done. by rewrite strip_app.
  - assert (∀ l, strip "cri-containerd-" (chars "docker-" ++ l) = None) as -> by done.
    assert (∀ l, strip "containerd-" (chars "docker-" ++ l) = None) as -> by done.
    assert (∀ l, strip "crio-" (chars "docker-" ++ l) = None) as -> by done. by rewrite strip_app.
  - change (chars "" ++ l) with l. unfold l. rewrite !strip_hex_app by (try done; rewrite Hlen; simpl; lia). done.
Qed.
Lemma reContainer_leaf r c (scope : bool) :
  container_id c = true → reContainer (runtime_prefix r +:+ c +:+ (if scope then ".scope" else "")) = Some c.
Proof.
  intros Hc. unfold reContainer. rewrite !chars_app, (unprefix_leaf r c scope Hc). pose proof Hc as [Hlen Hhex]%andb_true_iff.
  assert (default (chars c ++ chars (if scope then ".scope" else "")) (strip_end ".scope" (chars c ++ chars (if scope then ".scope" else ""))) = chars c) as ->.
  { destruct scope; [by rewrite strip_end_app|]. change (chars "") with (@nil ascii). rewrite app_nil_r. by rewrite strip_end_hex. }
  by rewrite length_chars, Hlen, Hhex, of_chars_chars.
Qed.

Lemma pod_segments_clean d q uid l :
  canon_uid uid = true → (∀ x, l = Some x → container_id x.2 = true) →
  Forall (λ s, "/"%char ∉ chars s) (pod_segments d q uid l).
Proof.
  intros Hu Hc.
  assert ("/"%char ∉ chars uid) by (by eapply forallb_not_in, Hu).
  assert ("/"%char ∉ chars (escape_uid uid))
    by (by eapply forallb_not_in, escape_uid_chars, Hu).
  assert (∀ s, forallb (λ c, negb (bool_decide (c = "/"%char))) (chars s) = true → "/"%char ∉ chars s)
    by (intros s Hs; by eapply forallb_not_in, Hs).
  unfold pod_segments. apply Forall_app. split.
  - destruct d, q; cbn [qos_name]; repeat constructor; rewrite ?chars_app, ?not_elem_of_app; split_and?; auto.
  - destruct l as [[[r scope] cid]|]; [|constructor]. apply Forall_singleton.
    specialize (Hc _ eq_refl) as [_ Hc]%andb_true_iff. assert ("/"%char ∉ chars cid) by (by eapply forallb_not_in, Hc).
    rewrite !chars_app, !not_elem_of_app. split_and!; [destruct r as [[]|]; auto|done|destruct scope; auto].
Qed.
End ParseFacts.

Module ParseTheorems.
Import Parse Index ParseFacts.

Section seg.
Context `{UnicodeCase} (id : PodID).

(** The three segments that carry no identity, and the QoS slices. *)
Lemma seg_root s : s = "kubepods" ∨ s = "kubepods.slice" → seg_step id s = id.
Proof. by intros [->| ->]. Qed.

Lemma seg_pod_plain u :
  u ≠ "" → canon_uid u = true →
  seg_step id ("kubepods-pod" +:+ escape_uid u +:+ ".slice") =
    {| UID := u; ContainerID := ContainerID id; QoS := QoS id |}.
Proof.
  intros Hne Hu. unfold seg_step. rewrite !bool_decide_false by done. cbn [orb].
  rewrite reSystemdPod_plain; [|by destruct u|by apply escape_uid_chars].
  rewrite bool_decide_false by naive_solver. by rewrite normalizeUID_escape.
Qed.

Lemma seg_pod_qos q u :
  q = "besteffort" ∨ q = "burstable" → u ≠ "" → canon_uid u = true →
  seg_step id ("kubepods-" +:+ q +:+ "-pod" +:+ escape_uid u +:+ ".slice") =
    {| UID := u; ContainerID := ContainerID id; QoS := q |}.
Proof.
  intros Hq Hne Hu. unfold seg_step.
  rewrite !bool_decide_false by (by destruct Hq as [->| ->]). cbn [orb].
  rewrite reSystemdPod_qos; [|done|by destruct u|by apply escape_uid_chars].
  rewrite bool_decide_true by (by destruct Hq as [->| ->]). by rewrite normalizeUID_escape.
Qed.

Lemma seg_cgroupfs_pod u :
  u ≠ "" → canon_uid u = true →
  seg_step id ("pod" +:+ u) = {| UID := u; ContainerID := ContainerID id; QoS := QoS id |}.
Proof.
  intros Hne Hu. unfold seg_step. rewrite !bool_decide_false by done. cbn [orb].
  assert (reSystemdPod ("pod" +:+ u) = None) as -> by done.
  unfold reCgroupfsPod. rewrite chars_app, strip_app. cbn [mbind option_bind].
  rewrite some_of_chars by auto using canon_uid_chars. by rewrite normalizeUID_id.
Qed.

Lemma seg_leaf r c (scope : bool) :
  container_id c = true →
  seg_step id (runtime_prefix r +:+ c +:+ (if scope then ".scope" else "")) = {| UID := UID id; ContainerID := c; QoS := QoS id |}.
Proof.
  intros Hc. pose proof (reContainer_leaf r c scope Hc) as Hre. pose proof Hc as [Hlen%bool_decide_eq_true Hhex]%andb_true_iff.
  set (t := if scope then ".scope" else "") in *. set (s := runtime_prefix r +:+ c +:+ t) in *.
  assert (∀ k, slen k < 64 → s ≠ k) as Hs.
  { intros k Hk <-. unfold s in Hk. rewrite !slen_app in Hk. lia. }
  assert (∀ p, p ∈ ["kubepods-"; "pod"] → strip p (chars s) = None) as Hno.
  { intros p Hp. unfold s. rewrite !chars_app. rewrite !elem_of_cons, elem_of_nil in Hp. destruct r as [[]|]; [by destruct Hp as [->|[->|?]]..|].
    change (chars (runtime_prefix None)) with (@nil ascii). cbn [app]. rewrite <-length_chars in Hlen.
    destruct Hp as [->|[->|?]]; [..|done]; apply strip_hex_app; try done; rewrite Hlen; simpl; lia. }
  unfold seg_step. rewrite !bool_decide_false by (apply Hs; simpl; lia). cbn [orb].
  unfold reSystemdPod, reCgroupfsPod, reSystemdQoS. rewrite !Hno by set_solver. cbn [mbind option_bind].
  rewrite !bool_decide_false by (apply Hs; simpl; lia). cbn [orb]. by rewrite Hre.
Qed.
End seg.

Lemma fold_segments `{UnicodeCase} d q uid l :
  uid ≠ "" → canon_uid uid = true → (∀ x, l = Some x → container_id x.2 = true) →
  fold_left seg_step (pod_segments d q uid l) PodID_zero =
    {| UID := uid; ContainerID := leaf_id l; QoS := match q with Guaranteed => "" | _ => qos_name q end |}.
Proof.
  intros Hne Hu Hc. unfold pod_segments. rewrite fold_left_app.
  assert (∀ id, ContainerID id = "" → fold_left seg_step (leaf_segments l) id = {| UID := UID id; ContainerID := leaf_id l; QoS := QoS id |}) as Hl.
  { intros [u c qs] Hid. cbn in Hid. subst c. destruct l as [[[r scope] cid]|]; [|done]. cbn [leaf_segments fold_left leaf_id].
    by rewrite seg_leaf by by apply (Hc _ eq_refl). }
  destruct d, q; cbn [fold_left qos_name]; rewrite ?(seg_root PodID_zero "kubepods.slice"), ?(seg_root PodID_zero "kubepods") by auto.
  - by rewrite seg_pod_plain, Hl.
  - assert (∀ id, seg_step id ("kubepods-" +:+ "burstable" +:+ ".slice") =
      {| UID := UID id; ContainerID := ContainerID id; QoS := "burstable" |}) as -> by done.
    by rewrite seg_pod_qos, Hl by auto.
  - assert (∀ id, seg_step id ("kubepods-" +:+ "besteffort" +:+ ".slice") =
      {| UID := UID id; ContainerID := ContainerID id; QoS := "besteffort" |}) as -> by done.
    by rewrite seg_pod_qos, Hl by auto.
  - by rewrite seg_cgroupfs_pod, Hl.
  - assert (∀ id, seg_step id "burstable" =
      {| UID := UID id; ContainerID := ContainerID id; QoS := "burstable" |}) as -> by done.
    by rewrite seg_cgroupfs_pod, Hl.
  - assert (∀ id, seg_step id "besteffort" =
      {| UID := UID id; ContainerID := ContainerID id; QoS := "besteffort" |}) as -> by done.
    by rewrite seg_cgroupfs_pod, Hl.
Qed.

(** Attribution is sound: an identity read off a cgroup path has a
    non-empty UID made of lower-case hexadecimal digits and dashes, one of the
    three QoS classes, and either no container id or one of 64 hexadecimal digits. *)
Theorem ParsePath_sound `{UnicodeCase} path id :
  ParsePath path = Some id →
  UID id ≠ "" ∧ canon_uid (UID id) = true ∧
  (ContainerID id = "" ∨ container_id (ContainerID id) = true) ∧
  (QoS id = "guaranteed" ∨ QoS id = "burstable" ∨ QoS id = "besteffort").
Proof.
  unfold ParsePath. intros (segs & _ & Hid)%bind_Some.
  destruct (fold_seg_step_wf segs PodID_zero) as (Hu & Hc & Hq); [unfold id_wf; simpl; auto|].
  case_bool_decide; [done|]. case_bool_decide; simplify_eq; split_and!; naive_solver.
Qed.

(** C39: attribution is complete on the paths that pods have: for both cgroup drivers,
    the three QoS classes, the pod's own cgroup or a container's (a bare id or with the
    prefix of one of the four runtimes, as a scope or not), and any outer path without
    a kubepods segment (k3d nests the tree under a Docker scope), the parser returns
    exactly the pod's UID, container id (empty for the pod's own cgroup) and QoS class;
    for UIDs of lower-case hexadecimal digits and dashes and 64-digit container ids. *)
Theorem ParsePath_roundtrip `{UnicodeCase} pre d q uid l :
  hasKubepodsSegment pre = false → uid ≠ "" → canon_uid uid = true → (∀ x, l = Some x → container_id x.2 = true) →
  ParsePath (pod_path pre d q uid l) =
    Some {| UID := uid; ContainerID := leaf_id l; QoS := qos_name q |}.
Proof.
  intros Hpre Hne Hu Hc. unfold ParsePath, pod_path.
  rewrite Split_path by by apply pod_segments_clean.
  rewrite from_kubepods_app by done.
  replace (from_kubepods (pod_segments d q uid l)) with (Some (pod_segments d q uid l))
    by (by destruct d, q).
  cbn [mbind option_bind]. rewrite fold_segments by done. cbn [UID QoS ContainerID].
  rewrite bool_decide_false by done. by destruct q.
Qed.
Lemma ParsePath_roundtrip_witness :
  ParsePath (H := ascii_case)
    (pod_path "/system.slice/docker-x.scope" Systemd Burstable "0a1b-22" (Some (Some Crio, true, of_chars (replicate 64 "a"%char))))
  = Some {| UID := "0a1b-22"; ContainerID := of_chars (replicate 64 "a"%char); QoS := "burstable" |} ∧
  ParsePath (H := ascii_case) "/kubepods/besteffort/pod0a1b-22" = Some {| UID := "0a1b-22"; ContainerID := ""; QoS := "besteffort" |}.
Proof.
  split.
  - apply (ParsePath_roundtrip (H := ascii_case) "/system.slice/docker-x.scope" Systemd Burstable "0a1b-22" (Some (Some Crio, true, of_chars (replicate 64 "a"%char))));
      [by vm_compute|done|by vm_compute|]. intros x [= <-]. by vm_compute.
  - apply (ParsePath_roundtrip (H := ascii_case) "" Cgroupfs BestEffort "0a1b-22" None); [by vm_compute|done|by vm_compute|done].
Defined.
Lemma ParsePath_sound_witness :
  canon_uid (UID {| UID := "0a-1"; ContainerID := ""; QoS := "besteffort" |}) = true.
Proof.
  apply (ParsePath_sound (H := ascii_case) "/kubepods/besteffort/pod0A-1"). by vm_compute.
Defined.

(** The walk loses no pod: a path without a kubepods segment, which the
    inode index does not record, is one the parser attributes to no pod. *)
Theorem index_filter_complete `{UnicodeCase} path :
  hasKubepodsSegment path = false → ParsePath path = None.
Proof.
  unfold hasKubepodsSegment, ParsePath. intros Hk.
  destruct (from_kubepods (Split "/"%char path)) as [segs|] eqn:E; [|done].
  pose proof (proj1 (from_kubepods_iff _) (mk_is_Some _ _ E)). congruence.
Qed.
Lemma index_filter_complete_witness : ParsePath (H := ascii_case) "/system.slice/sshd.service" = None.
Proof. by apply (index_filter_complete (H := ascii_case)); vm_compute. Defined.
End ParseTheorems.

(** ** Properties of the resolver *)
Module ResolveTheorems.
Import Parse Index Resolve.

Section resolver.
Context `{UnicodeCase}.

(** One call on the resolver, with whatever the cgroup tree and the informer
    hold at that moment. *)
Inductive resolver_step : Resolver → Resolver → Prop :=
  | step_ByCgroupID idx enr id r : resolver_step r (ByCgroupID idx enr id r).2
  | step_Pods idx enr r : resolver_step r (Pods idx enr r).2.

Lemma ByCgroupID_cached idx enr id r e :
  id ≠ 0%Z → idCache r !! id = Some e →
  ByCgroupID idx enr id r = (from_option (enrich enr) PodInfo_zero e, r).
Proof. intros Hid He. unfold ByCgroupID. by rewrite (proj2 (Z.eqb_neq _ _) Hid), He. Qed.

Lemma ByCgroupID_caches idx enr id r :
  id ≠ 0%Z → is_Some (idCache (ByCgroupID idx enr id r).2 !! id).
Proof.
  intros Hid. unfold ByCgroupID. rewrite (proj2 (Z.eqb_neq _ _) Hid).
  destruct (idCache r !! id) eqn:E; simpl; [by rewrite E|].
  destruct (lookupPath idx id r) as [path r']. simpl. by rewrite lookup_insert_eq.
Qed.

Lemma ByCgroupID_cache_mono idx enr id r i e :
  idCache r !! i = Some e → idCache (ByCgroupID idx enr id r).2 !! i = Some e.
Proof.
  intros Hi. unfold ByCgroupID. destruct (Z.eqb_spec id 0) as [|Hid]; [done|].
  destruct (idCache r !! id) eqn:E; [done|]. unfold lookupPath.
  destruct (inoIndex r !! id); simpl; by rewrite lookup_insert_ne by congruence.
Qed.

Lemma cache_mono r r' i e :
  rtc resolver_step r r' → idCache r !! i = Some e → idCache r' !! i = Some e.
Proof.
  induction 1 as [|r r1 r2 Hs _ IH]; [done|]. intros He. apply IH.
  destruct Hs; [by apply ByCgroupID_cache_mono|done].
Qed.
End resolver.

(** The identity cache is write-once.  Whatever [ByCgroupID] finds for a
    cgroup id the first time, every later call, after any sequence of resolver
    calls and any change of the cgroup tree, answers that identity enriched by
    the enricher as it is at the later call: names never go stale, and a cgroup
    that resolved to no pod stays unattributed. *)
Theorem attribution_write_once `{UnicodeCase} idx enr id r :
  id ≠ 0%Z →
  ∃ e : option PodID,
    (ByCgroupID idx enr id r).1 = from_option (enrich enr) PodInfo_zero e ∧
    ∀ r' idx' enr', rtc resolver_step (ByCgroupID idx enr id r).2 r' →
      ByCgroupID idx' enr' id r' = (from_option (enrich enr') PodInfo_zero e, r').
Proof.
  intros Hid. destruct (ByCgroupID_caches idx enr id r Hid) as [e He]. exists e. split.
  - unfold ByCgroupID in *. rewrite (proj2 (Z.eqb_neq _ _) Hid) in *.
    destruct (idCache r !! id) eqn:E; simpl in *; [congruence|].
    destruct (lookupPath idx id r) as [path r']. simpl in *.
    rewrite lookup_insert_eq in He. by simplify_eq.
  - intros r' idx' enr' Hr. apply ByCgroupID_cached; [done|]. by eapply cache_mono.
Qed.
Lemma attribution_write_once_witness :
  ∃ e : option PodID,
    (ByCgroupID (H := ascii_case) {[7%Z := "/kubepods/podab"]} nopEnricher 7 NewResolver).1
      = from_option (enrich nopEnricher) PodInfo_zero e ∧
    ∀ r' idx' enr',
      rtc (resolver_step (H := ascii_case))
        (ByCgroupID (H := ascii_case) {[7%Z := "/kubepods/podab"]} nopEnricher 7 NewResolver).2 r' →
      ByCgroupID (H := ascii_case) idx' enr' 7 r' = (from_option (enrich enr') PodInfo_zero e, r').
Proof. by apply (attribution_write_once (H := ascii_case)). Defined.

(** A resolver whose maps were filled from the tree [idx] and no other. *)
Definition coherent `{UnicodeCase} (idx : gmap Z string) (r : Resolver) : Prop :=
  (∀ i p, inoIndex r !! i = Some p → idx !! i = Some p) ∧
  (∀ i e, idCache r !! i = Some e → e = idx !! i ≫= ParsePath).

(** The two views of attribution agree.  While the cgroup tree does not
    change, the per-event lookup [ByCgroupID] (used to annotate events and to
    learn DNS answers) and the full walk [Pods] (used to program the maps) give
    every cgroup id the same pod, and both keep the resolver coherent with the tree. *)
Theorem ByCgroupID_agrees_Pods `{UnicodeCase} idx enr id r :
  id ≠ 0%Z → coherent idx r →
  (ByCgroupID idx enr id r).1 = default PodInfo_zero ((Pods idx enr r).1 !! id) ∧
  coherent idx (ByCgroupID idx enr id r).2 ∧ coherent idx (Pods idx enr r).2.
Proof.
  intros Hid [Hi Hc]. unfold ByCgroupID, Pods. rewrite (proj2 (Z.eqb_neq _ _) Hid).
  simpl. rewrite lookup_omap.
  assert (∀ e : option PodID, e = idx !! id ≫= ParsePath →
    from_option (enrich enr) PodInfo_zero e =
    default PodInfo_zero (idx !! id ≫= λ path, enrich enr <$> ParsePath path)) as Hd.
  { intros e ->. destruct (idx !! id) as [p|]; simpl; [|done]. by destruct (ParsePath p). }
  destruct (idCache r !! id) as [e|] eqn:E; simpl.
  { split_and!; [by apply Hd, Hc|by split|by split]. }
  assert (lookupPath idx id r = (idx !! id, (lookupPath idx id r).2) ∧
          inoIndex (lookupPath idx id r).2 !! id = idx !! id ∧
          coherent idx (lookupPath idx id r).2) as (-> & _ & Hi' & Hc').
  { unfold lookupPath. destruct (inoIndex r !! id) as [p|] eqn:E'; simpl.
    - rewrite E', (Hi _ _ E'). by split_and!.
    - by split_and!. }
  simpl. split_and!; [by apply Hd| |by split].
  split; simpl; [done|]. intros i e. rewrite lookup_insert. case_decide; naive_solver.
Qed.
Lemma ByCgroupID_agrees_Pods_witness :
  (ByCgroupID (H := ascii_case) {[7%Z := "/kubepods/podab"]} nopEnricher 7 NewResolver).1 =
  default PodInfo_zero ((Pods (H := ascii_case) {[7%Z := "/kubepods/podab"]} nopEnricher NewResolver).1 !! 7%Z).
Proof. apply (ByCgroupID_agrees_Pods (H := ascii_case)); [done|]. split; by intros i ? Hi. Defined.
End ResolveTheorems.
