(* ===== verification/ResolverRun.v ===== *)
(** * The resolver, shared by goroutines ([internal/attr/attr.go])

    The egress monitor, the HTTPS capture and the DNS learner resolve cgroup ids, the
    programmer lists the pods, all on one [Resolver], whose mutex is taken for single
    accesses and not for a whole call.  A step here is one such access or the walk of
    the cgroup tree, which takes its time while pods come and go.  The theorems say
    where an answer can come from, that a call on its own is [ByCgroupID], and that a
    cgroup that exists when it is first asked for is attributed to its pod by every
    interleaving. *)

From S2P Require Import Prelude GoStrings Attr.
Import Parse Index Resolve ResolveTheorems.

Section resolvers.
Context `{UnicodeCase}.
(** Where a goroutine is: nothing begun; the cache missed; walking the tree since the
    [n]th tree, for an id or for [Pods]; with a walked index to store; with the path
    looked up, before the cache is written. *)
Inductive rpos :=
  | RIdle
  | Looking (id : Z)
  | Walking (o : option Z) (n : nat)
  | Storing (o : option Z) (idx : gmap Z string)
  | Found (id : Z) (path : option string).
(** [rv_trees]: the trees so far, the last one current.  [rv_answers]: thread, id and
    entry of the calls that returned. *)
Record resolvers := {
  rv_res : Resolver; rv_trees : list (gmap Z string); rv_threads : gmap nat rpos; rv_answers : list (nat * Z * option PodID)
}.
Definition pos (st : resolvers) (t : nat) : rpos := default RIdle (rv_threads st !! t).
Definition moves (st : resolvers) (t : nat) (r : Resolver) (p : rpos) (answers : list (nat * Z * option PodID)) : resolvers :=
  {| rv_res := r; rv_trees := rv_trees st; rv_threads := <[t := p]> (rv_threads st); rv_answers := rv_answers st ++ answers |}.
(** The trees since the [n]th. *)
Definition trees_from (n : nat) (st : resolvers) : list (gmap Z string) := drop n (rv_trees st).

Inductive rlabel := RTree (tree : gmap Z string) | RStep (t : nat).
Inductive resolvers_step : resolvers → rlabel → resolvers → Prop :=
  | RvTree st tree :
      resolvers_step st (RTree tree)
        {| rv_res := rv_res st; rv_trees := rv_trees st ++ [tree]; rv_threads := rv_threads st; rv_answers := rv_answers st |}
  | RvCached st t id e :
      pos st t = RIdle → id ≠ 0%Z → idCache (rv_res st) !! id = Some e → resolvers_step st (RStep t) (moves st t (rv_res st) RIdle [(t, id, e)])
  | RvMissed st t id :
      pos st t = RIdle → id ≠ 0%Z → idCache (rv_res st) !! id = None → resolvers_step st (RStep t) (moves st t (rv_res st) (Looking id) [])
  | RvIndexed st t id path :
      pos st t = Looking id → inoIndex (rv_res st) !! id = Some path → resolvers_step st (RStep t) (moves st t (rv_res st) (Found id (Some path)) [])
  | RvUnindexed st t id :
      pos st t = Looking id → inoIndex (rv_res st) !! id = None →
      resolvers_step st (RStep t) (moves st t (rv_res st) (Walking (Some id) (pred (length (rv_trees st)))) [])
  | RvPods st t : pos st t = RIdle → resolvers_step st (RStep t) (moves st t (rv_res st) (Walking None (pred (length (rv_trees st)))) [])
  | RvWalked st t o n idx :
      pos st t = Walking o n → (∀ i, ∃ tree, tree ∈ trees_from n st ∧ idx !! i = tree !! i) →
      resolvers_step st (RStep t) (moves st t (rv_res st) (Storing o idx) [])
  | RvStored st t o idx :
      pos st t = Storing o idx →
      resolvers_step st (RStep t) (moves st t {| inoIndex := idx; idCache := idCache (rv_res st) |}
        match o with Some id => Found id (idx !! id) | None => RIdle end [])
  | RvCaches st t id path :
      pos st t = Found id path →
      let e := path ≫= ParsePath in
      resolvers_step st (RStep t) (moves st t {| inoIndex := inoIndex (rv_res st); idCache := <[id := e]> (idCache (rv_res st)) |} RIdle [(t, id, e)]).
Inductive resolvers_run (st : resolvers) : list rlabel → resolvers → Prop :=
  | rv_refl : resolvers_run st [] st
  | rv_snoc ls st1 l st2 : resolvers_run st ls st1 → resolvers_step st1 l st2 → resolvers_run st (ls ++ [l]) st2.
Definition resolvers_start (tree : gmap Z string) : resolvers :=
  {| rv_res := NewResolver; rv_trees := [tree]; rv_threads := ∅; rv_answers := [] |}.

Lemma pos_moves st t r p answers t' : pos (moves st t r p answers) t' = if bool_decide (t' = t) then p else pos st t'.
Proof. unfold pos, moves. cbn [rv_threads]. rewrite lookup_insert. case_decide; case_bool_decide; naive_solver. Qed.

(** ** Where answers come from *)
Section invariant.
(** [P id path]: what the trees may say about an id. *)
Context (P : Z → option string → Prop).
Definition pos_ok (st : resolvers) (p : rpos) : Prop :=
  match p with
  | RIdle | Looking _ => True
  | Walking _ n => n < length (rv_trees st)
  | Storing _ idx => ∀ i, P i (idx !! i)
  | Found id path => P id path
  end.
Record explained (st : resolvers) : Prop := {
  ex_trees : rv_trees st ≠ [] ∧ ∀ tree i, tree ∈ rv_trees st → P i (tree !! i);
  ex_index : ∀ i path, inoIndex (rv_res st) !! i = Some path → P i (Some path);
  ex_cache : ∀ i e, idCache (rv_res st) !! i = Some e → ∃ path, P i path ∧ e = path ≫= ParsePath;
  ex_threads : ∀ t, pos_ok st (pos st t);
  ex_answers : ∀ t i e, (t, i, e) ∈ rv_answers st → ∃ path, P i path ∧ e = path ≫= ParsePath
}.

Lemma explained_moves st t r p (answers : list (nat * Z * option PodID)) :
  explained st → pos_ok st p → (∀ i path, inoIndex r !! i = Some path → P i (Some path)) →
  (∀ i e, idCache r !! i = Some e → ∃ path, P i path ∧ e = path ≫= ParsePath) →
  (∀ t i e, (t, i, e) ∈ answers → ∃ path, P i path ∧ e = path ≫= ParsePath) → explained (moves st t r p answers).
Proof.
  intros [Ht Hi Hc Hth Ha] Hp Hi' Hc' Ha'. split; [exact Ht|exact Hi'|exact Hc'| |].
  - intros t'. rewrite pos_moves. case_bool_decide; [exact Hp|apply Hth].
  - intros t' i e [?|?]%elem_of_app; [by eapply Ha|by eapply Ha'].
Qed.
Lemma explained_step st l st' : explained st → (∀ tree i, l = RTree tree → P i (tree !! i)) → resolvers_step st l st' → explained st'.
Proof.
  intros Hex Hl Hstep. pose proof Hex as [[Hne Ht] Hi Hc Hth Ha].
  assert (∀ t i e, (t, i, e) ∈ @nil (nat * Z * option PodID) → ∃ path, P i path ∧ e = path ≫= ParsePath) as Hno by (intros ? ? ? ?%not_elem_of_nil; done).
  destruct Hstep as [st tree|st t id e Hp Hid Hca|st t id Hp Hid Hca|st t id path Hp Hix|st t id Hp Hix|st t Hp|st t o n idx Hp Hidx|st t o idx Hp|st t id path Hp e].
  - split; [|exact Hi|exact Hc| |exact Ha]; cbn [rv_trees].
    + split; [by destruct (rv_trees st)|]. intros tree' i [?| ->%list_elem_of_singleton]%elem_of_app; [by apply Ht|by eapply Hl].
    + intros t. specialize (Hth t). change (pos _ t) with (pos st t). destruct (pos st t); try exact Hth. cbn in Hth |- *. rewrite length_app. lia.
  - apply explained_moves; try done. intros t' i e' [= -> -> ->]%list_elem_of_singleton. by apply Hc.
  - by apply explained_moves.
  - apply explained_moves; try done. by apply Hi.
  - apply explained_moves; try done. cbn. destruct (rv_trees st); [done|cbn; lia].
  - apply explained_moves; try done. cbn. destruct (rv_trees st); [done|cbn; lia].
  - apply explained_moves; try done. intros i. destruct (Hidx i) as (tree & Hin & ->). apply Ht. unfold trees_from in Hin. apply list_elem_of_lookup in Hin as [j Hj].
    rewrite lookup_drop in Hj. by eapply list_elem_of_lookup_2.
  - pose proof (Hth t) as Hpt. rewrite Hp in Hpt. cbn in Hpt. apply explained_moves; try done; [destruct o; [apply Hpt|done]|].
    intros i path Hip. cbn in Hip. rewrite <-Hip. apply Hpt.
  - pose proof (Hth t) as Hpt. rewrite Hp in Hpt. cbn in Hpt. apply explained_moves; try done; cbn [inoIndex idCache].
    + intros i e'. rewrite lookup_insert. case_decide as Hd; [subst i; intros [= <-]; by exists path|apply Hc].
    + intros t' i e' [= -> -> ->]%list_elem_of_singleton. by exists path.
Qed.
Lemma explained_run st ls st' : resolvers_run st ls st' → explained st → (∀ tree i, RTree tree ∈ ls → P i (tree !! i)) → explained st'.
Proof.
  induction 1 as [|ls st1 l st2 _ IH Hs]; [done|]. intros Hex Hl. eapply explained_step; [apply IH; [done|]| |exact Hs].
  - intros tree i Hin. apply Hl. apply elem_of_app. by left.
  - intros tree i ->. apply Hl. apply elem_of_app. right. by left.
Qed.
Lemma explained_start tree : (∀ i, P i (tree !! i)) → explained (resolvers_start tree).
Proof.
  intros HP. split; try done.
  - split; [done|]. intros tree' i ->%list_elem_of_singleton. done.
  - intros t i e ?%not_elem_of_nil. done.
Qed.
End invariant.

(** ** A cgroup that exists when it is asked for *)
Section attributed.
Context (id : Z) (p : string) (k : nat).
Definition here (path : option string) : Prop := path = Some p.
Definition here_or_not (path : option string) : Prop := path = None ∨ path = Some p.
(** Walks for [id] began at the [k]th tree or later. *)
Definition pos_at (q : rpos) : Prop :=
  match q with
  | RIdle | Looking _ => True
  | Walking o n => o = Some id → k ≤ n
  | Storing o idx => here_or_not (idx !! id) ∧ (o = Some id → here (idx !! id))
  | Found i path => i = id → here path
  end.
Record attributed (st : resolvers) : Prop := {
  at_since : k < length (rv_trees st) ∧ Forall (λ tree, here (tree !! id)) (trees_from k st);
  at_trees : Forall (λ tree, here_or_not (tree !! id)) (rv_trees st);
  at_index : here_or_not (inoIndex (rv_res st) !! id);
  at_cache : ∀ e, idCache (rv_res st) !! id = Some e → e = ParsePath p;
  at_threads : ∀ t, pos_at (pos st t);
  at_answers : ∀ t e, (t, id, e) ∈ rv_answers st → e = ParsePath p
}.
Lemma attributed_moves st t r q (answers : list (nat * Z * option PodID)) :
  attributed st → pos_at q → here_or_not (inoIndex r !! id) → (∀ e, idCache r !! id = Some e → e = ParsePath p) →
  (∀ t e, (t, id, e) ∈ answers → e = ParsePath p) → attributed (moves st t r q answers).
Proof.
  intros [Hs Htr Hi Hc Hth Ha] Hq Hi' Hc' Ha'. split; [exact Hs|exact Htr|exact Hi'|exact Hc'| |].
  - intros t'. rewrite pos_moves. case_bool_decide; [exact Hq|apply Hth].
  - intros t' e [?|?]%elem_of_app; [by eapply Ha|by eapply Ha'].
Qed.
Lemma attributed_step st l st' : attributed st → (∀ tree, l = RTree tree → here (tree !! id)) → resolvers_step st l st' → attributed st'.
Proof.
  intros Hat Hl Hstep. pose proof Hat as [[Hk Hs] Htr Hi Hc Hth Ha].
  assert (∀ t e, (t, id, e) ∈ @nil (nat * Z * option PodID) → e = ParsePath p) as Hno by (intros ? ? ?%not_elem_of_nil; done).
  destruct Hstep as [st tree|st t i e Hp Hid Hca|st t i Hp Hid Hca|st t i path Hp Hix|st t i Hp Hix|st t Hp|st t o n idx Hp Hidx|st t o idx Hp|st t i path Hp e].
  - specialize (Hl tree eq_refl). split; [| |exact Hi|exact Hc|exact Hth|exact Ha]; cbn [rv_trees].
    + rewrite length_app. split; [lia|]. unfold trees_from. cbn [rv_trees]. rewrite drop_app_le by lia. apply Forall_app. split; [exact Hs|by apply Forall_singleton].
    + apply Forall_app. split; [exact Htr|]. apply Forall_singleton. by right.
  - apply attributed_moves; try done. intros t' e' [= -> <- ->]%list_elem_of_singleton. by apply Hc.
  - by apply attributed_moves.
  - apply attributed_moves; try done. intros ->. unfold here. rewrite Hix in Hi. by destruct Hi.
  - apply attributed_moves; try done. intros [= ->]. cbn. lia.
  - by apply attributed_moves.
  - pose proof (Hth t) as Hpt. rewrite Hp in Hpt. apply attributed_moves; try done. destruct (Hidx id) as (tree & Hin & E). cbn. unfold here_or_not, here. rewrite E. split.
    + rewrite Forall_forall in Htr. apply Htr. unfold trees_from in Hin. apply list_elem_of_lookup in Hin as [j Hj]. rewrite lookup_drop in Hj. by eapply list_elem_of_lookup_2.
    + intros ->. specialize (Hpt eq_refl). rewrite Forall_forall in Hs. apply Hs. unfold trees_from in *.
      apply list_elem_of_lookup in Hin as [j Hj]. apply list_elem_of_lookup. exists (n - k + j). rewrite lookup_drop in Hj |- *. by replace (k + (n - k + j)) with (n + j) by lia.
  - pose proof (Hth t) as Hpt. rewrite Hp in Hpt. destruct Hpt as [H1 H2]. apply attributed_moves; try done.
    destruct o as [i|]; [|done]. cbn. intros ->. by apply H2.
  - pose proof (Hth t) as Hpt. rewrite Hp in Hpt. cbn in Hpt. apply attributed_moves; try done; cbn [inoIndex idCache].
    + intros e'. rewrite lookup_insert. case_decide as Hd; [|apply Hc]. subst i. intros [= <-]. unfold e. by rewrite (Hpt eq_refl).
    + intros t' e' [= -> <- ->]%list_elem_of_singleton. unfold e. by rewrite (Hpt eq_refl).
Qed.
End attributed.

(** Nobody has asked for [id] yet. *)
Definition unasked (id : Z) (st : resolvers) : Prop :=
  idCache (rv_res st) !! id = None ∧ (∀ t e, (t, id, e) ∉ rv_answers st) ∧
  ∀ t, match pos st t with Walking o _ | Storing o _ => o ≠ Some id | Found i _ => i ≠ id | RIdle | Looking _ => True end.
(** A cgroup is attributed to its pod whatever the goroutines do: if [id] is at [p] in
    the cgroup tree before anyone asks for it, was at no other path before, and
    stays while it is asked for, then every call for it, in any interleaving of calls,
    walks and changes of the tree, answers the pod of [p]. *)
Lemma attributed_run id p tree0 ls0 st0 ls st :
  resolvers_run (resolvers_start tree0) ls0 st0 → Forall (λ tree, here_or_not p (tree !! id)) (rv_trees st0) →
  (∃ tree, last (rv_trees st0) = Some tree ∧ tree !! id = Some p) → unasked id st0 →
  resolvers_run st0 ls st → (∀ tree, RTree tree ∈ ls → tree !! id = Some p) →
  attributed id p (pred (length (rv_trees st0))) st.
Proof.
  intros Hrun0 Htr (tree & Hlast & Htree) (Hc & Ha & Hth) Hrun Hls.
  assert (explained (λ i path, i = id → here_or_not p path) st0) as Hex.
  { assert (∀ st ls, resolvers_run (resolvers_start tree0) ls st → ∀ tree, tree = tree0 ∨ RTree tree ∈ ls → tree ∈ rv_trees st) as Hsub.
    { clear. induction 1 as [|ls st1 l st2 _ IH Hs]; intros tree.
      - intros [->|?%not_elem_of_nil]; [by left|done].
      - rewrite elem_of_app, list_elem_of_singleton. destruct Hs; cbn [rv_trees moves]; rewrite ?elem_of_app, ?list_elem_of_singleton; intros [?|[?|?]]; simplify_eq; auto. }
    rewrite Forall_forall in Htr. eapply explained_run; [exact Hrun0|apply explained_start|].
    - intros i ->. apply Htr. eapply Hsub; [exact Hrun0|by left].
    - intros tree' i Hin ->. apply Htr. eapply Hsub; [exact Hrun0|by right]. }
  assert (attributed id p (pred (length (rv_trees st0))) st0) as Hat.
  { destruct Hex as [[Hne _] Hi _ Hpos _]. apply last_Some in Hlast as [l Hl]. split.
    - rewrite Hl. unfold trees_from. rewrite Hl, length_app. cbn. split; [lia|]. replace (pred (length l + 1)) with (length l) by lia.
      rewrite drop_app_length. by apply Forall_singleton.
    - exact Htr.
    - destruct (inoIndex (rv_res st0) !! id) eqn:E; [|by left]. by apply (Hi id).
    - rewrite Hc. done.
    - intros t. specialize (Hth t). specialize (Hpos t). unfold pos_at. destruct (pos st0 t); try done. split; [by apply Hpos|done].
    - intros t e Hin. by destruct (Ha t e). }
  clear -Hrun Hls Hat. induction Hrun as [|ls st1 l st2 _ IH Hs]; [done|]. eapply attributed_step; [apply IH| |exact Hs].
  - intros tree Hin. apply Hls, elem_of_app. by left.
  - intros tree ->. apply Hls, elem_of_app. right. by left.
Qed.

(** ** One call on its own *)
Lemma rv_cons st l st1 ls st2 : resolvers_step st l st1 → resolvers_run st1 ls st2 → resolvers_run st (l :: ls) st2.
Proof.
  intros Hs Hr. assert (∀ ls st2, resolvers_run st1 ls st2 → resolvers_run st ([l] ++ ls) st2) as Hc; [|by apply Hc].
  clear -Hs. induction 1 as [|ls st2 l' st3 _ IH Hs']; [apply (rv_snoc _ [] st); [constructor|done]|]. rewrite (assoc_L (++)). by eapply rv_snoc.
Qed.
Lemma last_tree_from st tree n : last (rv_trees st) = Some tree → n < length (rv_trees st) → ∀ i, ∃ t, t ∈ trees_from n st ∧ tree !! i = t !! i.
Proof.
  intros Hl Hn i. exists tree. split; [|done]. unfold trees_from. apply last_Some in Hl as [l Hl]. rewrite Hl, length_app in *. cbn in Hn.
  rewrite drop_app_le by lia. apply elem_of_app. right. by left.
Qed.
(** A call that nobody disturbs is [ByCgroupID] at the current tree. *)
Lemma call_alone st t tree enr id : id ≠ 0%Z → pos st t = RIdle → last (rv_trees st) = Some tree →
  ∃ n st' e, resolvers_run st (replicate n (RStep t)) st' ∧ pos st' t = RIdle ∧ rv_trees st' = rv_trees st ∧ rv_answers st' = rv_answers st ++ [(t, id, e)] ∧
    ByCgroupID tree enr id (rv_res st) = (from_option (enrich enr) PodInfo_zero e, rv_res st').
Proof.
  intros Hid Hp Hl. unfold ByCgroupID, lookupPath. rewrite (proj2 (Z.eqb_neq _ _) Hid).
  assert (∀ st1 r q a, pos (moves st1 t r q a) t = q) as Hpos by (intros; by rewrite pos_moves, bool_decide_true).
  destruct (idCache (rv_res st) !! id) as [e|] eqn:Ec.
  { exists 1, (moves st t (rv_res st) RIdle [(t, id, e)]), e. split; [eapply rv_cons; [by apply RvCached|constructor]|]. by rewrite Hpos. }
  destruct (inoIndex (rv_res st) !! id) as [path|] eqn:Ei.
  - exists 3. eexists _, _. split; [eapply rv_cons; [by apply (RvMissed st t id)|]; eapply rv_cons; [by apply (RvIndexed _ t id path); [apply Hpos|]|];
      eapply rv_cons; [by apply (RvCaches _ t id (Some path)), Hpos|constructor]|].
    rewrite Hpos. cbn [moves rv_trees rv_answers rv_res]. by rewrite !app_nil_r.
  - exists 5. eexists _, _. split; [eapply rv_cons; [by apply (RvMissed st t id)|]; eapply rv_cons; [by apply (RvUnindexed _ t id); [apply Hpos|]|];
      eapply rv_cons; [apply (RvWalked _ t (Some id) (pred (length (rv_trees st))) tree); [apply Hpos|]|eapply rv_cons; [by apply (RvStored _ t (Some id) tree), Hpos|];
      eapply rv_cons; [by apply (RvCaches _ t id (tree !! id)), Hpos|constructor]]|].
    { apply last_tree_from; [done|]. cbn [moves rv_trees]. apply last_Some in Hl as [l ->]. rewrite length_app. cbn. lia. }
    rewrite Hpos. cbn [moves rv_trees rv_answers rv_res inoIndex idCache]. by rewrite !app_nil_r.
Qed.

(** C33: a cgroup is attributed to its pod whatever the goroutines do: if a cgroup is at
    a path of the tree before anyone asks for it, was at no other path before and
    stays while it is asked for, then in every interleaving of calls of [ByCgroupID]
    and [Pods], slow walks of the tree and other changes of it, every call for it
    answers what the path says; and a call that nobody disturbs is [ByCgroupID]. *)
Theorem resolver_attributes enr id p tree0 ls0 st0 ls st :
  resolvers_run (resolvers_start tree0) ls0 st0 → Forall (λ tree, here_or_not p (tree !! id)) (rv_trees st0) →
  (∃ tree, last (rv_trees st0) = Some tree ∧ tree !! id = Some p) → unasked id st0 →
  resolvers_run st0 ls st → (∀ tree, RTree tree ∈ ls → tree !! id = Some p) →
  (∀ t e, (t, id, e) ∈ rv_answers st → e = ParsePath p) ∧
  (∀ t, id ≠ 0%Z → pos st t = RIdle → ∃ n st' tree, resolvers_run st (replicate n (RStep t)) st' ∧
     rv_answers st' = rv_answers st ++ [(t, id, ParsePath p)] ∧ last (rv_trees st) = Some tree ∧
     ByCgroupID tree enr id (rv_res st) = (from_option (enrich enr) PodInfo_zero (ParsePath p), rv_res st')).
Proof.
  intros Hrun0 Htr Hhere Hun Hrun Hls. pose proof (attributed_run id p tree0 ls0 st0 ls st Hrun0 Htr Hhere Hun Hrun Hls) as Hat.
  split; [apply (at_answers _ _ _ _ Hat)|]. intros t Hid Hp. destruct (last (rv_trees st)) as [tree|] eqn:Hl.
  2: { apply last_None in Hl. destruct (at_since _ _ _ _ Hat) as [Hk _]. rewrite Hl in Hk. cbn in Hk. lia. }
  destruct (call_alone st t tree enr id Hid Hp Hl) as (n & st' & e & Hr & _ & Htrees & Ha & Hby).
  assert (e = ParsePath p) as ->; [|by exists n, st', tree].
  assert (attributed id p (pred (length (rv_trees st0))) st') as Hat'.
  { assert (∀ ls st', resolvers_run st ls st' → (∀ tree, RTree tree ∉ ls) → attributed id p (pred (length (rv_trees st0))) st') as Hkeep.
    { clear -Hat. induction 1 as [|ls st1 l st2 _ IH Hs]; [done|]. intros Hn. eapply attributed_step; [apply IH| |exact Hs].
      - intros tree Hin. apply (Hn tree), elem_of_app. by left.
      - intros tree ->. destruct (Hn tree). apply elem_of_app. right. by left. }
    apply (Hkeep _ _ Hr). intros tree' Hin. apply elem_of_replicate in Hin as [? _]. done. }
  apply (at_answers _ _ _ _ Hat' t). rewrite Ha. apply elem_of_app. right. by left.
Qed.
(** Every answer is read off a tree there was. *)
Theorem answers_explained tree0 ls st t id e :
  resolvers_run (resolvers_start tree0) ls st → (t, id, e) ∈ rv_answers st → ∃ tree, (tree = tree0 ∨ RTree tree ∈ ls) ∧ e = tree !! id ≫= ParsePath.
Proof.
  intros Hrun Hin. pose proof (explained_run (λ i path, ∃ tree, (tree = tree0 ∨ RTree tree ∈ ls) ∧ path = tree !! i) _ _ _ Hrun) as Hex.
  destruct Hex as [_ _ _ _ Ha]; [apply explained_start; intros i; exists tree0; auto|intros tree i Hl; exists tree; auto|].
  destruct (Ha t id e Hin) as (path & (tree & Ht & ->) & ->). eauto.
Qed.
End resolvers.

(** ** Concrete runs *)
#[local] Existing Instance ascii_case.
Definition ex_pod_path : string := "/kubepods/podab".
Definition ex_tree : gmap Z string := {[7%Z := ex_pod_path]}.
(** A pod starts; the monitor and the learner ask for it at the same time, and the
    learner's answer comes first. *)
Definition ex_asked : resolvers := {| rv_res := NewResolver; rv_trees := [∅; ex_tree]; rv_threads := ∅; rv_answers := [] |}.
Lemma ex_asked_run : resolvers_run (resolvers_start ∅) [RTree ex_tree] ex_asked.
Proof. eapply rv_cons; [apply RvTree|]. constructor. Qed.
Ltac walk tree := intros ?i; exists tree; split; [set_solver|reflexivity].
Lemma ex_both_run : ∃ st e1 e2, resolvers_run ex_asked (RStep <$> [0; 0; 0; 1; 1; 1; 1; 1; 0; 0]) st ∧ rv_answers st = [(1, 7%Z, e1); (0, 7%Z, e2)].
Proof.
  eexists _, _, _. split; [cbn [fmap list_fmap]|].
  - eapply rv_cons; [by apply (RvMissed _ 0 7)|]. eapply rv_cons; [by apply (RvUnindexed _ 0 7)|].
    eapply rv_cons; [apply (RvWalked _ 0 (Some 7%Z) 1 ex_tree); [done|walk ex_tree]|].
    eapply rv_cons; [by apply (RvMissed _ 1 7)|]. eapply rv_cons; [by apply (RvUnindexed _ 1 7)|].
    eapply rv_cons; [apply (RvWalked _ 1 (Some 7%Z) 1 ex_tree); [done|walk ex_tree]|].
    eapply rv_cons; [by apply (RvStored _ 1 (Some 7%Z) ex_tree)|]. eapply rv_cons; [by eapply (RvCaches _ 1 7)|].
    eapply rv_cons; [by apply (RvStored _ 0 (Some 7%Z) ex_tree)|]. eapply rv_cons; [by eapply (RvCaches _ 0 7)|]. constructor.
  - reflexivity.
Qed.
Lemma resolver_attributes_witness : ∃ st e1 e2,
  resolvers_run (resolvers_start ∅) [RTree ex_tree] ex_asked ∧ ex_tree !! 7%Z = Some ex_pod_path ∧
  resolvers_run ex_asked (RStep <$> [0; 0; 0; 1; 1; 1; 1; 1; 0; 0]) st ∧ rv_answers st = [(1, 7%Z, e1); (0, 7%Z, e2)] ∧
  is_Some (ParsePath ex_pod_path) ∧ e1 = ParsePath ex_pod_path ∧ e2 = ParsePath ex_pod_path.
Proof.
  destruct ex_both_run as (st & e1 & e2 & Hr & Ha). exists st, e1, e2. split; [exact ex_asked_run|]. split; [reflexivity|].
  split; [exact Hr|]. split; [exact Ha|]. split; [eexists; vm_compute; reflexivity|].
  destruct (resolver_attributes (H := ascii_case) nopEnricher 7 ex_pod_path ∅ [RTree ex_tree] ex_asked (RStep <$> [0; 0; 0; 1; 1; 1; 1; 1; 0; 0]) st) as [Hall _].
  - exact ex_asked_run.
  - apply Forall_cons. split; [left; reflexivity|]. apply Forall_singleton. right. reflexivity.
  - exists ex_tree. split; reflexivity.
  - split; [reflexivity|]. split; [intros t e ?%not_elem_of_nil; done|]. intros t. exact I.
  - exact Hr.
  - intros tree Hin. apply list_elem_of_fmap in Hin as (? & ? & _). discriminate.
  - split; [apply (Hall 1)|apply (Hall 0)]; rewrite Ha; set_solver.
Defined.
(** The cache is not write-once between goroutines.  For an id that is asked for before
    it is in the tree: a walk that ends before the cgroup appears, and whose result is
    stored after another call has found it, replaces the entry by a miss, for good. *)
Definition ex_early : resolvers :=
  {| rv_res := NewResolver; rv_trees := [∅; ex_tree]; rv_threads := {[0 := Storing (Some 7%Z) ∅]}; rv_answers := [] |}.
Definition ex_found : resolvers :=
  {| rv_res := {| inoIndex := ex_tree; idCache := {[7%Z := ParsePath ex_pod_path]} |}; rv_trees := [∅; ex_tree];
     rv_threads := <[1 := RIdle]> {[0 := Storing (Some 7%Z) ∅]}; rv_answers := [(1, 7%Z, ParsePath ex_pod_path)] |}.
Lemma ex_early_run : resolvers_run (resolvers_start ∅) [RStep 0; RStep 0; RStep 0; RTree ex_tree] ex_early.
Proof.
  eapply rv_cons; [by apply (RvMissed _ 0 7)|]. eapply rv_cons; [by apply (RvUnindexed _ 0 7)|].
  eapply rv_cons; [apply (RvWalked _ 0 (Some 7%Z) 0 ∅); [done|walk (∅ : gmap Z string)]|]. eapply rv_cons; [apply (RvTree _ ex_tree)|]. constructor.
Qed.
Lemma ex_found_run : resolvers_run ex_early (replicate 5 (RStep 1)) ex_found.
Proof.
  eapply rv_cons; [by apply (RvMissed _ 1 7)|]. eapply rv_cons; [by apply (RvUnindexed _ 1 7)|].
  eapply rv_cons; [apply (RvWalked _ 1 (Some 7%Z) 1 ex_tree); [done|walk ex_tree]|].
  eapply rv_cons; [by apply (RvStored _ 1 (Some 7%Z) ex_tree)|]. eapply rv_cons; [by apply (RvCaches _ 1 7 (Some ex_pod_path))|]. constructor.
Qed.
Example late_miss_overwrites : ∃ st,
  resolvers_run (resolvers_start ∅) [RStep 0; RStep 0; RStep 0; RTree ex_tree] ex_early ∧ resolvers_run ex_early (replicate 5 (RStep 1)) ex_found ∧
  resolvers_run ex_found [RStep 0; RStep 0; RStep 1] st ∧ last (rv_trees st) = Some ex_tree ∧ ParsePath ex_pod_path ≠ None ∧
  rv_answers st = [(1, 7%Z, ParsePath ex_pod_path); (0, 7%Z, None); (1, 7%Z, None)].
Proof.
  eexists. split; [exact ex_early_run|]. split; [exact ex_found_run|]. split.
  - eapply rv_cons; [by apply (RvStored _ 0 (Some 7%Z) ∅)|]. eapply rv_cons; [by apply (RvCaches _ 0 7 None)|].
    eapply rv_cons; [by apply (RvCached _ 1 7 None)|]. constructor.
  - split; [done|]. split; [by vm_compute|done].
Qed.
