(* ===== verification/Policy.v ===== *)
(** * The policy model ([internal/policy]: policy.go, flow.go, selector.go)

    The data types with the source's fields, label selectors, validation.
    Go's string-typed enums stay strings, since a policy read from YAML or a CRD
    can hold any string until [Validate] has seen it.  A nil map is the empty map
    (every read of the source treats them alike), a nil pointer is [None]. *)

From S2P Require Import Prelude GoStrings GoNet Attr.
Export Attr.Resolve.

(** ** Data *)
Definition ActionAllow : string := "Allow".
Definition ActionDeny : string := "Deny".
Definition ActionModify : string := "Modify".
Definition PostureAllow : string := "Allow".
Definition PostureDeny : string := "Deny".
Definition MutSetHeader : string := "SetHeader".
Definition MutAddHeader : string := "AddHeader".
Definition MutRemoveHeader : string := "RemoveHeader".
Definition MutRewritePath : string := "RewritePath".
Definition OpIn : string := "In".
Definition OpNotIn : string := "NotIn".
Definition OpExists : string := "Exists".
Definition OpDoesNotExist : string := "DoesNotExist".

Record LabelSelectorRequirement := { Key : string; Operator : string; Values : list string }.
Record LabelSelector := {
  MatchLabels : gmap string string;
  MatchExpressions : list LabelSelectorRequirement
}.
Record PodSelector := {
  ps_Namespace : string; ps_Name : string; ps_UID : string;
  ps_Labels : gmap string string;
  ps_MatchExpressions : list LabelSelectorRequirement
}.
Record Mutation := { mu_Type : string; mu_Header : string; mu_Value : string; mu_PathReplace : string }.
Record Match := {
  m_Pod : PodSelector; Domains : list string; CIDRs : list string; Ports : list Z;
  Methods : list string; PathPrefix : string
}.
Record Rule := { r_Name : string; r_Match : Match; r_Action : string; r_Mutations : list Mutation }.
Record Policy := {
  p_PodSelector : option LabelSelector; DefaultAction : string; Rules : list Rule
}.

Definition PodSelector_zero : PodSelector :=
  {| ps_Namespace := ""; ps_Name := ""; ps_UID := ""; ps_Labels := ∅; ps_MatchExpressions := [] |}.
Definition Match_zero : Match :=
  {| m_Pod := PodSelector_zero; Domains := []; CIDRs := []; Ports := []; Methods := []; PathPrefix := "" |}.
Definition Policy_zero : Policy := {| p_PodSelector := None; DefaultAction := ""; Rules := [] |}.

#[export] Instance LabelSelectorRequirement_eq_dec : EqDecision LabelSelectorRequirement.
Proof. solve_decision. Defined.
#[export] Instance LabelSelector_eq_dec : EqDecision LabelSelector.
Proof. solve_decision. Defined.
#[export] Instance PodSelector_eq_dec : EqDecision PodSelector.
Proof. solve_decision. Defined.
#[export] Instance Mutation_eq_dec : EqDecision Mutation.
Proof. solve_decision. Defined.
#[export] Instance Match_eq_dec : EqDecision Match.
Proof. solve_decision. Defined.
#[export] Instance Rule_eq_dec : EqDecision Rule.
Proof. solve_decision. Defined.
#[export] Instance Policy_eq_dec : EqDecision Policy.
Proof. solve_decision. Defined.

(** [Flow] and [Verdict]; a nil [DstIP] is the empty byte list. *)
Record Flow := {
  f_Pod : PodInfo; f_Labels : gmap string string; DstIP : IP; Port : Z;
  Domain : string; Method : string; Path : string
}.
Record Verdict := { v_Action : string; v_Rule : string; v_Mutations : list Mutation }.

#[export] Instance Verdict_eq_dec : EqDecision Verdict.
Proof. solve_decision. Defined.

(** ** Label selectors *)
(** Reading a Go map: a missing key reads as the zero value. *)
Definition label_get (labels : gmap string string) (k : string) : string := default "" (labels !! k).

Definition contains (ss : list string) (want : string) : bool :=
  existsb (λ s, bool_decide (s = want)) ss.

Definition Requirement_matches (r : LabelSelectorRequirement) (labels : gmap string string) : bool :=
  let v := label_get labels (Key r) in
  let has := bool_decide (is_Some (labels !! Key r)) in
  if bool_decide (Operator r = OpIn) then has && contains (Values r) v
  else if bool_decide (Operator r = OpNotIn) then negb has || negb (contains (Values r) v)
  else if bool_decide (Operator r = OpExists) then has
  else if bool_decide (Operator r = OpDoesNotExist) then negb has
  else false.

(** The loop over a [map[string]string] selector: order does not matter, since
    it only looks for an entry that fails. *)
Definition labels_equal (want labels : gmap string string) : bool :=
  forallb (λ kv, bool_decide (label_get labels kv.1 = kv.2)) (map_to_list want).

Definition LabelSelector_Empty (s : option LabelSelector) : bool :=
  match s with
  | None => true
  | Some s => bool_decide (MatchLabels s = ∅) && bool_decide (MatchExpressions s = [])
  end.

Definition LabelSelector_Matches (s : option LabelSelector) (labels : gmap string string) : bool :=
  if LabelSelector_Empty s then true
  else match s with
       | None => true
       | Some s => labels_equal (MatchLabels s) labels &&
                   forallb (λ r, Requirement_matches r labels) (MatchExpressions s)
       end.

Definition PodSelector_IsZero (s : PodSelector) : bool :=
  bool_decide (ps_Namespace s = "") && bool_decide (ps_Name s = "") && bool_decide (ps_UID s = "") &&
  bool_decide (ps_Labels s = ∅) && bool_decide (ps_MatchExpressions s = []).

Definition MatchesLabels (s : PodSelector) (labels : gmap string string) : bool :=
  labels_equal (ps_Labels s) labels &&
  forallb (λ r, Requirement_matches r labels) (ps_MatchExpressions s).

(** [PodSelector.matches] (engine.go). *)
Definition PodSelector_matches (s : PodSelector) (f : Flow) : bool :=
  if bool_decide (ps_Namespace s ≠ "") && bool_decide (ps_Namespace s ≠ Namespace (f_Pod f)) then false
  else if bool_decide (ps_Name s ≠ "") && bool_decide (ps_Name s ≠ Name (f_Pod f)) then false
  else if bool_decide (ps_UID s ≠ "") && bool_decide (ps_UID s ≠ pi_UID (f_Pod f)) then false
  else MatchesLabels s (f_Labels f).

(** [foldInto]: the subject's labels overwrite the rule's on a common key. *)
Definition foldInto (s : option LabelSelector) (p : PodSelector) : PodSelector :=
  if LabelSelector_Empty s then p
  else match s with
       | None => p
       | Some s =>
           {| ps_Namespace := ps_Namespace p; ps_Name := ps_Name p; ps_UID := ps_UID p;
              ps_Labels := if bool_decide (MatchLabels s ≠ ∅)
                           then MatchLabels s ∪ ps_Labels p else ps_Labels p;
              ps_MatchExpressions := if bool_decide (MatchExpressions s ≠ [])
                                     then ps_MatchExpressions p ++ MatchExpressions s
                                     else ps_MatchExpressions p |}
       end.

(** ** Validation *)
Inductive policy_error :=
  | InvalidDefaultAction (s : string)
  | InPodSelector (e : policy_error)
  | InRule (i : nat) (name : string) (e : policy_error)
  | ActionMustNotCarryMutations (action : string)
  | ModifyRequiresMutation
  | InMutation (i : nat) (e : policy_error)
  | MissingAction
  | InvalidAction (s : string)
  | InvalidCIDR (c : string)
  | InMatchExpressions (i : nat) (e : policy_error)
  | InPodMatchExpressions (i : nat) (e : policy_error)
  | RequiresHeader (ty : string)
  | RequiresPathReplace (ty : string)
  | MissingMutationType
  | InvalidMutationType (s : string)
  | MissingKey
  | RequiresValue (op : string)
  | MustNotHaveValues (op : string)
  | MissingOperator
  | InvalidOperator (s : string).

(** [for i := range l { if err := f(l[i]); err != nil { return w(i, err) } }] *)
Fixpoint first_error {A} (f : A → option policy_error) (w : nat → A → policy_error → policy_error)
    (i : nat) (l : list A) : option policy_error :=
  match l with
  | [] => None
  | x :: l => match f x with Some e => Some (w i x e) | None => first_error f w (S i) l end
  end.

Definition Requirement_validate (r : LabelSelectorRequirement) : option policy_error :=
  if bool_decide (Key r = "") then Some MissingKey
  else if bool_decide (Operator r = OpIn) || bool_decide (Operator r = OpNotIn) then
    if bool_decide (Values r = []) then Some (RequiresValue (Operator r)) else None
  else if bool_decide (Operator r = OpExists) || bool_decide (Operator r = OpDoesNotExist) then
    if bool_decide (Values r ≠ []) then Some (MustNotHaveValues (Operator r)) else None
  else if bool_decide (Operator r = "") then Some MissingOperator
  else Some (InvalidOperator (Operator r)).

Definition LabelSelector_validate (s : option LabelSelector) : option policy_error :=
  match s with
  | None => None
  | Some s => first_error Requirement_validate (λ i _ e, InMatchExpressions i e) 0 (MatchExpressions s)
  end.

Definition Mutation_validate (m : Mutation) : option policy_error :=
  if bool_decide (mu_Type m = MutSetHeader) || bool_decide (mu_Type m = MutAddHeader) ||
     bool_decide (mu_Type m = MutRemoveHeader) then
    if bool_decide (mu_Header m = "") then Some (RequiresHeader (mu_Type m)) else None
  else if bool_decide (mu_Type m = MutRewritePath) then
    if bool_decide (mu_PathReplace m = "") then Some (RequiresPathReplace (mu_Type m)) else None
  else if bool_decide (mu_Type m = "") then Some MissingMutationType
  else Some (InvalidMutationType (mu_Type m)).

(** The [switch r.Action] of [Rule.validate]. *)
Definition Rule_validate_action (r : Rule) : option policy_error :=
  if bool_decide (r_Action r = ActionAllow) || bool_decide (r_Action r = ActionDeny) then
    if bool_decide (r_Mutations r ≠ []) then Some (ActionMustNotCarryMutations (r_Action r)) else None
  else if bool_decide (r_Action r = ActionModify) then
    if bool_decide (r_Mutations r = []) then Some ModifyRequiresMutation
    else first_error Mutation_validate (λ i _ e, InMutation i e) 0 (r_Mutations r)
  else if bool_decide (r_Action r = "") then Some MissingAction
  else Some (InvalidAction (r_Action r)).

Definition CIDR_validate (c : string) : option policy_error :=
  match ParseCIDR c with Some _ => None | None => Some (InvalidCIDR c) end.

Definition Rule_validate (r : Rule) : option policy_error :=
  match Rule_validate_action r with
  | Some e => Some e
  | None =>
      match first_error CIDR_validate (λ _ _ e, e) 0 (CIDRs (r_Match r)) with
      | Some e => Some e
      | None => first_error Requirement_validate (λ i _ e, InPodMatchExpressions i e) 0
                  (ps_MatchExpressions (m_Pod (r_Match r)))
      end
  end.

Definition EffectiveDefault (p : option Policy) : string :=
  match p with
  | None => PostureAllow
  | Some p => if bool_decide (DefaultAction p = "") then PostureAllow else DefaultAction p
  end.

Definition Validate (p : option Policy) : option policy_error :=
  match p with
  | None => None
  | Some p =>
      if negb (bool_decide (DefaultAction p = "") || bool_decide (DefaultAction p = PostureAllow) ||
               bool_decide (DefaultAction p = PostureDeny))
      then Some (InvalidDefaultAction (DefaultAction p))
      else match LabelSelector_validate (p_PodSelector p) with
           | Some e => Some (InPodSelector e)
           | None => first_error Rule_validate (λ i r e, InRule i (r_Name r) e) 0 (Rules p)
           end
  end.

(** ** Lemmas on selectors *)
Lemma contains_spec ss w : contains ss w = true ↔ w ∈ ss.
Proof.
  unfold contains. rewrite existsb_exists. split.
  - intros (x & Hx & ->%bool_decide_eq_true). by apply list_elem_of_In.
  - intros Hw. exists w. rewrite bool_decide_eq_true. split; [by apply list_elem_of_In|done].
Qed.

Lemma forallb_true {A} (P : A → bool) (l : list A) : forallb P l = true ↔ ∀ x, x ∈ l → P x = true.
Proof. rewrite forallb_forall. by setoid_rewrite list_elem_of_In. Qed.

Lemma labels_equal_spec want labels :
  labels_equal want labels = true ↔ ∀ k v, want !! k = Some v → label_get labels k = v.
Proof.
  unfold labels_equal. rewrite forallb_true. split.
  - intros H k v Hk%elem_of_map_to_list. by apply H, bool_decide_eq_true in Hk.
  - intros H [k v] Hk%elem_of_map_to_list. apply bool_decide_eq_true. by apply H.
Qed.

Lemma labels_equal_empty labels : labels_equal ∅ labels = true.
Proof. apply labels_equal_spec. intros k v. by rewrite lookup_empty. Qed.

(** Two selectors agree on the labels both constrain. *)
Definition compatible (a b : gmap string string) : Prop :=
  ∀ k v w, a !! k = Some v → b !! k = Some w → v = w.

Lemma labels_equal_union a b labels :
  compatible a b → labels_equal (a ∪ b) labels = labels_equal a labels && labels_equal b labels.
Proof.
  intros Hab. apply eq_bool_prop_intro. rewrite andb_True, !Is_true_true, !labels_equal_spec. split.
  - intros H. split; intros k v Hk; apply H; rewrite lookup_union.
    + rewrite Hk. by destruct (b !! k).
    + destruct (a !! k) eqn:E; rewrite Hk; [|done]. by rewrite (Hab k s v E Hk).
  - intros [Ha Hb] k v. rewrite lookup_union_Some_raw. intros [?|[_ ?]]; auto.
Qed.

Lemma labels_equal_union_l a b labels :
  labels_equal (a ∪ b) labels = true → labels_equal a labels = true.
Proof.
  rewrite !labels_equal_spec. intros H k v Hk. apply H. rewrite lookup_union, Hk. by destruct (b !! k).
Qed.

Lemma LabelSelector_Matches_Some s labels :
  LabelSelector_Matches (Some s) labels =
    labels_equal (MatchLabels s) labels && forallb (λ r, Requirement_matches r labels) (MatchExpressions s).
Proof.
  unfold LabelSelector_Matches. destruct (LabelSelector_Empty (Some s)) eqn:E; [|done].
  simpl in E. apply andb_true_iff in E as [E1%bool_decide_eq_true E2%bool_decide_eq_true].
  by rewrite E1, E2, labels_equal_empty.
Qed.

Lemma LabelSelector_Empty_Matches s labels :
  LabelSelector_Empty s = true → LabelSelector_Matches s labels = true.
Proof. unfold LabelSelector_Matches. by intros ->. Qed.

Definition subject_labels (s : option LabelSelector) : gmap string string := from_option MatchLabels ∅ s.
Definition subject_exprs (s : option LabelSelector) : list LabelSelectorRequirement :=
  from_option MatchExpressions [] s.

Lemma foldInto_eq s p :
  foldInto s p = {| ps_Namespace := ps_Namespace p; ps_Name := ps_Name p; ps_UID := ps_UID p;
                    ps_Labels := subject_labels s ∪ ps_Labels p;
                    ps_MatchExpressions := ps_MatchExpressions p ++ subject_exprs s |}.
Proof.
  unfold foldInto, subject_labels, subject_exprs. destruct p, s as [[ml me]|]; simpl;
    [|by rewrite (left_id_L ∅ (∪)), app_nil_r].
  repeat case_bool_decide; subst; simpl; try done;
    by rewrite ?(left_id_L ∅ (∪)), ?app_nil_r.
Qed.

Lemma LabelSelector_Matches_eq s labels :
  LabelSelector_Matches s labels =
    labels_equal (subject_labels s) labels && forallb (λ r, Requirement_matches r labels) (subject_exprs s).
Proof.
  destruct s as [s|]; [apply LabelSelector_Matches_Some|].
  simpl. by rewrite labels_equal_empty.
Qed.

Lemma MatchesLabels_foldInto s p labels :
  compatible (subject_labels s) (ps_Labels p) →
  MatchesLabels (foldInto s p) labels = MatchesLabels p labels && LabelSelector_Matches s labels.
Proof.
  intros Hc. rewrite foldInto_eq, LabelSelector_Matches_eq. unfold MatchesLabels. simpl.
  rewrite labels_equal_union, forallb_app by done.
  destruct (labels_equal (subject_labels s) labels), (labels_equal (ps_Labels p) labels),
    (forallb _ (ps_MatchExpressions p)); simpl; try done; by rewrite ?andb_false_r.
Qed.

Lemma PodSelector_matches_foldInto s p f :
  compatible (subject_labels s) (ps_Labels p) →
  PodSelector_matches (foldInto s p) f =
    PodSelector_matches p f && LabelSelector_Matches s (f_Labels f).
Proof.
  intros Hc. unfold PodSelector_matches. rewrite MatchesLabels_foldInto by done.
  rewrite foldInto_eq. cbn [ps_Namespace ps_Name ps_UID].
  destruct (_ && _); [done|]. destruct (_ && _); [done|]. by destruct (_ && _).
Qed.

Lemma compatible_empty a : compatible a ∅.
Proof. intros k v w _. by rewrite lookup_empty. Qed.
#[export] Hint Resolve compatible_empty : ebfw.

(** ** Lemmas on validation *)
Lemma first_error_None {A} (f : A → option policy_error) w i l :
  first_error f w i l = None ↔ Forall (λ x, f x = None) l.
Proof.
  revert i. induction l as [|x l IH]; intros i; simpl; [by split|].
  rewrite Forall_cons. destruct (f x); [naive_solver|]. rewrite IH. naive_solver.
Qed.

(** The declarative reading of a valid policy. *)
Definition valid_requirement (r : LabelSelectorRequirement) : Prop :=
  Key r ≠ "" ∧
  ((Operator r = OpIn ∨ Operator r = OpNotIn) ∧ Values r ≠ [] ∨
   (Operator r = OpExists ∨ Operator r = OpDoesNotExist) ∧ Values r = []).
Definition valid_mutation (m : Mutation) : Prop :=
  (mu_Type m = MutSetHeader ∨ mu_Type m = MutAddHeader ∨ mu_Type m = MutRemoveHeader) ∧ mu_Header m ≠ "" ∨
  mu_Type m = MutRewritePath ∧ mu_PathReplace m ≠ "".
Definition valid_rule (r : Rule) : Prop :=
  ((r_Action r = ActionAllow ∨ r_Action r = ActionDeny) ∧ r_Mutations r = [] ∨
   r_Action r = ActionModify ∧ r_Mutations r ≠ [] ∧ Forall valid_mutation (r_Mutations r)) ∧
  Forall (λ c, is_Some (ParseCIDR c)) (CIDRs (r_Match r)) ∧
  Forall valid_requirement (ps_MatchExpressions (m_Pod (r_Match r))).
Definition valid_policy (p : Policy) : Prop :=
  (DefaultAction p = "" ∨ DefaultAction p = PostureAllow ∨ DefaultAction p = PostureDeny) ∧
  Forall valid_requirement (subject_exprs (p_PodSelector p)) ∧
  Forall valid_rule (Rules p).

(** Case analysis on the string comparisons of a validator. *)
Ltac string_cases :=
  rewrite ?bool_decide_not;
  repeat match goal with
  | |- context [bool_decide (?a = ?b)] => destruct (bool_decide_reflect (a = b))
  end; simpl.

Lemma Requirement_validate_None r : Requirement_validate r = None ↔ valid_requirement r.
Proof.
  unfold Requirement_validate, valid_requirement, OpIn, OpNotIn, OpExists, OpDoesNotExist.
  string_cases; intuition congruence.
Qed.
Lemma Mutation_validate_None m : Mutation_validate m = None ↔ valid_mutation m.
Proof.
  unfold Mutation_validate, valid_mutation, MutSetHeader, MutAddHeader, MutRemoveHeader, MutRewritePath.
  string_cases; intuition congruence.
Qed.
Lemma CIDR_validate_None c : CIDR_validate c = None ↔ is_Some (ParseCIDR c).
Proof. unfold CIDR_validate. destruct (ParseCIDR c); split; naive_solver. Qed.

Lemma Rule_validate_action_None r :
  Rule_validate_action r = None ↔
  ((r_Action r = ActionAllow ∨ r_Action r = ActionDeny) ∧ r_Mutations r = [] ∨
   r_Action r = ActionModify ∧ r_Mutations r ≠ [] ∧ Forall valid_mutation (r_Mutations r)).
Proof.
  unfold Rule_validate_action, ActionAllow, ActionDeny, ActionModify.
  string_cases; rewrite ?first_error_None, ?(Forall_iff _ _ _ Mutation_validate_None);
    intuition congruence.
Qed.

Lemma Rule_validate_None r : Rule_validate r = None ↔ valid_rule r.
Proof.
  unfold Rule_validate, valid_rule. rewrite <-Rule_validate_action_None.
  rewrite <-(Forall_iff _ _ _ CIDR_validate_None), <-(Forall_iff _ _ _ Requirement_validate_None).
  destruct (Rule_validate_action r); [naive_solver|].
  destruct (first_error CIDR_validate _ _ _) eqn:E.
  - split; [done|]. intros (_ & Hc & _). by rewrite (proj2 (first_error_None _ _ _ _) Hc) in E.
  - apply first_error_None in E. rewrite first_error_None. naive_solver.
Qed.

Lemma Validate_None p : Validate (Some p) = None ↔ valid_policy p.
Proof.
  unfold Validate, valid_policy. rewrite <-(Forall_iff _ _ _ Rule_validate_None).
  rewrite <-(Forall_iff _ _ _ Requirement_validate_None).
  destruct (bool_decide_reflect (DefaultAction p = "")),
    (bool_decide_reflect (DefaultAction p = PostureAllow)),
    (bool_decide_reflect (DefaultAction p = PostureDeny)); cbn [orb negb]; try naive_solver.
  all: destruct (p_PodSelector p) as [s|]; simpl;
    [destruct (first_error Requirement_validate _ _ _) eqn:E;
     [split; [done|]; intros (_ & Hc & _); by rewrite (proj2 (first_error_None _ _ _ _) Hc) in E
     |apply first_error_None in E]|];
    rewrite first_error_None; naive_solver.
Qed.

(** ** Theorems *)
(** C38: validation accepts exactly the well-formed policies: a known posture,
    well-formed label requirements (In/NotIn with values, Exists/DoesNotExist
    without), known rule actions, mutations exactly on Modify rules and each
    well-formed, and every CIDR parseable. *)
Theorem Validate_exact (p : option Policy) :
  Validate p = None ↔ from_option valid_policy True p.
Proof. destruct p as [p|]; [apply Validate_None|done]. Qed.

(** Kubernetes' reading of a label selector: the label must be present. *)
Definition requirement_holds (r : LabelSelectorRequirement) (labels : gmap string string) : Prop :=
  (Operator r = OpIn → ∃ v, labels !! Key r = Some v ∧ v ∈ Values r) ∧
  (Operator r = OpNotIn → ∀ v, labels !! Key r = Some v → v ∉ Values r) ∧
  (Operator r = OpExists → is_Some (labels !! Key r)) ∧
  (Operator r = OpDoesNotExist → labels !! Key r = None).
Definition k8s_selects (s : LabelSelector) (labels : gmap string string) : Prop :=
  MatchLabels s ⊆ labels ∧ ∀ r, r ∈ MatchExpressions s → requirement_holds r labels.

Lemma Requirement_matches_holds r labels :
  valid_requirement r → Requirement_matches r labels = true ↔ requirement_holds r labels.
Proof.
  intros [_ Hop]. unfold Requirement_matches, requirement_holds, label_get.
  unfold OpIn, OpNotIn, OpExists, OpDoesNotExist in *.
  destruct (labels !! Key r) as [v|] eqn:E.
  - rewrite (bool_decide_true (is_Some _)) by eauto. simpl.
    pose proof (contains_spec (Values r) v) as Hc.
    destruct Hop as [[[-> | ->] _]|[[-> | ->] _]]; simpl; [naive_solver| |naive_solver..].
    rewrite negb_true_iff, <-not_true_iff_false, Hc. naive_solver.
  - rewrite (bool_decide_false (is_Some _)) by (intros []; done). simpl.
    destruct Hop as [[[-> | ->] _]|[[-> | ->] _]]; simpl; naive_solver.
Qed.

(** Label selection follows the Kubernetes semantics: for a validated
    selector without an empty-valued matchLabels entry, [Matches] holds exactly
    when the pod carries every listed label with its value and satisfies every
    expression. *)
Theorem Matches_k8s (s : LabelSelector) labels :
  Forall valid_requirement (MatchExpressions s) →
  (∀ k v, MatchLabels s !! k = Some v → v ≠ "") →
  LabelSelector_Matches (Some s) labels = true ↔ k8s_selects s labels.
Proof.
  intros Hv Hne. rewrite LabelSelector_Matches_Some, andb_true_iff, labels_equal_spec, forallb_true.
  unfold k8s_selects. rewrite map_subseteq_spec. apply Morphisms_Prop.and_iff_morphism.
  - unfold label_get. split; intros H k v Hk; [|by rewrite (H _ _ Hk)].
    specialize (H _ _ Hk). destruct (labels !! k); simpl in H; [congruence|].
    by destruct (Hne _ _ Hk).
  - rewrite Forall_forall in Hv. split; intros H r Hr.
    all: by apply (Requirement_matches_holds r labels (Hv r Hr)), H.
Qed.
Lemma Matches_k8s_witness :
  LabelSelector_Matches (Some {| MatchLabels := {["app" := "web"]};
     MatchExpressions := [{| Key := "tier"; Operator := OpIn; Values := ["a"] |}] |})
     {["app" := "web"; "tier" := "a"]} = true ↔
  k8s_selects {| MatchLabels := {["app" := "web"]};
     MatchExpressions := [{| Key := "tier"; Operator := OpIn; Values := ["a"] |}] |}
     {["app" := "web"; "tier" := "a"]}.
Proof.
  apply Matches_k8s.
  - constructor; [|constructor]. split; [done|]. left. split; [by left|done].
  - simpl. intros k v [<- <-]%lookup_singleton_Some. done.
Defined.

(** A matchLabels entry with the empty value also selects pods that do not
    carry the label at all, since the source compares against the zero value a
    Go map read yields (Kubernetes requires the label to be present). *)
Theorem Matches_missing_label_empty k labels :
  labels !! k = None →
  LabelSelector_Matches (Some {| MatchLabels := {[k := ""]}; MatchExpressions := [] |}) labels = true ∧
  ¬ k8s_selects {| MatchLabels := {[k := ""]}; MatchExpressions := [] |} labels.
Proof.
  intros Hk. rewrite LabelSelector_Matches_Some. split.
  - rewrite andb_true_iff, labels_equal_spec. split; [|done].
    simpl. intros k' v [<- <-]%lookup_singleton_Some. unfold label_get. by rewrite Hk.
  - intros [Hsub _]. rewrite map_subseteq_spec in Hsub. simpl in Hsub.
    specialize (Hsub k ""). rewrite lookup_singleton_eq in Hsub. naive_solver.
Qed.
Lemma Matches_missing_label_empty_witness :
  LabelSelector_Matches (Some {| MatchLabels := {["app" := ""]}; MatchExpressions := [] |}) ∅ = true ∧
  ¬ k8s_selects {| MatchLabels := {["app" := ""]}; MatchExpressions := [] |} ∅.
Proof. by apply Matches_missing_label_empty. Defined.

(** Folding a policy's podSelector into a rule gives the conjunction of the
    two selections whenever they agree on the labels both constrain (always, for
    a rule without pod labels, as every CRD rule is). *)
Theorem foldInto_conjunction s p f :
  compatible (subject_labels s) (ps_Labels p) →
  PodSelector_matches (foldInto s p) f =
    PodSelector_matches p f && LabelSelector_Matches s (f_Labels f).
Proof. apply PodSelector_matches_foldInto. Qed.

(** A flow from a pod with the given labels. *)
Definition flow_of_labels (labels : gmap string string) : Flow :=
  {| f_Pod := PodInfo_zero; f_Labels := labels; DstIP := []; Port := 0; Domain := ""; Method := ""; Path := "" |}.
Definition selector_of_labels (labels : gmap string string) : PodSelector :=
  {| ps_Namespace := ""; ps_Name := ""; ps_UID := ""; ps_Labels := labels; ps_MatchExpressions := [] |}.

Lemma foldInto_conjunction_witness :
  PodSelector_matches (foldInto (Some {| MatchLabels := {["app" := "a"]}; MatchExpressions := [] |})
      (selector_of_labels {["tier" := "x"]})) (flow_of_labels {["app" := "a"; "tier" := "x"]}) =
  PodSelector_matches (selector_of_labels {["tier" := "x"]}) (flow_of_labels {["app" := "a"; "tier" := "x"]}) &&
  LabelSelector_Matches (Some {| MatchLabels := {["app" := "a"]}; MatchExpressions := [] |})
    (f_Labels (flow_of_labels {["app" := "a"; "tier" := "x"]})).
Proof.
  apply (foldInto_conjunction (Some {| MatchLabels := {["app" := "a"]}; MatchExpressions := [] |})
    (selector_of_labels {["tier" := "x"]}) (flow_of_labels {["app" := "a"; "tier" := "x"]})).
  simpl. intros k v w [<- <-]%lookup_singleton_Some [? <-]%lookup_singleton_Some. done.
Defined.

(** When a rule and its policy's podSelector require different values of one
    label, folding keeps only the policy's value: the folded rule matches pods
    with the policy's value although they fail the rule's own selector. *)
Theorem foldInto_conflict k v w :
  v ≠ w →
  PodSelector_matches
    (foldInto (Some {| MatchLabels := {[k := v]}; MatchExpressions := [] |}) (selector_of_labels {[k := w]}))
    (flow_of_labels {[k := v]}) = true ∧
  PodSelector_matches (selector_of_labels {[k := w]}) (flow_of_labels {[k := v]}) = false.
Proof.
  intros Hvw. rewrite foldInto_eq. unfold PodSelector_matches, MatchesLabels. simpl. split.
  - rewrite andb_true_r. apply labels_equal_spec. intros k' u. unfold label_get.
    rewrite lookup_union_Some_raw, !lookup_singleton_Some, lookup_singleton_None.
    intros [[<- <-]|[? [<- <-]]]; [by rewrite lookup_singleton_eq|done].
  - rewrite andb_true_r. apply not_true_iff_false. rewrite labels_equal_spec. intros H.
    specialize (H k w). rewrite lookup_singleton_eq in H. unfold label_get in H.
    rewrite lookup_singleton_eq in H. simpl in H. auto.
Qed.
Lemma foldInto_conflict_witness :
  PodSelector_matches
    (foldInto (Some {| MatchLabels := {["app" := "a"]}; MatchExpressions := [] |}) (selector_of_labels {["app" := "b"]}))
    (flow_of_labels {["app" := "a"]}) = true ∧
  PodSelector_matches (selector_of_labels {["app" := "b"]}) (flow_of_labels {["app" := "a"]}) = false.
Proof. by apply foldInto_conflict. Defined.
