(* ===== verification/Engine.v ===== *)
(** * The policy engine ([internal/policy/engine.go])

    [NewEngine] validates and compiles a policy; [Evaluate] walks the compiled
    rules, first match wins.  [rule_matches] and [policy_verdict] give the
    reference semantics on the rules as written, which the compiled engine is
    shown to implement. *)

From S2P Require Import Prelude GoStrings GoNet Attr Policy.
From Stdlib Require Import Ascii.

(** ** Definitions *)
Definition normalizeDomainPattern `{UnicodeCase} (p : string) : string :=
  let p := ToLower (TrimSpace p) in
  let p := TrimSuffix p "." in
  TrimPrefix p "*.".

Definition normalizeName `{UnicodeCase} (name : string) : string :=
  ToLower (TrimSuffix (TrimSpace name) ".").
Definition domainMatches `{UnicodeCase} (base name : string) : bool :=
  let name := normalizeName name in
  if bool_decide (base = "") || bool_decide (name = "") then false
  else bool_decide (name = base) || HasSuffix name ("." +:+ base).

Record compiledRule := {
  c_name : string; c_action : string; c_muts : list Mutation; c_pod : PodSelector;
  c_domains : list string; c_cidrs : list IPNet;
  c_ports : option (gset Z); c_methods : option (gset string); c_path : string
}.

Inductive engine_error :=
  | InvalidPolicy (e : policy_error)
  | InRuleNamed (name : string) (e : policy_error).

(** The loop over [r.Match.CIDRs] of [compile]. *)
Fixpoint compile_cidrs (cs : list string) : go policy_error (list IPNet) :=
  match cs with
  | [] => Ok []
  | c :: cs => match ParseCIDR c with
               | None => Err (InvalidCIDR c)
               | Some (_, n) => ns ← compile_cidrs cs; Ok (n :: ns)
               end
  end.

Definition compile_domains `{UnicodeCase} (ds : list string) : list string :=
  filter (λ b, b ≠ "") (normalizeDomainPattern <$> ds).

Definition compile `{UnicodeCase} (r : Rule) : go policy_error compiledRule :=
  let m := r_Match r in
  cidrs ← compile_cidrs (CIDRs m);
  Ok {| c_name := r_Name r; c_action := r_Action r; c_muts := r_Mutations r;
        c_pod := m_Pod m; c_path := PathPrefix m;
        c_domains := compile_domains (Domains m);
        c_cidrs := cidrs;
        c_ports := if bool_decide (Ports m ≠ []) then Some (list_to_set (Ports m)) else None;
        c_methods := if bool_decide (Methods m ≠ [])
                     then Some (list_to_set ((λ x, ToUpper (TrimSpace x)) <$> Methods m)) else None |}.

(** [(r *compiledRule) matches]: the guards in the source's order. *)
Definition matches `{UnicodeCase} (r : compiledRule) (f : Flow) : bool :=
  if negb (PodSelector_matches (c_pod r) f) then false
  else if bool_decide (c_domains r ≠ []) &&
          negb (existsb (λ b, domainMatches b (Domain f)) (c_domains r)) then false
  else if bool_decide (c_cidrs r ≠ []) &&
          negb (bool_decide (DstIP f ≠ []) && existsb (λ n, Contains n (DstIP f)) (c_cidrs r)) then false
  else if from_option (λ s, negb (bool_decide (Port f ∈ s))) false (c_ports r) then false
  else if from_option (λ s, negb (bool_decide (ToUpper (Method f) ∈ s))) false (c_methods r) then false
  else if bool_decide (c_path r ≠ "") && negb (HasPrefix (Path f) (c_path r)) then false
  else true.

Record engine := { e_policy : Policy; e_rules : list compiledRule; e_def : string }.

Fixpoint compile_rules `{UnicodeCase} (rs : list Rule) : go engine_error (list compiledRule) :=
  match rs with
  | [] => Ok []
  | r :: rs => match compile r with
               | Ok cr => crs ← compile_rules rs; Ok (cr :: crs)
               | Err e => Err (InRuleNamed (r_Name r) e)
               | Panic => Panic
               | OutOfFuel => OutOfFuel
               end
  end.

Definition NewEngine `{UnicodeCase} (p : option Policy) : go engine_error engine :=
  let p := default Policy_zero p in
  match Validate (Some p) with
  | Some e => Err (InvalidPolicy e)
  | None =>
      crs ← compile_rules (Rules p);
      Ok {| e_policy := p; e_rules := crs;
            e_def := if bool_decide (DefaultAction p = PostureDeny) then ActionDeny else ActionAllow |}
  end.

Definition Evaluate `{UnicodeCase} (e : engine) (f : Flow) : Verdict :=
  match first (λ r, if matches r f
                    then Some {| v_Action := c_action r; v_Rule := c_name r; v_Mutations := c_muts r |}
                    else None) (e_rules e) with
  | Some v => v
  | None => {| v_Action := e_def e; v_Rule := ""; v_Mutations := [] |}
  end.

(** [DomainRuleVerdict]: [Ok None] is [("", nil, false)]; the ports come from the
    rule of the source policy at the same index, which Go would panic on if it
    were out of range. *)
Fixpoint domain_rule_loop `{UnicodeCase} (pol : Policy) (f : Flow) (i : nat) (rs : list compiledRule)
    : go engine_error (option (string * list Z)) :=
  match rs with
  | [] => Ok None
  | r :: rs =>
      if bool_decide (c_domains r = []) then domain_rule_loop pol f (S i) rs
      else if negb (PodSelector_matches (c_pod r) f) then domain_rule_loop pol f (S i) rs
      else if existsb (λ b, domainMatches b (Domain f)) (c_domains r) then
        pr ← gindex i (Rules pol); Ok (Some (c_action r, Ports (r_Match pr)))
      else domain_rule_loop pol f (S i) rs
  end.
Definition DomainRuleVerdict `{UnicodeCase} (e : engine) (pod : PodInfo) (labels : gmap string string)
    (qname : string) : go engine_error (option (string * list Z)) :=
  domain_rule_loop (e_policy e)
    {| f_Pod := pod; f_Labels := labels; DstIP := []; Port := 0; Domain := qname; Method := ""; Path := "" |}
    0 (e_rules e).

(** ** Reference semantics *)
(** A list dimension: empty matches anything, otherwise one entry must match. *)
Definition dim {A} (l : list A) (P : A → bool) : bool := bool_decide (l = []) || existsb P l.

Definition cidr_matches (ip : IP) (c : string) : bool :=
  match ParseCIDR c with Some (_, n) => bool_decide (ip ≠ []) && Contains n ip | None => false end.

Definition rule_matches `{UnicodeCase} (r : Rule) (f : Flow) : bool :=
  let m := r_Match r in
  PodSelector_matches (m_Pod m) f &&
  dim (compile_domains (Domains m)) (λ b, domainMatches b (Domain f)) &&
  dim (CIDRs m) (cidr_matches (DstIP f)) &&
  dim (Ports m) (λ p, bool_decide (p = Port f)) &&
  dim (Methods m) (λ x, bool_decide (ToUpper (TrimSpace x) = ToUpper (Method f))) &&
  (bool_decide (PathPrefix m = "") || HasPrefix (Path f) (PathPrefix m)).

Definition rule_verdict (r : Rule) : Verdict :=
  {| v_Action := r_Action r; v_Rule := r_Name r; v_Mutations := r_Mutations r |}.
Definition rule_decides `{UnicodeCase} (f : Flow) (r : Rule) : option Verdict :=
  if rule_matches r f then Some (rule_verdict r) else None.
Definition default_verdict (p : Policy) : Verdict :=
  {| v_Action := if bool_decide (DefaultAction p = PostureDeny) then ActionDeny else ActionAllow;
     v_Rule := ""; v_Mutations := [] |}.
Definition policy_verdict `{UnicodeCase} (p : Policy) (f : Flow) : Verdict :=
  default (default_verdict p) (first (rule_decides f) (Rules p)).

(** ** Compilation is faithful *)
Section compile.
Context `{UnicodeCase}.

Lemma compile_cidrs_ok cs ns :
  compile_cidrs cs = Ok ns → Forall2 (λ c n, snd <$> ParseCIDR c = Some n) cs ns.
Proof.
  revert ns. induction cs as [|c cs IH]; intros ns; simpl; [intros [= <-]; constructor|].
  destruct (ParseCIDR c) as [[ip n]|] eqn:E; [|done].
  intros (ns' & Hns & [= <-])%go_bind_ok. constructor; [by rewrite E|auto].
Qed.

Lemma compile_cidrs_total cs :
  Forall (λ c, is_Some (ParseCIDR c)) cs → ∃ ns, compile_cidrs cs = Ok ns.
Proof.
  induction 1 as [|c cs [[ip n] Hc] _ [ns IH]]; simpl; [eauto|].
  rewrite Hc, IH. eexists. reflexivity.
Qed.

Lemma existsb_cidrs cs ns ip :
  Forall2 (λ c n, snd <$> ParseCIDR c = Some n) cs ns → ip ≠ [] →
  existsb (λ n, Contains n ip) ns = existsb (cidr_matches ip) cs.
Proof.
  intros HF Hip. induction HF as [|c n cs ns Hc _ IH]; simpl; [done|]. f_equal; [|done].
  unfold cidr_matches. destruct (ParseCIDR c) as [[? ?]|]; simplify_eq/=.
  by rewrite bool_decide_true.
Qed.

Lemma existsb_cidr_nil cs : existsb (cidr_matches []) cs = false.
Proof.
  induction cs as [|c cs IH]; simpl; [done|]. rewrite IH. unfold cidr_matches.
  destruct (ParseCIDR c) as [[? ?]|]; [|done]. by rewrite bool_decide_false by naive_solver.
Qed.

Lemma existsb_eq_elem_of {A} `{EqDecision A} (l : list A) x :
  existsb (λ y, bool_decide (y = x)) l = bool_decide (x ∈ l).
Proof.
  apply eq_bool_prop_intro. rewrite Is_true_true, existsb_exists, bool_decide_spec. split.
  - intros (y & Hy & ->%bool_decide_eq_true). by apply list_elem_of_In.
  - intros Hx. exists x. rewrite bool_decide_eq_true. split; [by apply list_elem_of_In|done].
Qed.

Lemma dim_negb {A} (l : list A) P :
  dim l P = negb (bool_decide (l ≠ []) && negb (existsb P l)).
Proof. unfold dim. rewrite bool_decide_not. destruct (bool_decide _), (existsb P l); done. Qed.

Lemma dim_ports l p :
  dim l (λ x, bool_decide (x = p)) =
  negb (from_option (λ s : gset Z, negb (bool_decide (p ∈ s))) false
          (if bool_decide (l ≠ []) then Some (list_to_set l) else None)).
Proof.
  unfold dim. rewrite bool_decide_not. case_bool_decide; simpl; [done|].
  rewrite existsb_eq_elem_of, negb_involutive. apply bool_decide_ext. by rewrite elem_of_list_to_set.
Qed.

Lemma dim_methods (l : list string) (g : string → string) m :
  dim l (λ x, bool_decide (g x = m)) =
  negb (from_option (λ s : gset string, negb (bool_decide (m ∈ s))) false
          (if bool_decide (l ≠ []) then Some (list_to_set (g <$> l)) else None)).
Proof.
  unfold dim. rewrite bool_decide_not. case_bool_decide; simpl; [done|]. rewrite negb_involutive.
  replace (existsb _ l) with (existsb (λ y, bool_decide (y = m)) (g <$> l)).
  - rewrite existsb_eq_elem_of. apply bool_decide_ext. by rewrite elem_of_list_to_set.
  - clear. induction l as [|x l IH]; [done|]. rewrite fmap_cons. simpl. by rewrite IH.
Qed.

Lemma matches_compile r cr f : compile r = Ok cr → matches cr f = rule_matches r f.
Proof.
  unfold compile. intros (ns & Hns%compile_cidrs_ok & [= <-])%go_bind_ok.
  unfold matches, rule_matches. cbn [c_pod c_domains c_cidrs c_ports c_methods c_path].
  rewrite dim_ports, (dim_methods _ (λ x, ToUpper (TrimSpace x))), (dim_negb (compile_domains _)).
  assert (dim (CIDRs (r_Match r)) (cidr_matches (DstIP f)) =
    negb (bool_decide (ns ≠ []) && negb (bool_decide (DstIP f ≠ []) && existsb (λ n, Contains n (DstIP f)) ns))) as ->.
  { rewrite dim_negb. f_equal. f_equal.
    - apply bool_decide_ext. destruct Hns; naive_solver.
    - f_equal. case_bool_decide; simpl; [by rewrite (existsb_cidrs _ ns) by done|].
      destruct (DstIP f); [apply existsb_cidr_nil|naive_solver]. }
  rewrite (bool_decide_not (PathPrefix _ = "")).
  generalize (bool_decide (compile_domains (Domains (r_Match r)) ≠ []) &&
    negb (existsb (λ b, domainMatches b (Domain f)) (compile_domains (Domains (r_Match r))))).
  generalize (bool_decide (ns ≠ []) &&
    negb (bool_decide (DstIP f ≠ []) && existsb (λ n, Contains n (DstIP f)) ns)).
  intros [] []; destruct (PodSelector_matches _ _), (from_option _ _ _), (from_option _ _ _),
    (bool_decide _), (HasPrefix _ _); reflexivity.
Qed.

Lemma compile_total r : valid_rule r → ∃ cr, compile r = Ok cr.
Proof.
  intros (_ & [ns Hns]%compile_cidrs_total & _). unfold compile. rewrite Hns. eexists. reflexivity.
Qed.
Lemma compile_action r cr : compile r = Ok cr →
  c_action cr = r_Action r ∧ c_name cr = r_Name r ∧ c_muts cr = r_Mutations r ∧
  c_pod cr = m_Pod (r_Match r) ∧ c_domains cr = compile_domains (Domains (r_Match r)).
Proof. unfold compile. by intros (ns & _ & [= <-])%go_bind_ok. Qed.

Lemma compile_rules_ok rs crs :
  compile_rules rs = Ok crs → Forall2 (λ r cr, compile r = Ok cr) rs crs.
Proof.
  revert crs. induction rs as [|r rs IH]; intros crs; simpl; [intros [= <-]; constructor|].
  destruct (compile r) eqn:E; try done.
  intros (crs' & Hcrs & [= <-])%go_bind_ok. constructor; auto.
Qed.

Lemma compile_rules_total rs : Forall valid_rule rs → ∃ crs, compile_rules rs = Ok crs.
Proof.
  induction 1 as [|r rs [cr Hr]%compile_total _ [crs IH]]; simpl; [eauto|].
  rewrite Hr, IH. eexists. reflexivity.
Qed.

Lemma NewEngine_ok p e :
  NewEngine (Some p) = Ok e →
  e_policy e = p ∧ valid_policy p ∧ Forall2 (λ r cr, compile r = Ok cr) (Rules p) (e_rules e) ∧
  e_def e = v_Action (default_verdict p).
Proof.
  unfold NewEngine. cbn [from_option id]. destruct (Validate (Some p)) eqn:E; [done|].
  apply Validate_None in E. intros (crs & Hcrs%compile_rules_ok & [= <-])%go_bind_ok.
  split_and!; done.
Qed.

Lemma NewEngine_valid p : valid_policy p → ∃ e, NewEngine (Some p) = Ok e.
Proof.
  intros Hp. unfold NewEngine. cbn [from_option id]. rewrite (proj2 (Validate_None p) Hp).
  destruct Hp as (_ & _ & Hr). apply compile_rules_total in Hr as [crs ->].
  eexists. reflexivity.
Qed.

Lemma NewEngine_nil : NewEngine None = NewEngine (Some Policy_zero).
Proof. done. Qed.

Lemma Evaluate_policy_verdict p e f : NewEngine (Some p) = Ok e → Evaluate e f = policy_verdict p f.
Proof.
  intros (_ & _ & HF & Hd)%NewEngine_ok. unfold Evaluate, policy_verdict.
  assert (first (λ r, if matches r f
      then Some {| v_Action := c_action r; v_Rule := c_name r; v_Mutations := c_muts r |} else None)
      (e_rules e) = first (rule_decides f) (Rules p)) as ->.
  { clear Hd. induction HF as [|r cr rs crs Hc _ IH]; simpl; [done|].
    rewrite (matches_compile r) by done. apply compile_action in Hc as (-> & -> & -> & _).
    unfold rule_decides at 1, rule_verdict. by destruct (rule_matches r f). }
  destruct (first _ _); [done|]. by rewrite Hd.
Qed.
End compile.

(** ** Theorems *)
(** C5: the compiled engine is the reference semantics: for every policy the
    engine is built from and every flow, [Evaluate] returns the verdict of the
    first rule, in the order written, whose dimensions all match (an empty
    dimension matches anything, a list matches when one entry does), and the
    default posture when none does. *)
Theorem Evaluate_first_match `{UnicodeCase} p e f :
  NewEngine (Some p) = Ok e → Evaluate e f = policy_verdict p f.
Proof. apply Evaluate_policy_verdict. Qed.

(** A blocklist used by the examples: GET on evil.com is denied, and so is all
    traffic to 203.0.113.0/24 on port 443. *)
Definition ex_rule (name : string) (m : Match) (action : string) : Rule :=
  {| r_Name := name; r_Match := m; r_Action := action; r_Mutations := [] |}.
Definition ex_policy : Policy :=
  {| p_PodSelector := None; DefaultAction := "";
     Rules := [ex_rule "l7" {| m_Pod := PodSelector_zero; Domains := ["*.Evil.com."]; CIDRs := []; Ports := [];
                               Methods := ["get "]; PathPrefix := "/a" |} ActionDeny;
               ex_rule "l3" {| m_Pod := PodSelector_zero; Domains := []; CIDRs := ["203.0.113.0/24"]; Ports := [443%Z];
                               Methods := []; PathPrefix := "" |} ActionDeny] |}.
Definition ex_flow (dst : string) (port : Z) (domain method path : string) : Flow :=
  {| f_Pod := PodInfo_zero; f_Labels := ∅; DstIP := ParseIP dst; Port := port; Domain := domain; Method := method; Path := path |}.

Lemma Evaluate_first_match_witness : ∃ e,
  NewEngine (H := ascii_case) (Some ex_policy) = Ok e ∧
  Evaluate (H := ascii_case) e (ex_flow "203.0.113.9" 443 "" "" "") =
    policy_verdict (H := ascii_case) ex_policy (ex_flow "203.0.113.9" 443 "" "" "").
Proof.
  eexists. split; [vm_compute; reflexivity|].
  apply (Evaluate_first_match (H := ascii_case)). vm_compute. reflexivity.
Defined.
Example ex_verdicts :
  v_Rule ∘ policy_verdict (H := ascii_case) ex_policy <$>
    [ex_flow "203.0.113.9" 443 "" "" ""; ex_flow "203.0.113.9" 80 "" "" ""; ex_flow "" 443 "" "" "";
     ex_flow "1.2.3.4" 80 "www.EVIL.com." "Get" "/abc"; ex_flow "1.2.3.4" 80 "evilevil.com" "GET" "/abc"]
  = ["l3"; ""; ""; "l7"; ""].
Proof. by vm_compute. Qed.

(** Building an engine fails exactly on an invalid policy, with the
    validation error: once [Validate] passes, compilation cannot fail, panic or
    diverge, and a nil policy yields the allow-everything engine. *)
Theorem NewEngine_total `{UnicodeCase} (p : option Policy) :
  match Validate p with
  | Some err => NewEngine p = Err (InvalidPolicy err)
  | None => ∃ e, NewEngine p = Ok e
  end.
Proof.
  destruct p as [p|].
  - destruct (Validate (Some p)) eqn:E.
    + unfold NewEngine. cbn [from_option id]. by rewrite E.
    + by apply NewEngine_valid, Validate_None.
  - rewrite NewEngine_nil. apply NewEngine_valid. unfold valid_policy. simpl. auto.
Qed.

(** The labels of a domain name. *)
Definition labels_of (s : string) : list string := Split "."%char s.

Lemma Split_suffix sep a b :
  (∃ pre, Split sep a = pre ++ Split sep b) ↔ a = b ∨ ∃ t, a = t +:+ (String sep b).
Proof.
  assert (∀ x y : list (list ascii), (of_chars <$> x) = (of_chars <$> y) → x = y) as Hinj.
  { intros x y Hxy%(f_equal (fmap chars)). rewrite <-!list_fmap_compose in Hxy.
    rewrite !(list_fmap_ext (chars ∘ of_chars) id) in Hxy by (intros; apply chars_of_chars).
    by rewrite !list_fmap_id in Hxy. }
  transitivity (∃ pre, split_chars sep (chars a) = pre ++ split_chars sep (chars b)).
  - unfold Split. split.
    + intros [pre Hp]. exists (chars <$> pre). apply Hinj.
      rewrite fmap_app, <-list_fmap_compose, Hp. f_equal.
      rewrite (list_fmap_ext (of_chars ∘ chars) id) by (intros; apply of_chars_chars).
      by rewrite list_fmap_id.
    + intros [pre Hp]. exists (of_chars <$> pre). by rewrite Hp, fmap_app.
  - rewrite split_chars_suffix. split.
    + intros [Ha|[t Ht]]; [left; by apply chars_inj|]. right. exists (of_chars t).
      apply chars_inj. by rewrite chars_app, chars_of_chars, Ht.
    + intros [->|[t ->]]; [by left|]. right. exists (chars t). by rewrite chars_app.
Qed.

(** Domain matching is by whole labels: a normalized pattern matches a name
    exactly when neither is empty and the pattern's dot-separated labels are a
    suffix of the labels of the lower-cased, dot-trimmed name, so "example.com"
    matches itself and its subdomains but never "evilexample.com". *)
Theorem domainMatches_labels `{UnicodeCase} base name :
  domainMatches base name = true ↔
  base ≠ "" ∧ normalizeName name ≠ "" ∧
  ∃ pre, labels_of (normalizeName name) = pre ++ labels_of base.
Proof.
  unfold domainMatches, labels_of. rewrite Split_suffix. set (n := normalizeName name).
  destruct (bool_decide_reflect (base = "")), (bool_decide_reflect (n = "")); simpl;
    try (split; [done|]; by intros (? & ? & _)).
  rewrite orb_true_iff, bool_decide_eq_true, HasSuffix_spec. naive_solver.
Qed.

(** What one rule answers to the learner's query. *)
Definition domain_decides `{UnicodeCase} (pod : PodInfo) (labels : gmap string string) (qname : string)
    (r : Rule) : option (string * list Z) :=
  let m := r_Match r in
  let f := {| f_Pod := pod; f_Labels := labels; DstIP := []; Port := 0; Domain := qname; Method := ""; Path := "" |} in
  if bool_decide (compile_domains (Domains m) ≠ []) && PodSelector_matches (m_Pod m) f &&
     existsb (λ b, domainMatches b qname) (compile_domains (Domains m))
  then Some (r_Action r, Ports m) else None.

(** The first rule that answers it, and whether the rule also limits the request's
    method or path. *)
Definition domain_rule `{UnicodeCase} (pod : PodInfo) (labels : gmap string string) (qname : string) (rs : list Rule) : option Rule :=
  first (λ r, (λ _, r) <$> domain_decides pod labels qname r) rs.
Definition l7_limited (m : Match) : Prop := Methods m ≠ [] ∨ PathPrefix m ≠ "".
Lemma first_domain_rule `{UnicodeCase} pod labels qname rs :
  first (domain_decides pod labels qname) rs = (λ r, (r_Action r, Ports (r_Match r))) <$> domain_rule pod labels qname rs.
Proof.
  unfold domain_rule. induction rs as [|r rs IH]; [done|]. simpl. rewrite IH. unfold domain_decides. by destruct (_ && _ && _).
Qed.

Lemma domain_rule_loop_first `{UnicodeCase} p pod labels qname pre rs crs :
  Rules p = pre ++ rs → Forall2 (λ r cr, compile r = Ok cr) rs crs →
  domain_rule_loop p
    {| f_Pod := pod; f_Labels := labels; DstIP := []; Port := 0; Domain := qname; Method := ""; Path := "" |}
    (length pre) crs = Ok (first (domain_decides pod labels qname) rs).
Proof.
  intros Hp HF. revert pre Hp.
  induction HF as [|r cr rs crs Hc _ IH]; intros pre Hp; simpl; [done|].
  specialize (IH (pre ++ [r])). rewrite length_app, Nat.add_1_r in IH.
  rewrite IH by (by rewrite Hp, <-(assoc_L (++))). clear IH.
  apply compile_action in Hc as (-> & _ & _ & -> & ->).
  generalize (first (domain_decides pod labels qname) rs). intros rest. unfold domain_decides.
  rewrite bool_decide_not. case_bool_decide; simpl; [done|].
  destruct (PodSelector_matches _ _); simpl; [|done]. destruct (existsb _ _); [|done].
  unfold gindex. by rewrite Hp, list_lookup_middle.
Qed.

(** The DNS learner's query never panics and returns the action and ports of
    the first rule, in policy order, that has a usable domain pattern, selects
    the pod and matches the name; [None] when there is no such rule. *)
Theorem DomainRuleVerdict_first `{UnicodeCase} p e pod labels qname :
  NewEngine (Some p) = Ok e →
  DomainRuleVerdict e pod labels qname = Ok (first (domain_decides pod labels qname) (Rules p)).
Proof.
  intros (Hp & _ & HF & _)%NewEngine_ok. unfold DomainRuleVerdict. rewrite Hp.
  by apply (domain_rule_loop_first p _ _ _ []).
Qed.
Lemma DomainRuleVerdict_first_witness : ∃ e,
  NewEngine (H := ascii_case) (Some ex_policy) = Ok e ∧
  DomainRuleVerdict (H := ascii_case) e PodInfo_zero ∅ "a.evil.com" = Ok (Some (ActionDeny, [])).
Proof.
  eexists. split; [vm_compute; reflexivity|].
  rewrite (DomainRuleVerdict_first (H := ascii_case) ex_policy); vm_compute; reflexivity.
Defined.

(** A rule whose domain list holds only blank patterns (empty, white
    space, or a lone dot) constrains no domain at all: it compiles to a rule
    that matches every flow its other dimensions match, while the DNS learner
    never uses it. *)
Theorem blank_domains_match_all `{UnicodeCase} r f :
  Forall (λ d, normalizeDomainPattern d = "") (Domains (r_Match r)) →
  rule_matches r f =
    rule_matches {| r_Name := r_Name r; r_Action := r_Action r; r_Mutations := r_Mutations r;
                    r_Match := {| m_Pod := m_Pod (r_Match r); Domains := []; CIDRs := CIDRs (r_Match r);
                                  Ports := Ports (r_Match r); Methods := Methods (r_Match r);
                                  PathPrefix := PathPrefix (r_Match r) |} |} f.
Proof.
  intros Hb. unfold rule_matches. simpl.
  assert (compile_domains (Domains (r_Match r)) = []) as ->; [|done].
  unfold compile_domains. induction Hb as [|d ds Hd _ IH]; [done|].
  rewrite fmap_cons, filter_cons, Hd, IH. by rewrite decide_False by naive_solver.
Qed.
Lemma blank_domains_match_all_witness :
  rule_matches (H := ascii_case)
    (ex_rule "r" {| m_Pod := PodSelector_zero; Domains := [" "; "."]; CIDRs := []; Ports := [];
                    Methods := []; PathPrefix := "" |} ActionDeny) (ex_flow "8.8.8.8" 443 "any.org" "" "") =
  rule_matches (H := ascii_case) (ex_rule "r" Match_zero ActionDeny) (ex_flow "8.8.8.8" 443 "any.org" "" "").
Proof.
  apply (blank_domains_match_all (H := ascii_case)
    (ex_rule "r" {| m_Pod := PodSelector_zero; Domains := [" "; "."]; CIDRs := []; Ports := [];
                    Methods := []; PathPrefix := "" |} ActionDeny)).
  simpl. rewrite !Forall_cons. split_and!; [by vm_compute..|apply Forall_nil; done].
Defined.
