(* ===== verification/Aggregate.v ===== *)
(** * Policy aggregation ([internal/policy/aggregate.go])

    [Aggregate] merges the cluster-scoped and the namespaced policies of a node
    into one policy.  [agg_verdict] says, on the policies as they are, what the
    merged policy decides; the theorems relate the two and draw the tenancy
    consequences. *)

From S2P Require Import Prelude GoStrings GoNet Attr Policy Engine.
From Stdlib Require String.

(** ** [sort.Slice]

    The model sorts by insertion.  [sort.Slice] promises only some sorted
    permutation; [sort_slice_unique] shows that with distinct keys there is one. *)
Section sort.
Context {A : Type} (less : A → A → bool).

Fixpoint insert_by (x : A) (l : list A) : list A :=
  match l with
  | [] => [x]
  | y :: l' => if less y x then y :: insert_by x l' else x :: l
  end.
Definition sort_slice (l : list A) : list A := foldr insert_by [] l.

Definition not_greater (x y : A) : Prop := less y x = false.

Lemma insert_by_perm x l : insert_by x l ≡ₚ x :: l.
Proof.
  induction l as [|y l IH]; simpl; [done|]. destruct (less y x); [|done].
  rewrite IH. apply Permutation_swap.
Qed.
Lemma sort_slice_perm l : sort_slice l ≡ₚ l.
Proof. induction l as [|x l IH]; simpl; [done|]. by rewrite insert_by_perm, IH. Qed.

Context (Htrans : Transitive not_greater) (Hasym : ∀ x y, less x y = true → less y x = false).

Lemma insert_by_sorted x l : StronglySorted not_greater l → StronglySorted not_greater (insert_by x l).
Proof.
  induction 1 as [|y l Hl IH Hy]; simpl; [repeat constructor|].
  destruct (less y x) eqn:E.
  - constructor; [done|]. rewrite insert_by_perm. constructor; [by apply Hasym|done].
  - constructor; [by constructor|]. constructor; [done|].
    eapply Forall_impl; [exact Hy|]. intros z Hz. by apply (Htrans _ y).
Qed.
Lemma sort_slice_sorted l : StronglySorted not_greater (sort_slice l).
Proof. induction l; simpl; [constructor|]. by apply insert_by_sorted. Qed.

Lemma insert_by_head x l : Forall (not_greater x) l → insert_by x l = x :: l.
Proof. intros Hl. destruct Hl as [|y l Hy _]; simpl; [done|]. by rewrite Hy. Qed.
Lemma insert_by_filter (P : A → Prop) `{∀ x, Decision (P x)} x l :
  StronglySorted not_greater l →
  filter P (insert_by x l) = if decide (P x) then insert_by x (filter P l) else filter P l.
Proof.
  induction 1 as [|y l Hl IH Hy]; simpl.
  { rewrite filter_cons. by destruct (decide (P x)). }
  destruct (less y x) eqn:E; rewrite !filter_cons.
  - rewrite IH. destruct (decide (P x)), (decide (P y)); simpl; by rewrite ?E.
  - destruct (decide (P x)); [|done]. rewrite (insert_by_head x); [done|].
    assert (Forall (not_greater x) (filter P (y :: l))) as Hx; [|by rewrite filter_cons in Hx].
    apply Forall_forall. intros z [_ [->|Hz]%elem_of_cons]%list_elem_of_filter; [done|].
    rewrite Forall_forall in Hy. apply (Htrans _ y); [done|by apply Hy].
Qed.
Lemma sort_slice_filter (P : A → Prop) `{∀ x, Decision (P x)} l :
  sort_slice (filter P l) = filter P (sort_slice l).
Proof.
  induction l as [|x l IH]; [done|]. rewrite filter_cons. simpl.
  rewrite insert_by_filter by apply sort_slice_sorted. destruct (decide (P x)); simpl; by rewrite IH.
Qed.

Lemma sort_slice_unique {K} (key : A → K) l l' :
  (∀ x y, less x y = false → less y x = false → key x = key y) →
  NoDup (key <$> l) → l' ≡ₚ l → StronglySorted not_greater l' → l' = sort_slice l.
Proof.
  intros Hkey Hnd Hp Hs. apply (StronglySorted_unique_strong not_greater); [|done| |].
  - intros x y Hx Hy Hxy Hyx. rewrite Hp in Hx. rewrite sort_slice_perm in Hy.
    specialize (Hkey _ _ Hyx Hxy).
    apply list_elem_of_lookup in Hx as [i Hi], Hy as [j Hj].
    assert (i = j) as ->; [|congruence].
    eapply (NoDup_lookup (key <$> l)); [done|rewrite list_lookup_fmap, Hi; done|].
    rewrite list_lookup_fmap, Hj. simpl. by rewrite Hkey.
  - apply sort_slice_sorted.
  - by rewrite sort_slice_perm.
Qed.
End sort.

(** ** Definitions *)
Record ClusterPolicy := { cp_Name : string; cp_Policy : option Policy }.
Record NamespacedPolicy := { np_Namespace : string; np_Name : string; np_Policy : option Policy }.

Definition with_pod (r : Rule) (ps : PodSelector) : Rule :=
  {| r_Name := r_Name r; r_Action := r_Action r; r_Mutations := r_Mutations r;
     r_Match := {| m_Pod := ps; Domains := Domains (r_Match r); CIDRs := CIDRs (r_Match r);
                   Ports := Ports (r_Match r); Methods := Methods (r_Match r);
                   PathPrefix := PathPrefix (r_Match r) |} |}.
Definition with_namespace (ps : PodSelector) (ns : string) : PodSelector :=
  {| ps_Namespace := ns; ps_Name := ps_Name ps; ps_UID := ps_UID ps;
     ps_Labels := ps_Labels ps; ps_MatchExpressions := ps_MatchExpressions ps |}.

Definition ScopeToNamespace (p : option Policy) (namespace : string) : option Policy :=
  (λ p, {| p_PodSelector := p_PodSelector p; DefaultAction := DefaultAction p;
           Rules := (λ r, with_pod r (with_namespace (m_Pod (r_Match r)) namespace)) <$> Rules p |}) <$> p.

Definition scope_rule (r : Rule) (namespace : string) : Rule :=
  if bool_decide (namespace ≠ "") then with_pod r (with_namespace (m_Pod (r_Match r)) namespace) else r.
Definition foldRule (r : Rule) (subject : option LabelSelector) (namespace : string) : Rule :=
  let out := scope_rule r namespace in
  with_pod out (foldInto subject (m_Pod (r_Match out))).

Definition subjectCatchAll (name : string) (subject : option LabelSelector) (namespace : string) : Rule :=
  let r := {| r_Name := name; r_Action := ActionDeny; r_Mutations := [];
              r_Match := {| m_Pod := with_namespace PodSelector_zero namespace; Domains := []; CIDRs := [];
                            Ports := []; Methods := []; PathPrefix := "" |} |} in
  with_pod r (foldInto subject (m_Pod (r_Match r))).

Definition cluster_less (a b : ClusterPolicy) : bool := String.ltb (cp_Name a) (cp_Name b).
Definition ns_less (a b : NamespacedPolicy) : bool :=
  if bool_decide (np_Namespace a ≠ np_Namespace b)
  then String.ltb (np_Namespace a) (np_Namespace b) else String.ltb (np_Name a) (np_Name b).

(** The loop over the cluster policies: [(out.Rules, out.DefaultAction, clusterCatchAlls)]. *)
Definition cluster_step (st : list Rule * string * list Rule) (c : ClusterPolicy) : list Rule * string * list Rule :=
  let '(rules, def, catch) := st in
  match cp_Policy c with
  | None => st
  | Some p =>
      let sub := p_PodSelector p in
      let rules := rules ++ ((λ r, foldRule r sub "") <$> Rules p) in
      if bool_decide (EffectiveDefault (Some p) = PostureDeny) then
        if LabelSelector_Empty sub then (rules, PostureDeny, catch)
        else (rules, def, catch ++ [subjectCatchAll ("cluster-default-deny/" +:+ cp_Name c) sub ""])
      else (rules, def, catch)
  end.
Definition ns_rules_step (rules : list Rule) (n : NamespacedPolicy) : list Rule :=
  match np_Policy n with
  | None => rules
  | Some p => rules ++ ((λ r, foldRule r (p_PodSelector p) (np_Namespace n)) <$> Rules p)
  end.
Definition ns_catch_step (rules : list Rule) (n : NamespacedPolicy) : list Rule :=
  match np_Policy n with
  | None => rules
  | Some p =>
      if bool_decide (EffectiveDefault (Some p) ≠ PostureDeny) then rules
      else rules ++ [subjectCatchAll ("ns-default-deny/" +:+ np_Namespace n +:+ "/" +:+ np_Name n)
                       (p_PodSelector p) (np_Namespace n)]
  end.

Definition aggregate_sorted (cl : list ClusterPolicy) (ns : list NamespacedPolicy) : Policy :=
  let '(rules, def, catch) := fold_left cluster_step cl ([], PostureAllow, []) in
  let rules := fold_left ns_rules_step ns rules in
  let rules := rules ++ catch in
  let rules := fold_left ns_catch_step ns rules in
  {| p_PodSelector := None; DefaultAction := def; Rules := rules |}.
Definition Aggregate (cluster : list ClusterPolicy) (namespaced : list NamespacedPolicy) : Policy :=
  aggregate_sorted (sort_slice cluster_less cluster) (sort_slice ns_less namespaced).

Definition Flatten (p : option Policy) : option Policy :=
  match p with
  | None => None
  | Some q => if LabelSelector_Empty (p_PodSelector q) then p
              else Some (Aggregate [{| cp_Name := "policy"; cp_Policy := p |}] [])
  end.

(** ** What the loops accumulate *)
Definition cluster_rules (c : ClusterPolicy) : list Rule :=
  match cp_Policy c with
  | None => []
  | Some p => (λ r, foldRule r (p_PodSelector p) "") <$> Rules p
  end.
Definition denies (p : Policy) : bool := bool_decide (EffectiveDefault (Some p) = PostureDeny).
Definition cluster_global_deny (c : ClusterPolicy) : bool :=
  match cp_Policy c with None => false | Some p => denies p && LabelSelector_Empty (p_PodSelector p) end.
Definition cluster_catch (c : ClusterPolicy) : list Rule :=
  match cp_Policy c with
  | None => []
  | Some p => if denies p && negb (LabelSelector_Empty (p_PodSelector p))
              then [subjectCatchAll ("cluster-default-deny/" +:+ cp_Name c) (p_PodSelector p) ""] else []
  end.
Definition ns_rules (n : NamespacedPolicy) : list Rule :=
  match np_Policy n with
  | None => []
  | Some p => (λ r, foldRule r (p_PodSelector p) (np_Namespace n)) <$> Rules p
  end.
Definition ns_catch (n : NamespacedPolicy) : list Rule :=
  match np_Policy n with
  | None => []
  | Some p => if denies p
              then [subjectCatchAll ("ns-default-deny/" +:+ np_Namespace n +:+ "/" +:+ np_Name n)
                      (p_PodSelector p) (np_Namespace n)] else []
  end.

Lemma fold_left_append {A B} (step : list B → A → list B) (g : A → list B) l acc :
  (∀ acc x, step acc x = acc ++ g x) → fold_left step l acc = acc ++ (l ≫= g).
Proof.
  intros Hs. revert acc. induction l as [|x l IH]; intros acc; simpl; [by rewrite app_nil_r|].
  by rewrite IH, Hs, <-(assoc_L (++)).
Qed.

Lemma cluster_step_eq rules def catch c :
  cluster_step (rules, def, catch) c =
    (rules ++ cluster_rules c, if cluster_global_deny c then PostureDeny else def, catch ++ cluster_catch c).
Proof.
  unfold cluster_step, cluster_rules, cluster_catch, cluster_global_deny, denies.
  destruct (cp_Policy c) as [p|]; [|by rewrite !app_nil_r].
  case_bool_decide; simpl; [destruct (LabelSelector_Empty _); simpl|]; by rewrite ?app_nil_r.
Qed.

Lemma cluster_fold cl rules def catch :
  fold_left cluster_step cl (rules, def, catch) =
    (rules ++ (cl ≫= cluster_rules),
     if existsb cluster_global_deny cl then PostureDeny else def,
     catch ++ (cl ≫= cluster_catch)).
Proof.
  revert rules def catch. induction cl as [|c cl IH]; intros rules def catch.
  { simpl. by rewrite !app_nil_r. }
  cbn [fold_left existsb]. rewrite !bind_cons, cluster_step_eq, IH, <-!(assoc_L (++)).
  by destruct (cluster_global_deny c), (existsb _ _).
Qed.

Lemma aggregate_sorted_eq cl ns :
  aggregate_sorted cl ns =
    {| p_PodSelector := None;
       DefaultAction := if existsb cluster_global_deny cl then PostureDeny else PostureAllow;
       Rules := (cl ≫= cluster_rules) ++ (ns ≫= ns_rules) ++ (cl ≫= cluster_catch) ++ (ns ≫= ns_catch) |}.
Proof.
  unfold aggregate_sorted. rewrite cluster_fold. simpl. f_equal.
  rewrite (fold_left_append ns_rules_step ns_rules), (fold_left_append ns_catch_step ns_catch).
  - by rewrite <-!(assoc_L (++)).
  - intros acc n. unfold ns_catch_step, ns_catch, denies. destruct (np_Policy n); [|by rewrite app_nil_r].
    rewrite bool_decide_not. case_bool_decide; simpl; [done|by rewrite app_nil_r].
  - intros acc n. unfold ns_rules_step, ns_rules. destruct (np_Policy n); [done|by rewrite app_nil_r].
Qed.

(** The four groups of rules, in the order the engine tries them. *)
Lemma aggregate_sorted_verdict `{UnicodeCase} cl ns f :
  first (rule_decides f) (Rules (aggregate_sorted cl ns)) =
    orelse (first (λ c, first (rule_decides f) (cluster_rules c)) cl)
    (orelse (first (λ n, first (rule_decides f) (ns_rules n)) ns)
    (orelse (first (λ c, first (rule_decides f) (cluster_catch c)) cl)
            (first (λ n, first (rule_decides f) (ns_catch n)) ns))).
Proof. rewrite aggregate_sorted_eq. simpl. by rewrite !first_app, !first_concat. Qed.

(** ** The orderings are total preorders *)
Lemma ltb_le a b : String.ltb b a = false ↔ strings.String.le a b.
Proof.
  unfold String.ltb, strings.String.le, String.leb. rewrite (String.compare_antisym b a).
  by destruct (String.compare a b).
Qed.
Lemma cluster_not_greater x y : not_greater cluster_less x y ↔ strings.String.le (cp_Name x) (cp_Name y).
Proof. apply ltb_le. Qed.
Lemma ns_not_greater x y :
  not_greater ns_less x y ↔
  strings.String.le (np_Namespace x) (np_Namespace y) ∧
  (np_Namespace x = np_Namespace y → strings.String.le (np_Name x) (np_Name y)).
Proof.
  unfold not_greater, ns_less. case_bool_decide as Hn; rewrite ltb_le; [naive_solver|].
  rewrite Hn. split; [|naive_solver]. by split; [|done].
Qed.
Lemma ltb_asym a b : String.ltb a b = true → String.ltb b a = false.
Proof. unfold String.ltb. rewrite (String.compare_antisym b a). by destruct (String.compare a b). Qed.

#[export] Instance cluster_trans : Transitive (not_greater cluster_less).
Proof. intros x y z. rewrite !cluster_not_greater. by etrans. Qed.
#[export] Instance ns_trans : Transitive (not_greater ns_less).
Proof.
  intros x y z. rewrite !ns_not_greater. intros [Hxy1 Hxy2] [Hyz1 Hyz2].
  split; [by etrans|]. intros Heq. rewrite <-Heq in Hyz1.
  assert (np_Namespace x = np_Namespace y) as E by (by apply (anti_symm strings.String.le)).
  etrans; [by apply Hxy2|]. apply Hyz2. by rewrite <-E.
Qed.
Lemma cluster_asym x y : cluster_less x y = true → cluster_less y x = false.
Proof. apply ltb_asym. Qed.
Lemma ns_asym x y : ns_less x y = true → ns_less y x = false.
Proof.
  unfold ns_less. case_bool_decide as E1; case_bool_decide as E2; try apply ltb_asym; naive_solver.
Qed.
Lemma cluster_key x y : cluster_less x y = false → cluster_less y x = false → cp_Name x = cp_Name y.
Proof.
  unfold cluster_less. rewrite !ltb_le. intros. by apply (anti_symm strings.String.le).
Qed.
Lemma ns_key x y : ns_less x y = false → ns_less y x = false →
  (np_Namespace x, np_Name x) = (np_Namespace y, np_Name y).
Proof.
  intros [H1 H1']%(ns_not_greater y x) [H2 H2']%(ns_not_greater x y).
  assert (np_Namespace x = np_Namespace y) as E by (by apply (anti_symm strings.String.le)).
  f_equal; [done|]. apply (anti_symm strings.String.le); naive_solver.
Qed.

(** ** What one rule decides after folding *)
Section fold.
Context `{UnicodeCase}.

(** The dimensions of a rule other than the pod. *)
Definition rule_rest (r : Rule) (f : Flow) : bool := rule_matches (with_pod r PodSelector_zero) f.

Lemma PodSelector_matches_zero f : PodSelector_matches PodSelector_zero f = true.
Proof. unfold PodSelector_matches, MatchesLabels. simpl. by rewrite labels_equal_empty. Qed.

Lemma rule_matches_split r f :
  rule_matches r f = PodSelector_matches (m_Pod (r_Match r)) f && rule_rest r f.
Proof.
  unfold rule_rest, rule_matches. simpl. rewrite PodSelector_matches_zero. simpl. by rewrite <-!andb_assoc.
Qed.
Lemma rule_matches_with_pod r ps f :
  rule_matches (with_pod r ps) f = PodSelector_matches ps f && rule_rest r f.
Proof. by rewrite rule_matches_split. Qed.

Lemma PodSelector_matches_namespace ps ns f :
  ns ≠ "" →
  PodSelector_matches (with_namespace ps ns) f =
    bool_decide (ns = Namespace (f_Pod f)) && PodSelector_matches (with_namespace ps "") f.
Proof.
  intros Hns. unfold PodSelector_matches, with_namespace, MatchesLabels. simpl.
  rewrite (bool_decide_true (ns ≠ "")) by done. rewrite bool_decide_not. by case_bool_decide.
Qed.

(** The rule with its own namespace dropped: what a tenant's rule means once
    the aggregation has replaced the namespace. *)
Definition unscoped (r : Rule) : Rule := with_pod r (with_namespace (m_Pod (r_Match r)) "").

Definition foldable (subject : option LabelSelector) (r : Rule) : Prop :=
  compatible (subject_labels subject) (ps_Labels (m_Pod (r_Match r))).

Lemma foldRule_cluster r s f :
  foldable s r → rule_matches (foldRule r s "") f = LabelSelector_Matches s (f_Labels f) && rule_matches r f.
Proof.
  intros Hf. unfold foldRule, scope_rule. rewrite (bool_decide_false ("" ≠ "")) by naive_solver.
  rewrite rule_matches_with_pod, PodSelector_matches_foldInto by done.
  rewrite (rule_matches_split r). destruct (PodSelector_matches _ f), (LabelSelector_Matches _ _); done.
Qed.
Lemma foldRule_ns r s ns f :
  ns ≠ "" → foldable s r →
  rule_matches (foldRule r s ns) f =
    bool_decide (ns = Namespace (f_Pod f)) && LabelSelector_Matches s (f_Labels f) && rule_matches (unscoped r) f.
Proof.
  intros Hns Hf. unfold foldRule, scope_rule, unscoped. rewrite bool_decide_true by done.
  rewrite !rule_matches_with_pod, PodSelector_matches_foldInto by done. simpl.
  rewrite (PodSelector_matches_namespace _ ns) by done. unfold rule_rest.
  destruct (bool_decide _), (LabelSelector_Matches _ _), (PodSelector_matches _ _); done.
Qed.
Lemma subjectCatchAll_matches name s ns f :
  rule_matches (subjectCatchAll name s ns) f =
    (bool_decide (ns = "") || bool_decide (ns = Namespace (f_Pod f))) && LabelSelector_Matches s (f_Labels f).
Proof.
  unfold subjectCatchAll. rewrite rule_matches_with_pod. simpl.
  rewrite PodSelector_matches_foldInto by (apply compatible_empty).
  assert (rule_rest {| r_Name := name; r_Action := ActionDeny; r_Mutations := [];
      r_Match := {| m_Pod := with_namespace PodSelector_zero ns; Domains := []; CIDRs := [];
                    Ports := []; Methods := []; PathPrefix := "" |} |} f = true) as ->.
  { unfold rule_rest, rule_matches. simpl. by rewrite PodSelector_matches_zero. }
  rewrite andb_true_r. f_equal. unfold PodSelector_matches, MatchesLabels. simpl.
  rewrite labels_equal_empty, !bool_decide_not. by repeat case_bool_decide.
Qed.

(** A pod the subject does not select is never matched, even when the labels
    conflict. *)
Lemma PodSelector_matches_subject s p f :
  PodSelector_matches (foldInto s p) f = true → LabelSelector_Matches s (f_Labels f) = true.
Proof.
  rewrite foldInto_eq, LabelSelector_Matches_eq. unfold PodSelector_matches, MatchesLabels. simpl.
  do 3 (destruct (_ && bool_decide _); [done|]).
  rewrite forallb_app, !andb_true_iff. intros (Hl%labels_equal_union_l & _ & He). done.
Qed.
Lemma foldRule_subject r s ns f :
  rule_matches (foldRule r s ns) f = true → LabelSelector_Matches s (f_Labels f) = true.
Proof.
  unfold foldRule. rewrite rule_matches_with_pod, andb_true_iff. intros [Hp _].
  by apply PodSelector_matches_subject in Hp.
Qed.
Lemma foldRule_namespace r s ns f :
  ns ≠ "" → rule_matches (foldRule r s ns) f = true → ns = Namespace (f_Pod f).
Proof.
  intros Hns. unfold foldRule, scope_rule. rewrite bool_decide_true by done.
  rewrite rule_matches_with_pod, foldInto_eq, andb_true_iff. intros [Hp _]. revert Hp.
  unfold PodSelector_matches. simpl. rewrite bool_decide_true, bool_decide_not by done.
  by case_bool_decide.
Qed.
End fold.

(** ** The specification on the policies as written *)
Section spec.
Context `{UnicodeCase}.

Definition cluster_governs (f : Flow) (c : ClusterPolicy) : bool :=
  match cp_Policy c with
  | None => false
  | Some p => LabelSelector_Matches (p_PodSelector p) (f_Labels f)
  end.
Definition ns_governs (f : Flow) (n : NamespacedPolicy) : bool :=
  match np_Policy n with
  | None => false
  | Some p => bool_decide (np_Namespace n = Namespace (f_Pod f)) &&
              LabelSelector_Matches (p_PodSelector p) (f_Labels f)
  end.
Definition deny_verdict (name : string) : Verdict :=
  {| v_Action := ActionDeny; v_Rule := name; v_Mutations := [] |}.

(** What one policy contributes to each phase. *)
Definition cluster_decides (f : Flow) (c : ClusterPolicy) : option Verdict :=
  if cluster_governs f c then p ← cp_Policy c; first (rule_decides f) (Rules p) else None.
Definition ns_decides (f : Flow) (n : NamespacedPolicy) : option Verdict :=
  if ns_governs f n then p ← np_Policy n; first (λ r, rule_decides f (unscoped r)) (Rules p) else None.
Definition cluster_default (f : Flow) (c : ClusterPolicy) : option Verdict :=
  if cluster_governs f c then
    p ← cp_Policy c;
    if denies p && negb (LabelSelector_Empty (p_PodSelector p))
    then Some (deny_verdict ("cluster-default-deny/" +:+ cp_Name c)) else None
  else None.
Definition ns_default (f : Flow) (n : NamespacedPolicy) : option Verdict :=
  if ns_governs f n then
    p ← np_Policy n;
    if denies p then Some (deny_verdict ("ns-default-deny/" +:+ np_Namespace n +:+ "/" +:+ np_Name n)) else None
  else None.

(** Explicit rules of the cluster policies, explicit rules of the pod's own
    namespace, default-deny postures of the cluster then of the namespace, and
    the node-wide posture last. *)
Definition agg_verdict (cl : list ClusterPolicy) (ns : list NamespacedPolicy) (f : Flow) : Verdict :=
  default {| v_Action := if existsb cluster_global_deny cl then ActionDeny else ActionAllow;
             v_Rule := ""; v_Mutations := [] |}
    (orelse (first (cluster_decides f) cl)
    (orelse (first (ns_decides f) ns)
    (orelse (first (cluster_default f) cl) (first (ns_default f) ns)))).

(** Inputs the agent feeds to [Aggregate]: validated policies, whose subject
    does not contradict a rule's own labels, from a real namespace. *)
Definition policy_ok (p : Policy) : Prop := valid_policy p ∧ Forall (foldable (p_PodSelector p)) (Rules p).
Definition cluster_ok (c : ClusterPolicy) : Prop := from_option policy_ok True (cp_Policy c).
Definition ns_ok (n : NamespacedPolicy) : Prop := np_Namespace n ≠ "" ∧ from_option policy_ok True (np_Policy n).

Lemma first_const_None {A B} (l : list A) : first (λ _, @None B) l = None.
Proof. by apply first_None. Qed.
Lemma rule_decides_if f r r' b :
  rule_matches r f = b && rule_matches r' f → rule_verdict r = rule_verdict r' →
  rule_decides f r = if b then rule_decides f r' else None.
Proof. unfold rule_decides. intros -> ->. by destruct b. Qed.

Lemma first_if {A B} (b : bool) (g : A → option B) l :
  first (λ x, if b then g x else None) l = if b then first g l else None.
Proof. destruct b; [done|apply first_const_None]. Qed.

Lemma cluster_rules_decide f c :
  cluster_ok c → first (rule_decides f) (cluster_rules c) = cluster_decides f c.
Proof.
  unfold cluster_ok, cluster_decides, cluster_rules, cluster_governs.
  destruct (cp_Policy c) as [p|]; simpl; [|done]. intros [_ Hf]. rewrite Forall_forall in Hf.
  rewrite first_map, <-first_if. apply first_ext. intros r Hr.
  apply rule_decides_if; [by apply foldRule_cluster, Hf|done].
Qed.
Lemma ns_rules_decide f n :
  ns_ok n → first (rule_decides f) (ns_rules n) = ns_decides f n.
Proof.
  unfold ns_ok, ns_decides, ns_rules, ns_governs.
  destruct (np_Policy n) as [p|]; simpl; [|done]. intros [Hns [_ Hf]]. rewrite Forall_forall in Hf.
  rewrite first_map, <-first_if. apply first_ext. intros r Hr.
  apply rule_decides_if; [by apply foldRule_ns, Hf|].
  simpl. unfold foldRule, scope_rule. by rewrite bool_decide_true.
Qed.
Lemma cluster_catch_decide f c : first (rule_decides f) (cluster_catch c) = cluster_default f c.
Proof.
  unfold cluster_default, cluster_catch, cluster_governs.
  destruct (cp_Policy c) as [p|]; simpl; [|done].
  destruct (denies p && _); simpl; [|by case_match].
  unfold rule_decides. rewrite subjectCatchAll_matches. simpl. by case_match.
Qed.
Lemma ns_catch_decide f n : np_Namespace n ≠ "" → first (rule_decides f) (ns_catch n) = ns_default f n.
Proof.
  intros Hns. unfold ns_default, ns_catch, ns_governs.
  destruct (np_Policy n) as [p|]; simpl; [|done].
  destruct (denies p); simpl; [|by case_match].
  unfold rule_decides. rewrite subjectCatchAll_matches, (bool_decide_false (_ = "")) by done. simpl.
  by case_match.
Qed.

Lemma aggregate_sorted_spec cl ns f :
  Forall cluster_ok cl → Forall ns_ok ns → policy_verdict (aggregate_sorted cl ns) f = agg_verdict cl ns f.
Proof.
  rewrite !Forall_forall. intros Hcl Hns. unfold policy_verdict, agg_verdict.
  rewrite aggregate_sorted_verdict. f_equal.
  - unfold default_verdict. rewrite aggregate_sorted_eq. simpl. by destruct (existsb _ _).
  - f_equal; [|f_equal; [|f_equal]]; apply first_ext; intros x Hx.
    + by apply cluster_rules_decide, Hcl.
    + by apply ns_rules_decide, Hns.
    + apply cluster_catch_decide.
    + apply ns_catch_decide. by apply Hns.
Qed.

(** ** Folding preserves validity *)
Lemma valid_with_pod r ps :
  valid_rule r → Forall valid_requirement (ps_MatchExpressions ps) → valid_rule (with_pod r ps).
Proof. intros (Ha & Hc & _) Hps. split_and!; done. Qed.
Lemma valid_foldRule r s ns :
  valid_rule r → Forall valid_requirement (subject_exprs s) → valid_rule (foldRule r s ns).
Proof.
  intros Hr Hs. unfold foldRule, scope_rule. rewrite foldInto_eq.
  assert (Forall valid_requirement (ps_MatchExpressions (m_Pod (r_Match r)))) as He by apply Hr.
  case_bool_decide; apply valid_with_pod; simpl; rewrite ?Forall_app; done.
Qed.
Lemma valid_subjectCatchAll name s ns :
  Forall valid_requirement (subject_exprs s) → valid_rule (subjectCatchAll name s ns).
Proof.
  intros Hs. apply valid_with_pod.
  - split_and!; [left; split; [by right|done]|constructor|constructor].
  - rewrite foldInto_eq. simpl. done.
Qed.

Lemma valid_aggregate_sorted cl ns :
  Forall (λ c, from_option valid_policy True (cp_Policy c)) cl →
  Forall (λ n, from_option valid_policy True (np_Policy n)) ns → valid_policy (aggregate_sorted cl ns).
Proof.
  rewrite !Forall_forall. intros Hcl Hns. rewrite aggregate_sorted_eq. split_and!; simpl.
  - destruct (existsb _ _); auto.
  - constructor.
  - rewrite !Forall_app, !Forall_forall. split_and!; intros r (x & Hr & Hx)%list_elem_of_bind.
    + specialize (Hcl x Hx). unfold cluster_rules in Hr. destruct (cp_Policy x) as [p|]; [|set_solver].
      apply list_elem_of_fmap in Hr as (r' & -> & Hr'). destruct Hcl as (_ & Hs & Hv).
      rewrite Forall_forall in Hv. by apply valid_foldRule; [apply Hv|].
    + specialize (Hns x Hx). unfold ns_rules in Hr. destruct (np_Policy x) as [p|]; [|set_solver].
      apply list_elem_of_fmap in Hr as (r' & -> & Hr'). destruct Hns as (_ & Hs & Hv).
      rewrite Forall_forall in Hv. by apply valid_foldRule; [apply Hv|].
    + specialize (Hcl x Hx). unfold cluster_catch in Hr. destruct (cp_Policy x) as [p|]; [|set_solver].
      destruct (_ && _); [|set_solver]. apply list_elem_of_singleton in Hr as ->.
      by apply valid_subjectCatchAll, Hcl.
    + specialize (Hns x Hx). unfold ns_catch in Hr. destruct (np_Policy x) as [p|]; [|set_solver].
      destruct (denies p); [|set_solver]. apply list_elem_of_singleton in Hr as ->.
      by apply valid_subjectCatchAll, Hns.
Qed.

(** ** Policies that do not govern the pod are inert *)
Lemma first_filter {A B} (P : A → Prop) `{∀ x, Decision (P x)} (g : A → option B) l :
  (∀ x, x ∈ l → ¬ P x → g x = None) → first g (filter P l) = first g l.
Proof.
  induction l as [|x l IH]; intros Hg; [done|]. rewrite filter_cons.
  assert (first g (filter P l) = first g l) as E by (apply IH; intros y Hy; apply Hg; by right).
  destruct (decide (P x)) as [|n]; simpl; rewrite E; [done|].
  by rewrite (Hg x) by (try left; done).
Qed.
Lemma first_unmatched f rs : (∀ r, r ∈ rs → rule_matches r f = false) → first (rule_decides f) rs = None.
Proof. intros Hr. apply first_None. intros r Hin. unfold rule_decides. by rewrite Hr. Qed.

Lemma cluster_rules_ungoverned f c :
  cluster_governs f c = false → first (rule_decides f) (cluster_rules c) = None.
Proof.
  unfold cluster_governs, cluster_rules. destruct (cp_Policy c) as [p|]; [|done]. intros Hg.
  apply first_unmatched. intros r (r' & -> & _)%list_elem_of_fmap.
  apply not_true_iff_false. intros Hm%foldRule_subject. congruence.
Qed.
Lemma ns_rules_ungoverned f n :
  np_Namespace n ≠ "" → ns_governs f n = false → first (rule_decides f) (ns_rules n) = None.
Proof.
  unfold ns_governs, ns_rules. destruct (np_Policy n) as [p|]; [|done]. intros Hns Hg.
  apply first_unmatched. intros r (r' & -> & _)%list_elem_of_fmap.
  apply not_true_iff_false. intros Hm. pose proof (foldRule_namespace _ _ _ _ Hns Hm) as E.
  apply foldRule_subject in Hm. rewrite Hm, bool_decide_true in Hg by done. done.
Qed.
Lemma cluster_default_ungoverned f c : cluster_governs f c = false → cluster_default f c = None.
Proof. unfold cluster_default. by intros ->. Qed.
Lemma ns_default_ungoverned f n : ns_governs f n = false → ns_default f n = None.
Proof. unfold ns_default. by intros ->. Qed.
Lemma global_deny_governs f c : cluster_global_deny c = true → cluster_governs f c = true.
Proof.
  unfold cluster_global_deny, cluster_governs. destruct (cp_Policy c) as [p|]; [|done].
  rewrite andb_true_iff. intros [_ He]. by apply LabelSelector_Empty_Matches.
Qed.
Lemma existsb_filter_governs f cl :
  existsb cluster_global_deny (filter (λ c, cluster_governs f c = true) cl) = existsb cluster_global_deny cl.
Proof.
  induction cl as [|c cl IH]; [done|]. rewrite filter_cons. simpl. rewrite <-IH.
  destruct (decide (cluster_governs f c = true)) as [|n]; [done|].
  destruct (cluster_global_deny c) eqn:E; [|done]. by apply (global_deny_governs f) in E.
Qed.

Lemma aggregate_sorted_governed cl ns f :
  Forall (λ n, np_Namespace n ≠ "") ns →
  policy_verdict (aggregate_sorted (filter (λ c, cluster_governs f c = true) cl)
                                   (filter (λ n, ns_governs f n = true) ns)) f =
  policy_verdict (aggregate_sorted cl ns) f.
Proof.
  rewrite Forall_forall. intros Hns. unfold policy_verdict. rewrite !aggregate_sorted_verdict. f_equal.
  - unfold default_verdict. rewrite !aggregate_sorted_eq. simpl. by rewrite existsb_filter_governs.
  - f_equal; [|f_equal; [|f_equal]]; apply first_filter; intros x Hx Hg%not_true_is_false.
    + by apply cluster_rules_ungoverned.
    + by apply ns_rules_ungoverned; [apply Hns|].
    + rewrite cluster_catch_decide. by apply cluster_default_ungoverned.
    + rewrite ns_catch_decide by (by apply Hns). by apply ns_default_ungoverned.
Qed.
End spec.

(** ** Theorems *)
(** An admin policy (sinkhole 203.0.113.0/24 for everyone), a subject-scoped
    default-deny for app=web, and two tenants. *)
Definition ex_match (cidrs : list string) (ports : list Z) : Match :=
  {| m_Pod := PodSelector_zero; Domains := []; CIDRs := cidrs; Ports := ports; Methods := []; PathPrefix := "" |}.
Definition ex_admin : ClusterPolicy :=
  {| cp_Name := "sinkhole"; cp_Policy := Some
      {| p_PodSelector := None; DefaultAction := "";
         Rules := [ex_rule "bad" (ex_match ["203.0.113.0/24"] []) ActionDeny] |} |}.
Definition ex_web : ClusterPolicy :=
  {| cp_Name := "lockdown"; cp_Policy := Some
      {| p_PodSelector := Some {| MatchLabels := {["app" := "web"]}; MatchExpressions := [] |};
         DefaultAction := PostureDeny; Rules := [] |} |}.
Definition ex_tenant (ns action : string) : NamespacedPolicy :=
  {| np_Namespace := ns; np_Name := "p"; np_Policy := Some
      {| p_PodSelector := None; DefaultAction := PostureDeny;
         Rules := [ex_rule "t" (ex_match ["0.0.0.0/0"] []) action] |} |}.
Definition ex_pod_flow (ns dst : string) (labels : gmap string string) : Flow :=
  {| f_Pod := {| Namespace := ns; Name := ""; pi_UID := ""; Container := ""; pi_QoS := ""; Node := ""; Labels := ∅ |};
     f_Labels := labels; DstIP := ParseIP dst; Port := 443; Domain := ""; Method := ""; Path := "" |}.

(** Validated policies whose rules select no labels of their own can be folded;
    every rule that comes from a CRD is of this kind. *)
Lemma policy_ok_intro p :
  Validate (Some p) = None → Forall (λ r, ps_Labels (m_Pod (r_Match r)) = ∅) (Rules p) → policy_ok p.
Proof.
  intros Hv%Validate_None Hl. split; [done|]. eapply Forall_impl; [exact Hl|].
  intros r Hr. unfold foldable. rewrite Hr. apply compatible_empty.
Qed.
Lemma ex_cluster_ok : Forall cluster_ok [ex_admin; ex_web].
Proof.
  apply Forall_cons; split; [|apply Forall_singleton]; apply policy_ok_intro; first [by vm_compute|repeat constructor].
Qed.
Lemma ex_ns_ok ns action :
  ns ≠ "" → (action = ActionAllow ∨ action = ActionDeny) → ns_ok (ex_tenant ns action).
Proof.
  intros Hns Ha. split; [done|]. simpl.
  destruct Ha as [-> | ->]; apply policy_ok_intro; first [by vm_compute|repeat constructor].
Qed.

Lemma Aggregate_spec `{UnicodeCase} cl ns :
  Forall cluster_ok cl → Forall ns_ok ns →
  ∃ e, NewEngine (Some (Aggregate cl ns)) = Ok e ∧
       ∀ f, Evaluate e f = agg_verdict (sort_slice cluster_less cl) (sort_slice ns_less ns) f.
Proof.
  intros Hcl Hns. unfold Aggregate.
  assert (Forall cluster_ok (sort_slice cluster_less cl)) as Hcl' by by rewrite sort_slice_perm.
  assert (Forall ns_ok (sort_slice ns_less ns)) as Hns' by by rewrite sort_slice_perm.
  destruct (NewEngine_valid (aggregate_sorted (sort_slice cluster_less cl) (sort_slice ns_less ns))) as [e He].
  - apply valid_aggregate_sorted; eapply Forall_impl; try done.
    + intros c Hc. unfold cluster_ok in Hc. destruct (cp_Policy c); [apply Hc|done].
    + intros n [_ Hc]. destruct (np_Policy n); [apply Hc|done].
  - exists e. split; [done|]. intros f. rewrite (Evaluate_policy_verdict _ _ _ He).
    by apply aggregate_sorted_spec.
Qed.

(** C4: aggregation refines the documented precedence: for validated policies whose
    subject selector asks no label value that one of their own rules contradicts,
    namespaced ones with a namespace, the merged policy always compiles to an engine, and for every flow the
    engine's verdict is the one read off the original policies, namely the first
    matching explicit rule of the cluster policies governing the pod (by name),
    then of the policies of the pod's own namespace (by name), then the
    default-deny posture of a governing subject-scoped cluster policy, then of a
    governing namespaced policy, and else the node-wide posture. *)
Theorem Aggregate_refines `{UnicodeCase} cl ns :
  Forall cluster_ok cl → Forall ns_ok ns →
  ∃ e, NewEngine (Some (Aggregate cl ns)) = Ok e ∧
       ∀ f, Evaluate e f = agg_verdict (sort_slice cluster_less cl) (sort_slice ns_less ns) f.
Proof. apply Aggregate_spec. Qed.
Lemma Aggregate_refines_witness : ∃ e,
  NewEngine (H := ascii_case) (Some (Aggregate [ex_admin; ex_web] [ex_tenant "b" ActionAllow; ex_tenant "a" ActionDeny])) = Ok e ∧
  ∀ f, Evaluate (H := ascii_case) e f =
    agg_verdict (H := ascii_case) [ex_web; ex_admin] [ex_tenant "a" ActionDeny; ex_tenant "b" ActionAllow] f.
Proof.
  apply (Aggregate_refines (H := ascii_case) [ex_admin; ex_web] [ex_tenant "b" ActionAllow; ex_tenant "a" ActionDeny]).
  - apply ex_cluster_ok.
  - repeat constructor; try done; apply ex_ns_ok; (done || auto).
Defined.
Example ex_agg_verdicts :
  v_Rule ∘ policy_verdict (H := ascii_case)
    (Aggregate [ex_admin; ex_web] [ex_tenant "b" ActionAllow; ex_tenant "a" ActionDeny]) <$>
    [ex_pod_flow "b" "203.0.113.7" ∅; ex_pod_flow "b" "1.2.3.4" ∅; ex_pod_flow "c" "1.2.3.4" {["app" := "web"]};
     ex_pod_flow "b" "" ∅; ex_pod_flow "c" "1.2.3.4" ∅]
  = ["bad"; "t"; "cluster-default-deny/lockdown"; "ns-default-deny/b/p"; ""].
Proof. by vm_compute. Qed.

(** C24: tenancy: the verdict for a flow depends only on the policies that govern
    its pod (a cluster policy selecting the pod's labels, or a policy of the
    pod's own namespace selecting them); dropping every other policy, with its
    rules and its default posture, changes no verdict, whatever namespace the
    rules themselves name. *)
Theorem Aggregate_confined `{UnicodeCase} cl ns f :
  Forall (λ n, np_Namespace n ≠ "") ns →
  policy_verdict (Aggregate cl ns) f =
  policy_verdict (Aggregate (filter (λ c, cluster_governs f c = true) cl)
                            (filter (λ n, ns_governs f n = true) ns)) f.
Proof.
  intros Hns. unfold Aggregate.
  rewrite (sort_slice_filter cluster_less cluster_trans cluster_asym).
  rewrite (sort_slice_filter ns_less ns_trans ns_asym).
  symmetry. apply aggregate_sorted_governed. by rewrite sort_slice_perm.
Qed.
Lemma Aggregate_confined_witness :
  policy_verdict (H := ascii_case) (Aggregate [ex_admin; ex_web] [ex_tenant "a" ActionDeny; ex_tenant "b" ActionAllow])
    (ex_pod_flow "b" "1.2.3.4" ∅) =
  policy_verdict (H := ascii_case) (Aggregate [ex_admin] [ex_tenant "b" ActionAllow]) (ex_pod_flow "b" "1.2.3.4" ∅).
Proof.
  rewrite (Aggregate_confined (H := ascii_case)) by (repeat constructor; done).
  by vm_compute.
Defined.

(** An admin's explicit rule cannot be overridden by tenants: when a rule of
    a cluster policy governing the pod matches the flow, the verdict is the same
    for all sets of namespaced policies. *)
Theorem cluster_rule_precedence `{UnicodeCase} cl ns ns' c p r f :
  c ∈ cl → cp_Policy c = Some p → r ∈ Rules p → foldable (p_PodSelector p) r →
  LabelSelector_Matches (p_PodSelector p) (f_Labels f) = true → rule_matches r f = true →
  policy_verdict (Aggregate cl ns) f = policy_verdict (Aggregate cl ns') f.
Proof.
  intros Hc Hp Hr Hf Hs Hm. unfold Aggregate, policy_verdict. rewrite !aggregate_sorted_verdict.
  destruct (first (λ c, first (rule_decides f) (cluster_rules c)) (sort_slice cluster_less cl)) eqn:E; [done|].
  rewrite first_None in E. specialize (E c). rewrite sort_slice_perm in E. specialize (E Hc).
  rewrite first_None in E. unfold cluster_rules in E. rewrite Hp in E.
  specialize (E (foldRule r (p_PodSelector p) "") (list_elem_of_fmap_2 _ _ _ Hr)).
  unfold rule_decides in E. by rewrite foldRule_cluster, Hs, Hm in E.
Qed.
Lemma cluster_rule_precedence_witness :
  policy_verdict (H := ascii_case) (Aggregate [ex_web; ex_admin] [ex_tenant "b" ActionAllow])
    (ex_pod_flow "b" "203.0.113.7" ∅) =
  policy_verdict (H := ascii_case) (Aggregate [ex_web; ex_admin] []) (ex_pod_flow "b" "203.0.113.7" ∅).
Proof.
  eapply (cluster_rule_precedence (H := ascii_case) [ex_web; ex_admin] [ex_tenant "b" ActionAllow] [] ex_admin).
  - right. left.
  - reflexivity.
  - left.
  - unfold foldable. simpl. apply compatible_empty.
  - by vm_compute.
  - by vm_compute.
Defined.

(** The node-wide posture of the merged policy is Deny exactly when some
    cluster policy without a podSelector declares defaultAction Deny; tenants
    and subject-scoped policies never change it. *)
Theorem Aggregate_global_default cl ns :
  DefaultAction (Aggregate cl ns) = PostureDeny ↔
  ∃ c p, c ∈ cl ∧ cp_Policy c = Some p ∧ DefaultAction p = PostureDeny ∧
         LabelSelector_Empty (p_PodSelector p) = true.
Proof.
  unfold Aggregate. rewrite aggregate_sorted_eq. simpl.
  transitivity (existsb cluster_global_deny (sort_slice cluster_less cl) = true).
  { by destruct (existsb _ _). }
  rewrite existsb_exists. setoid_rewrite <-list_elem_of_In. setoid_rewrite sort_slice_perm.
  unfold cluster_global_deny, denies, EffectiveDefault. split.
  - intros (c & Hc & Hd). destruct (cp_Policy c) as [p|] eqn:E; [|done]. exists c, p.
    rewrite andb_true_iff, bool_decide_eq_true in Hd. destruct Hd as [Hd He].
    split_and!; try done. by case_bool_decide.
  - intros (c & p & Hc & E & Hd & He). exists c. rewrite E, He, Hd. done.
Qed.

(** Aggregation is deterministic: when CR names are distinct, every
    arrangement that [sort.Slice] may return, from any listing order of the same
    policies, yields the same merged policy. *)
Theorem Aggregate_deterministic cl ns cl' ns' :
  NoDup (cp_Name <$> cl) → NoDup ((λ n, (np_Namespace n, np_Name n)) <$> ns) →
  cl' ≡ₚ cl → StronglySorted (not_greater cluster_less) cl' →
  ns' ≡ₚ ns → StronglySorted (not_greater ns_less) ns' →
  aggregate_sorted cl' ns' = Aggregate cl ns.
Proof.
  intros Hc Hn Pc Sc Pn Sn. unfold Aggregate. f_equal.
  - by apply (sort_slice_unique cluster_less cluster_trans cluster_asym cp_Name); [apply cluster_key|..].
  - by apply (sort_slice_unique ns_less ns_trans ns_asym (λ n, (np_Namespace n, np_Name n))); [apply ns_key|..].
Qed.
Lemma Aggregate_same cl ns cl' ns' :
  NoDup (cp_Name <$> cl) → NoDup ((λ n, (np_Namespace n, np_Name n)) <$> ns) → cl' ≡ₚ cl → ns' ≡ₚ ns → Aggregate cl' ns' = Aggregate cl ns.
Proof.
  intros Hc Hn Pc Pn. apply Aggregate_deterministic; [done|done|by rewrite sort_slice_perm| |by rewrite sort_slice_perm|].
  - apply (sort_slice_sorted cluster_less cluster_trans cluster_asym).
  - apply (sort_slice_sorted ns_less ns_trans ns_asym).
Qed.
Lemma Aggregate_deterministic_witness :
  aggregate_sorted [ex_web; ex_admin] [ex_tenant "a" ActionDeny; ex_tenant "b" ActionAllow] =
  Aggregate [ex_admin; ex_web] [ex_tenant "b" ActionAllow; ex_tenant "a" ActionDeny].
Proof.
  apply Aggregate_deterministic; try (apply Permutation_swap || by apply (bool_decide_unpack _); vm_compute).
  - repeat constructor.
  - repeat constructor.
Defined.

(** A policy read from a file with a top-level podSelector governs exactly
    the selected pods: flattened, it compiles, acts on selected pods as its rules
    and posture say, and leaves every other pod allowed. *)
Theorem Flatten_subject `{UnicodeCase} p :
  policy_ok p →
  ∃ e, NewEngine (Flatten (Some p)) = Ok e ∧
  ∀ f, v_Action (Evaluate e f) =
    if LabelSelector_Matches (p_PodSelector p) (f_Labels f) then v_Action (policy_verdict p f) else ActionAllow.
Proof.
  intros Hok. unfold Flatten. destruct (LabelSelector_Empty (p_PodSelector p)) eqn:E.
  - destruct (NewEngine_valid p) as [e He]; [apply Hok|]. exists e. split; [done|]. intros f.
    rewrite (Evaluate_policy_verdict _ _ _ He). by rewrite LabelSelector_Empty_Matches.
  - set (c := {| cp_Name := "policy"; cp_Policy := Some p |}).
    change (Aggregate [c] []) with (aggregate_sorted [c] []).
    destruct (NewEngine_valid (aggregate_sorted [c] [])) as [e He].
    { apply valid_aggregate_sorted; [apply Forall_singleton, Hok|constructor]. }
    exists e. split; [done|]. intros f. rewrite (Evaluate_policy_verdict _ _ _ He).
    rewrite aggregate_sorted_spec; [|by apply Forall_singleton|constructor].
    unfold agg_verdict, cluster_decides, cluster_default, cluster_governs, cluster_global_deny, policy_verdict.
    simpl. rewrite E, andb_false_r, andb_true_r. simpl.
    destruct (LabelSelector_Matches _ _); simpl; [|done].
    destruct (first (rule_decides f) (Rules p)); simpl; [done|].
    unfold denies, EffectiveDefault, default_verdict. simpl.
    destruct (bool_decide_reflect (DefaultAction p = "")) as [->|]; [done|].
    by destruct (bool_decide_reflect (DefaultAction p = PostureDeny)).
Qed.
Lemma Flatten_subject_witness : ∃ e,
  NewEngine (H := ascii_case) (Flatten (cp_Policy ex_web)) = Ok e ∧
  v_Action (Evaluate (H := ascii_case) e (ex_pod_flow "c" "1.2.3.4" {["app" := "web"]})) = ActionDeny ∧
  v_Action (Evaluate (H := ascii_case) e (ex_pod_flow "c" "1.2.3.4" ∅)) = ActionAllow.
Proof.
  edestruct (Flatten_subject (H := ascii_case)) as (e & He & Hf); [|exists e; split; [exact He|]].
  - apply policy_ok_intro; first [by vm_compute|repeat constructor].
  - rewrite !Hf. by vm_compute.
Defined.
