(* ===== verification/Datapath.v ===== *)
(** * The kernel datapath ([bpf/egress.bpf.c])

    The BPF maps belong to the kernel: [KMap] states what the program relies on
    (an update that succeeds stores the entry, a deletion removes one entry),
    [exact], [cells] and [never_full] add what the hash and LPM maps, the array
    and the LRU map promise.  [verdict_for] and the hooks are transcribed from the C code.
    Addresses and ports are the bytes in network order. *)

From S2P Require Import Prelude GoStrings GoNet NetBits.

(** ** Kernel maps *)
Record KMap (K V : Type) `{Countable K} := {
  km_state : Type;
  km_contents : km_state → gmap K V;
  km_put : K → V → km_state → option km_state;
  km_delete : K → km_state → km_state;
  km_put_key k v s s' : km_put k v s = Some s' → km_contents s' !! k = Some v;
  km_put_other k v s s' k' : km_put k v s = Some s' → k' ≠ k →
    km_contents s' !! k' = km_contents s !! k' ∨ km_contents s' !! k' = None;
  km_delete_spec k s : km_contents (km_delete k s) = delete k (km_contents s)
}.
Arguments km_state {K V _ _} _.
Arguments km_contents {K V _ _} {_} _.
Arguments km_put {K V _ _} {_} _ _ _.
Arguments km_delete {K V _ _} {_} _ _.
Arguments km_put_key {K V _ _} {_}.
Arguments km_put_other {K V _ _} {_}.
Arguments km_delete_spec {K V _ _} {_}.

(** Hash and LPM maps evict nothing, and refuse an update only when full. *)
Definition exact {K V} `{Countable K} (m : KMap K V) (max_entries : nat) : Prop :=
  (∀ k v (s s' : km_state m) k', km_put k v s = Some s' → k' ≠ k → km_contents s' !! k' = km_contents s !! k') ∧
  (∀ k v (s : km_state m), km_put k v s = None → max_entries ≤ size (km_contents s)).
(** The cells of an array always exist and can always be written. *)
Definition cells {K V} `{Countable K} (m : KMap K V) : Prop :=
  ∀ k v (s : km_state m), is_Some (km_contents s !! k) → is_Some (km_put k v s).
(** An LRU hash makes room by evicting. *)
Definition never_full {K V} `{Countable K} (m : KMap K V) : Prop :=
  ∀ k v (s : km_state m), is_Some (km_put k v s).
(** It evicts nothing while its keys and the one being put are at most [n].  The
    kernel may evict before the map is full, so [n] may be less than its size. *)
Definition keeps_within {K V} `{Countable K} (m : KMap K V) (n : nat) : Prop :=
  ∀ k v (s s' : km_state m) k', km_put k v s = Some s' → size ({[k]} ∪ dom (km_contents s)) ≤ n → k' ≠ k →
    km_contents s' !! k' = km_contents s !! k'.

(** ** Keys and values *)
Record verdictKey := { CgroupID : Z; DAddr : bytes; DPort : bytes; Pad : bytes }.
#[export] Instance verdictKey_eq_dec : EqDecision verdictKey.
Proof. solve_decision. Defined.
#[export] Program Instance verdictKey_countable : Countable verdictKey :=
  inj_countable' (λ k, (CgroupID k, DAddr k, DPort k, Pad k))
    (λ t, let '(a, b, c, d) := t in {| CgroupID := a; DAddr := b; DPort := c; Pad := d |}) _.
Next Obligation. by intros []. Qed.

Record cfgVal := { Enabled : Z; DryRun : Z }.

Definition ACTION_DENY : Z := 0.
Definition ACTION_ALLOW : Z := 1.
Definition EVT_CONNECT : Z := 1.
Definition EVT_DNS : Z := 2.
Definition EVT_TLS : Z := 3.
Definition EVT_HTTP : Z := 4.
Definition MAX_PAYLOAD : nat := 512.
Definition IPPROTO_TCP : Z := 6.
Definition IPPROTO_UDP : Z := 17.

(** The bit string of the 16-byte LPM key: the u32 prefix length, then the
    first that many bits of the 12 data bytes; a longer prefix is refused. *)
Definition lpm_prefix (key : bytes) : option (list bool) :=
  let n := Z.to_nat (le_get (take 4 key)) in
  if bool_decide (n ≤ 96) then Some (take n (bits (drop 4 key))) else None.

(** The maps of the object: [default_action], [verdicts], [cidr_verdicts] (by
    bit-string prefix) and [enforce_cfg]. *)
Class Kernel := {
  k_default : KMap Z Z;
  k_verdicts : KMap verdictKey Z;
  k_cidr : KMap (list bool) Z;
  k_cfg : KMap Z cfgVal;
  k_default_exact : exact k_default 4096;
  k_verdicts_lru : never_full k_verdicts;
  k_cidr_exact : exact k_cidr 16384;
  k_cfg_array : cells k_cfg
}.
Record Maps `{Kernel} := {
  Default : km_state k_default;
  Verdicts : km_state k_verdicts;
  CIDR : km_state k_cidr;
  Cfg : km_state k_cfg
}.

(** The verdict map keeps as many keys as [D] has. *)
Definition verdicts_fit `{Kernel} (D : gset verdictKey) : Prop := ∃ n, keeps_within k_verdicts n ∧ size D ≤ n.

(** ** The verdict *)
(** The prefixes of a bit string, longest first: what an LPM lookup tries. *)
Definition prefixes (l : list bool) : list (list bool) := (λ n, take n l) <$> reverse (seq 0 (S (length l))).
Definition lpm_lookup (m : gmap (list bool) Z) (l : list bool) : option Z := first (λ p, m !! p) (prefixes l).
(** The data bits of [struct cidr_key] in a lookup: [cgroup_id] in host (little
    endian) order, then the address. *)
Definition cidr_bits (cg : Z) (daddr : bytes) : list bool := bits (le_put 8 cg ++ daddr).

Definition any_port : bytes := [x00; x00].
Definition vkey (cg : Z) (daddr dport : bytes) : verdictKey :=
  {| CgroupID := cg; DAddr := daddr; DPort := dport; Pad := [x00; x00] |}.

Section datapath.
Context `{Kernel}.

Definition enforce_enabled (m : Maps) : option Z :=
  match km_contents (Cfg m) !! 0%Z with
  | None => None
  | Some c => if bool_decide (Enabled c = 0%Z) then None else Some (DryRun c)
  end.

Definition verdict_for (m : Maps) (cg : Z) (daddr dport : bytes) : Z :=
  match km_contents (Verdicts m) !! vkey cg daddr dport with
  | Some v => v
  | None =>
  match km_contents (Verdicts m) !! vkey cg daddr any_port with
  | Some v => v
  | None =>
  match km_contents (Verdicts m) !! vkey 0 daddr dport with
  | Some v => v
  | None =>
  match km_contents (Verdicts m) !! vkey 0 daddr any_port with
  | Some v => v
  | None =>
  match lpm_lookup (km_contents (CIDR m)) (cidr_bits cg daddr) with
  | Some v => v
  | None =>
  match lpm_lookup (km_contents (CIDR m)) (cidr_bits 0 daddr) with
  | Some v => v
  | None =>
  match km_contents (Default m) !! cg with
  | Some v => v
  | None =>
  match km_contents (Default m) !! 0%Z with
  | Some v => v
  | None => ACTION_ALLOW
  end end end end end end end end.

(** [SK_DROP] is [false], [SK_PASS] is [true]. *)
Definition verdict_pass (action dry : Z) : bool :=
  negb (bool_decide (action = ACTION_DENY) && bool_decide (dry = 0%Z)).
End datapath.

(** ** Probes: the lookups of [verdict_for] as a list *)
Inductive probe :=
  | PV (k : verdictKey)
  | PC (p : list bool)
  | PD (cg : Z).
#[export] Instance probe_eq_dec : EqDecision probe.
Proof. solve_decision. Defined.

Definition probes (cg : Z) (daddr dport : bytes) : list probe :=
  [PV (vkey cg daddr dport); PV (vkey cg daddr any_port); PV (vkey 0 daddr dport); PV (vkey 0 daddr any_port)] ++
  (PC <$> prefixes (cidr_bits cg daddr)) ++ (PC <$> prefixes (cidr_bits 0 daddr)) ++ [PD cg; PD 0].

Definition lookup_probe `{Kernel} (m : Maps) (p : probe) : option Z :=
  match p with
  | PV k => km_contents (Verdicts m) !! k
  | PC p => km_contents (CIDR m) !! p
  | PD cg => km_contents (Default m) !! cg
  end.

Lemma verdict_for_probes `{Kernel} m cg daddr dport :
  verdict_for m cg daddr dport = default ACTION_ALLOW (first (lookup_probe m) (probes cg daddr dport)).
Proof.
  unfold verdict_for, probes, lpm_lookup. rewrite !first_app, !first_map. cbn [first lookup_probe].
  repeat match goal with |- context [_ !! vkey ?a ?b ?c] =>
    destruct (km_contents (Verdicts m) !! vkey a b c); [done|] end.
  cbn [orelse]. change (lookup_probe m ∘ PC) with (λ p, km_contents (CIDR m) !! p).
  destruct (first _ _); [done|]. cbn [orelse]. destruct (first _ _); [done|]. cbn [orelse].
  destruct (_ !! cg); [done|]. by destruct (_ !! 0%Z).
Qed.

(** ** A concrete kernel, for the examples *)
Section instances.
Context {K V : Type} `{Countable K} (cap : nat).

Program Definition hash_kmap : KMap K V := {|
  km_state := gmap K V; km_contents := id;
  km_put k v s := if bool_decide (is_Some (s !! k)) || bool_decide (size s < cap) then Some (<[k:=v]> s) else None;
  km_delete := delete
|}.
Next Obligation. intros k v s s' Hp. simpl in *. case_match; simplify_eq. apply lookup_insert_eq. Qed.
Next Obligation. intros k v s s' k' Hp Hk. simpl in *. case_match; simplify_eq. left. by apply lookup_insert_ne. Qed.
Next Obligation. done. Qed.

(** Evicts the first other entry of the map when full. *)
Definition evict (k : K) (s : gmap K V) : gmap K V :=
  if bool_decide (is_Some (s !! k)) || bool_decide (size s < cap) then s
  else match map_to_list s with [] => s | kv :: _ => delete kv.1 s end.
Program Definition lru_kmap : KMap K V := {|
  km_state := gmap K V; km_contents := id;
  km_put k v s := Some (<[k:=v]> (evict k s));
  km_delete := delete
|}.
Next Obligation. intros k v s s' [= <-]. apply lookup_insert_eq. Qed.
Next Obligation.
  intros k v s s' k' [= <-] Hk. unfold id. rewrite lookup_insert_ne by done. unfold evict.
  destruct (_ || _); [by left|]. destruct (map_to_list s) as [|kv l]; [by left|].
  destruct (decide (k' = kv.1)) as [->|]; [right; apply lookup_delete_eq|left; by apply lookup_delete_ne].
Qed.
Next Obligation. done. Qed.

Lemma hash_kmap_exact : exact hash_kmap cap.
Proof.
  split; simpl; unfold id.
  - intros k v s s' k' Hp Hk. case_match; simplify_eq. by apply lookup_insert_ne.
  - intros k v s Hp. case_match eqn:E; [done|]. apply orb_false_iff in E as [_ E].
    apply bool_decide_eq_false in E. lia.
Qed.
Lemma hash_kmap_cells : cells hash_kmap.
Proof. intros k v s Hk. simpl in *. unfold id in Hk. rewrite bool_decide_true by done. simpl. eauto. Qed.
Lemma lru_kmap_never_full : never_full lru_kmap.
Proof. intros k v s. simpl. eauto. Qed.
Lemma lru_kmap_keeps : keeps_within lru_kmap cap.
Proof.
  intros k v s s' k' [= <-] Hsize Hk. simpl in *. unfold id in *. rewrite lookup_insert_ne by done. f_equal. unfold evict.
  destruct (s !! k) as [w|] eqn:E; [by rewrite bool_decide_true|]. rewrite (bool_decide_true (size s < cap)), orb_true_r; [done|].
  rewrite size_union, size_singleton, size_dom in Hsize; [lia|]. rewrite disjoint_singleton_l, not_elem_of_dom. done.
Qed.
End instances.

Definition linux : Kernel := {|
  k_default := hash_kmap 4096; k_verdicts := lru_kmap 65536; k_cidr := hash_kmap 16384; k_cfg := hash_kmap 1;
  k_default_exact := hash_kmap_exact 4096; k_verdicts_lru := lru_kmap_never_full 65536;
  k_cidr_exact := hash_kmap_exact 16384; k_cfg_array := hash_kmap_cells 1
|}.
Lemma linux_fits D : bool_decide (size D ≤ 65536) = true → verdicts_fit (H := linux) D.
Proof. intros HD%bool_decide_eq_true. exists 65536. split; [apply lru_kmap_keeps|done]. Qed.
(** The maps right after the object is loaded: empty, the array cell zeroed. *)
Definition linux_loaded : @Maps linux :=
  {| Default := ∅ : km_state (@k_default linux); Verdicts := ∅ : km_state (@k_verdicts linux);
     CIDR := ∅ : km_state (@k_cidr linux);
     Cfg := {[0%Z := {| Enabled := 0; DryRun := 0 |}]} : km_state (@k_cfg linux) |}.
