(* ===== verification/Hooks.v ===== *)
(** * The BPF programs ([egress], [dns_ingress] and [connect4] of [bpf/egress.bpf.c])

    A packet is its linear part ([data] to [data_end]) and its paged part; the
    kernel helper [bpf_skb_load_bytes] reads across both.  [reserve] says whether
    the ring buffer has room, given the records already submitted.  A program
    returns its code ([true] is [SK_PASS], [false] is [SK_DROP] or [-EPERM]) and the
    records it submitted. *)

From S2P Require Import Prelude GoStrings GoNet NetBits Datapath.
From Stdlib Require String.

Record skb := { linear : bytes; paged : bytes; skb_cgroup : Z }.
Definition skb_len (s : skb) : nat := length (linear s) + length (paged s).
(** [bpf_skb_load_bytes(skb, off, _, n)]. *)
Definition load_bytes (s : skb) (off n : nat) : option bytes :=
  if bool_decide (off + n ≤ skb_len s) then Some (take n (drop off (linear s ++ paged s))) else None.
Definition byte_at (l : bytes) (i : nat) : Z := b2z (nth i l x00).
Definition sub (l : bytes) (off n : nat) : bytes := take n (drop off l).

Record event := {
  evt_type : Z; ip_version : Z; l4_proto : Z; ev_action : Z;
  saddr : bytes; daddr : bytes; sport : bytes; dport : bytes;
  payload_len : Z; ev_cgroup : Z; payload : bytes
}.
Record dns_answer := { da_payload_len : Z; da_cgroup : Z; da_payload : bytes }.

(** An address in its 16-byte field, zero-filled. *)
Definition addr16 (b : bytes) : bytes := b ++ replicate (16 - length b) x00.
(** The bytes of a record's payload buffer: what was copied; the rest of the
    512-byte buffer is not initialised and not modelled. *)
Definition copy_payload (s : skb) (off avail : nat) : Z * bytes :=
  let n := Nat.min avail MAX_PAYLOAD in
  if bool_decide (n = 0) then (0%Z, [])
  else match load_bytes s off n with Some b => (Z.of_nat n, b) | None => (0%Z, []) end.

Definition submit_event (reserve : list event → bool) (s : skb) (ver : Z) (saddr_off daddr_off : nat)
    (ty proto : Z) (sp dp : bytes) (off avail : nat) (action : Z) (evs : list event) : list event :=
  if reserve evs then
    let n := if bool_decide (ver = 6%Z) then 16 else 4 in
    let '(plen, pl) := copy_payload s off avail in
    evs ++ [{| evt_type := ty; ip_version := ver; l4_proto := proto; ev_action := action;
               saddr := addr16 (default [] (load_bytes s saddr_off n));
               daddr := addr16 (default [] (load_bytes s daddr_off n));
               sport := sp; dport := dp; payload_len := plen; ev_cgroup := skb_cgroup s; payload := pl |}]
  else evs.

Definition looks_like_http (h : bytes) : bool :=
  bool_decide (String.string_of_list_byte (take 4 h) ∈ ["GET "; "POST"; "PUT "; "HEAD"; "DELE"; "PATC"; "OPTI"; "CONN"; "TRAC"]).

(** The L3 facts: version, protocol, offset of L4, offsets of the addresses and
    the IPv4 destination; [None] is an early [return 1]. *)
Record l3 := { l3_ver : Z; l3_proto : Z; l3_off : nat; l3_saddr : nat; l3_daddr : nat; l3_v4_daddr : bytes }.
Definition parse_l3 (d : bytes) : option l3 :=
  if bool_decide (length d < 1) then None
  else
    let version := Z.shiftr (byte_at d 0) 4 in
    if bool_decide (version = 4%Z) then
      if bool_decide (length d < 20) then None
      else
        let ihl := Z.to_nat (Z.land (byte_at d 0) 15) * 4 in
        if bool_decide (ihl < 20) then None
        else Some {| l3_ver := 4; l3_proto := byte_at d 9; l3_off := ihl; l3_saddr := 12; l3_daddr := 16;
                     l3_v4_daddr := sub d 16 4 |}
    else if bool_decide (version = 6%Z) then
      if bool_decide (length d < 40) then None
      else Some {| l3_ver := 6; l3_proto := byte_at d 6; l3_off := 40; l3_saddr := 8; l3_daddr := 24;
                   l3_v4_daddr := replicate 4 x00 |}
    else None.

Section hooks.
Context `{Kernel} (reserve : list event → bool).

(** The TCP branch after the verdict [act]: the classification and the return. *)
Definition egress_tcp (s : skb) (h : l3) (act : Z) (dry : Z) : bool * list event :=
  let l4 := drop (l3_off h) (linear s) in
  let sp := sub l4 0 2 in
  let dp := sub l4 2 2 in
  let submit ty off avail evs :=
    submit_event reserve s (l3_ver h) (l3_saddr h) (l3_daddr h) ty IPPROTO_TCP sp dp off avail act evs in
  let syn := Z.testbit (byte_at l4 13) 1 in
  let ack := Z.testbit (byte_at l4 13) 4 in
  let evs := if syn && negb ack then submit EVT_CONNECT 0 0 [] else [] in
  let pass := verdict_pass act dry in
  let doff := Z.to_nat (Z.shiftr (byte_at l4 12) 4) * 4 in
  if bool_decide (doff < 20) then (pass, evs)
  else
    let off := l3_off h + doff in
    if bool_decide (skb_len s ≤ off) then (pass, evs)
    else
      let avail := skb_len s - off in
      if bool_decide (avail < 6) then (pass, evs)
      else match load_bytes s off 6 with
           | None => (pass, evs)
           | Some hdr =>
               if bool_decide (byte_at hdr 0 = 22%Z) && bool_decide (byte_at hdr 5 = 1%Z)
               then (pass, submit EVT_TLS off avail evs)
               else if looks_like_http hdr then (pass, submit EVT_HTTP off avail evs)
               else (pass, evs)
           end.

Definition egress (m : Maps) (s : skb) : bool * list event :=
  match parse_l3 (linear s) with
  | None => (true, [])
  | Some h =>
      if bool_decide (length (linear s) < l3_off h) then (true, [])
      else
        let enf := if bool_decide (l3_ver h = 4%Z) then enforce_enabled m else None in
        let cg := match enf with Some _ => skb_cgroup s | None => 0%Z end in
        let l4 := drop (l3_off h) (linear s) in
        if bool_decide (l3_proto h = IPPROTO_UDP) then
          if bool_decide (length l4 < 8) then (true, [])
          else
            let dp := sub l4 2 2 in
            if bool_decide (dp = be_put16 53) then
              let off := l3_off h + 8 in
              let avail := if bool_decide (off < skb_len s) then skb_len s - off else 0 in
              (true, submit_event reserve s (l3_ver h) (l3_saddr h) (l3_daddr h) EVT_DNS IPPROTO_UDP
                       (sub l4 0 2) dp off avail ACTION_ALLOW [])
            else match enf with
                 | Some dry => (verdict_pass (verdict_for m cg (l3_v4_daddr h) dp) dry, [])
                 | None => (true, [])
                 end
        else if bool_decide (l3_proto h = IPPROTO_TCP) then
          if bool_decide (length l4 < 20) then (true, [])
          else
            let act := match enf with Some _ => verdict_for m cg (l3_v4_daddr h) (sub l4 2 2) | None => ACTION_ALLOW end in
            egress_tcp s h act (default 0%Z enf)
        else (true, [])
  end.

(** [connect4]: the context gives the protocol, the address and the port. *)
Definition emit_connect_deny (cg : Z) (da dp : bytes) (evs : list event) : list event :=
  if reserve evs then
    evs ++ [{| evt_type := EVT_CONNECT; ip_version := 4; l4_proto := IPPROTO_TCP; ev_action := ACTION_DENY;
               saddr := replicate 16 x00; daddr := addr16 da; sport := [x00; x00]; dport := dp;
               payload_len := 0; ev_cgroup := cg; payload := [] |}]
  else evs.
Definition connect4 (m : Maps) (protocol cg : Z) (da dp : bytes) : bool * list event :=
  if bool_decide (protocol ≠ IPPROTO_TCP) then (true, [])
  else match enforce_enabled m with
       | None => (true, [])
       | Some dry =>
           if bool_decide (verdict_for m cg da dp = ACTION_DENY) then
             let evs := emit_connect_deny cg da dp [] in
             if bool_decide (dry = 0%Z) then (false, evs) else (true, evs)
           else (true, [])
       end.
End hooks.

(** [dns_ingress] never drops; [None] means nothing was submitted. *)
Definition dns_ingress (reserve : bool) (s : skb) : bool * option dns_answer :=
  let d := linear s in
  if bool_decide (length d < 20) then (true, None)
  else if bool_decide (Z.shiftr (byte_at d 0) 4 ≠ 4%Z) then (true, None)
  else
    let ihl := Z.to_nat (Z.land (byte_at d 0) 15) * 4 in
    if bool_decide (ihl < 20) then (true, None)
    else if bool_decide (length d < ihl) then (true, None)
    else if bool_decide (byte_at d 9 ≠ IPPROTO_UDP) then (true, None)
    else
      let l4 := drop ihl d in
      if bool_decide (length l4 < 8) then (true, None)
      else if bool_decide (sub l4 0 2 ≠ be_put16 53) then (true, None)
      else
        let off := ihl + 8 in
        let avail := if bool_decide (off < skb_len s) then skb_len s - off else 0 in
        if reserve then
          let '(plen, pl) := copy_payload s off avail in
          (true, Some {| da_payload_len := plen; da_cgroup := skb_cgroup s; da_payload := pl |})
        else (true, None).

(** ** What is dropped *)
(** A complete IPv4 packet that enforcement looks at: TCP, or UDP not to port 53. *)
Definition enforceable (s : skb) (da dp : bytes) : Prop :=
  ∃ h, parse_l3 (linear s) = Some h ∧ l3_ver h = 4%Z ∧ l3_off h ≤ length (linear s) ∧
       da = l3_v4_daddr h ∧ dp = sub (drop (l3_off h) (linear s)) 2 2 ∧
       (l3_proto h = IPPROTO_TCP ∧ l3_off h + 20 ≤ length (linear s) ∨
        l3_proto h = IPPROTO_UDP ∧ l3_off h + 8 ≤ length (linear s) ∧ dp ≠ be_put16 53).

Section theorems.
Context `{Kernel} (reserve : list event → bool).

Lemma egress_tcp_pass s h act dry : (egress_tcp reserve s h act dry).1 = verdict_pass act dry.
Proof.
  unfold egress_tcp. generalize (verdict_pass act dry). intros b. cbn zeta.
  do 3 (case_bool_decide; [done|]). destruct (load_bytes _ _ _); [|done].
  destruct (_ && _); [done|]. by destruct (looks_like_http _).
Qed.
Lemma verdict_pass_false a dry : verdict_pass a dry = false ↔ a = ACTION_DENY ∧ dry = 0%Z.
Proof. unfold verdict_pass. repeat case_bool_decide; simpl; naive_solver. Qed.

Lemma parse_l3_ver d h : parse_l3 d = Some h → l3_ver h = 4%Z ∨ l3_ver h = 6%Z.
Proof. unfold parse_l3. intros. cases; auto. Qed.

Lemma egress_drops m s :
  (egress reserve m s).1 = false ↔
  enforce_enabled m = Some 0%Z ∧
  ∃ da dp, enforceable s da dp ∧ verdict_for m (skb_cgroup s) da dp = ACTION_DENY.
Proof.
  unfold egress, enforceable. destruct (parse_l3 (linear s)) as [h|] eqn:Eh; [|split; [done|naive_solver]].
  case_bool_decide as Hl; [split; [done|]; intros (_ & da & dp & (h' & [= <-] & _ & ? & _) & _); lia|].
  destruct (parse_l3_ver _ _ Eh) as [Hv|Hv]; rewrite Hv; simpl.
  2: { split; [|intros (_ & da & dp & (h' & [= <-] & ? & _) & _); congruence].
       repeat case_bool_decide; simpl; try done. by rewrite egress_tcp_pass. }
  rewrite length_drop. destruct (decide (l3_proto h = IPPROTO_UDP)) as [Hu|Hu].
  - rewrite bool_decide_true by done. case_bool_decide as H8.
    { split; [done|]. intros (_ & da & dp & (h' & [= <-] & _ & _ & _ & _ & [[Hp _]|(_ & ? & _)]) & _); [by rewrite Hu in Hp|lia]. }
    case_bool_decide as H53.
    { split; [done|]. intros (_ & da & dp & (h' & [= <-] & _ & _ & _ & -> & [[Hp _]|(_ & _ & ?)]) & _); [by rewrite Hu in Hp|done]. }
    destruct (enforce_enabled m) as [dry|]; simpl; [|split; [done|naive_solver]].
    rewrite verdict_pass_false. split.
    + intros [Hd ->]. split; [done|]. eexists _, _. split; [|exact Hd]. exists h. split_and!; try done; [lia|].
      right. split_and!; [done|lia|done].
    + intros ([= ->] & da & dp & (h' & [= <-] & _ & _ & -> & -> & _) & Hd). done.
  - rewrite bool_decide_false by done. case_bool_decide as Ht.
    2: { split; [done|]. intros (_ & da & dp & (h' & [= <-] & _ & _ & _ & _ & [[? _]|[? _]]) & _); done. }
    case_bool_decide as H20.
    { split; [done|]. intros (_ & da & dp & (h' & [= <-] & _ & _ & _ & _ & [[_ ?]|[? _]]) & _); [lia|done]. }
    rewrite egress_tcp_pass, verdict_pass_false. destruct (enforce_enabled m) as [dry|]; simpl.
    2: { split; [intros [? _]; done|naive_solver]. }
    split.
    + intros [Hd ->]. split; [done|]. eexists _, _. split; [|exact Hd]. exists h. split_and!; try done; [lia|].
      left. split; [done|lia].
    + intros ([= ->] & da & dp & (h' & [= <-] & _ & _ & -> & -> & _) & Hd). done.
Qed.

(** C14: exactly what the datapath drops: [egress] returns SK_DROP for a packet if
    and only if enforcement is enabled and not in dry-run, the packet is a
    complete IPv4 TCP packet or a complete IPv4 UDP packet not to port 53, and
    [verdict_for] on the sender's cgroup, the destination address and the
    destination port is Deny.  In particular DNS queries, IPv6 packets, other
    protocols and truncated headers always pass. *)
Theorem egress_drops_iff m s :
  (egress reserve m s).1 = false ↔
  enforce_enabled m = Some 0%Z ∧
  ∃ da dp, enforceable s da dp ∧ verdict_for m (skb_cgroup s) da dp = ACTION_DENY.
Proof. apply egress_drops. Qed.

(** C26: the connect hook and the packet hook agree: for the same cgroup, address and
    port and the same maps, [connect4] refuses a TCP connect exactly when [egress]
    drops the packets to it (every enforceable packet gets the return code the connect
    would get); that is when enforcement is enabled outside dry-run and [verdict_for]
    says Deny.  Other protocols are never refused at connect time, although [egress]
    drops their denied UDP packets. *)
Theorem connect4_agrees m cg da dp :
  (∀ s, skb_cgroup s = cg → enforceable s da dp → (connect4 reserve m IPPROTO_TCP cg da dp).1 = (egress reserve m s).1) ∧
  ((connect4 reserve m IPPROTO_TCP cg da dp).1 = false ↔ enforce_enabled m = Some 0%Z ∧ verdict_for m cg da dp = ACTION_DENY) ∧
  (∀ protocol, protocol ≠ IPPROTO_TCP → (connect4 reserve m protocol cg da dp).1 = true).
Proof.
  assert ((connect4 reserve m IPPROTO_TCP cg da dp).1 = false ↔ enforce_enabled m = Some 0%Z ∧ verdict_for m cg da dp = ACTION_DENY) as Hc.
  { unfold connect4. rewrite bool_decide_false by naive_solver. destruct (enforce_enabled m) as [dry|]; [|split; [done|naive_solver]].
    repeat case_bool_decide; simpl; naive_solver. }
  split_and!; [|exact Hc|].
  - intros s Hcg He. apply eq_bool_prop_intro. rewrite !Is_true_true, <-!not_false_iff_true, Hc, egress_drops, Hcg. apply not_iff_compat.
    split; [intros [Hon Hv]; split; [done|by exists da, dp]|]. intros (Hon & da' & dp' & He' & Hv). split; [done|].
    destruct He as (h & Eh & _ & _ & -> & -> & _), He' as (h' & Eh' & _ & _ & -> & -> & _). rewrite Eh in Eh'. by simplify_eq.
  - intros protocol Hp. unfold connect4. by rewrite bool_decide_true.
Qed.
End theorems.
