(* ===== verification/Programmer.v ===== *)
(** * Programming the datapath ([internal/enforce/programmer.go])

    [apply] writes a policy into the BPF maps, rule by rule from the last to the
    first, and [reconcile] deletes the keys of the previous run that are no longer
    wanted.  Go iterates over the pods in an arbitrary order, anew for every rule:
    [order i] is the order met for rule [i]. *)

From S2P Require Import Prelude GoStrings GoNet NetBits Attr Policy Engine Aggregate Datapath.

(** ** Definitions *)
Definition actDeny : Z := 0.
Definition actAllow : Z := 1.
Definition actionByte (a : string) : Z := if bool_decide (a = ActionDeny) then actDeny else actAllow.
Definition defaultActionOf (p : Policy) : string :=
  if bool_decide (EffectiveDefault (Some p) = PostureDeny) then ActionDeny else ActionAllow.
Definition b2u8 (b : bool) : Z := if b then 1 else 0.

(** [cidrKeyBytes]: little-endian prefix length and cgroup id, then the address. *)
Definition cidrKeyBytes (prefixLen : nat) (cgroupID : Z) (ip4 : bytes) : bytes :=
  le_put 4 (Z.of_nat prefixLen) ++ le_put 8 cgroupID ++ take 4 (default [] (To4 ip4) ++ replicate 4 x00).

Definition pod_selected (sel : PodSelector) (info : PodInfo) : bool :=
  if bool_decide (ps_Namespace sel ≠ "") && bool_decide (ps_Namespace sel ≠ Namespace info) then false
  else if bool_decide (ps_Name sel ≠ "") && bool_decide (ps_Name sel ≠ Name info) then false
  else if bool_decide (ps_UID sel ≠ "") && bool_decide (ps_UID sel ≠ pi_UID info) then false
  else MatchesLabels sel (Labels info).
Definition matchCgroups (sel : PodSelector) (pods : list (Z * PodInfo)) : list Z :=
  if PodSelector_IsZero sel then [0%Z]
  else (filter (λ p, pod_selected sel p.2 = true) pods).*1.

Section programmer.
Context `{Kernel}.

(** The state of one [apply] run. *)
Record work := {
  w_maps : Maps;
  newCIDR : gset bytes; newVerdict : gset verdictKey; newDefault : gset Z;
  deferred : nat
}.
Definition put_default (cg act : Z) (w : work) : work :=
  match km_put cg act (Default (w_maps w)) with
  | Some s => {| w_maps := {| Default := s; Verdicts := Verdicts (w_maps w); CIDR := CIDR (w_maps w); Cfg := Cfg (w_maps w) |};
                 newCIDR := newCIDR w; newVerdict := newVerdict w; newDefault := {[cg]} ∪ newDefault w; deferred := deferred w |}
  | None => w
  end.
Definition put_verdict (k : verdictKey) (act : Z) (w : work) : work :=
  match km_put k act (Verdicts (w_maps w)) with
  | Some s => {| w_maps := {| Default := Default (w_maps w); Verdicts := s; CIDR := CIDR (w_maps w); Cfg := Cfg (w_maps w) |};
                 newCIDR := newCIDR w; newVerdict := {[k]} ∪ newVerdict w; newDefault := newDefault w; deferred := deferred w |}
  | None => w
  end.
Definition put_cidr (key : bytes) (act : Z) (w : work) : work :=
  match lpm_prefix key with
  | None => w
  | Some p =>
      match km_put p act (CIDR (w_maps w)) with
      | Some s => {| w_maps := {| Default := Default (w_maps w); Verdicts := Verdicts (w_maps w); CIDR := s; Cfg := Cfg (w_maps w) |};
                     newCIDR := {[key]} ∪ newCIDR w; newVerdict := newVerdict w; newDefault := newDefault w; deferred := deferred w |}
      | None => w
      end
  end.
Definition defer_one (w : work) : work :=
  {| w_maps := w_maps w; newCIDR := newCIDR w; newVerdict := newVerdict w; newDefault := newDefault w;
     deferred := S (deferred w) |}.

Definition programCIDR (cg : Z) (cidr : string) (ports : list Z) (act : Z) (w : work) : work * bool :=
  match ParseCIDR cidr with
  | None => (w, false)
  | Some (_, ipnet) =>
      match To4 (ipn_IP ipnet) with
      | None => (w, false)
      | Some ip4 =>
          let ones := Mask_ones (ipn_Mask ipnet) in
          if bool_decide (ports ≠ []) then
            if bool_decide (ones ≠ 32) then (w, false)
            else (foldl (λ w port, put_verdict (vkey cg ip4 (be_put16 port)) act w) w ports, true)
          else (put_cidr (cidrKeyBytes (64 + ones) cg ip4) act w, true)
      end
  end.

(** One iteration of the rule loop; [pods] is in the order the map iteration
    of [matchCgroups] meets it. *)
Definition apply_rule (pods : list (Z * PodInfo)) (r : Rule) (w : work) : work :=
  let m := r_Match r in
  let act := actionByte (r_Action r) in
  let cgs := matchCgroups (m_Pod m) pods in
  if bool_decide (cgs = []) then w
  else
    let hasCIDR := bool_decide (CIDRs m ≠ []) in
    let hasDomain := bool_decide (Domains m ≠ []) in
    let hasPorts := bool_decide (Ports m ≠ []) in
    let hasL7 := bool_decide (Methods m ≠ []) || bool_decide (PathPrefix m ≠ "") in
    if hasL7 then defer_one w
    else if hasDomain then w
    else if hasCIDR then
      foldl (λ w cg, foldl (λ w c,
        let '(w, ok) := programCIDR cg c (Ports m) act w in if ok : bool then w else defer_one w) w (CIDRs m)) w cgs
    else if hasPorts then defer_one w
    else foldl (λ w cg, put_default cg act w) w cgs.

(** [for i := len(rules) - 1; i >= 0; i--]. *)
Fixpoint apply_rules (order : nat → list (Z * PodInfo)) (rules : list Rule) (w : work) : work :=
  match rules with
  | [] => w
  | r :: rules => apply_rule (order 0) r (apply_rules (λ i, order (S i)) rules w)
  end.

Record programmer := {
  maps : Maps; dryRun : bool;
  prevCIDR : gset bytes; prevVerdict : gset verdictKey; prevDefault : gset Z
}.
Definition NewProgrammer (m : Maps) (dry : bool) : programmer :=
  {| maps := m; dryRun := dry; prevCIDR := ∅; prevVerdict := ∅; prevDefault := ∅ |}.

(** [delete] of the keys of [prev] that are not in [new]. *)
Definition delete_cidr (key : bytes) (s : km_state k_cidr) : km_state k_cidr :=
  match lpm_prefix key with Some p => km_delete p s | None => s end.
Definition reconcile (p : programmer) (w : work) : programmer :=
  let m := w_maps w in
  let cidr := foldr (λ k s, if bool_decide (k ∈ newCIDR w) then s else delete_cidr k s) (CIDR m) (elements (prevCIDR p)) in
  let verdicts := foldr (λ k s, if bool_decide (k ∈ newVerdict w) then s else km_delete k s) (Verdicts m) (elements (prevVerdict p)) in
  let default := foldr (λ k s, if bool_decide (k = 0%Z) then s else
                                if bool_decide (k ∈ newDefault w) then s else km_delete k s) (Default m) (elements (prevDefault p)) in
  {| maps := {| Default := default; Verdicts := verdicts; CIDR := cidr; Cfg := Cfg m |}; dryRun := dryRun p;
     prevCIDR := newCIDR w; prevVerdict := newVerdict w; prevDefault := newDefault w |}.

Definition apply_work (p : programmer) (pol : Policy) (order : nat → list (Z * PodInfo)) : work :=
  let w := {| w_maps := maps p; newCIDR := ∅; newVerdict := ∅; newDefault := ∅; deferred := 0 |} in
  apply_rules order (Rules pol) (put_default 0 (actionByte (defaultActionOf pol)) w).
Definition apply (p : programmer) (eng : engine) (order : nat → list (Z * PodInfo)) : programmer :=
  reconcile p (apply_work p (e_policy eng) order).

(** [Run]: what the [select] loop receives, with the order of the pods met by the
    [apply] it causes. *)
Inductive run_event :=
  | EvPolicy (pol : option Policy) (order : nat → list (Z * PodInfo))
  | EvTick (order : nat → list (Z * PodInfo))
  | EvClosed
  | EvDone.
Inductive run_state :=
  | Running (p : programmer) (eng : engine)
  | Stopped (p : programmer) (err : option engine_error)
  | EnableFailed (p : programmer).

Definition put_cfg (c : cfgVal) (p : programmer) : option programmer :=
  (λ s, {| maps := {| Default := Default (maps p); Verdicts := Verdicts (maps p); CIDR := CIDR (maps p); Cfg := s |};
           dryRun := dryRun p; prevCIDR := prevCIDR p; prevVerdict := prevVerdict p; prevDefault := prevDefault p |})
  <$> km_put 0%Z c (Cfg (maps p)).
Definition disable (p : programmer) : programmer := default p (put_cfg {| Enabled := 0; DryRun := 0 |} p).

Definition run_step `{UnicodeCase} (st : run_state) (ev : run_event) : run_state :=
  match st with
  | Running p eng =>
      match ev with
      | EvPolicy pol order =>
          match NewEngine pol with
          | Ok ne => Running (apply p ne order) ne
          | _ => st
          end
      | EvTick order => Running (apply p eng order) eng
      | EvClosed | EvDone => Stopped (disable p) None
      end
  | _ => st
  end.
Definition Run `{UnicodeCase} (p : programmer) (snapshot : option Policy) (order : nat → list (Z * PodInfo))
    (evs : list run_event) : run_state :=
  match put_cfg {| Enabled := 1; DryRun := b2u8 (dryRun p) |} p with
  | None => EnableFailed p
  | Some p =>
      match NewEngine snapshot with
      | Ok eng => foldl run_step (Running (apply p eng order) eng) evs
      | Err e => Stopped (disable p) (Some e)
      | _ => Stopped (disable p) None
      end
  end.
End programmer.

(** ** The keys a rule writes *)
(** Neither L7 nor domain dimensions: the rules the programmer handles. *)
Definition enforced (m : Match) : bool :=
  negb (bool_decide (Methods m ≠ []) || bool_decide (PathPrefix m ≠ "")) && bool_decide (Domains m = []).
Definition cidr_target (c : string) : option (bytes * nat) :=
  '(_, ipnet) ← ParseCIDR c; ip4 ← To4 (ipn_IP ipnet); Some (ip4, Mask_ones (ipn_Mask ipnet)).
Definition cidr_vkeys (ports : list Z) (cg : Z) (c : string) : list verdictKey :=
  match cidr_target c with
  | Some (ip4, 32) => (λ port, vkey cg ip4 (be_put16 port)) <$> ports
  | _ => []
  end.
Definition cidr_ckeys (ports : list Z) (cg : Z) (c : string) : list bytes :=
  match cidr_target c with
  | Some (ip4, ones) => if bool_decide (ports = []) then [cidrKeyBytes (64 + ones) cg ip4] else []
  | None => []
  end.

Definition default_keys (pods : list (Z * PodInfo)) (r : Rule) : list Z :=
  let m := r_Match r in
  if enforced m && bool_decide (CIDRs m = []) && bool_decide (Ports m = []) then matchCgroups (m_Pod m) pods else [].
Definition verdict_keys (pods : list (Z * PodInfo)) (r : Rule) : list verdictKey :=
  let m := r_Match r in
  if enforced m then matchCgroups (m_Pod m) pods ≫= (λ cg, CIDRs m ≫= cidr_vkeys (Ports m) cg) else [].
Definition cidr_keys (pods : list (Z * PodInfo)) (r : Rule) : list bytes :=
  let m := r_Match r in
  if enforced m then matchCgroups (m_Pod m) pods ≫= (λ cg, CIDRs m ≫= cidr_ckeys (Ports m) cg) else [].

(** A write that is recorded when it succeeds; [conv] is the kernel's reading of
    the key. *)
Definition put_rec {K R} `{Countable K} `{Countable R} (m : KMap K Z) (conv : R → option K) (act : Z)
    (sn : km_state m * gset R) (r : R) : km_state m * gset R :=
  match conv r with
  | None => sn
  | Some k => match km_put k act sn.1 with Some s => (s, {[r]} ∪ sn.2) | None => sn end
  end.

Lemma foldl_proj {W S A B} (proj : W → S) (step : W → A → W) (g : S → B → S) (ks : A → list B) l w :
  (∀ w x, proj (step w x) = foldl g (proj w) (ks x)) →
  proj (foldl step w l) = foldl g (proj w) (l ≫= ks).
Proof.
  intros Hs. revert w. induction l as [|x l IH]; intros w; [done|].
  rewrite bind_cons, foldl_app, <-Hs. apply IH.
Qed.

Lemma bind_const_nil {A B} (l : list A) (g : A → list B) : (∀ x, g x = []) → l ≫= g = [].
Proof. intros Hg. induction l as [|x l IH]; [done|]. by rewrite bind_cons, Hg, IH. Qed.

Section project.
Context `{Kernel}.

Definition pd (w : work) : km_state k_default * gset Z := (Default (w_maps w), newDefault w).
Definition pv (w : work) : km_state k_verdicts * gset verdictKey := (Verdicts (w_maps w), newVerdict w).
Definition pc (w : work) : km_state k_cidr * gset bytes := (CIDR (w_maps w), newCIDR w).

Lemma put_ports_proj cg ip4 act ports w :
  let w' := foldl (λ w port, put_verdict (vkey cg ip4 (be_put16 port)) act w) w ports in
  pd w' = pd w ∧
  pv w' = foldl (put_rec k_verdicts Some act) (pv w) ((λ port, vkey cg ip4 (be_put16 port)) <$> ports) ∧
  pc w' = pc w ∧ Cfg (w_maps w') = Cfg (w_maps w).
Proof.
  cbn zeta. revert w. induction ports as [|port ports IH]; intros w; [done|].
  destruct (IH (put_verdict (vkey cg ip4 (be_put16 port)) act w)) as (H1 & H2 & H3 & H4).
  cbn [foldl fmap list_fmap]. rewrite H1, H2, H3, H4.
  unfold put_verdict, put_rec, pd, pv, pc. simpl. destruct (km_put _ _ _); done.
Qed.

(** [programCIDR] writes the keys of one CIDR and nothing else. *)
Lemma programCIDR_proj cg c ports act w :
  let w' := (let '(w', ok) := programCIDR cg c ports act w in if ok : bool then w' else defer_one w') in
  pd w' = pd w ∧
  pv w' = foldl (put_rec k_verdicts Some act) (pv w) (cidr_vkeys ports cg c) ∧
  pc w' = foldl (put_rec k_cidr lpm_prefix act) (pc w) (cidr_ckeys ports cg c) ∧
  Cfg (w_maps w') = Cfg (w_maps w).
Proof.
  unfold programCIDR, cidr_vkeys, cidr_ckeys, cidr_target.
  destruct (ParseCIDR c) as [[ip net]|]; [|done]. cbn [mbind option_bind].
  destruct (To4 (ipn_IP net)) as [ip4|]; [|done]. cbn [mbind option_bind].
  generalize (Mask_ones (ipn_Mask net)). intros ones. rewrite bool_decide_not.
  destruct (bool_decide_reflect (ports = [])) as [->|Hp]; cbn [negb].
  - replace (match ones with 32 => _ | _ => _ end) with (@nil verdictKey) by (repeat case_match; done).
    cbn zeta. unfold put_cidr, put_rec. cbn [foldl].
    repeat case_match; simplify_eq/=; split_and!; try done; unfold pc, pv, pd in *; simplify_eq/=; done.
  - rewrite bool_decide_not. case_bool_decide as E; cbn [negb]; [subst ones|].
    + destruct (put_ports_proj cg ip4 act ports w) as (-> & -> & -> & ->). done.
    + replace (match ones with 32 => _ | _ => _ end) with (@nil verdictKey) by (repeat case_match; done).
      cbn. done.
Qed.
Lemma apply_rule_proj pods r w :
  let act := actionByte (r_Action r) in
  let w' := apply_rule pods r w in
  pd w' = foldl (put_rec k_default Some act) (pd w) (default_keys pods r) ∧
  pv w' = foldl (put_rec k_verdicts Some act) (pv w) (verdict_keys pods r) ∧
  pc w' = foldl (put_rec k_cidr lpm_prefix act) (pc w) (cidr_keys pods r) ∧
  Cfg (w_maps w') = Cfg (w_maps w).
Proof.
  cbn zeta. unfold apply_rule, default_keys, verdict_keys, cidr_keys, enforced.
  set (act := actionByte (r_Action r)). set (m := r_Match r).
  destruct (bool_decide_reflect (matchCgroups (m_Pod m) pods = [])) as [->|_].
  { repeat case_match; done. }
  destruct (_ || _); [done|]. rewrite !bool_decide_not.
  destruct (bool_decide_reflect (Domains m = [])) as [_|_]; [|done]. cbn [negb andb].
  destruct (bool_decide_reflect (CIDRs m = [])) as [Hc|_]; cbn [negb andb].
  - rewrite !(bind_const_nil _ (λ cg, CIDRs m ≫= _)) by (intros; by rewrite Hc).
    destruct (bool_decide_reflect (Ports m = [])) as [_|_]; cbn [negb]; [|done].
    generalize (matchCgroups (m_Pod m) pods). intros cgs. revert w. induction cgs as [|cg cgs IH]; intros w; [done|].
    cbn [foldl]. destruct (IH (put_default cg act w)) as (-> & -> & -> & ->).
    unfold put_default, pd, pv, pc, put_rec. simpl. destruct (km_put _ _ _); done.
  - set (step := λ (w : work) (cg : Z), foldl _ w (CIDRs m)).
    assert (∀ {S B} (proj : work → S) (g : S → B → S) ks,
      (∀ cg c w, proj (let '(w', ok) := programCIDR cg c (Ports m) act w in if ok : bool then w' else defer_one w')
                 = foldl g (proj w) (ks cg c)) →
      proj (foldl step w (matchCgroups (m_Pod m) pods))
        = foldl g (proj w) (matchCgroups (m_Pod m) pods ≫= (λ cg, CIDRs m ≫= ks cg))) as Hp.
    { intros S B proj g ks Hk. apply foldl_proj. intros w' cg. apply foldl_proj. intros w'' c. apply Hk. }
    split_and!.
    + rewrite (Hp _ _ pd (put_rec k_default Some act) (λ _ _, [])).
      * rewrite bind_const_nil; [done|]. intros _. by apply bind_const_nil.
      * intros cg c w'. apply programCIDR_proj.
    + apply Hp. intros cg c w'. apply programCIDR_proj.
    + apply Hp. intros cg c w'. apply programCIDR_proj.
    + rewrite (Hp _ unit (λ w, Cfg (w_maps w)) (λ s _, s) (λ _ _, [])).
      * by induction (_ ≫= _).
      * intros cg c w'. apply programCIDR_proj.
Qed.
End project.

(** ** Sequences of recorded writes *)
Section writes.
Context {K R X : Type} `{Countable K} `{Countable R}.
Context (m : KMap K Z) (conv : R → option K) (act : X → Z) (ks : X → list R).

Definition run_writes (xs : list X) (sn : km_state m * gset R) : km_state m * gset R :=
  foldr (λ x sn, foldl (put_rec m conv (act x)) sn (ks x)) sn xs.
(** The first element, in list order, that writes the key. *)
Definition written (xs : list X) (k : K) : option Z :=
  first (λ x, if bool_decide (k ∈ omap conv (ks x)) then Some (act x) else None) xs.

Lemma elem_of_omap_cons r rs k : k ∈ omap conv (r :: rs) ↔ conv r = Some k ∨ k ∈ omap conv rs.
Proof. rewrite !list_elem_of_omap. set_solver. Qed.

Lemma put_rec_recorded a s n r r' :
  r' ∈ (put_rec m conv a (s, n) r).2 → r' ∈ n ∨ r' = r ∧ is_Some (conv r).
Proof.
  unfold put_rec. destruct (conv r) eqn:E; [|by left]. simpl. destruct (km_put _ _ _); simpl; [|by left].
  rewrite elem_of_union, elem_of_singleton. intros [->|]; [right; eauto|by left].
Qed.
Lemma run_recorded xs s n r :
  r ∈ (run_writes xs (s, n)).2 → r ∈ n ∨ ∃ x, x ∈ xs ∧ r ∈ ks x ∧ is_Some (conv r).
Proof.
  induction xs as [|x xs IH]; simpl; [by left|].
  assert (∀ l sn, r ∈ (foldl (put_rec m conv (act x)) sn l).2 → r ∈ sn.2 ∨ r ∈ l ∧ is_Some (conv r)) as Hl.
  { induction l as [|r' l IHl]; intros [s' n']; simpl; [by left|].
    intros [Hr|[? ?]]%IHl; [|right; split; [by right|done]].
    apply put_rec_recorded in Hr as [|[-> ?]]; [by left|right; split; [left|done]]. }
  intros [Hr|[Hr Hc]]%Hl; [|right; exists x; split_and!; [left|done|done]].
  apply IH in Hr as [|(x' & ? & ? & ?)]; [by left|]. right. exists x'. split_and!; [by right|done|done].
Qed.

(** *** Maps that keep every entry *)
Context (D : gset K).
(** The map has room for the keys in [D]. *)
Definition roomy : Prop :=
  ∀ k v (s : km_state m), dom (km_contents s) ⊆ D → k ∈ D →
    ∃ s', km_put k v s = Some s' ∧ ∀ k', k' ≠ k → km_contents s' !! k' = km_contents s !! k'.
Definition fits (s : km_state m) (xs : list X) : Prop :=
  dom (km_contents s) ⊆ D ∧ ∀ x k, x ∈ xs → k ∈ omap conv (ks x) → k ∈ D.

Lemma exact_roomy cap : exact m cap → size D < cap → roomy.
Proof.
  intros [Hkeep Hfull] Hsize k v s Hdom Hk. destruct (km_put k v s) as [s'|] eqn:E; [by eauto|].
  apply Hfull in E. rewrite <-size_dom in E. apply subseteq_size in Hdom. lia.
Qed.
Lemma lru_roomy n : never_full m → keeps_within m n → size D ≤ n → roomy.
Proof.
  intros Hnf Hkeep Hsize k v s Hdom Hk. destruct (Hnf k v s) as [s' E]. exists s'. split; [done|]. intros k' Hk'.
  apply (Hkeep _ _ _ _ _ E); [|done]. assert ({[k]} ∪ dom (km_contents s) ⊆ D) as ?%subseteq_size by set_solver. lia.
Qed.
Lemma put_fits k v (s : km_state m) :
  roomy → dom (km_contents s) ⊆ D → k ∈ D →
  ∃ s', km_put k v s = Some s' ∧ km_contents s' = <[k:=v]> (km_contents s) ∧ dom (km_contents s') ⊆ D.
Proof.
  intros Hroomy Hdom Hk. destruct (Hroomy k v s Hdom Hk) as (s' & E & Hkeep). exists s'.
  assert (km_contents s' = <[k:=v]> (km_contents s)) as ->.
  { apply map_eq. intros k'. destruct (decide (k' = k)) as [->|Hne].
    - by rewrite lookup_insert_eq, (km_put_key _ _ _ _ E).
    - by rewrite lookup_insert_ne, Hkeep. }
  split_and!; [done|done|set_solver].
Qed.

Lemma puts_exact a l s n :
  roomy → dom (km_contents s) ⊆ D → (∀ k, k ∈ omap conv l → k ∈ D) →
  let sn := foldl (put_rec m conv a) (s, n) l in
  dom (km_contents sn.1) ⊆ D ∧
  (∀ k, km_contents sn.1 !! k = if bool_decide (k ∈ omap conv l) then Some a else km_contents s !! k) ∧
  (∀ r, r ∈ l → is_Some (conv r) → r ∈ sn.2) ∧ n ⊆ sn.2.
Proof.
  intros Hex Hdom Hl. revert s n Hdom. induction l as [|r l IH]; intros s n Hdom; simpl.
  { split_and!; try done. intros r Hr. by apply not_elem_of_nil in Hr. }
  assert (∀ k, k ∈ omap conv l → k ∈ D) as Hl'.
  { intros k Hk. apply Hl, elem_of_omap_cons. by right. }
  unfold put_rec at 2 4 6 8. destruct (conv r) as [k|] eqn:Ek.
  - destruct (put_fits k a s) as (s' & Hp & Hc & Hd); [done|done| |].
    { apply Hl, elem_of_omap_cons. by left. }
    simpl. rewrite Hp. destruct (IH Hl' s' ({[r]} ∪ n) Hd) as (H1 & H2 & H3 & H4). split_and!; [done| | |set_solver].
    + intros k'. rewrite H2, Hc. destruct (bool_decide_reflect (k' ∈ omap conv l)) as [Hin|Hnin].
      * by rewrite bool_decide_true by (by right).
      * destruct (decide (k = k')) as [->|Hne]; [rewrite lookup_insert_eq|rewrite lookup_insert_ne by done].
        -- by rewrite bool_decide_true by left.
        -- by rewrite bool_decide_false by set_solver.
    + intros r' [->|Hr]%elem_of_cons Hs; [set_solver|auto].
  - destruct (IH Hl' s n Hdom) as (H1 & H2 & H3 & H4). split_and!; [done|done| |done].
    intros r' [->|Hr]%elem_of_cons Hs; [|auto]. rewrite Ek in Hs. by destruct Hs.
Qed.

Lemma run_exact xs s :
  roomy → fits s xs →
  let sn := run_writes xs (s, ∅) in
  dom (km_contents sn.1) ⊆ D ∧
  (∀ k, km_contents sn.1 !! k = orelse (written xs k) (km_contents s !! k)) ∧
  (∀ r, r ∈ sn.2 ↔ ∃ x, x ∈ xs ∧ r ∈ ks x ∧ is_Some (conv r)).
Proof.
  intros Hex (Hdom & Hks). cbn zeta. rewrite (and_comm (∀ k, _)), (assoc and).
  induction xs as [|x xs IH]; simpl.
  { split_and!; [done| |done]. intros r. split; [set_solver|]. intros (? & ?%not_elem_of_nil & _). done. }
  destruct IH as [[Hd Hr] Hk]; [intros x' k Hx'; apply Hks; by right|].
  destruct (run_writes xs (s, ∅)) as [s1 n1] eqn:E. simpl in *.
  destruct (puts_exact (act x) (ks x) s1 n1 Hex Hd) as (H1 & H2 & H3 & H4).
  { intros k. apply Hks. left. }
  split_and!; [done| |].
  - intros r. split.
    + intros Hin. assert (r ∈ (run_writes (x :: xs) (s, ∅)).2) as [?|?]%run_recorded; [simpl; by rewrite E|set_solver|done].
    + intros (x' & [->|Hx']%elem_of_cons & Hr' & Hs); [by apply H3|]. apply H4, Hr. eauto.
  - intros k. rewrite H2, Hk. unfold written. simpl. by case_bool_decide.
Qed.

(** *** Maps that may evict *)
Lemma puts_lossy a l s n :
  never_full m →
  let sn := foldl (put_rec m conv a) (s, n) l in
  (∀ k v, km_contents sn.1 !! k = Some v →
     if bool_decide (k ∈ omap conv l) then v = a else km_contents s !! k = Some v) ∧
  (∀ r, r ∈ l → is_Some (conv r) → r ∈ sn.2) ∧ n ⊆ sn.2.
Proof.
  intros Hnf. revert s n. induction l as [|r l IH]; intros s n; simpl.
  { split_and!; try done. intros r Hr. by apply not_elem_of_nil in Hr. }
  unfold put_rec at 2 4 6. destruct (conv r) as [k|] eqn:Ek.
  - destruct (Hnf k a s) as [s' Hp]. simpl. rewrite Hp. destruct (IH s' ({[r]} ∪ n)) as (H2 & H3 & H4).
    split_and!; [| |set_solver].
    + intros k' v Hv%H2. destruct (bool_decide_reflect (k' ∈ omap conv l)) as [Hin|Hnin].
      * by rewrite bool_decide_true by (by right).
      * destruct (decide (k' = k)) as [->|Hne].
        -- rewrite bool_decide_true by left. rewrite (km_put_key _ _ _ _ Hp) in Hv. by simplify_eq.
        -- rewrite bool_decide_false by set_solver.
           destruct (km_put_other _ _ _ _ _ Hp Hne) as [Ho|Ho]; rewrite Ho in Hv; done.
    + intros r' [->|Hr]%elem_of_cons Hs; [set_solver|auto].
  - destruct (IH s n) as (H2 & H3 & H4). split_and!; [done| |done].
    intros r' [->|Hr]%elem_of_cons Hs; [|auto]. rewrite Ek in Hs. by destruct Hs.
Qed.
Lemma run_lossy xs s :
  never_full m →
  let sn := run_writes xs (s, ∅) in
  (∀ k v, km_contents sn.1 !! k = Some v → orelse (written xs k) (km_contents s !! k) = Some v) ∧
  (∀ r, r ∈ sn.2 ↔ ∃ x, x ∈ xs ∧ r ∈ ks x ∧ is_Some (conv r)).
Proof.
  intros Hnf. cbn zeta. rewrite (and_comm (∀ k v, _)).
  induction xs as [|x xs [Hr Hk]]; simpl.
  { split_and!; [|done]. intros r. split; [set_solver|]. intros (? & ?%not_elem_of_nil & _). done. }
  destruct (run_writes xs (s, ∅)) as [s1 n1] eqn:E. simpl in *.
  destruct (puts_lossy (act x) (ks x) s1 n1 Hnf) as (H2 & H3 & H4). split_and!.
  - intros r. split.
    + intros Hin. assert (r ∈ (run_writes (x :: xs) (s, ∅)).2) as [?|?]%run_recorded; [simpl; by rewrite E|set_solver|done].
    + intros (x' & [->|Hx']%elem_of_cons & Hr' & Hs); [by apply H3|]. apply H4, Hr. eauto.
  - intros k v Hv%H2. unfold written. simpl. case_bool_decide; [by subst|]. by apply Hk.
Qed.

(** *** Deleting the keys that are not kept *)
Lemma deletes_spec (keep : R → bool) l (s : km_state m) k :
  km_contents (foldr (λ r s, if keep r then s
                             else match conv r with Some k => km_delete k s | None => s end) s l) !! k =
  if bool_decide (k ∈ omap conv (filter (λ r, keep r = false) l)) then None else km_contents s !! k.
Proof.
  induction l as [|r l IH]; [done|]. cbn [foldr]. rewrite filter_cons.
  destruct (keep r) eqn:Er; [done|]. rewrite decide_True by done.
  destruct (conv r) as [k'|] eqn:Ec.
  - rewrite km_delete_spec. destruct (decide (k = k')) as [->|Hne].
    + rewrite lookup_delete_eq, bool_decide_true; [done|]. apply elem_of_omap_cons. by left.
    + rewrite lookup_delete_ne, IH by done.
      erewrite bool_decide_ext; [done|]. rewrite elem_of_omap_cons, Ec. naive_solver.
  - rewrite IH. erewrite bool_decide_ext; [done|]. rewrite elem_of_omap_cons, Ec. naive_solver.
Qed.
End writes.

(** ** LPM keys are canonical

    The 16-byte keys the programmer builds have zeros after the prefix, so the
    kernel's identification of keys that agree on the prefix is the identity on
    them. *)
Definition canonical (key : bytes) : Prop :=
  ∃ n pre ip, key = le_put 4 (Z.of_nat (64 + n)) ++ pre ++ ip ∧ n ≤ 32 ∧ length pre = 8 ∧ length ip = 4 ∧
              bits ip = take n (bits ip) ++ replicate (32 - n) false.

Lemma lpm_prefix_eq n pre ip :
  n ≤ 96 → lpm_prefix (le_put 4 (Z.of_nat n) ++ pre ++ ip) = Some (take n (bits (pre ++ ip))).
Proof.
  intros Hn. unfold lpm_prefix.
  rewrite take_app_length', drop_app_length' by (by rewrite length_le_put).
  rewrite le_get_put, Z.mod_small, Nat2Z.id, bool_decide_true by lia. done.
Qed.
Lemma take_bits_split n (pre ip : bytes) :
  length pre = 8 → take (64 + n) (bits (pre ++ ip)) = bits pre ++ take n (bits ip).
Proof.
  intros Hp. rewrite bits_app, take_app_add'; [done|]. rewrite length_bits. lia.
Qed.

Lemma canonical_inj a b k :
  canonical a → canonical b → lpm_prefix a = Some k → lpm_prefix b = Some k → a = b.
Proof.
  intros (n & pre & ip & -> & Hn & Hpre & Hip & Hz) (n' & pre' & ip' & -> & Hn' & Hpre' & Hip' & Hz').
  rewrite !lpm_prefix_eq, !take_bits_split by (done || lia). intros <- [= Hk]. symmetry in Hk.
  pose proof Hk as Hlen%(f_equal length).
  rewrite !length_app, !length_take, !length_bits in Hlen. assert (n' = n) as -> by lia.
  apply app_inj_1 in Hk as [->%bits_inj Hk]; [|rewrite !length_bits; lia].
  assert (ip = ip') as ->; [|done]. apply bits_inj. by rewrite Hz, Hz', Hk.
Qed.

Lemma To4_4 l : length l = 4 → To4 l = Some l.
Proof. intros Hl. unfold To4. by rewrite bool_decide_true. Qed.
Lemma To4_16 l ip4 : length l = 16 → To4 l = Some ip4 → take 12 l = v4InV6Prefix.
Proof. unfold To4. intros ->. simpl. by case_bool_decide. Qed.
Lemma IP_Mask_16 ip m : length ip = 16 → length m = 16 → IP_Mask ip m = mask_bytes ip m.
Proof.
  intros Hip Hm. unfold IP_Mask. rewrite (bool_decide_false (length ip = 4)), andb_false_r by lia.
  cbn [andb]. rewrite (bool_decide_false (length m = 4)) by lia. cbn [andb]. by rewrite bool_decide_true by lia.
Qed.
(** A 16-byte network that reads as IPv4 has a prefix of at least 96 bits. *)
Lemma To4_mask_v6 ip n ip4 :
  n ≤ 128 → To4 (IP_Mask ip (CIDRMask 16 n)) = Some ip4 → length ip = 16 → 96 ≤ n.
Proof.
  intros Hn H4 Hl. assert (IP_Mask ip (CIDRMask 16 n) = mask_bytes ip (CIDRMask 16 n)) as E.
  { apply IP_Mask_16; [done|by rewrite length_CIDRMask]. }
  rewrite E in H4.
  assert (length (mask_bytes ip (CIDRMask 16 n)) = 16) as Hlen by by apply length_masked.
  apply To4_16 in H4 as Hp; [|done].
  assert (bits (mask_bytes ip (CIDRMask 16 n)) !! 95 = Some true) as Hb.
  { rewrite <-(take_drop 12 (mask_bytes _ _)), Hp, bits_app, lookup_app_l; [done|]. rewrite length_bits. simpl. lia. }
  rewrite (bits_masked 16) in Hb by (done || lia).
  destruct (decide (96 ≤ n)); [done|]. rewrite lookup_app_r in Hb by (rewrite length_take; lia).
  apply lookup_replicate in Hb as [? _]. done.
Qed.

Lemma cidr_target_v4 c ip4 n :
  cidr_target c = Some (ip4, n) → n ≤ 32 →
  ∃ a, length a = 4 ∧ ip4 = mask_bytes a (CIDRMask 4 n) ∧ snd <$> ParseCIDR c = Some (net4 a n).
Proof.
  unfold cidr_target. destruct (ParseCIDR c) as [[ip net]|] eqn:Ec; [|done]. cbn [mbind option_bind].
  destruct (To4 (ipn_IP net)) as [ip4'|] eqn:E4; [|done]. cbn [mbind option_bind]. intros [= <- <-] Hn.
  destruct (decide (length (ipn_Mask net) = 4)) as [H4|H4].
  - destruct (ParseCIDR_v4 _ _ _ Ec H4) as (a & n & Ha & Hn32 & Hnet). exists a.
    assert (ipn_Mask net = CIDRMask 4 n) as Hm by by rewrite Hnet.
    assert (ipn_IP net = mask_bytes a (CIDRMask 4 n)) as Hi by by rewrite Hnet.
    rewrite Hm, Mask_ones_CIDRMask by lia. rewrite Hi, To4_4 in E4 by (by apply length_masked).
    split_and!; [done|congruence|]. by rewrite Hnet.
  - destruct (ParseCIDR_v6 _ _ _ Ec H4) as (a & n & Ha & Hn128 & Hnet).
    assert (ipn_Mask net = CIDRMask 16 n) as Hm by by rewrite Hnet.
    assert (ipn_IP net = IP_Mask a (CIDRMask 16 n)) as Hi by by rewrite Hnet.
    rewrite Hm, Mask_ones_CIDRMask in Hn by lia. rewrite Hi in E4.
    pose proof (To4_mask_v6 _ _ _ Hn128 E4 Ha). lia.
Qed.

Lemma cidrKeyBytes_eq n cg ip4 : length ip4 = 4 → cidrKeyBytes n cg ip4 = le_put 4 (Z.of_nat n) ++ le_put 8 cg ++ ip4.
Proof.
  intros Hl. unfold cidrKeyBytes. rewrite To4_4 by done. cbn [default from_option id].
  by rewrite take_app_length' by done.
Qed.
Lemma le_get_put_small n : n ≤ 255 → le_get (le_put 4 (Z.of_nat n)) = Z.of_nat n.
Proof. intros Hn. rewrite le_get_put, Z.mod_small by lia. done. Qed.

(** A key of a rule that the kernel accepts comes from an IPv4 CIDR. *)
Lemma cidr_ckeys_spec ports cg c key p :
  key ∈ cidr_ckeys ports cg c → lpm_prefix key = Some p →
  ∃ a n, length a = 4 ∧ n ≤ 32 ∧ snd <$> ParseCIDR c = Some (net4 a n) ∧
         key = le_put 4 (Z.of_nat (64 + n)) ++ le_put 8 cg ++ mask_bytes a (CIDRMask 4 n) ∧
         p = bits (le_put 8 cg) ++ take n (bits a) ∧ ports = [].
Proof.
  unfold cidr_ckeys. destruct (cidr_target c) as [[ip4 n]|] eqn:E; [|by intros ?%not_elem_of_nil].
  case_bool_decide as Hp; [|by intros ?%not_elem_of_nil]. intros ->%list_elem_of_singleton Hk.
  assert (n ≤ 32) as Hn.
  { unfold lpm_prefix in Hk. case_bool_decide as Hle; [|done].
    unfold cidrKeyBytes in Hle. rewrite take_app_length' in Hle by (by rewrite length_le_put).
    assert (n ≤ 128) as H128.
    { unfold cidr_target in E. destruct (ParseCIDR c) as [[ip net]|] eqn:Ec; [|done]. cbn [mbind option_bind] in E.
      destruct (To4 _); [|done]. cbn [mbind option_bind] in E. simplify_eq.
      destruct (decide (length (ipn_Mask net) = 4)) as [H4|H4].
      - destruct (ParseCIDR_v4 _ _ _ Ec H4) as (? & ? & ? & ? & ->). cbn [net4 ipn_Mask]. rewrite Mask_ones_CIDRMask; lia.
      - destruct (ParseCIDR_v6 _ _ _ Ec H4) as (? & ? & ? & ? & ->). cbn [ipn_Mask]. rewrite Mask_ones_CIDRMask; lia. }
    rewrite le_get_put_small in Hle by lia. lia. }
  destruct (cidr_target_v4 _ _ _ E Hn) as (a & Ha & -> & Hc).
  assert (length (mask_bytes a (CIDRMask 4 n)) = 4) as Hl by by apply length_masked.
  rewrite cidrKeyBytes_eq in * by done. exists a, n. split_and!; try done.
  rewrite lpm_prefix_eq, take_bits_split in Hk by (by rewrite ?length_le_put || lia).
  rewrite take_bits_masked in Hk by (done || lia). congruence.
Qed.
Lemma cidr_ckeys_canonical ports cg c key :
  key ∈ cidr_ckeys ports cg c → is_Some (lpm_prefix key) → canonical key.
Proof.
  intros Hk [p Hp]. destruct (cidr_ckeys_spec _ _ _ _ _ Hk Hp) as (a & n & Ha & Hn & _ & -> & _ & _).
  exists n, (le_put 8 cg), (mask_bytes a (CIDRMask 4 n)). split_and!; [done|done|by rewrite length_le_put| |].
  - by apply length_masked.
  - rewrite take_bits_masked by (done || lia). by rewrite (bits_masked 4) by (done || lia).
Qed.

(** ** What a rule writes, as probes of the datapath *)
Lemma elem_of_matchCgroups sel pods cg :
  cg ∈ matchCgroups sel pods ↔
  if PodSelector_IsZero sel then cg = 0%Z else ∃ info, (cg, info) ∈ pods ∧ pod_selected sel info = true.
Proof.
  unfold matchCgroups. destruct (PodSelector_IsZero sel); [apply list_elem_of_singleton|].
  rewrite list_elem_of_fmap. split.
  - intros ([cg' info] & -> & [Hs Hin]%list_elem_of_filter). eauto.
  - intros (info & Hin & Hs). exists (cg, info). split; [done|]. by apply list_elem_of_filter.
Qed.

Definition rule_keys (pods : list (Z * PodInfo)) (r : Rule) : list probe :=
  (PD <$> default_keys pods r) ++ (PV <$> verdict_keys pods r) ++ (PC <$> omap lpm_prefix (cidr_keys pods r)).
(** The policy's entry for a key: of the first rule that writes it, or the
    posture at the node-global default. *)
Definition rule_writes (pods : list (Z * PodInfo)) (k : probe) (r : Rule) : option Z :=
  if bool_decide (k ∈ rule_keys pods r) then Some (actionByte (r_Action r)) else None.
Definition desired (pods : list (Z * PodInfo)) (pol : Policy) (k : probe) : option Z :=
  orelse (first (rule_writes pods k) (Rules pol))
         (if bool_decide (k = PD 0) then Some (actionByte (defaultActionOf pol)) else None).

Lemma rule_keys_PD pods r cg : PD cg ∈ rule_keys pods r ↔ cg ∈ default_keys pods r.
Proof.
  unfold rule_keys. rewrite !elem_of_app, !list_elem_of_fmap. split; [|eauto].
  intros [(? & [= ->] & ?)|[(? & ? & ?)|(? & ? & ?)]]; done.
Qed.
Lemma rule_keys_PV pods r k : PV k ∈ rule_keys pods r ↔ k ∈ verdict_keys pods r.
Proof.
  unfold rule_keys. rewrite !elem_of_app, !list_elem_of_fmap. split; [|eauto].
  intros [(? & ? & ?)|[(? & [= ->] & ?)|(? & ? & ?)]]; done.
Qed.
Lemma rule_keys_PC pods r p : PC p ∈ rule_keys pods r ↔ p ∈ omap lpm_prefix (cidr_keys pods r).
Proof.
  unfold rule_keys. rewrite !elem_of_app, !list_elem_of_fmap. split; [|eauto].
  intros [(? & ? & ?)|[(? & ? & ?)|(? & [= ->] & ?)]]; done.
Qed.

(** The iteration order of the pods does not matter. *)
Lemma matchCgroups_perm l l' sel cg : l ≡ₚ l' → cg ∈ matchCgroups sel l ↔ cg ∈ matchCgroups sel l'.
Proof.
  intros Hp. rewrite !elem_of_matchCgroups. destruct (PodSelector_IsZero sel); [done|]. by setoid_rewrite Hp.
Qed.
Lemma default_keys_perm l l' r cg : l ≡ₚ l' → cg ∈ default_keys l r ↔ cg ∈ default_keys l' r.
Proof.
  intros Hp. unfold default_keys. destruct (_ && _ && _); [|done].
  by apply matchCgroups_perm.
Qed.
Lemma bind_matchCgroups_perm {B} l l' sel (g : Z → list B) x :
  l ≡ₚ l' → x ∈ matchCgroups sel l ≫= g ↔ x ∈ matchCgroups sel l' ≫= g.
Proof. intros Hp. rewrite !list_elem_of_bind. by setoid_rewrite (matchCgroups_perm l l' _ _ Hp). Qed.
Lemma verdict_keys_perm l l' r k : l ≡ₚ l' → k ∈ verdict_keys l r ↔ k ∈ verdict_keys l' r.
Proof. intros Hp. unfold verdict_keys. destruct (enforced _); [|done]. by apply bind_matchCgroups_perm. Qed.
Lemma cidr_keys_perm l l' r k : l ≡ₚ l' → k ∈ cidr_keys l r ↔ k ∈ cidr_keys l' r.
Proof. intros Hp. unfold cidr_keys. destruct (enforced _); [|done]. by apply bind_matchCgroups_perm. Qed.

Lemma first_imap {A B C} (g : nat → A → B) (f : B → option C) (l : list A) :
  ∀ h : A → option C, (∀ i x, f (g i x) = h x) → first f (imap g l) = first h l.
Proof.
  intros h Hf. revert g Hf. induction l as [|x l IH]; intros g Hf; [done|].
  rewrite imap_cons. simpl. rewrite Hf, (IH (g ∘ S)); [done|]. intros i y. apply Hf.
Qed.
Lemma elem_of_imap {A B} (g : nat → A → B) l y : y ∈ imap g l → ∃ i x, x ∈ l ∧ y = g i x.
Proof.
  intros (i & Hi)%list_elem_of_lookup. rewrite list_lookup_imap in Hi.
  destruct (l !! i) as [x|] eqn:E; simplify_eq/=. exists i, x. split; [by eapply list_elem_of_lookup_2|done].
Qed.

Section apply.
Context `{Kernel}.

(** The writes of one [apply] run to each map, in rule order. *)
Definition rule_write {R} (keys : list (Z * PodInfo) → Rule → list R) (order : nat → list (Z * PodInfo))
    (i : nat) (r : Rule) : Z * list R := (actionByte (r_Action r), keys (order i) r).

Lemma apply_rules_proj order rules w :
  let w' := apply_rules order rules w in
  pd w' = run_writes k_default Some fst snd (imap (rule_write default_keys order) rules) (pd w) ∧
  pv w' = run_writes k_verdicts Some fst snd (imap (rule_write verdict_keys order) rules) (pv w) ∧
  pc w' = run_writes k_cidr lpm_prefix fst snd (imap (rule_write cidr_keys order) rules) (pc w) ∧
  Cfg (w_maps w') = Cfg (w_maps w).
Proof.
  cbn zeta. revert order. induction rules as [|r rules IH]; intros order; [done|].
  cbn [apply_rules]. rewrite !imap_cons. destruct (IH (λ i, order (S i))) as (H1 & H2 & H3 & H4).
  destruct (apply_rule_proj (order 0) r (apply_rules (λ i, order (S i)) rules w)) as (-> & -> & -> & ->).
  rewrite H1, H2, H3, H4. done.
Qed.
(** The entries of the previous run that [reconcile] may delete. *)
Definition stale (p : programmer) (k : probe) : bool :=
  match k with
  | PD cg => bool_decide (cg ≠ 0%Z) && bool_decide (cg ∈ prevDefault p)
  | PV k => bool_decide (k ∈ prevVerdict p)
  | PC q => bool_decide (q ∈ omap lpm_prefix (elements (prevCIDR p)))
  end.
Definition target (p : programmer) (pods : list (Z * PodInfo)) (pol : Policy) (k : probe) : option Z :=
  orelse (desired pods pol k) (if stale p k then None else lookup_probe (maps p) k).

(** The maps have room for the policy. *)
Definition default_domain (p : programmer) (pods : list (Z * PodInfo)) (pol : Policy) : gset Z :=
  dom (km_contents (Default (maps p))) ∪ list_to_set (0%Z :: (Rules pol ≫= default_keys pods)).
Definition cidr_domain (p : programmer) (pods : list (Z * PodInfo)) (pol : Policy) : gset (list bool) :=
  dom (km_contents (CIDR (maps p))) ∪ list_to_set (Rules pol ≫= (λ r, omap lpm_prefix (cidr_keys pods r))).
Definition room (p : programmer) (pods : list (Z * PodInfo)) (pol : Policy) : Prop :=
  size (default_domain p pods pol) < 4096 ∧ size (cidr_domain p pods pol) < 16384.
(** The keys of the verdict map and the policy's. *)
Definition verdict_domain (p : programmer) (pods : list (Z * PodInfo)) (pol : Policy) : gset verdictKey :=
  dom (km_contents (Verdicts (maps p))) ∪ list_to_set (Rules pol ≫= verdict_keys pods).
Definition prog_inv (p : programmer) : Prop := ∀ key, key ∈ prevCIDR p → canonical key.

Context (p : programmer) (pods : list (Z * PodInfo)) (pol : Policy) (order : nat → list (Z * PodInfo)).
Context (Horder : ∀ i, order i ≡ₚ pods).

Lemma omap_Some_id {A} (l : list A) : omap Some l = l.
Proof. induction l as [|x l IH]; [done|]. cbn. by f_equal. Qed.

Lemma written_default cg :
  orelse (written Some fst snd (imap (rule_write default_keys order) (Rules pol) ++ [(actionByte (defaultActionOf pol), [0%Z])]) cg)
         None = desired pods pol (PD cg).
Proof.
  unfold written, desired. rewrite first_app. simpl. rewrite (first_imap _ _ _ (rule_writes pods (PD cg))).
  - destruct (first _ _); simpl; [done|]. rewrite (bool_decide_ext (cg ∈ [0%Z]) (PD cg = PD 0)); [by case_bool_decide|].
    rewrite list_elem_of_singleton. naive_solver.
  - intros i r. unfold rule_writes, rule_write. simpl.
    rewrite (bool_decide_ext (cg ∈ omap Some (default_keys (order i) r)) (PD cg ∈ rule_keys pods r)); [done|].
    rewrite omap_Some_id, rule_keys_PD. by apply default_keys_perm.
Qed.
Lemma written_verdict k :
  written Some fst snd (imap (rule_write verdict_keys order) (Rules pol)) k = desired pods pol (PV k).
Proof.
  unfold written, desired. rewrite (first_imap _ _ _ (rule_writes pods (PV k))).
  - rewrite bool_decide_false by done. by destruct (first _ _).
  - intros i r. unfold rule_writes, rule_write. simpl.
    rewrite (bool_decide_ext (k ∈ omap Some (verdict_keys (order i) r)) (PV k ∈ rule_keys pods r)); [done|].
    rewrite omap_Some_id, rule_keys_PV. by apply verdict_keys_perm.
Qed.
Lemma written_cidr q :
  written lpm_prefix fst snd (imap (rule_write cidr_keys order) (Rules pol)) q = desired pods pol (PC q).
Proof.
  unfold written, desired. rewrite (first_imap _ _ _ (rule_writes pods (PC q))).
  - rewrite bool_decide_false by done. by destruct (first _ _).
  - intros i r. unfold rule_writes, rule_write. simpl.
    rewrite (bool_decide_ext (q ∈ omap lpm_prefix (cidr_keys (order i) r)) (PC q ∈ rule_keys pods r)); [done|].
    rewrite rule_keys_PC, !list_elem_of_omap. by setoid_rewrite (cidr_keys_perm _ _ r _ (Horder i)).
Qed.

(** A recorded key has an entry. *)
Lemma written_is_Some {K R X} `{Countable K} `{Countable R} (conv : R → option K) (act : X → Z) ks xs k :
  (∃ r x, conv r = Some k ∧ x ∈ xs ∧ r ∈ ks x) ↔ is_Some (written conv act ks xs k).
Proof.
  unfold written. split.
  - intros (r & x & Hc & Hx & Hr). destruct (first _ xs) eqn:E; [done|]. rewrite first_None in E.
    specialize (E x Hx). rewrite bool_decide_true in E; [done|]. apply list_elem_of_omap. eauto.
  - intros [a (l1 & x & l2 & -> & Hx & _)%first_Some]. case_bool_decide as Hin; [|done].
    apply list_elem_of_omap in Hin as (r & Hr & Hc). exists r, x. split_and!; [done|set_solver|done].
Qed.

Let w0 : work := {| w_maps := maps p; newCIDR := ∅; newVerdict := ∅; newDefault := ∅; deferred := 0 |}.
Let w : work := apply_work p pol order.

Lemma apply_work_proj :
  pd w = run_writes k_default Some fst snd
           (imap (rule_write default_keys order) (Rules pol) ++ [(actionByte (defaultActionOf pol), [0%Z])])
           (Default (maps p), ∅) ∧
  pv w = run_writes k_verdicts Some fst snd (imap (rule_write verdict_keys order) (Rules pol)) (Verdicts (maps p), ∅) ∧
  pc w = run_writes k_cidr lpm_prefix fst snd (imap (rule_write cidr_keys order) (Rules pol)) (CIDR (maps p), ∅) ∧
  Cfg (w_maps w) = Cfg (maps p).
Proof.
  unfold w, apply_work. fold w0.
  destruct (apply_rules_proj order (Rules pol) (put_default 0 (actionByte (defaultActionOf pol)) w0)) as (-> & -> & -> & ->).
  unfold run_writes. rewrite foldr_app. unfold pd, pv, pc, put_default, put_rec. simpl.
  destruct (km_put _ _ _); done.
Qed.

Lemma elem_of_imap_write {R} (keys : list (Z * PodInfo) → Rule → list R) x :
  x ∈ imap (rule_write keys order) (Rules pol) → ∃ i r, r ∈ Rules pol ∧ x = rule_write keys order i r.
Proof. apply elem_of_imap. Qed.

Lemma default_run cg :
  size (default_domain p pods pol) < 4096 →
  km_contents (Default (w_maps w)) !! cg = orelse (desired pods pol (PD cg)) (km_contents (Default (maps p)) !! cg) ∧
  (cg ∈ newDefault w ↔ is_Some (desired pods pol (PD cg))).
Proof.
  intros Hsize. set (xs := imap (rule_write default_keys order) (Rules pol) ++ [(actionByte (defaultActionOf pol), [0%Z])]).
  destruct apply_work_proj as (Hpd & _). fold xs in Hpd.
  destruct (run_exact k_default Some fst snd (default_domain p pods pol) xs (Default (maps p)))
    as (_ & Hc & Hn).
  { by apply (exact_roomy _ _ 4096 k_default_exact). }
  { split; [unfold default_domain; set_solver|]. intros x k Hx Hk. rewrite omap_Some_id in Hk.
    unfold default_domain. apply elem_of_union_r, elem_of_list_to_set.
    unfold xs in Hx. apply elem_of_app in Hx as [(i & r & Hr & ->)%elem_of_imap_write| ->%list_elem_of_singleton].
    - right. apply list_elem_of_bind. exists r. split; [|done]. by apply (default_keys_perm (order i)).
    - simpl in Hk. apply list_elem_of_singleton in Hk as ->. left. }
  rewrite <-Hpd in Hc, Hn.
  assert (written Some fst snd xs cg = desired pods pol (PD cg)) as Hw.
  { rewrite <-written_default. fold xs. by destruct (written _ _ _ _ _). }
  change (newDefault w) with (pd w).2. change (Default (w_maps w)) with (pd w).1. rewrite Hc, Hn, <-Hw. split; [done|].
  rewrite <-written_is_Some. split; [|naive_solver]. intros (x & ? & ? & ?). exists cg, x. done.
Qed.

Lemma apply_default cg :
  size (default_domain p pods pol) < 4096 →
  km_contents (Default (maps (reconcile p w))) !! cg = target p pods pol (PD cg).
Proof.
  intros [Hc Hnew]%(default_run cg). unfold reconcile, target. cbn [maps Default].
  assert (∀ l s, foldr (λ k s, if bool_decide (k = 0%Z) then s else
      if bool_decide (k ∈ newDefault w) then s else km_delete k s) s l =
    foldr (λ k s, if bool_decide (k = 0%Z) || bool_decide (k ∈ newDefault w) then s else
      match Some k with Some k => km_delete k s | None => s end) s l) as ->.
  { intros l s. apply foldr_ext; [|done|done]. intros k s'. by destruct (bool_decide (k = 0%Z)). }
  rewrite (deletes_spec k_default Some), omap_Some_id, Hc.
  destruct (desired pods pol (PD cg)) eqn:E; simpl.
  - rewrite bool_decide_false; [done|]. rewrite list_elem_of_filter. intros [Hk _].
    rewrite (bool_decide_true (cg ∈ _)), orb_true_r in Hk; [done|]. by apply Hnew.
  - rewrite (bool_decide_ext _ (cg ≠ 0%Z ∧ cg ∈ prevDefault p)).
    + by rewrite bool_decide_and.
    + rewrite list_elem_of_filter, elem_of_elements, orb_false_iff, !bool_decide_eq_false.
      assert (cg ∉ newDefault w) by (rewrite Hnew; by intros []). tauto.
Qed.

Lemma verdict_run k :
  (∀ v, km_contents (Verdicts (w_maps w)) !! k = Some v →
     orelse (desired pods pol (PV k)) (km_contents (Verdicts (maps p)) !! k) = Some v) ∧
  (k ∈ newVerdict w ↔ is_Some (desired pods pol (PV k))).
Proof.
  destruct apply_work_proj as (_ & Hpv & _).
  destruct (run_lossy k_verdicts Some fst snd (imap (rule_write verdict_keys order) (Rules pol)) (Verdicts (maps p)) k_verdicts_lru)
    as (Hc & Hn).
  rewrite <-Hpv in Hc, Hn. change (newVerdict w) with (pv w).2. change (Verdicts (w_maps w)) with (pv w).1.
  rewrite Hn, <-written_verdict. split; [apply Hc|]. rewrite <-written_is_Some. split; [|naive_solver].
  intros (x & ? & ? & ?). exists k, x. done.
Qed.
Lemma apply_verdict k v :
  km_contents (Verdicts (maps (reconcile p w))) !! k = Some v → target p pods pol (PV k) = Some v.
Proof.
  destruct (verdict_run k) as [Hc Hnew]. unfold reconcile, target. cbn [maps Verdicts stale lookup_probe].
  assert (∀ l s, foldr (λ k s, if bool_decide (k ∈ newVerdict w) then s else km_delete k s) s l =
    foldr (λ k s, if bool_decide (k ∈ newVerdict w) then s else
      match Some k with Some k => km_delete k s | None => s end) s l) as -> by done.
  rewrite (deletes_spec k_verdicts Some), omap_Some_id.
  case_bool_decide as Hdel; [done|]. intros Hv%Hc.
  destruct (desired pods pol (PV k)) eqn:E; [done|]. simpl in *.
  rewrite bool_decide_false; [done|]. intros Hprev. apply Hdel. apply list_elem_of_filter.
  rewrite elem_of_elements, bool_decide_eq_false, Hnew. split; [by intros []|done].
Qed.

(** Where the kernel keeps them, the verdict map too holds exactly what is wanted. *)
Lemma verdict_run_exact k :
  verdicts_fit (verdict_domain p pods pol) →
  km_contents (Verdicts (w_maps w)) !! k = orelse (desired pods pol (PV k)) (km_contents (Verdicts (maps p)) !! k).
Proof.
  intros (n & Hkeep & Hsize). set (xs := imap (rule_write verdict_keys order) (Rules pol)).
  destruct apply_work_proj as (_ & Hpv & _). fold xs in Hpv.
  destruct (run_exact k_verdicts Some fst snd (verdict_domain p pods pol) xs (Verdicts (maps p))) as (_ & Hc & _).
  { by apply (lru_roomy _ _ n k_verdicts_lru). }
  { split; [unfold verdict_domain; set_solver|]. intros x vk (i & r & Hr & ->)%elem_of_imap_write Hk. rewrite omap_Some_id in Hk.
    unfold verdict_domain. apply elem_of_union_r, elem_of_list_to_set, list_elem_of_bind. exists r. split; [|done].
    by apply (verdict_keys_perm (order i)). }
  rewrite <-Hpv in Hc. change (Verdicts (w_maps w)) with (pv w).1. by rewrite Hc, <-written_verdict.
Qed.
Lemma apply_verdict_exact k :
  verdicts_fit (verdict_domain p pods pol) → km_contents (Verdicts (maps (reconcile p w))) !! k = target p pods pol (PV k).
Proof.
  intros Hc%(verdict_run_exact k). destruct (verdict_run k) as [_ Hnew]. unfold reconcile, target. cbn [maps Verdicts stale lookup_probe].
  assert (∀ l s, foldr (λ k s, if bool_decide (k ∈ newVerdict w) then s else km_delete k s) s l =
    foldr (λ k s, if bool_decide (k ∈ newVerdict w) then s else
      match Some k with Some k => km_delete k s | None => s end) s l) as -> by done.
  rewrite (deletes_spec k_verdicts Some), omap_Some_id, Hc.
  assert (k ∈ filter (λ k, bool_decide (k ∈ newVerdict w) = false) (elements (prevVerdict p)) ↔
    k ∈ prevVerdict p ∧ desired pods pol (PV k) = None) as Hin.
  { rewrite list_elem_of_filter, elem_of_elements, bool_decide_eq_false, Hnew, eq_None_not_Some. tauto. }
  destruct (desired pods pol (PV k)) eqn:E; simpl.
  - rewrite bool_decide_false; [done|]. by rewrite Hin; intros [_ ?].
  - erewrite bool_decide_ext; [done|]. rewrite Hin. tauto.
Qed.

Lemma new_canonical key : key ∈ newCIDR w → canonical key.
Proof.
  destruct apply_work_proj as (_ & _ & Hpc & _). change (newCIDR w) with (pc w).2. rewrite Hpc.
  intros [Hk|(x & (i & r & Hr & ->)%elem_of_imap_write & Hk & Hs)]%run_recorded; [by apply not_elem_of_empty in Hk|].
  simpl in Hk. unfold cidr_keys in Hk. destruct (enforced _); [|by apply not_elem_of_nil in Hk].
  apply list_elem_of_bind in Hk as (cg & (c & Hk & _)%list_elem_of_bind & _).
  by eapply cidr_ckeys_canonical.
Qed.

Lemma cidr_run q :
  size (cidr_domain p pods pol) < 16384 →
  km_contents (CIDR (w_maps w)) !! q = orelse (desired pods pol (PC q)) (km_contents (CIDR (maps p)) !! q) ∧
  ((∃ r, r ∈ newCIDR w ∧ lpm_prefix r = Some q) ↔ is_Some (desired pods pol (PC q))).
Proof.
  intros Hsize. set (xs := imap (rule_write cidr_keys order) (Rules pol)).
  destruct apply_work_proj as (_ & _ & Hpc & _). fold xs in Hpc.
  destruct (run_exact k_cidr lpm_prefix fst snd (cidr_domain p pods pol) xs (CIDR (maps p)))
    as (_ & Hc & Hn).
  { by apply (exact_roomy _ _ 16384 k_cidr_exact). }
  { split; [unfold cidr_domain; set_solver|]. intros x k (i & r & Hr & ->)%elem_of_imap_write Hk.
    unfold cidr_domain. apply elem_of_union_r, elem_of_list_to_set, list_elem_of_bind.
    exists r. split; [|done]. simpl in Hk. apply list_elem_of_omap in Hk as (b & Hb & Hk).
    apply list_elem_of_omap. exists b. split; [|done]. by apply (cidr_keys_perm (order i)). }
  rewrite <-Hpc in Hc, Hn. change (newCIDR w) with (pc w).2. change (CIDR (w_maps w)) with (pc w).1.
  rewrite Hc, <-written_cidr, <-written_is_Some. setoid_rewrite Hn. naive_solver.
Qed.

Lemma apply_cidr q :
  prog_inv p → size (cidr_domain p pods pol) < 16384 →
  km_contents (CIDR (maps (reconcile p w))) !! q = target p pods pol (PC q).
Proof.
  intros Hinv [Hc Hnew]%(cidr_run q). unfold reconcile, target. cbn [maps CIDR stale lookup_probe]. unfold delete_cidr.
  rewrite (deletes_spec k_cidr lpm_prefix), Hc.
  destruct (desired pods pol (PC q)) eqn:E; simpl.
  - rewrite bool_decide_false; [done|].
    intros (r & [Hk Hr]%list_elem_of_filter & Hq)%list_elem_of_omap. rewrite elem_of_elements in Hr.
    destruct (proj2 Hnew ltac:(eauto)) as (r' & Hr' & Hq').
    assert (r = r') as -> by (eapply canonical_inj; [by apply Hinv|by apply new_canonical|done|done]).
    by rewrite bool_decide_true in Hk.
  - erewrite bool_decide_ext; [done|]. rewrite !list_elem_of_omap. setoid_rewrite list_elem_of_filter.
    split; [naive_solver|]. intros (r & Hr & Hq). exists r. split_and!; [|done|done].
    apply bool_decide_eq_false. intros Hin. destruct (proj1 Hnew); [eauto|done].
Qed.

(** After a run, the entries in the maps that the policy wants are recorded. *)
Lemma apply_recorded k :
  room p pods pol → k ≠ PD 0 → is_Some (desired pods pol k) → stale (reconcile p w) k = true.
Proof.
  intros [Hd Hc] Hk Hs. destruct k as [k|q|cg]; simpl.
  - apply bool_decide_eq_true. by apply verdict_run.
  - apply bool_decide_eq_true, list_elem_of_omap. apply (cidr_run q Hc) in Hs as (r & Hr & Hq).
    exists r. by rewrite elem_of_elements.
  - apply (default_run cg Hd) in Hs. rewrite !bool_decide_true; [done..|naive_solver].
Qed.
End apply.
