(* ===== verification/Enforcement.v ===== *)
(** * The programmed datapath against the policy

    What [apply] leaves in the maps, what the datapath then decides, and when the
    kernel's most-specific-first lookup agrees with the engine's first match. *)

From S2P Require Import Prelude GoStrings GoNet NetBits Attr Policy Engine Aggregate Datapath Hooks Programmer.

(** ** The map contents *)
Section contents.
Context `{Kernel}.

Lemma apply_lookup p pods eng order k :
  (∀ i, order i ≡ₚ pods) → prog_inv p → room p pods (e_policy eng) →
  match k with
  | PV _ => ∀ v, lookup_probe (maps (apply p eng order)) k = Some v → target p pods (e_policy eng) k = Some v
  | _ => lookup_probe (maps (apply p eng order)) k = target p pods (e_policy eng) k
  end.
Proof.
  intros Ho Hinv [Hd Hc]. destruct k as [k|q|cg]; simpl.
  - intros v. by apply apply_verdict.
  - by apply apply_cidr.
  - by apply apply_default.
Qed.
(** A run leaves exactly the wanted entries, in the LRU map where the kernel keeps
    the keys. *)
Definition kept_key (D : gset verdictKey) (k : probe) : Prop := match k with PV _ => verdicts_fit D | _ => True end.
Lemma apply_lookup_exact p pods eng order k :
  (∀ i, order i ≡ₚ pods) → prog_inv p → room p pods (e_policy eng) → kept_key (verdict_domain p pods (e_policy eng)) k →
  lookup_probe (maps (apply p eng order)) k = target p pods (e_policy eng) k.
Proof.
  intros Ho Hinv Hroom Hk. destruct k as [k|q|cg]; [by apply apply_verdict_exact|..].
  - by apply (apply_lookup p pods eng order (PC q)).
  - by apply (apply_lookup p pods eng order (PD cg)).
Qed.
Lemma apply_inv p eng order : prog_inv (apply p eng order).
Proof. intros key. apply new_canonical. Qed.
Lemma apply_cfg p eng order : Cfg (maps (apply p eng order)) = Cfg (maps p).
Proof. apply (apply_work_proj p (e_policy eng) order). Qed.

(** Every entry of the maps is recorded as the programmer's own. *)
Definition owned (p : programmer) : Prop :=
  ∀ k, is_Some (lookup_probe (maps p) k) → k = PD 0 ∨ stale p k = true.

Lemma apply_owned p pods eng order :
  (∀ i, order i ≡ₚ pods) → prog_inv p → room p pods (e_policy eng) → owned p → owned (apply p eng order).
Proof.
  intros Ho Hinv Hroom Hown k [v Hv]. destruct (decide (k = PD 0)) as [->|Hk]; [by left|]. right.
  apply (apply_recorded p pods); [done|done|done|].
  assert (target p pods (e_policy eng) k = Some v) as Ht.
  { pose proof (apply_lookup p pods eng order k Ho Hinv Hroom) as Hl. destruct k; rewrite ?Hl in Hv; auto. }
  unfold target in Ht. destruct (desired pods (e_policy eng) k); [done|]. simpl in Ht.
  destruct (stale p k) eqn:Es; [done|]. destruct (Hown k); [by rewrite Ht|done|congruence].
Qed.

Lemma target_owned p pods pol k :
  (is_Some (lookup_probe (maps p) k) → k = PD 0 ∨ stale p k = true) → target p pods pol k = desired pods pol k.
Proof.
  intros Hown. unfold target. destruct (desired pods pol k) as [a|] eqn:E; [done|]. simpl.
  destruct (stale p k) eqn:Es; [done|]. destruct (lookup_probe (maps p) k) eqn:El; [|done].
  destruct Hown as [->|]; [done| |congruence]. unfold desired in E. rewrite bool_decide_true in E by done. by destruct (first _ _).
Qed.
(** Where nothing foreign is in the maps, a run leaves exactly the policy's entries. *)
Lemma apply_owned_key p pods eng order k :
  (∀ i, order i ≡ₚ pods) → prog_inv p → room p pods (e_policy eng) →
  (is_Some (lookup_probe (maps p) k) → k = PD 0 ∨ stale p k = true) →
  match k with
  | PV _ => ∀ v, lookup_probe (maps (apply p eng order)) k = Some v → desired pods (e_policy eng) k = Some v
  | _ => lookup_probe (maps (apply p eng order)) k = desired pods (e_policy eng) k
  end.
Proof.
  intros Ho Hinv Hroom Hown. pose proof (apply_lookup p pods eng order k Ho Hinv Hroom) as Hl.
  rewrite (target_owned p pods (e_policy eng) k Hown) in Hl. exact Hl.
Qed.
Lemma apply_owned_exact p pods eng order k :
  (∀ i, order i ≡ₚ pods) → prog_inv p → room p pods (e_policy eng) → kept_key (verdict_domain p pods (e_policy eng)) k →
  (is_Some (lookup_probe (maps p) k) → k = PD 0 ∨ stale p k = true) →
  lookup_probe (maps (apply p eng order)) k = desired pods (e_policy eng) k.
Proof. intros Ho Hinv Hroom Hk Hown. by rewrite (apply_lookup_exact p pods), target_owned. Qed.
Lemma apply_owned_lookup p pods eng order k :
  (∀ i, order i ≡ₚ pods) → prog_inv p → room p pods (e_policy eng) → owned p →
  match k with
  | PV _ => ∀ v, lookup_probe (maps (apply p eng order)) k = Some v → desired pods (e_policy eng) k = Some v
  | _ => lookup_probe (maps (apply p eng order)) k = desired pods (e_policy eng) k
  end.
Proof. intros Ho Hinv Hroom Hown. apply apply_owned_key; auto. Qed.
End contents.

(** A programmer on the maps just loaded. *)
Definition fresh : @programmer linux := NewProgrammer (H := linux) linux_loaded false.
Lemma fresh_inv : prog_inv (H := linux) fresh.
Proof. intros key Hk. simpl in Hk. set_solver. Qed.
Lemma fresh_owned : owned (H := linux) fresh.
Proof. intros [k|q|cg] [v Hv]; simpl in Hv; unfold id in Hv; by rewrite lookup_empty in Hv. Qed.

(** The programmer implements the policy's map contents: after [apply], from
    whatever the maps held, each default and CIDR key holds the action of the
    first rule in policy order that writes it (the posture at the node-global
    default), a key of the previous run that no rule wants any more is gone, and
    every other entry is as it was; in the LRU map an entry is one of these or
    has been evicted.  The result does not depend on the order in which Go
    iterates over the pods. *)
Theorem apply_contents `{Kernel} p pods eng order k :
  (∀ i, order i ≡ₚ pods) → prog_inv p → room p pods (e_policy eng) →
  match k with
  | PV _ => ∀ v, lookup_probe (maps (apply p eng order)) k = Some v → target p pods (e_policy eng) k = Some v
  | _ => lookup_probe (maps (apply p eng order)) k = target p pods (e_policy eng) k
  end ∧ prog_inv (apply p eng order) ∧ Cfg (maps (apply p eng order)) = Cfg (maps p).
Proof. intros. split; [by apply apply_lookup|]. split; [apply apply_inv|apply apply_cfg]. Qed.

(** ** Rules the datapath can represent *)
Definition cidr_representable (ports : list Z) (c : string) : bool :=
  match cidr_target c with
  | Some (_, n) => bool_decide (n ≤ 32) && (bool_decide (ports = []) || bool_decide (n = 32))
  | None => false
  end.
(** No domain or L7 dimension; IPv4 CIDRs, single addresses when there are
    ports; no port without a destination; no port 0. *)
Definition representable (r : Rule) : bool :=
  let m := r_Match r in
  enforced m &&
  (bool_decide (CIDRs m ≠ []) || bool_decide (Ports m = [])) &&
  forallb (cidr_representable (Ports m)) (CIDRs m) &&
  forallb (λ p, bool_decide (0 < p < 65536)%Z) (Ports m).

(** The flow of a packet from the pod [info] of cgroup [cg]. *)
Record packet_flow (pods : gmap Z PodInfo) (cg : Z) (da dp : bytes) (f : Flow) : Prop := {
  pf_pod : pods !! cg = Some (f_Pod f);
  pf_labels : f_Labels f = Labels (f_Pod f);
  pf_addr : length da = 4 ∧ To4 (DstIP f) = Some da;
  pf_port : (0 < Port f < 65536)%Z ∧ dp = be_put16 (Port f)
}.
(** Cgroup ids are inode numbers: positive 64-bit numbers. *)
Definition good_pods (pods : gmap Z PodInfo) : Prop := ∀ cg info, pods !! cg = Some info → (0 < cg < 2 ^ 64)%Z.

Lemma elem_of_prefixes p l : p ∈ prefixes l ↔ ∃ n, n ≤ length l ∧ p = take n l.
Proof.
  unfold prefixes. rewrite list_elem_of_fmap. setoid_rewrite elem_of_reverse. setoid_rewrite elem_of_seq.
  split; intros (n & H1 & H2); exists n; split; (done || lia).
Qed.
Lemma elem_of_cidr_prefixes cg cg' da (a : bytes) n :
  (0 ≤ cg < 2 ^ 64)%Z → (0 ≤ cg' < 2 ^ 64)%Z → length da = 4 → length a = 4 → n ≤ 32 →
  bits (le_put 8 cg') ++ take n (bits a) ∈ prefixes (cidr_bits cg da) ↔ cg' = cg ∧ take n (bits a) = take n (bits da).
Proof.
  intros Hcg Hcg' Hda Ha Hn. rewrite elem_of_prefixes. unfold cidr_bits.
  assert (∀ z, length (bits (le_put 8 z)) = 64) as H64 by (intros; by rewrite length_bits, length_le_put).
  split.
  - intros (k & Hk & Heq). pose proof (f_equal length Heq) as Hl.
    rewrite length_app, !length_take, !length_bits, length_app, !length_le_put, Ha, Hda in Hl.
    rewrite length_bits, length_app, length_le_put, Hda in Hk.
    assert (k = 64 + n) as -> by lia. rewrite take_bits_split in Heq by (by rewrite length_le_put).
    apply app_inj_1 in Heq as [Hb%bits_inj ->]; [|by rewrite !H64]. split; [|done].
    by apply (le_put_inj 8) in Hb.
  - intros [-> ->]. exists (64 + n). rewrite length_bits, length_app, length_le_put, Hda. split; [lia|].
    by rewrite take_bits_split by (by rewrite length_le_put).
Qed.

Lemma elem_of_probes cg da dp k :
  k ∈ probes cg da dp ↔
  match k with
  | PV k => k ∈ [vkey cg da dp; vkey cg da any_port; vkey 0 da dp; vkey 0 da any_port]
  | PC p => p ∈ prefixes (cidr_bits cg da) ∨ p ∈ prefixes (cidr_bits 0 da)
  | PD cg' => cg' = cg ∨ cg' = 0%Z
  end.
Proof.
  unfold probes. rewrite !elem_of_app.
  change [PV (vkey cg da dp); PV (vkey cg da any_port); PV (vkey 0 da dp); PV (vkey 0 da any_port)]
    with (PV <$> [vkey cg da dp; vkey cg da any_port; vkey 0 da dp; vkey 0 da any_port]).
  change [PD cg; PD 0] with (PD <$> [cg; 0%Z]). rewrite !list_elem_of_fmap.
  destruct k as [k|p|cg']; split.
  - intros [(? & [= <-] & ?)|[(? & ? & _)|[(? & ? & _)|(? & ? & _)]]]; done.
  - eauto.
  - intros [(? & ? & _)|[(? & [= <-] & ?)|[(? & [= <-] & ?)|(? & ? & _)]]]; try done; auto.
  - intros [?|?]; eauto 6.
  - intros [(? & ? & _)|[(? & ? & _)|[(? & ? & _)|(? & [= <-] & H)]]]; try done.
    by rewrite elem_of_cons, list_elem_of_singleton in H.
  - intros H. do 3 right. exists cg'. by rewrite elem_of_cons, list_elem_of_singleton.
Qed.

Lemma probes_last cg da dp :
  cg ≠ 0%Z → ∃ front, probes cg da dp = front ++ [PD 0] ∧ ∀ k, k ∈ front → k ≠ PD 0.
Proof.
  intros Hcg. unfold probes. generalize (prefixes (cidr_bits cg da)) (prefixes (cidr_bits 0 da)). intros l l'.
  exists ([PV (vkey cg da dp); PV (vkey cg da any_port); PV (vkey 0 da dp); PV (vkey 0 da any_port)] ++
     (PC <$> l) ++ (PC <$> l') ++ [PD cg]). split; [by rewrite <-!(assoc_L (++))|].
  intros k. rewrite !elem_of_app, !list_elem_of_fmap, !elem_of_cons.
  intros [[->|[->|[->|[->|Hk]]]]|[(? & -> & _)|[(? & -> & _)|[->|Hk]]]]; try done; try (by apply not_elem_of_nil in Hk).
  congruence.
Qed.

Lemma be_put16_inj a b : (0 ≤ a < 65536)%Z → (0 ≤ b < 65536)%Z → be_put16 a = be_put16 b → a = b.
Proof.
  unfold be_put16. intros Ha Hb [= H1 H2]. rewrite <-(be16_put a), <-(be16_put b) by done. by rewrite H1, H2.
Qed.

(** ** Hitting the datapath is matching in the engine *)
Section hits.
Context `{UnicodeCase} (pods : gmap Z PodInfo) (cg : Z) (da dp : bytes) (f : Flow).
Context (Hpods : good_pods pods) (Hf : packet_flow pods cg da dp f).

Lemma IsZero_spec sel : PodSelector_IsZero sel = true ↔ sel = PodSelector_zero.
Proof.
  split; [|by intros ->]. unfold PodSelector_IsZero. rewrite !andb_true_iff, !bool_decide_eq_true.
  destruct sel; simpl. by intros [[[[-> ->] ->] ->] ->].
Qed.
Lemma selected_pod sel cg' :
  (cg' = cg ∨ cg' = 0%Z) ∧ cg' ∈ matchCgroups sel (map_to_list pods) ↔
  PodSelector_matches sel f = true ∧ cg' = (if PodSelector_IsZero sel then 0%Z else cg).
Proof.
  rewrite elem_of_matchCgroups. destruct (PodSelector_IsZero sel) eqn:Ez.
  - apply IsZero_spec in Ez as ->. rewrite PodSelector_matches_zero. naive_solver.
  - assert (pod_selected sel (f_Pod f) = PodSelector_matches sel f) as Hs.
    { unfold pod_selected, PodSelector_matches. by rewrite (pf_labels _ _ _ _ _ Hf). }
    setoid_rewrite elem_of_map_to_list. rewrite <-Hs. split.
    + intros [[->| ->] (info & Hi & Hsel)]; [|apply Hpods in Hi; lia].
      rewrite (pf_pod _ _ _ _ _ Hf) in Hi. by simplify_eq.
    + intros [Hsel ->]. split; [by left|]. exists (f_Pod f). split; [apply Hf|done].
Qed.
Lemma matched_range sel cg' : cg' ∈ matchCgroups sel (map_to_list pods) → (0 ≤ cg' < 2 ^ 64)%Z.
Proof.
  rewrite elem_of_matchCgroups. destruct (PodSelector_IsZero sel); [intros ->; lia|].
  intros (info & Hi%elem_of_map_to_list & _). apply Hpods in Hi. lia.
Qed.
Lemma cg_range : (0 ≤ cg < 2 ^ 64)%Z.
Proof. pose proof (Hpods _ _ (pf_pod _ _ _ _ _ Hf)). lia. Qed.
Lemma zero_range : (0 ≤ 0 < 2 ^ 64)%Z.
Proof. lia. Qed.

Lemma cidr_matches_v4 c a n :
  snd <$> ParseCIDR c = Some (net4 a n) → length a = 4 → n ≤ 32 →
  cidr_matches (DstIP f) c = bool_decide (take n (bits a) = take n (bits da)).
Proof.
  intros Hc Ha Hn. destruct (pf_addr _ _ _ _ _ Hf) as [Hda H4]. unfold cidr_matches.
  destruct (ParseCIDR c) as [[ip net]|]; simplify_eq/=.
  rewrite bool_decide_true by (by intros E; rewrite E in H4). simpl.
  rewrite <-Contains_net4 by done. unfold Contains. rewrite H4. cbn [default from_option id].
  by rewrite (To4_4 da) by done.
Qed.

Lemma enforced_matches r :
  enforced (r_Match r) = true →
  rule_matches r f = PodSelector_matches (m_Pod (r_Match r)) f &&
    dim (CIDRs (r_Match r)) (cidr_matches (DstIP f)) && dim (Ports (r_Match r)) (λ p, bool_decide (p = Port f)).
Proof.
  unfold enforced. rewrite !andb_true_iff, negb_true_iff, orb_false_iff, !bool_decide_eq_false, bool_decide_eq_true.
  intros [[Hm%dec_stable Hp%dec_stable] Hd]. unfold rule_matches. rewrite Hm, Hp, Hd. simpl.
  by rewrite !andb_true_r.
Qed.

Lemma representable_spec r :
  representable r = true →
  enforced (r_Match r) = true ∧ (CIDRs (r_Match r) = [] → Ports (r_Match r) = []) ∧
  (∀ p, p ∈ Ports (r_Match r) → (0 < p < 65536)%Z) ∧
  (∀ c, c ∈ CIDRs (r_Match r) → ∃ a n, cidr_target c = Some (mask_bytes a (CIDRMask 4 n), n) ∧
     length a = 4 ∧ n ≤ 32 ∧ snd <$> ParseCIDR c = Some (net4 a n) ∧ (Ports (r_Match r) ≠ [] → n = 32)).
Proof.
  unfold representable. rewrite !andb_true_iff, !forallb_true, orb_true_iff, !bool_decide_eq_true.
  intros [[[He Hp] Hc] Hports]. split_and!; [done|naive_solver| |].
  - intros p Hin. by apply Hports, bool_decide_eq_true in Hin.
  - intros c Hin. specialize (Hc c Hin). unfold cidr_representable in Hc.
    destruct (cidr_target c) as [[ip4 n]|] eqn:Et; [|done].
    rewrite andb_true_iff, orb_true_iff, !bool_decide_eq_true in Hc. destruct Hc as [Hn H32].
    destruct (cidr_target_v4 _ _ _ Et Hn) as (a & Ha & -> & Hpc). exists a, n. naive_solver.
Qed.

(** Keys of the default map come from rules without destination and port. *)
Lemma default_key_iff r cg' :
  cg' ∈ default_keys (map_to_list pods) r ↔
  enforced (r_Match r) = true ∧ CIDRs (r_Match r) = [] ∧ Ports (r_Match r) = [] ∧
  cg' ∈ matchCgroups (m_Pod (r_Match r)) (map_to_list pods).
Proof.
  unfold default_keys. destruct (enforced _); simpl; [|split; [intros ?%not_elem_of_nil; done|naive_solver]].
  destruct (bool_decide_reflect (CIDRs (r_Match r) = [])), (bool_decide_reflect (Ports (r_Match r) = [])); simpl;
    (split; [intros Hk; try (by apply not_elem_of_nil in Hk)|]; naive_solver).
Qed.

Lemma verdict_key_hit r k :
  representable r = true → k ∈ verdict_keys (map_to_list pods) r → PV k ∈ probes cg da dp →
  rule_matches r f = true ∧ CIDRs (r_Match r) ≠ [] ∧
  k = vkey (if PodSelector_IsZero (m_Pod (r_Match r)) then 0%Z else cg) da dp.
Proof.
  intros (He & _ & Hports & Hcidrs)%representable_spec. unfold verdict_keys. rewrite He.
  rewrite elem_of_probes. intros (cg' & (c & Hk & Hc)%list_elem_of_bind & Hcg')%list_elem_of_bind Hp.
  destruct (Hcidrs c Hc) as (a & n & Ht & Ha & Hn & Hpc & H32). unfold cidr_vkeys in Hk. rewrite Ht in Hk.
  destruct (decide (n = 32)) as [->|]; [|do 32 (destruct n as [|n]; [by apply not_elem_of_nil in Hk|]); lia].
  apply list_elem_of_fmap in Hk as (port & -> & Hport). specialize (Hports _ Hport).
  assert (∀ k, k ∈ [vkey cg da dp; vkey cg da any_port; vkey 0 da dp; vkey 0 da any_port] →
    (CgroupID k = cg ∨ CgroupID k = 0%Z) ∧ DAddr k = da ∧ (DPort k = dp ∨ DPort k = any_port)) as Hfields.
  { intros k. rewrite !elem_of_cons. intros [->|[->|[->|[->|Hk]]]]; simpl; auto. by apply not_elem_of_nil in Hk. }
  destruct (Hfields _ Hp) as (Hcg & Hda & [Hdp|Hdp]); cbn [CgroupID DAddr DPort vkey] in *; clear Hfields Hp.
  2: { change any_port with (be_put16 0) in Hdp. apply be_put16_inj in Hdp; lia. }
  destruct (pf_port _ _ _ _ _ Hf) as [Hpr Hdp']. rewrite Hdp' in Hdp. apply be_put16_inj in Hdp as ->; [|lia|lia].
  destruct (proj1 (selected_pod (m_Pod (r_Match r)) cg')) as [Hsel ->]; [done|].
  split_and!; [|by eapply elem_of_not_nil|by rewrite Hda, Hdp'].
  rewrite enforced_matches, Hsel by done. simpl. rewrite andb_true_iff. unfold dim. split.
  - apply orb_true_iff. right. apply existsb_exists. exists c. split; [by apply list_elem_of_In|].
    rewrite (cidr_matches_v4 c a 32) by done. apply bool_decide_eq_true.
    rewrite <-Hda, take_bits_masked by (done || lia). done.
  - apply orb_true_iff. right. rewrite existsb_eq_elem_of. by apply bool_decide_eq_true.
Qed.

Lemma cidr_key_hit r p :
  representable r = true → p ∈ omap lpm_prefix (cidr_keys (map_to_list pods) r) → PC p ∈ probes cg da dp →
  rule_matches r f = true ∧ CIDRs (r_Match r) ≠ [] ∧
  p ∈ prefixes (cidr_bits (if PodSelector_IsZero (m_Pod (r_Match r)) then 0%Z else cg) da).
Proof.
  intros (He & _ & _ & Hcidrs)%representable_spec (key & Hkey & Hpre)%list_elem_of_omap.
  unfold cidr_keys in Hkey. rewrite He in Hkey.
  apply list_elem_of_bind in Hkey as (cg' & (c & Hk & Hc)%list_elem_of_bind & Hcg').
  destruct (cidr_ckeys_spec _ _ _ _ _ Hk Hpre) as (a & n & Ha & Hn & Hpc & _ & -> & Hports).
  destruct (pf_addr _ _ _ _ _ Hf) as [Hda _]. pose proof cg_range as Hr. pose proof (matched_range _ _ Hcg') as Hr'.
  pose proof zero_range as Hr0. rewrite elem_of_probes.
  rewrite (elem_of_cidr_prefixes cg), (elem_of_cidr_prefixes 0) by assumption. intros Hp.
  assert ((cg' = cg ∨ cg' = 0%Z) ∧ take n (bits a) = take n (bits da)) as [Hcg Hb] by tauto. clear Hp.
  destruct (proj1 (selected_pod (m_Pod (r_Match r)) cg')) as [Hsel ->]; [done|].
  split_and!; [|by eapply elem_of_not_nil|].
  - rewrite enforced_matches, Hsel, Hports by done. simpl. rewrite andb_true_r. unfold dim.
    apply orb_true_iff. right. apply existsb_exists. exists c. split; [by apply list_elem_of_In|].
    rewrite (cidr_matches_v4 c a n) by done. by apply bool_decide_eq_true.
  - by apply elem_of_cidr_prefixes.
Qed.

Lemma default_key_hit r cg' :
  enforced (r_Match r) = true → cg' ∈ default_keys (map_to_list pods) r → PD cg' ∈ probes cg da dp →
  rule_matches r f = true ∧ CIDRs (r_Match r) = [] ∧
  cg' = (if PodSelector_IsZero (m_Pod (r_Match r)) then 0%Z else cg).
Proof.
  intros He. rewrite default_key_iff, elem_of_probes. intros (_ & Hc & Hp & Hm) Hcg.
  destruct (proj1 (selected_pod (m_Pod (r_Match r)) cg')) as [Hsel ->]; [done|].
  split_and!; [|done|done]. by rewrite enforced_matches, Hsel, Hc, Hp.
Qed.

(** A matching rule has written a key that the datapath will try. *)
Lemma matching_hits r :
  representable r = true → rule_matches r f = true →
  ∃ k, k ∈ probes cg da dp ∧ k ∈ rule_keys (map_to_list pods) r.
Proof.
  intros Hrep. destruct (representable_spec _ Hrep) as (He & Hnil & Hports & Hcidrs).
  rewrite enforced_matches, !andb_true_iff by done. intros [[Hsel Hc] Hp].
  set (cg' := if PodSelector_IsZero (m_Pod (r_Match r)) then 0%Z else cg).
  destruct (proj2 (selected_pod (m_Pod (r_Match r)) cg')) as [Hcg Hm]; [done|].
  pose proof cg_range as Hr. pose proof (matched_range _ _ Hm) as Hr'. pose proof zero_range as Hr0. destruct (pf_addr _ _ _ _ _ Hf) as [Hda _].
  unfold dim in Hc, Hp. rewrite orb_true_iff, bool_decide_eq_true in Hc, Hp.
  destruct Hc as [Hc|(c & Hin%list_elem_of_In & Hcm)%existsb_exists].
  { exists (PD cg'). rewrite elem_of_probes, rule_keys_PD, default_key_iff. split_and!; auto. }
  destruct (Hcidrs c Hin) as (a & n & Ht & Ha & Hn & Hpc & H32).
  rewrite (cidr_matches_v4 c a n), bool_decide_eq_true in Hcm by done.
  destruct Hp as [Hp|Hp].
  - exists (PC (bits (le_put 8 cg') ++ take n (bits a))). split.
    + rewrite elem_of_probes, (elem_of_cidr_prefixes cg), (elem_of_cidr_prefixes 0) by assumption.
      destruct Hcg as [-> | ->]; auto.
    + rewrite rule_keys_PC. apply list_elem_of_omap.
      exists (cidrKeyBytes (64 + n) cg' (mask_bytes a (CIDRMask 4 n))). split.
      * unfold cidr_keys. rewrite He. apply list_elem_of_bind. exists cg'. split; [|done].
        apply list_elem_of_bind. exists c. split; [|done]. unfold cidr_ckeys. rewrite Ht, bool_decide_true by done. left.
      * rewrite cidrKeyBytes_eq by (by apply length_masked).
        rewrite lpm_prefix_eq, take_bits_split by (by rewrite ?length_le_put || lia).
        by rewrite take_bits_masked by (done || lia).
  - rewrite existsb_eq_elem_of, bool_decide_eq_true in Hp.
    assert (n = 32) as -> by (apply H32; by eapply elem_of_not_nil).
    assert (mask_bytes a (CIDRMask 4 32) = da) as Hmask.
    { apply bits_inj. rewrite (bits_masked 4), Hcm by done. rewrite take_ge by (rewrite length_bits; lia).
      apply app_nil_r. }
    destruct (pf_port _ _ _ _ _ Hf) as [_ Hdp].
    exists (PV (vkey cg' da dp)). split.
    + rewrite elem_of_probes. destruct Hcg as [-> | ->]; set_solver.
    + rewrite rule_keys_PV. unfold verdict_keys. rewrite He. apply list_elem_of_bind. exists cg'. split; [|done].
      apply list_elem_of_bind. exists c. split; [|done]. unfold cidr_vkeys. rewrite Ht, Hmask.
      apply list_elem_of_fmap. exists (Port f). split; [by rewrite Hdp|done].
Qed.

Lemma hits_matching r k :
  representable r = true → k ∈ probes cg da dp → k ∈ rule_keys (map_to_list pods) r → rule_matches r f = true.
Proof.
  intros Hrep Hp. destruct k as [k|p|cg'].
  - rewrite rule_keys_PV. intros Hk. by eapply verdict_key_hit.
  - rewrite rule_keys_PC. intros Hk. by eapply cidr_key_hit.
  - rewrite rule_keys_PD. intros Hk. eapply default_key_hit; [|done|done]. by apply representable_spec.
Qed.
End hits.

(** ** Most specific first against first match *)
Section swap.
Context {P R A : Type} (w : P → R → bool) (act : R → A).

(** A rule that precedes another with a different action, when both apply,
    applies at a probe at least as specific as every probe of the other. *)
Definition specific_first (ps : list P) (rs : list R) : Prop :=
  ∀ l1 r1 l2 r2 l3 p1 k p2,
    rs = l1 ++ r1 :: l2 ++ r2 :: l3 → ps = p1 ++ k :: p2 → act r1 ≠ act r2 →
    existsb (λ k, w k r1) ps = true → w k r2 = true → existsb (λ k, w k r1) (p1 ++ [k]) = true.

Lemma first_swap (ps : list P) (rs : list R) `{EqDecision A} :
  specific_first ps rs →
  first (λ k, first (λ r, if w k r then Some (act r) else None) rs) ps =
  first (λ r, if existsb (λ k, w k r) ps then Some (act r) else None) rs.
Proof.
  intros Hs. destruct (first (λ r, if existsb _ ps then _ else _) rs) as [a|] eqn:E.
  - apply first_Some in E as (l1 & r1 & l2 & -> & Hr1 & Hl1).
    destruct (existsb (λ k, w k r1) ps) eqn:Eh; simplify_eq.
    assert (∀ r k, r ∈ l1 → k ∈ ps → w k r = false) as Hnone.
    { intros r k Hr Hk. specialize (Hl1 r Hr). destruct (existsb (λ k, w k r) ps) eqn:Er; [done|].
      apply not_true_iff_false. intros Hw. apply not_true_iff_false in Er. apply Er, existsb_exists.
      exists k. split; [by apply list_elem_of_In|done]. }
    destruct (first _ ps) as [a|] eqn:Ep.
    + apply first_Some in Ep as (p1 & k & p2 & -> & Hk & Hp1).
      apply first_Some in Hk as (m1 & r2 & m2 & Hrs & Hr2 & Hm1).
      destruct (w k r2) eqn:Ew; simplify_eq. f_equal.
      destruct (decide (act r1 = act r2)) as [|Hne]; [done|]. exfalso.
      assert (∃ l, m1 = l1 ++ r1 :: l) as [l ->].
      { apply app_eq_inv in Hrs as [(m & -> & Hm)|(m & -> & Hm)].
        - destruct m as [|r m]; simplify_eq/=. rewrite Hnone in Ew; [done|set_solver|set_solver].
        - destruct m as [|r m]; simplify_eq/=. eauto. }
      rewrite <-(assoc_L (++)) in Hrs. simplify_eq/=.
      assert (existsb (λ k, w k r1) (p1 ++ [k]) = true) as Hex by (eapply Hs; by eauto).
      apply existsb_exists in Hex as (k' & [Hk'|[->|[]]]%in_app_or & Hw).
      * specialize (Hp1 k' (proj2 (list_elem_of_In _ _) Hk')). rewrite first_None in Hp1.
        specialize (Hp1 r1 ltac:(set_solver)). by rewrite Hw in Hp1.
      * specialize (Hm1 r1 ltac:(set_solver)). by rewrite Hw in Hm1.
    + apply existsb_exists in Eh as (k & Hk%list_elem_of_In & Hw). rewrite first_None in Ep.
      specialize (Ep k Hk). rewrite first_None in Ep. specialize (Ep r1 ltac:(set_solver)). by rewrite Hw in Ep.
  - apply first_None. intros k Hk. apply first_None. intros r Hr. rewrite first_None in E. specialize (E r Hr).
    destruct (w k r) eqn:Ew; [|done]. rewrite (proj2 (existsb_exists _ _)) in E; [done|].
    exists k. split; [by apply list_elem_of_In|done].
Qed.
End swap.

Definition writes (pods : gmap Z PodInfo) (k : probe) (r : Rule) : bool :=
  bool_decide (k ∈ rule_keys (map_to_list pods) r).
Definition rule_act (r : Rule) : Z := actionByte (r_Action r).

Section agree.
Context `{UnicodeCase} (pods : gmap Z PodInfo) (pol : Policy) (cg : Z) (da dp : bytes) (f : Flow).
Context (Hpods : good_pods pods) (Hf : packet_flow pods cg da dp f).
Context (Hrep : Forall (λ r, representable r = true) (Rules pol)).

Lemma desired_probes :
  first (desired (map_to_list pods) pol) (probes cg da dp) =
  Some (default (actionByte (defaultActionOf pol))
    (first (λ k, first (λ r, if writes pods k r then Some (rule_act r) else None) (Rules pol)) (probes cg da dp))).
Proof.
  pose proof (Hpods _ _ (pf_pod _ _ _ _ _ Hf)) as Hcg.
  assert (∃ front, probes cg da dp = front ++ [PD 0] ∧ ∀ k, k ∈ front → k ≠ PD 0) as (front & -> & Hfront).
  { apply probes_last. lia. }
  rewrite !first_app. simpl.
  rewrite (first_ext (desired (map_to_list pods) pol)
    (λ k, first (λ r, if writes pods k r then Some (rule_act r) else None) (Rules pol)) front).
  - destruct (first _ front); simpl; [done|]. unfold desired at 1. rewrite (bool_decide_true (PD 0 = PD 0)) by done.
    change (first (rule_writes (map_to_list pods) (PD 0)) (Rules pol))
      with (first (λ r, if writes pods (PD 0) r then Some (rule_act r) else None) (Rules pol)).
    destruct (first _ (Rules pol)); done.
  - intros k Hk%Hfront. unfold desired. rewrite bool_decide_false by done.
    change (first (rule_writes (map_to_list pods) k) (Rules pol))
      with (first (λ r, if writes pods k r then Some (rule_act r) else None) (Rules pol)).
    by destruct (first _ (Rules pol)).
Qed.

Lemma existsb_writes r : r ∈ Rules pol → existsb (λ k, writes pods k r) (probes cg da dp) = rule_matches r f.
Proof.
  intros Hr. rewrite Forall_forall in Hrep. specialize (Hrep r Hr).
  apply eq_bool_prop_intro. rewrite !Is_true_true, existsb_exists. unfold writes. split.
  - intros (k & Hk%list_elem_of_In & Hw%bool_decide_eq_true). by eapply hits_matching.
  - intros Hm. destruct (matching_hits pods cg da dp f Hpods Hf r Hrep Hm) as (k & Hk & Hw).
    exists k. split; [by apply list_elem_of_In|by apply bool_decide_eq_true].
Qed.

Lemma desired_engine :
  specific_first (writes pods) rule_act (probes cg da dp) (Rules pol) →
  first (desired (map_to_list pods) pol) (probes cg da dp) = Some (actionByte (v_Action (policy_verdict pol f))).
Proof.
  intros Hs. rewrite desired_probes, (first_swap (writes pods) rule_act _ _ Hs). f_equal.
  rewrite (first_ext _ (λ r, if rule_matches r f then Some (rule_act r) else None))
    by (intros r Hr; by rewrite existsb_writes).
  clear Hs Hrep. unfold policy_verdict, rule_decides. induction (Rules pol) as [|r rs IH]; simpl.
  - unfold defaultActionOf, EffectiveDefault. by destruct (bool_decide_reflect (DefaultAction pol = "")) as [->|].
  - destruct (rule_matches r f); simpl; [done|]. apply IH.
Qed.
End agree.

(** ** The datapath after programming *)
(** The LRU map still holds the entries the packet's lookups want. *)
Definition not_evicted `{Kernel} (p : programmer) (pods : list (Z * PodInfo)) (pol : Policy) (cg : Z) (da dp : bytes) : Prop :=
  ∀ k, PV k ∈ probes cg da dp → is_Some (desired pods pol (PV k)) → is_Some (lookup_probe (maps p) (PV k)).

(** Nothing foreign at the lookups of a packet. *)
Definition owned_at `{Kernel} (p : programmer) (cg : Z) (da dp : bytes) : Prop :=
  ∀ k, k ∈ probes cg da dp → is_Some (lookup_probe (maps p) k) → k = PD 0 ∨ stale p k = true.
Lemma owned_owned_at `{Kernel} p cg da dp : owned p → owned_at p cg da dp.
Proof. intros Hp k _. apply Hp. Qed.
(** A verdict map with room for the keys there are and those of the policy has. *)
Lemma fits_not_evicted `{Kernel} p pods eng order cg da dp :
  (∀ i, order i ≡ₚ pods) → prog_inv p → room p pods (e_policy eng) → owned_at p cg da dp →
  verdicts_fit (verdict_domain p pods (e_policy eng)) →
  not_evicted (apply p eng order) pods (e_policy eng) cg da dp.
Proof. intros Ho Hinv Hroom Hown Hfit k Hk Hd. by rewrite (apply_owned_exact p pods) by (auto; apply Hown, Hk). Qed.
Lemma verdict_for_desired `{Kernel} p pods eng order cg da dp :
  (∀ i, order i ≡ₚ pods) → prog_inv p → owned_at p cg da dp → room p pods (e_policy eng) →
  not_evicted (apply p eng order) pods (e_policy eng) cg da dp →
  verdict_for (maps (apply p eng order)) cg da dp =
    default ACTION_ALLOW (first (desired pods (e_policy eng)) (probes cg da dp)).
Proof.
  intros Ho Hinv Hown Hroom Hev. rewrite verdict_for_probes. f_equal. apply first_ext. intros k Hk.
  pose proof (apply_owned_key p pods eng order k Ho Hinv Hroom (Hown k Hk)) as Hl.
  destruct k as [k|q|c]; [|done..].
  destruct (lookup_probe _ (PV k)) as [v|] eqn:E; [symmetry; by apply Hl|].
  destruct (desired pods (e_policy eng) (PV k)) eqn:Ed; [|done].
  destruct (Hev k Hk) as [? ?]; [by rewrite Ed|congruence].
Qed.

Lemma verdict_for_engine `{UnicodeCase} `{Kernel} p pods pol eng order cg da dp f :
  NewEngine (Some pol) = Ok eng → (∀ i, order i ≡ₚ map_to_list pods) →
  prog_inv p → owned_at p cg da dp → room p (map_to_list pods) pol →
  not_evicted (apply p eng order) (map_to_list pods) pol cg da dp →
  good_pods pods → packet_flow pods cg da dp f → Forall (λ r, representable r = true) (Rules pol) →
  specific_first (writes pods) rule_act (probes cg da dp) (Rules pol) →
  verdict_for (maps (apply p eng order)) cg da dp = actionByte (v_Action (Evaluate eng f)).
Proof.
  intros Heng Ho Hinv Hown Hroom Hev Hpods Hf Hrep Hs. pose proof (NewEngine_ok _ _ Heng) as (Hp & _).
  rewrite (verdict_for_desired p (map_to_list pods)) by (rewrite ?Hp; done).
  rewrite Hp, (desired_engine pods pol cg da dp f Hpods Hf Hrep Hs). simpl.
  by rewrite (Evaluate_policy_verdict _ _ _ Heng).
Qed.

(** *** Layered policies are ordered by specificity *)
(** Destination rules first, all of one action; then pod-only rules, the ones
    for all pods last.  This is the shape of an aggregated deny list (or allow
    list) with its default-deny postures. *)
Definition destination_rule (a : Z) (r : Rule) : Prop := CIDRs (r_Match r) ≠ [] ∧ rule_act r = a.
Definition pod_rule (zero : bool) (r : Rule) : Prop :=
  CIDRs (r_Match r) = [] ∧ PodSelector_IsZero (m_Pod (r_Match r)) = zero.
Definition layered (rs : list Rule) : Prop :=
  ∃ a ds ps zs, rs = ds ++ ps ++ zs ∧ Forall (destination_rule a) ds ∧ Forall (pod_rule false) ps ∧ Forall (pod_rule true) zs.

(** In a layered list, what follows a destination rule with another action is
    no destination rule, and what follows a rule for all pods is one too. *)
Lemma layered_destinations l1 r1 l2 r2 l3 :
  layered (l1 ++ r1 :: l2 ++ r2 :: l3) → rule_act r1 ≠ rule_act r2 → CIDRs (r_Match r2) ≠ [] → False.
Proof.
  intros (a & ds & ps & zs & Hrs & Hds & Hps & Hzs) Hact Hc. rewrite Forall_forall in Hds, Hps, Hzs.
  change (r1 :: l2 ++ r2 :: l3) with ((r1 :: l2) ++ r2 :: l3) in Hrs. rewrite (assoc_L (++)) in Hrs.
  apply app_eq_inv in Hrs as [(m & E & Hm)|(m & -> & Hm)].
  - assert (r2 ∈ ps ++ zs) as [Hr|Hr]%elem_of_app by (rewrite Hm; set_solver);
      [by apply Hps in Hr as [? _]|by apply Hzs in Hr as [? _]].
  - destruct m as [|x m]; simplify_eq/=.
    + assert (r2 ∈ ps ++ zs) as [Hr|Hr]%elem_of_app by (rewrite <-Hm; set_solver);
      [by apply Hps in Hr as [? _]|by apply Hzs in Hr as [? _]].
    + apply Hact. destruct (Hds r1) as [_ ->]; [set_solver|]. by destruct (Hds x) as [_ ->]; [set_solver|].
Qed.
Lemma layered_zero l1 r1 l2 r2 l3 :
  layered (l1 ++ r1 :: l2 ++ r2 :: l3) → CIDRs (r_Match r1) = [] → PodSelector_IsZero (m_Pod (r_Match r1)) = true →
  PodSelector_IsZero (m_Pod (r_Match r2)) = true.
Proof.
  intros (a & ds & ps & zs & Hrs & Hds & Hps & Hzs) Hc Hz. rewrite Forall_forall in Hds, Hps, Hzs.
  rewrite (assoc_L (++) ds) in Hrs.
  assert (r1 ∉ ds ++ ps) as Hn.
  { rewrite elem_of_app. intros [[? _]%Hds|[_ ?]%Hps]; [done|congruence]. }
  assert (r2 ∈ zs) as Hr; [|by apply Hzs in Hr as [_ ?]].
  apply app_eq_inv in Hrs as [(m & E & ->)|(m & E & Hm)]; [set_solver|].
  destruct m as [|x m]; simplify_eq/=; [set_solver|]. rewrite E in Hn. set_solver.
Qed.

Section layered.
Context `{UnicodeCase} (pods : gmap Z PodInfo) (cg : Z) (da dp : bytes) (f : Flow).
Context (Hpods : good_pods pods) (Hf : packet_flow pods cg da dp f).

(** The kind of probe a rule hits. *)
Lemma writes_kind k r :
  representable r = true → k ∈ probes cg da dp → writes pods k r = true →
  match k with
  | PD c => CIDRs (r_Match r) = [] ∧ c = (if PodSelector_IsZero (m_Pod (r_Match r)) then 0%Z else cg)
  | _ => CIDRs (r_Match r) ≠ []
  end.
Proof.
  intros Hrep Hk Hw%bool_decide_eq_true. destruct k as [k|q|c].
  - rewrite rule_keys_PV in Hw. by eapply verdict_key_hit.
  - rewrite rule_keys_PC in Hw. by eapply cidr_key_hit.
  - rewrite rule_keys_PD in Hw. eapply default_key_hit; [done|done| |done|done]. by apply representable_spec.
Qed.

(** A non-default probe comes before every default probe. *)
Lemma probes_order p1 c p2 k :
  probes cg da dp = p1 ++ PD c :: p2 → k ∈ probes cg da dp → (∀ c', k ≠ PD c') → k ∈ p1.
Proof.
  intros Heq Hk Hne. unfold probes in *. rewrite !(assoc_L (++)) in Heq, Hk.
  set (front := ([_; _; _; _] ++ (PC <$> _)) ++ (PC <$> _)) in *.
  assert (k ∈ front) as Hin.
  { apply elem_of_app in Hk as [|Hk]; [done|]. rewrite !elem_of_cons in Hk.
    destruct Hk as [->|[->|Hk]]; [by destruct (Hne cg)|by destruct (Hne 0%Z)|by apply not_elem_of_nil in Hk]. }
  assert (∀ c, PD c ∉ front) as Hnf.
  { intros c'. unfold front. rewrite !elem_of_app, !list_elem_of_fmap, !elem_of_cons.
    intros [[[|[|[|[|?]]]]|(? & ? & _)]|(? & ? & _)]; try done. by eapply not_elem_of_nil. }
  clearbody front. apply app_eq_inv in Heq as [(m & -> & Hm)|(m & -> & Hm)].
  - destruct m as [|x m]; [by rewrite app_nil_r in Hin|]. simplify_eq/=.
    exfalso. apply (Hnf c). set_solver.
  - set_solver.
Qed.
Lemma probes_cg p1 p2 : cg ≠ 0%Z → probes cg da dp = p1 ++ PD 0 :: p2 → PD cg ∈ p1.
Proof.
  intros Hcg Heq. destruct (probes_last cg da dp Hcg) as (front & Hp & Hfront).
  assert (p1 = front) as ->.
  { rewrite Hp in Heq. apply app_eq_inv in Heq as [(m & -> & Hm)|(m & -> & Hm)].
    - destruct m as [|x m]; [by rewrite app_nil_r|]. simplify_eq/=. exfalso. apply (Hfront (PD 0)); set_solver.
    - destruct m as [|x [|y m]]; simplify_eq/=. by rewrite app_nil_r. }
  assert (PD cg ∈ probes cg da dp) as Hin by (apply elem_of_probes; by left).
  rewrite Hp in Hin. apply elem_of_app in Hin as [|Hin%list_elem_of_singleton]; [done|congruence].
Qed.

Lemma layered_specific_first rs :
  Forall (λ r, representable r = true) rs → layered rs →
  specific_first (writes pods) rule_act (probes cg da dp) rs.
Proof.
  intros Hrep Hlay l1 r1 l2 r2 l3 p1 k p2 E Hp Hact Hex Hw2. subst rs. rewrite Forall_forall in Hrep.
  specialize (Hrep r1 ltac:(set_solver)) as Hr1. specialize (Hrep r2 ltac:(set_solver)) as Hr2.
  assert (k ∈ probes cg da dp) as Hk by (rewrite Hp, elem_of_app, elem_of_cons; auto).
  pose proof (writes_kind k r2 Hr2 Hk Hw2) as K2.
  apply existsb_exists in Hex as (k1 & Hk1%list_elem_of_In & Hw1).
  pose proof (writes_kind k1 r1 Hr1 Hk1 Hw1) as K1.
  pose proof (Hpods _ _ (pf_pod _ _ _ _ _ Hf)) as Hcg.
  assert (k1 = k ∨ k1 ∈ p1) as Hpos.
  { destruct (decide (CIDRs (r_Match r2) = [])) as [Hc2|Hc2]; [|exfalso; by apply (layered_destinations l1 r1 l2 r2 l3)].
    destruct k as [?|?|c]; [done|done|]. destruct K2 as [_ ->].
    destruct k1 as [k1|q1|c1]; [right; by eapply probes_order|right; by eapply probes_order|].
    destruct K1 as [Hc1 ->]. destruct (PodSelector_IsZero (m_Pod (r_Match r1))) eqn:Ez1.
    - left. by rewrite (layered_zero l1 r1 l2 r2 l3).
    - destruct (PodSelector_IsZero (m_Pod (r_Match r2))); [|by left]. right. eapply probes_cg; [lia|done]. }
  apply existsb_exists. exists k1. split; [|done].
  apply in_or_app. destruct Hpos as [->|?]; [right; by left|left; by apply list_elem_of_In].
Qed.
End layered.

(** *** Aggregated policies *)
Definition explicit_ok (a : Z) (r : Rule) : Prop :=
  representable r = true ∧ destination_rule a r.
Definition policy_explicit (a : Z) (p : option Policy) : Prop := from_option (λ p, Forall (explicit_ok a) (Rules p)) True p.

Lemma representable_with_pod r ps : representable (with_pod r ps) = representable r.
Proof. done. Qed.
Lemma explicit_foldRule a r s ns : explicit_ok a r → explicit_ok a (foldRule r s ns).
Proof. intros Hr. unfold foldRule, scope_rule. by case_bool_decide. Qed.
Lemma subjectCatchAll_rule name s ns :
  ns ≠ "" ∨ LabelSelector_Empty s = false →
  representable (subjectCatchAll name s ns) = true ∧ pod_rule false (subjectCatchAll name s ns).
Proof.
  intros Hne. split; [done|]. split; [done|]. unfold subjectCatchAll, with_pod. cbn [r_Match m_Pod].
  rewrite foldInto_eq. apply not_true_iff_false. rewrite IsZero_spec. unfold PodSelector_zero. intros [= E1 E2 E3].
  destruct Hne as [?|He]; [done|]. destruct s as [s|]; [|done]. simpl in *.
  rewrite (right_id_L ∅ (∪)) in E2. by rewrite E2, E3 in He.
Qed.

Lemma aggregate_layered a cl ns :
  Forall (λ c, policy_explicit a (cp_Policy c)) cl → Forall (λ n, policy_explicit a (np_Policy n)) ns →
  Forall (λ n, np_Namespace n ≠ "") ns →
  Forall (λ r, representable r = true) (Rules (aggregate_sorted cl ns)) ∧ layered (Rules (aggregate_sorted cl ns)).
Proof.
  rewrite !Forall_forall. intros Hcl Hns Hne. rewrite aggregate_sorted_eq. cbn [Rules].
  assert (Forall (explicit_ok a) ((cl ≫= cluster_rules) ++ (ns ≫= ns_rules))) as Hex.
  { apply Forall_app. rewrite !Forall_forall. split; intros r (x & Hr & Hx)%list_elem_of_bind.
    - specialize (Hcl x Hx). unfold cluster_rules in Hr. destruct (cp_Policy x) as [q|]; [|by apply not_elem_of_nil in Hr].
      apply list_elem_of_fmap in Hr as (r' & -> & Hr'). simpl in Hcl. rewrite Forall_forall in Hcl.
      by apply explicit_foldRule, Hcl.
    - specialize (Hns x Hx). unfold ns_rules in Hr. destruct (np_Policy x) as [q|]; [|by apply not_elem_of_nil in Hr].
      apply list_elem_of_fmap in Hr as (r' & -> & Hr'). simpl in Hns. rewrite Forall_forall in Hns.
      by apply explicit_foldRule, Hns. }
  assert (Forall (λ r, representable r = true ∧ pod_rule false r) ((cl ≫= cluster_catch) ++ (ns ≫= ns_catch))) as Hcatch.
  { apply Forall_app. rewrite !Forall_forall. split; intros r (x & Hr & Hx)%list_elem_of_bind.
    - unfold cluster_catch in Hr. destruct (cp_Policy x) as [q|]; [|by apply not_elem_of_nil in Hr].
      destruct (denies q && _) eqn:E; [|by apply not_elem_of_nil in Hr]. apply list_elem_of_singleton in Hr as ->.
      apply subjectCatchAll_rule. right. apply andb_true_iff in E as [_ E]. by apply negb_true_iff.
    - unfold ns_catch in Hr. destruct (np_Policy x) as [q|]; [|by apply not_elem_of_nil in Hr].
      destruct (denies q) eqn:E; [|by apply not_elem_of_nil in Hr]. apply list_elem_of_singleton in Hr as ->.
      apply subjectCatchAll_rule. left. by apply Hne. }
  rewrite (assoc_L (++)). split.
  - rewrite <-Forall_forall, Forall_app. split; [eapply Forall_impl; [exact Hex|]|eapply Forall_impl; [exact Hcatch|]]; by intros r [? ?].
  - exists a, ((cl ≫= cluster_rules) ++ (ns ≫= ns_rules)), ((cl ≫= cluster_catch) ++ (ns ≫= ns_catch)), [].
    rewrite app_nil_r. split_and!; [done| | |constructor];
      [eapply Forall_impl; [exact Hex|]|eapply Forall_impl; [exact Hcatch|]]; by intros r [? ?].
Qed.

(** ** Theorems *)
Definition ex_pods : gmap Z PodInfo :=
  {[7%Z := {| Namespace := "b"; Name := "web-0"; pi_UID := "u1"; Container := ""; pi_QoS := ""; Node := "n"; Labels := {["app" := "web"]} |}]}.
Definition ex_info : PodInfo := default PodInfo_zero (ex_pods !! 7%Z).
Definition ex_order : nat → list (Z * PodInfo) := λ _, map_to_list ex_pods.
Definition packet (dst : string) (port : Z) : Flow :=
  {| f_Pod := ex_info; f_Labels := Labels ex_info; DstIP := ParseIP dst; Port := port; Domain := ""; Method := ""; Path := "" |}.
Lemma ex_good_pods : good_pods ex_pods.
Proof. intros cg info. unfold ex_pods. rewrite lookup_singleton_Some. intros [<- _]. lia. Qed.

(** A deny list with a default-deny for app=web, and the engine built from it. *)
Definition ex_deny : Policy :=
  {| p_PodSelector := None; DefaultAction := "";
     Rules := [ex_rule "range" (ex_match ["203.0.113.0/24"] []) ActionDeny;
               ex_rule "host" (ex_match ["198.51.100.7/32"] [443%Z]) ActionDeny] |}.
Definition engine_of (p : Policy) : engine :=
  match NewEngine (H := ascii_case) (Some p) with Ok e => e | _ => {| e_policy := p; e_rules := []; e_def := "" |} end.
Definition programmed (p : Policy) : @programmer linux := apply (H := linux) fresh (engine_of p) ex_order.

(** Decision procedures for the side conditions, on a concrete kernel. *)
Lemma ex_packet_flow dst port da :
  To4 (ParseIP dst) = Some da → length da = 4 → (0 < port < 65536)%Z →
  packet_flow ex_pods 7 da (be_put16 port) (packet dst port).
Proof. intros H4 Hl Hp. split; try done. Qed.
Definition room_b (p : @programmer linux) (pods : list (Z * PodInfo)) (pol : Policy) : bool :=
  bool_decide (size (default_domain (H := linux) p pods pol) < 4096) && bool_decide (size (cidr_domain (H := linux) p pods pol) < 16384).
Lemma room_b_spec p pods pol : room_b p pods pol = true → room (H := linux) p pods pol.
Proof. unfold room_b, room. by rewrite andb_true_iff, !bool_decide_eq_true. Qed.
Definition kept_b (p : @programmer linux) (pods : list (Z * PodInfo)) (pol : Policy) (cg : Z) (da dp : bytes) : bool :=
  forallb (λ k, negb (bool_decide (is_Some (desired pods pol (PV k)))) || bool_decide (is_Some (lookup_probe (H := linux) (maps p) (PV k))))
    [vkey cg da dp; vkey cg da any_port; vkey 0 da dp; vkey 0 da any_port].
Lemma kept_b_spec p pods pol cg da dp :
  kept_b p pods pol cg da dp = true → not_evicted (H := linux) p pods pol cg da dp.
Proof.
  unfold kept_b, not_evicted. rewrite forallb_true. intros Hb k Hk%elem_of_probes Hs.
  specialize (Hb k Hk). by rewrite (bool_decide_true (is_Some (desired _ _ _))), orb_false_l, bool_decide_eq_true in Hb.
Qed.

(** The contents left by the deny list, in the witness's maps. *)
Lemma apply_contents_witness :
  (lookup_probe (H := linux) (maps (programmed ex_deny)) (PD 0) = target (H := linux) fresh (map_to_list ex_pods) ex_deny (PD 0) ∧
   prog_inv (H := linux) (programmed ex_deny) ∧ Cfg (maps (programmed ex_deny)) = Cfg (maps fresh)) ∧
  lookup_probe (H := linux) (maps (programmed ex_deny)) (PD 0) = Some actAllow.
Proof.
  split.
  - apply (apply_contents (H := linux) fresh (map_to_list ex_pods) (engine_of ex_deny) ex_order (PD 0)); [done|apply fresh_inv|].
    apply room_b_spec. by vm_compute.
  - by vm_compute.
Defined.

(** C1: in-kernel enforcement is the policy, for rules ordered by specificity:
    when every rule is representable in the maps and each earlier rule that
    conflicts with a later one applies to the packet at an entry at least as
    specific, the datapath's most-specific-first lookup returns, for every packet
    of a known pod, the action byte of the engine's first-match verdict.  On the
    maps it assumes that every entry before is recorded as the programmer's, that the
    CIDR and default maps have room, and that the LRU verdict map still holds the
    policy's entries the lookup asks for ([fits_not_evicted]: it does when the kernel
    keeps as many keys as there are). *)
Theorem kernel_agrees_with_engine `{UnicodeCase} `{Kernel} p pods pol eng order cg da dp f :
  NewEngine (Some pol) = Ok eng → (∀ i, order i ≡ₚ map_to_list pods) →
  prog_inv p → owned p → room p (map_to_list pods) pol →
  not_evicted (apply p eng order) (map_to_list pods) pol cg da dp →
  good_pods pods → packet_flow pods cg da dp f → Forall (λ r, representable r = true) (Rules pol) →
  specific_first (writes pods) rule_act (probes cg da dp) (Rules pol) →
  verdict_for (maps (apply p eng order)) cg da dp = actionByte (v_Action (Evaluate eng f)).
Proof. intros. apply (verdict_for_engine p pods pol); auto using owned_owned_at. Qed.
Lemma kernel_agrees_with_engine_witness :
  verdict_for (H := linux) (maps (programmed ex_deny)) 7 [xc6; x33; x64; x07] (be_put16 443) =
  actionByte (v_Action (Evaluate (H := ascii_case) (engine_of ex_deny) (packet "198.51.100.7" 443))).
Proof.
  assert (Forall (λ r, representable r = true) (Rules ex_deny)) as Hr.
  { apply Forall_cons; split; [by vm_compute|]. apply Forall_singleton. by vm_compute. }
  assert (packet_flow ex_pods 7 [xc6; x33; x64; x07] (be_put16 443) (packet "198.51.100.7" 443)) as Hp.
  { apply ex_packet_flow; [by vm_compute|done|lia]. }
  apply (kernel_agrees_with_engine (H := ascii_case) (H0 := linux) fresh ex_pods ex_deny (engine_of ex_deny) ex_order).
  - by vm_compute.
  - done.
  - apply fresh_inv.
  - apply fresh_owned.
  - apply room_b_spec. by vm_compute.
  - apply kept_b_spec. by vm_compute.
  - apply ex_good_pods.
  - exact Hp.
  - exact Hr.
  - apply (layered_specific_first (H := ascii_case) ex_pods 7 _ _ (packet "198.51.100.7" 443) ex_good_pods Hp _ Hr).
    exists actDeny, (Rules ex_deny), [], []. split_and!; [done| |constructor|constructor].
    apply Forall_cons; split; [done|]. by apply Forall_singleton.
Defined.
Example ex_deny_datapath :
  (λ '(da, port), verdict_for (H := linux) (maps (programmed ex_deny)) 7 da (be_put16 port)) <$>
    [([xcb; x00; x71; x09], 80%Z); ([xc6; x33; x64; x07], 443%Z); ([xc6; x33; x64; x07], 80%Z); ([x08; x08; x08; x08], 443%Z)]
  = [actDeny; actDeny; actAllow; actAllow].
Proof. by vm_compute. Qed.

(** The entries wanted for the aggregate decide as the policies. *)
Lemma aggregate_desired `{UnicodeCase} a cl ns pods cg da dp f :
  Forall cluster_ok cl → Forall ns_ok ns →
  Forall (λ c, policy_explicit a (cp_Policy c)) cl → Forall (λ n, policy_explicit a (np_Policy n)) ns →
  good_pods pods → packet_flow pods cg da dp f →
  first (desired (map_to_list pods) (Aggregate cl ns)) (probes cg da dp) =
    Some (actionByte (v_Action (agg_verdict (sort_slice cluster_less cl) (sort_slice ns_less ns) f))).
Proof.
  intros Hcl Hns Hec Hen Hpods Hf. destruct (aggregate_layered a (sort_slice cluster_less cl) (sort_slice ns_less ns)) as [Hrep Hlay].
  - by rewrite sort_slice_perm.
  - by rewrite sort_slice_perm.
  - rewrite sort_slice_perm. eapply Forall_impl; [exact Hns|]. by intros n [? _].
  - rewrite (desired_engine pods (Aggregate cl ns) cg da dp f Hpods Hf Hrep); [|by apply (layered_specific_first pods cg da dp f)].
    unfold Aggregate. rewrite aggregate_sorted_spec; [done| |]; by rewrite sort_slice_perm.
Qed.
Lemma aggregate_enforced `{UnicodeCase} `{Kernel} a cl ns p pods eng order cg da dp f :
  Forall cluster_ok cl → Forall ns_ok ns →
  Forall (λ c, policy_explicit a (cp_Policy c)) cl → Forall (λ n, policy_explicit a (np_Policy n)) ns →
  NewEngine (Some (Aggregate cl ns)) = Ok eng → (∀ i, order i ≡ₚ map_to_list pods) →
  prog_inv p → owned p → room p (map_to_list pods) (Aggregate cl ns) →
  not_evicted (apply p eng order) (map_to_list pods) (Aggregate cl ns) cg da dp →
  good_pods pods → packet_flow pods cg da dp f →
  verdict_for (maps (apply p eng order)) cg da dp =
    actionByte (v_Action (agg_verdict (sort_slice cluster_less cl) (sort_slice ns_less ns) f)).
Proof.
  intros Hcl Hns Hec Hen Heng Ho Hinv Hown Hroom Hev Hpods Hf. pose proof (NewEngine_ok _ _ Heng) as (Hp & _).
  rewrite (verdict_for_desired p (map_to_list pods)); rewrite ?Hp; try done; [|by apply owned_owned_at].
  by rewrite (aggregate_desired a cl ns pods cg da dp f).
Qed.

(** End to end: when the explicit rules of all policies are destination
    rules with one action (a deny list, or an allow list under default-deny
    postures), programming the aggregate of the cluster and namespaced policies
    makes the kernel return, for every packet of a known pod, exactly the
    decision read off the original policies: explicit rules first, then the
    default-deny postures of the policies governing the pod, then the node-wide
    posture. *)
Theorem kernel_enforces_policies `{UnicodeCase} `{Kernel} a cl ns p pods eng order cg da dp f :
  Forall cluster_ok cl → Forall ns_ok ns →
  Forall (λ c, policy_explicit a (cp_Policy c)) cl → Forall (λ n, policy_explicit a (np_Policy n)) ns →
  NewEngine (Some (Aggregate cl ns)) = Ok eng → (∀ i, order i ≡ₚ map_to_list pods) →
  prog_inv p → owned p → room p (map_to_list pods) (Aggregate cl ns) →
  not_evicted (apply p eng order) (map_to_list pods) (Aggregate cl ns) cg da dp →
  good_pods pods → packet_flow pods cg da dp f →
  verdict_for (maps (apply p eng order)) cg da dp =
    actionByte (v_Action (agg_verdict (sort_slice cluster_less cl) (sort_slice ns_less ns) f)).
Proof. apply aggregate_enforced. Qed.
Definition ex_agg : Policy := Aggregate [ex_admin; ex_web] [ex_tenant "b" ActionDeny].
Lemma kernel_enforces_policies_witness :
  verdict_for (H := linux) (maps (programmed ex_agg)) 7 [xcb; x00; x71; x09] (be_put16 80) =
  actionByte (v_Action (agg_verdict (H := ascii_case) (sort_slice cluster_less [ex_admin; ex_web])
    (sort_slice ns_less [ex_tenant "b" ActionDeny]) (packet "203.0.113.9" 80))).
Proof.
  apply (kernel_enforces_policies (H := ascii_case) (H0 := linux) actDeny [ex_admin; ex_web] [ex_tenant "b" ActionDeny]
    fresh ex_pods (engine_of ex_agg) ex_order).
  - apply ex_cluster_ok.
  - apply Forall_singleton, ex_ns_ok; [done|by right].
  - apply Forall_cons; split; [|apply Forall_singleton]; simpl; [apply Forall_singleton; split; [by vm_compute|done]|constructor].
  - apply Forall_singleton. simpl. apply Forall_singleton. split; [by vm_compute|done].
  - by vm_compute.
  - done.
  - apply fresh_inv.
  - apply fresh_owned.
  - apply room_b_spec. by vm_compute.
  - apply kept_b_spec. by vm_compute.
  - apply ex_good_pods.
  - apply ex_packet_flow; [by vm_compute|done|lia].
Defined.

(** ** Reprogramming *)
(** A sequence of runs, each with the policy and the pods of the moment. *)
Record round := { rd_eng : engine; rd_pods : list (Z * PodInfo); rd_order : nat → list (Z * PodInfo) }.
Definition apply_rounds `{Kernel} (p : programmer) (rds : list round) : programmer :=
  foldl (λ p rd, apply p (rd_eng rd) (rd_order rd)) p rds.
Fixpoint rounds_ok `{Kernel} (p : programmer) (rds : list round) : Prop :=
  match rds with
  | [] => True
  | rd :: rds => (∀ i, rd_order rd i ≡ₚ rd_pods rd) ∧ room p (rd_pods rd) (e_policy (rd_eng rd)) ∧
                 rounds_ok (apply p (rd_eng rd) (rd_order rd)) rds
  end.
Lemma rounds_inv `{Kernel} p rds :
  prog_inv p → owned p → rounds_ok p rds → prog_inv (apply_rounds p rds) ∧ owned (apply_rounds p rds).
Proof.
  revert p. induction rds as [|rd rds IH]; intros p Hinv Hown; [done|]. intros (Ho & Hr & Hok).
  apply IH; [apply apply_inv|by eapply apply_owned|done].
Qed.
Lemma rounds_ok_app `{Kernel} p rds rd : rounds_ok p (rds ++ [rd]) → rounds_ok p rds ∧
  (∀ i, rd_order rd i ≡ₚ rd_pods rd) ∧ room (apply_rounds p rds) (rd_pods rd) (e_policy (rd_eng rd)).
Proof.
  revert p. induction rds as [|rd' rds IH]; intros p; simpl; [by intros (Ho & Hr & _)|].
  by intros (Ho & Hr & (Hok & Ho' & Hr')%IH).
Qed.

(** No residue: after any sequence of policy updates and pod re-walks on
    freshly loaded maps, the default and CIDR maps hold exactly the entries of
    the last policy for the last pods, whatever was programmed before, and the
    verdict map holds nothing else. *)
Theorem reprogram_no_residue `{Kernel} p rds rd k :
  prog_inv p → owned p → rounds_ok p (rds ++ [rd]) →
  match k with
  | PV _ => ∀ v, lookup_probe (maps (apply_rounds p (rds ++ [rd]))) k = Some v →
                 desired (rd_pods rd) (e_policy (rd_eng rd)) k = Some v
  | _ => lookup_probe (maps (apply_rounds p (rds ++ [rd]))) k = desired (rd_pods rd) (e_policy (rd_eng rd)) k
  end.
Proof.
  intros Hinv Hown (Hok & Ho & Hr)%rounds_ok_app. unfold apply_rounds. rewrite foldl_app. simpl.
  apply rounds_inv in Hok as [Hinv' Hown']; [|done|done].
  apply (apply_owned_lookup (apply_rounds p rds) (rd_pods rd)); done.
Qed.
Lemma reprogram_no_residue_witness :
  lookup_probe (H := linux)
    (maps (apply_rounds (H := linux) fresh
       ([{| rd_eng := engine_of ex_agg; rd_pods := map_to_list ex_pods; rd_order := ex_order |}] ++
        [{| rd_eng := engine_of ex_deny; rd_pods := []; rd_order := λ _, [] |}]))) (PD 7) = None.
Proof.
  rewrite (reprogram_no_residue (H := linux) fresh _ _ (PD 7) fresh_inv fresh_owned); [by vm_compute|].
  simpl. split_and!; try done; apply room_b_spec; by vm_compute.
Defined.

(** ** The life of the programmer *)
Lemma put_cfg_lookup `{Kernel} c p p' :
  put_cfg c p = Some p' → km_contents (Cfg (maps p')) !! 0%Z = Some c.
Proof. unfold put_cfg. intros (s & Hs & ->)%fmap_Some. simpl. by eapply km_put_key. Qed.
Lemma disable_disables `{Kernel} p :
  is_Some (km_contents (Cfg (maps p)) !! 0%Z) → enforce_enabled (maps (disable p)) = None.
Proof.
  intros Hc. unfold disable, put_cfg. destruct (k_cfg_array 0%Z {| Enabled := 0; DryRun := 0 |} (Cfg (maps p)) Hc) as [s Hs].
  rewrite Hs. simpl. unfold enforce_enabled. simpl. by rewrite (km_put_key _ _ _ _ Hs).
Qed.

Definition run_inv `{Kernel} (dry : bool) (st : run_state) : Prop :=
  match st with
  | Running p eng => km_contents (Cfg (maps p)) !! 0%Z = Some {| Enabled := 1; DryRun := b2u8 dry |}
  | Stopped p _ => enforce_enabled (maps p) = None
  | EnableFailed p => True
  end.
Lemma run_step_inv `{UnicodeCase} `{Kernel} dry st ev : run_inv dry st → run_inv dry (run_step st ev).
Proof.
  destruct st as [p eng|p e|p]; [|done..]. cbn [run_inv]. intros Hc.
  destruct ev as [pol order|order| |]; cbn [run_step].
  - destruct (NewEngine pol); cbn [run_inv]; rewrite ?apply_cfg; done.
  - cbn [run_inv]. by rewrite apply_cfg.
  - apply disable_disables. by rewrite Hc.
  - apply disable_disables. by rewrite Hc.
Qed.
Lemma Run_inv `{UnicodeCase} `{Kernel} p snap order evs : run_inv (dryRun p) (Run p snap order evs).
Proof.
  unfold Run. destruct (put_cfg _ p) as [p'|] eqn:E; [|done]. apply put_cfg_lookup in E as Hc.
  assert (dryRun p' = dryRun p) as Hd by (by unfold put_cfg in E; apply fmap_Some in E as (s & _ & ->)).
  destruct (NewEngine snap) as [eng|e| |]; try (apply disable_disables; by rewrite Hc).
  assert (run_inv (dryRun p) (Running (apply p' eng order) eng)) as Hi by (cbn [run_inv]; by rewrite apply_cfg).
  revert Hi. generalize (Running (apply p' eng order) eng). induction evs as [|ev evs IH]; intros st Hi; [done|].
  simpl. by apply IH, run_step_inv.
Qed.

(** C25: a stopped agent fails open: once [Run] has enabled enforcement, every way
    it can return (cancelled context, closed policy channel, invalid initial
    policy) leaves the datapath disabled, so no packet is dropped and no connect
    refused; while it runs, enforcement stays enabled with the configured dry-run
    flag whatever policies arrive.  When enabling itself fails, [Run] returns with
    the maps as it found them. *)
Theorem Run_fails_open `{UnicodeCase} `{Kernel} reserve p snap order evs :
  match Run p snap order evs with
  | Running p' _ => enforce_enabled (maps p') = Some (b2u8 (dryRun p))
  | Stopped p' _ => (∀ s, (egress reserve (maps p') s).1 = true) ∧
                    (∀ proto cg da dp, (connect4 reserve (maps p') proto cg da dp).1 = true)
  | EnableFailed p' => p' = p
  end.
Proof.
  pose proof (Run_inv p snap order evs) as Hi. destruct (Run p snap order evs) as [p' eng|p' e|p'] eqn:E; simpl in Hi.
  - unfold enforce_enabled. by rewrite Hi.
  - split.
    + intros s. apply not_false_is_true. rewrite egress_drops. intros [He _]. congruence.
    + intros proto cg da dp. unfold connect4. rewrite Hi. by case_bool_decide.
  - unfold Run in E. destruct (put_cfg _ p); [|by simplify_eq]. exfalso.
    assert (∀ st, (∀ p, st ≠ EnableFailed p) → ∀ p, foldl run_step st evs ≠ EnableFailed p) as Hne.
    { clear. induction evs as [|ev evs IH]; intros st Hst p; [apply Hst|]. simpl. apply IH.
      intros q. destruct st as [p' eng|p' e|p']; [|done|by destruct (Hst p')].
      destruct ev as [pol o|o| |]; simpl; [destruct (NewEngine pol)|..]; done. }
    destruct (NewEngine snap); try done. eapply Hne; [|exact E]. done.
Qed.

(** An invalid policy update is ignored: the programmer keeps the engine and
    the map contents of the last valid policy. *)
Theorem invalid_update_ignored `{UnicodeCase} `{Kernel} p eng pol err order :
  Validate pol = Some err → run_step (Running p eng) (EvPolicy pol order) = Running p eng.
Proof.
  intros Hv. simpl. destruct pol as [pol|]; [|done]. unfold NewEngine. cbn [default from_option id]. by rewrite Hv.
Qed.
Lemma invalid_update_ignored_witness :
  run_step (H := linux) (H0 := ascii_case) (Running (programmed ex_deny) (engine_of ex_deny))
    (EvPolicy (Some {| p_PodSelector := None; DefaultAction := "Maybe"; Rules := [] |}) ex_order) =
  Running (programmed ex_deny) (engine_of ex_deny).
Proof. by apply (invalid_update_ignored (H := ascii_case) (H0 := linux) _ _ _ (InvalidDefaultAction "Maybe")). Defined.

(** ** Where the datapath departs from the engine *)
(** What the engine decides and what the kernel does, for one packet of the
    example pod, under a policy programmed on fresh maps. *)
Definition decisions (p : Policy) (dst : string) (port : Z) : Z * Z :=
  (actionByte (v_Action (Evaluate (H := ascii_case) (engine_of p) (packet dst port))),
   verdict_for (H := linux) (maps (programmed p)) 7 (default [] (To4 (ParseIP dst))) (be_put16 port)).

(** A tenant can override an admin's deny in the kernel: with a node-wide
    cluster rule denying 203.0.113.0/24 and a namespaced policy allowing
    0.0.0.0/0, the engine denies the tenant's packet to 203.0.113.9 and the
    datapath lets it pass, because [verdict_for] consults the cgroup's CIDR
    entries before the node-global ones. *)
Theorem tenant_overrides_admin_in_kernel :
  decisions (Aggregate [ex_admin] [ex_tenant "b" ActionAllow]) "203.0.113.9" 80 = (actDeny, actAllow) ∧
  decisions (Aggregate [ex_admin] []) "203.0.113.9" 80 = (actDeny, actDeny).
Proof. by vm_compute. Qed.

(** Rule order is lost between overlapping CIDRs: an earlier deny of
    10.0.0.0/8 followed by an allow of 10.1.0.0/16 denies 10.1.2.3 in the engine,
    and the LPM lookup allows it. *)
Theorem longest_prefix_beats_rule_order :
  decisions {| p_PodSelector := None; DefaultAction := "";
               Rules := [ex_rule "deny" (ex_match ["10.0.0.0/8"] []) ActionDeny;
                         ex_rule "allow" (ex_match ["10.1.0.0/16"] []) ActionAllow] |} "10.1.2.3" 80 = (actDeny, actAllow).
Proof. by vm_compute. Qed.

(** A rule for port 0 of one address is enforced on all ports, since a zero
    port means any port in the verdict key; the engine applies it to port 0
    only. *)
Theorem port_zero_is_any_port :
  decisions {| p_PodSelector := None; DefaultAction := "";
               Rules := [ex_rule "p0" (ex_match ["198.51.100.7/32"] [0%Z]) ActionDeny] |} "198.51.100.7" 443 = (actAllow, actDeny).
Proof. by vm_compute. Qed.

(** An IPv4-mapped IPv6 CIDR is never enforced and never reported: the
    engine denies the IPv4 destinations it covers, while the key's prefix length
    exceeds the trie's 96 bits, the failed write is dropped silently, and the rule
    is not counted as deferred. *)
Theorem mapped_cidr_silently_unenforced :
  let pol := {| p_PodSelector := None; DefaultAction := "";
                Rules := [ex_rule "mapped" (ex_match ["::ffff:203.0.113.0/120"] []) ActionDeny] |} in
  decisions pol "203.0.113.9" 80 = (actDeny, actAllow) ∧
  deferred (apply_work (H := linux) fresh pol ex_order) = 0.
Proof. by vm_compute. Qed.
