(* ===== verification/Config.v ===== *)
(** * Configuration and the traffic filter ([internal/config/config.go])

    The environment is a function from variable names ([os.Getenv] gives "" for an
    unset one).  Reading a file and decoding YAML over the defaults are parameters
    of [Load]. *)

From S2P Require Import Prelude GoStrings GoNet Attr Policy Engine.
From Stdlib Require Import Ascii.

(** ** Definitions *)
Record Enforcement := { Mode : string; Source : string; PolicyPath : string; PinPath : string; e_DryRun : bool }.
Record Inspection := { Paths : bool; Headers : bool; Body : bool }.
Record Exclude := { Exclude_CIDRs : list string; Exclude_DomainSuffixes : list string }.
Record Config := {
  Cgroup : string; c_Exclude : Exclude; Inspect : Inspection; Output : string;
  MetricsAddr : string; NodeName : string; Enforce : Enforcement
}.

Definition envStr (env : string → string) (key def : string) : string :=
  let v := TrimSpace (env key) in if bool_decide (v ≠ "") then v else def.
Definition envBool `{UnicodeCase} (env : string → string) (key : string) (def : bool) : bool :=
  let v := TrimSpace (ToLower (env key)) in
  if bool_decide (v = "") then def
  else if bool_decide (v ∈ ["1"; "true"; "yes"; "on"]) then true
  else if bool_decide (v ∈ ["0"; "false"; "no"; "off"]) then false
  else def.

Definition InspectionFromEnv `{UnicodeCase} (env : string → string) : Inspection :=
  {| Paths := envBool env "EBFW_INSPECT_PATHS" true;
     Headers := envBool env "EBFW_INSPECT_HEADERS" false;
     Body := envBool env "EBFW_INSPECT_BODY" false |}.
Definition EnforcementFromEnv `{UnicodeCase} (env : string → string) : Enforcement :=
  {| Mode := ToLower (envStr env "EBFW_ENFORCE_MODE" "off");
     Source := ToLower (envStr env "EBFW_POLICY_SOURCE" "file");
     PolicyPath := TrimSpace (env "EBFW_POLICY");
     PinPath := envStr env "EBFW_BPF_PIN_PATH" "/sys/fs/bpf/ebfw";
     e_DryRun := envBool env "EBFW_ENFORCE_DRY_RUN" false |}.
Definition FromEnv `{UnicodeCase} (env : string → string) (c : Config) : Config :=
  {| Cgroup := Cgroup c; c_Exclude := c_Exclude c; Inspect := InspectionFromEnv env;
     Output := envStr env "EBFW_OUTPUT" "text"; MetricsAddr := envStr env "EBFW_METRICS_ADDR" ":9090";
     NodeName := TrimSpace (env "EBFW_NODE_NAME"); Enforce := EnforcementFromEnv env |}.

Definition Default : Config :=
  {| Cgroup := "/sys/fs/cgroup";
     c_Exclude := {| Exclude_CIDRs := ["127.0.0.0/8"; "::1/128"; "10.0.0.0/8"; "172.16.0.0/12"; "192.168.0.0/16";
                                       "169.254.0.0/16"; "fe80::/10"; "fc00::/7"];
                     Exclude_DomainSuffixes := ["cluster.local"; "svc"; "local"; "in-addr.arpa"; "ip6.arpa"] |};
     Inspect := {| Paths := false; Headers := false; Body := false |}; Output := ""; MetricsAddr := ""; NodeName := "";
     Enforce := {| Mode := ""; Source := ""; PolicyPath := ""; PinPath := ""; e_DryRun := false |} |}.

Inductive config_error := ReadConfig (path : string) | ParseConfig (path : string) | InvalidExcludeCIDR (s : string).
Section load.
Context (ReadFile : string → option bytes) (Unmarshal : bytes → Config → option Config).
Definition Load (path : string) : go config_error Config :=
  if bool_decide (path = "") then Ok Default
  else match ReadFile path with
       | None => Err (ReadConfig path)
       | Some data => match Unmarshal data Default with
                      | None => Err (ParseConfig path)
                      | Some cfg => Ok cfg
                      end
       end.
End load.

Record Filter := { cidrs : list IPNet; suffixes : list string }.
Fixpoint filter_cidrs (cs : list string) : go config_error (list IPNet) :=
  match cs with
  | [] => Ok []
  | s :: cs => match ParseCIDR s with
               | None => Err (InvalidExcludeCIDR s)
               | Some (_, n) => ns ← filter_cidrs cs; Ok (n :: ns)
               end
  end.
Definition normalizeSuffix `{UnicodeCase} (s : string) : string := ToLower (TrimChar "."%char (TrimSpace s)).
Definition NewFilter `{UnicodeCase} (c : Config) : go config_error Filter :=
  ns ← filter_cidrs (Exclude_CIDRs (c_Exclude c));
  Ok {| cidrs := ns; suffixes := filter (λ s, s ≠ "") (normalizeSuffix <$> Exclude_DomainSuffixes (c_Exclude c)) |}.

Definition SkipIP (f : Filter) (ip : IP) : bool :=
  if bool_decide (ip = []) then false else existsb (λ n, Contains n ip) (cidrs f).
Definition filterName `{UnicodeCase} (name : string) : string := ToLower (TrimSuffix name ".").
Definition SkipDomain `{UnicodeCase} (f : Filter) (name : string) : bool :=
  let name := filterName name in
  if bool_decide (name = "") then false
  else existsb (λ suf, bool_decide (name = suf) || HasSuffix name ("." +:+ suf)) (suffixes f).

(** ** Theorems *)
Lemma filter_cidrs_ok cs ns :
  filter_cidrs cs = Ok ns → Forall2 (λ c n, snd <$> ParseCIDR c = Some n) cs ns.
Proof.
  revert ns. induction cs as [|c cs IH]; intros ns; simpl; [intros [= <-]; constructor|].
  destruct (ParseCIDR c) as [[ip n]|] eqn:E; [|done].
  intros (ns' & Hns & [= <-])%go_bind_ok. constructor; [by rewrite E|auto].
Qed.
Lemma filter_cidrs_total cs :
  match filter_cidrs cs with
  | Ok _ => Forall (λ c, is_Some (ParseCIDR c)) cs
  | Err (InvalidExcludeCIDR c) => c ∈ cs ∧ ParseCIDR c = None
  | _ => False
  end.
Proof.
  induction cs as [|c cs IH]; simpl; [constructor|]. destruct (ParseCIDR c) as [[ip n]|] eqn:E.
  - destruct (filter_cidrs cs) as [?|[| |s]| |]; simpl; try done.
    + constructor; [eauto|done].
    + destruct IH. split; [by right|done].
  - split; [left|done].
Qed.

(** The exclude filter means what the configuration says: it is built exactly
    when every excluded CIDR parses (otherwise the error names one that does
    not), an address is skipped iff one of the CIDRs contains it, and a name is
    skipped iff the labels of some non-empty normalized suffix are its last
    labels. *)
Theorem Filter_spec `{UnicodeCase} c :
  match NewFilter c with
  | Ok f =>
      (∀ ip, SkipIP f ip = true ↔ ∃ s, s ∈ Exclude_CIDRs (c_Exclude c) ∧ cidr_matches ip s = true) ∧
      (∀ name, SkipDomain f name = true ↔
         filterName name ≠ "" ∧
         ∃ s pre, s ∈ Exclude_DomainSuffixes (c_Exclude c) ∧ normalizeSuffix s ≠ "" ∧
                  labels_of (filterName name) = pre ++ labels_of (normalizeSuffix s))
  | Err (InvalidExcludeCIDR s) => s ∈ Exclude_CIDRs (c_Exclude c) ∧ ParseCIDR s = None
  | _ => False
  end.
Proof.
  unfold NewFilter. pose proof (filter_cidrs_total (Exclude_CIDRs (c_Exclude c))) as Ht.
  destruct (filter_cidrs _) as [ns|[| |s]| |] eqn:E; simpl; try done.
  apply filter_cidrs_ok in E. split.
  - intros ip. unfold SkipIP. simpl. destruct (bool_decide_reflect (ip = [])) as [->|Hip].
    + split; [done|]. intros (s & _ & Hs). unfold cidr_matches in Hs. by destruct (ParseCIDR s) as [[? ?]|].
    + rewrite (existsb_cidrs _ ns) by done. rewrite existsb_exists. by setoid_rewrite <-list_elem_of_In.
  - intros name. unfold SkipDomain. simpl. destruct (bool_decide_reflect (filterName name = "")) as [|Hn].
    { split; [done|]. by intros [? _]. }
    rewrite existsb_exists. setoid_rewrite <-list_elem_of_In. setoid_rewrite list_elem_of_filter.
    setoid_rewrite list_elem_of_fmap. setoid_rewrite orb_true_iff. setoid_rewrite bool_decide_eq_true.
    setoid_rewrite HasSuffix_spec. unfold labels_of. split.
    + intros (suf & (Hne & s & -> & Hs) & Hm). split; [done|].
      destruct (proj2 (Split_suffix "."%char (filterName name) (normalizeSuffix s)) Hm) as [pre Hpre]. exists s, pre. done.
    + intros (_ & s & pre & Hs & Hne & Hl). exists (normalizeSuffix s). split; [eauto|].
      apply Split_suffix. eauto.
Qed.

(** The built-in filter: private ranges and cluster names are skipped. *)
Definition default_filter : Filter :=
  match NewFilter (H := ascii_case) Default with Ok f => f | _ => {| cidrs := []; suffixes := [] |} end.
Example default_filter_ips :
  SkipIP default_filter ∘ ParseIP <$> ["10.1.2.3"; "172.31.0.1"; "172.32.0.1"; "8.8.8.8"; "fe80::1"; "2001:db8::1"; ""]
  = [true; true; false; false; true; false; false].
Proof. by vm_compute. Qed.
Example default_filter_names :
  SkipDomain (H := ascii_case) default_filter <$> ["API.default.svc."; "svc"; "mysvc"; "x.cluster.local"; "example.com"; "."]
  = [true; true; false; true; false; false].
Proof. by vm_compute. Qed.
(** Enforcement stays off unless it is asked for. *)
Example enforcement_defaults :
  EnforcementFromEnv (H := ascii_case) (λ _, "") =
    {| Mode := "off"; Source := "file"; PolicyPath := ""; PinPath := "/sys/fs/bpf/ebfw"; e_DryRun := false |}.
Proof. by vm_compute. Qed.
