(* ===== verification/L7.v ===== *)
(** * HTTP/1.x and HTTP/2 request parsers ([internal/l7])

    [ParseRequest] on one captured segment, with the line scanner of [bufio] (lines
    end at LF, one trailing CR is dropped, a line of 64 KiB stops the scan), and
    the HTTP/2 connection state with its frame loop.  The HPACK decoder is a
    library: [Hpack] is its interface, a state and [DecodeFull]. *)

From S2P Require Import Prelude GoStrings.
From Stdlib Require Import Ascii.
From Stdlib Require String.

(** ** Data *)
Record Header := { h_Name : string; h_Value : string }.
Record Request := { r_Method : string; r_Host : string; r_Path : string; r_Headers : list Header }.
#[export] Instance Header_eq_dec : EqDecision Header.
Proof. solve_decision. Defined.
#[export] Instance Request_eq_dec : EqDecision Request.
Proof. solve_decision. Defined.

Definition LF : ascii := "010"%char.
Definition CR : ascii := "013"%char.

(** ** HTTP/1.x *)
(** [bufio.ScanLines] under [bufio.Scanner]'s default buffer of 64 KiB: a line
    that does not fit ends the scan, and no empty line follows a final LF. *)
Definition MaxScanTokenSize : Z := 65536.
Definition dropCR (l : list ascii) : list ascii :=
  match reverse l with
  | c :: r => if bool_decide (c = CR) then reverse r else l
  | [] => l
  end.
Fixpoint scan_tokens (ws : list (list ascii)) : list (list ascii) :=
  match ws with
  | [] | [[]] => []
  | w :: ws => if (Z.of_nat (length w) <? MaxScanTokenSize)%Z then dropCR w :: scan_tokens ws else []
  end.
Definition scan_lines (s : string) : list string := of_chars <$> scan_tokens (split_chars LF (chars s)).

Definition add_header (r : Request) (name val : string) : Request :=
  {| r_Method := r_Method r; r_Host := if EqualFold name "Host" then val else r_Host r; r_Path := r_Path r;
     r_Headers := r_Headers r ++ [{| h_Name := name; h_Value := val |}] |}.
Fixpoint header_loop (lines : list string) (r : Request) : Request :=
  match lines with
  | [] => r
  | hl :: lines =>
      if bool_decide (hl = "") then r
      else match Cut ":"%char hl with
           | None => header_loop lines r
           | Some (n, v) => header_loop lines (add_header r (TrimSpace n) (TrimSpace v))
           end
  end.
(** [None] is [ok = false]. *)
Definition ParseRequest (payload : bytes) : option Request :=
  match Cut LF (String.string_of_list_byte payload) with
  | None => None
  | Some (line, rest) =>
      match SplitN " "%char 3 (TrimRightChar CR line) with
      | [method; path; proto] =>
          if negb (HasPrefix proto "HTTP/") then None
          else if bool_decide (method = "PRI") then None
          else Some (header_loop (scan_lines rest) {| r_Method := method; r_Host := ""; r_Path := path; r_Headers := [] |})
      | _ => None
      end
  end.

(** ** HTTP/2 *)
Record Hpack := {
  hst : Type;
  NewDecoder : hst;
  (** [None] is an error; the decoder's state moves on either way. *)
  DecodeFull : bytes → hst → option (list (string * string)) * hst
}.
Arguments DecodeFull {_} _ _.

Definition H2Preface : bytes :=
  String.list_byte_of_string "PRI * HTTP/2.0" ++ [x0d; x0a; x0d; x0a] ++ String.list_byte_of_string "SM" ++ [x0d; x0a; x0d; x0a].
Definition h2FrameHeaders : Z := 1.
Definition h2FlagEndHdrs : Z := 4.
Definition h2FlagPadded : Z := 8.
Definition h2FlagPriority : Z := 32.
Definition has_flag (flags f : Z) : bool := negb (bool_decide (Z.land flags f = 0%Z)).

Section h2.
Context (hpack : Hpack).
Record H2Conn := { buf : bytes; dec : hst hpack; preface : bool }.
Definition NewH2Conn : H2Conn := {| buf := []; dec := NewDecoder hpack; preface := false |}.

(** The header block inside a HEADERS payload; [Ok None] is an early [return nil]. *)
Definition strip_padding (flags : Z) (block : bytes) : go unit (option bytes) :=
  if has_flag flags h2FlagPadded then
    if bool_decide (length block < 1) then Ok None
    else
      b0 ← gindex 0 block;
      block ← gfrom 1 block;
      let pad := Z.to_nat (b2z b0) in
      if bool_decide (length block < pad) then Ok None
      else block ← gslice 0 (length block - pad) block; Ok (Some block)
  else Ok (Some block).
Definition strip_priority (flags : Z) (block : bytes) : go unit (option bytes) :=
  if has_flag flags h2FlagPriority then
    if bool_decide (length block < 5) then Ok None
    else block ← gfrom 5 block; Ok (Some block)
  else Ok (Some block).

Definition add_field (r : Request) (f : string * string) : Request :=
  let '(name, value) := f in
  let set m h p hs := {| r_Method := m; r_Host := h; r_Path := p; r_Headers := hs |} in
  if bool_decide (name = ":method") then set value (r_Host r) (r_Path r) (r_Headers r)
  else if bool_decide (name = ":path") then set (r_Method r) (r_Host r) value (r_Headers r)
  else if bool_decide (name = ":authority") then set (r_Method r) value (r_Path r) (r_Headers r)
  else if bool_decide (name = ":scheme") then r
  else set (r_Method r) (if bool_decide (name = "host") && bool_decide (r_Host r = "") then value else r_Host r)
         (r_Path r) (r_Headers r ++ [{| h_Name := name; h_Value := value |}]).
Definition request_of (fields : list (string * string)) : option Request :=
  let r := foldl add_field {| r_Method := ""; r_Host := ""; r_Path := ""; r_Headers := [] |} fields in
  if bool_decide (r_Method r = "") || bool_decide (r_Path r = "") then None else Some r.

Definition parseHeaders (payload : bytes) (flags : Z) (d : hst hpack) : go unit (option Request * hst hpack) :=
  b ← strip_padding flags payload;
  match b with
  | None => Ok (None, d)
  | Some block =>
      b ← strip_priority flags block;
      match b with
      | None => Ok (None, d)
      | Some block =>
          match DecodeFull block d with
          | (None, d) => Ok (None, d)
          | (Some fields, d) => Ok (request_of fields, d)
          end
      end
  end.

(** One complete frame off the buffer: type, flags, payload and the rest. *)
Definition next_frame (b : bytes) : go unit (option (Z * Z * bytes * bytes)) :=
  if bool_decide (length b < 9) then Ok None
  else
    b0 ← gindex 0 b; b1 ← gindex 1 b; b2 ← gindex 2 b;
    let len := Z.to_nat (Z.lor (Z.lor (Z.shiftl (b2z b0) 16) (Z.shiftl (b2z b1) 8)) (b2z b2)) in
    ftype ← gindex 3 b;
    flags ← gindex 4 b;
    if bool_decide (length b < 9 + len) then Ok None
    else
      payload ← gslice 9 (9 + len) b;
      rest ← gfrom (9 + len) b;
      Ok (Some (b2z ftype, b2z flags, payload, rest)).
Definition on_frame (ftype flags : Z) (payload : bytes) (d : hst hpack) : go unit (option Request * hst hpack) :=
  if bool_decide (ftype = h2FrameHeaders) && has_flag flags h2FlagEndHdrs
  then parseHeaders payload flags d else Ok (None, d).

Fixpoint frame_loop (fuel : nat) (b : bytes) (d : hst hpack) : go unit (list Request * bytes * hst hpack) :=
  match fuel with
  | O => OutOfFuel
  | S fuel =>
      f ← next_frame b;
      match f with
      | None => Ok ([], b, d)
      | Some (ftype, flags, payload, rest) =>
          '(r, d) ← on_frame ftype flags payload d;
          '(rs, b, d) ← frame_loop fuel rest d;
          Ok (option_list r ++ rs, b, d)
      end
  end.

(** [Feed]: every frame is at least nine bytes, so the buffer's length is fuel. *)
Definition run_frames (b : bytes) (d : hst hpack) : go unit (list Request * H2Conn) :=
  '(rs, b, d) ← frame_loop (S (length b)) b d;
  Ok (rs, {| buf := b; dec := d; preface := true |}).
Definition Feed (c : H2Conn) (data : bytes) : go unit (list Request * H2Conn) :=
  let b := buf c ++ data in
  if preface c then run_frames b (dec c)
  else if bool_decide (length b < length H2Preface) then Ok ([], {| buf := b; dec := dec c; preface := false |})
  else
    head ← gslice 0 (length H2Preface) b;
    if bool_decide (head = H2Preface) then b ← gfrom (length H2Preface) b; run_frames b (dec c)
    else run_frames b (dec c).
End h2.
Arguments buf {_} _.
Arguments dec {_} _.
Arguments preface {_} _.
Arguments Feed {_} _ _.

(** ** HTTP/2: framing *)
Definition h2len (a b c : byte) : nat :=
  Z.to_nat (Z.lor (Z.lor (Z.shiftl (b2z a) 16) (Z.shiftl (b2z b) 8)) (b2z c)).
Lemma h2len_range a b c : (Z.of_nat (h2len a b c) < 2 ^ 24)%Z.
Proof.
  unfold h2len. pose proof (b2z_range a). pose proof (b2z_range b). pose proof (b2z_range c).
  replace (Z.shiftl (b2z a) 16) with (Z.shiftl (Z.shiftl (b2z a) 8) 8) by (rewrite Z.shiftl_shiftl; done || lia).
  rewrite <-Z.shiftl_lor, !lor_shiftl_8 by lia. lia.
Qed.

Lemma next_frame_app a b c t f r pl rest :
  length r = 4 → length pl = h2len a b c →
  next_frame ((a :: b :: c :: t :: f :: r) ++ pl ++ rest) = Ok (Some (b2z t, b2z f, pl, rest)).
Proof.
  intros Hr Hpl. unfold next_frame. rewrite bool_decide_false by (simpl; rewrite length_app; lia).
  cbn [app gindex lookup list_lookup mbind go_bind]. fold (h2len a b c).
  change (a :: b :: c :: t :: f :: r ++ pl ++ rest) with ((a :: b :: c :: t :: f :: r) ++ pl ++ rest).
  assert (length (a :: b :: c :: t :: f :: r) = 9) as H9 by (simpl; lia).
  rewrite bool_decide_false by (rewrite !length_app, H9; lia).
  rewrite gslice_ok, gfrom_ok by (rewrite ?length_app, ?H9; lia). cbn [mbind go_bind].
  rewrite drop_app_length' by done. rewrite <-drop_drop, drop_app_length' by done.
  rewrite drop_app_length' by done. rewrite take_app_length' by lia. done.
Qed.

Inductive framing (b : bytes) : Prop :=
  | Frame x y z t f r pl rest : b = (x :: y :: z :: t :: f :: r) ++ pl ++ rest → length r = 4 →
      length pl = h2len x y z → framing b
  | Partial : next_frame b = Ok None → (Z.of_nat (length b) < 2 ^ 24 + 8)%Z → framing b.
Lemma framing_cases b : framing b.
Proof.
  destruct (decide (length b < 9)) as [Hl|Hl].
  { apply Partial; [|lia]. unfold next_frame. by rewrite bool_decide_true. }
  destruct b as [|x [|y [|z [|t [|f b]]]]]; simpl in Hl; try lia.
  destruct (decide (length b < 4 + h2len x y z)) as [Hs|Hs].
  - apply Partial.
    + unfold next_frame. rewrite bool_decide_false by (simpl; lia).
      cbn [gindex lookup list_lookup mbind go_bind]. fold (h2len x y z). by rewrite bool_decide_true by (simpl; lia).
    + pose proof (h2len_range x y z). simpl length. lia.
  - apply (Frame _ x y z t f (take 4 b) (take (h2len x y z) (drop 4 b)) (drop (h2len x y z) (drop 4 b))).
    + simpl. by rewrite take_drop, take_drop.
    + rewrite length_take. lia.
    + rewrite length_take, length_drop. lia.
Qed.

Section h2_facts.
Context (hpack : Hpack).

Lemma strip_padding_returns f pl : ∃ b, strip_padding f pl = Ok b.
Proof.
  unfold strip_padding. destruct (has_flag f h2FlagPadded); [|eauto]. case_bool_decide; [eauto|].
  destruct pl as [|p pl]; [simpl in *; lia|]. cbn [gindex lookup list_lookup mbind go_bind].
  rewrite gfrom_ok by (simpl; lia). cbn [mbind go_bind]. case_bool_decide; [eauto|].
  rewrite gslice_ok by lia. cbn [mbind go_bind]. eauto.
Qed.
Lemma strip_priority_returns f pl : ∃ b, strip_priority f pl = Ok b.
Proof.
  unfold strip_priority. destruct (has_flag f h2FlagPriority); [|eauto]. case_bool_decide; [eauto|].
  rewrite gfrom_ok by lia. cbn [mbind go_bind]. eauto.
Qed.
Lemma on_frame_returns t f pl (d : hst hpack) : ∃ r d', on_frame hpack t f pl d = Ok (r, d').
Proof.
  unfold on_frame, parseHeaders. destruct (_ && _); [|eauto].
  destruct (strip_padding_returns f pl) as [[b|] ->]; cbn [mbind go_bind]; [|eauto].
  destruct (strip_priority_returns f b) as [[b'|] ->]; cbn [mbind go_bind]; [|eauto].
  destruct (DecodeFull b' d) as [[?|] ?]; eauto.
Qed.

(** The loop splits at any byte: what is left of a prefix is a prefix of the rest. *)
Lemma frame_loop_spec fuel x (d : hst hpack) :
  length x < fuel →
  ∃ rs b d', frame_loop hpack fuel x d = Ok (rs, b, d') ∧ (Z.of_nat (length b) < 2 ^ 24 + 8)%Z ∧
    ∀ fuel' y, length (x ++ y) < fuel' →
      ∃ fuel'', length (b ++ y) < fuel'' ∧
      frame_loop hpack fuel' (x ++ y) d =
        ('(rs', b', d'') ← frame_loop hpack fuel'' (b ++ y) d'; Ok (rs ++ rs', b', d'')).
Proof.
  revert x d. induction fuel as [|fuel IH]; intros x d Hf; [lia|]. cbn [frame_loop].
  destruct (framing_cases x) as [a b c t f r pl rest -> Hr Hpl|Hn Hl].
  - rewrite next_frame_app by done. cbn [mbind go_bind].
    destruct (on_frame_returns (b2z t) (b2z f) pl d) as (q & d1 & Hq). rewrite Hq. cbn [mbind go_bind].
    destruct (IH rest d1) as (rs & b' & d' & -> & Hb & Hy); [rewrite !length_app in Hf; simpl in Hf; lia|].
    cbn [mbind go_bind]. eexists _, _, _. split; [done|]. split; [done|].
    intros [|fuel'] y Hf'; [simpl in Hf'; lia|].
    rewrite <-!(assoc_L (++)). cbn [frame_loop].
    destruct (Hy fuel' y) as (fuel'' & Hf'' & E).
    { rewrite !length_app in *. simpl in *. lia. }
    exists fuel''. split; [done|].
    rewrite next_frame_app by done. cbn [mbind go_bind]. rewrite Hq. cbn [mbind go_bind]. rewrite E.
    destruct (frame_loop hpack fuel'' (b' ++ y) d') as [[[rs' b''] d'']| | |]; cbn [mbind go_bind]; [|done..].
    by rewrite (assoc_L (++)).
  - rewrite Hn. cbn [mbind go_bind]. eexists _, _, _. split; [done|]. split; [done|].
    intros fuel' y Hf'. exists fuel'. split; [done|].
    by destruct (frame_loop hpack fuel' (x ++ y) d) as [[[rs' b''] d'']| | |].
Qed.
Lemma frame_loop_fuel f1 f2 b (d : hst hpack) :
  length b < f1 → length b < f2 → frame_loop hpack f1 b d = frame_loop hpack f2 b d.
Proof.
  revert f2 b d. induction f1 as [|f1 IH]; intros [|f2] b d H1 H2; [lia..|]. cbn [frame_loop].
  destruct (framing_cases b) as [x y z t f r pl rest -> Hr Hpl|Hn _].
  - rewrite next_frame_app by done. cbn [mbind go_bind].
    destruct (on_frame_returns (b2z t) (b2z f) pl d) as (q & d1 & ->). cbn [mbind go_bind].
    rewrite !length_app in *. simpl in *. rewrite (IH f2) by lia. done.
  - by rewrite Hn.
Qed.

Lemma run_frames_app x y (d : hst hpack) :
  ∃ rs c, run_frames hpack x d = Ok (rs, c) ∧ (Z.of_nat (length (buf c)) < 2 ^ 24 + 8)%Z ∧
    run_frames hpack (x ++ y) d = ('(rs', c') ← Feed c y; Ok (rs ++ rs', c')).
Proof.
  unfold run_frames. destruct (frame_loop_spec (S (length x)) x d) as (rs & b & d' & -> & Hb & Hy); [lia|].
  cbn [mbind go_bind]. eexists _, _. split; [done|]. split; [done|].
  unfold Feed. cbn [preface buf dec]. unfold run_frames.
  destruct (Hy (S (length (x ++ y))) y) as (fuel'' & Hf & ->); [lia|].
  rewrite (frame_loop_fuel fuel'' (S (length (b ++ y)))) by lia.
  destruct (frame_loop _ _ _ _) as [[[? ?] ?]| | |]; done.
Qed.

(** The stream after the preface, once there are enough bytes to tell. *)
Definition strip_preface (b : bytes) : bytes :=
  if bool_decide (take (length H2Preface) b = H2Preface) then drop (length H2Preface) b else b.
Lemma strip_preface_app b y :
  length H2Preface ≤ length b → strip_preface (b ++ y) = strip_preface b ++ y.
Proof. intros Hl. unfold strip_preface. rewrite take_app_le by done. case_bool_decide; [|done]. by rewrite drop_app_le. Qed.
Lemma Feed_eq (c : H2Conn hpack) x :
  Feed c x =
    if preface c then run_frames hpack (buf c ++ x) (dec c)
    else if bool_decide (length (buf c ++ x) < length H2Preface)
         then Ok ([], {| buf := buf c ++ x; dec := dec c; preface := false |})
         else run_frames hpack (strip_preface (buf c ++ x)) (dec c).
Proof.
  unfold Feed, strip_preface. destruct (preface c); [done|]. case_bool_decide; [done|].
  rewrite gslice_ok by lia. cbn [mbind go_bind]. rewrite drop_0, Nat.sub_0_r.
  case_bool_decide; [|done]. by rewrite gfrom_ok by lia.
Qed.

Lemma Feed_spec (c : H2Conn hpack) x :
  ∃ rs c1, Feed c x = Ok (rs, c1) ∧ (Z.of_nat (length (buf c1)) < 2 ^ 24 + 8)%Z ∧
    ∀ y, Feed c (x ++ y) = ('(rs', c2) ← Feed c1 y; Ok (rs ++ rs', c2)).
Proof.
  assert (∀ l, ∃ rs c1, run_frames hpack l (dec c) = Ok (rs, c1) ∧ (Z.of_nat (length (buf c1)) < 2 ^ 24 + 8)%Z ∧
    ∀ y, run_frames hpack (l ++ y) (dec c) = ('(rs', c2) ← Feed c1 y; Ok (rs ++ rs', c2))) as Hrun.
  { intros l. destruct (run_frames_app l [] (dec c)) as (rs & c1 & Hc & Hb & _). exists rs, c1. split_and!; [done..|].
    intros y. destruct (run_frames_app l y (dec c)) as (rs' & c' & Hc' & _ & ->). rewrite Hc in Hc'. by simplify_eq. }
  rewrite (Feed_eq c x). destruct (preface c) eqn:Ep.
  { destruct (Hrun (buf c ++ x)) as (rs & c1 & Hc & Hb & Hy). exists rs, c1. split_and!; [done..|].
    intros y. by rewrite Feed_eq, Ep, (assoc_L (++)), Hy. }
  case_bool_decide as Hl.
  - eexists _, _. split; [done|]. split; [cbn [buf]; change (length H2Preface) with 24 in Hl; lia|].
    intros y. rewrite !Feed_eq, Ep. cbn [buf preface dec]. rewrite (assoc_L (++)).
    case_bool_decide; [done|]. by destruct (run_frames _ _ _) as [[? ?]| | |].
  - destruct (Hrun (strip_preface (buf c ++ x))) as (rs & c1 & Hc & Hb & Hy). exists rs, c1. split_and!; [done..|].
    intros y. rewrite Feed_eq, Ep, (assoc_L (++)), bool_decide_false by (rewrite length_app; lia).
    by rewrite strip_preface_app, Hy by lia.
Qed.
End h2_facts.

(** HTTP/2 decoding does not depend on how the stream was cut: feeding two
    chunks one after the other gives the requests and the state of feeding them
    at once, whatever the bytes and the decoder. *)
Theorem Feed_chunking (hpack : Hpack) (c : H2Conn hpack) x y :
  Feed c (x ++ y) = ('(rs1, c1) ← Feed c x; '(rs2, c2) ← Feed c1 y; Ok (rs1 ++ rs2, c2)).
Proof. destruct (Feed_spec hpack c x) as (rs & c1 & -> & _ & Hy). by rewrite Hy. Qed.

(** Every [Feed] returns, on any bytes, and retains less than one maximal frame. *)
Lemma Feed_bounded (hpack : Hpack) (c : H2Conn hpack) x :
  ∃ rs c1, Feed c x = Ok (rs, c1) ∧ (Z.of_nat (length (buf c1)) < 2 ^ 24 + 8)%Z.
Proof. destruct (Feed_spec hpack c x) as (rs & c1 & -> & Hb & _). eauto. Qed.

(** ** HTTP/1.x: rendering a request *)
Definition CRLF : string := of_chars [CR; LF].
Definition put_header (h : Header) : string := h_Name h +:+ ": " +:+ h_Value h +:+ CRLF.
Definition put_headers (hs : list Header) (body : string) : string := foldr (λ h s, put_header h +:+ s) (CRLF +:+ body) hs.
Definition put_request (method path version : string) (hs : list Header) (body : string) : string :=
  method +:+ " " +:+ path +:+ " HTTP/" +:+ version +:+ CRLF +:+ put_headers hs body.
Definition header_ok (h : Header) : Prop :=
  ":"%char ∉ chars (h_Name h) ∧ LF ∉ chars (h_Name h) ∧ LF ∉ chars (h_Value h) ∧
  TrimSpace (h_Name h) = h_Name h ∧ TrimSpace (h_Value h) = h_Value h ∧
  (Z.of_nat (slen (h_Name h) + slen (h_Value h)) < 65533)%Z.
(** The value of the last Host header. *)
Definition host_of (hs : list Header) : string :=
  default "" (last (h_Value <$> filter (λ h, EqualFold (h_Name h) "Host" = true) hs)).

Lemma str_app_cons c s t : String c s +:+ t = String c (s +:+ t).
Proof. done. Qed.
Lemma chars_String c s : chars (String c s) = c :: chars s.
Proof. done. Qed.
Lemma split_chars_cut sep w l : sep ∉ w → split_chars sep (w ++ sep :: l) = w :: split_chars sep l.
Proof.
  induction w as [|c w IH]; intros Hw; simpl; [by rewrite bool_decide_true|].
  rewrite not_elem_of_cons in Hw. destruct Hw. rewrite bool_decide_false by done. by rewrite IH.
Qed.
Lemma dropCR_app w : dropCR (w ++ [CR]) = w.
Proof. unfold dropCR. rewrite reverse_app. simpl. by rewrite reverse_involutive. Qed.
Lemma scan_lines_cut w s :
  LF ∉ chars w → (Z.of_nat (slen w) < 65535)%Z → scan_lines (w +:+ CRLF +:+ s) = w :: scan_lines s.
Proof.
  intros Hw Hl. unfold scan_lines. rewrite !chars_app.
  change (chars CRLF) with ([CR] ++ [LF]). rewrite <-(assoc_L (++)), (assoc_L (++) (chars w)). cbn [app].
  rewrite split_chars_cut by (rewrite not_elem_of_app, list_elem_of_singleton; naive_solver).
  pose proof (split_chars_ne LF (chars s)) as Hne. destruct (split_chars LF (chars s)) as [|w' ws]; [done|].
  cbn [scan_tokens]. destruct (chars w ++ [CR]) as [|c l] eqn:E; [by destruct (chars w)|]. rewrite <-E.
  rewrite (proj2 (Z.ltb_lt _ _)) by (unfold MaxScanTokenSize; rewrite length_app, length_chars; simpl; lia).
  cbn [fmap list_fmap]. by rewrite dropCR_app, of_chars_chars.
Qed.
Lemma TrimSpace_space s : TrimSpace (String " "%char s) = TrimSpace s.
Proof. done. Qed.
Lemma drop_char_app c (l k : list ascii) x : x ≠ c → ∃ l', drop_char c (l ++ x :: k) = l' ++ x :: k.
Proof.
  intros Hx. induction l as [|a l IH]; simpl; [exists []; by rewrite bool_decide_false|].
  case_bool_decide; [done|]. by exists (a :: l).
Qed.
Lemma TrimRightChar_app c s x v : x ≠ c → ∃ v', TrimRightChar c (s +:+ String x v) = s +:+ String x v'.
Proof.
  intros Hx. unfold TrimRightChar. rewrite chars_app. change (chars (String x v)) with (x :: chars v).
  rewrite reverse_app, reverse_cons, <-(assoc_L (++)). cbn [app].
  destruct (drop_char_app c (reverse (chars v)) (reverse (chars s)) x Hx) as [l' ->].
  exists (of_chars (reverse l')). apply chars_inj. rewrite chars_app, !chars_of_chars.
  rewrite reverse_app, reverse_cons, reverse_involutive, <-(assoc_L (++)).
  change (chars (String x ?t)) with (x :: chars t). by rewrite chars_of_chars.
Qed.

Lemma header_loop_put hs body r :
  Forall header_ok hs →
  header_loop (scan_lines (put_headers hs body)) r =
    {| r_Method := r_Method r; r_Path := r_Path r; r_Headers := r_Headers r ++ hs;
       r_Host := default (r_Host r) (last (h_Value <$> filter (λ h, EqualFold (h_Name h) "Host" = true) hs)) |}.
Proof.
  revert r. induction hs as [|[n v] hs IH]; intros r Hok.
  { unfold put_headers. cbn [foldr]. change (CRLF +:+ body) with ("" +:+ CRLF +:+ body).
    rewrite scan_lines_cut by (apply not_elem_of_nil || done). cbn [header_loop]. rewrite bool_decide_true by done.
    destruct r; simpl. by rewrite app_nil_r. }
  apply Forall_cons in Hok as [(Hc & Hn & Hv & Tn & Tv & Hl) Hok]. cbn [h_Name h_Value] in *.
  assert (put_headers ({| h_Name := n; h_Value := v |} :: hs) body =
    (n +:+ ": " +:+ v) +:+ CRLF +:+ put_headers hs body) as ->.
  { unfold put_headers. cbn [foldr]. unfold put_header. cbn [h_Name h_Value]. by rewrite <-!str_app_assoc. }
  rewrite scan_lines_cut.
  2: { rewrite !chars_app, !not_elem_of_app. split_and!; [done| |done]. by apply (bool_decide_unpack _). }
  2: { rewrite !slen_app. simpl. lia. }
  cbn [header_loop]. rewrite bool_decide_false by (destruct n; done).
  change (n +:+ ": " +:+ v) with (n +:+ String ":"%char (String " "%char v)). rewrite Cut_app by done.
  rewrite TrimSpace_space, Tn, Tv, IH by done. unfold add_header. simpl. f_equal; [|by rewrite <-(assoc_L (++))].
  rewrite filter_cons. cbn [h_Name]. case_decide as Hd; [|by destruct (EqualFold n "Host")].
  rewrite Hd, fmap_cons, last_cons. cbn [h_Value]. by destruct (last _).
Qed.

(** C37: an HTTP/1.x request is read back as it was written: for any request line
    and any headers that fit a line and carry no line break or surrounding space,
    whatever the body, [ParseRequest] returns the method, the path, every header
    in order, and the value of the last Host header as the host. *)
Theorem ParseRequest_roundtrip method path version hs body :
  " "%char ∉ chars method → LF ∉ chars method → method ≠ "PRI" →
  " "%char ∉ chars path → LF ∉ chars path → LF ∉ chars version → Forall header_ok hs →
  ParseRequest (String.list_byte_of_string (put_request method path version hs body)) =
    Some {| r_Method := method; r_Host := host_of hs; r_Path := path; r_Headers := hs |}.
Proof.
  intros Hm1 Hm2 Hpri Hp1 Hp2 Hv Hok. unfold ParseRequest, put_request.
  rewrite String.string_of_list_byte_of_string.
  set (line := method +:+ String " " (path +:+ String " " ("HTTP" +:+ String "/" (version +:+ String CR "")))).
  replace (method +:+ _) with (line +:+ String LF (put_headers hs body)).
  2: { unfold line. apply chars_inj. repeat (rewrite chars_app || rewrite chars_String).
       cbn [app]. repeat (rewrite <-(assoc_L (++)); cbn [app]). done. }
  assert (LF ∉ chars line) as HLF.
  { unfold line. repeat (rewrite chars_app || rewrite chars_String). repeat (rewrite not_elem_of_app || rewrite not_elem_of_cons).
    split_and!; try done; apply (bool_decide_unpack _); by vm_compute. }
  rewrite Cut_app by done. unfold line.
  destruct (TrimRightChar_app CR (method +:+ String " " (path +:+ String " " "HTTP")) "/" (version +:+ String CR "")) as [v' Ht]; [done|].
  assert (∀ t, (method +:+ String " " (path +:+ String " " "HTTP")) +:+ t =
    method +:+ String " " (path +:+ String " " ("HTTP" +:+ t))) as Ha.
  { intros t. by rewrite <-str_app_assoc, str_app_cons, <-str_app_assoc, str_app_cons. }
  rewrite !Ha in Ht. rewrite Ht. cbn [SplitN].
  rewrite Cut_app by done. rewrite Cut_app by done. rewrite (proj2 (HasPrefix_spec _ _)) by (by exists v').
  cbn [negb]. rewrite bool_decide_false by done. by rewrite header_loop_put.
Qed.

Definition ex_headers : list Header :=
  [{| h_Name := "host"; h_Value := "a.example" |}; {| h_Name := "X-Id"; h_Value := "1: 2" |};
   {| h_Name := "HOST"; h_Value := "b.example" |}].
Lemma ParseRequest_roundtrip_witness :
  ParseRequest (String.list_byte_of_string (put_request "GET" "/x?y" "1.1" ex_headers "body")) =
    Some {| r_Method := "GET"; r_Host := "b.example"; r_Path := "/x?y"; r_Headers := ex_headers |}.
Proof.
  apply (ParseRequest_roundtrip "GET" "/x?y" "1.1" ex_headers "body"); apply (bool_decide_unpack _); by vm_compute.
Defined.
Example ParseRequest_rejects :
  ParseRequest ∘ String.list_byte_of_string <$> ["GET /"; "PRI * HTTP/2.0" +:+ CRLF; "GET / FTP/1" +:+ CRLF; "GET /" +:+ CRLF] =
  [None; None; None; None].
Proof. by vm_compute. Qed.

(** A decoder that reads one field per [name=value;] item, to run the frame loop. *)
Definition toy_hpack : Hpack :=
  {| hst := nat; NewDecoder := 0;
     DecodeFull b n := (Some (omap (λ f, Cut "="%char f) (Split ";"%char (String.string_of_list_byte b))), S n) |}.
Definition ex_block : bytes := String.list_byte_of_string ":method=GET;:path=/p;:authority=a.example;x-id=7".
Definition h2_frame (ftype flags : byte) (pl : bytes) : bytes :=
  [x00; x00; z2b (Z.of_nat (length pl)); ftype; flags; x00; x00; x00; x01] ++ pl.
Example Feed_split_frame :
  let stream := H2Preface ++ h2_frame x04 x00 [] ++ h2_frame x01 x2c ([x02; x00; x00; x00; x00; x10] ++ ex_block ++ [xff; xff]) in
  let want := [{| r_Method := "GET"; r_Host := "a.example"; r_Path := "/p"; r_Headers := [{| h_Name := "x-id"; h_Value := "7" |}] |}] in
  Feed (NewH2Conn toy_hpack) stream = Ok (want, {| buf := []; dec := 1 : hst toy_hpack; preface := true |}) ∧
  (prod_map id buf <$> match Feed (NewH2Conn toy_hpack) (take 50 stream) with Ok r => Some r | _ => None end) = Some ([], drop 33 (take 50 stream)).
Proof. by vm_compute. Qed.
(** A header block continued in CONTINUATION frames never reaches the decoder. *)
Example continuation_skips_decoder :
  Feed {| buf := []; dec := 3 : hst toy_hpack; preface := true |} (h2_frame x01 x00 ex_block ++ h2_frame x09 x04 ex_block) =
    Ok ([], {| buf := []; dec := 3 : hst toy_hpack; preface := true |}).
Proof. by vm_compute. Qed.
