(* ===== verification/Output.v ===== *)
(** * Event output ([internal/output/output.go]) and the annotating sink
    ([internal/enforce/sink.go])

    [Event] with the source's fields; the text rendering as the string written by
    one [Emit]; the JSON sink as the record handed to the encoder.  The counters
    are the labels incremented, in order.  [sink] evaluates the policy and stamps
    the verdict. *)

From S2P Require Import Prelude GoStrings GoNet Attr Policy Engine L7.
From Stdlib Require Import Ascii.

(** ** Events *)
Definition KindDNS : string := "dns".
Definition KindTLS : string := "tls".
Definition KindHTTP : string := "http".
Definition KindHTTPS : string := "https".
Definition KindConnect : string := "connect".

Record Event := {
  Kind : string; Src : string; Dst : string; ev_Port : Z; ev_Domain : string; DNSType : string;
  ev_Method : string; ev_Path : string; ev_Headers : list Header; PID : Z; Comm : string;
  ev_Pod : PodInfo; Action : string; ev_Rule : string
}.
Definition Event_zero : Event :=
  {| Kind := ""; Src := ""; Dst := ""; ev_Port := 0; ev_Domain := ""; DNSType := ""; ev_Method := ""; ev_Path := "";
     ev_Headers := []; PID := 0; Comm := ""; ev_Pod := PodInfo_zero; Action := ""; ev_Rule := "" |}.

(** [record]: the labels of the two counters. *)
Definition record (e : Event) : list (string * string) :=
  [("events_total", Kind e); ("attribution_total", if Known (ev_Pod e) then "hit" else "miss")].

Definition podSuffix (p : PodInfo) : string :=
  let s := PodInfo_String p in if bool_decide (s ≠ "") then "  pod=" +:+ s else "".
Definition actionSuffix (e : Event) : string :=
  if bool_decide (Action e = "") then ""
  else "  action=" +:+ Action e +:+ (if bool_decide (ev_Rule e ≠ "") then " rule=" +:+ ev_Rule e else "").

Definition newline : string := String "010"%char EmptyString.
(** The line of each kind ([%-8s] pads the tag to eight characters). *)
Definition event_line (e : Event) : option string :=
  let tail := podSuffix (ev_Pod e) +:+ actionSuffix e in
  if bool_decide (Kind e = KindConnect) then
    Some ("CONNECT  " +:+ Src e +:+ " -> " +:+ Dst e +:+ ":" +:+ pretty (ev_Port e) +:+ tail)
  else if bool_decide (Kind e = KindDNS) then
    Some ("DNS      " +:+ Src e +:+ " ? " +:+ ev_Domain e +:+ " (" +:+ DNSType e +:+ ")" +:+ podSuffix (ev_Pod e))
  else if bool_decide (Kind e = KindTLS) then
    Some ("TLS      " +:+ Src e +:+ " -> " +:+ ev_Domain e +:+ "  (" +:+ Dst e +:+ ":" +:+ pretty (ev_Port e) +:+ ")" +:+ tail)
  else if bool_decide (Kind e = KindHTTP) then
    Some ("HTTP     " +:+ Src e +:+ " -> " +:+ ev_Method e +:+ " " +:+ ev_Domain e +:+ ev_Path e +:+ tail)
  else if bool_decide (Kind e = KindHTTPS) then
    Some ("HTTPS  [pid=" +:+ pretty (PID e) +:+ " " +:+ Comm e +:+ "] " +:+ ev_Method e +:+ " " +:+ ev_Domain e +:+ ev_Path e +:+ tail)
  else None.
Definition header_line (h : Header) : string := "           " +:+ h_Name h +:+ ": " +:+ h_Value h.
Definition text_Emit (e : Event) : string :=
  from_option (λ l, l +:+ newline) "" (event_line e) +:+
  foldr (λ h s, header_line h +:+ newline +:+ s) "" (ev_Headers e).

(** What the JSON sink encodes; [je_Pod] is a nil pointer when unattributed. *)
Record jsonPod := { jp_Namespace : string; jp_Name : string; jp_UID : string; jp_Container : string; jp_QoS : string; jp_Node : string }.
Record jsonEvent := {
  TS : string; je_Kind : string; je_Src : string; je_Dst : string; je_Port : Z; je_Domain : string; je_DNSType : string;
  je_Method : string; je_Path : string; je_Headers : list Header; je_PID : Z; je_Comm : string;
  je_Pod : option jsonPod; je_Action : string; je_Rule : string
}.
Definition json_Emit (now : string) (e : Event) : jsonEvent :=
  {| TS := now; je_Kind := Kind e; je_Src := Src e; je_Dst := Dst e; je_Port := ev_Port e; je_Domain := ev_Domain e;
     je_DNSType := DNSType e; je_Method := ev_Method e; je_Path := ev_Path e; je_Headers := ev_Headers e;
     je_PID := PID e; je_Comm := Comm e;
     je_Pod := if Known (ev_Pod e)
               then Some {| jp_Namespace := Namespace (ev_Pod e); jp_Name := Name (ev_Pod e); jp_UID := pi_UID (ev_Pod e);
                            jp_Container := Container (ev_Pod e); jp_QoS := pi_QoS (ev_Pod e); jp_Node := Node (ev_Pod e) |}
               else None;
     je_Action := Action e; je_Rule := ev_Rule e |}.

(** [New]: which sink a format selects. *)
Inductive format := TextFormat | JsonFormat.
Definition New (fmt : string) : format := if EqualFold (TrimSpace fmt) "json" then JsonFormat else TextFormat.

(** ** The annotating sink *)
Definition flowFromEvent (e : Event) : Flow :=
  {| f_Pod := ev_Pod e; f_Labels := Labels (ev_Pod e);
     DstIP := if bool_decide (Dst e ≠ "") then ParseIP (Dst e) else [];
     Port := wrap 16 (ev_Port e); Domain := ev_Domain e; Method := ev_Method e; Path := ev_Path e |}.

Definition connection_level (k : string) : bool := bool_decide (k ∈ [KindConnect; KindTLS; KindHTTP; KindHTTPS]).
Definition with_verdict (e : Event) (a r : string) : Event :=
  {| Kind := Kind e; Src := Src e; Dst := Dst e; ev_Port := ev_Port e; ev_Domain := ev_Domain e; DNSType := DNSType e;
     ev_Method := ev_Method e; ev_Path := ev_Path e; ev_Headers := ev_Headers e; PID := PID e; Comm := Comm e;
     ev_Pod := ev_Pod e; Action := a; ev_Rule := r |}.
(** [sink.Emit]: the event passed to the inner sink and the decision counter's
    label, if it is incremented. *)
Definition sink_Emit `{UnicodeCase} (eng : engine) (e : Event) : Event * option string :=
  if connection_level (Kind e) then
    let v := Evaluate eng (flowFromEvent e) in
    let e := if bool_decide (Action e = "") then with_verdict e (v_Action v) (v_Rule v)
             else if bool_decide (v_Action v = Action e) then with_verdict e (Action e) (v_Rule v)
             else e in
    (e, Some (Action e))
  else (e, None).

(** [sink.watch]: the engine after a sequence of policy updates. *)
Definition sink_update `{UnicodeCase} (eng : engine) (p : option Policy) : engine :=
  match NewEngine p with Ok e => e | _ => eng end.

(** ** Theorems *)
(** The number of line breaks. *)
Definition lines (s : string) : nat := length (filter (λ c, c = "010"%char) (chars s)).
Lemma lines_app s t : lines (s +:+ t) = lines s + lines t.
Proof. unfold lines. by rewrite chars_app, filter_app, length_app. Qed.

Definition one_line (s : string) : Prop := lines s = 0.
Definition clean_event (e : Event) : Prop :=
  Forall one_line [Src e; Dst e; ev_Domain e; DNSType e; ev_Method e; ev_Path e; Comm e; PodInfo_String (ev_Pod e);
                   Action e; ev_Rule e; pretty (ev_Port e); pretty (PID e)] ∧
  Forall (λ h, one_line (h_Name h) ∧ one_line (h_Value h)) (ev_Headers e).

Lemma header_lines hs :
  Forall (λ h, one_line (h_Name h) ∧ one_line (h_Value h)) hs →
  lines (foldr (λ h s, header_line h +:+ newline +:+ s) "" hs) = length hs.
Proof.
  induction 1 as [|h hs [Hn Hv] _ IH]; [done|]. cbn [foldr]. unfold header_line, one_line in *.
  rewrite !lines_app, IH, Hn, Hv. done.
Qed.
Lemma podSuffix_line p : one_line (PodInfo_String p) → one_line (podSuffix p).
Proof.
  unfold one_line, podSuffix. intros Hp. case_bool_decide; [|done]. by rewrite lines_app, Hp.
Qed.
Lemma actionSuffix_line e : one_line (Action e) → one_line (ev_Rule e) → one_line (actionSuffix e).
Proof.
  unfold one_line, actionSuffix. intros Ha Hr. case_bool_decide; [done|]. rewrite !lines_app, Ha.
  case_bool_decide; [|done]. by rewrite lines_app, Hr.
Qed.

(** One record per event in text output: an event of a known kind whose
    fields hold no line break is written as exactly one line plus one line per
    header (a DNS name with a line break would forge a line, since nothing is
    escaped). *)
Theorem text_Emit_lines e :
  Kind e ∈ [KindConnect; KindDNS; KindTLS; KindHTTP; KindHTTPS] → clean_event e →
  lines (text_Emit e) = S (length (ev_Headers e)).
Proof.
  intros Hk [Hf Hh]. unfold text_Emit. rewrite lines_app, header_lines by done.
  rewrite !Forall_cons in Hf. destruct Hf as (H1 & H2 & H3 & H4 & H5 & H6 & H7 & H8 & H9 & H10 & H11 & H12 & _).
  pose proof (podSuffix_line _ H8) as Hp. pose proof (actionSuffix_line _ H9 H10) as Ha. unfold one_line in *.
  assert (∃ l, event_line e = Some l ∧ lines l = 0) as (l & -> & Hl).
  { unfold event_line. repeat (case_bool_decide; [eexists; split; [reflexivity|]; rewrite !lines_app; simpl; lia|]).
    exfalso. rewrite !elem_of_cons in Hk. destruct Hk as [|[|[|[|[|Hk]]]]]; try done. by apply not_elem_of_nil in Hk. }
  cbn [from_option]. by rewrite lines_app, Hl.
Qed.
Lemma text_Emit_lines_witness :
  lines (text_Emit (with_verdict {| Kind := KindDNS; Src := "10.0.0.1"; Dst := ""; ev_Port := 0; ev_Domain := "a.b"; DNSType := "TypeA";
    ev_Method := ""; ev_Path := ""; ev_Headers := []; PID := 0; Comm := ""; ev_Pod := PodInfo_zero; Action := ""; ev_Rule := "" |} "" "")) = 1.
Proof.
  apply (text_Emit_lines (with_verdict {| Kind := KindDNS; Src := "10.0.0.1"; Dst := ""; ev_Port := 0; ev_Domain := "a.b"; DNSType := "TypeA";
    ev_Method := ""; ev_Path := ""; ev_Headers := []; PID := 0; Comm := ""; ev_Pod := PodInfo_zero; Action := ""; ev_Rule := "" |} "" "")).
  - right. left.
  - split; [|constructor]. repeat (apply Forall_cons; split; [by vm_compute|]). constructor.
Defined.
(** A DNS name with a line break forges a record. *)
Example text_forged_line :
  lines (text_Emit (with_verdict {| Kind := KindDNS; Src := "10.0.0.1"; Dst := ""; ev_Port := 0;
    ev_Domain := "x" +:+ newline +:+ "CONNECT  10.0.0.1 -> 8.8.8.8:53"; DNSType := "TypeA";
    ev_Method := ""; ev_Path := ""; ev_Headers := []; PID := 0; Comm := ""; ev_Pod := PodInfo_zero; Action := ""; ev_Rule := "" |} "" "")) = 2.
Proof. by vm_compute. Qed.

(** Annotation keeps the kernel's verdict: DNS events pass through untouched;
    a connection-level event without a verdict (log mode) gets the engine's
    action and rule; one that carries the kernel's verdict (enforce mode) keeps
    that action, and gets a rule name only when the engine agrees with it; all
    other fields are passed on, and the decision counter is labelled with the
    action that is shown. *)
Theorem sink_Emit_spec `{UnicodeCase} eng e :
  let '(e', counted) := sink_Emit eng e in
  let v := Evaluate eng (flowFromEvent e) in
  with_verdict e' "" "" = with_verdict e "" "" ∧
  if connection_level (Kind e) then
    counted = Some (Action e') ∧
    (Action e = "" → Action e' = v_Action v ∧ ev_Rule e' = v_Rule v) ∧
    (Action e ≠ "" → Action e' = Action e ∧ ev_Rule e' = if bool_decide (v_Action v = Action e) then v_Rule v else ev_Rule e)
  else e' = e ∧ counted = None.
Proof.
  unfold sink_Emit. destruct (connection_level (Kind e)); [|done].
  case_bool_decide; simpl; [naive_solver|]. case_bool_decide; simpl; naive_solver.
Qed.
