(* ===== verification/DnsLearn.v ===== *)
(** * DNS learning ([internal/enforce/dnslearn.go])

    The DNS message parser ([golang.org/x/net/dns/dnsmessage]) is not part of the
    repository: [DnsParser] is its interface, with what the loops rely on, namely
    that every question and every consumed resource uses up one of the counts in
    the message header.  The clock is an argument (nanoseconds).  A step of the
    learner is [handle] on one ring-buffer record, a policy update or one [sweep]. *)

From S2P Require Import Prelude GoStrings GoNet NetBits Attr Policy Engine Aggregate Datapath Programmer.

(** ** The parser's interface *)
Inductive dns_next (A : Type) :=
  | SectionDone
  | ParseError
  | Got (a : A).
Arguments SectionDone {A}.
Arguments ParseError {A}.
Arguments Got {A} a.

Record DnsParser := {
  pst : Type;
  Start : bytes → option pst;
  Question : pst → dns_next (string * string * pst);
  AnswerHeader : pst → dns_next (Z * Z * pst);
  AResource : pst → option (bytes * pst);
  SkipAnswer : pst → option pst;
  questions_left : pst → nat;
  answers_left : pst → nat;
  Question_consumes s n t s' : Question s = Got (n, t, s') → questions_left s' < questions_left s;
  AnswerHeader_keeps s t ttl s' : AnswerHeader s = Got (t, ttl, s') → answers_left s' ≤ answers_left s;
  AResource_consumes s a s' : AResource s = Some (a, s') → answers_left s' < answers_left s ∧ length a = 4;
  SkipAnswer_consumes s s' : SkipAnswer s = Some s' → answers_left s' < answers_left s
}.
Arguments Question {_} _.
Arguments AnswerHeader {_} _.
Arguments AResource {_} _.
Arguments SkipAnswer {_} _.
Arguments questions_left {_} _.
Arguments answers_left {_} _.

Definition TypeA : Z := 1.

(** ** Definitions *)
Section parse.
Context (dns : DnsParser).

(** The question loop: [Ok None] is the early [return "", nil, 0]. *)
Fixpoint question_loop (fuel : nat) (p : pst dns) (qname : string) : go unit (option (string * pst dns)) :=
  match fuel with
  | O => OutOfFuel
  | S fuel =>
      match Question p with
      | SectionDone => Ok (Some (qname, p))
      | ParseError => Ok None
      | Got (name, _, p) => question_loop fuel p (if bool_decide (qname = "") then TrimSuffix name "." else qname)
      end
  end.
Fixpoint answer_loop (fuel : nat) (p : pst dns) (ips : list IP) (ttl : Z) : go unit (list IP * Z) :=
  match fuel with
  | O => OutOfFuel
  | S fuel =>
      match AnswerHeader p with
      | SectionDone | ParseError => Ok (ips, ttl)
      | Got (ty, h_TTL, p) =>
          if bool_decide (ty = TypeA) then
            match AResource p with
            | None => Ok (ips, ttl)
            | Some (a, p) =>
                answer_loop fuel p (ips ++ [a]) (if bool_decide (ttl = 0%Z) || (h_TTL <? ttl)%Z then h_TTL else ttl)
            end
          else match SkipAnswer p with
               | None => Ok (ips, ttl)
               | Some p => answer_loop fuel p ips ttl
               end
      end
  end.
Definition parseAnswers (payload : bytes) : go unit (string * list IP * Z) :=
  match Start dns payload with
  | None => Ok ("", [], 0%Z)
  | Some p =>
      r ← question_loop (S (questions_left p)) p "";
      match r with
      | None => Ok ("", [], 0%Z)
      | Some (qname, p) =>
          '(ips, ttl) ← answer_loop (S (answers_left p)) p [] 0;
          Ok (qname, ips, ttl)
      end
  end.
End parse.

Definition second : Z := 1000000000.
Definition minLearnTTL : Z := 60 * second.
Definition maxLearnTTL : Z := 3600 * second.
Definition clampTTL (ttl : Z) : Z :=
  let d := (ttl * second)%Z in
  if (d <? minLearnTTL)%Z then minLearnTTL else if (maxLearnTTL <? d)%Z then maxLearnTTL else d.

Definition dnsHdrLen : nat := 16.

(** The learner's state: the shared [verdicts] map and its own record of expiries. *)
Section learner.
Context `{UnicodeCase} `{Kernel} `{PodResolver} (dns : DnsParser).
Record learner := { l_verdicts : km_state k_verdicts; entries : gmap verdictKey Z }.

Definition learn_key (act exp : Z) (l : learner) (k : verdictKey) : learner :=
  match km_put k act (l_verdicts l) with
  | None => l
  | Some s => {| l_verdicts := s; entries := <[k := exp]> (entries l) |}
  end.
Definition learn_ips (cg : Z) (ips : list IP) (ports : list Z) (act exp : Z) (l : learner) : learner :=
  foldl (λ l ip, match To4 ip with
                 | None => l
                 | Some ip4 => foldl (λ l port, learn_key act exp l (vkey cg ip4 (be_put16 port))) l ports
                 end) l ips.

(** What [handle] finds in a record: the pod's cgroup and the rule's action and ports
    for the addresses of the answer; [None] where it returns early.  The resolver's
    state is threaded through. *)
Record learn_plan := { pl_cgroup : Z; pl_ips : list IP; pl_ports : list Z; pl_action : string; pl_ttl : Z }.
Definition answer_plan (eng : engine) (raw : bytes) (r : rst) : go engine_error (option learn_plan * rst) :=
  if bool_decide (length raw < dnsHdrLen) then Ok (None, r)
  else
    b4 ← gslice 0 4 raw;
    b8 ← gslice 8 16 raw;
    let plen := Z.to_nat (le_get b4) in
    let cgroupID := le_get b8 in
    if bool_decide (cgroupID = 0%Z) || bool_decide (plen = 0) || bool_decide (length raw < dnsHdrLen + plen) then Ok (None, r)
    else
      payload ← gslice dnsHdrLen (dnsHdrLen + plen) raw;
      match parseAnswers dns payload with
      | Ok (qname, ips, ttl) =>
          if bool_decide (qname = "") || bool_decide (ips = []) then Ok (None, r)
          else
            let '(pod, r) := by_cgroup cgroupID r in
            v ← DomainRuleVerdict eng pod (Labels pod) qname;
            match v with
            | None => Ok (None, r)
            | Some (action, ports) =>
                Ok (Some {| pl_cgroup := cgroupID; pl_ips := ips; pl_ports := if bool_decide (ports = []) then [0%Z] else ports;
                            pl_action := action; pl_ttl := ttl |}, r)
            end
      | Err _ | Panic => Panic
      | OutOfFuel => OutOfFuel
      end.
(** [handle] on one record. *)
Definition handle (eng : engine) (now : Z) (raw : bytes) (l : learner) (r : rst) : go engine_error (learner * rst) :=
  '(pl, r) ← answer_plan eng raw r;
  match pl with
  | None => Ok (l, r)
  | Some pl => Ok (learn_ips (pl_cgroup pl) (pl_ips pl) (pl_ports pl) (actionByte (pl_action pl)) (now + clampTTL (pl_ttl pl))%Z l, r)
  end.

(** One tick of [sweep]. *)
Definition sweep (now : Z) (l : learner) : learner :=
  map_fold (λ k exp l, if (exp <? now)%Z
                       then {| l_verdicts := km_delete k (l_verdicts l); entries := delete k (entries l) |} else l)
    l (entries l).

Definition entryCount (l : learner) : Z := Z.of_nat (size (entries l)).

(** [Run], [watch] and [sweep] as one sequence of events: an answer read from the
    ring buffer, a policy received from the source (an invalid one is ignored), a
    tick of the sweeper.  [NewDNSLearner] starts with no entry. *)
Definition NewDNSLearner (verdicts : km_state k_verdicts) : learner := {| l_verdicts := verdicts; entries := ∅ |}.
Record learner_state := { ls_learner : learner; ls_eng : engine; ls_pods : rst }.
(** The engine behind the mutex. *)
Definition setEngine (e : engine) (st : learner_state) : learner_state := {| ls_learner := ls_learner st; ls_eng := e; ls_pods := ls_pods st |}.
Inductive learner_event := Answer (now : Z) (raw : bytes) | PolicyUpdate (p : option Policy) | SweepTick (now : Z).
Definition learner_step (st : learner_state) (ev : learner_event) : go engine_error learner_state :=
  match ev with
  | Answer now raw =>
      '(l, r) ← handle (ls_eng st) now raw (ls_learner st) (ls_pods st);
      Ok {| ls_learner := l; ls_eng := ls_eng st; ls_pods := r |}
  | PolicyUpdate p =>
      match NewEngine p with
      | Ok e => Ok (setEngine e st)
      | _ => Ok st
      end
  | SweepTick now => Ok {| ls_learner := sweep now (ls_learner st); ls_eng := ls_eng st; ls_pods := ls_pods st |}
  end.
Definition learner_run (evs : list learner_event) (st : learner_state) : go engine_error learner_state :=
  foldl (λ r ev, st ← r; learner_step st ev) (Ok st) evs.
End learner.

(** ** The parser loops terminate *)
Section parse_facts.
Context (dns : DnsParser).

Lemma question_loop_returns fuel (p : pst dns) q : questions_left p < fuel → ∃ r, question_loop dns fuel p q = Ok r.
Proof.
  revert p q. induction fuel as [|fuel IH]; intros p q Hf; [lia|]. cbn [question_loop].
  destruct (Question p) as [| |[[n t] p']] eqn:E; [eauto..|]. apply IH.
  apply Question_consumes in E. lia.
Qed.
Lemma answer_loop_returns fuel (p : pst dns) ips ttl :
  answers_left p < fuel → Forall (λ ip, length ip = 4) ips →
  ∃ ips' ttl', answer_loop dns fuel p ips ttl = Ok (ips', ttl') ∧ Forall (λ ip, length ip = 4) ips'.
Proof.
  revert p ips ttl. induction fuel as [|fuel IH]; intros p ips ttl Hf Hips; [lia|]. cbn [answer_loop].
  destruct (AnswerHeader p) as [| |[[ty h] p']] eqn:E; [eauto..|]. apply AnswerHeader_keeps in E.
  case_bool_decide.
  - destruct (AResource p') as [[a p'']|] eqn:Ea; [|eauto]. apply AResource_consumes in Ea as [Ha Hl].
    apply IH; [lia|]. apply Forall_app. split; [done|]. by apply Forall_singleton.
  - destruct (SkipAnswer p') as [p''|] eqn:Es; [|eauto]. apply SkipAnswer_consumes in Es. apply IH; [lia|done].
Qed.
Lemma parseAnswers_returns payload :
  ∃ q ips ttl, parseAnswers dns payload = Ok (q, ips, ttl) ∧ Forall (λ ip, length ip = 4) ips.
Proof.
  unfold parseAnswers. destruct (Start dns payload) as [p|]; [|by eexists _, _, _].
  destruct (question_loop_returns (S (questions_left p)) p "") as [r ->]; [lia|]. cbn [mbind go_bind].
  destruct r as [[q p']|]; [|by eexists _, _, _].
  destruct (answer_loop_returns (S (answers_left p')) p' [] 0) as (ips & ttl & -> & Hips); [lia|constructor|].
  cbn [mbind go_bind]. by eexists _, _, _.
Qed.
End parse_facts.

(** ** What one record teaches *)
Definition learned_keys (cg : Z) (ips : list IP) (ports : list Z) : list verdictKey :=
  ips ≫= λ ip, from_option (λ ip4, (λ port, vkey cg ip4 (be_put16 port)) <$> ports) [] (To4 ip).

Lemma foldl_bind {A B S} (g : S → B → S) (ks : A → list B) l s :
  foldl g s (l ≫= ks) = foldl (λ s x, foldl g s (ks x)) s l.
Proof. revert s. induction l as [|x l IH]; intros s; [done|]. by rewrite bind_cons, foldl_app, IH. Qed.
Lemma foldl_map {A B S} (g : S → B → S) (h : A → B) l s : foldl g s (h <$> l) = foldl (λ s x, g s (h x)) s l.
Proof. revert s. induction l as [|x l IH]; intros s; [done|]. apply IH. Qed.

Section learn_facts.
Context `{UnicodeCase} `{Kernel}.

Lemma learn_ips_keys cg ips ports act exp l :
  learn_ips cg ips ports act exp l = foldl (learn_key act exp) l (learned_keys cg ips ports).
Proof.
  unfold learn_ips, learned_keys. rewrite foldl_bind. revert l.
  induction ips as [|ip ips IH]; intros l; [done|]. cbn [foldl]. rewrite IH. f_equal.
  destruct (To4 ip) as [ip4|]; [|done]. cbn [from_option]. by rewrite foldl_map.
Qed.
Lemma learn_keys_spec act exp ks l :
  let l' := foldl (learn_key act exp) l ks in
  (∀ k, entries l' !! k = if bool_decide (k ∈ ks) then Some exp else entries l !! k) ∧
  (∀ k v, km_contents (l_verdicts l') !! k = Some v →
     if bool_decide (k ∈ ks) then v = act else km_contents (l_verdicts l) !! k = Some v).
Proof.
  cbn zeta. revert l. induction ks as [|k0 ks IH]; intros l.
  { split; [done|]. intros k v Hv. done. }
  cbn [foldl]. destruct (IH (learn_key act exp l k0)) as [He Hc]. unfold learn_key in *.
  destruct (k_verdicts_lru k0 act (l_verdicts l)) as [s Hs]. rewrite Hs in *. cbn [entries l_verdicts] in *. split.
  - intros k. rewrite He. destruct (bool_decide_reflect (k ∈ ks)).
    + by rewrite bool_decide_true by (by right).
    + destruct (decide (k0 = k)) as [->|Hne]; [rewrite lookup_insert_eq, bool_decide_true; [done|left]|].
      rewrite lookup_insert_ne, bool_decide_false; [done|set_solver|done].
  - intros k v Hv%Hc. destruct (bool_decide_reflect (k ∈ ks)).
    + by rewrite bool_decide_true by (by right).
    + destruct (decide (k = k0)) as [->|Hne].
      * rewrite bool_decide_true by left. rewrite (km_put_key _ _ _ _ Hs) in Hv. by simplify_eq.
      * rewrite bool_decide_false by set_solver.
        destruct (km_put_other _ _ _ _ _ Hs Hne) as [Ho|Ho]; rewrite Ho in Hv; done.
Qed.
(** The key put last is there, and all of them where the kernel keeps them. *)
Lemma learn_keys_last act exp ks k l : km_contents (l_verdicts (foldl (learn_key act exp) l (ks ++ [k]))) !! k = Some act.
Proof.
  rewrite foldl_app. cbn [foldl]. unfold learn_key at 1. set (l' := foldl _ l ks).
  destruct (k_verdicts_lru k act (l_verdicts l')) as [s Hs]. rewrite Hs. by apply (km_put_key _ _ _ _ Hs).
Qed.
Lemma learn_keys_exact act exp ks l :
  verdicts_fit (dom (km_contents (l_verdicts l)) ∪ list_to_set ks) →
  ∀ k, km_contents (l_verdicts (foldl (learn_key act exp) l ks)) !! k = if bool_decide (k ∈ ks) then Some act else km_contents (l_verdicts l) !! k.
Proof.
  intros (n & Hkeep & Hsize) k. set (D := dom _ ∪ list_to_set ks) in Hsize.
  pose proof (lru_roomy k_verdicts D n k_verdicts_lru Hkeep Hsize) as Hroomy.
  assert (dom (km_contents (l_verdicts l)) ⊆ D) as Hdom by (unfold D; set_solver).
  assert (∀ k, k ∈ ks → k ∈ D) as Hks by (unfold D; set_solver). clearbody D. revert l Hdom Hks.
  induction ks as [|k0 ks IH]; intros l Hdom Hks; [done|]. cbn [foldl].
  destruct (put_fits k_verdicts D k0 act (l_verdicts l) Hroomy Hdom (Hks k0 ltac:(left))) as (s & Hs & Hc & Hd).
  assert (learn_key act exp l k0 = {| l_verdicts := s; entries := <[k0 := exp]> (entries l) |}) as -> by (unfold learn_key; by rewrite Hs).
  rewrite IH by (done || (clear -Hks; set_solver)). cbn [l_verdicts]. rewrite Hc.
  destruct (bool_decide_reflect (k ∈ ks)); [by rewrite bool_decide_true by (by right)|].
  destruct (decide (k0 = k)) as [->|Hne]; [by rewrite lookup_insert_eq, bool_decide_true by left|].
  rewrite lookup_insert_ne, bool_decide_false; [done|set_solver|done].
Qed.

Lemma clampTTL_range ttl : (minLearnTTL ≤ clampTTL ttl ≤ maxLearnTTL)%Z.
Proof.
  unfold clampTTL, minLearnTTL, maxLearnTTL, second. destruct (_ <? _)%Z eqn:E1; [lia|].
  destruct (3600 * 1000000000 <? _)%Z eqn:E2; lia.
Qed.

(** The record [dns_ingress] submits for a payload. *)
Definition dns_record (cg : Z) (payload rest : bytes) : bytes :=
  le_put 4 (Z.of_nat (length payload)) ++ replicate 4 x00 ++ le_put 8 cg ++ payload ++ rest.

Lemma handle_eq `{PodResolver} (dns : DnsParser) p eng now raw l r :
  NewEngine (Some p) = Ok eng →
  let plen := Z.to_nat (le_get (take 4 raw)) in
  let cg := le_get (take 8 (drop 8 raw)) in
  let '(pod, r') := by_cgroup cg r in
  handle dns eng now raw l r =
    if bool_decide (length raw < dnsHdrLen) || bool_decide (cg = 0%Z) || bool_decide (plen = 0) ||
       bool_decide (length raw < dnsHdrLen + plen)
    then Ok (l, r)
    else match parseAnswers dns (take plen (drop dnsHdrLen raw)) with
         | Ok (qname, ips, ttl) =>
             if bool_decide (qname = "") || bool_decide (ips = []) then Ok (l, r)
             else match first (domain_decides pod (Labels pod) qname) (Rules p) with
                  | None => Ok (l, r')
                  | Some (action, ports) =>
                      Ok (foldl (learn_key (actionByte action) (now + clampTTL ttl)) l
                            (learned_keys cg ips (if bool_decide (ports = []) then [0%Z] else ports)), r')
                  end
         | _ => Panic
         end.
Proof.
  intros Heng. cbn zeta. destruct (by_cgroup _ r) as [pod r'] eqn:Er. unfold handle, answer_plan.
  destruct (bool_decide_reflect (length raw < dnsHdrLen)) as [|Hl]; [done|].
  unfold dnsHdrLen in *. rewrite !gslice_ok by lia. cbn [mbind go_bind]. rewrite drop_0. change (4 - 0) with 4.
  change (16 - 8) with 8. cbn [orb]. destruct (_ || _ || _) eqn:E; [done|].
  apply orb_false_iff in E as [_ E%bool_decide_eq_false].
  rewrite gslice_ok by lia. cbn [mbind go_bind].
  replace (16 + Z.to_nat (le_get (take 4 raw)) - 16) with (Z.to_nat (le_get (take 4 raw))) by lia.
  destruct (parseAnswers_returns dns (take (Z.to_nat (le_get (take 4 raw))) (drop 16 raw))) as (q & ips & ttl & -> & _).
  destruct (_ || _); [done|]. rewrite Er.
  pose proof (NewEngine_ok _ _ Heng) as (Hp & _ & HF & _). unfold DomainRuleVerdict. rewrite Hp.
  pose proof (domain_rule_loop_first p pod (Labels pod) q [] (Rules p) (e_rules eng) eq_refl HF) as Hd.
  cbn [length] in Hd. rewrite Hd. cbn [mbind go_bind].
  destruct (first _ _) as [[a ports]|]; [|done]. cbn [mbind go_bind pl_cgroup pl_ips pl_ports pl_action pl_ttl]. by rewrite learn_ips_keys.
Qed.

Lemma sweep_eq now l :
  entries (sweep now l) = filter (λ ke, (now ≤ ke.2)%Z) (entries l) ∧
  ∀ k, km_contents (l_verdicts (sweep now l)) !! k =
    match entries l !! k with
    | Some exp => if (exp <? now)%Z then None else km_contents (l_verdicts l) !! k
    | None => km_contents (l_verdicts l) !! k
    end.
Proof.
  unfold sweep. set (g := λ (k : verdictKey) (exp : Z) (l : learner), _).
  cut (∀ m, let l' := map_fold g l m in
    (∀ k, entries l' !! k = match m !! k with Some exp => if (exp <? now)%Z then None else entries l !! k | None => entries l !! k end) ∧
    (∀ k, km_contents (l_verdicts l') !! k =
       match m !! k with Some exp => if (exp <? now)%Z then None else km_contents (l_verdicts l) !! k
                       | None => km_contents (l_verdicts l) !! k end)).
  { intros Hm. destruct (Hm (entries l)) as [He Hc]. split; [|done]. apply map_eq. intros k. rewrite He.
    rewrite map_lookup_filter. destruct (entries l !! k) as [exp|]; [|done]. simpl.
    destruct (Z.ltb_spec exp now).
    - rewrite option_guard_False by lia. done.
    - rewrite option_guard_True by lia. done. }
  intros m. cbn zeta. apply (map_fold_weak_ind (λ l' m,
    (∀ k, entries l' !! k = match m !! k with Some exp => if (exp <? now)%Z then None else entries l !! k | None => entries l !! k end) ∧
    (∀ k, km_contents (l_verdicts l') !! k =
       match m !! k with Some exp => if (exp <? now)%Z then None else km_contents (l_verdicts l) !! k
                       | None => km_contents (l_verdicts l) !! k end))).
  - split; intros k; by rewrite lookup_empty.
  - intros k exp m' l' Hk [He Hc]. unfold g. destruct (Z.ltb_spec exp now) as [Hlt|Hge]; cbn [entries l_verdicts].
    + split; intros k'; destruct (decide (k' = k)) as [->|Hne];
        rewrite ?km_delete_spec, ?lookup_delete_eq, ?lookup_insert_eq, ?lookup_delete_ne, ?lookup_insert_ne by done; try done;
        by rewrite (proj2 (Z.ltb_lt _ _)) by lia.
    + split; intros k'; destruct (decide (k' = k)) as [->|Hne];
        rewrite ?lookup_insert_eq, ?lookup_insert_ne by done; try done;
        rewrite ?He, ?Hc, Hk; by rewrite (proj2 (Z.ltb_ge _ _)) by lia.
Qed.
End learn_facts.

(** ** A run of the learner *)
Section run_facts.
Context `{UnicodeCase} `{Kernel} `{PodResolver} (dns : DnsParser).

(** The engine is the compilation of a policy that satisfies [P]. *)
Definition compiled_from (P : Policy → Prop) (st : learner_state) : Prop :=
  ∃ p, NewEngine (Some p) = Ok (ls_eng st) ∧ P p.
Definition update_ok (P : Policy → Prop) (ev : learner_event) : Prop :=
  match ev with PolicyUpdate p => P (default Policy_zero p) | _ => True end.
(** Events at or before [T]. *)
Definition before (T : Z) (ev : learner_event) : Prop := match ev with Answer now _ => (now ≤ T)%Z | _ => True end.
Definition expires_by (T : Z) (l : learner) : Prop := map_Forall (λ _ exp, exp ≤ T)%Z (entries l).
Definition no_domains (p : Policy) : Prop := Forall (λ r, Domains (r_Match r) = []) (Rules p).

Lemma update_compiled P p e : P (default Policy_zero p) → NewEngine p = Ok e → ∃ q, NewEngine (Some q) = Ok e ∧ P q.
Proof. intros Hp He. destruct p as [p|]; [by exists p|]. rewrite NewEngine_nil in He. by exists Policy_zero. Qed.
(** What a record changes: nothing, or entries of a matching rule that live at most
    an hour. *)
Lemma handle_cases p eng now raw l r :
  NewEngine (Some p) = Ok eng →
  ∃ l' r', handle dns eng now raw l r = Ok (l', r') ∧
    (l' = l ∨ ∃ act exp keys, l' = foldl (learn_key act exp) l keys ∧ (exp ≤ now + maxLearnTTL)%Z ∧
                ∃ pod qname a ports, first (domain_decides pod (Labels pod) qname) (Rules p) = Some (a, ports) ∧ act = actionByte a).
Proof.
  intros Hp. pose proof (handle_eq dns p eng now raw l r Hp) as He. cbn zeta in He.
  destruct (by_cgroup _ _) as [pod r']. rewrite He.
  destruct (parseAnswers_returns dns (take (Z.to_nat (le_get (take 4 raw))) (drop dnsHdrLen raw))) as (q & ips & ttl & -> & _).
  destruct (_ || _); [eauto 6|destruct (_ || _); [eauto 6|]].
  destruct (first (domain_decides pod (Labels pod) q) (Rules p)) as [[act ports]|] eqn:E; [|eauto 6].
  eexists _, _. split; [done|]. right. eexists _, _, _. split; [done|]. split; [pose proof (clampTTL_range ttl); lia|].
  exists pod, q, act, ports. done.
Qed.
Lemma first_no_domains p pod labels q : no_domains p → first (domain_decides pod labels q) (Rules p) = None.
Proof.
  intros Hn. apply first_None. intros r Hr. unfold no_domains in Hn. rewrite Forall_forall in Hn. unfold domain_decides.
  by rewrite (Hn r Hr).
Qed.

Lemma learner_step_ok P T st ev :
  compiled_from P st → update_ok P ev →
  ∃ st', learner_step dns st ev = Ok st' ∧ compiled_from P st' ∧
    (before T ev → expires_by (T + maxLearnTTL) (ls_learner st) → expires_by (T + maxLearnTTL) (ls_learner st')).
Proof.
  intros (p & Hp & HP) Hu. destruct ev as [now raw|q|now]; cbn [learner_step].
  - destruct (handle_cases p (ls_eng st) now raw (ls_learner st) (ls_pods st) Hp) as (l' & r' & -> & Hc).
    cbn [mbind go_bind]. eexists. split; [done|]. split; [by exists p|]. cbn [before ls_learner]. intros Hb He.
    destruct Hc as [-> |(act & exp & keys & -> & Hexp & _)]; [done|]. intros k e Hk.
    rewrite (proj1 (learn_keys_spec act exp keys (ls_learner st))) in Hk. revert Hk.
    case_bool_decide; [intros [= <-]; lia|]. apply He.
  - destruct (NewEngine q) as [e| | |] eqn:E; eexists; (split; [done|]); (split; [|done]); [|by exists p..]. by eapply update_compiled.
  - eexists. split; [done|]. split; [by exists p|]. intros _ He k e. cbn [ls_learner].
    rewrite (proj1 (sweep_eq now (ls_learner st))). intros [Hk _]%map_lookup_filter_Some. by apply (He k).
Qed.
Lemma learner_run_ok P T evs st :
  compiled_from P st → Forall (update_ok P) evs → Forall (before T) evs → expires_by (T + maxLearnTTL) (ls_learner st) →
  ∃ st', learner_run dns evs st = Ok st' ∧ compiled_from P st' ∧ expires_by (T + maxLearnTTL) (ls_learner st').
Proof.
  unfold learner_run. intros Hc Hu. revert st Hc. induction Hu as [|ev evs Hev _ IH]; intros st Hc Hb He; [eauto|].
  apply Forall_cons in Hb as [Hb1 Hb]. cbn [foldl mbind go_bind].
  destruct (learner_step_ok P T st ev Hc Hev) as (st1 & -> & Hc1 & He1). apply IH; auto.
Qed.

(** Nothing is learned without domain rules: entries only go, and take their key
    with them. *)
Definition forgets (l0 l : learner) : Prop :=
  (∀ k exp, entries l !! k = Some exp → entries l0 !! k = Some exp) ∧
  ∀ k, is_Some (entries l0 !! k) → is_Some (entries l !! k) ∨ km_contents (l_verdicts l) !! k = None.
Lemma forgets_sweep l0 l now : forgets l0 l → forgets l0 (sweep now l).
Proof.
  intros [H1' H2']. destruct (sweep_eq now l) as [He Hc]. split.
  - intros k exp. rewrite He. intros [Hk _]%map_lookup_filter_Some. auto.
  - intros k Hk. rewrite He, Hc, map_lookup_filter. destruct (H2' k Hk) as [[exp Hexp]|Hn].
    + rewrite Hexp. cbn [mbind option_bind]. destruct (Z.ltb_spec exp now); [by right|].
      left. rewrite option_guard_True by (simpl; lia). eauto.
    + destruct (entries l !! k) as [exp|] eqn:E; [|by right]. destruct (Z.ltb_spec exp now); [by right|].
      cbn [mbind option_bind]. left. rewrite option_guard_True by (simpl; lia). eauto.
Qed.
Lemma learner_run_forgets evs l0 st :
  compiled_from no_domains st → Forall (update_ok no_domains) evs → forgets l0 (ls_learner st) →
  ∃ st', learner_run dns evs st = Ok st' ∧ compiled_from no_domains st' ∧ forgets l0 (ls_learner st').
Proof.
  unfold learner_run. intros Hc Hu. revert st Hc. induction Hu as [|ev evs Hev _ IH]; intros st Hc Hf; [eauto|].
  cbn [foldl mbind go_bind]. destruct (learner_step_ok no_domains 0 st ev Hc Hev) as (st1 & Hst1 & Hc1 & _). rewrite Hst1.
  apply IH; [done|]. destruct Hc as (p & Hp & Hn). destruct ev as [now raw|q|now]; cbn [learner_step] in Hst1.
  - destruct (handle_cases p (ls_eng st) now raw (ls_learner st) (ls_pods st) Hp) as (l' & r' & E & Hc). rewrite E in Hst1.
    cbn [mbind go_bind] in Hst1. simplify_eq. cbn [ls_learner].
    destruct Hc as [-> |(? & ? & ? & _ & _ & pod & qn & a & ports & Hfirst & _)]; [done|]. by rewrite first_no_domains in Hfirst.
  - destruct (NewEngine q); simplify_eq; done.
  - simplify_eq. by apply forgets_sweep.
Qed.
End run_facts.

(** ** A concrete parser, for the examples: the message is fixed *)
Record message := { msg_questions : list (string * string); msg_answers : list (Z * Z * bytes) }.
Definition msg_Question (m : message) : dns_next (string * string * message) :=
  match msg_questions m with
  | [] => SectionDone
  | (n, t) :: qs => Got (n, t, {| msg_questions := qs; msg_answers := msg_answers m |})
  end.
Definition msg_AnswerHeader (m : message) : dns_next (Z * Z * message) :=
  match msg_answers m with [] => SectionDone | (t, ttl, _) :: _ => Got (t, ttl, m) end.
Definition msg_next (m : message) (as_ : list (Z * Z * bytes)) : message :=
  {| msg_questions := msg_questions m; msg_answers := as_ |}.
Definition msg_AResource (m : message) : option (bytes * message) :=
  match msg_answers m with
  | (_, _, [a; b; c; d]) :: rest => Some ([a; b; c; d], msg_next m rest)
  | _ => None
  end.
Definition msg_SkipAnswer (m : message) : option message :=
  match msg_answers m with [] => None | _ :: rest => Some (msg_next m rest) end.
Program Definition fixed_dns (m : message) : DnsParser := {|
  pst := message; Start := λ _, Some m; Question := msg_Question; AnswerHeader := msg_AnswerHeader;
  AResource := msg_AResource; SkipAnswer := msg_SkipAnswer;
  questions_left := λ m, length (msg_questions m); answers_left := λ m, length (msg_answers m)
|}.
Next Obligation. intros m s n t s' Hq. unfold msg_Question in Hq. destruct (msg_questions s) as [|[? ?] qs] eqn:E; simplify_eq/=; rewrite ?E; simpl; lia. Qed.
Next Obligation. intros m s t ttl s' Hq. unfold msg_AnswerHeader in Hq. destruct (msg_answers s) as [|[[? ?] ?] qs] eqn:E; simplify_eq/=. by rewrite E. Qed.
Next Obligation.
  intros m s a s' Hq. unfold msg_AResource in Hq.
  destruct (msg_answers s) as [|[[? ?] [|? [|? [|? [|? [|]]]]]] qs] eqn:E; simplify_eq/=. rewrite ?E. simpl. lia.
Qed.
Next Obligation. intros m s s' Hq. unfold msg_SkipAnswer in Hq. destruct (msg_answers s) as [|? qs] eqn:E; simplify_eq/=; rewrite ?E; simpl; lia. Qed.

Definition ex_message (name : string) (ttl : Z) : message :=
  {| msg_questions := [(name, "TypeA")]; msg_answers := [(TypeA, ttl, [xcb; x00; x71; x09])] |}.
(** The TTL kept is not the smallest one when a record with TTL 0 comes first. *)
Example zero_ttl_first :
  parseAnswers (fixed_dns {| msg_questions := [("a.", "TypeA")];
    msg_answers := [(TypeA, 0%Z, [x01; x02; x03; x04]); (5%Z, 9%Z, []); (TypeA, 300%Z, [x01; x02; x03; x05])] |}) [] =
  Ok ("a", [[x01; x02; x03; x04]; [x01; x02; x03; x05]], 300%Z).
Proof. by vm_compute. Qed.

(** ** Theorems *)
(** The learner survives every record: on any bytes from the ring buffer and
    any parser that consumes its counts, [handle] returns without a panic, with
    the loops' fuel, and its result is a state. *)
Theorem handle_total `{UnicodeCase} `{Kernel} `{PodResolver} dns p eng now raw l r :
  NewEngine (Some p) = Ok eng → ∃ l' r', handle dns eng now raw l r = Ok (l', r').
Proof.
  intros Heng. pose proof (handle_eq dns p eng now raw l r Heng) as He. cbn zeta in He.
  destruct (by_cgroup _ r) as [pod r']. rewrite He. destruct (_ || _); [eauto|].
  destruct (parseAnswers_returns dns (take (Z.to_nat (le_get (take 4 raw))) (drop dnsHdrLen raw))) as (q & ips & ttl & -> & _).
  destruct (_ || _); [eauto|]. destruct (first _ _) as [[? ?]|]; eauto.
Qed.
Definition linux_learner : learner (H0 := linux) := {| l_verdicts := (∅ : km_state (@k_verdicts linux)); entries := ∅ |}.
Definition no_pods : PodResolver := fixed_pods (λ _, PodInfo_zero).
Lemma handle_total_witness : ∃ e l' r',
  NewEngine (H := ascii_case) (Some ex_policy) = Ok e ∧
  handle (H := ascii_case) (H0 := linux) (H1 := no_pods) (fixed_dns (ex_message "a.evil.com." 30)) e 0 [x01] linux_learner tt = Ok (l', r').
Proof.
  eexists. edestruct (handle_total (H := ascii_case) (H0 := linux) (H1 := no_pods) (fixed_dns (ex_message "a.evil.com." 30)) ex_policy) as (l' & r' & Hl);
    [|exists l', r'; split; [|exact Hl]]; vm_compute; reflexivity.
Defined.

(** One record of a pod's answer, as the bytes [dns_ingress] submits. *)
Lemma handle_record `{UnicodeCase} `{Kernel} `{PodResolver} dns p eng now cg payload rest l r qname ips ttl :
  NewEngine (Some p) = Ok eng → (0 < cg < 2 ^ 64)%Z → payload ≠ [] → (Z.of_nat (length payload) < 2 ^ 32)%Z →
  parseAnswers dns payload = Ok (qname, ips, ttl) → qname ≠ "" → ips ≠ [] →
  let '(pod, r') := by_cgroup cg r in
  ∃ l', handle dns eng now (dns_record cg payload rest) l r = Ok (l', r') ∧
  match domain_rule pod (Labels pod) qname (Rules p) with
  | None => l' = l
  | Some rule =>
      let ports := Ports (r_Match rule) in
      let keys := learned_keys cg ips (if bool_decide (ports = []) then [0%Z] else ports) in
      let act := actionByte (r_Action rule) in
      ∃ exp, (now + minLearnTTL ≤ exp ≤ now + maxLearnTTL)%Z ∧
        (∀ k, entries l' !! k = if bool_decide (k ∈ keys) then Some exp else entries l !! k) ∧
        (∀ k v, km_contents (l_verdicts l') !! k = Some v → if bool_decide (k ∈ keys) then v = act else km_contents (l_verdicts l) !! k = Some v) ∧
        (∀ k, last keys = Some k → km_contents (l_verdicts l') !! k = Some act) ∧
        (verdicts_fit (dom (km_contents (l_verdicts l)) ∪ list_to_set keys) →
         ∀ k, km_contents (l_verdicts l') !! k = if bool_decide (k ∈ keys) then Some act else km_contents (l_verdicts l) !! k)
  end.
Proof.
  intros Heng Hcg Hne Hlen Hparse Hq Hips.
  pose proof (handle_eq dns p eng now (dns_record cg payload rest) l r Heng) as He. cbn zeta in He. unfold dns_record in *.
  assert (length (le_put 4 (Z.of_nat (length payload))) = 4) as H4 by apply length_le_put.
  assert (length (le_put 8 cg) = 8) as H8 by apply length_le_put.
  rewrite take_app_length' in He by done. rewrite le_get_put, Z.mod_small, Nat2Z.id in He by lia.
  assert (drop 8 (le_put 4 (Z.of_nat (length payload)) ++ replicate 4 x00 ++ le_put 8 cg ++ payload ++ rest) =
    le_put 8 cg ++ payload ++ rest) as Hd8.
  { rewrite (assoc_L (++)). by rewrite drop_app_length' by (rewrite length_app, H4; done). }
  assert (drop dnsHdrLen (le_put 4 (Z.of_nat (length payload)) ++ replicate 4 x00 ++ le_put 8 cg ++ payload ++ rest) =
    payload ++ rest) as Hd16.
  { change dnsHdrLen with (8 + 8). rewrite <-drop_drop, Hd8. by rewrite drop_app_length' by done. }
  rewrite Hd8, Hd16, take_app_length' in He by done. rewrite le_get_put, Z.mod_small in He by lia.
  rewrite take_app_length, Hparse in He. destruct (by_cgroup cg r) as [pod r'].
  assert (length payload ≠ 0) by (by destruct payload).
  unfold dnsHdrLen in He. rewrite !bool_decide_false in He by (rewrite ?length_app, ?H4, ?H8, ?length_replicate; (done || lia)).
  cbn [orb] in He. rewrite He, first_domain_rule. destruct (domain_rule _ _ _ _) as [rule|]; cbn [fmap option_fmap option_map]; [|eauto].
  eexists. split; [done|]. cbn zeta. set (keys := learned_keys _ _ _).
  pose proof (clampTTL_range ttl). exists (now + clampTTL ttl)%Z. split; [lia|].
  destruct (learn_keys_spec (actionByte (r_Action rule)) (now + clampTTL ttl) keys l) as [Hent Hcont]. split; [exact Hent|]. split; [exact Hcont|]. split.
  - intros k [ks Hks]%last_Some. rewrite Hks. apply learn_keys_last.
  - apply learn_keys_exact.
Qed.


(** Expiry: a sweep drops exactly the learner's entries whose expiry has
    passed, deletes their keys from the shared map whoever wrote the current
    value, and leaves every other key of both alone. *)
Theorem sweep_expires `{Kernel} now l :
  entries (sweep now l) = filter (λ ke, (now ≤ ke.2)%Z) (entries l) ∧
  ∀ k, km_contents (l_verdicts (sweep now l)) !! k =
    match entries l !! k with
    | Some exp => if (exp <? now)%Z then None else km_contents (l_verdicts l) !! k
    | None => km_contents (l_verdicts l) !! k
    end.
Proof. apply sweep_eq. Qed.

(** A domain rule that leaves the policy leaves the datapath: after any run of
    answers up to time [T], policy updates and sweeps, once the policy has no
    domain rule any more (and later updates add none) the first sweep more than an
    hour after [T] leaves the learner empty and every key it had programmed out of
    the shared map, whatever answers and sweeps come in between; the run itself
    never panics. *)
Theorem dropped_domain_rules_expire `{UnicodeCase} `{Kernel} `{PodResolver} dns p0 eng verdicts r T evs1 q evs2 now :
  NewEngine (Some p0) = Ok eng → Forall (before T) evs1 →
  valid_policy q → no_domains q → Forall (update_ok no_domains) evs2 → (T + maxLearnTTL < now)%Z →
  ∃ st1 st2,
    learner_run dns evs1 {| ls_learner := NewDNSLearner verdicts; ls_eng := eng; ls_pods := r |} = Ok st1 ∧
    learner_run dns (PolicyUpdate (Some q) :: evs2 ++ [SweepTick now]) st1 = Ok st2 ∧
    entries (ls_learner st2) = ∅ ∧
    ∀ k, is_Some (entries (ls_learner st1) !! k) → km_contents (l_verdicts (ls_learner st2)) !! k = None.
Proof.
  intros Heng Hb Hq Hn Hu Hnow.
  destruct (learner_run_ok dns (λ _, True) T evs1 {| ls_learner := NewDNSLearner verdicts; ls_eng := eng; ls_pods := r |}) as (st1 & Hr1 & _ & He1).
  { by exists p0. } { apply Forall_true. by intros []. } { done. } { apply map_Forall_empty. }
  destruct (NewEngine_valid q Hq) as [e He].
  destruct (learner_run_forgets dns evs2 (ls_learner st1) (setEngine e st1))
    as (st2 & Hr2 & _ & Hf1 & Hf2).
  { by exists q. } { done. } { split; [done|by left]. }
  exists st1. eexists. split; [done|]. unfold learner_run in *. cbn [foldl mbind go_bind learner_step]. rewrite He, foldl_app, Hr2.
  cbn [foldl mbind go_bind learner_step]. split; [done|]. cbn [ls_learner].
  destruct (sweep_eq now (ls_learner st2)) as [Hse Hsc].
  assert (∀ k exp, entries (ls_learner st2) !! k = Some exp → (exp < now)%Z) as Hexp.
  { intros k exp Hk. apply Hf1, He1 in Hk. lia. }
  split.
  - rewrite Hse. apply map_empty. intros k. apply map_lookup_filter_None. right. intros exp Hk Hle. apply Hexp in Hk. simpl in Hle. lia.
  - intros k Hk. rewrite Hsc. destruct (entries (ls_learner st2) !! k) as [exp|] eqn:E.
    + by rewrite (proj2 (Z.ltb_lt _ _)) by (by eapply Hexp).
    + destruct (Hf2 k Hk) as [[? Hx]|Hx]; [by rewrite E in Hx|done].
Qed.
Definition payload1 : bytes := [x2a].
Definition learned_from (p : Policy) (pod : PodInfo) (m : message) (now : Z) (l : learner (H0 := linux)) : learner (H0 := linux) :=
  match NewEngine (H := ascii_case) (Some p) with
  | Ok e => match handle (H := ascii_case) (H0 := linux) (H1 := fixed_pods (λ _, pod)) (fixed_dns m) e now (dns_record 7 payload1 []) l tt with
            | Ok (l', _) => l' | _ => l end
  | _ => l
  end.
Definition ex_engine : engine :=
  match NewEngine (H := ascii_case) (Some ex_policy) with Ok e => e | _ => {| e_policy := ex_policy; e_rules := []; e_def := "" |} end.
(** Deny a domain on one port. *)
Definition ex_domain_rule : Rule :=
  ex_rule "dom" {| m_Pod := PodSelector_zero; Domains := ["*.evil.com"]; CIDRs := []; Ports := [443%Z]; Methods := []; PathPrefix := "" |} ActionDeny.
Definition ex_domain : Policy := {| p_PodSelector := None; DefaultAction := ""; Rules := [ex_domain_rule] |}.
Definition ex_domain_engine : engine :=
  match NewEngine (H := ascii_case) (Some ex_domain) with Ok e => e | _ => {| e_policy := ex_domain; e_rules := []; e_def := "" |} end.

Lemma dropped_domain_rules_expire_witness : ∃ st1 st2,
  learner_run (H := ascii_case) (H0 := linux) (H1 := no_pods) (fixed_dns (ex_message "a.evil.com." 30)) [Answer 5 (dns_record 7 payload1 [])]
    {| ls_learner := linux_learner; ls_eng := ex_engine; ls_pods := (tt : @rst no_pods) |} = Ok st1 ∧
  learner_run (H := ascii_case) (H0 := linux) (H1 := no_pods) (fixed_dns (ex_message "a.evil.com." 30))
    (PolicyUpdate (Some Policy_zero) :: [Answer 6 (dns_record 7 payload1 []); SweepTick 7] ++ [SweepTick (4000 * second)]) st1 = Ok st2 ∧
  entries (ls_learner st2) = ∅.
Proof.
  destruct (dropped_domain_rules_expire (H := ascii_case) (H0 := linux) (H1 := no_pods) (fixed_dns (ex_message "a.evil.com." 30)) ex_policy ex_engine
    (∅ : km_state (@k_verdicts linux)) (tt : @rst no_pods) 5 [Answer 5 (dns_record 7 payload1 [])] Policy_zero
    [Answer 6 (dns_record 7 payload1 []); SweepTick 7] (4000 * second)) as (st1 & st2 & Hr1 & Hr2 & He & _).
  1: by vm_compute.
  1: by repeat constructor.
  1: by apply Validate_None; vm_compute.
  1: by constructor.
  1: by repeat constructor.
  1: by vm_compute.
  exists st1, st2. split_and!; [exact Hr1|exact Hr2|exact He].
Defined.

(** The datapath with the learner's map. *)
Definition with_verdicts (m : @Maps linux) (s : km_state (@k_verdicts linux)) : @Maps linux :=
  {| Default := Default m; Verdicts := s; CIDR := CIDR m; Cfg := Cfg m |}.

(** A domain rule limited to an HTTP method and path blocks the whole domain:
    the documentation says L7 rules are evaluated but never dropped, yet one DNS
    answer makes the kernel deny every port of the resolved address, while the
    engine allows a request the rule does not match. *)
Theorem l7_rule_blocks_whole_domain :
  let l := learned_from ex_policy PodInfo_zero (ex_message "a.evil.com." 30) 0 linux_learner in
  verdict_for (H := linux) (with_verdicts linux_loaded (l_verdicts l)) 7 [xcb; x00; x71; x09] (be_put16 8443) = ACTION_DENY ∧
  v_Action (policy_verdict (H := ascii_case) ex_policy (ex_flow "203.0.113.9" 8443 "a.evil.com" "POST" "/b")) = ActionAllow.
Proof. by vm_compute. Qed.

(** A learned entry takes a static rule with it: when a pod's static
    address-and-port rule and a learned entry share a key, the sweep that expires
    the learned entry deletes the key, and the datapath stops enforcing the static
    rule until the next re-walk writes it again. *)
Theorem sweep_removes_static_rule :
  let ns_b := with_namespace PodSelector_zero "b" in
  let pol := {| p_PodSelector := None; DefaultAction := "";
                Rules := [ex_rule "dom" {| m_Pod := ns_b; Domains := ["evil.com"]; CIDRs := []; Ports := [443%Z]; Methods := []; PathPrefix := "" |} ActionDeny;
                          ex_rule "host" {| m_Pod := ns_b; Domains := []; CIDRs := ["203.0.113.9/32"]; Ports := [443%Z]; Methods := []; PathPrefix := "" |} ActionDeny] |} in
  let pod := {| Namespace := "b"; Name := "w"; pi_UID := "u"; Container := ""; pi_QoS := ""; Node := ""; Labels := ∅ |} in
  let eng := match NewEngine (H := ascii_case) (Some pol) with Ok e => e | _ => {| e_policy := pol; e_rules := []; e_def := "" |} end in
  let m1 := maps (apply (H := linux) (NewProgrammer (H := linux) linux_loaded false) eng (λ _, [(7%Z, pod)])) in
  let l := learned_from pol pod (ex_message "evil.com." 30) 0 {| l_verdicts := Verdicts m1; entries := ∅ |} in
  let verdict s := verdict_for (H := linux) (with_verdicts m1 s) 7 [xcb; x00; x71; x09] (be_put16 443) in
  verdict (Verdicts m1) = ACTION_DENY ∧ verdict (l_verdicts l) = ACTION_DENY ∧
  verdict (l_verdicts (sweep (H0 := linux) (61 * second) l)) = ACTION_ALLOW ∧
  v_Action (Evaluate (H := ascii_case) eng {| f_Pod := pod; f_Labels := ∅; DstIP := [xcb; x00; x71; x09]; Port := 443;
                                              Domain := ""; Method := ""; Path := "" |}) = ActionDeny.
Proof. by vm_compute. Qed.
