(* ===== verification/EgressMon.v ===== *)
(** * The egress monitor's event loop ([internal/egress/egress.go])

    [parseHeader] and [handleEvent] with every effect of the handler: the
    connection de-dup set, the resolver's state, and the trace of calls to the sink
    and the counters, in order.  The last part joins it to the kernel side: the
    bytes of a [struct event] and what the monitor reads from them. *)

From S2P Require Import Prelude GoStrings GoNet NetBits TlsParse Attr Policy Engine Datapath Hooks Config L7 Output DnsLearn.
From Stdlib Require String.

(** ** Definitions *)
Definition evtConnect : Z := 1.
Definition evtDNS : Z := 2.
Definition evtTLS : Z := 3.
Definition evtHTTP : Z := 4.
Definition hdrLen : nat := 56.
Definition actionDeny : Z := 0.

Record eventHeader := {
  eh_evtType : Z; eh_action : Z; eh_src : IP; eh_dst : IP; eh_dport : Z; eh_plen : Z; eh_cgroupID : Z
}.
Definition be_get16 (l : bytes) : Z := match l with [a; b] => be16 a b | _ => 0 end.

(** [Ok None] is [ok = false]. *)
Definition parseHeader (raw : bytes) : go unit (option eventHeader) :=
  if bool_decide (length raw < hdrLen) then Ok None
  else
    version ← gindex 1 raw;
    let alen := if bool_decide (b2z version = 6%Z) then 16 else 4 in
    ty ← gindex 0 raw;
    act ← gindex 3 raw;
    src ← gslice 4 (4 + alen) raw;
    dst ← gslice 20 (20 + alen) raw;
    dp ← gslice 38 40 raw;
    pl ← gslice 40 44 raw;
    cg ← gslice 48 56 raw;
    Ok (Some {| eh_evtType := b2z ty; eh_action := b2z act; eh_src := src; eh_dst := dst; eh_dport := be_get16 dp;
                eh_plen := le_get pl; eh_cgroupID := le_get cg |}).

Definition kernelAction (b : Z) : string := if bool_decide (b = actionDeny) then "Deny" else "Allow".

(** [dnsQuestions]: both ways out of the loop keep what was read. *)
Fixpoint dns_question_loop (dns : DnsParser) (fuel : nat) (p : pst dns) : go unit (list (string * string)) :=
  match fuel with
  | O => OutOfFuel
  | S fuel =>
      match Question p with
      | SectionDone | ParseError => Ok []
      | Got (name, typ, p) => qs ← dns_question_loop dns fuel p; Ok ((TrimSuffix name ".", typ) :: qs)
      end
  end.
Definition dnsQuestions (dns : DnsParser) (payload : bytes) : go unit (list (string * string)) :=
  if bool_decide (payload = []) then Ok []
  else match Start dns payload with
       | None => Ok []
       | Some p => dns_question_loop dns (S (questions_left p)) p
       end.

(** What the handler does to the outside, in order. *)
Inductive effect :=
  | DropCounted (kind : string)
  | FilteredCounted (kind : string)
  | Emitted (e : Event).

Section monitor.
Context `{UnicodeCase} `{PodResolver} (dns : DnsParser).
Record monitor := { seen : gset string; pods : rst; trace : list effect }.
Definition log (x : effect) (m : monitor) : monitor := {| seen := seen m; pods := pods m; trace := trace m ++ [x] |}.
Definition resolve (cg : Z) (m : monitor) : PodInfo * monitor :=
  let '(p, r) := by_cgroup cg (pods m) in (p, {| seen := seen m; pods := r; trace := trace m |}).

Definition drop_kind (ty : Z) : option string :=
  if bool_decide (ty = evtConnect) then Some KindConnect
  else if bool_decide (ty = evtTLS) then Some KindTLS
  else if bool_decide (ty = evtHTTP) then Some KindHTTP else None.
Definition count_drop (h : eventHeader) (m : monitor) : monitor :=
  if bool_decide (eh_action h = actionDeny) then from_option (λ k, log (DropCounted k) m) m (drop_kind (eh_evtType h)) else m.

Definition connect_key (h : eventHeader) : string :=
  "c|" +:+ IP_String (eh_src h) +:+ "|" +:+ IP_String (eh_dst h) +:+ "|" +:+ pretty (eh_dport h).
(** An event with the fields every kind sets; the rest is empty. *)
Definition connect_event (h : eventHeader) (pod : PodInfo) (act : string) : Event :=
  {| Kind := KindConnect; Src := IP_String (eh_src h); Dst := IP_String (eh_dst h); ev_Port := eh_dport h; ev_Domain := "";
     DNSType := ""; ev_Method := ""; ev_Path := ""; ev_Headers := []; PID := 0; Comm := ""; ev_Pod := pod; Action := act; ev_Rule := "" |}.
Definition dns_event (h : eventHeader) (pod : PodInfo) (q : string * string) : Event :=
  {| Kind := KindDNS; Src := IP_String (eh_src h); Dst := ""; ev_Port := 0; ev_Domain := q.1;
     DNSType := q.2; ev_Method := ""; ev_Path := ""; ev_Headers := []; PID := 0; Comm := ""; ev_Pod := pod; Action := ""; ev_Rule := "" |}.
Definition tls_event (h : eventHeader) (pod : PodInfo) (act sni : string) : Event :=
  {| Kind := KindTLS; Src := IP_String (eh_src h); Dst := IP_String (eh_dst h); ev_Port := eh_dport h; ev_Domain := sni;
     DNSType := ""; ev_Method := ""; ev_Path := ""; ev_Headers := []; PID := 0; Comm := ""; ev_Pod := pod; Action := act; ev_Rule := "" |}.
Definition http_event (headers : bool) (h : eventHeader) (pod : PodInfo) (act : string) (r : Request) : Event :=
  {| Kind := KindHTTP; Src := IP_String (eh_src h); Dst := IP_String (eh_dst h); ev_Port := eh_dport h; ev_Domain := r_Host r;
     DNSType := ""; ev_Method := r_Method r; ev_Path := r_Path r; ev_Headers := if headers then r_Headers r else [];
     PID := 0; Comm := ""; ev_Pod := pod; Action := act; ev_Rule := "" |}.

Definition on_connect (f : Filter) (act : string) (h : eventHeader) (m : monitor) : monitor :=
  if SkipIP f (eh_dst h) then log (FilteredCounted KindConnect) m
  else
    let emit m := let '(pod, m) := resolve (eh_cgroupID h) m in log (Emitted (connect_event h pod act)) m in
    if bool_decide (eh_action h ≠ actionDeny) then
      if bool_decide (connect_key h ∈ seen m) then m
      else emit {| seen := {[connect_key h]} ∪ seen m; pods := pods m; trace := trace m |}
    else emit m.
Definition on_dns (f : Filter) (h : eventHeader) (payload : bytes) (m : monitor) : go unit monitor :=
  let '(pod, m) := resolve (eh_cgroupID h) m in
  qs ← dnsQuestions dns payload;
  Ok (foldl (λ m q, log (if SkipDomain f q.1 then FilteredCounted KindDNS else Emitted (dns_event h pod q)) m) m qs).
Definition on_tls (f : Filter) (act : string) (h : eventHeader) (payload : bytes) (m : monitor) : go unit monitor :=
  match ServerName payload with
  | Err _ => Ok m
  | Ok name =>
      let sni := String.string_of_list_byte name in
      if SkipDomain f sni || SkipIP f (eh_dst h) then Ok (log (FilteredCounted KindTLS) m)
      else let '(pod, m) := resolve (eh_cgroupID h) m in Ok (log (Emitted (tls_event h pod act sni)) m)
  | Panic => Panic
  | OutOfFuel => OutOfFuel
  end.
Definition on_http (f : Filter) (inspect : Inspection) (act : string) (h : eventHeader) (payload : bytes) (m : monitor) : monitor :=
  match ParseRequest payload with
  | None => m
  | Some req =>
      if SkipDomain f (r_Host req) || SkipIP f (eh_dst h) then log (FilteredCounted KindHTTP) m
      else let '(pod, m) := resolve (eh_cgroupID h) m in log (Emitted (http_event (Headers inspect) h pod act req)) m
  end.

Definition event_payload (h : eventHeader) (raw : bytes) : go unit bytes :=
  if bool_decide (0 < eh_plen h)%Z && bool_decide (Z.of_nat hdrLen + eh_plen h ≤ Z.of_nat (length raw))%Z
  then gslice hdrLen (hdrLen + Z.to_nat (eh_plen h)) raw else Ok [].
Definition handleEvent (f : Filter) (inspect : Inspection) (enforcing : bool) (raw : bytes) (m : monitor) : go unit monitor :=
  h ← parseHeader raw;
  match h with
  | None => Ok m
  | Some h =>
      let m := count_drop h m in
      let actStr := if enforcing then kernelAction (eh_action h) else "" in
      payload ← event_payload h raw;
      if bool_decide (eh_evtType h = evtConnect) then Ok (on_connect f actStr h m)
      else if bool_decide (eh_evtType h = evtDNS) then on_dns f h payload m
      else if bool_decide (eh_evtType h = evtTLS) then on_tls f actStr h payload m
      else if bool_decide (eh_evtType h = evtHTTP) then Ok (on_http f inspect actStr h payload m)
      else Ok m
  end.
(** The read loop over a sequence of samples. *)
Definition monitor_run (f : Filter) (inspect : Inspection) (enforcing : bool) (raws : list bytes) (m : monitor) : go unit monitor :=
  foldl (λ r raw, r ≫= handleEvent f inspect enforcing raw) (Ok m) raws.
End monitor.

(** ** The handler is total and only appends *)
Lemma parseHeader_cases raw :
  parseHeader raw = if bool_decide (length raw < hdrLen) then Ok None else
    let alen := if bool_decide (b2z (nth 1 raw x00) = 6%Z) then 16 else 4 in
    Ok (Some {| eh_evtType := b2z (nth 0 raw x00); eh_action := b2z (nth 3 raw x00);
                eh_src := take alen (drop 4 raw); eh_dst := take alen (drop 20 raw);
                eh_dport := be_get16 (take 2 (drop 38 raw)); eh_plen := le_get (take 4 (drop 40 raw));
                eh_cgroupID := le_get (take 8 (drop 48 raw)) |}).
Proof.
  unfold parseHeader. case_bool_decide as Hl; [done|]. unfold hdrLen in Hl.
  assert (∀ i, i < 56 → gindex (E := unit) i raw = Ok (nth i raw x00)) as Hi.
  { intros i Hi. destruct (gindex_ok (E := unit) i raw) as (b & Hb & ->); [lia|].
    by rewrite (nth_lookup_Some _ _ _ _ Hb). }
  rewrite !Hi by lia. cbn [mbind go_bind]. case_bool_decide; by rewrite !gslice_ok by lia.
Qed.

(** What a sample may add to the trace: [h] is its header, [act] the stamped action. *)
Definition effect_ok (h : eventHeader) (act : string) (x : effect) : Prop :=
  match x with
  | Emitted e => Kind e ≠ KindDNS → connection_level (Kind e) = true ∧ Action e = act
  | DropCounted _ => eh_action h = actionDeny
  | FilteredCounted _ => True
  end.
Section total.
Context `{UnicodeCase} `{PodResolver} (dns : DnsParser).

Lemma dnsQuestions_returns payload : ∃ qs, dnsQuestions dns payload = Ok qs.
Proof.
  unfold dnsQuestions. case_bool_decide; [eauto|]. destruct (Start dns payload) as [p|]; [|eauto].
  assert (∀ fuel q, questions_left q < fuel → ∃ qs, dns_question_loop dns fuel q = Ok qs) as Hl; [|apply Hl; lia].
  induction fuel as [|fuel IH]; intros q Hf; [lia|]. cbn [dns_question_loop].
  destruct (Question q) as [| |[[n t] q']] eqn:E; [eauto..|]. apply Question_consumes in E.
  destruct (IH q') as [qs ->]; [lia|]. cbn [mbind go_bind]. eauto.
Qed.
Lemma event_payload_returns h raw : ∃ pl, event_payload h raw = Ok pl.
Proof.
  unfold event_payload. destruct (_ && _) eqn:E; [|eauto].
  apply andb_true_iff in E as [E1%bool_decide_eq_true E2%bool_decide_eq_true]. unfold hdrLen in *.
  rewrite gslice_ok by lia. eauto.
Qed.

(** [extends P m m']: [m'] is [m] with some effects, all satisfying [P], and more keys. *)
Definition extends (P : effect → Prop) (m m' : monitor) : Prop :=
  seen m ⊆ seen m' ∧ ∃ xs, trace m' = trace m ++ xs ∧ Forall P xs.
Lemma extends_refl P m : extends P m m.
Proof. split; [done|]. exists []. by rewrite app_nil_r. Qed.
Lemma extends_trans P m1 m2 m3 : extends P m1 m2 → extends P m2 m3 → extends P m1 m3.
Proof.
  intros [H1 (xs & E1 & F1)] [H2 (ys & E2 & F2)]. split; [set_solver|]. exists (xs ++ ys).
  by rewrite E2, E1, <-(assoc_L (++)), Forall_app.
Qed.
Lemma extends_log (P : effect → Prop) x m m' : extends P m m' → P x → extends P m (log x m').
Proof.
  intros Hm Hx. apply (extends_trans _ _ _ _ Hm). split; [done|]. exists [x]. by rewrite Forall_singleton.
Qed.
Lemma extends_resolve P cg m m' : extends P m m' → extends P m (resolve cg m').2.
Proof. unfold resolve. by destruct (by_cgroup cg (pods m')). Qed.

Lemma handleEvent_extends f inspect enforcing raw m :
  ∃ m', handleEvent dns f inspect enforcing raw m = Ok m' ∧
    match parseHeader raw with
    | Ok (Some h) => extends (effect_ok h (if enforcing then kernelAction (eh_action h) else "")) m m'
    | _ => m' = m
    end.
Proof.
  unfold handleEvent. rewrite parseHeader_cases. case_bool_decide; [simpl; eauto|]. cbn zeta. cbn [mbind go_bind].
  match goal with |- context [count_drop ?h' m] => set (h := h') end.
  set (act := if enforcing then _ else _). clearbody h.
  assert (extends (effect_ok h act) m (count_drop h m)) as Hm.
  { unfold count_drop. case_bool_decide; [|apply extends_refl]. destruct (drop_kind _); [|apply extends_refl].
    by apply extends_log; [apply extends_refl|]. }
  destruct (event_payload_returns h raw) as [pl ->]. cbn [mbind go_bind].
  generalize dependent (count_drop h m). intros m1 Hm.
  assert (∀ e, connection_level (Kind e) = true → Action e = act → effect_ok h act (Emitted e)) as He by done.
  case_bool_decide; [|case_bool_decide; [|case_bool_decide; [|case_bool_decide]]].
  - eexists. split; [done|]. unfold on_connect. destruct (SkipIP _ _); [by apply extends_log|].
    assert (∀ m2, extends (effect_ok h act) m m2 → extends (effect_ok h act) m
      (let '(pod, m) := resolve (eh_cgroupID h) m2 in log (Emitted (connect_event h pod act)) m)) as Hemit.
    { intros m2 Hx%(extends_resolve _ (eh_cgroupID h)). destruct (resolve _ m2) as [pod m3]. by apply extends_log. }
    repeat case_bool_decide; [done|apply Hemit|by apply Hemit]. apply (extends_trans _ _ _ _ Hm).
    split; [simpl; set_solver|]. exists []. by rewrite app_nil_r.
  - unfold on_dns. apply (extends_resolve _ (eh_cgroupID h)) in Hm. destruct (resolve _ m1) as [pod m2].
    destruct (dnsQuestions_returns pl) as [qs ->]. cbn [mbind go_bind]. eexists. split; [done|]. cbn [snd] in Hm.
    revert m2 Hm. induction qs as [|q qs IH]; intros m2 Hm; [done|]. cbn [foldl]. apply IH.
    apply extends_log; [done|]. by destruct (SkipDomain _ _).
  - unfold on_tls. pose proof (ServerName_returns pl) as Hs. destruct (ServerName pl) as [sni| | |]; try done; [|eauto].
    destruct (_ || _); [eexists; split; [done|]; by apply extends_log|].
    apply (extends_resolve _ (eh_cgroupID h)) in Hm. destruct (resolve _ m1) as [pod m2].
    eexists. split; [done|]. by apply extends_log.
  - eexists. split; [done|]. unfold on_http. destruct (ParseRequest pl) as [req|]; [|done].
    destruct (_ || _); [by apply extends_log|].
    apply (extends_resolve _ (eh_cgroupID h)) in Hm. destruct (resolve _ m1) as [pod m2]. by apply extends_log.
  - eauto.
Qed.
Lemma monitor_run_extends f inspect enforcing raws m :
  ∃ m', monitor_run dns f inspect enforcing raws m = Ok m' ∧ seen m ⊆ seen m'.
Proof.
  unfold monitor_run. revert m. induction raws as [|raw raws IH]; intros m; [eauto|]. cbn [foldl mbind go_bind].
  destruct (handleEvent_extends f inspect enforcing raw m) as (m1 & -> & H1). destruct (IH m1) as (m2 & -> & H2).
  exists m2. split; [done|]. enough (seen m ⊆ seen m1) by set_solver.
  destruct (parseHeader raw) as [[h|]| | |]; [by destruct H1|by subst..].
Qed.
End total.

(** ** The record the kernel writes *)
(** The bytes of a [struct event]: [pad] is the alignment gap, [rest] what is left
    of the 512-byte payload buffer. *)
Definition put_event (e : event) (pad rest : bytes) : bytes :=
  [z2b (evt_type e); z2b (ip_version e); z2b (l4_proto e); z2b (ev_action e)] ++ saddr e ++ daddr e ++ sport e ++ dport e ++
  le_put 4 (payload_len e) ++ pad ++ le_put 8 (ev_cgroup e) ++ payload e ++ rest.
Definition u8 (z : Z) : Prop := (0 ≤ z < 256)%Z.
Record event_wf (e : event) : Prop := {
  wf_type : u8 (evt_type e); wf_version : u8 (ip_version e); wf_action : u8 (ev_action e);
  wf_saddr : length (saddr e) = 16; wf_daddr : length (daddr e) = 16;
  wf_sport : length (sport e) = 2; wf_dport : length (dport e) = 2;
  wf_cgroup : (0 ≤ ev_cgroup e < 2 ^ 64)%Z;
  wf_len : payload_len e = Z.of_nat (length (payload e)); wf_payload : length (payload e) ≤ MAX_PAYLOAD
}.
Definition header_of (e : event) : eventHeader :=
  let alen := if bool_decide (ip_version e = 6%Z) then 16 else 4 in
  {| eh_evtType := evt_type e; eh_action := ev_action e; eh_src := take alen (saddr e); eh_dst := take alen (daddr e);
     eh_dport := be_get16 (dport e); eh_plen := payload_len e; eh_cgroupID := ev_cgroup e |}.

Lemma b2z_z2b_u8 z : u8 z → b2z (z2b z) = z.
Proof. intros. rewrite b2z_z2b. by apply Z.mod_small. Qed.
Lemma take_skip {A} k n m (l r : list A) : length l = n → n ≤ m → take k (drop m (l ++ r)) = take k (drop (m - n) r).
Proof. intros <- Hm. by rewrite drop_app_ge. Qed.
Lemma take_here {A} k (l r : list A) : k ≤ length l → take k (drop 0 (l ++ r)) = take k l.
Proof. intros. by rewrite drop_0, take_app_le. Qed.

(** Walk to the field at a known offset. *)
Ltac skip_fields :=
  unfold put_event; repeat (erewrite take_skip; [|first [eassumption|reflexivity]|lia]; cbn [Nat.sub]).

Lemma parse_put_event e pad rest :
  event_wf e → length pad = 4 →
  parseHeader (put_event e pad rest) = Ok (Some (header_of e)) ∧
  event_payload (header_of e) (put_event e pad rest) = Ok (payload e).
Proof.
  intros [Ht Hv Ha Hs Hd Hsp Hdp Hcg Hpl Hmax] Hpad. unfold MAX_PAYLOAD in Hmax.
  pose proof (length_le_put 4 (payload_len e)) as H4. pose proof (length_le_put 8 (ev_cgroup e)) as H8.
  assert (length (put_event e pad rest) = 56 + length (payload e) + length rest) as Hl.
  { unfold put_event. rewrite !length_app, Hs, Hd, Hsp, Hdp, H4, H8, Hpad. simpl. lia. }
  assert (Z.of_nat (length (payload e)) < 2 ^ 32)%Z as H32 by lia.
  split.
  - rewrite parseHeader_cases, bool_decide_false by (unfold hdrLen; lia). cbn zeta. do 2 f_equal.
    unfold header_of. f_equal; try (unfold put_event; cbn [app nth]; rewrite ?b2z_z2b_u8 by done; done).
    1,2: change (b2z (nth 1 (put_event e pad rest) x00)) with (b2z (z2b (ip_version e))); rewrite b2z_z2b_u8 by done.
    + skip_fields. apply take_here. case_bool_decide; lia.
    + skip_fields. apply take_here. case_bool_decide; lia.
    + f_equal. skip_fields. etrans; [apply take_here; lia|]. by apply take_ge; lia.
    + skip_fields. rewrite (take_here 4) by lia. rewrite (take_ge (le_put _ _)), le_get_put, Z.mod_small by lia. done.
    + skip_fields. rewrite (take_here 8) by lia. rewrite (take_ge (le_put _ _)), le_get_put, Z.mod_small by lia. done.
  - unfold event_payload, header_of. cbn [eh_plen]. rewrite Hpl, Hl, Nat2Z.id. unfold hdrLen.
    destruct (decide (length (payload e) = 0)) as [Hz|Hz].
    { rewrite bool_decide_false by lia. by destruct (payload e). }
    rewrite !bool_decide_true by lia. cbn [andb]. rewrite gslice_ok by lia. f_equal. skip_fields.
    rewrite take_here by lia. apply take_ge. lia.
Qed.

(** ** The records [egress] submits *)
Section kernel_events.
Context `{Kernel} (reserve : list event → bool).

Lemma length_load_bytes s off n : length (default [] (load_bytes s off n)) ≤ n.
Proof. unfold load_bytes. case_bool_decide; cbn [default from_option id]; [rewrite length_take|simpl]; lia. Qed.
Lemma length_addr16 b : length b ≤ 16 → length (addr16 b) = 16.
Proof. intros. unfold addr16. rewrite length_app, length_replicate. lia. Qed.
Lemma copy_payload_len s off avail :
  (copy_payload s off avail).1 = Z.of_nat (length (copy_payload s off avail).2) ∧
  length (copy_payload s off avail).2 ≤ MAX_PAYLOAD.
Proof.
  unfold copy_payload. pose proof (length_load_bytes s off (avail `min` MAX_PAYLOAD)) as Hb. revert Hb.
  case_bool_decide as Hn; [simpl; lia|]. unfold load_bytes. case_bool_decide as Hl; cbn [default from_option id fst snd]; [|simpl; lia].
  intros Hb. split; [|lia]. f_equal. rewrite length_take, length_drop, length_app. unfold skb_len in Hl. lia.
Qed.
Lemma submit_event_in s ver so do ty proto sp dp off avail act evs e :
  e ∈ submit_event reserve s ver so do ty proto sp dp off avail act evs →
  u8 ty → u8 ver → length sp = 2 → length dp = 2 → (0 ≤ skb_cgroup s < 2 ^ 64)%Z →
  e ∈ evs ∨ ev_action e = act ∧ (u8 act → event_wf e).
Proof.
  unfold submit_event. intros He Ht Hv Hsp Hdp Hcg. destruct (reserve evs); [|by left].
  pose proof (copy_payload_len s off avail) as Hp. destruct (copy_payload s off avail) as [plen pl]. cbn [fst snd] in Hp.
  rewrite elem_of_app, list_elem_of_singleton in He. destruct He as [He| ->]; [by left|right]. split; [done|]. intros Ha.
  split; cbn [evt_type ip_version ev_action saddr daddr sport dport ev_cgroup payload_len payload]; try done; try apply Hp.
  all: apply length_addr16; etrans; [apply length_load_bytes|]; case_bool_decide; lia.
Qed.
Lemma egress_tcp_events s h act dry e :
  e ∈ (egress_tcp reserve s h act dry).2 → 20 ≤ length (drop (l3_off h) (linear s)) → u8 (l3_ver h) →
  (0 ≤ skb_cgroup s < 2 ^ 64)%Z → ev_action e = act ∧ (u8 act → event_wf e).
Proof.
  intros He Hl Hv Hcg. unfold egress_tcp in He. cbn zeta in He.
  assert (length (sub (drop (l3_off h) (linear s)) 0 2) = 2 ∧ length (sub (drop (l3_off h) (linear s)) 2 2) = 2) as [Hsp Hdp].
  { rewrite length_drop in Hl. unfold sub. rewrite !length_take, !length_drop. lia. }
  assert (∀ ty off avail evs, u8 ty → (∀ e, e ∈ evs → ev_action e = act ∧ (u8 act → event_wf e)) →
    ∀ e, e ∈ submit_event reserve s (l3_ver h) (l3_saddr h) (l3_daddr h) ty IPPROTO_TCP (sub (drop (l3_off h) (linear s)) 0 2)
          (sub (drop (l3_off h) (linear s)) 2 2) off avail act evs → ev_action e = act ∧ (u8 act → event_wf e)) as Hsub.
  { intros ty off avail evs Ht Hevs e' He'. eapply submit_event_in in He'; [|done..]. destruct He' as [He'|He']; auto. }
  assert (∀ b e, e ∈ (if b : bool then submit_event reserve s (l3_ver h) (l3_saddr h) (l3_daddr h) EVT_CONNECT IPPROTO_TCP
      (sub (drop (l3_off h) (linear s)) 0 2) (sub (drop (l3_off h) (linear s)) 2 2) 0 0 act [] else []) →
      ev_action e = act ∧ (u8 act → event_wf e)) as Hsyn.
  { intros [] e'; [|by intros ?%not_elem_of_nil]. apply Hsub; [done|]. by intros ? ?%not_elem_of_nil. }
  do 3 (case_bool_decide; [by eapply Hsyn|]). destruct (load_bytes _ _ _) as [hdr|]; [|by eapply Hsyn].
  destruct (_ && bool_decide (byte_at hdr 5 = 1%Z)); [|destruct (looks_like_http hdr); [|by eapply Hsyn]].
  all: by eapply Hsub; [| |exact He]; [done|apply Hsyn].
Qed.

(** Every record is well formed and carries the verdict the packet got. *)
Lemma egress_events m s e :
  e ∈ (egress reserve m s).2 → u8 (ev_action e) → (0 ≤ skb_cgroup s < 2 ^ 64)%Z →
  event_wf e ∧ (default 0%Z (enforce_enabled m) = 0%Z → (egress reserve m s).1 = negb (bool_decide (ev_action e = ACTION_DENY))).
Proof.
  unfold egress. intros He Ha Hcg. destruct (parse_l3 (linear s)) as [h|] eqn:Eh; [|by apply not_elem_of_nil in He].
  revert He. case_bool_decide as Hl; [by intros ?%not_elem_of_nil|]. cbn zeta.
  set (enf := if bool_decide (l3_ver h = 4%Z) then _ else _).
  assert (u8 (l3_ver h)) as Hv by (destruct (parse_l3_ver _ _ Eh) as [-> | ->]; by split).
  case_bool_decide as Hu.
  { case_bool_decide as H8; [by intros ?%not_elem_of_nil|]. case_bool_decide as H53.
    2: { destruct enf; by intros ?%not_elem_of_nil. }
    assert (∀ i, i ≤ 2 → length (sub (drop (l3_off h) (linear s)) i 2) = 2) as Hsub.
    { intros i Hi. rewrite length_drop in H8. unfold sub. rewrite length_take, !length_drop. lia. }
    cbn [fst snd]. intros He. eapply submit_event_in in He; [|done|done|apply Hsub; lia|apply Hsub; lia|done].
    destruct He as [He|[-> Hwf]]; [by apply not_elem_of_nil in He|]. split; [by apply Hwf|done]. }
  case_bool_decide as Ht; [|by intros ?%not_elem_of_nil]. case_bool_decide as H20; [by intros ?%not_elem_of_nil|].
  intros He. rewrite egress_tcp_pass. apply egress_tcp_events in He as [<- Hwf]; [|lia|done..].
  split; [auto|]. intros Hd. unfold verdict_pass.
  destruct enf as [dry|] eqn:Eenf; cbn [default from_option id].
  - subst enf. case_bool_decide; [|done]. rewrite Eenf in Hd. cbn in Hd. subst dry. by rewrite andb_true_r.
  - by rewrite andb_true_r.
Qed.
(** The record says Deny exactly when the maps do, in dry-run too. *)
Lemma egress_events_verdict m s e :
  e ∈ (egress reserve m s).2 → u8 (ev_action e) → (0 ≤ skb_cgroup s < 2 ^ 64)%Z → is_Some (enforce_enabled m) →
  ev_action e = ACTION_DENY ↔ ∃ da dp, enforceable s da dp ∧ verdict_for m (skb_cgroup s) da dp = ACTION_DENY.
Proof.
  unfold egress, enforceable. destruct (parse_l3 (linear s)) as [h|] eqn:Eh; [|by intros ?%not_elem_of_nil].
  case_bool_decide as Hl; [by intros ?%not_elem_of_nil|]. cbn zeta. intros He Ha Hcg [dry Hon]. rewrite Hon in He. revert He.
  assert (u8 (l3_ver h)) as Hv by (destruct (parse_l3_ver _ _ Eh) as [-> | ->]; by split).
  rewrite length_drop in *. case_bool_decide as Hu.
  - case_bool_decide as H8; [by intros ?%not_elem_of_nil|]. case_bool_decide as H53; [|by destruct (bool_decide (l3_ver h = 4%Z)); intros ?%not_elem_of_nil].
    assert (∀ i, i ≤ 2 → length (Hooks.sub (drop (l3_off h) (linear s)) i 2) = 2) as Hsub.
    { intros i Hi. unfold Hooks.sub. rewrite length_take, !length_drop. lia. }
    cbn [snd]. intros He. eapply submit_event_in in He; [|done|done|apply Hsub; lia|apply Hsub; lia|done].
    destruct He as [He|[-> _]]; [by apply not_elem_of_nil in He|]. split; [done|].
    intros (da & dp & (h' & [= <-] & _ & _ & _ & -> & [[Hp _]|(_ & _ & Hn)]) & _); [by rewrite Hu in Hp|by rewrite H53 in Hn].
  - case_bool_decide as Ht; [|by intros ?%not_elem_of_nil]. case_bool_decide as H20; [by intros ?%not_elem_of_nil|].
    intros He. apply egress_tcp_events in He as [-> _]; [|rewrite length_drop; lia|done..]. case_bool_decide as H4.
    + split.
      * intros Hd. eexists _, _. split; [|exact Hd]. exists h. split_and!; try done; [lia|]. left. split; [done|lia].
      * by intros (da & dp & (h' & [= <-] & _ & _ & -> & -> & _) & Hd).
    + split; [done|]. by intros (da & dp & (h' & [= <-] & ? & _) & _).
Qed.
End kernel_events.

(** ** Theorems *)
Lemma kernelAction_ne a : kernelAction a ≠ "".
Proof. unfold kernelAction. by case_bool_decide. Qed.

(** No sample stops the monitor: on any sequence of ring-buffer samples, of any
    length and content, the loop handles every one without a panic, whatever the
    DNS parser answers. *)
Theorem monitor_total `{UnicodeCase} `{PodResolver} dns f inspect enforcing raws m :
  ∃ m', monitor_run dns f inspect enforcing raws m = Ok m'.
Proof. destruct (monitor_run_extends dns f inspect enforcing raws m) as (m' & Hm & _). eauto. Qed.

(** The monitor reads what the kernel wrote: every record [egress] submits for
    a packet, as bytes in the ring buffer, decodes to the record's type, action,
    addresses (4 or 16 bytes by version), port, cgroup and captured payload. *)
Theorem kernel_event_roundtrip `{Kernel} reserve m s e pad rest :
  e ∈ (egress reserve m s).2 → u8 (ev_action e) → (0 ≤ skb_cgroup s < 2 ^ 64)%Z → length pad = 4 →
  parseHeader (put_event e pad rest) = Ok (Some (header_of e)) ∧
  event_payload (header_of e) (put_event e pad rest) = Ok (payload e).
Proof. intros He Ha Hcg Hpad. apply parse_put_event; [|done]. by eapply egress_events. Qed.

(** C7: the verdict that is shown is the kernel's: in enforce mode, dry-run included,
    every connection-level event that the monitor emits for a record of a packet
    leaves the annotating sink, whatever the policy engine says, with action Deny if
    the kernel's maps deny the packet and Allow if not; and the packet was dropped
    exactly when Deny is shown and dry-run is off (in dry-run Deny is shown for a
    packet that passed). *)
Theorem shown_verdict_is_kernels `{UnicodeCase} `{PodResolver} `{Kernel} dns eng f inspect reserve maps s e pad rest m dry :
  e ∈ (egress reserve maps s).2 → u8 (ev_action e) → (0 ≤ skb_cgroup s < 2 ^ 64)%Z → length pad = 4 →
  enforce_enabled maps = Some dry →
  ∃ m' xs, handleEvent dns f inspect true (put_event e pad rest) m = Ok m' ∧ trace m' = trace m ++ xs ∧
    ∀ ev, Emitted ev ∈ xs → Kind ev ≠ KindDNS →
      let shown := Action (sink_Emit eng ev).1 in
      (shown = "Allow" ∨ shown = "Deny") ∧
      (shown = "Deny" ↔ ∃ da dp, enforceable s da dp ∧ verdict_for maps (skb_cgroup s) da dp = ACTION_DENY) ∧
      ((egress reserve maps s).1 = false ↔ shown = "Deny" ∧ dry = 0%Z).
Proof.
  intros He Ha Hcg Hpad Henf. destruct (egress_events reserve maps s e He Ha Hcg) as [Hwf _].
  pose proof (egress_events_verdict reserve maps s e He Ha Hcg ltac:(by rewrite Henf)) as Hv.
  destruct (handleEvent_extends dns f inspect true (put_event e pad rest) m) as (m' & Hm & Hx).
  rewrite (proj1 (parse_put_event e pad rest Hwf Hpad)) in Hx. destruct Hx as [_ (xs & Ht & HF)].
  exists m', xs. split_and!; [done..|]. intros ev Hev Hk. rewrite Forall_forall in HF.
  destruct (HF _ Hev Hk) as [Hc Hact]. cbn [header_of eh_action] in Hact. cbn zeta.
  assert (Action (sink_Emit eng ev).1 = kernelAction (ev_action e)) as ->.
  { rewrite <-Hact. unfold sink_Emit. rewrite Hc, bool_decide_false by (rewrite Hact; apply kernelAction_ne). by destruct (bool_decide (v_Action _ = _)). }
  assert (kernelAction (ev_action e) = "Deny" ↔ ev_action e = ACTION_DENY) as Hdeny.
  { unfold kernelAction. change actionDeny with ACTION_DENY. by case_bool_decide. }
  rewrite egress_drops, Henf, <-Hv, Hdeny. split; [unfold kernelAction; case_bool_decide; auto|]. split; [done|]. naive_solver.
Qed.

(** Which connects are reported: outside the filter a denied connect is counted
    and reported every time; an allowed one is reported when its source,
    destination and port have not been reported since the start, and after any
    further samples a repetition changes nothing at all. *)
Theorem connect_reporting `{UnicodeCase} `{PodResolver} dns f inspect (enforcing : bool) raw h (m : monitor) :
  parseHeader raw = Ok (Some h) → eh_evtType h = evtConnect → SkipIP f (eh_dst h) = false →
  let pod := (by_cgroup (eh_cgroupID h) (pods m)).1 in
  let ev := Emitted (connect_event h pod (if enforcing then kernelAction (eh_action h) else "")) in
  ∃ m' : monitor, handleEvent dns f inspect enforcing raw m = Ok m' ∧
    (eh_action h = actionDeny → seen m' = seen m ∧ trace m' = trace m ++ [DropCounted KindConnect; ev]) ∧
    (eh_action h ≠ actionDeny →
       (if bool_decide (connect_key h ∈ seen m) then m' = m else trace m' = trace m ++ [ev]) ∧
       ∀ raws (m2 : monitor), monitor_run dns f inspect enforcing raws m' = Ok m2 →
         handleEvent dns f inspect enforcing raw m2 = Ok m2).
Proof.
  intros Hraw Hty Hskip.
  assert (∀ m, handleEvent dns f inspect enforcing raw m =
    Ok (on_connect f (if enforcing then kernelAction (eh_action h) else "") h (count_drop h m))) as Hh.
  { intros m0. unfold handleEvent. rewrite Hraw. cbn [mbind go_bind]. destruct (event_payload_returns h raw) as [pl ->].
    cbn [mbind go_bind]. by rewrite bool_decide_true. }
  rewrite Hh. destruct (by_cgroup (eh_cgroupID h) (pods m)) as [pod r] eqn:Er. cbn zeta. cbn [fst]. eexists. split; [done|].
  unfold on_connect, count_drop, drop_kind. rewrite Hskip, Hty. split.
  - intros Hd. rewrite !(bool_decide_true (eh_action h = actionDeny)), (bool_decide_false (eh_action h ≠ actionDeny)) by naive_solver.
    cbn [bool_decide evtConnect from_option]. unfold resolve, log. cbn [pods seen trace]. simpl.
    rewrite Er. cbn [pods seen trace]. by rewrite <-(assoc_L (++)).
  - intros Hd. rewrite !(bool_decide_false (eh_action h = actionDeny)), (bool_decide_true (eh_action h ≠ actionDeny)) by done.
    set (m1 := if bool_decide (connect_key h ∈ seen m) then m else _).
    assert (connect_key h ∈ seen m1 ∧ (if bool_decide (connect_key h ∈ seen m) then m1 = m else
      trace m1 = trace m ++ [Emitted (connect_event h pod (if enforcing then kernelAction (eh_action h) else ""))])) as [Hin Hm1].
    { subst m1. case_bool_decide; [done|]. unfold resolve. cbn [pods]. rewrite Er. cbn [seen trace log]. split; [set_solver|done]. }
    split; [done|]. intros raws m2 Hrun. destruct (monitor_run_extends dns f inspect enforcing raws m1) as (m2' & Hrun' & Hsub).
    rewrite Hrun in Hrun'. simplify_eq. rewrite Hh. unfold on_connect, count_drop. rewrite Hskip.
    rewrite (bool_decide_false (eh_action h = actionDeny)), (bool_decide_true (eh_action h ≠ actionDeny)) by done.
    by rewrite bool_decide_true by set_solver.
Qed.

(** A TCP SYN to 203.0.113.9:443 from cgroup 7, and maps that deny that cgroup. *)
Definition ex_syn : skb :=
  {| linear := [x45; x00; x00; x28; x00; x00; x00; x00; x40; x06; x00; x00; x0a; x00; x00; x05; xcb; x00; x71; x09;
                x9c; x40; x01; xbb; x00; x00; x00; x00; x00; x00; x00; x00; x50; x02; x00; x00; x00; x00; x00; x00];
     paged := []; skb_cgroup := 7 |}.
Definition denying_maps : @Maps linux :=
  {| Datapath.Default := {[7%Z := ACTION_DENY]} : km_state (@k_default linux); Verdicts := ∅ : km_state (@k_verdicts linux);
     CIDR := ∅ : km_state (@k_cidr linux); Cfg := {[0%Z := {| Enabled := 1; DryRun := 0 |}]} : km_state (@k_cfg linux) |}.
Definition ex_record : event :=
  {| evt_type := 1; ip_version := 4; l4_proto := 6; ev_action := 0; saddr := addr16 [x0a; x00; x00; x05];
     daddr := addr16 [xcb; x00; x71; x09]; sport := [x9c; x40]; dport := [x01; xbb]; payload_len := 0; ev_cgroup := 7; payload := [] |}.
Lemma ex_syn_submits : (egress (H := linux) (λ _, true) denying_maps ex_syn) = (false, [ex_record]).
Proof. by vm_compute. Qed.
Lemma kernel_event_roundtrip_witness :
  parseHeader (put_event ex_record [xaa; xbb; xcc; xdd] [xee]) = Ok (Some (header_of ex_record)) ∧
  event_payload (header_of ex_record) (put_event ex_record [xaa; xbb; xcc; xdd] [xee]) = Ok [].
Proof.
  apply (kernel_event_roundtrip (H := linux) (λ _, true) denying_maps ex_syn ex_record).
  1: rewrite ex_syn_submits; left.
  1: by split.
  1: by split.
  done.
Defined.

Definition empty_monitor : monitor (H0 := no_pods) := {| seen := ∅; pods := (tt : @rst no_pods); trace := [] |}.
Definition all_inspection : Inspection := {| Paths := true; Headers := true; Body := false |}.
Definition ex_raw : bytes := put_event ex_record [x00; x00; x00; x00] [].
(** The same in dry-run: the packet passes. *)
Definition dry_maps : @Maps linux :=
  {| Datapath.Default := Datapath.Default denying_maps; Verdicts := Verdicts denying_maps; CIDR := CIDR denying_maps;
     Cfg := {[0%Z := {| Enabled := 1; DryRun := 1 |}]} : km_state (@k_cfg linux) |}.
Lemma ex_syn_dry : egress (H := linux) (λ _, true) dry_maps ex_syn = (true, [ex_record]).
Proof. by vm_compute. Qed.
Lemma shown_verdict_is_kernels_witness : ∃ m' ev,
  handleEvent (H := ascii_case) (H0 := no_pods) (fixed_dns (ex_message "a." 1)) default_filter all_inspection true ex_raw empty_monitor = Ok m' ∧
  trace m' = [DropCounted KindConnect; Emitted ev] ∧ Action (sink_Emit (H := ascii_case) ex_engine ev).1 = "Deny" ∧
  (egress (H := linux) (λ _, true) denying_maps ex_syn).1 = false ∧ (egress (H := linux) (λ _, true) dry_maps ex_syn).1 = true.
Proof.
  destruct (shown_verdict_is_kernels (H := ascii_case) (H0 := no_pods) (H1 := linux) (fixed_dns (ex_message "a." 1)) ex_engine
    default_filter all_inspection (λ _, true) denying_maps ex_syn ex_record [x00; x00; x00; x00] [] empty_monitor 0) as (m' & xs & Hm & Ht & Hx).
  1: rewrite ex_syn_submits; left.
  1: by split.
  1: by split.
  1: done.
  1: by vm_compute.
  assert (handleEvent (H := ascii_case) (H0 := no_pods) (fixed_dns (ex_message "a." 1)) default_filter all_inspection true ex_raw empty_monitor =
    Ok {| seen := ∅; pods := (tt : @rst no_pods); trace := [DropCounted KindConnect; Emitted (connect_event (header_of ex_record) PodInfo_zero "Deny")] |}) as Hm2
    by (by vm_compute).
  unfold ex_raw in Hm2. rewrite Hm in Hm2. injection Hm2 as ->. cbn [trace empty_monitor app] in Ht. subst xs.
  eexists _, _. split; [exact Hm|]. split; [done|]. destruct (Hx _ (list_elem_of_further _ _ _ (list_elem_of_here _ _))) as (_ & _ & Hdrop); [done|].
  rewrite ex_syn_submits in Hdrop |- *. rewrite ex_syn_dry. cbn [fst] in Hdrop |- *. split; [by apply Hdrop|done].
Defined.
(** Two samples of the same denied connect and two of an allowed one. *)
Definition ex_allowed : bytes := take 3 ex_raw ++ [x01] ++ drop 4 ex_raw.
Example connect_dedup :
  length ∘ trace <$> (match monitor_run (H := ascii_case) (H0 := no_pods) (fixed_dns (ex_message "a." 1)) default_filter all_inspection true
    [ex_raw; ex_allowed; ex_raw; ex_allowed; take 55 ex_raw] empty_monitor with Ok m => Some m | _ => None end) = Some 5.
Proof. by vm_compute. Qed.
Definition ex_header : eventHeader :=
  {| eh_evtType := 1; eh_action := 1; eh_src := [x0a; x00; x00; x05]; eh_dst := [xcb; x00; x71; x09]; eh_dport := 443; eh_plen := 0; eh_cgroupID := 7 |}.
Lemma connect_reporting_witness : ∃ m',
  handleEvent (H := ascii_case) (H0 := no_pods) (fixed_dns (ex_message "a." 1)) default_filter all_inspection true ex_allowed empty_monitor = Ok m' ∧
  trace m' = [Emitted (connect_event ex_header PodInfo_zero "Allow")].
Proof.
  pose proof (connect_reporting (H := ascii_case) (H0 := no_pods) (fixed_dns (ex_message "a." 1)) default_filter all_inspection true ex_allowed
    ex_header empty_monitor) as Hc.
  destruct Hc as (m' & Hm & _ & Ha); [by vm_compute..|]. exists m'. split; [exact Hm|].
  destruct Ha as [Ha _]; [done|]. exact Ha.
Defined.
