(* ===== verification/ConnectLog.v ===== *)
(** * The connections the monitor reports, over a whole run

    [handleEvent] reports every denied connect and each allowed one once, by a set of
    keys it keeps for the life of the process.  [observed] is what the monitor should
    report: it reads the fields of each sample at their documented offsets, says which
    names and addresses a payload asks for, and when an allowed connect is a repetition,
    without the header parser, the events' constructors and the set of the code; the
    parsers of payloads (TLS, HTTP, DNS) and the exclude filter are shared, each with
    its own theorems.  The theorem compares the two on every sequence of samples. *)

From S2P Require Import Prelude GoStrings GoNet Attr Policy Engine Datapath Hooks Config L7 Output DnsLearn TlsParse EgressMon.
From Stdlib Require Import Ascii.
From Stdlib Require String.

Section audit.
Context `{UnicodeCase} `{PodResolver} (dns : DnsParser) (f : Filter) (inspect : Inspection) (enforcing : bool).

(** The connection reports of a trace, without the pod. *)
Definition connect_rows (xs : list effect) : list (string * string * Z * string) :=
  omap (λ x, match x with
             | Emitted e => if bool_decide (Kind e = KindConnect) then Some (Src e, Dst e, ev_Port e, Action e) else None
             | _ => None
             end) xs.
Definition row_of (h : eventHeader) : string * string * Z * string :=
  (IP_String (eh_src h), IP_String (eh_dst h), eh_dport h, if enforcing then kernelAction (eh_action h) else "").
(** The connect samples that the filter lets through. *)
Definition connects (raws : list bytes) : list eventHeader :=
  omap (λ raw, match parseHeader raw with
               | Ok (Some h) => if bool_decide (eh_evtType h = evtConnect) && negb (SkipIP f (eh_dst h)) then Some h else None
               | _ => None
               end) raws.
Definition denied (h : eventHeader) : Prop := eh_action h = actionDeny.
#[export] Instance denied_dec h : Decision (denied h).
Proof. unfold denied. apply _. Defined.
(** Reported at position [i]: it was denied, or nothing allowed before it has its key. *)
Definition reported (s : gset string) (hs : list eventHeader) (i : nat) (h : eventHeader) : Prop :=
  denied h ∨ connect_key h ∉ s ∧ Forall (λ h', denied h' ∨ connect_key h' ≠ connect_key h) (take i hs).
#[export] Instance reported_dec s hs i h : Decision (reported s hs i h).
Proof. unfold reported. apply _. Defined.
Definition audited (s : gset string) (hs : list eventHeader) : list eventHeader :=
  omap (λ ih, if bool_decide (reported s hs ih.1 ih.2) then Some ih.2 else None) (imap pair hs).

Lemma audited_snoc s hs h : audited s (hs ++ [h]) = audited s hs ++ if bool_decide (reported s hs (length hs) h) then [h] else [].
Proof.
  unfold audited. rewrite imap_app, omap_app. f_equal.
  - apply list_omap_ext, Forall_Forall2_diag, Forall_forall. intros x (i & h' & -> & Hi)%elem_of_lookup_imap. cbn [fst snd].
    rewrite (bool_decide_ext (reported s (hs ++ [h]) i h') (reported s hs i h')); [done|].
    unfold reported. by rewrite take_app_le by (apply lookup_lt_Some in Hi; lia).
  - cbn [imap omap list_omap fst snd]. rewrite Nat.add_0_r.
    rewrite (bool_decide_ext (reported s (hs ++ [h]) (length hs) h) (reported s hs (length hs) h)); [by case_bool_decide|].
    unfold reported. by rewrite take_app_le by lia.
Qed.

(** A sample that adds no connection report and no key. *)
Definition quiet (m m' : monitor) : Prop := connect_rows (trace m') = connect_rows (trace m) ∧ seen m' = seen m.
Lemma rows_log x m : connect_rows (trace (log x m)) = connect_rows (trace m) ++ connect_rows [x].
Proof. unfold connect_rows. cbn [log trace]. by rewrite omap_app. Qed.
Lemma quiet_log x m m' : quiet m m' → connect_rows [x] = [] → quiet m (log x m').
Proof. intros [Hr Hs] Hx. split; [by rewrite rows_log, Hr, Hx, app_nil_r|done]. Qed.
Lemma quiet_resolve cg m m' : quiet m m' → quiet m (resolve cg m').2.
Proof. unfold resolve. by destruct (by_cgroup cg (pods m')). Qed.
Lemma quiet_refl m : quiet m m.
Proof. done. Qed.
Lemma quiet_drop h m : quiet m (count_drop h m).
Proof. unfold count_drop. case_bool_decide; [|done]. destruct (drop_kind _); [|done]. by apply quiet_log. Qed.

(** One connect sample. *)
Lemma on_connect_rows act h m : SkipIP f (eh_dst h) = false →
  let m' := on_connect f act h m in
  if bool_decide (¬ denied h ∧ connect_key h ∈ seen m) then quiet m m'
  else connect_rows (trace m') = connect_rows (trace m) ++ [(IP_String (eh_src h), IP_String (eh_dst h), eh_dport h, act)] ∧
       seen m' = if bool_decide (denied h) then seen m else {[connect_key h]} ∪ seen m.
Proof.
  intros Hskip. cbn zeta. unfold on_connect. rewrite Hskip. unfold denied.
  assert (∀ m0, connect_rows (trace (let '(pod, m) := resolve (eh_cgroupID h) m0 in log (Emitted (connect_event h pod act)) m)) =
    connect_rows (trace m0) ++ [(IP_String (eh_src h), IP_String (eh_dst h), eh_dport h, act)] ∧
    seen (let '(pod, m) := resolve (eh_cgroupID h) m0 in log (Emitted (connect_event h pod act)) m) = seen m0) as Hemit.
  { intros m0. unfold resolve. destruct (by_cgroup _ _) as [pod r]. rewrite rows_log. cbn [trace seen log]. split; [|done]. f_equal. }
  destruct (decide (eh_action h = actionDeny)) as [Hd|Hd].
  - rewrite (bool_decide_false (eh_action h ≠ actionDeny)), (bool_decide_false (_ ∧ _)), (bool_decide_true (eh_action h = actionDeny)) by tauto. apply Hemit.
  - rewrite (bool_decide_true (eh_action h ≠ actionDeny)) by done. destruct (decide (connect_key h ∈ seen m)) as [Hk|Hk].
    + by rewrite !bool_decide_true by tauto.
    + rewrite (bool_decide_false (connect_key h ∈ seen m)), (bool_decide_false (_ ∧ _)), (bool_decide_false (eh_action h = actionDeny)) by tauto.
      exact (Hemit {| seen := {[connect_key h]} ∪ seen m; pods := pods m; trace := trace m |}).
Qed.
(** Any other sample is quiet. *)
Lemma handleEvent_rows raw m m' : handleEvent dns f inspect enforcing raw m = Ok m' →
  match connects [raw] with
  | h :: _ => if bool_decide (¬ denied h ∧ connect_key h ∈ seen m) then quiet m m'
              else connect_rows (trace m') = connect_rows (trace m) ++ [row_of h] ∧ seen m' = if bool_decide (denied h) then seen m else {[connect_key h]} ∪ seen m
  | [] => quiet m m'
  end.
Proof.
  unfold handleEvent, connects. cbn [omap list_omap]. destruct (parseHeader raw) as [[h|]| | |]; cbn [mbind go_bind]; [|by intros [= <-]|done..].
  set (act := if enforcing then kernelAction (eh_action h) else ""). pose proof (quiet_drop h m) as Hq. destruct (event_payload_returns h raw) as [pl ->]. cbn [mbind go_bind].
  destruct (decide (eh_evtType h = evtConnect)) as [Hc|Hc].
  { rewrite (bool_decide_true (eh_evtType h = evtConnect)) by done. cbn [andb]. intros [= <-]. destruct (SkipIP f (eh_dst h)) eqn:Es; cbn [negb].
    - unfold on_connect. rewrite Es. by apply quiet_log.
    - pose proof (on_connect_rows act h (count_drop h m) Es) as Hr. cbn zeta in Hr. destruct Hq as [Hq1 Hq2]. unfold quiet in *. by rewrite Hq1, Hq2 in Hr. }
  rewrite (bool_decide_false (eh_evtType h = evtConnect)) by done. cbn [andb]. generalize dependent (count_drop h m). intros m1 Hq.
  case_bool_decide; [|case_bool_decide; [|case_bool_decide]].
  - unfold on_dns. apply (quiet_resolve (eh_cgroupID h)) in Hq. destruct (resolve _ m1) as [pod m2]. cbn [snd] in Hq.
    destruct (dnsQuestions_returns dns pl) as [qs ->]. cbn [mbind go_bind]. intros [= <-]. revert m2 Hq.
    induction qs as [|q qs IH]; intros m2 Hq; [done|]. cbn [foldl]. apply IH, quiet_log; [done|]. by destruct (SkipDomain _ _).
  - unfold on_tls. destruct (ServerName pl) as [sni| | |]; [|by intros [= <-]|done..]. destruct (_ || _); [intros [= <-]; by apply quiet_log|].
    apply (quiet_resolve (eh_cgroupID h)) in Hq. destruct (resolve _ m1) as [pod m2]. intros [= <-]. by apply quiet_log.
  - unfold on_http. destruct (ParseRequest pl) as [req|]; [|by intros [= <-]]. destruct (_ || _); [intros [= <-]; by apply quiet_log|].
    apply (quiet_resolve (eh_cgroupID h)) in Hq. destruct (resolve _ m1) as [pod m2]. intros [= <-]. by apply quiet_log.
  - by intros [= <-].
Qed.
Lemma monitor_run_snoc raws raw m : monitor_run dns f inspect enforcing (raws ++ [raw]) m = monitor_run dns f inspect enforcing raws m ≫= handleEvent dns f inspect enforcing raw.
Proof. unfold monitor_run. by rewrite foldl_app. Qed.
Lemma exists_in_snoc {A} (P : A → Prop) l y : (∃ x, x ∈ l ++ [y] ∧ P x) ↔ (∃ x, x ∈ l ∧ P x) ∨ P y.
Proof.
  split.
  - intros (x & [Hx| ->%list_elem_of_singleton]%elem_of_app & HP); [left; by exists x|by right].
  - intros [(x & Hx & HP)|HP]; [exists x|exists y]; (split; [|done]); apply elem_of_app; [by left|right; by apply list_elem_of_singleton].
Qed.
Lemma run_rows raws m : ∃ m', monitor_run dns f inspect enforcing raws m = Ok m' ∧
  connect_rows (trace m') = connect_rows (trace m) ++ (row_of <$> audited (seen m) (connects raws)) ∧
  ∀ key, key ∈ seen m' ↔ key ∈ seen m ∨ ∃ h, h ∈ connects raws ∧ ¬ denied h ∧ key = connect_key h.
Proof.
  induction raws as [|raw raws (m1 & Hm1 & Hr1 & Hs1)] using rev_ind.
  { exists m. split; [done|]. split; [by rewrite app_nil_r|]. set_solver. }
  rewrite monitor_run_snoc, Hm1. cbn [mbind go_bind]. destruct (handleEvent_extends dns f inspect enforcing raw m1) as (m2 & Hm2 & _).
  exists m2. split; [done|]. pose proof (handleEvent_rows raw m1 m2 Hm2) as Hrow. unfold connects at 1 2. rewrite omap_app. fold (connects raws) (connects [raw]).
  destruct (connects [raw]) as [|h l] eqn:Ec; [destruct Hrow as [-> ->]; by rewrite app_nil_r|].
  assert (l = []) as -> by (unfold connects in Ec; cbn in Ec; repeat case_match; by simplify_eq).
  rewrite audited_snoc, fmap_app.
  assert (reported (seen m) (connects raws) (length (connects raws)) h ↔ ¬ (¬ denied h ∧ connect_key h ∈ seen m1)) as Hrep.
  { unfold reported. rewrite take_ge by done. rewrite Hs1, Forall_forall. destruct (decide (denied h)); [tauto|]. split.
    - intros [?|[Hn Hall]]; [done|]. intros [_ [?|(h' & Hh' & Hd' & E)]]; [done|]. destruct (Hall h' Hh'); [done|congruence].
    - intros Hn. right. split; [tauto|]. intros h' Hh'. destruct (decide (denied h')); [by left|right]. intros E. apply Hn. split; [done|]. right. by exists h'. }
  destruct (decide (¬ denied h ∧ connect_key h ∈ seen m1)) as [Hk|Hk].
  - rewrite bool_decide_true in Hrow by done. rewrite bool_decide_false by tauto. destruct Hrow as [-> ->]. rewrite app_nil_r. split; [done|].
    intros key. rewrite Hs1, exists_in_snoc. destruct Hk as [Hd Hin]. rewrite Hs1 in Hin. split; [tauto|].
    intros [?|[?|[_ ->]]]; tauto.
  - rewrite bool_decide_false in Hrow by done. rewrite bool_decide_true by tauto. destruct Hrow as [-> ->]. rewrite Hr1, <-(assoc_L (++)). split; [done|].
    intros key. rewrite exists_in_snoc. case_bool_decide; rewrite ?elem_of_union, ?elem_of_singleton, Hs1; tauto.
Qed.
(** ** Everything the monitor reports *)
(** An effect without its pod. *)
Definition without_pod (e : Event) : Event :=
  {| Kind := Kind e; Src := Src e; Dst := Dst e; ev_Port := ev_Port e; ev_Domain := ev_Domain e; DNSType := DNSType e;
     ev_Method := ev_Method e; ev_Path := ev_Path e; ev_Headers := ev_Headers e; PID := PID e; Comm := Comm e;
     ev_Pod := PodInfo_zero; Action := Action e; ev_Rule := ev_Rule e |}.
Definition anon (x : effect) : effect := match x with Emitted e => Emitted (without_pod e) | _ => x end.
Definition act_of (h : eventHeader) : string := if enforcing then kernelAction (eh_action h) else "".
Definition sample_payload (h : eventHeader) (raw : bytes) : bytes :=
  if bool_decide (0 < eh_plen h ≤ Z.of_nat (length raw) - 56)%Z then take (Z.to_nat (eh_plen h)) (drop 56 raw) else [].
Definition report (kind : string) (skip : bool) (e : Event) : effect := if skip then FilteredCounted kind else Emitted e.
(** What one sample is reported as; [new]: an allowed connection is not known yet. *)
Definition sample_reports (new : eventHeader → bool) (raw : bytes) : list effect :=
  match parseHeader raw with
  | Ok (Some h) =>
      let pl := sample_payload h raw in
      (if bool_decide (denied h) then DropCounted <$> option_list (drop_kind (eh_evtType h)) else []) ++
      (if bool_decide (eh_evtType h = evtConnect) then
         if SkipIP f (eh_dst h) || bool_decide (denied h) || new h then [report KindConnect (SkipIP f (eh_dst h)) (connect_event h PodInfo_zero (act_of h))] else []
       else if bool_decide (eh_evtType h = evtDNS) then
         match dnsQuestions dns pl with
         | Ok qs => (λ q, report KindDNS (SkipDomain f q.1) (dns_event h PodInfo_zero q)) <$> qs
         | _ => []
         end
       else if bool_decide (eh_evtType h = evtTLS) then
         match ServerName pl with
         | Ok name => let sni := String.string_of_list_byte name in
             [report KindTLS (SkipDomain f sni || SkipIP f (eh_dst h)) (tls_event h PodInfo_zero (act_of h) sni)]
         | _ => []
         end
       else if bool_decide (eh_evtType h = evtHTTP) then
         match ParseRequest pl with
         | Some req => [report KindHTTP (SkipDomain f (r_Host req) || SkipIP f (eh_dst h)) (http_event (Headers inspect) h PodInfo_zero (act_of h) req)]
         | None => []
         end
       else [])
  | _ => []
  end.
(** Over a run: an allowed connection is new when no allowed one before it, past the
    filter, has its key. *)
Definition new_after (s : gset string) (earlier : list bytes) (h : eventHeader) : bool :=
  bool_decide (connect_key h ∉ s ∧ Forall (λ h', denied h' ∨ connect_key h' ≠ connect_key h) (connects earlier)).
Definition reports (s : gset string) (raws : list bytes) : list effect :=
  mjoin (imap (λ i raw, sample_reports (new_after s (take i raws)) raw) raws).

Definition anons (m : monitor) : list effect := anon <$> trace m.
Lemma anons_log x m : anons (log x m) = anons m ++ [anon x].
Proof. unfold anons. cbn [log trace]. by rewrite fmap_app. Qed.
Lemma anons_resolve cg m : anons (resolve cg m).2 = anons m.
Proof. unfold resolve. by destruct (by_cgroup cg (pods m)). Qed.
Lemma anons_drop h m : anons (count_drop h m) = anons m ++ if bool_decide (denied h) then DropCounted <$> option_list (drop_kind (eh_evtType h)) else [].
Proof.
  unfold count_drop. destruct (decide (denied h)) as [Hd|Hd]; [rewrite !bool_decide_true by done|rewrite !bool_decide_false by done; by rewrite app_nil_r].
  destruct (drop_kind _); cbn [from_option option_list fmap list_fmap]; [apply anons_log|by rewrite app_nil_r].
Qed.
Lemma sample_payload_eq h raw : length raw ≥ hdrLen → event_payload h raw = Ok (sample_payload h raw).
Proof.
  unfold event_payload, sample_payload, hdrLen. intros Hl. rewrite <-bool_decide_and.
  rewrite (bool_decide_ext (_ ∧ _) (0 < eh_plen h ≤ Z.of_nat (length raw) - 56)%Z) by lia. case_bool_decide; [|done].
  rewrite gslice_ok by lia. do 3 f_equal. lia.
Qed.
Lemma anons_emit kind cg (skip : bool) (ev : PodInfo → Event) m :
  (∀ pod, without_pod (ev pod) = ev PodInfo_zero) →
  anons (if skip then log (FilteredCounted kind) m else let '(pod, m') := resolve cg m in log (Emitted (ev pod)) m') = anons m ++ [report kind skip (ev PodInfo_zero)].
Proof.
  intros Hev. destruct skip; [apply anons_log|]. pose proof (anons_resolve cg m) as Hr. destruct (resolve cg m) as [pod m']. cbn [snd] in Hr.
  rewrite anons_log, Hr. cbn [anon report]. by rewrite Hev.
Qed.
Lemma handleEvent_reports raw m m' : handleEvent dns f inspect enforcing raw m = Ok m' →
  anons m' = anons m ++ sample_reports (λ h, bool_decide (connect_key h ∉ seen m)) raw.
Proof.
  unfold handleEvent, sample_reports. destruct (parseHeader raw) as [[h|]| | |] eqn:Ep; cbn [mbind go_bind]; [|intros [= <-]; by rewrite app_nil_r|done..].
  assert (length raw ≥ hdrLen) as Hlen by (rewrite parseHeader_cases in Ep; case_bool_decide; [done|lia]).
  rewrite (sample_payload_eq h raw Hlen). cbn [mbind go_bind]. fold (act_of h). set (pl := sample_payload h raw).
  rewrite (assoc_L (++)), <-anons_drop. assert (seen (count_drop h m) = seen m) as Hseen by (apply quiet_drop). rewrite <-Hseen.
  generalize (count_drop h m). clear Hseen m. intros m.
  case_bool_decide; [|case_bool_decide; [|case_bool_decide; [|case_bool_decide]]].
  - intros [= <-]. unfold on_connect. destruct (SkipIP f (eh_dst h)); cbn [orb]; [apply anons_log|].
    assert (∀ m0, anons m0 = anons m → anons (let '(pod, m) := resolve (eh_cgroupID h) m0 in log (Emitted (connect_event h pod (act_of h))) m) =
      anons m ++ [report KindConnect false (connect_event h PodInfo_zero (act_of h))]) as Hemit.
    { intros m0 <-. by apply (anons_emit KindConnect (eh_cgroupID h) false (λ pod, connect_event h pod (act_of h))). }
    destruct (decide (denied h)) as [Hd|Hd].
    { rewrite (bool_decide_false (eh_action h ≠ actionDeny)), (bool_decide_true (denied h)) by auto. by apply Hemit. }
    rewrite (bool_decide_true (eh_action h ≠ actionDeny)), (bool_decide_false (denied h)) by done. cbn [orb].
    rewrite (bool_decide_not (connect_key h ∈ seen m)). case_bool_decide; cbn [negb]; [by rewrite app_nil_r|by apply Hemit].
  - unfold on_dns. pose proof (anons_resolve (eh_cgroupID h) m) as Hr. destruct (resolve _ m) as [pod m1]. cbn [snd] in Hr. rewrite <-Hr.
    destruct (dnsQuestions dns pl) as [qs| | |]; cbn [mbind go_bind]; try done. intros [= <-]. clear Hr. revert m1.
    induction qs as [|q qs IH]; intros m1; [by rewrite app_nil_r|]. cbn [foldl fmap list_fmap]. rewrite IH, anons_log, <-(assoc_L (++)).
    by destruct (SkipDomain f q.1).
  - unfold on_tls. destruct (ServerName pl) as [name| | |]; [|intros [= <-]; by rewrite app_nil_r|done..].
    intros Hm. rewrite <-(anons_emit KindTLS (eh_cgroupID h) _ (λ pod, tls_event h pod (act_of h) (String.string_of_list_byte name))) by done.
    destruct (_ || _); [by injection Hm as <-|]. destruct (resolve _ m). by injection Hm as <-.
  - unfold on_http. destruct (ParseRequest pl) as [req|]; [|intros [= <-]; by rewrite app_nil_r].
    intros [= <-]. by rewrite <-(anons_emit KindHTTP (eh_cgroupID h) _ (λ pod, http_event (Headers inspect) h pod (act_of h) req)).
  - intros [= <-]. by rewrite app_nil_r.
Qed.
Lemma sample_reports_ext new new' raw : (∀ h, new h = new' h) → sample_reports new raw = sample_reports new' raw.
Proof. intros Hn. unfold sample_reports. destruct (parseHeader raw) as [[h|]| | |]; [|done..]. by rewrite Hn. Qed.
Lemma reports_snoc s raws raw : reports s (raws ++ [raw]) = reports s raws ++ sample_reports (new_after s raws) raw.
Proof.
  unfold reports. rewrite imap_app, join_app. f_equal.
  - f_equal. apply imap_ext. intros i r Hi. by rewrite take_app_le by (apply lookup_lt_Some in Hi; lia).
  - cbn [imap mjoin list_join]. rewrite app_nil_r, Nat.add_0_r, take_app_length. done.
Qed.
Lemma run_reports raws m : ∃ m', monitor_run dns f inspect enforcing raws m = Ok m' ∧ anons m' = anons m ++ reports (seen m) raws.
Proof.
  induction raws as [|raw raws (m1 & Hm1 & Hr1)] using rev_ind; [exists m; split; [done|by rewrite app_nil_r]|].
  rewrite monitor_run_snoc, Hm1. cbn [mbind go_bind]. destruct (handleEvent_extends dns f inspect enforcing raw m1) as (m2 & Hm2 & _).
  exists m2. split; [done|]. rewrite (handleEvent_reports raw m1 m2 Hm2), Hr1, reports_snoc, <-(assoc_L (++)). do 2 f_equal.
  apply sample_reports_ext. intros h. apply bool_decide_ext. destruct (run_rows raws m) as (m1' & Hm1' & _ & Hs). rewrite Hm1 in Hm1'. injection Hm1' as <-.
  rewrite Hs, Forall_forall. split.
  - intros Hn. split; [tauto|]. intros h' Hh'. destruct (decide (denied h')); [by left|right]. intros E. apply Hn. right. by exists h'.
  - intros [Hn Hall] [?|(h' & Hh' & Hd & E)]; [done|]. destruct (Hall h' Hh'); congruence.
Qed.
End audit.

(** The connection log is exactly this: on every sequence of samples the monitor
    handles all, and the connections it reports are, in order, those of the
    unfiltered connect samples that were denied or are the first allowed one with
    their source address, destination and port (counting from the keys it started
    with), each with its addresses, port and the kernel's verdict in enforce mode. *)
Theorem connect_audit `{UnicodeCase} `{PodResolver} dns f inspect enforcing raws (m : monitor) :
  ∃ m', monitor_run dns f inspect enforcing raws m = Ok m' ∧
    connect_rows (trace m') = connect_rows (trace m) ++ (row_of enforcing <$> audited (seen m) (connects f raws)).
Proof. destruct (run_rows dns f inspect enforcing raws m) as (m' & Hm & Hr & _). eauto. Qed.

(** ** The samples, read independently *)
(** The key of a connect determines its printed addresses and its port. *)
Definition no_bar (s : string) : Prop := "|"%char ∉ chars s.
Lemma no_bar_app s t : no_bar (s +:+ t) ↔ no_bar s ∧ no_bar t.
Proof. unfold no_bar. rewrite chars_app, not_elem_of_app. done. Qed.
Lemma no_bar_dec b : no_bar (dec_byte b).
Proof. apply (bool_decide_unpack _). by destruct b; vm_compute. Qed.
Lemma no_bar_hex_digit n : (0 ≤ n < 16)%Z → hex_digit n ≠ "|"%char.
Proof.
  intros Hn. assert (n ∈ (Z.of_nat <$> seq 0 16)) as Hin.
  { apply list_elem_of_fmap. exists (Z.to_nat n). split; [lia|]. apply elem_of_seq. lia. }
  revert n Hn Hin. cut (Forall (λ n, hex_digit n ≠ "|"%char) (Z.of_nat <$> seq 0 16)); [intros HF n _ Hn; rewrite Forall_forall in HF; by apply HF|].
  apply (bool_decide_unpack _). by vm_compute.
Qed.
Lemma land15 z : (0 ≤ Z.land z 15 < 16)%Z.
Proof. change 15%Z with (Z.ones 4). rewrite Z.land_ones by lia. apply Z.mod_pos_bound. lia. Qed.
Lemma no_bar_hex16 v : no_bar (hex16 v).
Proof.
  unfold no_bar, hex16. rewrite chars_of_chars. rewrite !not_elem_of_app.
  assert (∀ k, "|"%char ∉ [hex_digit (Z.land (Z.shiftr v k) 15)]) as Hd.
  { intros k ?%list_elem_of_singleton. by apply (no_bar_hex_digit (Z.land (Z.shiftr v k) 15)); [apply land15|]. }
  split_and!; try (destruct (_ <=? v)%Z); try apply Hd; apply not_elem_of_nil.
Qed.
Lemma no_bar_hex_byte b : no_bar (hex_byte b).
Proof. apply (bool_decide_unpack _). by destruct b; vm_compute. Qed.
Lemma no_bar_join l : Forall no_bar l → no_bar (colon_join l).
Proof.
  destruct 1 as [|x l Hx Hl]; [by apply not_elem_of_nil|]. cbn [colon_join]. revert x Hx. induction Hl as [|y l Hy _ IH]; intros x Hx; [done|].
  cbn [fold_left]. apply IH. rewrite !no_bar_app. split_and!; [done| |done]. apply (bool_decide_unpack _). by vm_compute.
Qed.
Lemma IP_String_no_bar ip : no_bar (IP_String ip).
Proof.
  assert (∀ s, bool_decide (no_bar s) = true → no_bar s) as Hdec by (intros s; apply bool_decide_eq_true).
  assert (∀ g, no_bar (colon_join (hex16 <$> g))) as Hj by (intros g; apply no_bar_join, Forall_fmap, Forall_true, no_bar_hex16).
  unfold IP_String. destruct ip as [|b ip]; [by apply Hdec; vm_compute|]. destruct (To4 (b :: ip)) as [p4|].
  - unfold dotted. destruct p4 as [|a [|b' [|c [|d [|]]]]]; cbn [fmap list_fmap]; try (by apply Hdec; vm_compute).
    rewrite !no_bar_app. repeat split; try apply no_bar_dec; by apply Hdec; vm_compute.
  - case_bool_decide.
    + unfold string6. destruct (best_run _ _ _) as [zs ze]. case_bool_decide; [|apply Hj]. rewrite !no_bar_app. split_and!; try apply Hj. by apply Hdec; vm_compute.
    + rewrite no_bar_app. split; [by apply Hdec; vm_compute|]. clear. assert (no_bar "") as Hnil by (by apply not_elem_of_nil). induction (b :: ip) as [|x l IH]; [done|].
      cbn [fmap list_fmap foldr]. apply no_bar_app. split; [apply no_bar_hex_byte|done].
Qed.
Lemma split_at_bar (s t s' t' : string) : no_bar s → no_bar s' → s +:+ "|" +:+ t = s' +:+ "|" +:+ t' → s = s' ∧ t = t'.
Proof.
  intros Hs Hs' E%(f_equal chars). rewrite !chars_app in E. change (chars "|") with ["|"%char] in E. unfold no_bar in *.
  enough (chars s = chars s' ∧ chars t = chars t') as [?%chars_inj ?%chars_inj] by done.
  revert E Hs Hs'. generalize (chars s) (chars s'). intros l. induction l as [|c l IH]; intros [|c' l'] E Hl Hl'; simplify_eq/=.
  - done.
  - destruct Hl'. left.
  - destruct Hl. left.
  - destruct (IH l') as [-> ->]; [done|intros ?; apply Hl; by right|intros ?; apply Hl'; by right|done].
Qed.
Lemma connect_key_inj h h' :
  connect_key h = connect_key h' ↔ IP_String (eh_src h) = IP_String (eh_src h') ∧ IP_String (eh_dst h) = IP_String (eh_dst h') ∧ eh_dport h = eh_dport h'.
Proof.
  unfold connect_key. split; [|by intros (-> & -> & ->)]. intros E%(inj (String.append "c|")).
  apply split_at_bar in E as [Hs E]; [|apply IP_String_no_bar..]. apply split_at_bar in E as [Hd E]; [|apply IP_String_no_bar..].
  by apply (inj pretty) in E.
Qed.

(** The fields of a sample at the offsets of [struct event]; a sample shorter than the
    header is none.  [sm_payload] is the captured payload if all of it is there. *)
Record sample := { sm_type : Z; sm_denied : bool; sm_src : bytes; sm_dst : bytes; sm_port : Z; sm_payload : bytes }.
Definition read_sample (raw : bytes) : option sample :=
  if bool_decide (length raw < 56) then None
  else
    let byte i := b2z (nth i raw x00) in
    let alen := if bool_decide (byte 1 = 6%Z) then 16 else 4 in
    let plen := (byte 40%nat + 256 * byte 41%nat + 65536 * byte 42%nat + 16777216 * byte 43%nat)%Z in
    Some {| sm_type := byte 0; sm_denied := bool_decide (byte 3 = 0%Z);
            sm_src := take alen (drop 4 raw); sm_dst := take alen (drop 20 raw); sm_port := (256 * byte 38%nat + byte 39%nat)%Z;
            sm_payload := if bool_decide (56 + plen ≤ Z.of_nat (length raw))%Z then take (Z.to_nat plen) (drop 56 raw) else [] |}.
(** The questions the parser gives, the names without their trailing dot. *)
Section asked.
Context (dns : DnsParser).
Fixpoint asked_from (n : nat) (p : pst dns) : list (string * string) :=
  match n, Question p with
  | S n, Got (name, typ, p) => (TrimSuffix name ".", typ) :: asked_from n p
  | _, _ => []
  end.
Definition asked (payload : bytes) : list (string * string) :=
  match payload, Start dns payload with
  | _ :: _, Some p => asked_from (questions_left p) p
  | _, _ => []
  end.
Lemma asked_eq payload : dnsQuestions dns payload = Ok (asked payload).
Proof.
  unfold dnsQuestions, asked. destruct payload as [|b payload]; [done|]. rewrite bool_decide_false by done.
  destruct (Start dns (b :: payload)) as [p|]; [|done].
  cut (∀ n p, questions_left p ≤ n → dns_question_loop dns (S n) p = Ok (asked_from n p)); [intros Hn; by apply Hn|]. clear. intros n.
  induction n as [|n IH]; intros p Hle; [cbn; by destruct (Question p) as [| |[[name typ] p']] eqn:E; [..|apply Question_consumes in E; lia]|].
  assert (∀ m, dns_question_loop dns (S m) p = match Question p with
    | SectionDone | ParseError => Ok []
    | Got (name, typ, p) => qs ← dns_question_loop dns m p; Ok ((TrimSuffix name ".", typ) :: qs) end) as -> by done.
  cbn [asked_from]. destruct (Question p) as [| |[[name typ] p']] eqn:E; [done..|]. apply Question_consumes in E. by rewrite IH by lia.
Qed.
End asked.

Section observed.
Context `{UnicodeCase} `{PodResolver} (dns : DnsParser) (f : Filter) (inspect : Inspection) (enforcing : bool).
(** An event as it is shown, without its pod. *)
Definition shown (kind src dst : string) (port : Z) (domain dnstype method path : string) (headers : list Header) (action : string) : effect :=
  Emitted {| Kind := kind; Src := src; Dst := dst; ev_Port := port; ev_Domain := domain; DNSType := dnstype; ev_Method := method; ev_Path := path;
             ev_Headers := headers; PID := 0; Comm := ""; ev_Pod := PodInfo_zero; Action := action; ev_Rule := "" |}.
Definition kernel_says (s : sample) : string := if enforcing then if sm_denied s then "Deny" else "Allow" else "".
(** What one sample shows; [new]: no allowed connect like it has been shown. *)
Definition observed_one (new : bool) (s : sample) : list effect :=
  let src := IP_String (sm_src s) in
  let dst := IP_String (sm_dst s) in
  let drop kind := if sm_denied s then [DropCounted kind] else [] in
  match sm_type s with
  | 1%Z => drop "connect" ++
      if SkipIP f (sm_dst s) then [FilteredCounted "connect"]
      else if sm_denied s || new then [shown "connect" src dst (sm_port s) "" "" "" "" [] (kernel_says s)] else []
  | 2%Z => (λ q, if SkipDomain f q.1 then FilteredCounted "dns" else shown "dns" src "" 0 q.1 q.2 "" "" [] "") <$> asked dns (sm_payload s)
  | 3%Z => drop "tls" ++
      match ServerName (sm_payload s) with
      | Ok name =>
          let sni := String.string_of_list_byte name in
          [if SkipDomain f sni || SkipIP f (sm_dst s) then FilteredCounted "tls" else shown "tls" src dst (sm_port s) sni "" "" "" [] (kernel_says s)]
      | _ => []
      end
  | 4%Z => drop "http" ++
      match ParseRequest (sm_payload s) with
      | Some r =>
          [if SkipDomain f (r_Host r) || SkipIP f (sm_dst s) then FilteredCounted "http"
           else shown "http" src dst (sm_port s) (r_Host r) "" (r_Method r) (r_Path r) (if Headers inspect then r_Headers r else []) (kernel_says s)]
      | None => []
      end
  | _ => []
  end.
(** The same connection, as far as it can be seen. *)
Definition same_connection (s s' : sample) : Prop :=
  IP_String (sm_src s) = IP_String (sm_src s') ∧ IP_String (sm_dst s) = IP_String (sm_dst s') ∧ sm_port s = sm_port s'.
#[export] Instance same_connection_dec s s' : Decision (same_connection s s').
Proof. unfold same_connection. apply _. Defined.
(** An allowed connect outside the filter. *)
Definition let_through (s : sample) : bool := bool_decide (sm_type s = 1%Z) && negb (sm_denied s) && negb (SkipIP f (sm_dst s)).
Fixpoint observed (before : list sample) (raws : list bytes) : list effect :=
  match raws with
  | [] => []
  | raw :: raws =>
      match read_sample raw with
      | None => observed before raws
      | Some s => observed_one (negb (existsb (λ s', let_through s' && bool_decide (same_connection s' s)) before)) s ++ observed (before ++ [s]) raws
      end
  end.

(** *** The two readings agree *)
Definition sample_of (h : eventHeader) (raw : bytes) : sample :=
  {| sm_type := eh_evtType h; sm_denied := bool_decide (eh_action h = 0%Z); sm_src := eh_src h; sm_dst := eh_dst h; sm_port := eh_dport h;
     sm_payload := sample_payload h raw |}.
Lemma be_get16_nth raw i : i + 2 ≤ length raw → be_get16 (take 2 (drop i raw)) = (256 * b2z (nth i raw x00) + b2z (nth (S i) raw x00))%Z.
Proof.
  intros Hl. destruct (lookup_lt_is_Some_2 raw i ltac:(lia)) as [a Ha]. destruct (lookup_lt_is_Some_2 raw (S i) ltac:(lia)) as [b Hb].
  rewrite (nth_lookup_Some _ _ _ _ Ha), (nth_lookup_Some _ _ _ _ Hb), (drop_S _ _ _ Ha), (drop_S _ _ _ Hb). cbn [take]. rewrite !firstn_O. cbn [be_get16]. rewrite be16_eq. lia.
Qed.
Lemma le_get4_nth raw i : i + 4 ≤ length raw →
  le_get (take 4 (drop i raw)) =
  (b2z (nth i raw x00) + 256 * b2z (nth (S i) raw x00) + 65536 * b2z (nth (S (S i)) raw x00) + 16777216 * b2z (nth (S (S (S i))) raw x00))%Z.
Proof.
  intros Hl. destruct (lookup_lt_is_Some_2 raw i ltac:(lia)) as [a Ha]. destruct (lookup_lt_is_Some_2 raw (S i) ltac:(lia)) as [b Hb].
  destruct (lookup_lt_is_Some_2 raw (S (S i)) ltac:(lia)) as [c Hc]. destruct (lookup_lt_is_Some_2 raw (S (S (S i))) ltac:(lia)) as [d Hd].
  rewrite (nth_lookup_Some _ _ _ _ Ha), (nth_lookup_Some _ _ _ _ Hb), (nth_lookup_Some _ _ _ _ Hc), (nth_lookup_Some _ _ _ _ Hd).
  rewrite (drop_S _ _ _ Ha), (drop_S _ _ _ Hb), (drop_S _ _ _ Hc), (drop_S _ _ _ Hd). cbn [take]. rewrite !firstn_O, !le_get_cons. cbn [le_get]. lia.
Qed.
Lemma read_sample_eq raw : read_sample raw = match parseHeader raw with Ok (Some h) => Some (sample_of h raw) | _ => None end.
Proof.
  rewrite parseHeader_cases. unfold read_sample, hdrLen. case_bool_decide as Hl; [done|]. cbn zeta. unfold sample_of, sample_payload.
  cbn [eh_evtType eh_action eh_src eh_dst eh_dport eh_plen]. rewrite be_get16_nth, le_get4_nth by lia.
  set (plen := (_ + _ + _ + _)%Z). do 2 f_equal.
  assert (0 ≤ plen)%Z as Hp.
  { subst plen. pose proof (b2z_range (nth 40 raw x00)). pose proof (b2z_range (nth 41 raw x00)).
    pose proof (b2z_range (nth 42 raw x00)). pose proof (b2z_range (nth 43 raw x00)). lia. }
  destruct (decide (plen = 0)%Z) as [->|Hn].
  - rewrite (bool_decide_false (0 < 0 ≤ _)%Z) by lia. by destruct (bool_decide _).
  - rewrite (bool_decide_ext (0 < plen ≤ _)%Z (56 + plen ≤ Z.of_nat (length raw))%Z); [done|lia].
Qed.
(** One sample, by cases on its type. *)
Lemma observed_one_eq new h raw :
  parseHeader raw = Ok (Some h) → sample_reports dns f inspect enforcing new raw = observed_one (new h) (sample_of h raw).
Proof.
  intros Hh. unfold sample_reports. rewrite Hh. set (s := sample_of h raw). change (sample_payload h raw) with (sm_payload s).
  change (eh_evtType h) with (sm_type s). change (eh_dst h) with (sm_dst s).
  assert (∀ k, (if bool_decide (denied h) then [DropCounted k] else []) = if sm_denied s then [DropCounted k] else []) as Hdrop by done.
  assert (act_of enforcing h = kernel_says s) as Hact.
  { unfold act_of, kernel_says, kernelAction. change (sm_denied s) with (bool_decide (eh_action h = 0%Z)). by destruct enforcing; [case_bool_decide|]. }
  change (bool_decide (denied h)) with (sm_denied s) in Hdrop |- *. rewrite Hact. unfold report, drop_kind, evtConnect, evtDNS, evtTLS, evtHTTP, observed_one. clear Hdrop Hact Hh.
  destruct (decide (sm_type s = 1)%Z) as [E|E1].
  { rewrite E, !(bool_decide_true (1%Z = 1%Z)) by done. cbn [option_list fmap list_fmap]. f_equal. destruct (SkipIP f (sm_dst s)); [done|]. cbn [orb].
    by destruct (_ || _). }
  rewrite !(bool_decide_false (sm_type s = 1%Z)) by done. destruct (decide (sm_type s = 2)%Z) as [E|E2].
  { rewrite E, !(bool_decide_true (2%Z = 2%Z)), !(bool_decide_false (2%Z = 3%Z)), !(bool_decide_false (2%Z = 4%Z)), asked_eq by done.
    destruct (sm_denied s); reflexivity. }
  rewrite !(bool_decide_false (sm_type s = 2%Z)) by done. destruct (decide (sm_type s = 3)%Z) as [E|E3].
  { by rewrite E, !(bool_decide_true (3%Z = 3%Z)) by done. }
  rewrite !(bool_decide_false (sm_type s = 3%Z)) by done. destruct (decide (sm_type s = 4)%Z) as [E|E4].
  { by rewrite E, !(bool_decide_true (4%Z = 4%Z)) by done. }
  rewrite !(bool_decide_false (sm_type s = 4%Z)) by done. cbn [option_list fmap list_fmap].
  destruct (sm_type s) as [|[[|[]|]|[[]|[]|]|]|]; try done; by destruct (sm_denied s).
Qed.
Definition known_among (before : list sample) (s : sample) : bool := existsb (λ s', let_through s' && bool_decide (same_connection s' s)) before.
Lemma known_among_spec pre h raw :
  Forall (λ h', denied h' ∨ connect_key h' ≠ connect_key h) (connects f pre) ↔ known_among (omap read_sample pre) (sample_of h raw) = false.
Proof.
  induction pre as [|r pre IH]; [done|]. cbn [omap list_omap]. rewrite read_sample_eq.
  assert (connects f (r :: pre) = connects f [r] ++ connects f pre) as -> by apply (omap_app _ [r] pre).
  rewrite Forall_app, IH. unfold connects. cbn [omap list_omap]. destruct (parseHeader r) as [[h'|]| | |]; try (rewrite Forall_nil; tauto).
  unfold known_among. cbn [existsb]. rewrite orb_false_iff. apply and_iff_compat_r. unfold let_through, denied, evtConnect, actionDeny.
  cbn [sample_of sm_type sm_denied sm_dst]. destruct (bool_decide (eh_evtType h' = 1%Z)); [|by rewrite Forall_nil]. cbn [andb].
  destruct (SkipIP f (eh_dst h')); cbn [negb]; [by rewrite andb_false_r, Forall_nil|]. rewrite andb_true_r, Forall_singleton.
  rewrite andb_false_iff, negb_false_iff, bool_decide_eq_true, bool_decide_eq_false, connect_key_inj. done.
Qed.
Lemma new_after_eq pre h raw : new_after f ∅ pre h = negb (known_among (omap read_sample pre) (sample_of h raw)).
Proof.
  unfold new_after. pose proof (known_among_spec pre h raw) as Hk. destruct (known_among _ _); cbn [negb].
  - apply bool_decide_eq_false. intros [_ Hf%Hk]. done.
  - apply bool_decide_eq_true. split; [apply not_elem_of_empty|by apply Hk].
Qed.
Lemma observed_eq pre raws :
  observed (omap read_sample pre) raws = mjoin (imap (λ i raw, sample_reports dns f inspect enforcing (new_after f ∅ (pre ++ take i raws)) raw) raws).
Proof.
  revert pre. induction raws as [|raw raws IH]; intros pre; [done|]. rewrite imap_cons. cbn [mjoin list_join observed take]. rewrite app_nil_r.
  assert (omap read_sample (pre ++ [raw]) = omap read_sample pre ++ option_list (read_sample raw)) as Hsnoc.
  { rewrite omap_app. cbn. by destruct (read_sample raw). }
  assert (imap ((λ i raw0, sample_reports dns f inspect enforcing (new_after f ∅ (pre ++ take i (raw :: raws))) raw0) ∘ S) raws =
    imap (λ i raw0, sample_reports dns f inspect enforcing (new_after f ∅ ((pre ++ [raw]) ++ take i raws)) raw0) raws) as Himap.
  { apply imap_ext. intros i r _. cbn. by rewrite <-(assoc_L (++)). }
  rewrite Himap, <-IH, Hsnoc. rewrite read_sample_eq. destruct (parseHeader raw) as [[h|]| | |] eqn:Eh; cbn [option_list].
  - f_equal. rewrite (observed_one_eq _ h raw Eh). f_equal. symmetry. apply new_after_eq.
  - unfold sample_reports. rewrite Eh. by rewrite app_nil_r.
  - unfold sample_reports. rewrite Eh. by rewrite app_nil_r.
  - unfold sample_reports. rewrite Eh. by rewrite app_nil_r.
  - unfold sample_reports. rewrite Eh. by rewrite app_nil_r.
Qed.
Lemma fresh_reports raws r : ∃ m', monitor_run dns f inspect enforcing raws {| seen := ∅; pods := r; trace := [] |} = Ok m' ∧ anon <$> trace m' = observed [] raws.
Proof.
  destruct (run_reports dns f inspect enforcing raws {| seen := ∅; pods := r; trace := [] |}) as (m' & Hm & Hr). exists m'. split; [done|].
  fold (anons m'). rewrite Hr. symmetry. exact (observed_eq [] raws).
Qed.
End observed.

(** C8: the monitor reports exactly this: a fresh monitor handles every sequence of
    samples, and its effects are, in order and up to the pod attached to an event,
    those read off the samples by the documented layout, one by one: a drop count for
    each denied connect, TLS or HTTP sample; the connect, each DNS question, the server
    name or the request of the payload as an event with the sample's addresses, port
    and (in enforce mode) the kernel's verdict, or a filter count where the filter
    skips it; nothing for other types, short samples and payloads that do not parse; a
    denied connect every time, an allowed one only if no allowed connect before it,
    past the filter, had the same printed addresses and port. *)
Theorem monitor_reports `{UnicodeCase} `{PodResolver} dns f inspect enforcing raws r :
  ∃ m', monitor_run dns f inspect enforcing raws {| seen := ∅; pods := r; trace := [] |} = Ok m' ∧
    anon <$> trace m' = observed dns f inspect enforcing [] raws.
Proof. apply fresh_reports. Qed.

(** A key has no pod in it and is never forgotten: the allowed connect of another pod
    with the same address (host network, or an address used again) is not reported. *)
Definition ex_other : bytes := put_event {| evt_type := 1; ip_version := 4; l4_proto := 6; ev_action := 1; saddr := addr16 [x0a; x00; x00; x05];
  daddr := addr16 [xcb; x00; x71; x09]; sport := [x9c; x40]; dport := [x01; xbb]; payload_len := 0; ev_cgroup := 8; payload := [] |} [x00; x00; x00; x00] [].
Example shared_address_hides_connect :
  length (connects default_filter [ex_allowed; ex_other]) = 2 ∧
  eh_cgroupID <$> connects default_filter [ex_allowed; ex_other] = [7%Z; 8%Z] ∧
  eh_cgroupID <$> audited ∅ (connects default_filter [ex_allowed; ex_other]) = [7%Z].
Proof. by vm_compute. Qed.
