(* ===== verification/System.v ===== *)
(** * The enforcement components together

    The programmer and the DNS learner are two goroutines over one [verdicts] map
    ([egress.Run] gives both the same handle).  [enforcer] is their joint state, an
    event is one re-programming, one DNS answer, one policy update of the learner
    or one sweep, in any order.  The theorems say what survives the sharing, and
    follow a domain rule from the DNS packet to the dropped connection. *)

From S2P Require Import Prelude GoStrings GoNet NetBits Attr Policy Engine Aggregate Datapath Hooks Programmer Enforcement DnsLearn EgressMon.

(** ** The joint state *)
Section enforcer.
Context `{UnicodeCase} `{Kernel} `{PodResolver} (dns : DnsParser).

Record enforcer := { en_prog : programmer; en_entries : gmap verdictKey Z; en_eng : engine; en_pods : rst }.
Definition learner_of (st : enforcer) : learner_state :=
  {| ls_learner := {| l_verdicts := Verdicts (maps (en_prog st)); entries := en_entries st |}; ls_eng := en_eng st; ls_pods := en_pods st |}.
(** The programmer with the map as the learner left it. *)
Definition with_map (p : programmer) (v : km_state k_verdicts) : programmer :=
  {| maps := {| Default := Default (maps p); Verdicts := v; CIDR := CIDR (maps p); Cfg := Cfg (maps p) |}; dryRun := dryRun p;
     prevCIDR := prevCIDR p; prevVerdict := prevVerdict p; prevDefault := prevDefault p |}.
Inductive enforcer_event := Reprogram (rd : round) | Learner (ev : learner_event).
Definition enforcer_step (st : enforcer) (ev : enforcer_event) : go engine_error enforcer :=
  match ev with
  | Reprogram rd =>
      Ok {| en_prog := apply (en_prog st) (rd_eng rd) (rd_order rd); en_entries := en_entries st; en_eng := en_eng st; en_pods := en_pods st |}
  | Learner ev =>
      ls ← learner_step dns (learner_of st) ev;
      Ok {| en_prog := with_map (en_prog st) (l_verdicts (ls_learner ls)); en_entries := entries (ls_learner ls); en_eng := ls_eng ls; en_pods := ls_pods ls |}
  end.
(** Both goroutines just started on freshly loaded maps. *)
Definition enforcer_init (m : Maps) (dry : bool) (eng : engine) (r : rst) : enforcer :=
  {| en_prog := NewProgrammer m dry; en_entries := ∅; en_eng := eng; en_pods := r |}.

(** What is asked of an event: a re-programming walks one list of pods and finds
    room for the policy; a learner event satisfies [Q]. *)
Definition event_ok (Q : learner_event → Prop) (st : enforcer) (ev : enforcer_event) : Prop :=
  match ev with
  | Reprogram rd => (∀ i, rd_order rd i ≡ₚ rd_pods rd) ∧ room (en_prog st) (rd_pods rd) (e_policy (rd_eng rd))
  | Learner ev => Q ev
  end.
Inductive reaches (Q : learner_event → Prop) : enforcer → enforcer → Prop :=
  | reaches_refl st : reaches Q st st
  | reaches_step st ev st1 st2 : event_ok Q st ev → enforcer_step st ev = Ok st1 → reaches Q st1 st2 → reaches Q st st2.

(** ** Every entry has an owner *)
Record enforcer_inv (P : Policy → Prop) (st : enforcer) : Prop := {
  inv_prog : prog_inv (en_prog st);
  inv_owned k : is_Some (lookup_probe (maps (en_prog st)) k) →
    k = PD 0 ∨ stale (en_prog st) k = true ∨ ∃ vk, k = PV vk ∧ is_Some (en_entries st !! vk);
  inv_eng : ∃ p, NewEngine (Some p) = Ok (en_eng st) ∧ P p
}.

Lemma reprogram_inv P st rd :
  enforcer_inv P st → (∀ i, rd_order rd i ≡ₚ rd_pods rd) → room (en_prog st) (rd_pods rd) (e_policy (rd_eng rd)) →
  ∃ st', enforcer_step st (Reprogram rd) = Ok st' ∧ enforcer_inv P st'.
Proof.
  intros [Hinv Hown Heng] Ho Hroom. eexists. split; [done|]. split; cbn [en_prog en_entries en_eng]; [apply apply_inv| |done].
  intros k [v Hv]. destruct (decide (k = PD 0)) as [->|Hk]; [by left|]. right.
  assert (target (en_prog st) (rd_pods rd) (e_policy (rd_eng rd)) k = Some v) as Ht.
  { pose proof (apply_lookup (en_prog st) (rd_pods rd) (rd_eng rd) (rd_order rd) k Ho Hinv Hroom) as Hl. destruct k; rewrite ?Hl in Hv; auto. }
  destruct (desired (rd_pods rd) (e_policy (rd_eng rd)) k) eqn:Ed.
  - left. apply (apply_recorded (en_prog st) (rd_pods rd)); [done|done|done|by rewrite Ed].
  - right. unfold target in Ht. rewrite Ed in Ht. cbn [orelse] in Ht. destruct (stale (en_prog st) k) eqn:Es; [done|].
    destruct (Hown k) as [->|[?|?]]; [by rewrite Ht|done|congruence|done].
Qed.
(** A learner event leaves the programmer's own maps and records alone. *)
Lemma with_map_lookup p v k : lookup_probe (maps (with_map p v)) k = match k with PV vk => km_contents v !! vk | _ => lookup_probe (maps p) k end.
Proof. by destruct k. Qed.
Lemma learner_inv P T st ev :
  enforcer_inv P st → update_ok P ev →
  ∃ st', enforcer_step st (Learner ev) = Ok st' ∧ enforcer_inv P st' ∧
    (before T ev → map_Forall (λ _ exp, exp ≤ T + maxLearnTTL)%Z (en_entries st) → map_Forall (λ _ exp, exp ≤ T + maxLearnTTL)%Z (en_entries st')).
Proof.
  intros [Hinv Hown Heng] Hu. cbn [enforcer_step].
  destruct (learner_step_ok dns P T (learner_of st) ev Heng Hu) as (ls & Hls & Hc & Hexp). rewrite Hls. cbn [mbind go_bind].
  eexists. split; [done|]. split; [|exact Hexp]. split; cbn [en_prog en_entries en_eng]; [exact Hinv| |exact Hc].
  intros k. rewrite with_map_lookup. change (stale (with_map (en_prog st) _) k) with (stale (en_prog st) k).
  destruct k as [vk|q|cg]; intros Hk; [right; revert Hk|destruct (Hown _ Hk) as [?|[?|(vk & ? & _)]]; auto; done..].
  assert (∀ l, km_contents (l_verdicts l) !! vk = km_contents (Verdicts (maps (en_prog st))) !! vk →
    entries l !! vk = en_entries st !! vk → is_Some (km_contents (l_verdicts l) !! vk) →
    stale (en_prog st) (PV vk) = true ∨ ∃ vk', PV vk = PV vk' ∧ is_Some (entries l !! vk')) as Hsame.
  { intros l Hv He Hs. rewrite Hv in Hs. destruct (Hown (PV vk) Hs) as [?|[?|(vk' & [= <-] & ?)]]; [done|by left|]. right. exists vk. by rewrite He. }
  destruct Heng as (p & Hp & _). destruct ev as [now raw|q|now]; cbn [learner_step] in Hls.
  - destruct (handle_cases dns p (ls_eng (learner_of st)) now raw (ls_learner (learner_of st)) (ls_pods (learner_of st)) Hp) as (l' & r' & Hh & Hc').
    rewrite Hh in Hls. cbn [mbind go_bind] in Hls. injection Hls as <-. cbn [ls_learner]. destruct Hc' as [-> |(act & exp & keys & -> & _)]; [by apply Hsame|].
    destruct (learn_keys_spec act exp keys (ls_learner (learner_of st))) as [He Hv]. intros [v Hv']. specialize (Hv vk v Hv'). specialize (He vk).
    destruct (bool_decide_reflect (vk ∈ keys)); [right; exists vk; by rewrite He|].
    destruct (Hown (PV vk)) as [?|[?|(vk' & [= <-] & Hs)]]; [by exists v|done|by left|]. right. exists vk. rewrite He. done.
  - destruct (NewEngine q); simplify_eq; by apply Hsame.
  - injection Hls as <-. cbn [ls_learner]. destruct (sweep_eq now (ls_learner (learner_of st))) as [He Hv]. rewrite Hv. cbn [ls_learner learner_of entries l_verdicts] in *.
    destruct (en_entries st !! vk) as [exp|] eqn:Ee.
    + destruct (Z.ltb_spec exp now) as [|Hge]; [by intros []|]. intros _. right. exists vk. split; [done|].
      rewrite He. exists exp. apply map_lookup_filter_Some. split; [done|]. simpl. lia.
    + intros Hs. destruct (Hown (PV vk) Hs) as [?|[?|(vk' & [= <-] & Hx)]]; [done|by left|]. rewrite Ee in Hx. by destruct Hx.
Qed.

(** Without domain rules the learner only forgets. *)
Lemma learner_quiet st ev :
  enforcer_inv no_domains st → update_ok no_domains ev →
  ∃ st', enforcer_step st (Learner ev) = Ok st' ∧ enforcer_inv no_domains st' ∧ en_entries st' ⊆ en_entries st.
Proof.
  intros Hi Hu. destruct (learner_inv no_domains 0 st ev Hi Hu) as (st' & Hst & Hi' & _). exists st'. split; [done|]. split; [done|].
  destruct Hi as [_ _ (p & Hp & Hn)]. cbn [enforcer_step] in Hst. destruct ev as [now raw|q|now]; cbn [learner_step] in Hst.
  - destruct (handle_cases dns p (ls_eng (learner_of st)) now raw (ls_learner (learner_of st)) (ls_pods (learner_of st)) Hp) as (l' & r' & Hh & Hc).
    rewrite Hh in Hst. cbn [mbind go_bind] in Hst. injection Hst as <-. cbn [en_entries ls_learner].
    destruct Hc as [-> |(? & ? & ? & _ & _ & pod & qn & a & ports & Hf & _)]; [done|]. by rewrite first_no_domains in Hf.
  - destruct (NewEngine q); cbn [mbind go_bind] in Hst; injection Hst as <-; done.
  - cbn [mbind go_bind] in Hst. injection Hst as <-. cbn [en_entries ls_learner].
    destruct (sweep_eq now (ls_learner (learner_of st))) as [He _]. cbn [ls_learner learner_of entries] in He |- *. rewrite He. apply map_filter_subseteq.
Qed.
(** Induction over a run. *)
Lemma reaches_inv (I : enforcer → Prop) Q st st' :
  (∀ st rd, I st → event_ok Q st (Reprogram rd) → ∃ st', enforcer_step st (Reprogram rd) = Ok st' ∧ I st') →
  (∀ st ev, I st → Q ev → ∃ st', enforcer_step st (Learner ev) = Ok st' ∧ I st') →
  reaches Q st st' → I st → I st'.
Proof.
  intros Hr Hl. induction 1 as [|st ev st1 st2 Hev Hst _ IH]; [done|]. intros Hi. apply IH. destruct ev as [rd|ev].
  - destruct (Hr st rd Hi Hev) as (st1' & Hst' & Hi'). congruence.
  - destruct (Hl st ev Hi Hev) as (st1' & Hst' & Hi'). congruence.
Qed.
Lemma run_inv_expiry P T st st' :
  reaches (λ ev, update_ok P ev ∧ before T ev) st st' →
  enforcer_inv P st ∧ map_Forall (λ _ exp, exp ≤ T + maxLearnTTL)%Z (en_entries st) →
  enforcer_inv P st' ∧ map_Forall (λ _ exp, exp ≤ T + maxLearnTTL)%Z (en_entries st').
Proof.
  apply (reaches_inv (λ st, enforcer_inv P st ∧ map_Forall (λ _ exp, exp ≤ T + maxLearnTTL)%Z (en_entries st))).
  - intros s rd [Hi He] [Ho Hr]. destruct (reprogram_inv P s rd Hi Ho Hr) as (s' & Hs & Hi'). exists s'. split; [done|]. split; [done|].
    cbn [enforcer_step] in Hs. by injection Hs as <-.
  - intros s ev [Hi He] [Hu Hb]. destruct (learner_inv P T s ev Hi Hu) as (s' & Hs & Hi' & He'). exists s'. auto.
Qed.
Lemma run_inv_quiet st st' :
  reaches (update_ok no_domains) st st' → enforcer_inv no_domains st → enforcer_inv no_domains st' ∧ en_entries st' ⊆ en_entries st.
Proof.
  intros Hr Hi. apply (reaches_inv (λ s, enforcer_inv no_domains s ∧ en_entries s ⊆ en_entries st) (update_ok no_domains) st st'); [..|done|done].
  - intros s rd [Hs He] [Ho Hroom]. destruct (reprogram_inv no_domains s rd Hs Ho Hroom) as (s' & Hst & Hi'). exists s'. split; [done|]. split; [done|].
    cbn [enforcer_step] in Hst. by injection Hst as <-.
  - intros s ev [Hs He] Hu. destruct (learner_quiet s ev Hs Hu) as (s' & Hst & Hi' & He'). exists s'. split; [done|]. split; [done|]. by etrans.
Qed.
Lemma init_inv P m dry eng r p0 :
  owned (NewProgrammer m dry) → NewEngine (Some p0) = Ok eng → P p0 → enforcer_inv P (enforcer_init m dry eng r).
Proof.
  intros Hown Heng HP. split; [intros key Hk; set_solver| |by exists p0]. intros k Hk. destruct (Hown k Hk); auto.
Qed.
Lemma reachable_inv m dry p0 eng r st :
  owned (NewProgrammer m dry) → NewEngine (Some p0) = Ok eng → reaches (λ _, True) (enforcer_init m dry eng r) st →
  enforcer_inv (λ _, True) st.
Proof.
  intros Hown Heng Hr. apply (reaches_inv (enforcer_inv (λ _, True)) (λ _, True) (enforcer_init m dry eng r) st); [..|exact Hr|by eapply init_inv].
  - intros s rd Hs [Ho Hroom]. by apply reprogram_inv.
  - intros s ev Hs _. destruct (learner_inv (λ _, True) 0 s ev Hs) as (s' & ? & ? & _); [by destruct ev|eauto].
Qed.
End enforcer.

(** ** What survives the sharing *)
(** The shared map is never littered: from maps just loaded, whatever order
    re-programmings, DNS answers, policy updates and sweeps come in, each step
    returns, and every entry of every map is the node default, recorded by the
    programmer, or remembered with an expiry by the learner. *)
Theorem shared_map_owned `{UnicodeCase} `{Kernel} `{PodResolver} dns m dry p0 eng r st k :
  owned (NewProgrammer m dry) → NewEngine (Some p0) = Ok eng →
  reaches dns (λ _, True) (enforcer_init m dry eng r) st →
  (∀ ev, event_ok (λ _, True) st ev → ∃ st', enforcer_step dns st ev = Ok st') ∧
  (is_Some (lookup_probe (maps (en_prog st)) k) →
   k = PD 0 ∨ stale (en_prog st) k = true ∨ ∃ vk, k = PV vk ∧ is_Some (en_entries st !! vk)).
Proof.
  intros Hown Heng Hr.
  pose proof (reachable_inv dns m dry p0 eng r st Hown Heng Hr) as Hi.
  split; [|apply Hi]. intros [rd|ev] Hev.
  - by eexists.
  - destruct (learner_inv dns (λ _, True) 0 st ev Hi) as (s' & ? & _); [by destruct ev|eauto].
Qed.

(** C10: together they leave no residue: after any joint run with answers up to time
    [T], once the policy has no domain rule (and later updates add none), the first
    sweep more than an hour after [T] followed by a re-programming that finds room in
    the maps leaves the default and CIDR maps exactly as the policy wants them,
    whatever either goroutine had written before; so too the verdict map where the
    kernel keeps as many keys as it holds and the policy wants, and in any case it
    holds nothing that the policy does not want. *)
Theorem joint_no_residue `{UnicodeCase} `{Kernel} `{PodResolver} dns m dry p0 eng r T q st1 st2 st3 now rd k :
  owned (NewProgrammer m dry) → NewEngine (Some p0) = Ok eng →
  reaches dns (before T) (enforcer_init m dry eng r) st1 →
  valid_policy q → no_domains q → enforcer_step dns st1 (Learner (PolicyUpdate (Some q))) = Ok st2 →
  reaches dns (update_ok no_domains) st2 st3 → (T + maxLearnTTL < now)%Z →
  ∃ st4, enforcer_step dns st3 (Learner (SweepTick now)) = Ok st4 ∧ en_entries st4 = ∅ ∧
    (event_ok (λ _, True) st4 (Reprogram rd) →
     ∃ st5, enforcer_step dns st4 (Reprogram rd) = Ok st5 ∧
     (∀ v, lookup_probe (maps (en_prog st5)) k = Some v → desired (rd_pods rd) (e_policy (rd_eng rd)) k = Some v) ∧
     (kept_key (verdict_domain (en_prog st4) (rd_pods rd) (e_policy (rd_eng rd))) k →
      lookup_probe (maps (en_prog st5)) k = desired (rd_pods rd) (e_policy (rd_eng rd)) k)).
Proof.
  intros Hown Heng Hr1 Hq Hn Hst2 Hr2 Hnow.
  destruct (run_inv_expiry dns (λ _, True) T (enforcer_init m dry eng r) st1) as [Hi1 He1].
  { clear -Hr1. induction Hr1 as [|st ev s1 s2 Hev Hst _ IH]; [constructor|]. eapply reaches_step; [|done|done].
    destruct ev as [|ev]; [done|]. split; [by destruct ev|done]. }
  { split; [by eapply init_inv|apply map_Forall_empty]. }
  assert (enforcer_inv no_domains st2 ∧ en_entries st2 = en_entries st1) as [Hi2 He2].
  { cbn [enforcer_step learner_step] in Hst2. destruct (NewEngine_valid q Hq) as [e He]. rewrite He in Hst2. cbn [mbind go_bind] in Hst2.
    injection Hst2 as <-. split; [|done]. destruct Hi1 as [Hp Ho _]. split; [exact Hp|exact Ho|by exists q]. }
  destruct (run_inv_quiet dns st2 st3 Hr2 Hi2) as [Hi3 He3].
  destruct (learner_inv dns no_domains T st3 (SweepTick now) Hi3 I) as (st4 & Hst4 & Hi4 & _). exists st4. split; [done|].
  assert (en_entries st4 = ∅) as Hempty.
  { cbn [enforcer_step learner_step mbind go_bind] in Hst4. injection Hst4 as <-. cbn [en_entries ls_learner].
    destruct (sweep_eq now (ls_learner (learner_of st3))) as [He _]. cbn [ls_learner learner_of entries] in He |- *. rewrite He.
    apply map_empty. intros vk. apply map_lookup_filter_None. right. intros exp Hk Hle. cbn in Hle.
    apply (lookup_weaken _ _ _ _ Hk) in He3. rewrite He2 in He3. apply He1 in He3. lia. }
  split; [done|]. intros [Ho Hroom]. eexists. split; [done|]. cbn [en_prog].
  assert (is_Some (lookup_probe (maps (en_prog st4)) k) → k = PD 0 ∨ stale (en_prog st4) k = true) as Hmine.
  { intros Hk. destruct (inv_owned _ _ Hi4 k Hk) as [?|[?|(vk & _ & Hx)]]; [by left|by right|]. rewrite Hempty in Hx. by destruct Hx. }
  split.
  - intros v Hv. pose proof (apply_owned_key (en_prog st4) (rd_pods rd) (rd_eng rd) (rd_order rd) k Ho (inv_prog _ _ Hi4) Hroom Hmine) as Hl.
    destruct k; [by apply Hl|congruence..].
  - intros Hk. by apply (apply_owned_exact (en_prog st4) (rd_pods rd)); [|apply Hi4|..].
Qed.

(** The learner does not disturb the rules on addresses: after a joint run and a
    re-programming, a packet of a known pod whose four verdict lookups the learner
    has not written gets the action of the engine's first-match verdict, under the
    conditions that make the maps able to express the policy. *)
Theorem kernel_agrees_beside_learner `{UnicodeCase} `{Kernel} `{PodResolver} dns m dry p0 eng0 r st pods pol eng order cg da dp f :
  owned (NewProgrammer m dry) → NewEngine (Some p0) = Ok eng0 → reaches dns (λ _, True) (enforcer_init m dry eng0 r) st →
  (∀ vk, PV vk ∈ probes cg da dp → en_entries st !! vk = None) →
  NewEngine (Some pol) = Ok eng → (∀ i, order i ≡ₚ map_to_list pods) → room (en_prog st) (map_to_list pods) pol →
  not_evicted (apply (en_prog st) eng order) (map_to_list pods) pol cg da dp →
  good_pods pods → packet_flow pods cg da dp f → Forall (λ r, representable r = true) (Rules pol) →
  specific_first (writes pods) rule_act (probes cg da dp) (Rules pol) →
  ∃ st', enforcer_step dns st (Reprogram {| rd_eng := eng; rd_pods := map_to_list pods; rd_order := order |}) = Ok st' ∧
    verdict_for (maps (en_prog st')) cg da dp = actionByte (v_Action (Evaluate eng f)).
Proof.
  intros Hown Heng0 Hr Hnone Heng Ho Hroom Hev Hpods Hf Hrep Hs.
  pose proof (reachable_inv dns m dry p0 eng0 r st Hown Heng0 Hr) as Hi.
  eexists. split; [done|]. cbn [en_prog rd_eng rd_order]. apply (verdict_for_engine (en_prog st) pods pol); try done; [apply Hi|].
  intros k Hk Hx. destruct (inv_owned _ _ Hi k Hx) as [?|[?|(vk & -> & Hy)]]; [by left|by right|]. rewrite Hnone in Hy by done. by destruct Hy.
Qed.

(** ** A domain rule from the answer to the packet *)
(** The bytes of the record [dns_ingress] submits, [rest] what is left of the buffer. *)
Definition put_answer (a : dns_answer) (rest : bytes) : bytes :=
  le_put 4 (da_payload_len a) ++ replicate 4 x00 ++ le_put 8 (da_cgroup a) ++ da_payload a ++ rest.
Lemma dns_ingress_record reserve s a rest :
  dns_ingress reserve s = (true, Some a) →
  da_cgroup a = skb_cgroup s ∧ length (da_payload a) ≤ MAX_PAYLOAD ∧ put_answer a rest = dns_record (skb_cgroup s) (da_payload a) rest.
Proof.
  unfold dns_ingress. intros Hd. repeat (case_bool_decide; [done|]); (destruct reserve; [|done]);
    (match type of Hd with context [copy_payload ?s ?o ?n] => pose proof (copy_payload_len s o n) as Hp; destruct (copy_payload s o n) as [plen pl] end);
    injection Hd as <-; cbn [fst snd] in Hp; destruct Hp as [-> Hp]; done.
Qed.
Lemma actionByte_deny b : actionByte b = ACTION_DENY ↔ b = ActionDeny.
Proof. unfold actionByte, actDeny, actAllow, ACTION_DENY. case_bool_decide; by split. Qed.
Lemma probes_daddr cg da dp vk : PV vk ∈ probes cg da dp → DAddr vk = da.
Proof.
  unfold probes. rewrite !elem_of_app. intros [Hk|[Hk|[Hk|Hk]]].
  - do 4 (apply elem_of_cons in Hk as [Hk|Hk]; [by injection Hk as ->|]). by apply elem_of_nil in Hk.
  - by apply list_elem_of_fmap in Hk as (? & ? & _).
  - by apply list_elem_of_fmap in Hk as (? & ? & _).
  - do 2 (apply elem_of_cons in Hk as [Hk|Hk]; [done|]). by apply elem_of_nil in Hk.
Qed.
Lemma enforceable_unique s da dp da' dp' : enforceable s da dp → enforceable s da' dp' → da = da' ∧ dp = dp'.
Proof. intros (h & Hh & _ & _ & -> & -> & _) (h' & Hh' & _ & _ & -> & -> & _). by simplify_eq. Qed.
Lemma elem_learned_keys cg ips ports da port :
  length da = 4 → da ∈ ips → port ∈ ports → vkey cg da (be_put16 port) ∈ learned_keys cg ips ports.
Proof.
  intros Hl Hda Hp. unfold learned_keys. apply list_elem_of_bind. exists da. split; [|done]. rewrite To4_4 by done. cbn [from_option].
  apply list_elem_of_fmap. eauto.
Qed.


(** ** Actions are actions *)
Definition is_action (z : Z) : Prop := z = ACTION_DENY ∨ z = ACTION_ALLOW.
Definition maps_typed `{Kernel} (m : Maps) : Prop := ∀ k v, lookup_probe m k = Some v → is_action v.
Lemma actionByte_action a : is_action (actionByte a).
Proof. unfold actionByte. case_bool_decide; [by left|by right]. Qed.
Lemma desired_action pods pol k v : desired pods pol k = Some v → is_action v.
Proof.
  unfold desired. destruct (first (rule_writes pods k) (Rules pol)) as [a|] eqn:E; cbn [orelse].
  - intros [= <-]. apply first_Some in E as (l1 & r & l2 & _ & Hr & _). unfold rule_writes in Hr. case_bool_decide; simplify_eq. apply actionByte_action.
  - case_bool_decide; [|done]. intros [= <-]. apply actionByte_action.
Qed.
Lemma verdict_for_action `{Kernel} m cg da dp : maps_typed m → is_action (verdict_for m cg da dp).
Proof.
  intros Hm. rewrite verdict_for_probes. destruct (first _ _) as [v|] eqn:E; [|by right]. cbn [default from_option].
  apply first_Some in E as (l1 & k & l2 & _ & Hk & _). by eapply Hm.
Qed.
Section typed.
Context `{UnicodeCase} `{Kernel} `{PodResolver} (dns : DnsParser).
Lemma typed_step P st ev st' :
  enforcer_inv P st → event_ok (update_ok P) st ev → enforcer_step dns st ev = Ok st' → maps_typed (maps (en_prog st)) → maps_typed (maps (en_prog st')).
Proof.
  intros Hi Hev Hst Hm k v Hk. destruct ev as [rd|ev]; cbn [enforcer_step] in Hst.
  - injection Hst as <-. cbn [en_prog] in Hk. destruct Hev as [Ho Hr].
    assert (target (en_prog st) (rd_pods rd) (e_policy (rd_eng rd)) k = Some v) as Ht.
    { pose proof (apply_lookup (en_prog st) (rd_pods rd) (rd_eng rd) (rd_order rd) k Ho (inv_prog _ _ Hi) Hr) as Hl. destruct k; rewrite ?Hl in Hk; auto. }
    unfold target in Ht. destruct (desired _ _ k) eqn:Ed; cbn [orelse] in Ht; [simplify_eq; by eapply desired_action|].
    destruct (stale _ k); [done|]. by eapply Hm.
  - destruct (learner_step dns (learner_of st) ev) as [ls| | |] eqn:Els; cbn [mbind go_bind] in Hst; simplify_eq. cbn [en_prog] in Hk.
    rewrite with_map_lookup in Hk. destruct k as [vk|q|cg]; [|by eapply Hm..].
    destruct (inv_eng _ _ Hi) as (p & Hp & _). destruct ev as [now raw|q|now]; cbn [learner_step] in Els.
    + destruct (handle_cases dns p (ls_eng (learner_of st)) now raw (ls_learner (learner_of st)) (ls_pods (learner_of st)) Hp) as (l' & r' & Hh & Hc).
      rewrite Hh in Els. cbn [mbind go_bind] in Els. injection Els as <-. cbn [ls_learner] in Hk.
      destruct Hc as [-> |(act & exp & keys & -> & _ & _ & _ & a & _ & _ & ->)]; [by apply (Hm (PV vk))|].
      apply learn_keys_spec in Hk. revert Hk. case_bool_decide; [intros ->; apply actionByte_action|]. apply (Hm (PV vk)).
    + destruct (NewEngine q); simplify_eq; by apply (Hm (PV vk)).
    + injection Els as <-. cbn [ls_learner] in Hk. rewrite (proj2 (sweep_eq now (ls_learner (learner_of st)))) in Hk.
      assert (km_contents (Verdicts (maps (en_prog st))) !! vk = Some v) as Hv; [|by apply (Hm (PV vk))].
      cbn [ls_learner learner_of entries l_verdicts] in Hk. destruct (en_entries st !! vk) as [exp|]; [destruct (exp <? now)%Z|]; done.
Qed.
Lemma reachable_typed m dry p0 eng r st :
  owned (NewProgrammer m dry) → maps_typed m → NewEngine (Some p0) = Ok eng → reaches dns (λ _, True) (enforcer_init m dry eng r) st →
  maps_typed (maps (en_prog st)).
Proof.
  intros Hown Hm Heng Hr.
  assert (∀ s ev, event_ok (λ _, True) s ev → event_ok (update_ok (λ _, True)) s ev) as Hok by (intros s [rd|[]]; done).
  enough (enforcer_inv (λ _, True) st ∧ maps_typed (maps (en_prog st))) by tauto.
  apply (reaches_inv dns (λ s, enforcer_inv (λ _, True) s ∧ maps_typed (maps (en_prog s))) (λ _, True) (enforcer_init m dry eng r) st);
    [..|exact Hr|split; [by eapply init_inv|exact Hm]].
  - intros s rd [Hi Ht] Hev. destruct (reprogram_inv dns (λ _, True) s rd Hi (proj1 Hev) (proj2 Hev)) as (s' & Hs' & Hi').
    exists s'. split; [done|]. split; [done|]. by apply (typed_step (λ _, True) s (Reprogram rd)).
  - intros s ev [Hi Ht] _. destruct (learner_inv dns (λ _, True) 0 s ev Hi) as (s' & Hs' & Hi' & _); [by destruct ev|].
    exists s'. split; [done|]. split; [done|]. apply (typed_step (λ _, True) s (Learner ev)); [done|by destruct ev|done|done].
Qed.
End typed.

Lemma egress_action `{Kernel} reserve m s e :
  e ∈ (egress reserve m s).2 → maps_typed m → (0 ≤ skb_cgroup s < 2 ^ 64)%Z → is_action (ev_action e).
Proof.
  unfold egress. intros He Hm Hcg. destruct (parse_l3 (linear s)) as [h|] eqn:Eh; [|by apply not_elem_of_nil in He].
  revert He. case_bool_decide as Hl; [by intros ?%not_elem_of_nil|]. cbn zeta.
  assert (u8 (l3_ver h)) as Hv by (destruct (parse_l3_ver _ _ Eh) as [-> | ->]; by split).
  case_bool_decide as Hu; [|case_bool_decide as Ht; [|by intros ?%not_elem_of_nil]].
  - case_bool_decide as H8; [by intros ?%not_elem_of_nil|]. case_bool_decide as H53.
    2: { destruct (if bool_decide (l3_ver h = 4%Z) then _ else _); by intros ?%not_elem_of_nil. }
    cbn [snd]. unfold submit_event. destruct (reserve []); [|by intros ?%not_elem_of_nil]. destruct (copy_payload _ _ _).
    intros ->%list_elem_of_singleton. by right.
  - case_bool_decide as H20; [by intros ?%not_elem_of_nil|]. intros He. apply egress_tcp_events in He as [-> _]; [|lia|done..].
    destruct (if bool_decide (l3_ver h = 4%Z) then _ else _); [by apply verdict_for_action|by right].
Qed.

(** C22: what travels between kernel and agent is well typed: from maps whose values
    are actions, after any joint run every value in the maps is Allow or Deny, and
    every record that the packet and connect hooks submit has fields of the widths of
    [struct event], a payload length that is the payload's and at most 512, and an
    action that is Allow or Deny. *)
Theorem records_typed `{UnicodeCase} `{Kernel} `{PodResolver} dns reserve m dry p0 eng r st s protocol cg da dp e :
  owned (NewProgrammer m dry) → maps_typed m → NewEngine (Some p0) = Ok eng →
  reaches dns (λ _, True) (enforcer_init m dry eng r) st →
  (0 ≤ skb_cgroup s < 2 ^ 64)%Z → (0 ≤ cg < 2 ^ 64)%Z → length da = 4 → length dp = 2 →
  maps_typed (maps (en_prog st)) ∧
  (e ∈ (egress reserve (maps (en_prog st)) s).2 ∨ e ∈ (connect4 reserve (maps (en_prog st)) protocol cg da dp).2 →
   event_wf e ∧ is_action (ev_action e)).
Proof.
  intros Hown Hm Heng Hr Hs Hcg Hda Hdp. pose proof (reachable_typed dns m dry p0 eng r st Hown Hm Heng Hr) as Ht. split; [done|]. intros [He|He].
  - pose proof (egress_action reserve _ s e He Ht Hs) as Ha. split; [|done]. eapply egress_events; [exact He| |exact Hs].
    unfold u8. destruct Ha as [-> | ->]; unfold ACTION_DENY, ACTION_ALLOW; lia.
  - revert He. unfold connect4. case_bool_decide; [by intros ?%not_elem_of_nil|]. destruct (enforce_enabled _) as [dry'|]; [|by intros ?%not_elem_of_nil].
    case_bool_decide; [|by intros ?%not_elem_of_nil]. unfold emit_connect_deny.
    assert (e ∈ (if reserve [] then [{| evt_type := EVT_CONNECT; ip_version := 4; l4_proto := IPPROTO_TCP; ev_action := ACTION_DENY;
      saddr := replicate 16 x00; daddr := addr16 da; sport := [x00; x00]; dport := dp; payload_len := 0; ev_cgroup := cg; payload := [] |}] else []) →
      event_wf e ∧ is_action (ev_action e)) as Hrec.
    { destruct (reserve []); [|by intros ?%not_elem_of_nil]. intros ->%list_elem_of_singleton. split; [|by left].
      split; cbn; try done; unfold u8; try lia; try (apply length_addr16; lia). }
    case_bool_decide; exact Hrec.
Qed.

(** ** Concrete runs *)
(** The DNS answer to the pod of cgroup 7: a UDP packet from port 53. *)
Definition ex_answer : skb :=
  {| linear := [x45; x00; x00; x1d; x00; x00; x00; x00; x40; x11; x00; x00; x0a; x00; x00; x0a; x0a; x00; x00; x05;
                x00; x35; x9c; x40; x00; x09; x00; x00; x2a];
     paged := []; skb_cgroup := 7 |}.
Definition ex_dns : DnsParser := fixed_dns (ex_message "a.evil.com." 30).
Definition enabled_maps : @Maps linux :=
  {| Datapath.Default := ∅ : km_state (@k_default linux); Verdicts := ∅ : km_state (@k_verdicts linux);
     CIDR := ∅ : km_state (@k_cidr linux); Cfg := {[0%Z := {| Enabled := 1; DryRun := 0 |}]} : km_state (@k_cfg linux) |}.
Definition ex_init : enforcer (H0 := linux) (H1 := no_pods) :=
  enforcer_init (H0 := linux) (H1 := no_pods) enabled_maps false ex_engine (tt : @rst no_pods).
Definition ex_next (st : enforcer (H0 := linux) (H1 := no_pods)) (ev : enforcer_event) : enforcer (H0 := linux) (H1 := no_pods) :=
  match enforcer_step (H := ascii_case) (H0 := linux) (H1 := no_pods) ex_dns st ev with Ok st => st | _ => st end.
Lemma ex_next_ok st ev :
  is_ok (enforcer_step (H := ascii_case) (H0 := linux) (H1 := no_pods) ex_dns st ev) = true →
  enforcer_step (H := ascii_case) (H0 := linux) (H1 := no_pods) ex_dns st ev = Ok (ex_next st ev).
Proof. unfold ex_next. by destruct (enforcer_step _ _ _). Qed.
Definition ex_learn : enforcer_event := Learner (Answer 5 (dns_record 7 payload1 [])).
Definition ex_round : round := {| rd_eng := engine_of ex_deny; rd_pods := map_to_list ex_pods; rd_order := ex_order |}.
Lemma enabled_owned dry : owned (H := linux) (NewProgrammer (H := linux) enabled_maps dry).
Proof. intros [k|q|cg] [v Hv]; simpl in Hv; unfold id in Hv; by rewrite lookup_empty in Hv. Qed.
Lemma ex_learned Q : Q (Answer 5 (dns_record 7 payload1 [])) →
  reaches (H := ascii_case) (H0 := linux) (H1 := no_pods) ex_dns Q ex_init (ex_next ex_init ex_learn).
Proof.
  intros HQ. eapply (reaches_step (H := ascii_case) (H0 := linux) (H1 := no_pods) ex_dns Q ex_init ex_learn); [exact HQ| |apply reaches_refl].
  apply ex_next_ok. by vm_compute.
Qed.

(** The same with a rule that denies the domain on port 443. *)
Definition ex_enforcer : enforcer (H0 := linux) (H1 := no_pods) :=
  enforcer_init (H0 := linux) (H1 := no_pods) enabled_maps false ex_domain_engine (tt : @rst no_pods).
Definition ex_handed : dns_answer := {| da_payload_len := 1; da_cgroup := 7; da_payload := [x2a] |}.
Lemma shared_map_owned_witness :
  en_entries (ex_next ex_init ex_learn) !! vkey 7 [xcb; x00; x71; x09] any_port ≠ None ∧
  (∃ st', enforcer_step (H := ascii_case) (H0 := linux) (H1 := no_pods) ex_dns (ex_next ex_init ex_learn) (Learner (SweepTick 6)) = Ok st').
Proof.
  split; [by vm_compute|].
  apply (shared_map_owned (H := ascii_case) (H0 := linux) (H1 := no_pods) ex_dns enabled_maps false ex_policy ex_engine (tt : @rst no_pods)
    (ex_next ex_init ex_learn) (PD 0)); [apply enabled_owned|by vm_compute|by apply ex_learned|done].
Defined.
Definition ex_dropped : enforcer (H0 := linux) (H1 := no_pods) := ex_next (ex_next ex_init ex_learn) (Learner (PolicyUpdate (Some ex_deny))).
Definition ex_swept : enforcer (H0 := linux) (H1 := no_pods) := ex_next ex_dropped (Learner (SweepTick (4000 * second))).
(** The learned entry is gone, the policy's own is there. *)
Lemma joint_no_residue_witness :
  is_Some (lookup_probe (H := linux) (maps (en_prog ex_dropped)) (PV (vkey 7 [xcb; x00; x71; x09] any_port))) ∧
  lookup_probe (H := linux) (maps (en_prog (ex_next ex_swept (Reprogram ex_round)))) (PV (vkey 7 [xcb; x00; x71; x09] any_port)) = None ∧
  lookup_probe (H := linux) (maps (en_prog (ex_next ex_swept (Reprogram ex_round)))) (PV (vkey 0 [xc6; x33; x64; x07] (be_put16 443))) = Some actDeny.
Proof.
  split; [by vm_compute; eauto|].
  assert (∀ k, match k with PV _ => True | _ => False end →
    lookup_probe (H := linux) (maps (en_prog (ex_next ex_swept (Reprogram ex_round)))) k = desired (rd_pods ex_round) (e_policy (rd_eng ex_round)) k) as Hall.
  { intros k _. destruct (joint_no_residue (H := ascii_case) (H0 := linux) (H1 := no_pods) ex_dns enabled_maps false ex_policy ex_engine (tt : @rst no_pods)
      5 ex_deny (ex_next ex_init ex_learn) ex_dropped ex_dropped (4000 * second) ex_round k)
      as (st4 & Hst4 & He & Hre).
    1: apply enabled_owned.
    1: by vm_compute.
    1: by apply ex_learned.
    1: by apply Validate_None; vm_compute.
    1: by repeat constructor.
    1: by apply ex_next_ok; vm_compute.
    1: constructor.
    1: by vm_compute.
    assert (st4 = ex_swept) as -> by (unfold ex_swept, ex_next at 1; by rewrite Hst4).
    destruct Hre as (st5 & Hst5 & _ & Hk); [split; [done|apply room_b_spec; by vm_compute]|].
    assert (st5 = ex_next ex_swept (Reprogram ex_round)) as -> by (unfold ex_next at 1; by rewrite Hst5).
    apply Hk. destruct k; [|done..]. apply linux_fits. by vm_compute. }
  split; (rewrite Hall by done); by vm_compute.
Defined.
Lemma kernel_agrees_beside_learner_witness : ∃ st',
  enforcer_step (H := ascii_case) (H0 := linux) (H1 := no_pods) ex_dns (ex_next ex_init ex_learn) (Reprogram ex_round) = Ok st' ∧
  verdict_for (H := linux) (maps (en_prog st')) 7 [xc6; x33; x64; x07] (be_put16 443) =
    actionByte (v_Action (Evaluate (H := ascii_case) (engine_of ex_deny) (packet "198.51.100.7" 443))).
Proof.
  assert (Forall (λ r, representable r = true) (Rules ex_deny)) as Hr.
  { apply Forall_cons; split; [by vm_compute|]. apply Forall_singleton. by vm_compute. }
  assert (packet_flow ex_pods 7 [xc6; x33; x64; x07] (be_put16 443) (packet "198.51.100.7" 443)) as Hp.
  { apply ex_packet_flow; [by vm_compute|done|lia]. }
  apply (kernel_agrees_beside_learner (H := ascii_case) (H0 := linux) (H1 := no_pods) ex_dns enabled_maps false ex_policy ex_engine (tt : @rst no_pods)
    (ex_next ex_init ex_learn) ex_pods ex_deny (engine_of ex_deny) ex_order).
  - apply enabled_owned.
  - by vm_compute.
  - by apply ex_learned.
  - intros vk Hvk. assert (map_Forall (λ k _, DAddr k = [xcb; x00; x71; x09]) (en_entries (ex_next ex_init ex_learn))) as Hall
      by (apply (bool_decide_unpack _); by vm_compute).
    destruct (en_entries _ !! vk) as [exp|] eqn:E; [|done]. apply Hall in E.
    by rewrite (probes_daddr _ _ _ _ Hvk) in E.
  - by vm_compute.
  - done.
  - apply room_b_spec. by vm_compute.
  - apply kept_b_spec. by vm_compute.
  - apply ex_good_pods.
  - exact Hp.
  - exact Hr.
  - apply (layered_specific_first (H := ascii_case) ex_pods 7 _ _ (packet "198.51.100.7" 443) ex_good_pods Hp _ Hr).
    exists actDeny, (Rules ex_deny), [], []. split_and!; [done| |constructor|constructor].
    apply Forall_cons; split; [done|]. by apply Forall_singleton.
Defined.

Lemma enabled_typed : maps_typed (H := linux) enabled_maps.
Proof. intros [k|q|cg] v Hv; simpl in Hv; unfold id in Hv; by rewrite lookup_empty in Hv. Qed.
Lemma records_typed_witness :
  maps_typed (H := linux) (maps (en_prog (ex_next ex_init ex_learn))) ∧
  (event_wf ex_record ∧ is_action (ev_action ex_record)).
Proof.
  destruct (records_typed (H := ascii_case) (H0 := linux) (H1 := no_pods) ex_dns (λ _, true) enabled_maps false ex_policy ex_engine (tt : @rst no_pods)
    (ex_next ex_init ex_learn) ex_syn 6 7 [xcb; x00; x71; x09] [x01; xbb] ex_record) as [Hm He].
  1: apply enabled_owned.
  1: apply enabled_typed.
  1: by vm_compute.
  1: by apply ex_learned.
  1-2: by vm_compute.
  1-2: done.
  split; [exact Hm|]. apply He. left.
  assert (ex_record ∈ (egress (H := linux) (λ _, true) (maps (en_prog (ex_next ex_init ex_learn))) ex_syn).2) as Hin; [|exact Hin].
  vm_compute. left.
Defined.
