(* ===== verification/Moments.v ===== *)
(** * Re-programming, one map call at a time

    [apply] is not atomic: it puts and deletes entries one by one while the kernel
    looks them up and the DNS learner writes to the same [verdicts] map.  Here a
    step is one call on a kernel map.  [fine_step] interleaves the programmer's
    calls with the learner's (which puts an entry first and remembers it later);
    [during_inv] shows that the maps follow an ideal map that only the calls
    change, and the theorems say what a packet can see in between.  The learner's lock
    is left out: it only rules out some of the interleavings allowed here. *)

From S2P Require Import Prelude GoStrings GoNet NetBits Attr Policy Engine Aggregate Datapath Hooks Programmer Enforcement DnsLearn EgressMon System.

(** ** Map calls *)
Inductive map_op :=
  | PutD (cg act : Z) | PutV (k : verdictKey) (act : Z) | PutC (key : bytes) (act : Z)
  | DelD (cg : Z) | DelV (k : verdictKey) | DelC (key : bytes).
(** The lookup a call changes, and what it leaves there; an LPM key the kernel
    refuses changes none. *)
Definition op_effect (op : map_op) : option (probe * option Z) :=
  match op with
  | PutD cg act => Some (PD cg, Some act)
  | PutV k act => Some (PV k, Some act)
  | PutC key act => (λ p, (PC p, Some act)) <$> lpm_prefix key
  | DelD cg => Some (PD cg, None)
  | DelV k => Some (PV k, None)
  | DelC key => (λ p, (PC p, None)) <$> lpm_prefix key
  end.
(** The keys an [apply] has put so far. *)
Record keys := { ks_CIDR : gset bytes; ks_Verdict : gset verdictKey; ks_Default : gset Z }.
Definition no_keys : keys := {| ks_CIDR := ∅; ks_Verdict := ∅; ks_Default := ∅ |}.
Definition record_key (op : map_op) (ks : keys) : keys :=
  match op with
  | PutD cg _ => {| ks_CIDR := ks_CIDR ks; ks_Verdict := ks_Verdict ks; ks_Default := {[cg]} ∪ ks_Default ks |}
  | PutV k _ => {| ks_CIDR := ks_CIDR ks; ks_Verdict := {[k]} ∪ ks_Verdict ks; ks_Default := ks_Default ks |}
  | PutC key _ => {| ks_CIDR := {[key]} ∪ ks_CIDR ks; ks_Verdict := ks_Verdict ks; ks_Default := ks_Default ks |}
  | _ => ks
  end.

Section calls.
Context `{Kernel}.
(** [None]: the kernel returns an error. *)
Definition exec (op : map_op) (m : Maps) : option Maps :=
  let with_default s := {| Default := s; Verdicts := Verdicts m; CIDR := CIDR m; Cfg := Cfg m |} in
  let with_verdicts s := {| Default := Default m; Verdicts := s; CIDR := CIDR m; Cfg := Cfg m |} in
  let with_cidr s := {| Default := Default m; Verdicts := Verdicts m; CIDR := s; Cfg := Cfg m |} in
  match op with
  | PutD cg act => with_default <$> km_put cg act (Default m)
  | PutV k act => with_verdicts <$> km_put k act (Verdicts m)
  | PutC key act => p ← lpm_prefix key; with_cidr <$> km_put p act (CIDR m)
  | DelD cg => Some (with_default (km_delete cg (Default m)))
  | DelV k => Some (with_verdicts (km_delete k (Verdicts m)))
  | DelC key => p ← lpm_prefix key; Some (with_cidr (km_delete p (CIDR m)))
  end.
(** A put is recorded when it succeeds. *)
Definition exec_rec (mk : Maps * keys) (op : map_op) : Maps * keys :=
  match exec op mk.1 with Some m => (m, record_key op mk.2) | None => mk end.
Definition exec_del (m : Maps) (op : map_op) : Maps := default m (exec op m).

(** ** The calls of [apply] *)
Definition cidr_ops (cg : Z) (c : string) (ports : list Z) (act : Z) : list map_op :=
  match cidr_target c with
  | None => []
  | Some (ip4, ones) =>
      if bool_decide (ports ≠ []) then
        if bool_decide (ones ≠ 32) then [] else (λ port, PutV (vkey cg ip4 (be_put16 port)) act) <$> ports
      else [PutC (cidrKeyBytes (64 + ones) cg ip4) act]
  end.
Definition rule_ops (pods : list (Z * PodInfo)) (r : Rule) : list map_op :=
  let m := r_Match r in
  let act := actionByte (r_Action r) in
  let cgs := matchCgroups (m_Pod m) pods in
  if enforced m then
    if bool_decide (CIDRs m ≠ []) then cgs ≫= (λ cg, CIDRs m ≫= (λ c, cidr_ops cg c (Ports m) act))
    else if bool_decide (Ports m ≠ []) then []
    else (λ cg, PutD cg act) <$> cgs
  else [].
(** Last rule first. *)
Fixpoint rules_ops (order : nat → list (Z * PodInfo)) (rules : list Rule) : list map_op :=
  match rules with
  | [] => []
  | r :: rules => rules_ops (λ i, order (S i)) rules ++ rule_ops (order 0) r
  end.
Definition apply_puts (pol : Policy) (order : nat → list (Z * PodInfo)) : list map_op :=
  PutD 0 (actionByte (defaultActionOf pol)) :: rules_ops order (Rules pol).
(** The keys of the last run that are not in this one. *)
Definition reconcile_ops (prev new : keys) : list map_op :=
  (DelC <$> reverse (filter (λ k, k ∉ ks_CIDR new) (elements (ks_CIDR prev)))) ++
  (DelV <$> reverse (filter (λ k, k ∉ ks_Verdict new) (elements (ks_Verdict prev)))) ++
  (DelD <$> reverse (filter (λ k, k ≠ 0%Z ∧ k ∉ ks_Default new) (elements (ks_Default prev)))).

Definition keys_of (w : work) : keys := {| ks_CIDR := newCIDR w; ks_Verdict := newVerdict w; ks_Default := newDefault w |}.
Definition prev_of (p : programmer) : keys := {| ks_CIDR := prevCIDR p; ks_Verdict := prevVerdict p; ks_Default := prevDefault p |}.
Definition progress (w : work) : Maps * keys := (w_maps w, keys_of w).

Lemma put_default_exec cg act w : progress (put_default cg act w) = exec_rec (progress w) (PutD cg act).
Proof. unfold put_default, exec_rec. simpl. by destruct (km_put _ _ _). Qed.
Lemma programCIDR_exec cg c ports act w :
  progress (let '(w', ok) := programCIDR cg c ports act w in if ok : bool then w' else defer_one w') =
  foldl exec_rec (progress w) (cidr_ops cg c ports act).
Proof.
  unfold programCIDR, cidr_ops, cidr_target. destruct (ParseCIDR c) as [[ip net]|]; [|done]. cbn [mbind option_bind].
  destruct (To4 (ipn_IP net)) as [ip4|]; [|done]. cbn [mbind option_bind].
  destruct (bool_decide (ports ≠ [])).
  - destruct (bool_decide _); [done|]. rewrite foldl_map. revert w. induction ports as [|port ports IH]; intros w; [done|].
    cbn [foldl]. rewrite IH. f_equal. unfold put_verdict, exec_rec. simpl. by destruct (km_put _ _ _).
  - cbn [foldl]. unfold put_cidr, exec_rec. cbn [exec progress fst snd]. destruct (lpm_prefix _); [|done]. cbn [mbind option_bind]. by destruct (km_put _ _ _).
Qed.
Lemma apply_rule_exec pods r w : progress (apply_rule pods r w) = foldl exec_rec (progress w) (rule_ops pods r).
Proof.
  unfold apply_rule, rule_ops, enforced. set (act := actionByte (r_Action r)). set (m := r_Match r).
  destruct (bool_decide_reflect (matchCgroups (m_Pod m) pods = [])) as [->|_]; [by repeat case_match|].
  destruct (_ || _); [done|]. rewrite (bool_decide_not (Domains m = [])).
  destruct (bool_decide (Domains m = [])); [|done]. cbn [negb andb]. destruct (bool_decide (CIDRs m ≠ [])).
  - apply (foldl_proj progress). intros w' cg. apply (foldl_proj progress). intros w'' c. apply programCIDR_exec.
  - destruct (bool_decide (Ports m ≠ [])); [done|]. rewrite foldl_map. generalize (matchCgroups (m_Pod m) pods). intros cgs. revert w.
    induction cgs as [|cg cgs IH]; intros w; [done|]. cbn [foldl]. by rewrite IH, put_default_exec.
Qed.
Lemma apply_work_exec p pol order :
  progress (apply_work p pol order) = foldl exec_rec (maps p, no_keys) (apply_puts pol order).
Proof.
  unfold apply_work, apply_puts. cbn [foldl]. set (w := {| w_maps := maps p |}). change (maps p, no_keys) with (progress w).
  rewrite <-put_default_exec. generalize (put_default 0 (actionByte (defaultActionOf pol)) w). clear w. intros w.
  revert order. induction (Rules pol) as [|r rs IH]; intros order; [done|]. cbn [apply_rules rules_ops].
  by rewrite foldl_app, <-IH, apply_rule_exec.
Qed.
Lemma foldr_skip {A B} (P : A → Prop) `{∀ x, Decision (P x)} (f : A → B → B) l b :
  foldr (λ x b, if bool_decide (P x) then b else f x b) b l = foldl (λ b x, f x b) b (reverse (filter (λ x, ¬ P x) l)).
Proof.
  induction l as [|x l IH]; [done|]. cbn [foldr]. rewrite IH, filter_cons. destruct (bool_decide_reflect (P x)).
  - by rewrite decide_False by auto.
  - rewrite decide_True by done. by rewrite reverse_cons, foldl_app.
Qed.
Lemma reconcile_exec p w : maps (reconcile p w) = foldl exec_del (w_maps w) (reconcile_ops (prev_of p) (keys_of w)).
Proof.
  unfold reconcile, reconcile_ops. cbn [ks_CIDR ks_Verdict ks_Default keys_of prev_of maps]. rewrite !foldl_app, !foldl_map.
  rewrite (foldr_skip (λ k, k ∈ newCIDR w) delete_cidr), (foldr_skip (λ k, k ∈ newVerdict w) (λ k s, km_delete k s)).
  assert (∀ l s, foldr (λ k s, if bool_decide (k = 0%Z) then s else if bool_decide (k ∈ newDefault w) then s else km_delete k s) s l =
    foldl (λ s k, km_delete k s) s (reverse (filter (λ k, k ≠ 0%Z ∧ k ∉ newDefault w) l))) as ->.
  { intros l s. rewrite (list_filter_iff _ (λ k, ¬ (k = 0%Z ∨ k ∈ newDefault w)) l) by (intros; tauto).
    rewrite <-(foldr_skip (λ k, k = 0%Z ∨ k ∈ newDefault w) (λ k s, km_delete k s)). apply foldr_ext; [|done..]. intros k s'.
    rewrite bool_decide_or. by destruct (bool_decide (k = 0%Z)). }
  destruct w as [[d v c cfg] nc nv nd df]. cbn [w_maps Default Verdicts CIDR Cfg newCIDR newVerdict newDefault].
  set (ld := reverse _). set (lv := reverse _). set (lc := reverse _). clearbody lc lv ld.
  assert (foldl (λ m k, exec_del m (DelC k)) {| Default := d; Verdicts := v; CIDR := c; Cfg := cfg |} lc =
    {| Default := d; Verdicts := v; CIDR := foldl (λ s k, delete_cidr k s) c lc; Cfg := cfg |}) as ->.
  { clear. revert c. induction lc as [|k lc IH]; intros c; [done|]. cbn [foldl]. rewrite <-IH. f_equal. unfold exec_del, delete_cidr. cbn [exec].
    by destruct (lpm_prefix k). }
  generalize (foldl (λ s k, delete_cidr k s) c lc). intros c'.
  assert (foldl (λ m k, exec_del m (DelV k)) {| Default := d; Verdicts := v; CIDR := c'; Cfg := cfg |} lv =
    {| Default := d; Verdicts := foldl (λ s k, km_delete k s) v lv; CIDR := c'; Cfg := cfg |}) as ->.
  { clear. revert v. induction lv as [|k lv IH]; intros v; [done|]. cbn [foldl]. by rewrite <-IH. }
  generalize (foldl (λ s k, km_delete k s) v lv). intros v'.
  clear. revert d. induction ld as [|k ld IH]; intros d; [done|]. cbn [foldl]. apply IH.
Qed.
End calls.

(** ** An ideal map

    What the lookups would give if no call were refused and nothing evicted. *)
Definition ideal_op (f : probe → option Z) (op : map_op) : probe → option Z :=
  match op_effect op with
  | None => f
  | Some (k, v) => λ k', if bool_decide (k' = k) then v else f k'
  end.
(** The last call on a lookup. *)
Definition last_op (ops : list map_op) (k : probe) : option (option Z) :=
  first (λ op, '(k', v) ← op_effect op; if bool_decide (k = k') then Some v else None) (reverse ops).
Definition touches (k : probe) (op : map_op) : Prop := ∃ v, op_effect op = Some (k, v).
#[export] Instance touches_dec k op : Decision (touches k op).
Proof.
  destruct (op_effect op) as [[k' v]|] eqn:E; [destruct (decide (k' = k)) as [->|Hn]|].
  - left. by exists v.
  - right. intros [v' Hv]. congruence.
  - right. intros [v' Hv]. congruence.
Defined.

Lemma last_op_snoc ops op k :
  last_op (ops ++ [op]) k = match op_effect op with Some (k', v) => if bool_decide (k = k') then Some v else last_op ops k | None => last_op ops k end.
Proof.
  unfold last_op. rewrite reverse_app, first_app. simpl. destruct (op_effect op) as [[k' v]|]; [|done]. simpl.
  by case_bool_decide.
Qed.
Lemma last_op_app o1 o2 k : last_op (o1 ++ o2) k = orelse (last_op o2 k) (last_op o1 k).
Proof. unfold last_op. by rewrite reverse_app, first_app. Qed.
Lemma ideal_last ops f k : foldl ideal_op f ops k = default (f k) (last_op ops k).
Proof.
  induction ops as [|op ops IH] using rev_ind; [done|]. rewrite foldl_app, last_op_snoc. cbn [foldl]. unfold ideal_op at 1.
  destruct (op_effect op) as [[k' v]|]; [|done]. by case_bool_decide.
Qed.
Lemma last_op_filter ops k : last_op (filter (touches k) ops) k = last_op ops k.
Proof.
  induction ops as [|op ops IH] using rev_ind; [done|]. rewrite filter_app, filter_cons, last_op_snoc. cbn [filter list_filter].
  destruct (decide (touches k op)) as [[v Hv]|Hn].
  - rewrite last_op_snoc, Hv. by rewrite !bool_decide_true by done.
  - rewrite app_nil_r, IH. destruct (op_effect op) as [[k' v]|] eqn:E; [|done]. rewrite bool_decide_false; [done|]. intros ->. apply Hn. by exists v.
Qed.
Lemma last_op_Some ops k v : last_op ops k = Some v → ∃ op, op ∈ ops ∧ op_effect op = Some (k, v).
Proof.
  induction ops as [|op ops IH] using rev_ind; [done|]. rewrite last_op_snoc. destruct (op_effect op) as [[k' v']|] eqn:E.
  - case_bool_decide; [intros [= ->]; subst k'; exists op; split; [set_solver|done]|]. intros (op' & ? & ?)%IH. exists op'. split; [set_solver|done].
  - intros (op' & ? & ?)%IH. exists op'. split; [set_solver|done].
Qed.
Lemma last_op_None ops k : last_op ops k = None ↔ ∀ op, op ∈ ops → ¬ touches k op.
Proof.
  unfold last_op. rewrite first_None. setoid_rewrite elem_of_reverse. split; intros Hn op Hop.
  - intros [v Hv]. specialize (Hn op Hop). rewrite Hv in Hn. simpl in Hn. by rewrite bool_decide_true in Hn.
  - specialize (Hn op Hop). destruct (op_effect op) as [[k' v]|] eqn:E; [|done]. simpl. rewrite bool_decide_false; [done|].
    intros ->. apply Hn. by exists v.
Qed.

Section tracking.
Context `{Kernel}.
(** The hash and LPM maps hold the ideal entries, the LRU map some of them. *)
Definition holds (m : Maps) (k : probe) (o : option Z) : Prop :=
  match k with PV _ => ∀ v, lookup_probe m k = Some v → o = Some v | _ => lookup_probe m k = o end.
Definition tracks (m : Maps) (f : probe → option Z) : Prop := ∀ k, holds m k (f k).
(** Room for the keys in [Dd] and [Dc]. *)
Definition within (Dd : gset Z) (Dc : gset (list bool)) (m : Maps) : Prop :=
  dom (km_contents (Default m)) ⊆ Dd ∧ size Dd < 4096 ∧ dom (km_contents (CIDR m)) ⊆ Dc ∧ size Dc < 16384.
Definition op_within (Dd : gset Z) (Dc : gset (list bool)) (op : map_op) : Prop :=
  match op with PutD cg _ => cg ∈ Dd | PutC key _ => ∀ p, lpm_prefix key = Some p → p ∈ Dc | _ => True end.

Lemma exec_tracks Dd Dc op m f :
  within Dd Dc m → op_within Dd Dc op → tracks m f →
  within Dd Dc (default m (exec op m)) ∧ tracks (default m (exec op m)) (ideal_op f op) ∧ (is_Some (exec op m) ↔ is_Some (op_effect op)).
Proof.
  intros Hw Hop Ht. pose proof Hw as (Hd & Hsd & Hc & Hsc). unfold ideal_op.
  destruct op as [cg act|k act|key act|cg|k|key]; cbn [exec op_effect] in *.
  - destruct (put_fits k_default Dd cg act (Default m) (exact_roomy _ _ 4096 k_default_exact Hsd) Hd Hop) as (s & -> & Hs & Hs'). cbn [fmap option_fmap option_map default].
    split; [done|]. split; [|done]. intros k'. specialize (Ht k'). destruct k' as [?|?|cg']; [done|done|]. simpl in Ht |- *. rewrite Hs.
    destruct (bool_decide_reflect (PD cg' = PD cg)) as [[= ->]|Hn]; [apply lookup_insert_eq|]. rewrite lookup_insert_ne; [done|congruence].
  - destruct (k_verdicts_lru k act (Verdicts m)) as [s Hs]. rewrite Hs. cbn [fmap option_fmap option_map from_option id].
    split; [done|]. split; [|done]. intros k'. specialize (Ht k'). destruct k' as [k'|?|?]; [|done..]. simpl in Ht |- *.
    destruct (bool_decide_reflect (PV k' = PV k)) as [[= ->]|Hn]; [by rewrite (km_put_key _ _ _ _ Hs)|]. intros v.
    destruct (km_put_other _ _ _ _ k' Hs) as [-> | ->]; [congruence|apply Ht|done].
  - destruct (lpm_prefix key) as [p|] eqn:Ep; [|by split; [|split; [|split; intros []]]]. cbn [mbind option_bind fmap option_fmap option_map].
    destruct (put_fits k_cidr Dc p act (CIDR m) (exact_roomy _ _ 16384 k_cidr_exact Hsc) Hc (Hop p Ep)) as (s & -> & Hs & Hs'). cbn [fmap option_fmap option_map from_option id].
    split; [done|]. split; [|done]. intros k'. specialize (Ht k'). destruct k' as [?|p'|?]; [done| |done]. simpl in Ht |- *. rewrite Hs.
    destruct (bool_decide_reflect (PC p' = PC p)) as [[= ->]|Hn]; [apply lookup_insert_eq|]. rewrite lookup_insert_ne; [done|congruence].
  - cbn [from_option id]. unfold within. cbn [Default Verdicts CIDR]. rewrite km_delete_spec, dom_delete. split; [split; [clear -Hd; set_solver|done]|]. split; [|done].
    intros k'. specialize (Ht k'). destruct k' as [?|?|cg']; [done|done|]. simpl in Ht |- *. rewrite km_delete_spec.
    destruct (bool_decide_reflect (PD cg' = PD cg)) as [[= ->]|Hn]; [apply lookup_delete_eq|]. rewrite lookup_delete_ne; [done|congruence].
  - cbn [from_option id]. split; [done|]. split; [|done]. intros k'. specialize (Ht k'). destruct k' as [k'|?|?]; [|done..]. simpl in Ht |- *. rewrite km_delete_spec.
    destruct (bool_decide_reflect (PV k' = PV k)) as [[= ->]|Hn]; [by rewrite lookup_delete_eq|]. rewrite lookup_delete_ne; [done|congruence].
  - destruct (lpm_prefix key) as [p|] eqn:Ep; [|by split; [|split; [|split; intros []]]]. cbn [mbind option_bind fmap option_fmap option_map from_option id].
    unfold within. cbn [Default Verdicts CIDR]. rewrite km_delete_spec, dom_delete. split; [split; [done|split; [done|split; [clear -Hc; set_solver|done]]]|]. split; [|done].
    intros k'. specialize (Ht k'). destruct k' as [?|p'|?]; [done| |done]. simpl in Ht |- *. rewrite km_delete_spec.
    destruct (bool_decide_reflect (PC p' = PC p)) as [[= ->]|Hn]; [apply lookup_delete_eq|]. rewrite lookup_delete_ne; [done|congruence].
Qed.
(** The verdict map follows the ideal one exactly, where the kernel keeps its keys. *)
Definition verdicts_track (D : gset verdictKey) (m : Maps) (f : probe → option Z) : Prop :=
  dom (km_contents (Verdicts m)) ⊆ D ∧ ∀ k, lookup_probe m (PV k) = f (PV k).
Lemma exec_verdicts D op m f :
  verdicts_fit D → (∀ k a, op = PutV k a → k ∈ D) → verdicts_track D m f → verdicts_track D (default m (exec op m)) (ideal_op f op).
Proof.
  intros (n & Hkeep & Hsize) Hop [Hdom Ht]. unfold verdicts_track, ideal_op. cbn [lookup_probe] in *.
  destruct op as [cg act|vk act|key act|cg|vk|key]; cbn [exec op_effect].
  - destruct (km_put _ _ _); done.
  - destruct (put_fits k_verdicts D vk act (Verdicts m) (lru_roomy _ _ n k_verdicts_lru Hkeep Hsize) Hdom (Hop _ _ eq_refl)) as (s & -> & Hs & Hs').
    split; [done|]. intros k. cbn. rewrite Hs. destruct (bool_decide_reflect (PV k = PV vk)) as [[= ->]|Hn]; [apply lookup_insert_eq|].
    rewrite lookup_insert_ne; [done|congruence].
  - destruct (lpm_prefix key); [|done]. cbn [mbind option_bind fmap option_fmap option_map]. destruct (km_put _ _ _); done.
  - done.
  - cbn. rewrite km_delete_spec, dom_delete. split; [set_solver|]. intros k.
    destruct (bool_decide_reflect (PV k = PV vk)) as [[= ->]|Hn]; [apply lookup_delete_eq|]. rewrite lookup_delete_ne; [done|congruence].
  - by destruct (lpm_prefix key).
Qed.
End tracking.

(** ** What the calls of [apply] amount to *)
Lemma elem_of_cidr_ops cg c ports act op :
  op ∈ cidr_ops cg c ports act ↔
  (∃ k, op = PutV k act ∧ k ∈ cidr_vkeys ports cg c) ∨ (∃ key, op = PutC key act ∧ key ∈ cidr_ckeys ports cg c).
Proof.
  unfold cidr_ops, cidr_vkeys, cidr_ckeys. destruct (cidr_target c) as [[ip4 ones]|]; [|set_solver].
  rewrite bool_decide_not. destruct (bool_decide_reflect (ports = [])) as [->|Hp]; cbn [negb].
  - replace (match ones with 32 => _ | _ => _ end) with (@nil verdictKey) by (repeat case_match; done). set_solver.
  - rewrite bool_decide_not. destruct (bool_decide_reflect (ones = 32)) as [->|Hn]; cbn [negb].
    + rewrite list_elem_of_fmap. setoid_rewrite list_elem_of_fmap. set_solver.
    + replace (match ones with 32 => _ | _ => _ end) with (@nil verdictKey) by (repeat case_match; done). set_solver.
Qed.
Lemma elem_of_rule_ops pods r op :
  op ∈ rule_ops pods r ↔
  let act := actionByte (r_Action r) in
  (∃ cg, op = PutD cg act ∧ cg ∈ default_keys pods r) ∨ (∃ k, op = PutV k act ∧ k ∈ verdict_keys pods r) ∨
  (∃ key, op = PutC key act ∧ key ∈ cidr_keys pods r).
Proof.
  cbn zeta. unfold rule_ops, default_keys, verdict_keys, cidr_keys. destruct (enforced (r_Match r)); [|set_solver]. cbn [andb].
  rewrite bool_decide_not. destruct (bool_decide_reflect (CIDRs (r_Match r) = [])) as [Hc|Hc]; cbn [negb andb].
  - rewrite !(bind_const_nil _ (λ cg, CIDRs (r_Match r) ≫= _)) by (intros; by rewrite Hc).
    rewrite bool_decide_not. destruct (bool_decide (Ports (r_Match r) = [])); cbn [negb]; [rewrite list_elem_of_fmap|]; set_solver.
  - rewrite list_elem_of_bind. setoid_rewrite list_elem_of_bind. setoid_rewrite elem_of_cidr_ops. split.
    + intros (cg & (c & [(k & -> & Hk)|(key & -> & Hk)] & Hcin) & Hcg).
      * right. left. exists k. split; [done|]. exists cg. split; [|done]. apply list_elem_of_bind. eauto.
      * right. right. exists key. split; [done|]. exists cg. split; [|done]. apply list_elem_of_bind. eauto.
    + intros [(? & _ & ?%not_elem_of_nil)|[(k & -> & (cg & Hk & Hcg))|(key & -> & (cg & Hk & Hcg))]]; [done|..];
        apply list_elem_of_bind in Hk as (c & Hk & Hcin); exists cg; (split; [|done]); exists c; (split; [|done]); eauto.
Qed.
Lemma rule_keys_perm l l' r k : l ≡ₚ l' → k ∈ rule_keys l r ↔ k ∈ rule_keys l' r.
Proof.
  intros Hp. destruct k as [k|p|cg]; rewrite ?rule_keys_PV, ?rule_keys_PC, ?rule_keys_PD; [by apply verdict_keys_perm| |by apply default_keys_perm].
  rewrite !list_elem_of_omap. by setoid_rewrite (cidr_keys_perm l l' r _ Hp).
Qed.
Lemma rule_ops_effect pods r k :
  (∃ op v, op ∈ rule_ops pods r ∧ op_effect op = Some (k, v)) ↔ k ∈ rule_keys pods r.
Proof.
  setoid_rewrite elem_of_rule_ops. split.
  - intros (op & v & [(cg & -> & Hk)|[(vk & -> & Hk)|(key & -> & Hk)]] & He); cbn [op_effect] in He.
    + simplify_eq. by apply rule_keys_PD.
    + simplify_eq. by apply rule_keys_PV.
    + destruct (lpm_prefix key) as [p|] eqn:Ep; simplify_eq/=. apply rule_keys_PC, list_elem_of_omap. eauto.
  - destruct k as [vk|p|cg]; rewrite ?rule_keys_PV, ?rule_keys_PC, ?rule_keys_PD; intros Hk.
    + exists (PutV vk (actionByte (r_Action r))). eexists. split; [right; left; eauto|done].
    + apply list_elem_of_omap in Hk as (key & Hk & Hp). exists (PutC key (actionByte (r_Action r))). eexists. split; [right; right; eauto|]. cbn [op_effect]. by rewrite Hp.
    + exists (PutD cg (actionByte (r_Action r))). eexists. split; [left; eauto|done].
Qed.
Lemma rule_ops_value pods r op k v : op ∈ rule_ops pods r → op_effect op = Some (k, v) → v = Some (actionByte (r_Action r)).
Proof.
  rewrite elem_of_rule_ops. intros [(cg & -> & Hk)|[(vk & -> & Hk)|(key & -> & Hk)]] He; cbn [op_effect] in He; simplify_eq; [done..|].
  destruct (lpm_prefix key); by simplify_eq/=.
Qed.
Lemma last_rule_ops pods r k : last_op (rule_ops pods r) k = Some <$> rule_writes pods k r.
Proof.
  unfold rule_writes. case_bool_decide as Hk.
  - destruct (last_op (rule_ops pods r) k) as [v|] eqn:E.
    + apply last_op_Some in E as (op & Hop & He). simpl. f_equal. by eapply rule_ops_value.
    + rewrite last_op_None in E. apply rule_ops_effect in Hk as (op & v & Hop & He). destruct (E op Hop). by exists v.
  - apply last_op_None. intros op Hop [v Hv]. apply Hk, rule_ops_effect. eauto.
Qed.
Lemma orelse_fmap {A B} (f : A → B) (a b : option A) : f <$> orelse a b = orelse (f <$> a) (f <$> b).
Proof. by destruct a. Qed.
Lemma rules_ops_elem rules ord op : op ∈ rules_ops ord rules → ∃ r i, r ∈ rules ∧ op ∈ rule_ops (ord i) r.
Proof.
  revert ord. induction rules as [|r rules IH]; intros ord; cbn [rules_ops]; [by intros ?%not_elem_of_nil|].
  rewrite elem_of_app. intros [(r' & i & Hr & Hop)%IH|Hop].
  - exists r', (S i). split; [by right|done].
  - exists r, 0. split; [left|done].
Qed.
(** The LPM keys that are put are canonical. *)
Lemma puts_canonical pol order key a : PutC key a ∈ apply_puts pol order → is_Some (lpm_prefix key) → canonical key.
Proof.
  unfold apply_puts. intros [?|(r & i & _ & Hop)%rules_ops_elem]%elem_of_cons; [done|].
  apply elem_of_rule_ops in Hop as [(? & ? & _)|[(? & ? & _)|(key' & [= -> _] & Hk)]]; [done..|].
  unfold cidr_keys in Hk. destruct (enforced _); [|by apply not_elem_of_nil in Hk].
  apply list_elem_of_bind in Hk as (cg & (c & Hk & _)%list_elem_of_bind & _). by eapply cidr_ckeys_canonical.
Qed.
Section puts.
Context (pods : list (Z * PodInfo)) (pol : Policy) (order : nat → list (Z * PodInfo)) (Horder : ∀ i, order i ≡ₚ pods).
Lemma last_rules_ops rules ord k : (∀ i, ord i ≡ₚ pods) → last_op (rules_ops ord rules) k = Some <$> first (rule_writes pods k) rules.
Proof.
  revert ord. induction rules as [|r rules IH]; intros ord Hord; [done|]. cbn [rules_ops first]. rewrite last_op_app, last_rule_ops, (IH (λ i, ord (S i))) by auto.
  assert (rule_writes (ord 0) k r = rule_writes pods k r) as ->; [|by destruct (rule_writes pods k r)].
  unfold rule_writes. erewrite bool_decide_ext; [done|]. by apply rule_keys_perm.
Qed.
(** The last put on a key is the policy's entry for it. *)
Lemma last_puts k : last_op (apply_puts pol order) k = Some <$> desired pods pol k.
Proof.
  unfold apply_puts, desired. change (PutD 0 ?a :: ?l) with ([PutD 0 a] ++ l). rewrite last_op_app, last_rules_ops by done.
  destruct (first _ _); [done|]. unfold last_op. simpl. by case_bool_decide.
Qed.
Lemma elem_of_rules_ops rules ord op : (∀ i, ord i ≡ₚ pods) → op ∈ rules_ops ord rules → ∃ r i, r ∈ rules ∧ op ∈ rule_ops (ord i) r.
Proof. intros _. apply rules_ops_elem. Qed.
(** Every value put on a key is that of a rule that writes it, or the posture. *)
Definition put_value (k : probe) (v : Z) : Prop :=
  (∃ r, r ∈ Rules pol ∧ k ∈ rule_keys pods r ∧ v = actionByte (r_Action r)) ∨ (k = PD 0 ∧ v = actionByte (defaultActionOf pol)).
Lemma puts_values op k v : op ∈ apply_puts pol order → op_effect op = Some (k, v) → ∃ a, v = Some a ∧ put_value k a.
Proof.
  unfold apply_puts. intros [->|Hop]%elem_of_cons He; [simplify_eq/=; eexists; split; [done|by right]|].
  apply elem_of_rules_ops in Hop as (r & i & Hr & Hop); [|done]. eexists. split; [by eapply rule_ops_value|]. left. exists r.
  split; [done|]. split; [|done]. apply (rule_keys_perm (order i)); [done|]. apply rule_ops_effect. eauto.
Qed.
End puts.

(** The keys recorded when every call the kernel understands succeeds. *)
Definition recorded (ops : list map_op) : keys :=
  foldl (λ ks op, if bool_decide (is_Some (op_effect op)) then record_key op ks else ks) no_keys ops.
Lemma recorded_snoc ops op : recorded (ops ++ [op]) = if bool_decide (is_Some (op_effect op)) then record_key op (recorded ops) else recorded ops.
Proof. unfold recorded. by rewrite foldl_app. Qed.
Lemma exists_snoc {A B} (f : A → B) l y : (∃ a, f a ∈ l ++ [y]) ↔ (∃ a, f a ∈ l) ∨ ∃ a, y = f a.
Proof. setoid_rewrite elem_of_app. setoid_rewrite list_elem_of_singleton. naive_solver. Qed.
Lemma recorded_default ops cg : cg ∈ ks_Default (recorded ops) ↔ ∃ a, PutD cg a ∈ ops.
Proof.
  induction ops as [|op ops IH] using rev_ind; [split; [by intros ?%not_elem_of_empty|by intros [? ?%not_elem_of_nil]]|]. rewrite recorded_snoc, exists_snoc, <-IH.
  destruct op as [cg' a|k a|key a|cg'|k|key]; case_bool_decide as Hb; cbn [record_key ks_Default]; [rewrite elem_of_union, elem_of_singleton|destruct Hb; eauto|..];
    split; try (intros [?|[? ?]]; done); auto; [intros [->|?]; eauto|intros [?|[? [= -> ->]]]; auto].
Qed.
Lemma recorded_verdict ops k : k ∈ ks_Verdict (recorded ops) ↔ ∃ a, PutV k a ∈ ops.
Proof.
  induction ops as [|op ops IH] using rev_ind; [split; [by intros ?%not_elem_of_empty|by intros [? ?%not_elem_of_nil]]|]. rewrite recorded_snoc, exists_snoc, <-IH.
  destruct op as [cg' a|k' a|key a|cg'|k'|key]; case_bool_decide as Hb; cbn [record_key ks_Verdict]; try (destruct Hb; eauto; done);
    split; try (intros [?|[? ?]]; done); auto; rewrite elem_of_union, elem_of_singleton; [intros [->|?]; eauto|intros [?|[? [= -> ->]]]; auto].
Qed.
Lemma recorded_cidr ops key : key ∈ ks_CIDR (recorded ops) ↔ is_Some (lpm_prefix key) ∧ ∃ a, PutC key a ∈ ops.
Proof.
  induction ops as [|op ops IH] using rev_ind; [split; [by intros ?%not_elem_of_empty|by intros [_ [? ?%not_elem_of_nil]]]|]. rewrite recorded_snoc, exists_snoc.
  destruct op as [cg' a|k' a|key' a|cg'|k'|key']; cbn [op_effect]; case_bool_decide as Hb; cbn [record_key ks_CIDR];
    try (rewrite IH; split; [intros [? ?]; auto|intros [? [?|[? ?]]]; done]).
  - rewrite elem_of_union, elem_of_singleton, IH. apply fmap_is_Some in Hb. split; [intros [->|[? ?]]; eauto|]. intros [? [?|[? [= -> ->]]]]; auto.
  - rewrite IH. split; [intros [? ?]; auto|]. intros [? [?|[? [= -> ->]]]]; [auto|]. destruct Hb. by apply fmap_is_Some.
Qed.

Section stale_calls.
Context `{Kernel} (p : programmer) (pods : list (Z * PodInfo)) (pol : Policy) (order : nat → list (Z * PodInfo)).
Context (Horder : ∀ i, order i ≡ₚ pods) (Hinv : prog_inv p).
Let new := recorded (apply_puts pol order).

Lemma put_desired k : (∃ op v, op ∈ apply_puts pol order ∧ op_effect op = Some (k, v)) ↔ is_Some (desired pods pol k).
Proof.
  rewrite <-(fmap_is_Some Some), <-(last_puts pods pol order Horder). split.
  - intros (op & v & Hop & He). destruct (last_op _ k) eqn:E; [done|]. rewrite last_op_None in E. destruct (E op Hop). by exists v.
  - intros [v Hv]. apply last_op_Some in Hv as (op & ? & ?). eauto.
Qed.
Lemma rule_ops_puts op : op ∈ apply_puts pol order → ∃ cg a k key, op = PutD cg a ∨ op = PutV k a ∨ op = PutC key a ∧ (is_Some (lpm_prefix key) → canonical key).
Proof.
  unfold apply_puts. intros [->|Hop]%elem_of_cons; [exists 0%Z; eexists; exists (vkey 0 [] []), []; by left|].
  apply (elem_of_rules_ops pods) in Hop as (r & i & Hr & Hop); [|done].
  apply elem_of_rule_ops in Hop as [(cg & -> & _)|[(k & -> & _)|(key & -> & Hk)]].
  - eexists cg, _, (vkey 0 [] []), []. by left.
  - eexists 0%Z, _, k, []. by right; left.
  - eexists 0%Z, _, (vkey 0 [] []), key. right. right. split; [done|]. unfold cidr_keys in Hk. destruct (enforced _); [|by apply not_elem_of_nil in Hk].
    apply list_elem_of_bind in Hk as (cg & (c & Hk & _)%list_elem_of_bind & _). by eapply cidr_ckeys_canonical.
Qed.
Lemma new_keys_canonical key : key ∈ ks_CIDR new → canonical key.
Proof.
  intros (Hs & a & Hk)%recorded_cidr. apply rule_ops_puts in Hk as (? & ? & ? & ? & [|[|[[= -> ->] Hc]]]); [done|done|auto].
Qed.
Lemma new_desired k : match k with PD cg => cg ∈ ks_Default new | PV vk => vk ∈ ks_Verdict new | PC q => ∃ key, key ∈ ks_CIDR new ∧ lpm_prefix key = Some q end ↔
  is_Some (desired pods pol k).
Proof.
  rewrite <-put_desired. destruct k as [vk|q|cg].
  - unfold new. rewrite recorded_verdict. split; [intros [a Ha]; by eexists _, _|]. intros (op & v & Hop & He).
    destruct (rule_ops_puts op Hop) as (? & ? & ? & ? & [->|[->|[-> _]]]); cbn [op_effect] in He; simplify_eq; [eauto|]. destruct (lpm_prefix _); simplify_eq/=.
  - unfold new. setoid_rewrite recorded_cidr. split.
    + intros (key & (_ & a & Ha) & Hq). exists (PutC key a). eexists. split; [done|]. cbn [op_effect]. by rewrite Hq.
    + intros (op & v & Hop & He). destruct (rule_ops_puts op Hop) as (? & a & ? & key & [->|[->|[-> _]]]); cbn [op_effect] in He; simplify_eq.
      destruct (lpm_prefix key) eqn:E; simplify_eq/=. exists key. eauto.
  - unfold new. rewrite recorded_default. split; [intros [a Ha]; by eexists _, _|]. intros (op & v & Hop & He).
    destruct (rule_ops_puts op Hop) as (? & ? & ? & ? & [->|[->|[-> _]]]); cbn [op_effect] in He; simplify_eq; [eauto|]. destruct (lpm_prefix _); simplify_eq/=.
Qed.
(** The deletions are those of the stale keys the policy does not want. *)
Lemma reconcile_effect k v :
  (∃ op, op ∈ reconcile_ops (prev_of p) new ∧ op_effect op = Some (k, v)) ↔ v = None ∧ stale p k = true ∧ desired pods pol k = None.
Proof.
  rewrite (eq_None_not_Some (desired pods pol k)), <-new_desired. unfold reconcile_ops. cbn [prev_of ks_CIDR ks_Verdict ks_Default].
  setoid_rewrite elem_of_app. setoid_rewrite elem_of_app. setoid_rewrite list_elem_of_fmap. setoid_rewrite elem_of_reverse.
  setoid_rewrite list_elem_of_filter. setoid_rewrite elem_of_elements. destruct k as [vk|q|cg]; cbn [stale].
  - rewrite bool_decide_eq_true. split.
    + intros (op & [(key & -> & Hk)|[(k & -> & Hk)|(cg & -> & Hk)]] & He); cbn [op_effect] in He; simplify_eq; [|tauto]. destruct (lpm_prefix key); simplify_eq/=.
    + intros (-> & Hk & Hn). exists (DelV vk). split; [|done]. right. left. eauto.
  - rewrite bool_decide_eq_true, list_elem_of_omap. setoid_rewrite elem_of_elements. split.
    + intros (op & [(key & -> & Hk)|[(k & -> & Hk)|(cg & -> & Hk)]] & He); cbn [op_effect] in He; simplify_eq.
      destruct (lpm_prefix key) eqn:E; simplify_eq/=. destruct Hk as [Hk1 Hk2]. split; [done|]. split; [by exists key|]. intros (key' & Hk' & Hq). apply Hk1.
      rewrite (canonical_inj key key' q); [done|by apply Hinv|by apply new_keys_canonical|done|done].
    + intros (-> & (key & Hk & Hq) & Hn). exists (DelC key). split; [|by cbn [op_effect]; rewrite Hq]. left. exists key. split; [done|]. split; [|done].
      intros Hk'. apply Hn. eauto.
  - rewrite andb_true_iff, !bool_decide_eq_true. split.
    + intros (op & [(key & -> & Hk)|[(k & -> & Hk)|(cg' & -> & Hk)]] & He); cbn [op_effect] in He; simplify_eq; [|tauto]. destruct (lpm_prefix key); simplify_eq/=.
    + intros (-> & [Hz Hk] & Hn). exists (DelD cg). split; [|done]. right. right. exists cg. tauto.
Qed.
(** Once all calls are made, in whatever order the deletions come. *)
Lemma last_all dels k : dels ≡ₚ reconcile_ops (prev_of p) new →
  last_op (apply_puts pol order ++ dels) k = orelse (Some <$> desired pods pol k) (if stale p k then Some None else None).
Proof.
  intros Hp. rewrite last_op_app, (last_puts pods) by done. destruct (last_op dels k) as [v|] eqn:E.
  - apply last_op_Some in E as (op & Hop & He). rewrite Hp in Hop.
    destruct (proj1 (reconcile_effect k v)) as (-> & -> & ->); [eauto|done].
  - destruct (desired pods pol k) eqn:Ed; [done|]. simpl. destruct (stale p k) eqn:Es; [|done].
    rewrite last_op_None in E. destruct (proj2 (reconcile_effect k None)) as (op & Hop & He); [done|].
    rewrite <-Hp in Hop. destruct (E op Hop). by exists None.
Qed.
End stale_calls.

(** ** The goroutines, call by call *)
Inductive phase :=
  | Idle
  | Writing (todo : list map_op) (new : keys)
  | Deleting (todo : list map_op) (new : keys).
Inductive label := Begin | Prog (op : map_op) | Learn (op : map_op) | Tau.
Definition op_of (l : label) : option map_op := match l with Prog op | Learn op => Some op | Begin | Tau => None end.
Definition prog_op (l : label) : option map_op := match l with Prog op => Some op | _ => None end.
Definition learn_op (l : label) : option map_op := match l with Learn op => Some op | _ => None end.

Section fine.
Context `{Kernel}.
(** [fn_pending]: an entry the learner has put and not yet remembered. *)
Record fine := { fn_prog : programmer; fn_phase : phase; fn_entries : gmap verdictKey Z; fn_pending : option (verdictKey * Z) }.
Definition set_maps (p : programmer) (m : Maps) : programmer :=
  {| maps := m; dryRun := dryRun p; prevCIDR := prevCIDR p; prevVerdict := prevVerdict p; prevDefault := prevDefault p |}.
Definition set_prev (p : programmer) (ks : keys) : programmer :=
  {| maps := maps p; dryRun := dryRun p; prevCIDR := ks_CIDR ks; prevVerdict := ks_Verdict ks; prevDefault := ks_Default ks |}.
Lemma prev_of_set_prev p ks : prev_of (set_prev p ks) = ks.
Proof. by destruct ks. Qed.
Definition prog_step (st : fine) (p : programmer) (ph : phase) : fine :=
  {| fn_prog := p; fn_phase := ph; fn_entries := fn_entries st; fn_pending := fn_pending st |}.

Inductive fine_step : fine → label → fine → Prop :=
  | FBegin st pol order :
      fn_phase st = Idle → fine_step st Begin (prog_step st (fn_prog st) (Writing (apply_puts pol order) no_keys))
  | FPut st op todo new :
      fn_phase st = Writing (op :: todo) new →
      let mk := exec_rec (maps (fn_prog st), new) op in
      fine_step st (Prog op) (prog_step st (set_maps (fn_prog st) mk.1) (Writing todo mk.2))
  | FReconcile st new dels :
      fn_phase st = Writing [] new → dels ≡ₚ reconcile_ops (prev_of (fn_prog st)) new →
      fine_step st Tau (prog_step st (fn_prog st) (Deleting dels new))
  | FDelete st op todo new :
      fn_phase st = Deleting (op :: todo) new →
      fine_step st (Prog op) (prog_step st (set_maps (fn_prog st) (exec_del (maps (fn_prog st)) op)) (Deleting todo new))
  | FDone st new :
      fn_phase st = Deleting [] new → fine_step st Tau (prog_step st (set_prev (fn_prog st) new) Idle)
  | FLearn st k act exp m :
      fn_pending st = None → exec (PutV k act) (maps (fn_prog st)) = Some m →
      fine_step st (Learn (PutV k act))
        {| fn_prog := set_maps (fn_prog st) m; fn_phase := fn_phase st; fn_entries := fn_entries st; fn_pending := Some (k, exp) |}
  | FRemember st k exp :
      fn_pending st = Some (k, exp) →
      fine_step st Tau {| fn_prog := fn_prog st; fn_phase := fn_phase st; fn_entries := <[k := exp]> (fn_entries st); fn_pending := None |}
  | FSweep st k exp now :
      fn_entries st !! k = Some exp → (exp < now)%Z →
      fine_step st (Learn (DelV k))
        {| fn_prog := set_maps (fn_prog st) (exec_del (maps (fn_prog st)) (DelV k)); fn_phase := fn_phase st;
           fn_entries := delete k (fn_entries st); fn_pending := fn_pending st |}.
Inductive fine_run (st : fine) : list label → fine → Prop :=
  | fine_refl : fine_run st [] st
  | fine_snoc ls st1 l st2 : fine_run st ls st1 → fine_step st1 l st2 → fine_run st (ls ++ [l]) st2.

Lemma fine_one st l st' : fine_step st l st' → fine_run st [l] st'.
Proof. intros Hs. apply (fine_snoc _ [] st); [constructor|done]. Qed.
Lemma fine_trans st ls1 st1 ls2 st2 : fine_run st ls1 st1 → fine_run st1 ls2 st2 → fine_run st (ls1 ++ ls2) st2.
Proof.
  intros H1 H2. induction H2 as [|ls st2 l st3 _ IH Hs]; [by rewrite app_nil_r|]. rewrite (assoc app). by eapply fine_snoc.
Qed.

(** A step makes the call of its label. *)
Lemma step_maps st l st' :
  fine_step st l st' → maps (fn_prog st') = match op_of l with Some op => default (maps (fn_prog st)) (exec op (maps (fn_prog st))) | None => maps (fn_prog st) end.
Proof.
  destruct 1 as [| |st new dels|st op todo new|st new|st k act exp m _ Hex| |]; try done.
  - subst mk. unfold exec_rec. cbn. by destruct (exec op _).
  - cbn [fn_prog set_maps maps op_of]. by rewrite Hex.
Qed.
Lemma run_verdicts D st ls st' :
  verdicts_fit D → fine_run st ls st' → (∀ k a, PutV k a ∈ omap op_of ls → k ∈ D) → dom (km_contents (Verdicts (maps (fn_prog st)))) ⊆ D →
  verdicts_track D (maps (fn_prog st')) (foldl ideal_op (lookup_probe (maps (fn_prog st))) (omap op_of ls)).
Proof.
  intros Hfit. induction 1 as [|ls st1 l st2 _ IH Hs]; intros Hops Hdom; [by split|]. rewrite omap_app in Hops |- *.
  specialize (IH (λ k a Hin, Hops k a (proj2 (elem_of_app _ _ _) (or_introl Hin))) Hdom). rewrite (step_maps _ _ _ Hs), foldl_app.
  simpl in Hops |- *. destruct (op_of l) as [op|]; [|done]. apply exec_verdicts; [done| |done].
  intros k a ->. apply (Hops k a). set_solver.
Qed.
(** The keys the learner puts, and all keys a re-programming can meet. *)
Definition learned_in (ls : list label) : gset verdictKey :=
  list_to_set (omap (λ l, match l with Learn (PutV k _) => Some k | _ => None end) ls).
Definition moment_domain (p : programmer) (pods : list (Z * PodInfo)) (pol : Policy) (ls : list label) : gset verdictKey :=
  verdict_domain p pods pol ∪ learned_in ls.

(** ** One re-programming among the learner's calls *)
Section during.
Context (st0 : fine) (pods : list (Z * PodInfo)) (pol : Policy) (order : nat → list (Z * PodInfo)).
Let p0 := fn_prog st0.
Let puts := apply_puts pol order.
Context (Horder : ∀ i, order i ≡ₚ pods) (Hinv : prog_inv p0) (Hroom : room p0 pods pol).
Definition begun : fine := prog_step st0 (fn_prog st0) (Writing (apply_puts pol order) no_keys).
Let Dd := default_domain p0 pods pol.
Let Dc := cidr_domain p0 pods pol.

Lemma puts_within op : op ∈ puts → op_within Dd Dc op.
Proof.
  unfold puts, apply_puts, Dd, Dc, default_domain, cidr_domain. intros [->|Hop]%elem_of_cons.
  { cbn [op_within]. rewrite elem_of_union, elem_of_list_to_set. right. left. }
  apply (elem_of_rules_ops pods) in Hop as (r & i & Hr & Hop); [|done].
  apply elem_of_rule_ops in Hop as [(cg & -> & Hk)|[(k & -> & _)|(key & -> & Hk)]]; cbn [op_within]; [|done|].
  - rewrite elem_of_union, elem_of_list_to_set. right. right. apply list_elem_of_bind. exists r. split; [|done]. by apply (default_keys_perm (order i)).
  - intros q Hq. rewrite elem_of_union, elem_of_list_to_set. right. apply list_elem_of_bind. exists r. split; [|done].
    apply list_elem_of_omap. exists key. split; [|done]. by apply (cidr_keys_perm (order i)).
Qed.
Lemma dels_within dels op : dels ≡ₚ reconcile_ops (prev_of p0) (recorded puts) → op ∈ dels → op_within Dd Dc op.
Proof.
  intros -> Hop. unfold reconcile_ops in Hop. rewrite !elem_of_app, !list_elem_of_fmap in Hop.
  destruct Hop as [(? & -> & _)|[(? & -> & _)|(? & -> & _)]]; done.
Qed.

Definition calls_made (ls : list label) (st : fine) : Prop :=
  match fn_phase st with
  | Writing todo new => omap prog_op ls ++ todo = puts ∧ new = recorded (omap prog_op ls) ∧ prev_of (fn_prog st) = prev_of p0
  | Deleting todo new =>
      new = recorded puts ∧ ∃ dels, dels ≡ₚ reconcile_ops (prev_of p0) (recorded puts) ∧ omap prog_op ls ++ todo = puts ++ dels
  | Idle => prev_of (fn_prog st) = recorded puts ∧ ∃ dels, dels ≡ₚ reconcile_ops (prev_of p0) (recorded puts) ∧ omap prog_op ls = puts ++ dels
  end.
Definition follows (ls : list label) (st : fine) : Prop :=
  within Dd Dc (maps (fn_prog st)) ∧ tracks (maps (fn_prog st)) (foldl ideal_op (lookup_probe (maps p0)) (omap op_of ls)).
Lemma follows_op ls st op l st' :
  follows ls st → op_within Dd Dc op → op_of l = Some op → maps (fn_prog st') = default (maps (fn_prog st)) (exec op (maps (fn_prog st))) → follows (ls ++ [l]) st'.
Proof.
  intros [Hw Ht] Hop Hl Hm. unfold follows. rewrite omap_app, foldl_app, Hm. simpl. rewrite Hl. cbn [foldl].
  destruct (exec_tracks Dd Dc op _ _ Hw Hop Ht) as (? & ? & _). done.
Qed.
Lemma follows_same ls st l st' : follows ls st → op_of l = None → maps (fn_prog st') = maps (fn_prog st) → follows (ls ++ [l]) st'.
Proof. intros Hf Hl Hm. unfold follows. rewrite omap_app, foldl_app, Hm. simpl. rewrite Hl. done. Qed.
Lemma exec_rec_maps m new op : (exec_rec (m, new) op).1 = default m (exec op m).
Proof. unfold exec_rec. simpl. by destruct (exec op m). Qed.
Lemma omap_prog_snoc ls l : omap prog_op (ls ++ [l]) = omap prog_op ls ++ match prog_op l with Some op => [op] | None => [] end.
Proof. rewrite omap_app. simpl. by destruct (prog_op l). Qed.

Lemma during_inv ls st : fine_run begun ls st → Begin ∉ ls → follows ls st ∧ calls_made ls st.
Proof.
  induction 1 as [|ls st l st' Hrun IH Hstep]; intros Hb.
  { split; [|done]. split; [|unfold tracks, holds; by intros [?|?|?]]. unfold within, Dd, Dc, default_domain, cidr_domain. destruct Hroom as [? ?]. split_and!; [set_solver|done|set_solver|done]. }
  destruct IH as [Hf Hs]; [set_solver|].
  assert (∀ l, prog_op l = None → calls_made ls st → fn_phase st' = fn_phase st → prev_of (fn_prog st') = prev_of (fn_prog st) → calls_made (ls ++ [l]) st') as Hkeep.
  { intros l' Hl Hst Hph Hpv. unfold calls_made in *. rewrite omap_prog_snoc, Hl, Hph, Hpv, app_nil_r. done. }
  destruct Hstep as [st pol' order' Hph|st op todo new Hph mk|st new dels Hph Hp|st op todo new Hph|st new Hph|st k act exp m Hpe Hex|st k exp Hpe|st k exp now Hk Hlt].
  - destruct Hb. set_solver.
  - unfold calls_made in Hs. rewrite Hph in Hs. destruct Hs as (Hops & -> & Hpv).
    assert (op ∈ puts) as Hop by (rewrite <-Hops; set_solver). split.
    + eapply follows_op; [done|by apply puts_within|done|]. cbn [fn_prog prog_step set_maps maps]. apply exec_rec_maps.
    + unfold calls_made. rewrite omap_prog_snoc. cbn [fn_phase prog_step prog_op]. split; [by rewrite <-Hops, <-app_assoc|]. split; [|done].
      rewrite recorded_snoc. unfold mk, exec_rec. simpl. destruct Hf as [Hw Ht].
      destruct (exec_tracks Dd Dc op _ _ Hw (puts_within op Hop) Ht) as (_ & _ & Hiff).
      destruct (exec op _); case_bool_decide as Hc; try done; [|apply Hiff in Hc; by destruct Hc]. destruct Hc. by apply Hiff.
  - unfold calls_made in Hs. rewrite Hph in Hs. destruct Hs as (Hops & -> & Hpv). rewrite app_nil_r in Hops. split; [by apply (follows_same _ st)|].
    unfold calls_made. rewrite omap_prog_snoc. cbn [fn_phase prog_step prog_op]. rewrite app_nil_r, Hops in *. split; [done|].
    exists dels. split; [by rewrite Hp, Hpv|done].
  - unfold calls_made in Hs. rewrite Hph in Hs. destruct Hs as (-> & dels & Hp & Hops).
    split; [|unfold calls_made; rewrite omap_prog_snoc; cbn [fn_phase prog_step prog_op]; split; [done|]; exists dels; split; [done|by rewrite <-Hops, <-app_assoc]].
    eapply follows_op; [done| |done|done]. assert (op ∈ puts ++ dels) as [?|?]%elem_of_app by (rewrite <-Hops; set_solver); [by apply puts_within|by eapply dels_within].
  - unfold calls_made in Hs. rewrite Hph in Hs. destruct Hs as (-> & dels & Hp & Hops). split; [by apply (follows_same _ st)|].
    unfold calls_made. rewrite omap_prog_snoc. cbn [fn_phase prog_step prog_op]. rewrite app_nil_r in *. split; [apply prev_of_set_prev|]. by exists dels.
  - split; [|by apply Hkeep]. eapply (follows_op _ _ (PutV k act)); [done|done|done|]. cbn [fn_prog set_maps maps]. by rewrite Hex.
  - split; [by apply (follows_same _ st)|by apply Hkeep].
  - split; [|by apply Hkeep]. by eapply (follows_op _ _ (DelV k)).
Qed.

(** The learner has not called on [k]. *)
Definition untouched (ls : list label) (k : probe) : Prop := ∀ op, Learn op ∈ ls → ¬ touches k op.
Lemma untouched_last ls k : untouched ls k → last_op (omap op_of ls) k = last_op (omap prog_op ls) k.
Proof.
  induction ls as [|l ls IH] using rev_ind; [done|]. intros Hu. rewrite !omap_app, !last_op_app.
  rewrite IH by (intros op Hop; apply Hu, elem_of_app; by left). destruct l as [|op|op|]; try done. f_equal.
  apply last_op_None. intros op' ->%list_elem_of_singleton. apply Hu, elem_of_app. right. by left.
Qed.
(** The calls made so far are the first of one run's calls. *)
Lemma calls_made_split ls st : calls_made ls st →
  ∃ dels todo, dels ≡ₚ reconcile_ops (prev_of p0) (recorded puts) ∧ omap prog_op ls ++ todo = puts ++ dels ∧ (fn_phase st = Idle → todo = []).
Proof.
  unfold calls_made. destruct (fn_phase st) as [|todo new|todo new].
  - intros (_ & dels & Hp & Hops). exists dels, []. by rewrite app_nil_r.
  - intros (Hops & _). exists (reconcile_ops (prev_of p0) (recorded puts)), (todo ++ reconcile_ops (prev_of p0) (recorded puts)).
    by rewrite (assoc_L (++)), Hops.
  - intros (_ & dels & Hp & Hops). exists dels, todo. done.
Qed.
(** The verdict keys put are the policy's or the learner's. *)
Lemma puts_in_domain ls st vk a :
  fine_run begun ls st → Begin ∉ ls → PutV vk a ∈ omap op_of ls → vk ∈ moment_domain p0 pods pol ls.
Proof.
  intros Hrun Hb (l & Hl & Ho)%list_elem_of_omap. unfold moment_domain, verdict_domain. destruct l as [|op|op|]; cbn in Ho; simplify_eq.
  - destruct (during_inv ls st Hrun Hb) as [_ (dels & todo & Hp & Hops & _)%calls_made_split].
    assert (PutV vk a ∈ puts ++ dels) as [Hin|Hin]%elem_of_app.
    { rewrite <-Hops. apply elem_of_app. left. apply list_elem_of_omap. by exists (Prog (PutV vk a)). }
    + assert (is_Some (desired pods pol (PV vk))) as Hs by (apply (put_desired pods pol order Horder); eauto).
      unfold desired in Hs. destruct (first (rule_writes pods (PV vk)) (Rules pol)) as [v|] eqn:E; [|by destruct Hs].
      apply first_Some in E as (l1 & r & l2 & Hr & Hw & _). unfold rule_writes in Hw.
      destruct (bool_decide_reflect (PV vk ∈ rule_keys pods r)) as [Hk|]; [|done]. apply elem_of_union_l, elem_of_union_r, elem_of_list_to_set, list_elem_of_bind. exists r. rewrite rule_keys_PV in Hk. rewrite Hr. set_solver.
    + rewrite Hp in Hin. unfold reconcile_ops in Hin. rewrite !elem_of_app, !list_elem_of_fmap in Hin. naive_solver.
  - apply elem_of_union_r, elem_of_list_to_set, list_elem_of_omap. by exists (Learn (PutV vk a)).
Qed.
Section moment.
Context (ls : list label) (st : fine) (k : probe).
Context (Hrun : fine_run begun ls st) (Hb : Begin ∉ ls) (Hu : untouched ls k).
Let old := lookup_probe (maps p0) k.

Lemma moment_holds : holds (maps (fn_prog st)) k (default old (last_op (omap prog_op ls) k)).
Proof. destruct (during_inv ls st Hrun Hb) as [[_ Ht] _]. specialize (Ht k). by rewrite ideal_last, untouched_last in Ht. Qed.
Lemma moment_call w : last_op (omap prog_op ls) k = Some w →
  (∃ a, w = Some a ∧ put_value pods pol k a) ∨ (w = None ∧ stale p0 k = true ∧ desired pods pol k = None).
Proof.
  intros (op & Hop & He)%last_op_Some. destruct (during_inv ls st Hrun Hb) as [_ (dels & todo & Hp & Hops & _)%calls_made_split].
  assert (op ∈ puts ++ dels) as [Hin|Hin]%elem_of_app by (rewrite <-Hops; set_solver).
  - left. by eapply puts_values.
  - right. rewrite Hp in Hin. apply (reconcile_effect p0 pods pol order Horder Hinv). eauto.
Qed.
Lemma moment_value v : lookup_probe (maps (fn_prog st)) k = Some v → old = Some v ∨ put_value pods pol k v.
Proof.
  intros Hv. assert (default old (last_op (omap prog_op ls) k) = Some v) as Hd.
  { pose proof moment_holds as Hh. unfold holds in Hh. destruct k; [by apply Hh|congruence..]. }
  destruct (last_op _ k) as [w|] eqn:E; [|by left]. right. simpl in Hd. subst w.
  destruct (moment_call _ E) as [(a & [= ->] & ?)|[? _]]; done.
Qed.
Lemma moment_exact : kept_key (moment_domain p0 pods pol ls) k → lookup_probe (maps (fn_prog st)) k = default old (last_op (omap prog_op ls) k).
Proof.
  intros Hk. pose proof moment_holds as Hh. assert (∀ vk, k = PV vk → lookup_probe (maps (fn_prog st)) k = default old (last_op (omap prog_op ls) k)) as Hv.
  { intros vk Ek. rewrite Ek in Hk. cbn [kept_key] in Hk. destruct (run_verdicts _ begun ls st Hk Hrun) as [_ Ht].
    - intros vk' a. by eapply puts_in_domain.
    - unfold moment_domain, verdict_domain. cbn. set_solver.
    - rewrite <-(untouched_last ls k Hu), Ek, Ht, ideal_last. unfold old. by rewrite Ek. }
  destruct k; [by eapply Hv|done..].
Qed.
Lemma moment_gap : kept_key (moment_domain p0 pods pol ls) k → lookup_probe (maps (fn_prog st)) k = None →
  old = None ∨ stale p0 k = true ∧ desired pods pol k = None.
Proof.
  intros Hk Hv. assert (default old (last_op (omap prog_op ls) k) = None) as Hd by (by rewrite <-moment_exact).
  destruct (last_op _ k) as [w|] eqn:E; [|by left]. right. simpl in Hd. subst w. destruct (moment_call _ E) as [(a & ? & ?)|[_ ?]]; done.
Qed.
Lemma idle_target : fn_phase st = Idle → target p0 pods pol k = default old (last_op (omap prog_op ls) k).
Proof.
  intros Hph. destruct (during_inv ls st Hrun Hb) as [_ (dels & todo & Hp & Hops & Hid)%calls_made_split].
  rewrite (Hid Hph), app_nil_r in Hops. unfold puts in *. rewrite Hops, (last_all p0 pods) by done.
  unfold target, old. destruct (desired pods pol k); [done|]. simpl. by destruct (stale p0 k).
Qed.
Lemma moment_end : fn_phase st = Idle → holds (maps (fn_prog st)) k (target p0 pods pol k).
Proof. intros Hph. rewrite idle_target by done. apply moment_holds. Qed.
Lemma moment_end_exact : kept_key (moment_domain p0 pods pol ls) k → fn_phase st = Idle → lookup_probe (maps (fn_prog st)) k = target p0 pods pol k.
Proof. intros Hk Hph. rewrite idle_target by done. by apply moment_exact. Qed.
End moment.

(** Every lookup of a packet settles on the policy's entry. *)
Lemma settled_verdict ls st cg da dp :
  fine_run begun ls st → Begin ∉ ls → fn_phase st = Idle → (∀ k, k ∈ probes cg da dp → untouched ls k) → owned_at p0 cg da dp →
  not_evicted (fn_prog st) pods pol cg da dp →
  verdict_for (maps (fn_prog st)) cg da dp = default ACTION_ALLOW (first (desired pods pol) (probes cg da dp)).
Proof.
  intros Hrun Hb Hph Hu Hown Hev. rewrite verdict_for_probes. f_equal. apply first_ext. intros k Hk.
  pose proof (moment_end ls st k Hrun Hb (Hu k Hk) Hph) as Hh.
  rewrite (target_owned p0 pods pol k (Hown k Hk)) in Hh. destruct k as [vk|q|c]; [|done..]. cbn [holds] in Hh.
  destruct (lookup_probe _ (PV vk)) as [v|] eqn:E; [symmetry; by apply Hh|].
  destruct (desired pods pol (PV vk)) eqn:Ed; [|done]. destruct (Hev vk Hk) as [? ?]; [by rewrite Ed|congruence].
Qed.
Lemma settled_verdict_kept ls st cg da dp :
  fine_run begun ls st → Begin ∉ ls → fn_phase st = Idle → (∀ k, k ∈ probes cg da dp → untouched ls k) → owned_at p0 cg da dp →
  verdicts_fit (moment_domain p0 pods pol ls) →
  verdict_for (maps (fn_prog st)) cg da dp = default ACTION_ALLOW (first (desired pods pol) (probes cg da dp)).
Proof.
  intros Hrun Hb Hph Hu Hown Hfit. rewrite verdict_for_probes. f_equal. apply first_ext. intros k Hk.
  rewrite (moment_end_exact ls st k Hrun Hb (Hu k Hk)); [by apply target_owned, Hown| |done]. by destruct k.
Qed.
(** Where the maps already hold the policy and the rules on each lookup agree, a
    packet sees nothing of a re-programming. *)
Lemma rewalk_verdict ls st cg da dp :
  fine_run begun ls st → Begin ∉ ls → (∀ k, k ∈ probes cg da dp → untouched ls k) →
  (∀ k, k ∈ probes cg da dp → lookup_probe (maps p0) k = desired pods pol k) →
  (∀ k v, k ∈ probes cg da dp → put_value pods pol k v → desired pods pol k = Some v) →
  not_evicted (fn_prog st) pods pol cg da dp →
  verdict_for (maps (fn_prog st)) cg da dp = verdict_for (maps p0) cg da dp.
Proof.
  intros Hrun Hb Hu Hset Hag Hev. rewrite !verdict_for_probes. f_equal. apply first_ext. intros k Hk. rewrite (Hset k Hk).
  destruct (lookup_probe (maps (fn_prog st)) k) as [v|] eqn:E.
  - destruct (moment_value ls st k Hrun Hb (Hu k Hk) v E) as [Ho|Hp]; [by rewrite <-(Hset k Hk)|by rewrite (Hag k v)].
  - destruct (desired pods pol k) eqn:Ed; [|done]. destruct k as [vk|q|c].
    + destruct (Hev vk Hk) as [? ?]; [by rewrite Ed|congruence].
    + destruct (moment_gap ls st (PC q) Hrun Hb (Hu _ Hk) I E) as [Ho|[_ ?]]; [rewrite (Hset _ Hk) in Ho|]; congruence.
    + destruct (moment_gap ls st (PD c) Hrun Hb (Hu _ Hk) I E) as [Ho|[_ ?]]; [rewrite (Hset _ Hk) in Ho|]; congruence.
Qed.
End during.

(** ** Who owns an entry, at every moment *)
Definition covers (ks : keys) (k : probe) : Prop :=
  match k with
  | PD cg => cg ∈ ks_Default ks
  | PV vk => vk ∈ ks_Verdict ks
  | PC q => ∃ key, key ∈ ks_CIDR ks ∧ lpm_prefix key = Some q
  end.
(** The programmer remembers it from the last run, has put it in this one, or has
    still to delete it; or the learner remembers it, or is about to. *)
Definition programmer_owns (st : fine) (k : probe) : Prop :=
  match fn_phase st with
  | Idle => covers (prev_of (fn_prog st)) k
  | Writing _ new => covers (prev_of (fn_prog st)) k ∨ covers new k
  | Deleting todo new => covers new k ∨ ∃ op, op ∈ todo ∧ op_effect op = Some (k, None)
  end.
Definition learner_owns (st : fine) (k : probe) : Prop :=
  ∃ vk, k = PV vk ∧ (is_Some (fn_entries st !! vk) ∨ ∃ exp, fn_pending st = Some (vk, exp)).
Definition owner (st : fine) (k : probe) : Prop := k = PD 0 ∨ programmer_owns st k ∨ learner_owns st k.

(** A call gives an entry to its own key only. *)
Lemma put_entry {K V} `{Countable K} (km : KMap K V) k a (s s' : km_state km) k' v :
  km_put k a s = Some s' → km_contents s' !! k' = Some v → k' = k ∧ v = a ∨ k' ≠ k ∧ is_Some (km_contents s !! k').
Proof.
  intros E Hv. destruct (decide (k' = k)) as [->|Hn]; [left; rewrite (km_put_key _ _ _ _ E) in Hv; by simplify_eq|].
  right. split; [done|]. destruct (km_put_other _ _ _ _ k' E Hn) as [Ho|Ho]; rewrite Ho in Hv; [eauto|done].
Qed.
Lemma delete_entry {K V} `{Countable K} (km : KMap K V) k (s : km_state km) k' v :
  km_contents (km_delete k s) !! k' = Some v → k' ≠ k ∧ is_Some (km_contents s !! k').
Proof. rewrite km_delete_spec. intros [? ?]%lookup_delete_Some. eauto. Qed.
Lemma exec_entry op m m' k v :
  exec op m = Some m' → lookup_probe m' k = Some v → op_effect op = Some (k, Some v) ∨ is_Some (lookup_probe m k) ∧ op_effect op ≠ Some (k, None).
Proof.
  destruct op as [cg a|vk a|key a|cg|vk|key]; cbn [exec op_effect]; try (destruct (lpm_prefix key) as [q|]; [|done]);
    cbn [mbind option_bind fmap option_fmap option_map]; try (destruct (km_put _ _ _) as [s|] eqn:E; [|done]); intros [= <-] Hv;
    destruct k as [vk'|q'|cg']; cbn [lookup_probe Default Verdicts CIDR] in Hv |- *; try (right; by eauto).
  1-3: apply (put_entry _ _ _ _ _ _ _ E) in Hv as [[-> ->]|[? ?]]; [by left|right; split; [done|congruence]].
  1-3: apply delete_entry in Hv as [? ?]; right; split; [done|congruence].
Qed.
Lemma covers_record op ks k v : op_effect op = Some (k, Some v) → covers (record_key op ks) k.
Proof.
  destruct op as [cg a|vk a|key a|cg|vk|key]; cbn [op_effect record_key]; try (destruct (lpm_prefix key) as [q|] eqn:E; [|done]); simpl; intros; simplify_eq; simpl; [set_solver..|].
  exists key. split; [set_solver|done].
Qed.
Lemma covers_mono op ks k : covers ks k → covers (record_key op ks) k.
Proof. destruct op, k; simpl; try done; [set_solver..|]. intros (key' & ? & ?). exists key'. split; [set_solver|done]. Qed.

Definition is_del (op : map_op) : Prop := match op with DelD _ | DelV _ | DelC _ => True | _ => False end.
Definition del_phase (st : fine) : Prop := match fn_phase st with Deleting todo _ => Forall is_del todo | _ => True end.
Lemma del_effect op k v : is_del op → op_effect op = Some (k, v) → v = None ∧ ∀ m, is_Some (exec op m).
Proof. destruct op; cbn [is_del op_effect exec]; [done..|intros _ [= _ <-]; eauto|intros _ [= _ <-]; eauto|]. intros _. destruct (lpm_prefix key); intros; simplify_eq/=; eauto. Qed.
Lemma del_phase_step st l st' : del_phase st → fine_step st l st' → del_phase st'.
Proof.
  unfold del_phase. intros Hd Hstep. destruct Hstep as [| |st new dels _ Hp|st op todo new Hph| | | |]; cbn [fn_phase prog_step]; try done.
  - rewrite Forall_forall. intros op. rewrite Hp. unfold reconcile_ops. rewrite !elem_of_app, !list_elem_of_fmap. intros [(? & -> & _)|[(? & -> & _)|(? & -> & _)]]; done.
  - rewrite Hph in Hd. by apply Forall_cons in Hd as [_ ?].
Qed.

Lemma owner_step st l st' :
  del_phase st → (∀ k, is_Some (lookup_probe (maps (fn_prog st)) k) → owner st k) → fine_step st l st' → ∀ k, is_Some (lookup_probe (maps (fn_prog st')) k) → owner st' k.
Proof.
  intros Hdel Hown Hstep k Hk. unfold owner. destruct (decide (k = PD 0)) as [|Hz]; [by left|]. right.
  assert (∀ op m, exec op (maps (fn_prog st)) = Some m → is_Some (lookup_probe m k) →
    (∃ v, op_effect op = Some (k, Some v)) ∨ (programmer_owns st k ∨ learner_owns st k) ∧ op_effect op ≠ Some (k, None)) as Hexec.
  { intros op m He [v Hv]. destruct (exec_entry _ _ _ _ _ He Hv) as [?|[Hs ?]]; [eauto|]. right. split; [|done]. destruct (Hown k Hs) as [?|?]; done. }
  assert (is_Some (lookup_probe (maps (fn_prog st)) k) → programmer_owns st k ∨ learner_owns st k) as Hsame.
  { intros Hs. destruct (Hown k Hs) as [?|?]; done. }
  unfold programmer_owns, learner_owns, del_phase in *.
  destruct Hstep as [st pol' order' Hph|st op todo new Hph mk|st new dels Hph Hp|st op todo new Hph|st new Hph|st vk act exp m Hpe Hex|st vk exp Hpe|st vk exp now Hx Hlt];
    cbn [fn_prog fn_phase fn_entries fn_pending prog_step] in *; rewrite ?Hph in *.
  - destruct (Hsame Hk); auto.
  - unfold mk, exec_rec in *. cbn [fst snd] in *. destruct (exec op _) as [m|] eqn:E; cbn [fst snd set_maps maps] in *.
    + destruct (Hexec op m E Hk) as [[v Hv]|[[[?|?]|?] _]]; [left; right; by eapply covers_record|by auto|left; right; by apply covers_mono|by right].
    + destruct (Hsame Hk) as [[?|?]|?]; auto.
  - destruct (Hsame Hk) as [[Hc|?]|?]; [|by auto..]. left. setoid_rewrite Hp. unfold reconcile_ops.
    setoid_rewrite elem_of_app. setoid_rewrite elem_of_app. setoid_rewrite list_elem_of_fmap. setoid_rewrite elem_of_reverse.
    setoid_rewrite list_elem_of_filter. setoid_rewrite elem_of_elements.
    destruct k as [vk|q|cg]; cbn [covers] in Hc |- *.
    + destruct (decide (vk ∈ ks_Verdict new)); [by left|right]. exists (DelV vk). split; [|done]. right. left. eauto.
    + destruct Hc as (key & Hk' & Hq). destruct (decide (key ∈ ks_CIDR new)); [left; eauto|right]. exists (DelC key).
      split; [left; eauto|]. cbn [op_effect]. by rewrite Hq.
    + destruct (decide (cg ∈ ks_Default new)); [by left|right]. exists (DelD cg). split; [|done]. right. right. exists cg.
      split; [done|]. split; [|done]. split; [congruence|done].
  - unfold exec_del in Hk. cbn [set_maps maps] in Hk. destruct (exec op _) as [m|] eqn:E; cbn [from_option id] in Hk.
    + destruct (Hexec op m E Hk) as [[v Hv]|[[[?|(op' & Hop & He)]|?] Hn]]; [|by auto| |by auto].
      * apply Forall_cons in Hdel as [Hd _]. by destruct (del_effect _ _ _ Hd Hv).
      * left. right. exists op'. split; [|done]. apply elem_of_cons in Hop as [->|?]; done.
    + destruct (Hsame Hk) as [[?|(op' & Hop & He)]|?]; [by auto| |by auto].
      left. right. exists op'. split; [|done]. apply elem_of_cons in Hop as [->|?]; [|done]. apply Forall_cons in Hdel as [Hd _].
      destruct (del_effect _ _ _ Hd He) as [_ Hs]. destruct (Hs (maps (fn_prog st))). congruence.
  - rewrite prev_of_set_prev. destruct (Hsame Hk) as [[?|(op' & ?%not_elem_of_nil & _)]|?]; [by auto|done|by auto].
  - cbn [set_maps maps] in Hk. destruct (Hexec _ m Hex Hk) as [[v [= <- <-]]|[[?|(vk' & -> & [?|(? & ?)])] _]].
    + right. eauto.
    + by left.
    + right. eauto.
    + congruence.
  - destruct (Hsame Hk) as [?|(vk' & -> & [?|(? & ?)])]; [by left|..]; right; exists vk'; (split; [done|]); left.
    + by apply lookup_insert_is_Some'; right.
    + simplify_eq. by rewrite lookup_insert_eq.
  - cbn [set_maps maps] in Hk. destruct (Hexec (DelV vk) _ eq_refl Hk) as [[v ?]|[[?|(vk' & -> & [?|?])] Hn]]; [done|by left|..]; right; exists vk'; (split; [done|]).
    + left. rewrite lookup_delete_ne; [done|]. intros ->. by apply Hn.
    + by right.
Qed.
Lemma owner_run st0 ls st :
  fn_phase st0 = Idle → (∀ k, is_Some (lookup_probe (maps (fn_prog st0)) k) → owner st0 k) → fine_run st0 ls st →
  ∀ k, is_Some (lookup_probe (maps (fn_prog st)) k) → owner st k.
Proof.
  intros Hid Hown Hrun. enough (del_phase st ∧ ∀ k, is_Some (lookup_probe (maps (fn_prog st)) k) → owner st k) by tauto.
  induction Hrun as [|ls st1 l st2 _ [Hd IH] Hs]; [split; [unfold del_phase; by rewrite Hid|done]|].
  split; [by eapply del_phase_step|by eapply owner_step].
Qed.

(** ** What every run keeps *)
(** The keys remembered, put and still to be put are canonical. *)
Definition keys_ok (st : fine) : Prop :=
  prog_inv (fn_prog st) ∧
  match fn_phase st with
  | Idle => True
  | Writing todo new => (∀ key a, PutC key a ∈ todo → is_Some (lpm_prefix key) → canonical key) ∧ (∀ key, key ∈ ks_CIDR new → canonical key)
  | Deleting _ new => ∀ key, key ∈ ks_CIDR new → canonical key
  end.
Lemma keys_ok_step st l st' : keys_ok st → fine_step st l st' → keys_ok st'.
Proof.
  unfold keys_ok. intros [Hi Hp] Hstep.
  destruct Hstep as [st pol order Hph|st op todo new Hph mk|st new dels Hph _|st op todo new Hph|st new Hph|st vk act exp m _ _|st vk exp _|st vk exp now _ _];
    cbn [fn_prog fn_phase prog_step]; rewrite ?Hph in Hp; try (split; [exact Hi|]; try exact Hp; try apply Hp).
  - split; [apply puts_canonical|set_solver].
  - destruct Hp as [Htodo Hnew]. split; [intros key a Hk; eapply Htodo; by right|]. unfold mk, exec_rec. cbn [fst snd].
    destruct (exec op (maps (fn_prog st))) as [m|] eqn:E; cbn [snd]; [|done].
    destruct op as [| |key a| | |]; cbn [record_key ks_CIDR]; try done. intros key' [->%elem_of_singleton|?]%elem_of_union; [|auto].
    apply (Htodo key a); [left|]. cbn [exec] in E. by destruct (lpm_prefix key).
  - split; [|done]. intros key. cbn [set_prev prevCIDR]. apply Hp.
Qed.
(** No call touches the configuration. *)
Lemma exec_cfg op m m' : exec op m = Some m' → Cfg m' = Cfg m.
Proof.
  destruct op; cbn [exec]; try (destruct (lpm_prefix key); [|done]); cbn [mbind option_bind]; try (destruct (km_put _ _ _); [|done]);
    cbn [fmap option_fmap option_map]; by intros [= <-].
Qed.
Lemma cfg_step st l st' : fine_step st l st' → Cfg (maps (fn_prog st')) = Cfg (maps (fn_prog st)).
Proof.
  destruct 1 as [|st op todo new Hph mk| |st op todo new Hph| |st vk act exp m _ Hex| |]; cbn [fn_prog prog_step set_maps set_prev maps]; try done.
  - unfold mk. rewrite exec_rec_maps. destruct (exec op _) eqn:E; [by eapply exec_cfg|done].
  - unfold exec_del. destruct (exec op _) eqn:E; [by eapply exec_cfg|done].
  - by eapply exec_cfg.
Qed.
(** The learner owns nothing at a lookup it never calls on. *)
Lemma learner_quiet_step st l st' k :
  fine_step st l st' → (∀ op, l = Learn op → ¬ touches k op) → ¬ learner_owns st k → ¬ learner_owns st' k.
Proof.
  unfold learner_owns. intros Hstep Hl Hn (vk & -> & Ho). apply Hn. exists vk. split; [done|].
  destruct Hstep as [| | | | |st vk' act exp m _ _|st vk' exp Hpe|st vk' exp now _ _]; cbn [fn_entries fn_pending prog_step] in *; try done.
  - destruct Ho as [?|(? & [= -> _])]; [by left|]. destruct (Hl _ eq_refl). by eexists.
  - destruct Ho as [Hs|(? & ?)]; [|done]. destruct (decide (vk' = vk)) as [->|Hne]; [right; eauto|left]. by rewrite lookup_insert_ne in Hs.
  - destruct Ho as [Hs|?]; [left|by right]. destruct (decide (vk' = vk)) as [->|Hne]; [by rewrite lookup_delete_eq in Hs; destruct Hs|]. by rewrite lookup_delete_ne in Hs.
Qed.

(** ** A whole event is a run of its calls *)
Lemma fine_cons st l st1 ls st2 : fine_step st l st1 → fine_run st1 ls st2 → fine_run st (l :: ls) st2.
Proof. intros Hs Hr. apply (fine_trans st [l] st1); [by apply fine_one|done]. Qed.
Definition at_phase (p : programmer) (es : gmap verdictKey Z) (ph : phase) : fine :=
  {| fn_prog := p; fn_phase := ph; fn_entries := es; fn_pending := None |}.
Lemma puts_run p es ops todo m new :
  let mk := foldl exec_rec (m, new) ops in
  fine_run (at_phase (set_maps p m) es (Writing (ops ++ todo) new)) (Prog <$> ops) (at_phase (set_maps p mk.1) es (Writing todo mk.2)).
Proof.
  cbn zeta. revert m new. induction ops as [|op ops IH]; intros m new; [constructor|]. cbn [fmap list_fmap foldl app].
  eapply fine_cons; [by apply FPut|]. unfold prog_step. cbn [fn_prog fn_entries fn_pending at_phase set_maps maps].
  destruct (exec_rec (m, new) op) as [m' new']. apply IH.
Qed.
Lemma dels_run p es new ops m :
  fine_run (at_phase (set_maps p m) es (Deleting ops new)) (Prog <$> ops) (at_phase (set_maps p (foldl exec_del m ops)) es (Deleting [] new)).
Proof.
  revert m. induction ops as [|op ops IH]; intros m; [constructor|]. cbn [fmap list_fmap foldl]. eapply fine_cons; [by apply FDelete|]. apply IH.
Qed.
Lemma set_maps_id p : set_maps p (maps p) = p.
Proof. by destruct p. Qed.
(** The calls of an undisturbed [apply]. *)
Definition apply_labels (p : programmer) (pol : Policy) (order : nat → list (Z * PodInfo)) : list label :=
  let puts := apply_puts pol order in
  (Prog <$> puts) ++ Tau :: (Prog <$> reconcile_ops (prev_of p) (foldl exec_rec (maps p, no_keys) puts).2) ++ [Tau].
Lemma apply_labels_own p pol order l : l ∈ apply_labels p pol order → l = Tau ∨ ∃ op, l = Prog op.
Proof.
  unfold apply_labels. rewrite elem_of_app, elem_of_cons, elem_of_app, !list_elem_of_fmap, list_elem_of_singleton.
  intros [(op & -> & _)|[->|[(op & -> & _)| ->]]]; eauto.
Qed.
Lemma apply_run p es eng order :
  fine_run (begun (at_phase p es Idle) (e_policy eng) order) (apply_labels p (e_policy eng) order) (at_phase (apply p eng order) es Idle).
Proof.
  unfold begun, apply_labels. set (puts := apply_puts (e_policy eng) order). set (mk := foldl exec_rec (maps p, no_keys) puts).
  pose proof (apply_work_exec p (e_policy eng) order) as Hw. fold puts mk in Hw.
  pose proof (reconcile_exec p (apply_work p (e_policy eng) order)) as Hm.
  set (w := apply_work p (e_policy eng) order) in *. unfold progress in Hw.
  set (dels := reconcile_ops (prev_of p) mk.2).
  assert (apply p eng order = set_prev (set_maps p (foldl exec_del mk.1 dels)) mk.2) as Ha.
  { unfold apply. fold w. unfold dels. rewrite <-Hw. cbn [fst snd]. rewrite <-Hm. unfold reconcile. unfold set_prev, set_maps. by cbn. }
  eapply fine_trans.
  { pose proof (puts_run p es puts [] (maps p) no_keys) as Hr. rewrite set_maps_id, app_nil_r in Hr. exact Hr. }
  eapply fine_cons; [by apply (FReconcile _ mk.2 dels)|]. eapply fine_trans; [apply dels_run|]. apply fine_one. rewrite Ha.
  by apply (FDone (at_phase _ _ _)).
Qed.
Lemma learn_run p es act exp ks v : ∃ ls,
  let l := foldl (learn_key act exp) {| l_verdicts := v; entries := es |} ks in
  fine_run (at_phase (with_map p v) es Idle) ls (at_phase (with_map p (l_verdicts l)) (entries l) Idle).
Proof.
  cbn zeta. revert es v. induction ks as [|k ks IH]; intros es v; [eexists; constructor|]. cbn [foldl]. unfold learn_key at 2 4.
  cbn [l_verdicts entries]. destruct (km_put k act v) as [v'|] eqn:E; [|apply IH].
  destruct (IH (<[k:=exp]> es) v') as [ls Hls]. exists (Learn (PutV k act) :: Tau :: ls).
  eapply fine_cons; [apply (FLearn _ k act exp); [done|]; cbn [exec with_map maps at_phase fn_prog Verdicts]; by rewrite E|].
  eapply fine_cons; [by apply (FRemember _ k exp)|]. exact Hls.
Qed.
Lemma sweep_run p es now v : ∃ ls,
  let l := sweep now {| l_verdicts := v; entries := es |} in
  fine_run (at_phase (with_map p v) es Idle) ls (at_phase (with_map p (l_verdicts l)) (entries l) Idle).
Proof.
  cbn zeta. unfold sweep. cbn [entries]. set (f := λ (k : verdictKey) (exp : Z) (l : learner), _).
  assert (∀ m, m ⊆ es → ∃ ls, let l := map_fold f {| l_verdicts := v; entries := es |} m in
    fine_run (at_phase (with_map p v) es Idle) ls (at_phase (with_map p (l_verdicts l)) (entries l) Idle) ∧
    ∀ k, m !! k = None → entries l !! k = es !! k) as Hm; [|destruct (Hm es) as (ls & ? & _); eauto].
  cbn zeta. apply (map_fold_weak_ind (λ l m, m ⊆ es → ∃ ls,
    fine_run (at_phase (with_map p v) es Idle) ls (at_phase (with_map p (l_verdicts l)) (entries l) Idle) ∧
    ∀ k, m !! k = None → entries l !! k = es !! k)).
  { intros _. exists []. split; [constructor|done]. }
  intros k exp m l Hk IH Hsub. destruct IH as (ls & Hrun & Hsame); [etrans; [by apply insert_subseteq|done]|].
  assert (es !! k = Some exp) as Hes by (eapply lookup_weaken; [apply lookup_insert_eq|done]).
  unfold f. destruct (Z.ltb_spec exp now) as [Hlt|_].
  - exists (ls ++ [Learn (DelV k)]). split.
    + eapply fine_snoc; [exact Hrun|]. apply (FSweep (at_phase (with_map p (l_verdicts l)) (entries l) Idle) k exp now); [|done]. cbn [at_phase fn_entries]. by rewrite Hsame.
    + intros k' [Hk' Hn]%lookup_insert_None. cbn [entries]. rewrite lookup_delete_ne by congruence. by apply Hsame.
  - exists ls. split; [exact Hrun|]. intros k' [Hk' Hn]%lookup_insert_None. by apply Hsame.
Qed.
End fine.

Section whole.
Context `{UnicodeCase} `{Kernel} `{PodResolver} (dns : DnsParser).
Definition embed (st : enforcer) : fine := at_phase (en_prog st) (en_entries st) Idle.
Lemma with_map_id p : with_map p (Verdicts (maps p)) = p.
Proof. by destruct p as [[]]. Qed.
Lemma event_run p st ev st' :
  NewEngine (Some p) = Ok (en_eng st) → enforcer_step dns st ev = Ok st' → ∃ ls, fine_run (embed st) ls (embed st').
Proof.
  intros Hp. destruct ev as [rd|ev]; cbn [enforcer_step].
  { intros [= <-]. eexists. eapply fine_cons; [by apply FBegin|]. apply (apply_run (en_prog st) (en_entries st)). }
  destruct ev as [now raw|q|now]; cbn [learner_step].
  - destruct (handle_cases dns p (ls_eng (learner_of st)) now raw (ls_learner (learner_of st)) (ls_pods (learner_of st)) Hp) as (l' & r' & -> & Hc).
    cbn [mbind go_bind]. intros [= <-]. unfold embed. cbn [en_prog en_entries ls_learner].
    destruct Hc as [->|(act & exp & ks & -> & _)]; cbn [ls_learner learner_of l_verdicts entries].
    + rewrite with_map_id. eexists. constructor.
    + destruct (learn_run (en_prog st) (en_entries st) act exp ks (Verdicts (maps (en_prog st)))) as [ls Hls]. rewrite with_map_id in Hls. eauto.
  - destruct (NewEngine q); cbn [mbind go_bind]; intros [= <-]; unfold embed; cbn [en_prog en_entries ls_learner learner_of l_verdicts entries];
      rewrite with_map_id; eexists; constructor.
  - cbn [mbind go_bind]. intros [= <-]. unfold embed. cbn [en_prog en_entries ls_learner learner_of].
    destruct (sweep_run (en_prog st) (en_entries st) now (Verdicts (maps (en_prog st)))) as [ls Hls]. rewrite with_map_id in Hls. eauto.
Qed.
Lemma step_compiled p st ev st' :
  NewEngine (Some p) = Ok (en_eng st) → enforcer_step dns st ev = Ok st' → ∃ p', NewEngine (Some p') = Ok (en_eng st').
Proof.
  intros Hp. destruct ev as [rd|ev]; cbn [enforcer_step]; [intros [= <-]; eauto|].
  destruct (learner_step_ok dns (λ _, True) 0 (learner_of st) ev) as (ls & -> & (p' & Hp' & _) & _); [by exists p|by destruct ev|].
  cbn [mbind go_bind]. intros [= <-]. eauto.
Qed.
End whole.


(** The kernel decides as the engine after a re-programming that the learner
    interrupted: when it ends, a packet of a known pod at whose lookups the learner
    made no call, and had left no entry, gets the action of the engine's first match,
    under the conditions that make the maps able to express the policy. *)
Theorem moments_agree `{UnicodeCase} `{Kernel} st0 pods pol eng order ls st cg da dp f :
  NewEngine (Some pol) = Ok eng → (∀ i, order i ≡ₚ map_to_list pods) →
  prog_inv (fn_prog st0) → room (fn_prog st0) (map_to_list pods) pol → owned_at (fn_prog st0) cg da dp →
  fine_run (begun st0 pol order) ls st → Begin ∉ ls → fn_phase st = Idle →
  (∀ k, k ∈ probes cg da dp → untouched ls k) → not_evicted (fn_prog st) (map_to_list pods) pol cg da dp →
  good_pods pods → packet_flow pods cg da dp f → Forall (λ r, representable r = true) (Rules pol) →
  specific_first (writes pods) rule_act (probes cg da dp) (Rules pol) →
  verdict_for (maps (fn_prog st)) cg da dp = actionByte (v_Action (Evaluate eng f)).
Proof.
  intros Heng Ho Hinv Hroom Hown Hrun Hb Hph Hu Hev Hpods Hf Hrep Hs.
  rewrite (settled_verdict st0 (map_to_list pods) pol order Ho Hinv Hroom ls) by done.
  rewrite (desired_engine pods pol cg da dp f Hpods Hf Hrep Hs). simpl. by rewrite (Evaluate_policy_verdict _ _ _ Heng).
Qed.

(** A re-walk is invisible where the rules agree: if the maps already hold the
    policy's entries at a packet's lookups and all rules that write one of them have
    one action, the packet's verdict is the same at every moment of the periodic
    re-programming. *)
Theorem rewalk_invisible `{Kernel} st0 pods pol order ls st cg da dp :
  (∀ i, order i ≡ₚ pods) → prog_inv (fn_prog st0) → room (fn_prog st0) pods pol →
  fine_run (begun st0 pol order) ls st → Begin ∉ ls → (∀ k, k ∈ probes cg da dp → untouched ls k) →
  (∀ k, k ∈ probes cg da dp → lookup_probe (maps (fn_prog st0)) k = desired pods pol k) →
  (∀ k v, k ∈ probes cg da dp → put_value pods pol k v → desired pods pol k = Some v) →
  not_evicted (fn_prog st) pods pol cg da dp →
  verdict_for (maps (fn_prog st)) cg da dp = verdict_for (maps (fn_prog st0)) cg da dp.
Proof. intros. by eapply rewalk_verdict. Qed.

(** C11: no entry is ever orphaned: however the map calls of re-programmings, answers
    and sweeps interleave, at every moment each entry of each map is the node
    default, known to the programmer (from its last run, put in this one, or still to
    be deleted), or known to the learner (remembered with an expiry, or put and about
    to be remembered). *)
Theorem moments_owned `{Kernel} st0 ls st k :
  fn_phase st0 = Idle → (∀ k, is_Some (lookup_probe (maps (fn_prog st0)) k) → owner st0 k) → fine_run st0 ls st →
  is_Some (lookup_probe (maps (fn_prog st)) k) → owner st k.
Proof. intros Hid Hown Hrun. by apply (owner_run st0 ls). Qed.

(** The events of the joint model are runs of map calls: every run of the
    enforcer's events, from an engine that compiled, is an interleaving of the calls
    in which both goroutines are between events again. *)
Theorem events_are_calls `{UnicodeCase} `{Kernel} `{PodResolver} dns Q p st st' :
  NewEngine (Some p) = Ok (en_eng st) → reaches dns Q st st' → ∃ ls, fine_run (embed st) ls (embed st').
Proof.
  intros Hp Hr. revert p Hp. induction Hr as [st|st ev st1 st2 _ Hst _ IH]; intros p Hp; [eexists; constructor|].
  destruct (event_run dns p st ev st1 Hp Hst) as [ls1 H1']. destruct (step_compiled dns p st ev st1 Hp Hst) as [p1 Hp1].
  destruct (IH p1 Hp1) as [ls2 H2']. exists (ls1 ++ ls2). by eapply fine_trans.
Qed.

(** ** Concrete runs *)
Section after.
Context `{Kernel}.
(** The state after the first [n] puts. *)
Definition after_puts (n : nat) (p : programmer) (pol : Policy) (order : nat → list (Z * PodInfo)) : fine :=
  let mk := foldl exec_rec (maps p, no_keys) (take n (apply_puts pol order)) in
  at_phase (set_maps p mk.1) ∅ (Writing (drop n (apply_puts pol order)) mk.2).
Lemma after_puts_run n p pol order :
  fine_run (begun (at_phase p ∅ Idle) pol order) (Prog <$> take n (apply_puts pol order)) (after_puts n p pol order).
Proof.
  pose proof (puts_run p ∅ (take n (apply_puts pol order)) (drop n (apply_puts pol order)) (maps p) no_keys) as Hr.
  rewrite set_maps_id, take_drop in Hr. exact Hr.
Qed.
Lemma prog_no_begin (ops : list map_op) : Begin ∉ Prog <$> ops.
Proof. by intros (op & ? & _)%list_elem_of_fmap. Qed.
Lemma prog_untouched (ops : list map_op) k : untouched (Prog <$> ops) k.
Proof. by intros op (op' & ? & _)%list_elem_of_fmap. Qed.
End after.

Definition ex_named (name : string) : Match :=
  {| m_Pod := {| ps_Namespace := "b"; ps_Name := name; ps_UID := ""; ps_Labels := ∅; ps_MatchExpressions := [] |};
     Domains := []; CIDRs := []; Ports := []; Methods := []; PathPrefix := "" |}.
(** One pod of a namespace is cut off, the others are allowed everything. *)
Definition ex_quarantine : Policy :=
  {| p_PodSelector := None; DefaultAction := "";
     Rules := [ex_rule "quarantine" (ex_named "web-0") ActionDeny; ex_rule "open" (ex_named "") ActionAllow] |}.
(** The rules are written last to first, so the entry of a pod that two rules
    select passes through the later rule's action on every periodic re-walk: the pod
    cut off is open for a moment. *)
Example rewalk_flicker :
  let p := programmed ex_quarantine in
  let st := after_puts (H := linux) 2 p ex_quarantine ex_order in
  verdict_for (H := linux) (maps p) 7 [x08; x08; x08; x08] (be_put16 443) = ACTION_DENY ∧
  fine_run (H := linux) (begun (at_phase p ∅ Idle) ex_quarantine ex_order) (Prog <$> take 2 (apply_puts ex_quarantine ex_order)) st ∧
  verdict_for (H := linux) (maps (fn_prog st)) 7 [x08; x08; x08; x08] (be_put16 443) = ACTION_ALLOW.
Proof. split; [by vm_compute|]. split; [apply after_puts_run|by vm_compute]. Qed.

(** The posture is written first: going from an open policy to a closed one that
    allows a destination, connections to it, which both policies allow, are dropped
    until its rule is written. *)
Definition ex_open : Policy := {| p_PodSelector := None; DefaultAction := "Allow"; Rules := [] |}.
Definition ex_closed : Policy :=
  {| p_PodSelector := None; DefaultAction := "Deny"; Rules := [ex_rule "api" (ex_match ["198.51.100.0/24"] []) ActionAllow] |}.
Example posture_first :
  let p := programmed ex_open in
  let st := after_puts (H := linux) 1 p ex_closed ex_order in
  verdict_for (H := linux) (maps p) 7 [xc6; x33; x64; x07] (be_put16 443) = ACTION_ALLOW ∧
  fine_run (H := linux) (begun (at_phase p ∅ Idle) ex_closed ex_order) (Prog <$> take 1 (apply_puts ex_closed ex_order)) st ∧
  verdict_for (H := linux) (maps (fn_prog st)) 7 [xc6; x33; x64; x07] (be_put16 443) = ACTION_DENY ∧
  verdict_for (H := linux) (maps (apply (H := linux) p (engine_of ex_closed) ex_order)) 7 [xc6; x33; x64; x07] (be_put16 443) = ACTION_ALLOW.
Proof. split; [by vm_compute|]. split; [apply after_puts_run|]. split; by vm_compute. Qed.

(** The learner puts an entry before it takes the lock to remember it.  A sweep in
    between, because the entry it refreshes has expired, deletes the entry just put;
    the learner then remembers an entry that the map does not have. *)
Definition ex_vkey : verdictKey := vkey 7 [xcb; x00; x71; x09] any_port.
Example refresh_lost : ∃ ls st,
  fine_run (H := linux) (at_phase fresh ∅ Idle) ls st ∧
  fn_entries st !! ex_vkey = Some 100%Z ∧ fn_pending st = None ∧ lookup_probe (H := linux) (maps (fn_prog st)) (PV ex_vkey) = None.
Proof.
  eexists [Learn (PutV ex_vkey actAllow); Tau; Learn (PutV ex_vkey actAllow); Learn (DelV ex_vkey); Tau], _. split.
  - eapply fine_cons; [by apply (FLearn (H := linux) _ ex_vkey actAllow 5)|].
    eapply fine_cons; [by apply (FRemember (H := linux) _ ex_vkey 5)|].
    eapply fine_cons; [by apply (FLearn (H := linux) _ ex_vkey actAllow 100)|].
    eapply fine_cons; [by apply (FSweep (H := linux) _ ex_vkey 5 10)|].
    apply fine_one. by apply (FRemember (H := linux) _ ex_vkey 100).
  - split; [by vm_compute|]. split; by vm_compute.
Qed.

Definition ex_start : fine (H := linux) := at_phase (H := linux) fresh ∅ Idle.
(** The learner puts its entry after [apply] has begun. *)
Definition ex_learned_maps : @Maps linux := default linux_loaded (exec (H := linux) (PutV ex_vkey actDeny) linux_loaded).
Definition ex_learned_prog : @programmer linux := set_maps (H := linux) fresh ex_learned_maps.
Definition ex_labels : list label := Learn (PutV ex_vkey actDeny) :: Tau :: apply_labels (H := linux) ex_learned_prog ex_deny ex_order.
Definition ex_end : fine (H := linux) := at_phase (H := linux) (apply (H := linux) ex_learned_prog (engine_of ex_deny) ex_order) {[ex_vkey := 60%Z]} Idle.
Lemma ex_labels_run : fine_run (H := linux) (begun ex_start ex_deny ex_order) ex_labels ex_end.
Proof.
  eapply fine_cons; [by apply (FLearn (H := linux) _ ex_vkey actDeny 60)|]. eapply fine_cons; [by apply (FRemember (H := linux) _ ex_vkey 60)|].
  exact (apply_run (H := linux) ex_learned_prog {[ex_vkey := 60%Z]} (engine_of ex_deny) ex_order).
Qed.
Lemma ex_labels_begin : Begin ∉ ex_labels.
Proof. unfold ex_labels. rewrite !elem_of_cons. by intros [?|[?|[?|[? ?]]%apply_labels_own]]. Qed.
Lemma ex_labels_learn op : Learn op ∈ ex_labels → op = PutV ex_vkey actDeny.
Proof. unfold ex_labels. rewrite !elem_of_cons. by intros [[= ->]|[?|[?|[? ?]]%apply_labels_own]]. Qed.
Lemma moments_agree_witness :
  verdict_for (H := linux) (maps (fn_prog ex_end)) 7 [xc6; x33; x64; x07] (be_put16 443) =
    actionByte (v_Action (Evaluate (H := ascii_case) (engine_of ex_deny) (packet "198.51.100.7" 443))) ∧
  lookup_probe (H := linux) (maps (fn_prog ex_end)) (PV ex_vkey) = Some actDeny.
Proof.
  split; [|by vm_compute].
  assert (Forall (λ r, representable r = true) (Rules ex_deny)) as Hr.
  { apply Forall_cons; split; [by vm_compute|]. apply Forall_singleton. by vm_compute. }
  assert (packet_flow ex_pods 7 [xc6; x33; x64; x07] (be_put16 443) (packet "198.51.100.7" 443)) as Hp.
  { apply ex_packet_flow; [by vm_compute|done|lia]. }
  apply (moments_agree (H := ascii_case) (H0 := linux) ex_start ex_pods ex_deny (engine_of ex_deny) ex_order ex_labels ex_end).
  - by vm_compute.
  - done.
  - apply fresh_inv.
  - apply room_b_spec. by vm_compute.
  - apply owned_owned_at, fresh_owned.
  - exact ex_labels_run.
  - exact ex_labels_begin.
  - done.
  - intros k Hk op ->%ex_labels_learn [v [= <- _]]. apply probes_daddr in Hk. by vm_compute in Hk.
  - apply kept_b_spec. by vm_compute.
  - apply ex_good_pods.
  - exact Hp.
  - exact Hr.
  - apply (layered_specific_first (H := ascii_case) ex_pods 7 _ _ (packet "198.51.100.7" 443) ex_good_pods Hp _ Hr).
    exists actDeny, (Rules ex_deny), [], []. split_and!; [done| |constructor|constructor].
    apply Forall_cons; split; [done|]. by apply Forall_singleton.
Defined.

(** A re-walk of the deny list, half done, then done: the learner puts an entry of its
    own meanwhile, and the exact address-and-port entry is there throughout. *)
Definition ex_static : verdictKey := vkey 0 [xc6; x33; x64; x07] (be_put16 443).

Definition settled_b (p : @programmer linux) (pods : list (Z * PodInfo)) (pol : Policy) (cg : Z) (da dp : bytes) : bool :=
  forallb (λ k, bool_decide (lookup_probe (H := linux) (maps p) k = desired pods pol k) &&
    forallb (λ r, negb (bool_decide (k ∈ rule_keys pods r)) || bool_decide (desired pods pol k = Some (actionByte (r_Action r)))) (Rules pol) &&
    (negb (bool_decide (k = PD 0)) || bool_decide (desired pods pol k = Some (actionByte (defaultActionOf pol))))) (probes cg da dp).
Lemma settled_b_spec p pods pol cg da dp : settled_b p pods pol cg da dp = true →
  (∀ k, k ∈ probes cg da dp → lookup_probe (H := linux) (maps p) k = desired pods pol k) ∧
  (∀ k v, k ∈ probes cg da dp → put_value pods pol k v → desired pods pol k = Some v).
Proof.
  unfold settled_b. rewrite forallb_true. intros Hb. split; [intros k Hk|intros k v Hk]; specialize (Hb k Hk);
    rewrite !andb_true_iff, bool_decide_eq_true, forallb_true in Hb; destruct Hb as [[Hl Hr] Hz]; [done|].
  intros [(r & Hin & Hkr & ->)|[-> ->]].
  - specialize (Hr r Hin). by rewrite bool_decide_true, orb_false_l, bool_decide_eq_true in Hr.
  - by rewrite bool_decide_true, orb_false_l, bool_decide_eq_true in Hz.
Qed.
Lemma rewalk_invisible_witness :
  verdict_for (H := linux) (maps (fn_prog (after_puts (H := linux) 2 (programmed ex_deny) ex_deny ex_order))) 7 [xc6; x33; x64; x07] (be_put16 443) =
  verdict_for (H := linux) (maps (programmed ex_deny)) 7 [xc6; x33; x64; x07] (be_put16 443).
Proof.
  destruct (settled_b_spec (programmed ex_deny) (map_to_list ex_pods) ex_deny 7 [xc6; x33; x64; x07] (be_put16 443)) as [Hset Hag]; [by vm_compute|].
  apply (rewalk_invisible (H := linux) (at_phase (H := linux) (programmed ex_deny) ∅ Idle) (map_to_list ex_pods) ex_deny ex_order
    (Prog <$> take 2 (apply_puts ex_deny ex_order)) (after_puts (H := linux) 2 (programmed ex_deny) ex_deny ex_order)).
  - done.
  - apply apply_inv.
  - apply room_b_spec. by vm_compute.
  - apply after_puts_run.
  - apply prog_no_begin.
  - intros k _. apply prog_untouched.
  - exact Hset.
  - exact Hag.
  - apply kept_b_spec. by vm_compute.
Defined.
Lemma moments_owned_witness :
  lookup_probe (H := linux) (maps (fn_prog ex_end)) (PV ex_vkey) = Some actDeny ∧ owner (H := linux) ex_end (PV ex_vkey).
Proof.
  assert (lookup_probe (H := linux) (maps (fn_prog ex_end)) (PV ex_vkey) = Some actDeny) as Hl by (by vm_compute). split; [exact Hl|].
  apply (moments_owned (H := linux) ex_start (Begin :: ex_labels) ex_end).
  - done.
  - intros [k|q|cg] [v Hv]; simpl in Hv; unfold id in Hv; by rewrite lookup_empty in Hv.
  - eapply fine_cons; [by apply (FBegin (H := linux) _ ex_deny ex_order)|exact ex_labels_run].
  - by rewrite Hl.
Defined.
Lemma events_are_calls_witness : ∃ ls,
  fine_run (H := linux) (embed (H0 := linux) (H1 := no_pods) ex_init) ls (embed (H0 := linux) (H1 := no_pods) (ex_next ex_init ex_learn)).
Proof.
  apply (events_are_calls (H := ascii_case) (H0 := linux) (H1 := no_pods) ex_dns (λ _, True) ex_policy).
  - by vm_compute.
  - by apply ex_learned.
Defined.
