(* ===== verification/PolicySource.v ===== *)
(** * Policy sources ([internal/policy/source.go], [internal/policy/filesource.go])

    A subscriber's channel has one slot; its receiver runs concurrently, so between
    any two selects of [broadcast] it may take the value: the flags of [deliver] say
    whether it does.  A tick of [watch] is a step on the source's state, given what
    [os.Stat] and [os.ReadFile] answer at that moment; it is two steps, one per lock,
    in [watched_step], where others run in between. *)

From S2P Require Import Prelude GoStrings Policy Engine Aggregate.

(** ** One subscriber's channel *)
Record chan := { slot : option Policy; received : list Policy }.
Definition make_chan : chan := {| slot := None; received := [] |}.
(** The receiver takes the value, if there is one. *)
Definition receive (c : chan) : chan :=
  match slot c with Some p => {| slot := None; received := received c ++ [p] |} | None => c end.
Definition receive_if (b : bool) (c : chan) : chan := if b then receive c else c.
(** [select { case ch <- p: default: }] and [select { case <-ch: default: }]. *)
Definition try_send (p : Policy) (c : chan) : bool * chan :=
  match slot c with None => (true, {| slot := Some p; received := received c |}) | Some _ => (false, c) end.
Definition drain (c : chan) : chan := {| slot := None; received := received c |}.
(** The body of [broadcast]'s loop; [r1], [r2]: the receiver runs between the selects. *)
Definition deliver (r1 r2 : bool) (p : Policy) (c : chan) : chan :=
  let '(sent, c) := try_send p c in
  if sent then c
  else
    let c := drain (receive_if r1 c) in
    let c := receive_if r2 c in
    (try_send p c).2.
(** [broadcast]: every channel in turn, each under its own interleaving. *)
Definition broadcast (sched : nat → bool * bool) (p : Policy) (subs : list chan) : list chan :=
  imap (λ i c, deliver (sched i).1 (sched i).2 p c) subs.

(** ** The file source *)
Inductive load_error := ReadPolicy | ParsePolicy | InvalidPolicyFile (e : policy_error) | NoPath.
Section file.
Context (Unmarshal : bytes → option Policy).

(** [data]: what [os.ReadFile] gives. *)
Definition loadPolicyFile (data : option bytes) : go load_error Policy :=
  match data with
  | None => Err ReadPolicy
  | Some data =>
      match Unmarshal data with
      | None => Err ParsePolicy
      | Some p =>
          match Validate (Some p) with
          | Some e => Err (InvalidPolicyFile e)
          | None => Ok (default p (Flatten (Some p)))
          end
      end
  end.

(** [last] is [watch]'s variable; times are nanoseconds, the zero time is 0. *)
Record fileSource := { cur : Policy; subs : list chan; last_mod : Z }.
Definition modTime (stat : option Z) : Z := default 0%Z stat.
(** [NewFileSource], and [watch] up to its loop: [stat] is read after [data]. *)
Definition NewFileSource (path : string) (data : option bytes) (stat : option Z) : go load_error fileSource :=
  if bool_decide (path = "") then Err NoPath
  else p ← loadPolicyFile data; Ok {| cur := p; subs := []; last_mod := modTime stat |}.
Definition Subscribe (fs : fileSource) : fileSource := {| cur := cur fs; subs := subs fs ++ [make_chan]; last_mod := last_mod fs |}.
Definition Snapshot (fs : fileSource) : Policy := cur fs.
(** One iteration of [watch]'s loop. *)
Record tick := { t_stat : option Z; t_data : option bytes; t_sched : nat → bool * bool }.
(** Up to the release of [fs.mu]: the new state, and the policy to announce if there
    is one. *)
Definition watch_store (fs : fileSource) (t : tick) : fileSource * option Policy :=
  let mt := modTime (t_stat t) in
  if bool_decide (mt ≤ last_mod fs)%Z then (fs, None)
  else match loadPolicyFile (t_data t) with
       | Ok p => ({| cur := p; subs := subs fs; last_mod := mt |}, Some p)
       | _ => ({| cur := cur fs; subs := subs fs; last_mod := mt |}, None)
       end.
(** [fs.broadcast(p)], under [fs.subMu]. *)
Definition watch_announce (sched : nat → bool * bool) (p : Policy) (fs : fileSource) : fileSource :=
  {| cur := cur fs; subs := broadcast sched p (subs fs); last_mod := last_mod fs |}.
Definition watch_tick (fs : fileSource) (t : tick) : fileSource :=
  let '(fs, p) := watch_store fs t in
  match p with Some p => watch_announce (t_sched t) p fs | None => fs end.
Lemma watch_tick_eq fs t :
  watch_tick fs t =
    if bool_decide (modTime (t_stat t) ≤ last_mod fs)%Z then fs
    else match loadPolicyFile (t_data t) with
         | Ok p => {| cur := p; subs := broadcast (t_sched t) p (subs fs); last_mod := modTime (t_stat t) |}
         | _ => {| cur := cur fs; subs := subs fs; last_mod := modTime (t_stat t) |}
         end.
Proof. unfold watch_tick, watch_store. case_bool_decide; [done|]. by destruct (loadPolicyFile _). Qed.
End file.

(** The empty source. *)
Definition emptySource_Snapshot : Policy := {| p_PodSelector := None; DefaultAction := PostureAllow; Rules := [] |}.

(** ** Delivery *)
Inductive chan_op := Deliver (r1 r2 : bool) (p : Policy) | Receive.
Definition chan_step (c : chan) (o : chan_op) : chan :=
  match o with Deliver r1 r2 p => deliver r1 r2 p c | Receive => receive c end.
Definition sent (ops : list chan_op) : list Policy := omap (λ o, match o with Deliver _ _ p => Some p | Receive => None end) ops.
(** What the receiver has or can have without waiting. *)
Definition visible (c : chan) : list Policy := received c ++ option_list (slot c).

Lemma receive_visible c : visible (receive c) = visible c.
Proof. unfold receive, visible. destruct (slot c) eqn:E; simpl; rewrite ?E; [by rewrite app_nil_r|done]. Qed.
Lemma deliver_visible r1 r2 p c : ∃ l, visible (deliver r1 r2 p c) = l ++ [p] ∧ l `sublist_of` visible c ∧ received c `prefix_of` l.
Proof.
  unfold deliver, try_send, visible. destruct (slot c) as [q|] eqn:E; cbn [slot received option_list].
  - assert (∀ c, receive_if r2 (drain c) = drain c) as -> by (intros ?; by destruct r2).
    cbn [drain slot snd received option_list]. eexists. split; [done|].
    destruct r1; unfold receive_if, receive; rewrite ?E; cbn [received].
    + split; [done|]. by exists [q].
    + split; [|done]. rewrite <-(app_nil_r (received c)) at 1. apply sublist_app; [done|]. apply sublist_nil_l.
  - eexists. split; [done|]. rewrite app_nil_r. done.
Qed.
Lemma deliver_slot r1 r2 p c : slot (deliver r1 r2 p c) = Some p.
Proof.
  unfold deliver, try_send. destruct (slot c) as [q|] eqn:E; cbn [slot]; [|done].
  assert (∀ c, receive_if r2 (drain c) = drain c) as -> by (intros ?; by destruct r2). done.
Qed.
(** What has been received stays. *)
Lemma receive_received c : received c `prefix_of` received (receive c).
Proof. unfold receive. destruct (slot c) as [q|]; [by exists [q]|done]. Qed.
Lemma deliver_received r1 r2 p c : received c `prefix_of` received (deliver r1 r2 p c).
Proof.
  unfold deliver, try_send. destruct (slot c) as [q|] eqn:E; [|done].
  assert (∀ c, receive_if r2 (drain c) = drain c) as -> by (intros ?; by destruct r2). cbn [drain slot snd received].
  destruct r1; [apply receive_received|done].
Qed.
Lemma chan_run_visible ops c base :
  visible c `sublist_of` base → last (visible c) = last base →
  let c' := foldl chan_step c ops in
  visible c' `sublist_of` base ++ sent ops ∧ last (visible c') = last (base ++ sent ops).
Proof.
  revert c base. induction ops as [|[r1 r2 p|] ops IH]; intros c base Hs Hl; cbn [foldl chan_step].
  - unfold sent. simpl. by rewrite app_nil_r.
  - destruct (deliver_visible r1 r2 p c) as (l & Hv & Hl1 & _).
    change (sent (Deliver r1 r2 p :: ops)) with ([p] ++ sent ops). rewrite (assoc_L (++)). apply IH; rewrite Hv.
    + apply sublist_app; [by etrans|done].
    + by rewrite !last_snoc.
  - apply IH; by rewrite receive_visible.
Qed.

(** Subscribers only miss intermediate policies: under every interleaving of
    broadcasts and receives, what a subscriber has received or has waiting is a
    subsequence, in order, of the policies broadcast since it subscribed, its last
    element is the latest one, and a broadcast always leaves its policy in the
    slot. *)
Theorem subscriber_latest ops :
  let c := foldl chan_step make_chan ops in
  visible c `sublist_of` sent ops ∧ last (visible c) = last (sent ops) ∧
  ∀ r1 r2 p, slot (deliver r1 r2 p c) = Some p.
Proof.
  cbn zeta. destruct (chan_run_visible ops make_chan []) as [H1 H2]; [done..|].
  split_and!; [done..|]. intros. apply deliver_slot.
Qed.

(** ** The file source over time *)
Inductive source_op := Tick (t : tick) | NewSubscriber | ReceiverRuns (i : nat).
Section watch.
Context `{UnicodeCase} (Unmarshal : bytes → option Policy).

Definition source_step (fs : fileSource) (o : source_op) : fileSource :=
  match o with
  | Tick t => watch_tick Unmarshal fs t
  | NewSubscriber => Subscribe fs
  | ReceiverRuns i => {| cur := cur fs; subs := alter receive i (subs fs); last_mod := last_mod fs |}
  end.
Definition loaded (t : tick) : option Policy := match loadPolicyFile Unmarshal (t_data t) with Ok p => Some p | _ => None end.
(** The ticks that saw a modification time later than every earlier one. *)
Fixpoint modified (last : Z) (ops : list source_op) : list tick :=
  match ops with
  | [] => []
  | Tick t :: ops => if bool_decide (modTime (t_stat t) ≤ last)%Z then modified last ops else t :: modified (modTime (t_stat t)) ops
  | _ :: ops => modified last ops
  end.
(** Nothing was sent yet (the subscriber then has its snapshot), or [p] is the latest;
    when something is sent is [subscribers_notified]. *)
Definition up_to_date (p : Policy) (c : chan) : Prop := visible c = [] ∨ last (visible c) = Some p.

Lemma Flatten_valid p : valid_policy p → valid_policy (default p (Flatten (Some p))).
Proof.
  intros Hp. unfold Flatten. destruct (LabelSelector_Empty _); [done|]. cbn [default from_option id].
  apply valid_aggregate_sorted; [|constructor]. by apply Forall_singleton.
Qed.
Lemma loadPolicyFile_valid data p : loadPolicyFile Unmarshal data = Ok p → valid_policy p.
Proof.
  unfold loadPolicyFile. destruct data as [data|]; [|done]. destruct (Unmarshal data) as [q|]; [|done].
  destruct (Validate (Some q)) eqn:E; [done|]. intros [= <-]. by apply Flatten_valid, Validate_None.
Qed.
Lemma broadcast_up_to_date sched p cs : Forall (up_to_date p) (broadcast sched p cs).
Proof.
  apply Forall_forall. intros c Hc. apply elem_of_lookup_imap in Hc as (i & c' & -> & _).
  destruct (deliver_visible (sched i).1 (sched i).2 p c') as (l & Hv & _). right. by rewrite Hv, last_snoc.
Qed.
Lemma source_step_ok fs o :
  valid_policy (cur fs) → Forall (up_to_date (cur fs)) (subs fs) →
  valid_policy (cur (source_step fs o)) ∧ Forall (up_to_date (cur (source_step fs o))) (subs (source_step fs o)).
Proof.
  intros Hv Hs. destruct o as [t| |i]; cbn [source_step].
  - rewrite watch_tick_eq. case_bool_decide; [done|]. destruct (loadPolicyFile _ _) as [p| | |] eqn:E; cbn [cur subs]; try done.
    split; [by eapply loadPolicyFile_valid|apply broadcast_up_to_date].
  - cbn [cur subs Subscribe]. rewrite Forall_app, Forall_singleton. split_and!; [done..|by left].
  - cbn [cur subs]. split; [done|]. apply Forall_alter; [done|]. intros c _. unfold up_to_date. by rewrite receive_visible.
Qed.
Lemma source_run_cur ops fs :
  cur (foldl source_step fs ops) = default (cur fs) (last (omap loaded (modified (last_mod fs) ops))).
Proof.
  revert fs. induction ops as [|[t| |i] ops IH]; intros fs; cbn [foldl modified source_step]; rewrite ?IH; [done| |done..].
  rewrite watch_tick_eq. case_bool_decide; [done|]. cbn [omap list_omap].
  destruct (loadPolicyFile Unmarshal (t_data t)) eqn:E; cbn [cur last_mod];
    (assert (loaded t = _) as -> by (unfold loaded; rewrite E; reflexivity)); cbn iota; [|done..].
  rewrite last_cons. by destruct (last _).
Qed.

(** C28: the file source always serves a policy that the engine accepts: starting
    from a successful load, after any sequence of polls (whatever the file's time
    and content), subscriptions and receives, the snapshot is the last policy that
    loaded and validated on a modification, unreadable or invalid versions
    changing nothing; it compiles; and every subscriber that was notified has it,
    or has it waiting, as its latest. *)
Theorem file_source_invariant path data stat fs ops :
  NewFileSource Unmarshal path data stat = Ok fs →
  let fs' := foldl source_step fs ops in
  Snapshot fs' = default (cur fs) (last (omap loaded (modified (last_mod fs) ops))) ∧
  (∃ e, NewEngine (Some (Snapshot fs')) = Ok e) ∧
  Forall (up_to_date (Snapshot fs')) (subs fs').
Proof.
  unfold NewFileSource. case_bool_decide; [done|]. intros (p & Hp & [= <-])%go_bind_ok. cbn zeta.
  split; [apply source_run_cur|]. unfold Snapshot.
  set (fs := {| cur := p; subs := []; last_mod := modTime stat |}).
  assert (valid_policy (cur fs) ∧ Forall (up_to_date (cur fs)) (subs fs)) as Hfs.
  { split; [by eapply loadPolicyFile_valid|constructor]. }
  clearbody fs. clear Hp.
  assert (valid_policy (cur (foldl source_step fs ops)) ∧
    Forall (up_to_date (cur (foldl source_step fs ops))) (subs (foldl source_step fs ops))) as [Hv Hs].
  { revert fs Hfs. induction ops as [|o ops IH]; intros fs [Hv Hs]; [done|]. by apply IH, source_step_ok. }
  split; [by apply NewEngine_valid|done].
Qed.

(** ** The file source, lock by lock *)
(** [watch] stores under one lock and announces under another: between the two,
    [announcing] is the policy it is about to announce, and readers, subscribers and
    receivers run. *)
Record watched := { w_source : fileSource; announcing : option Policy }.
Inductive watched_op := Poll (t : tick) | Announce (sched : nat → bool * bool) | Others (o : source_op).
(** The watcher polls only when it has nothing to announce; [Others] is anything but
    the watcher. *)
Definition watched_step (w : watched) (o : watched_op) : watched :=
  match o, announcing w with
  | Poll t, None => let '(fs, p) := watch_store Unmarshal (w_source w) t in {| w_source := fs; announcing := p |}
  | Announce sched, Some p => {| w_source := watch_announce sched p (w_source w); announcing := None |}
  | Others NewSubscriber, _ => {| w_source := source_step (w_source w) NewSubscriber; announcing := announcing w |}
  | Others (ReceiverRuns i), _ => {| w_source := source_step (w_source w) (ReceiverRuns i); announcing := announcing w |}
  | _, _ => w
  end.
(** The versions of the file that get into force, whatever becomes of them: those
    that load at a poll which sees a later modification time. *)
Fixpoint news (busy : bool) (last : Z) (ops : list watched_op) : list Policy :=
  match ops with
  | [] => []
  | Poll t :: ops =>
      if busy || bool_decide (modTime (t_stat t) ≤ last)%Z then news busy last ops
      else match loaded t with
           | Some p => p :: news true (modTime (t_stat t)) ops
           | None => news false (modTime (t_stat t)) ops
           end
  | Announce _ :: ops => news false last ops
  | Others _ :: ops => news busy last ops
  end.
Definition news_from (w : watched) (ops : list watched_op) : list Policy :=
  news (bool_decide (is_Some (announcing w))) (last_mod (w_source w)) ops.

(** One step, for a channel that has been sent [base] so far: what is to come grows
    by what the step stores, what was sent by what it announces. *)
Lemma watched_step_news w o ops base i c :
  subs (w_source w) !! i = Some c → visible c `sublist_of` base → last (visible c) = last base →
  (∀ p, announcing w = Some p → cur (w_source w) = p) →
  let w' := watched_step w o in
  ∃ base' c', subs (w_source w') !! i = Some c' ∧ visible c' `sublist_of` base' ∧ last (visible c') = last base' ∧
    (∀ p, announcing w' = Some p → cur (w_source w') = p) ∧
    base ++ option_list (announcing w) ++ news_from w (o :: ops) = base' ++ option_list (announcing w') ++ news_from w' ops ∧
    ∃ l, news_from w (o :: ops) = l ++ news_from w' ops ∧ cur (w_source w') = default (cur (w_source w)) (last l).
Proof.
  intros Hc Hs Hl Ha. destruct w as [fs a]. unfold news_from. cbn [w_source announcing] in *. destruct o as [t|sched|[t| |j]], a as [p|];
    cbn [watched_step announcing w_source news];
    try (change (bool_decide (is_Some (Some p))) with true); try (change (bool_decide (is_Some (@None Policy))) with false); cbn [orb];
    try (exists base, c; do 5 (split; [done|]); by exists []).
  - unfold watch_store, loaded. case_bool_decide as Ht; [exists base, c; do 5 (split; [done|]); by exists []|].
    destruct (loadPolicyFile Unmarshal (t_data t)) as [q| | |]; exists base, c; (do 3 (split; [done|]));
      (split; [by intros ? [= <-]|]); (split; [done|]); by first [exists [q]|exists []].
  - exists (base ++ [p]). destruct (deliver_visible (sched i).1 (sched i).2 p c) as (l & Hv & Hsub & _).
    exists (deliver (sched i).1 (sched i).2 p c). cbn [watch_announce subs cur last_mod]. unfold broadcast. rewrite list_lookup_imap, Hc, Hv, !last_snoc.
    split; [done|]. split; [by apply sublist_app; [etrans|]|]. do 2 (split; [done|]). split; [by rewrite <-!(assoc_L (++))|by exists []].
  - exists base, c. cbn [source_step Subscribe subs cur last_mod]. split; [by apply lookup_app_l_Some|]. do 4 (split; [done|]). by exists [].
  - exists base, c. cbn [source_step Subscribe subs cur last_mod]. split; [by apply lookup_app_l_Some|]. do 4 (split; [done|]). by exists [].
  - exists base, (if decide (j = i) then receive c else c). cbn [source_step subs cur last_mod]. destruct (decide (j = i)) as [->|Hne];
      [rewrite list_lookup_alter_eq, Hc, receive_visible|rewrite list_lookup_alter_ne by done]; (do 5 (split; [done|])); by exists [].
  - exists base, (if decide (j = i) then receive c else c). cbn [source_step subs cur last_mod]. destruct (decide (j = i)) as [->|Hne];
      [rewrite list_lookup_alter_eq, Hc, receive_visible|rewrite list_lookup_alter_ne by done]; (do 5 (split; [done|])); by exists [].
Qed.
Lemma watched_run_news ops w base i c :
  subs (w_source w) !! i = Some c → visible c `sublist_of` base → last (visible c) = last base →
  (∀ p, announcing w = Some p → cur (w_source w) = p) →
  let w' := foldl watched_step w ops in
  ∃ base' c', subs (w_source w') !! i = Some c' ∧ visible c' `sublist_of` base' ∧ last (visible c') = last base' ∧
    base ++ option_list (announcing w) ++ news_from w ops = base' ++ option_list (announcing w') ∧
    cur (w_source w') = default (cur (w_source w)) (last (news_from w ops)).
Proof.
  cbn zeta. revert w base c. induction ops as [|o ops IH]; intros w base c Hc Hs Hl Ha.
  { exists base, c. unfold news_from. cbn. by rewrite app_nil_r. }
  destruct (watched_step_news w o ops base i c Hc Hs Hl Ha) as (b1 & c1 & Hc1 & Hs1 & Hl1 & Ha1 & E1 & l & El & Ec).
  destruct (IH _ b1 c1 Hc1 Hs1 Hl1 Ha1) as (b2 & c2 & Hc2 & Hs2 & Hl2 & E2 & Ec2). exists b2, c2. cbn [foldl].
  do 3 (split; [done|]). split; [by rewrite E1|]. rewrite Ec2, Ec, El, last_app. by destruct (last (news_from _ ops)).
Qed.
Definition idle (fs : fileSource) : watched := {| w_source := fs; announcing := None |}.
Lemma watched_announcing fs ops p : announcing (foldl watched_step (idle fs) ops) = Some p → cur (w_source (foldl watched_step (idle fs) ops)) = p.
Proof.
  revert p. induction ops as [|o ops IH] using rev_ind; intros p; [done|]. rewrite foldl_app. cbn [foldl].
  destruct (foldl watched_step (idle fs) ops) as [fs' a]. cbn [w_source announcing] in *.
  destruct o as [t|sched|[t| |j]], a as [q|]; cbn [watched_step w_source announcing source_step Subscribe cur]; try (intros [= <-]; by apply IH); try done.
  unfold watch_store. case_bool_decide; [done|]. destruct (loadPolicyFile _ _); cbn; congruence.
Qed.

(** C13: every subscriber hears of every change.  With the file source at the grain of
    its two locks, whatever happens before and after a subscription, in any
    interleaving of polls, announcements, other subscribers and receivers: of the
    versions stored since (including one stored but not yet announced when it
    subscribed) the subscriber has received or has waiting an ordered selection, and
    whenever the watcher is not between its two locks the newest of them is its
    latest and is the source's snapshot. *)
Theorem subscribers_notified fs before after :
  let w1 := foldl watched_step (idle fs) before in
  let w2 := foldl watched_step (idle fs) (before ++ Others NewSubscriber :: after) in
  let since := option_list (announcing w1) ++ news_from w1 after in
  ∃ c, subs (w_source w2) !! length (subs (w_source w1)) = Some c ∧ visible c `sublist_of` since ∧
    Snapshot (w_source w2) = default (Snapshot (w_source w1)) (last since) ∧
    (announcing w2 = None → last (visible c) = last since).
Proof.
  cbn zeta. rewrite foldl_app. cbn [foldl]. pose proof (watched_announcing fs before) as Ha.
  destruct (foldl watched_step (idle fs) before) as [fs1 a1]. cbn [w_source announcing] in *.
  destruct (watched_run_news after {| w_source := Subscribe fs1; announcing := a1 |} [] (length (subs fs1)) make_chan) as (b & c & Hc & Hs & Hl & E & Ec);
    [by cbn; rewrite list_lookup_middle|done..|].
  assert (watched_step {| w_source := fs1; announcing := a1 |} (Others NewSubscriber) = {| w_source := Subscribe fs1; announcing := a1 |}) as -> by done.
  exists c. split; [done|]. unfold news_from in *. cbn [w_source announcing Subscribe last_mod app cur] in *. rewrite E. split; [|split].
  - rewrite <-(app_nil_r (visible c)). apply sublist_app; [done|apply sublist_nil_l].
  - unfold Snapshot. rewrite Ec, <-E. destruct a1 as [p|]; [|done].
    change (option_list (Some p)) with [p]. cbn [app]. rewrite last_cons, (Ha p) by done. by destruct (last (news _ _ _)).
  - intros ->. cbn [option_list]. by rewrite app_nil_r.
Qed.

(** The one-step [Tick] is a poll whose announcement follows at once; what other
    goroutines do in between leaves the same state as if it had been done before. *)
Lemma tick_between t others fs :
  Forall (λ o, match o with Tick _ => False | _ => True end) others →
  foldl watched_step (idle fs) (Poll t :: (Others <$> others) ++ [Announce (t_sched t)]) = idle (foldl source_step fs (others ++ [Tick t])).
Proof.
  intros Ho. cbn [foldl]. unfold idle at 1. cbn [watched_step announcing w_source].
  assert (∀ a, foldl watched_step {| w_source := (watch_store Unmarshal fs t).1; announcing := a |} (Others <$> others) =
    {| w_source := (watch_store Unmarshal (foldl source_step fs others) t).1; announcing := a |} ∧
    (watch_store Unmarshal (foldl source_step fs others) t).2 = (watch_store Unmarshal fs t).2) as Hrun.
  { intros a. revert fs. induction Ho as [|o others Ho _ IH]; intros fs; [done|]. cbn [fmap list_fmap foldl].
    assert (watched_step {| w_source := (watch_store Unmarshal fs t).1; announcing := a |} (Others o) =
              {| w_source := (watch_store Unmarshal (source_step fs o) t).1; announcing := a |} ∧
            (watch_store Unmarshal (source_step fs o) t).2 = (watch_store Unmarshal fs t).2) as [-> <-]; [|apply IH].
    unfold watch_store. destruct o as [|  |j]; [done|..]; cbn [source_step Subscribe last_mod watched_step announcing w_source];
      case_bool_decide; try done; by destruct (loadPolicyFile _ _). }
  rewrite !foldl_app. cbn [foldl source_step]. unfold watch_tick.
  pose proof (Hrun (watch_store Unmarshal fs t).2) as [Hfs Hp]. clear Hrun.
  destruct (watch_store Unmarshal fs t) as [fs1 p1]. cbn [fst snd] in *. rewrite Hfs.
  destruct (watch_store Unmarshal (foldl source_step fs others) t) as [fs2 p2]. cbn [fst snd] in *. subst p2. by destruct p1.
Qed.

(** A version written between the initial load and [watch]'s first stat is never
    loaded: that stat already reports its time, so no later poll sees a change. *)
Lemma start_race path old new_time fs ticks :
  NewFileSource Unmarshal path old (Some new_time) = Ok fs →
  Forall (λ t, t_stat t = Some new_time) ticks →
  foldl (watch_tick Unmarshal) fs ticks = fs.
Proof.
  unfold NewFileSource. case_bool_decide; [done|]. intros (p & Hp & [= <-])%go_bind_ok HF.
  induction HF as [|t ticks Ht _ IH]; [done|]. cbn [foldl]. rewrite <-IH at 2. f_equal.
  rewrite watch_tick_eq, Ht. by rewrite bool_decide_true.
Qed.
End watch.

(** A reader of one-byte files: 0 is unparsable, 1 is an invalid policy, anything
    else a blocklist whose size is the byte. *)
Definition toy_yaml (data : bytes) : option Policy :=
  match data with
  | [x00] => None
  | [x01] => Some {| p_PodSelector := None; DefaultAction := "bogus"; Rules := [] |}
  | [b] => Some {| p_PodSelector := None; DefaultAction := PostureAllow;
                   Rules := replicate (Z.to_nat (b2z b)) (ex_rule "r" {| m_Pod := PodSelector_zero; Domains := []; CIDRs := ["203.0.113.9/32"]; Ports := []; Methods := []; PathPrefix := "" |} ActionDeny) |}
  | _ => None
  end.
Definition poll (mt : Z) (data : option bytes) : source_op := Tick {| t_stat := Some mt; t_data := data; t_sched := λ _, (false, true) |}.
Definition ex_ops : list source_op :=
  [NewSubscriber; poll 5 (Some [x02]); poll 6 (Some [x03]); poll 7 (Some [x01]); ReceiverRuns 0; poll 7 (Some [x04]); poll 8 None].
Lemma file_source_invariant_witness : ∃ fs,
  NewFileSource toy_yaml "p.yaml" (Some [x05]) (Some 4%Z) = Ok fs ∧
  length (Rules (Snapshot (foldl (source_step toy_yaml) fs ex_ops))) = 3 ∧
  ∃ e, NewEngine (H := ascii_case) (Some (Snapshot (foldl (source_step toy_yaml) fs ex_ops))) = Ok e.
Proof.
  eexists. split; [by vm_compute|]. split; [by vm_compute|].
  eapply (file_source_invariant (H := ascii_case) toy_yaml "p.yaml" (Some [x05]) (Some 4%Z)). by vm_compute.
Defined.
(** A subscription between the two locks: the version already stored is announced to
    it, an invalid one never is, and a later one replaces it. *)
Definition ex_tick (mt : Z) (b : byte) : tick := {| t_stat := Some mt; t_data := Some [b]; t_sched := λ _, (false, false) |}.
Definition ex_file : fileSource :=
  match NewFileSource toy_yaml "p.yaml" (Some [x02]) (Some 4%Z) with Ok fs => fs | _ => {| cur := Policy_zero; subs := []; last_mod := 0 |} end.
Definition ex_watched : list watched_op := [Announce (λ _, (false, false)); Poll (ex_tick 6 x01); Poll (ex_tick 7 x04); Announce (λ _, (false, false))].
Lemma subscribers_notified_witness :
  let w := foldl (watched_step toy_yaml) (idle ex_file) ([Poll (ex_tick 5 x03)] ++ Others NewSubscriber :: ex_watched) in
  ∃ c, subs (w_source w) !! 0 = Some c ∧ last (visible c) = toy_yaml [x04] ∧ Some (Snapshot (w_source w)) = toy_yaml [x04].
Proof.
  cbn zeta. destruct (subscribers_notified toy_yaml ex_file [Poll (ex_tick 5 x03)] ex_watched) as (c & Hc & _ & Hcur & Hl).
  exists c. split; [exact Hc|]. rewrite Hl, Hcur by reflexivity. split; vm_compute; reflexivity.
Defined.
