(* ===== verification/Crd.v ===== *)
(** * The CRD path: API types ([api/v1]), the agent's CRD source
    ([internal/crdsource]) and the operator's reconcilers ([internal/controller])

    The informer caches are part of the state.  Every informer runs its handlers in
    its own goroutine, so several [rebuild]s can be under way at once: a thread is
    one of them, stopped between two of its shared accesses.  The Kubernetes helper
    [meta.SetStatusCondition] is a library function: an interface with its
    documented behaviour. *)

From S2P Require Import Prelude GoStrings GoNet Attr Policy Engine Aggregate PolicySource.

(** ** API types and the conversion *)
Record MetaRequirement := { mr_Key : string; mr_Operator : string; mr_Values : list string }.
Record MetaSelector := { ms_MatchLabels : gmap string string; ms_MatchExpressions : list MetaRequirement }.
Record ApiMatch := { am_Domains : list string; am_CIDRs : list string; am_Ports : list Z; am_Methods : list string; am_PathPrefix : string }.
Record ApiMutation := { au_Type : string; au_Header : string; au_Value : string; au_PathReplace : string }.
Record ApiRule := { ar_Name : string; ar_Match : ApiMatch; ar_Action : string; ar_Mutations : list ApiMutation }.
Record EgressPolicySpec := { s_PodSelector : MetaSelector; s_DefaultAction : string; s_Rules : list ApiRule }.

Definition labelSelectorToPolicy (sel : option MetaSelector) : option LabelSelector :=
  match sel with
  | None => None
  | Some sel =>
      if bool_decide (ms_MatchLabels sel = ∅) && bool_decide (ms_MatchExpressions sel = []) then None
      else Some {| MatchLabels := ms_MatchLabels sel;
                   MatchExpressions := (λ req, {| Key := mr_Key req; Operator := mr_Operator req; Values := mr_Values req |})
                                         <$> ms_MatchExpressions sel |}
  end.
(** An [int32] in range converts to [uint16] unchanged. *)
Definition portsToUint16 (ports : list Z) : list Z := filter (λ v, 0 ≤ v ≤ 65535)%Z ports.
Definition toMutation (m : ApiMutation) : Mutation :=
  {| mu_Type := au_Type m; mu_Header := au_Header m; mu_Value := au_Value m; mu_PathReplace := au_PathReplace m |}.
Definition toRule (r : ApiRule) : Rule :=
  {| r_Name := ar_Name r; r_Action := ar_Action r; r_Mutations := toMutation <$> ar_Mutations r;
     r_Match := {| m_Pod := PodSelector_zero; Domains := am_Domains (ar_Match r); CIDRs := am_CIDRs (ar_Match r);
                   Ports := portsToUint16 (am_Ports (ar_Match r)); Methods := am_Methods (ar_Match r);
                   PathPrefix := am_PathPrefix (ar_Match r) |} |}.
Definition ToPolicy (s : option EgressPolicySpec) : Policy :=
  match s with
  | None => Policy_zero
  | Some s => {| p_PodSelector := labelSelectorToPolicy (Some (s_PodSelector s)); DefaultAction := s_DefaultAction s;
                 Rules := toRule <$> s_Rules s |}
  end.

(** ** The agent's source *)
Record EgressPolicy := { ep_Namespace : string; ep_Name : string; ep_Spec : EgressPolicySpec }.
Record ClusterEgressPolicy := { cep_Name : string; cep_Spec : EgressPolicySpec }.

(** The filtering loops of [rebuild]. *)
Definition accept_cluster (items : list ClusterEgressPolicy) : list ClusterPolicy :=
  omap (λ cep, let p := ToPolicy (Some (cep_Spec cep)) in
               match Validate (Some p) with Some _ => None | None => Some {| cp_Name := cep_Name cep; cp_Policy := Some p |} end) items.
Definition accept_ns (items : list EgressPolicy) : list NamespacedPolicy :=
  omap (λ ep, let p := ToPolicy (Some (ep_Spec ep)) in
              match Validate (Some p) with Some _ => None
              | None => Some {| np_Namespace := ep_Namespace ep; np_Name := ep_Name ep; np_Policy := Some p |} end) items.

(** A [rebuild] under way: before the first List, after it, after the second (and
    the aggregation), after the store. *)
Inductive thread :=
  | Starting
  | ListedCluster (cl : list ClusterEgressPolicy)
  | Aggregated (agg : Policy)
  | Stored (agg : Policy).
Record source_state := {
  cache_cl : list ClusterEgressPolicy; cache_ns : list EgressPolicy;
  src_cur : Policy; src_subs : list chan; threads : gmap nat thread
}.
(** [New] up to the first [rebuild]: the allow-all policy. *)
Definition crd_init (cl : list ClusterEgressPolicy) (ns : list EgressPolicy) : source_state :=
  {| cache_cl := cl; cache_ns := ns; src_cur := {| p_PodSelector := None; DefaultAction := PostureAllow; Rules := [] |};
     src_subs := []; threads := ∅ |}.
Definition with_thread (st : source_state) (i : nat) (t : option thread) : source_state :=
  {| cache_cl := cache_cl st; cache_ns := cache_ns st; src_cur := src_cur st; src_subs := src_subs st;
     threads := partial_alter (λ _, t) i (threads st) |}.
Inductive crd_op :=
  | CacheIs (cl : list ClusterEgressPolicy) (ns : list EgressPolicy)
  | Spawn (i : nat)
  | Advance (i : nat) (listed : bool) (sched : nat → bool * bool)
  | CrdSubscribe
  | CrdReceive (i : nat).
(** [Snapshot], [Subscribe] and [broadcast], each under its lock; the channels are
    used as in the file source. *)
Definition Source_Snapshot (st : source_state) : Policy := src_cur st.
Definition Source_Subscribe (st : source_state) : source_state :=
  {| cache_cl := cache_cl st; cache_ns := cache_ns st; src_cur := src_cur st; src_subs := src_subs st ++ [make_chan]; threads := threads st |}.
Definition Source_broadcast (sched : nat → bool * bool) (p : Policy) (st : source_state) : source_state :=
  {| cache_cl := cache_cl st; cache_ns := cache_ns st; src_cur := src_cur st; src_subs := broadcast sched p (src_subs st); threads := threads st |}.
(** Thread [i] runs to its next shared access; [listed = false] is a failing List,
    which ends the rebuild. *)
Definition advance (i : nat) (listed : bool) (sched : nat → bool * bool) (st : source_state) : source_state :=
  match threads st !! i with
  | None => st
  | Some Starting => with_thread st i (if listed then Some (ListedCluster (cache_cl st)) else None)
  | Some (ListedCluster cl) =>
      with_thread st i (if listed then Some (Aggregated (Aggregate (accept_cluster cl) (accept_ns (cache_ns st)))) else None)
  | Some (Aggregated agg) =>
      with_thread {| cache_cl := cache_cl st; cache_ns := cache_ns st; src_cur := agg; src_subs := src_subs st; threads := threads st |}
        i (Some (Stored agg))
  | Some (Stored agg) =>
      with_thread (Source_broadcast sched agg st) i None
  end.
Definition crd_step (st : source_state) (o : crd_op) : source_state :=
  match o with
  | CacheIs cl ns => {| cache_cl := cl; cache_ns := ns; src_cur := src_cur st; src_subs := src_subs st; threads := threads st |}
  | Spawn i => match threads st !! i with None => with_thread st i (Some Starting) | Some _ => st end
  | Advance i listed sched => advance i listed sched st
  | CrdSubscribe => Source_Subscribe st
  | CrdReceive i => {| cache_cl := cache_cl st; cache_ns := cache_ns st; src_cur := src_cur st; src_subs := alter receive i (src_subs st); threads := threads st |}
  end.
(** A [rebuild] that nothing interrupts. *)
Definition rebuild (i : nat) (sched : nat → bool * bool) : list crd_op :=
  Spawn i :: replicate 4 (Advance i true sched).

(** ** The operator's reconcilers *)
Record Condition := { cd_Type : string; cd_Status : bool; cd_Reason : string; cd_Message : string; cd_ObservedGeneration : Z }.
(** [meta.SetStatusCondition]: conditions are keyed by type; the entry of the type
    becomes the new one (with a transition time, not modelled), other types are
    left alone, and the result says whether anything differed. *)
Class StatusConditions := {
  SetStatusCondition : Condition → list Condition → list Condition * bool;
  ssc_set c cs : Exists (λ c', c' = c) (SetStatusCondition c cs).1;
  ssc_stable c cs : SetStatusCondition c (SetStatusCondition c cs).1 = ((SetStatusCondition c cs).1, false);
  ssc_unchanged c cs : (SetStatusCondition c cs).2 = false → (SetStatusCondition c cs).1 = cs
}.
Record EgressPolicyStatus := { st_ObservedGeneration : Z; st_RuleCount : Z; st_Conditions : list Condition }.
Definition condTypeAccepted : string := "Accepted".
(** [int32(len(rules))]. *)
Definition int32 (n : nat) : Z := let z := wrap 32 (Z.of_nat n) in if (z <? 2 ^ 31)%Z then z else (z - 2 ^ 32)%Z.

Section reconcile.
Context `{StatusConditions} (error_string : policy_error → string).
Definition accepted_condition (generation : Z) (validationErr : option policy_error) : Condition :=
  match validationErr with
  | None => {| cd_Type := condTypeAccepted; cd_Status := true; cd_Reason := "Validated"; cd_Message := "policy spec is valid";
               cd_ObservedGeneration := generation |}
  | Some e => {| cd_Type := condTypeAccepted; cd_Status := false; cd_Reason := "ValidationFailed"; cd_Message := error_string e;
                 cd_ObservedGeneration := generation |}
  end.
Definition refreshStatus (st : EgressPolicyStatus) (generation ruleCount : Z) (validationErr : option policy_error)
    : EgressPolicyStatus * bool :=
  let changed1 := bool_decide (st_ObservedGeneration st ≠ generation) in
  let changed2 := bool_decide (st_RuleCount st ≠ ruleCount) in
  let '(conds, changed3) := SetStatusCondition (accepted_condition generation validationErr) (st_Conditions st) in
  ({| st_ObservedGeneration := generation; st_RuleCount := ruleCount; st_Conditions := conds |}, changed1 || changed2 || changed3).

(** One object as the API server holds it, and [Reconcile]: [None] is a missing
    object; the result is the status written back, if an update is sent. *)
Record object_meta := { Generation : Z; o_Status : EgressPolicyStatus }.
Definition Reconcile_with (validationErr : option policy_error) (rules : nat) (o : object_meta) : option EgressPolicyStatus :=
  let '(st, changed) := refreshStatus (o_Status o) (Generation o) (int32 rules) validationErr in
  if changed then Some st else None.
Definition EgressPolicy_Reconcile (get : option (EgressPolicy * object_meta)) : option EgressPolicyStatus :=
  match get with
  | None => None
  | Some (egp, o) =>
      Reconcile_with (Validate (ScopeToNamespace (Some (ToPolicy (Some (ep_Spec egp)))) (ep_Namespace egp)))
        (length (s_Rules (ep_Spec egp))) o
  end.
Definition ClusterEgressPolicy_Reconcile (get : option (ClusterEgressPolicy * object_meta)) : option EgressPolicyStatus :=
  match get with
  | None => None
  | Some (cegp, o) =>
      Reconcile_with (Validate (Some (ToPolicy (Some (cep_Spec cegp))))) (length (s_Rules (cep_Spec cegp))) o
  end.
End reconcile.

(** ** What the conversion guarantees *)
Lemma ToPolicy_policy_ok s : Validate (Some (ToPolicy s)) = None → policy_ok (ToPolicy s).
Proof.
  intros Hv. apply policy_ok_intro; [done|]. destruct s as [s|]; [|constructor]. apply Forall_fmap, Forall_true. done.
Qed.
Lemma accept_cluster_ok items : Forall cluster_ok (accept_cluster items).
Proof.
  apply Forall_forall. intros c. unfold accept_cluster. rewrite list_elem_of_omap. intros (cep & _ & Hc).
  destruct (Validate _) eqn:E; simplify_eq. by apply ToPolicy_policy_ok.
Qed.
Lemma accept_ns_ok items : Forall (λ ep, ep_Namespace ep ≠ "") items → Forall ns_ok (accept_ns items).
Proof.
  intros Hns. apply Forall_forall. intros n. unfold accept_ns. rewrite list_elem_of_omap. intros (ep & Hep & Hn).
  destruct (Validate _) eqn:E; simplify_eq. split; [|by apply ToPolicy_policy_ok]. rewrite Forall_forall in Hns. by apply Hns.
Qed.
Lemma valid_accepted cl ns : valid_policy (Aggregate (accept_cluster cl) (accept_ns ns)).
Proof.
  unfold Aggregate. apply valid_aggregate_sorted; apply Forall_forall.
  - intros c. rewrite sort_slice_perm. unfold accept_cluster. rewrite list_elem_of_omap. intros (cep & _ & Hc).
    destruct (Validate _) eqn:E; simplify_eq. by apply Validate_None.
  - intros n. rewrite sort_slice_perm. unfold accept_ns. rewrite list_elem_of_omap. intros (ep & _ & Hn).
    destruct (Validate _) eqn:E; simplify_eq. by apply Validate_None.
Qed.

(** ** The source under interleaving *)
Definition thread_ok (t : thread) : Prop :=
  match t with Aggregated agg | Stored agg => valid_policy agg | Starting | ListedCluster _ => True end.
Definition source_ok (st : source_state) : Prop := valid_policy (src_cur st) ∧ map_Forall (λ _, thread_ok) (threads st).

Lemma with_thread_ok st i t : source_ok st → from_option thread_ok True t → source_ok (with_thread st i t).
Proof.
  intros [Hc Ht] Hi. split; [done|]. cbn [with_thread threads]. intros j u. rewrite lookup_partial_alter.
  case_decide; [|by apply Ht]. intros ->. done.
Qed.
Lemma crd_init_ok cl ns : source_ok (crd_init cl ns).
Proof. split; [by apply Validate_None; vm_compute|apply map_Forall_empty]. Qed.
Lemma crd_step_ok st o : source_ok st → source_ok (crd_step st o).
Proof.
  intros Hok. destruct o as [cl ns|i|i listed sched| |i]; cbn [crd_step]; [done| | |done..].
  - destruct (threads st !! i); [done|]. by apply with_thread_ok.
  - unfold advance. destruct (threads st !! i) as [t|] eqn:E; [|done]. pose proof (proj2 Hok i t E) as Hi.
    destruct t as [|cl|agg|agg].
    + apply with_thread_ok; [done|]. by destruct listed.
    + apply with_thread_ok; [done|]. destruct listed; [apply valid_accepted|done].
    + by apply with_thread_ok; [split; [|apply Hok]|].
    + by apply with_thread_ok.
Qed.

(** No CRD content and no interleaving breaks the agent's policy: from the start,
    after any sequence of cache changes, overlapping rebuilds, failing lists,
    subscriptions and receives, the snapshot is a policy the engine accepts. *)
Theorem crd_snapshot_compiles `{UnicodeCase} cl ns ops :
  ∃ e, NewEngine (Some (src_cur (foldl crd_step (crd_init cl ns) ops))) = Ok e.
Proof.
  apply NewEngine_valid. enough (source_ok (foldl crd_step (crd_init cl ns) ops)) as [? _] by done.
  pose proof (crd_init_ok cl ns) as Hok.
  revert Hok. generalize (crd_init cl ns). induction ops as [|o ops IH]; intros st Hok; [done|]. by apply IH, crd_step_ok.
Qed.

Lemma rebuild_result i sched st :
  threads st !! i = None →
  foldl crd_step st (rebuild i sched) =
    let agg := Aggregate (accept_cluster (cache_cl st)) (accept_ns (cache_ns st)) in
    {| cache_cl := cache_cl st; cache_ns := cache_ns st; src_cur := agg; src_subs := broadcast sched agg (src_subs st); threads := threads st |}.
Proof.
  intros Hi. unfold rebuild. cbn [replicate foldl crd_step]. rewrite Hi.
  unfold advance. cbn [with_thread threads cache_cl cache_ns src_cur src_subs].
  do 4 (rewrite lookup_partial_alter_eq; cbn [with_thread threads cache_cl cache_ns src_cur src_subs]).
  unfold with_thread, Source_broadcast. cbn [threads cache_cl cache_ns src_cur src_subs]. f_equal. apply map_eq. intros j. rewrite !lookup_partial_alter. by case_decide; subst.
Qed.

(** C9: the agent enforces exactly the accepted custom resources: an undisturbed
    rebuild leaves a policy that compiles and gives every flow the verdict of the
    documented precedence over the resources in the caches that validate, each
    bad one being skipped; every subscriber then has that policy as its latest.
    (CRD rules carry no labels of their own, so no subject can conflict.) *)
Theorem crd_rebuild_refines `{UnicodeCase} i sched st :
  threads st !! i = None → Forall (λ ep, ep_Namespace ep ≠ "") (cache_ns st) →
  let st' := foldl crd_step st (rebuild i sched) in
  (∃ e, NewEngine (Some (src_cur st')) = Ok e ∧
     ∀ f, Evaluate e f = agg_verdict (sort_slice cluster_less (accept_cluster (cache_cl st)))
                                     (sort_slice ns_less (accept_ns (cache_ns st))) f) ∧
  Forall (up_to_date (src_cur st')) (src_subs st').
Proof.
  intros Hi Hns. cbn zeta. rewrite rebuild_result by done. cbn zeta. cbn [src_cur src_subs]. split.
  - apply Aggregate_spec; [apply accept_cluster_ok|by apply accept_ns_ok].
  - apply broadcast_up_to_date.
Qed.

(** ** The operator *)
Lemma first_error_fmap {A B} (f : B → option policy_error) mk mk' (g : A → B) i l :
  (∀ i x e, mk i (g x) e = mk' i x e) → first_error f mk i (g <$> l) = first_error (f ∘ g) mk' i l.
Proof. intros Hm. revert i. induction l as [|x l IH]; intros i; simpl; [done|]. destruct (f (g x)); [by rewrite Hm|apply IH]. Qed.
Lemma Validate_scoped p ns : Validate (ScopeToNamespace (Some p) ns) = Validate (Some p).
Proof.
  unfold ScopeToNamespace. cbn [fmap option_fmap option_map Validate DefaultAction p_PodSelector Rules].
  destruct (negb _); [done|]. destruct (LabelSelector_validate _); [done|].
  by apply first_error_fmap.
Qed.

Section operator.
Context `{StatusConditions} (error_string : policy_error → string).

Lemma Reconcile_with_spec err n o :
  let st' := default (o_Status o) (Reconcile_with error_string err n o) in
  Exists (λ c, c = accepted_condition error_string (Generation o) err) (st_Conditions st') ∧
  Reconcile_with error_string err n {| Generation := Generation o; o_Status := st' |} = None ∧
  st_ObservedGeneration st' = Generation o ∧ st_RuleCount st' = int32 n.
Proof.
  cbn zeta. unfold Reconcile_with, refreshStatus. destruct o as [gen [og rc cs]]. cbn [o_Status Generation st_ObservedGeneration st_RuleCount st_Conditions].
  set (c := accepted_condition error_string gen err).
  pose proof (ssc_set c cs) as Hset. pose proof (ssc_stable c cs) as Hst. pose proof (ssc_unchanged c cs) as Hun.
  destruct (SetStatusCondition c cs) as [cs' changed]. cbn [fst snd] in *.
  destruct (bool_decide_reflect (og ≠ gen)); [|destruct (bool_decide_reflect (rc ≠ int32 n)); [|destruct changed]];
    cbn [orb default from_option id st_ObservedGeneration st_RuleCount st_Conditions].
  1-3: rewrite Hst, !bool_decide_false by naive_solver; done.
  rewrite <-(Hun eq_refl) in *. rewrite Hst, !bool_decide_false by naive_solver. split_and!; [done..| |].
  - by apply dec_stable.
  - by apply dec_stable.
Qed.
End operator.

(** The operator's status tells what the agents do: after a reconcile (whether or
    not it had to write) the Accepted condition for the object's generation is
    present, True exactly when a node agent takes the policy into its aggregate
    and carrying the agent's validation error otherwise; and a second reconcile of
    the stored object writes nothing, so the controller does not loop. *)
Theorem operator_agrees_with_agent `{StatusConditions} error_string egp o :
  let st' := default (o_Status o) (EgressPolicy_Reconcile error_string (Some (egp, o))) in
  ∃ c, Exists (λ c', c' = c) (st_Conditions st') ∧ cd_Type c = condTypeAccepted ∧ cd_ObservedGeneration c = Generation o ∧
    (cd_Status c = true ↔ accept_ns [egp] ≠ []) ∧
    (∀ err, Validate (Some (ToPolicy (Some (ep_Spec egp)))) = Some err → cd_Message c = error_string err) ∧
    EgressPolicy_Reconcile error_string (Some (egp, {| Generation := Generation o; o_Status := st' |})) = None.
Proof.
  cbn zeta. cbn [EgressPolicy_Reconcile]. rewrite Validate_scoped.
  set (err := Validate (Some (ToPolicy (Some (ep_Spec egp))))).
  destruct (Reconcile_with_spec error_string err (length (s_Rules (ep_Spec egp))) o) as (Hc & Hr & _).
  eexists. split; [exact Hc|]. split_and!; try done.
  - by destruct err.
  - by destruct err.
  - unfold accept_ns. cbn [omap list_omap]. fold err. by destruct err.
  - intros e ->. done.
Qed.

(** ** Examples *)
Definition ex_spec (ports : list Z) (action : string) : EgressPolicySpec :=
  {| s_PodSelector := {| ms_MatchLabels := ∅; ms_MatchExpressions := [] |}; s_DefaultAction := "";
     s_Rules := [{| ar_Name := "r"; ar_Action := action; ar_Mutations := [];
                    ar_Match := {| am_Domains := []; am_CIDRs := []; am_Ports := ports; am_Methods := []; am_PathPrefix := "" |} |}] |}.
Definition ex_ep (name : string) (action : string) : EgressPolicy := {| ep_Namespace := "b"; ep_Name := name; ep_Spec := ex_spec [443%Z] action |}.
Definition never : nat → bool * bool := λ _, (false, false).

(** The rule that names only out-of-range ports becomes one for every port. *)
Example dropped_ports_widen : Ports (r_Match (toRule {| ar_Name := ""; ar_Action := ActionDeny; ar_Mutations := [];
  ar_Match := {| am_Domains := []; am_CIDRs := []; am_Ports := [70000%Z]; am_Methods := []; am_PathPrefix := "" |} |})) = [].
Proof. by vm_compute. Qed.

Lemma crd_rebuild_refines_witness : ∃ e,
  NewEngine (H := ascii_case) (Some (src_cur (foldl crd_step (crd_init [] [ex_ep "p" "Deny"; ex_ep "q" "Bogus"]) (rebuild 0 never)))) = Ok e ∧
  v_Action (Evaluate (H := ascii_case) e (ex_pod_flow "b" "1.2.3.4" ∅)) = ActionDeny.
Proof.
  destruct (crd_rebuild_refines (H := ascii_case) 0 never (crd_init [] [ex_ep "p" "Deny"; ex_ep "q" "Bogus"])) as [(e & He & Hf) _].
  1: done.
  1: by repeat constructor.
  exists e. split; [exact He|]. rewrite Hf. by vm_compute.
Defined.

(** Two overlapping rebuilds: the one that listed first stores last, and the node
    keeps a policy that was deleted, with no rebuild left to correct it. *)
Example rebuild_race :
  let st := foldl crd_step (crd_init [] [ex_ep "p" "Deny"])
    ([CrdSubscribe; Spawn 0; Advance 0 true never; Advance 0 true never; CacheIs [] []] ++ rebuild 1 never ++ [Advance 0 true never; Advance 0 true never]) in
  threads st = ∅ ∧ cache_ns st = [] ∧ length (Rules (src_cur st)) = 1 ∧
  (λ p, length (Rules p)) <$> mjoin (visible <$> src_subs st) = [1].
Proof. by vm_compute. Qed.

(** The library function, up to transition times. *)
#[export] Instance Condition_eq_dec : EqDecision Condition.
Proof. solve_decision. Defined.
Fixpoint set_condition (c : Condition) (cs : list Condition) : list Condition * bool :=
  match cs with
  | [] => ([c], true)
  | c' :: cs => if bool_decide (cd_Type c' = cd_Type c) then (c :: cs, bool_decide (c' ≠ c))
                else prod_map (c' ::.) id (set_condition c cs)
  end.
Program Definition meta_conditions : StatusConditions := {| SetStatusCondition := set_condition |}.
Next Obligation.
  intros c cs. induction cs as [|c' cs IH]; simpl; [by left|]. case_bool_decide; simpl; [by left|]. by right.
Qed.
Next Obligation.
  intros c cs. induction cs as [|c' cs IH]; simpl.
  - rewrite !bool_decide_true by done. by rewrite bool_decide_false by naive_solver.
  - case_bool_decide; simpl.
    + rewrite bool_decide_true by done. by rewrite bool_decide_false by naive_solver.
    + rewrite bool_decide_false by done. by rewrite IH.
Qed.
Next Obligation.
  intros c cs. induction cs as [|c' cs IH]; simpl; [done|]. case_bool_decide; simpl.
  - intros Hn%bool_decide_eq_false. by rewrite (dec_stable Hn).
  - intros Hn. by rewrite IH.
Qed.
Lemma operator_agrees_with_agent_witness :
  let o := {| Generation := 3; o_Status := {| st_ObservedGeneration := 0; st_RuleCount := 0; st_Conditions := [] |} |} in
  ∃ c, Exists (λ c', c' = c) (st_Conditions (default (o_Status o)
      (EgressPolicy_Reconcile (H := meta_conditions) (λ _, "invalid") (Some (ex_ep "q" "Bogus", o))))) ∧
    (cd_Status c = true ↔ accept_ns [ex_ep "q" "Bogus"] ≠ []) ∧ accept_ns [ex_ep "q" "Bogus"] = [].
Proof.
  cbn zeta.
  destruct (operator_agrees_with_agent (H := meta_conditions) (λ _, "invalid") (ex_ep "q" "Bogus")
    {| Generation := 3; o_Status := {| st_ObservedGeneration := 0; st_RuleCount := 0; st_Conditions := [] |} |}) as (c & Hc & _ & _ & Hs & _).
  exists c. split_and!; [exact Hc|exact Hs|by vm_compute].
Defined.
