(* ===== verification/DeepCopy.v ===== *)
(** * Deep copies of the API types ([api/v1/zz_generated.deepcopy.go])

    The custom resources as they lie in memory: their slices and maps are locations
    that other objects may share.  The generated functions copy them field by
    field; the theorem is that the copy reads the same and shares nothing.  The
    [DeepCopyInto] of the Kubernetes types inside (object and list metadata, label
    selectors, conditions) are library code: parameters that copy. *)

From S2P Require Import Prelude GoStrings Attr Policy Engine Aggregate PolicySource Crd Memory.

(** ** The types in memory *)
Record TypeMeta := { Kind : string; APIVersion : string }.
Record HRequirement := { hq_Key : string; hq_Operator : string; hq_Values : option slice }.
Record HSelector := { hs_MatchLabels : option loc; hs_MatchExpressions : option slice }.
Record HMatch := {
  hm_Domains : option slice; hm_CIDRs : option slice; hm_Ports : option slice; hm_Methods : option slice; hm_PathPrefix : string
}.
Record HRule := { hr_Name : string; hr_Match : HMatch; hr_Action : string; hr_Mutations : option slice }.
Record HSpec := { hs_PodSelector : HSelector; hs_DefaultAction : string; hs_Rules : option slice }.
Record HStatus := { ht_ObservedGeneration : Z; ht_RuleCount : Z; ht_Conditions : option slice }.
(** The types of the Kubernetes library, and whatever its objects keep in memory. *)
Class MetaTypes := {
  lib_cell : Type; ObjectMeta : Type; ListMeta : Type; ObjectMeta_zero : ObjectMeta; ListMeta_zero : ListMeta
}.
(** [EgressPolicy] and [ClusterEgressPolicy] have the same fields, and so have their lists. *)
Record HObject `{MetaTypes} := { ho_TypeMeta : TypeMeta; ho_ObjectMeta : ObjectMeta; ho_Spec : HSpec; ho_Status : HStatus }.
Record HList `{MetaTypes} := { hl_TypeMeta : TypeMeta; hl_ListMeta : ListMeta; hl_Items : option slice }.
(** The rules of the policy model ([internal/policy]) in memory. *)
Record HPodSelector := {
  hd_Namespace : string; hd_Name : string; hd_UID : string; hd_Labels : option loc; hd_MatchExpressions : option slice
}.
Record PMatch := {
  pm_Pod : HPodSelector; pm_Domains : option slice; pm_CIDRs : option slice; pm_Ports : option slice; pm_Methods : option slice; pm_PathPrefix : string
}.
Record PRule := { pr_Name : string; pr_Match : PMatch; pr_Action : string; pr_Mutations : option slice }.

Inductive cell `{MetaTypes} :=
  | Strings (l : list string) | Ints (l : list Z) | LabelMap (m : gmap string string) | Requirements (l : list HRequirement)
  | Matches (l : list HMatch) | ApiMutations (l : list ApiMutation) | ApiRules (l : list HRule) | Specs (l : list HSpec)
  | Conditions (l : list Condition) | Statuses (l : list HStatus) | Objects (l : list HObject) | Lists (l : list HList)
  | Mutations (l : list Mutation) | PRules (l : list PRule) | Lib (x : lib_cell).

Definition HSelector_zero : HSelector := {| hs_MatchLabels := None; hs_MatchExpressions := None |}.
Definition HMatch_zero : HMatch := {| hm_Domains := None; hm_CIDRs := None; hm_Ports := None; hm_Methods := None; hm_PathPrefix := "" |}.
Definition HRule_zero : HRule := {| hr_Name := ""; hr_Match := HMatch_zero; hr_Action := ""; hr_Mutations := None |}.
Definition HSpec_zero : HSpec := {| hs_PodSelector := HSelector_zero; hs_DefaultAction := ""; hs_Rules := None |}.
Definition HStatus_zero : HStatus := {| ht_ObservedGeneration := 0; ht_RuleCount := 0; ht_Conditions := None |}.
Definition TypeMeta_zero : TypeMeta := {| Kind := ""; APIVersion := "" |}.
Definition HPodSelector_zero : HPodSelector := {| hd_Namespace := ""; hd_Name := ""; hd_UID := ""; hd_Labels := None; hd_MatchExpressions := None |}.
Definition PMatch_zero : PMatch :=
  {| pm_Pod := HPodSelector_zero; pm_Domains := None; pm_CIDRs := None; pm_Ports := None; pm_Methods := None; pm_PathPrefix := "" |}.

Section elements.
Context `{MetaTypes}.
#[export] Instance string_elem : Elem cell string := {| inj := Strings; proj x := match x with Strings l => Some l | _ => None end; zero := ""; proj_inj xs := eq_refl |}.
#[export] Instance int_elem : Elem cell Z := {| inj := Ints; proj x := match x with Ints l => Some l | _ => None end; zero := 0%Z; proj_inj xs := eq_refl |}.
#[export] Instance requirement_elem : Elem cell HRequirement :=
  {| inj := Requirements; proj x := match x with Requirements l => Some l | _ => None end; zero := {| hq_Key := ""; hq_Operator := ""; hq_Values := None |}; proj_inj xs := eq_refl |}.
#[export] Instance match_elem : Elem cell HMatch := {| inj := Matches; proj x := match x with Matches l => Some l | _ => None end; zero := HMatch_zero; proj_inj xs := eq_refl |}.
#[export] Instance api_mutation_elem : Elem cell ApiMutation :=
  {| inj := ApiMutations; proj x := match x with ApiMutations l => Some l | _ => None end;
     zero := {| au_Type := ""; au_Header := ""; au_Value := ""; au_PathReplace := "" |}; proj_inj xs := eq_refl |}.
#[export] Instance rule_elem : Elem cell HRule := {| inj := ApiRules; proj x := match x with ApiRules l => Some l | _ => None end; zero := HRule_zero; proj_inj xs := eq_refl |}.
#[export] Instance spec_elem : Elem cell HSpec := {| inj := Specs; proj x := match x with Specs l => Some l | _ => None end; zero := HSpec_zero; proj_inj xs := eq_refl |}.
#[export] Instance condition_elem : Elem cell Condition :=
  {| inj := Conditions; proj x := match x with Conditions l => Some l | _ => None end;
     zero := {| cd_Type := ""; cd_Status := false; cd_Reason := ""; cd_Message := ""; cd_ObservedGeneration := 0 |}; proj_inj xs := eq_refl |}.
#[export] Instance status_elem : Elem cell HStatus := {| inj := Statuses; proj x := match x with Statuses l => Some l | _ => None end; zero := HStatus_zero; proj_inj xs := eq_refl |}.
#[export] Instance object_elem : Elem cell HObject :=
  {| inj := Objects; proj x := match x with Objects l => Some l | _ => None end;
     zero := {| ho_TypeMeta := TypeMeta_zero; ho_ObjectMeta := ObjectMeta_zero; ho_Spec := HSpec_zero; ho_Status := HStatus_zero |}; proj_inj xs := eq_refl |}.
#[export] Instance list_elem : Elem cell HList :=
  {| inj := Lists; proj x := match x with Lists l => Some l | _ => None end;
     zero := {| hl_TypeMeta := TypeMeta_zero; hl_ListMeta := ListMeta_zero; hl_Items := None |}; proj_inj xs := eq_refl |}.
#[export] Instance mutation_elem : Elem cell Mutation :=
  {| inj := Mutations; proj x := match x with Mutations l => Some l | _ => None end;
     zero := {| mu_Type := ""; mu_Header := ""; mu_Value := ""; mu_PathReplace := "" |}; proj_inj xs := eq_refl |}.
#[export] Instance prule_elem : Elem cell PRule :=
  {| inj := PRules; proj x := match x with PRules l => Some l | _ => None end;
     zero := {| pr_Name := ""; pr_Match := PMatch_zero; pr_Action := ""; pr_Mutations := None |}; proj_inj xs := eq_refl |}.
End elements.

(** ** What an object in memory reads as *)
Section views.
Context `{MetaTypes}.
Definition labels_view (p : option loc) : view cell (gmap string string) :=
  match p with
  | None => mret ∅
  | Some l => x ← vread l; vof (match x with LabelMap m => Some m | _ => None end)
  end.
Definition requirement_view (q : HRequirement) : view cell MetaRequirement :=
  vs ← elems (hq_Values q); mret {| mr_Key := hq_Key q; mr_Operator := hq_Operator q; mr_Values := vs |}.
Definition selector_view (s : HSelector) : view cell MetaSelector :=
  ml ← labels_view (hs_MatchLabels s); es ← slice_view requirement_view (hs_MatchExpressions s);
  mret {| ms_MatchLabels := ml; ms_MatchExpressions := es |}.
Definition match_view (m : HMatch) : view cell ApiMatch :=
  ds ← elems (hm_Domains m); cs ← elems (hm_CIDRs m); ps ← elems (hm_Ports m); ms ← elems (hm_Methods m);
  mret {| am_Domains := ds; am_CIDRs := cs; am_Ports := ps; am_Methods := ms; am_PathPrefix := hm_PathPrefix m |}.
Definition rule_view (r : HRule) : view cell ApiRule :=
  m ← match_view (hr_Match r); mus ← elems (hr_Mutations r);
  mret {| ar_Name := hr_Name r; ar_Match := m; ar_Action := hr_Action r; ar_Mutations := mus |}.
Definition spec_view (s : HSpec) : view cell EgressPolicySpec :=
  sel ← selector_view (hs_PodSelector s); rs ← slice_view rule_view (hs_Rules s);
  mret {| s_PodSelector := sel; s_DefaultAction := hs_DefaultAction s; s_Rules := rs |}.
Definition status_view (t : HStatus) : view cell EgressPolicyStatus :=
  cs ← slice_view mret (ht_Conditions t);
  mret {| st_ObservedGeneration := ht_ObservedGeneration t; st_RuleCount := ht_RuleCount t; st_Conditions := cs |}.

#[export] Instance labels_local p : Local (labels_view p).
Proof. destruct p; apply _. Qed.
#[export] Instance requirement_local q : Local (requirement_view q) := _.
#[export] Instance selector_local s : Local (selector_view s) := _.
#[export] Instance match_local m : Local (match_view m) := _.
#[export] Instance rule_local r : Local (rule_view r) := _.
#[export] Instance spec_local s : Local (spec_view s) := _.
#[export] Instance status_local t : Local (status_view t) := _.
End views.

(** ** The library's own copies

    What the generated code relies on of [k8s.io/apimachinery]: its [DeepCopyInto]
    methods copy, each by its own rules on its own memory. *)
Class MetaV1 `{MetaTypes} := {
  om_value : Type; om_view : ObjectMeta → view cell om_value;
  om_local :: ∀ o, Local (om_view o);
  v_Namespace : om_value → string; v_Name : om_value → string; v_Generation : om_value → Z;
  lm_value : Type; lm_view : ListMeta → view cell lm_value;
  lm_local :: ∀ o, Local (lm_view o);
  ObjectMeta_DeepCopyInto : ObjectMeta → mem cell ObjectMeta;
  ObjectMeta_copies : copies ObjectMeta_DeepCopyInto om_view;
  ListMeta_DeepCopyInto : ListMeta → mem cell ListMeta;
  ListMeta_copies : copies ListMeta_DeepCopyInto lm_view;
  LabelSelector_DeepCopyInto : HSelector → mem cell HSelector;
  LabelSelector_copies : copies LabelSelector_DeepCopyInto selector_view;
  Condition_DeepCopyInto : Condition → mem cell Condition;
  Condition_copies : copies Condition_DeepCopyInto mret
}.
#[export] Hint Resolve ObjectMeta_copies ListMeta_copies LabelSelector_copies Condition_copies : copying.

Section generated.
Context `{MetaV1}.
(** A resource and a list of them, read from memory. *)
Record PolicyObject := { po_TypeMeta : TypeMeta; po_Meta : om_value; po_Spec : EgressPolicySpec; po_Status : EgressPolicyStatus }.
Record PolicyList := { pl_TypeMeta : TypeMeta; pl_Meta : lm_value; pl_Items : list PolicyObject }.
Definition object_view (o : HObject) : view cell PolicyObject :=
  om ← om_view (ho_ObjectMeta o); s ← spec_view (ho_Spec o); t ← status_view (ho_Status o);
  mret {| po_TypeMeta := ho_TypeMeta o; po_Meta := om; po_Spec := s; po_Status := t |}.
Definition list_view (l : HList) : view cell PolicyList :=
  lm ← lm_view (hl_ListMeta l); items ← slice_view object_view (hl_Items l);
  mret {| pl_TypeMeta := hl_TypeMeta l; pl_Meta := lm; pl_Items := items |}.
#[export] Instance object_local o : Local (object_view o) := _.
#[export] Instance list_local l : Local (list_view l) := _.

(** ** The generated functions

    [in.T.DeepCopyInto(&out.T)] gives the new value of [*out], which starts as
    [*in]; a nil field stays as [*out = *in] left it. *)
Definition Match_DeepCopyInto (in_ : HMatch) : mem cell HMatch :=
  ds ← copy_plain (A := string) (hm_Domains in_);
  cs ← copy_plain (A := string) (hm_CIDRs in_);
  ps ← copy_plain (A := Z) (hm_Ports in_);
  ms ← copy_plain (A := string) (hm_Methods in_);
  mret {| hm_Domains := ds; hm_CIDRs := cs; hm_Ports := ps; hm_Methods := ms; hm_PathPrefix := hm_PathPrefix in_ |}.
Definition Mutation_DeepCopyInto (in_ : ApiMutation) : mem cell ApiMutation := mret in_.
Definition Rule_DeepCopyInto (in_ : HRule) : mem cell HRule :=
  m ← Match_DeepCopyInto (hr_Match in_);
  mus ← copy_plain (A := ApiMutation) (hr_Mutations in_);
  mret {| hr_Name := hr_Name in_; hr_Match := m; hr_Action := hr_Action in_; hr_Mutations := mus |}.
Definition EgressPolicySpec_DeepCopyInto (in_ : HSpec) : mem cell HSpec :=
  sel ← LabelSelector_DeepCopyInto (hs_PodSelector in_);
  rs ← copy_each Rule_DeepCopyInto (hs_Rules in_);
  mret {| hs_PodSelector := sel; hs_DefaultAction := hs_DefaultAction in_; hs_Rules := rs |}.
Definition EgressPolicyStatus_DeepCopyInto (in_ : HStatus) : mem cell HStatus :=
  cs ← copy_each Condition_DeepCopyInto (ht_Conditions in_);
  mret {| ht_ObservedGeneration := ht_ObservedGeneration in_; ht_RuleCount := ht_RuleCount in_; ht_Conditions := cs |}.
Definition EgressPolicy_DeepCopyInto (in_ : HObject) : mem cell HObject :=
  om ← ObjectMeta_DeepCopyInto (ho_ObjectMeta in_);
  s ← EgressPolicySpec_DeepCopyInto (ho_Spec in_);
  t ← EgressPolicyStatus_DeepCopyInto (ho_Status in_);
  mret {| ho_TypeMeta := ho_TypeMeta in_; ho_ObjectMeta := om; ho_Spec := s; ho_Status := t |}.
Definition ClusterEgressPolicy_DeepCopyInto (in_ : HObject) : mem cell HObject :=
  om ← ObjectMeta_DeepCopyInto (ho_ObjectMeta in_);
  s ← EgressPolicySpec_DeepCopyInto (ho_Spec in_);
  t ← EgressPolicyStatus_DeepCopyInto (ho_Status in_);
  mret {| ho_TypeMeta := ho_TypeMeta in_; ho_ObjectMeta := om; ho_Spec := s; ho_Status := t |}.
Definition EgressPolicyList_DeepCopyInto (in_ : HList) : mem cell HList :=
  lm ← ListMeta_DeepCopyInto (hl_ListMeta in_);
  items ← copy_each EgressPolicy_DeepCopyInto (hl_Items in_);
  mret {| hl_TypeMeta := hl_TypeMeta in_; hl_ListMeta := lm; hl_Items := items |}.
Definition ClusterEgressPolicyList_DeepCopyInto (in_ : HList) : mem cell HList :=
  lm ← ListMeta_DeepCopyInto (hl_ListMeta in_);
  items ← copy_each ClusterEgressPolicy_DeepCopyInto (hl_Items in_);
  mret {| hl_TypeMeta := hl_TypeMeta in_; hl_ListMeta := lm; hl_Items := items |}.

Definition Match_DeepCopy := deep_copy Match_DeepCopyInto.
Definition Mutation_DeepCopy := deep_copy Mutation_DeepCopyInto.
Definition Rule_DeepCopy := deep_copy Rule_DeepCopyInto.
Definition EgressPolicySpec_DeepCopy := deep_copy EgressPolicySpec_DeepCopyInto.
Definition EgressPolicyStatus_DeepCopy := deep_copy EgressPolicyStatus_DeepCopyInto.
Definition EgressPolicy_DeepCopy := deep_copy EgressPolicy_DeepCopyInto.
Definition ClusterEgressPolicy_DeepCopy := deep_copy ClusterEgressPolicy_DeepCopyInto.
Definition EgressPolicyList_DeepCopy := deep_copy EgressPolicyList_DeepCopyInto.
Definition ClusterEgressPolicyList_DeepCopy := deep_copy ClusterEgressPolicyList_DeepCopyInto.

(** [runtime.Object]: an interface value is nil, or a type with a pointer that may
    itself be nil. *)
Inductive object_type := TEgressPolicy | TClusterEgressPolicy | TEgressPolicyList | TClusterEgressPolicyList.
Definition Object : Type := option (object_type * option loc).
Definition DeepCopy_of (t : object_type) : option loc → mem cell (option loc) :=
  match t with
  | TEgressPolicy => EgressPolicy_DeepCopy | TClusterEgressPolicy => ClusterEgressPolicy_DeepCopy
  | TEgressPolicyList => EgressPolicyList_DeepCopy | TClusterEgressPolicyList => ClusterEgressPolicyList_DeepCopy
  end.
Definition DeepCopyObject (t : object_type) (in_ : option loc) : mem cell Object :=
  c ← DeepCopy_of t in_; if bool_decide (c ≠ None) then mret (Some (t, c)) else mret None.
Definition EgressPolicy_DeepCopyObject := DeepCopyObject TEgressPolicy.
Definition ClusterEgressPolicy_DeepCopyObject := DeepCopyObject TClusterEgressPolicy.
Definition EgressPolicyList_DeepCopyObject := DeepCopyObject TEgressPolicyList.
Definition ClusterEgressPolicyList_DeepCopyObject := DeepCopyObject TClusterEgressPolicyList.
End generated.

(** ** Every generated function copies *)
Section copies.
Context `{MetaV1}.
Lemma Match_copies : copies Match_DeepCopyInto match_view.
Proof. intros h a x Hr. unfold match_view in Hr. unread. unfold Match_DeepCopyInto. copy_fields. Qed.
Hint Resolve Match_copies : copying.
Lemma Rule_copies : copies Rule_DeepCopyInto rule_view.
Proof. intros h a x Hr. unfold rule_view in Hr. unread. unfold Rule_DeepCopyInto. copy_fields. Qed.
Hint Resolve Rule_copies : copying.
Lemma Spec_copies : copies EgressPolicySpec_DeepCopyInto spec_view.
Proof. intros h a x Hr. unfold spec_view in Hr. unread. unfold EgressPolicySpec_DeepCopyInto. copy_fields. Qed.
Lemma Status_copies : copies EgressPolicyStatus_DeepCopyInto status_view.
Proof. intros h a x Hr. unfold status_view in Hr. unread. unfold EgressPolicyStatus_DeepCopyInto. copy_fields. Qed.
Hint Resolve Spec_copies Status_copies : copying.
Lemma EgressPolicy_copies : copies EgressPolicy_DeepCopyInto object_view.
Proof. intros h a x Hr. unfold object_view in Hr. unread. unfold EgressPolicy_DeepCopyInto. copy_fields. Qed.
Lemma ClusterEgressPolicy_copies : copies ClusterEgressPolicy_DeepCopyInto object_view.
Proof. exact EgressPolicy_copies. Qed.
Hint Resolve EgressPolicy_copies ClusterEgressPolicy_copies : copying.
Lemma EgressPolicyList_copies : copies EgressPolicyList_DeepCopyInto list_view.
Proof. intros h a x Hr. unfold list_view in Hr. unread. unfold EgressPolicyList_DeepCopyInto. copy_fields. Qed.
Lemma ClusterEgressPolicyList_copies : copies ClusterEgressPolicyList_DeepCopyInto list_view.
Proof. exact EgressPolicyList_copies. Qed.

(** The object an interface value points to. *)
Definition deref (t : object_type) (l : loc) : view cell (PolicyObject + PolicyList) :=
  match t with
  | TEgressPolicy | TClusterEgressPolicy => o ← pointer_view object_view l; mret (inl o)
  | TEgressPolicyList | TClusterEgressPolicyList => o ← pointer_view list_view l; mret (inr o)
  end.
#[export] Instance deref_local t l : Local (deref t l).
Proof. destruct t; apply _. Qed.
Lemma pointer_copies {A V W} `{!Elem cell A} (f : A → mem cell A) (w : A → view cell V) (g : V → W) h l x :
  (∀ a, Local (w a)) → copies f w → reads ∅ h (o ← pointer_view w l; mret (g o)) x →
  ∃ l' h', deep_copy f (Some l) h = Some (Some l', h') ∧ h ⊆ h' ∧ reads (dom h) h' (o ← pointer_view w l'; mret (g o)) x.
Proof.
  intros Hw Hf Hr. apply reads_bind in Hr as (o & Ho & <-%reads_ret).
  destruct (deep_copy_copies f w h l o Hw Hf Ho) as ([l'|] & h' & E & Hs & Hc); [done| |by apply reads_of in Hc].
  exists l', h'. split; [done|]. split; [done|]. apply reads_bind. exists o. by rewrite reads_ret.
Qed.
Lemma DeepCopyObject_spec t l h x :
  reads ∅ h (deref t l) x →
  ∃ l' h', DeepCopyObject t (Some l) h = Some (Some (t, Some l'), h') ∧ h ⊆ h' ∧ reads (dom h) h' (deref t l') x.
Proof.
  intros Hr. assert (∃ l' h', DeepCopy_of t (Some l) h = Some (Some l', h') ∧ h ⊆ h' ∧ reads (dom h) h' (deref t l') x) as (l' & h' & E & Hrest).
  { destruct t; cbn [deref] in Hr; (apply pointer_copies; [apply _| |exact Hr]);
      [apply EgressPolicy_copies|apply ClusterEgressPolicy_copies|apply EgressPolicyList_copies|apply ClusterEgressPolicyList_copies]. }
  exists l', h'. split; [|done]. unfold DeepCopyObject, mbind, mem_bind. by rewrite E.
Qed.
Lemma deref_self t l h x fp : deref t l h = Some (x, fp) → l ∈ fp.
Proof.
  intros E. destruct (decide (l ∈ fp)) as [|Hn]; [done|]. assert (reads {[l]} h (deref t l) x) as Hr by (exists fp; split; [done|set_solver]).
  destruct t; cbn [deref] in Hr; unfold pointer_view, variable, array in Hr; apply reads_bind in Hr as (? & Hr & _); unread;
    match goal with Hv : reads _ _ (vread _) _ |- _ => by apply reads_read in Hv as [_ []%not_elem_of_singleton] end.
Qed.
End copies.

(** C19: a deep copy is equal and separate.  Copying any resource or list of resources
    succeeds, changes nothing in memory, and gives an object that reads the same and
    shares no array, map or variable with the original: whatever is later written to
    the memory of one, the other still reads as before.  A nil pointer gives a nil
    interface. *)
Theorem deep_copy_isolated `{MetaV1} t l h x fp :
  deref t l h = Some (x, fp) →
  DeepCopyObject t None h = Some (None, h) ∧
  ∃ l' h' fp', DeepCopyObject t (Some l) h = Some (Some (t, Some l'), h') ∧ h ⊆ h' ∧ deref t l' h' = Some (x, fp') ∧ fp ## fp' ∧
    ∀ h2, ((∀ k, k ∉ fp' → h2 !! k = h' !! k) → deref t l h2 = Some (x, fp)) ∧
          ((∀ k, k ∉ fp → h2 !! k = h' !! k) → deref t l' h2 = Some (x, fp')).
Proof.
  intros E. split; [by destruct t|]. pose proof (grounded _ _ _ E) as Hfp.
  destruct (DeepCopyObject_spec t l h x) as (l' & h' & Hc & Hs & (fp' & E' & Hd)); [by exists fp; split; [|set_solver]|].
  exists l', h', fp'. split; [done|]. split; [done|]. split; [done|]. split; [set_solver|]. intros h2. split; intros Hsame.
  - apply (local h); [done|]. intros k Hk. rewrite Hsame by set_solver.
    apply Hfp, elem_of_dom in Hk as [y Hy]. rewrite Hy. by eapply lookup_weaken.
  - apply (local h'); [done|]. intros k Hk. apply Hsame. set_solver.
Qed.

(** ** A library that copies *)
Module Kube.
Record object_meta := { Namespace : string; Name : string; Generation : Z; Annotations : option loc }.
Record meta_value := { mv_Namespace : string; mv_Name : string; mv_Generation : Z; mv_Annotations : gmap string string }.
#[export] Instance types : MetaTypes :=
  {| lib_cell := Empty_set; ObjectMeta := object_meta; ListMeta := string;
     ObjectMeta_zero := {| Namespace := ""; Name := ""; Generation := 0; Annotations := None |}; ListMeta_zero := "" |}.
Definition copy_labels (p : option loc) : mem cell (option loc) :=
  match p with
  | None => mret None
  | Some _ => m ← observe (labels_view p); l ← alloc (LabelMap m); mret (Some l)
  end.
Lemma labels_copies : copies copy_labels labels_view.
Proof.
  intros h [l|] m Hr; [|by apply yields_ret; apply reads_ret in Hr as <-; apply reads_ret].
  eapply yields_observe; [exact Hr|]. eapply (yields_bind _ _ _ _ (λ l, labels_view (Some l)) _ m); [|intros l' h' _ Hl; by apply yields_ret].
  apply yields_alloc. intros l' Hl Hd. apply reads_bind. exists (LabelMap m). rewrite reads_read, reads_of, lookup_insert_eq. done.
Qed.
Definition requirement_copy (q : HRequirement) : mem cell HRequirement :=
  vs ← copy_plain (A := string) (hq_Values q); mret {| hq_Key := hq_Key q; hq_Operator := hq_Operator q; hq_Values := vs |}.
Lemma requirement_copies : copies requirement_copy requirement_view.
Proof. intros h a x Hr. unfold requirement_view in Hr. unread. unfold requirement_copy. copy_fields. Qed.
Definition selector_copy (s : HSelector) : mem cell HSelector :=
  ml ← copy_labels (hs_MatchLabels s); es ← copy_each requirement_copy (hs_MatchExpressions s);
  mret {| hs_MatchLabels := ml; hs_MatchExpressions := es |}.
#[local] Hint Resolve labels_copies requirement_copies : copying.
Lemma selector_copies : copies selector_copy selector_view.
Proof. intros h a x Hr. unfold selector_view in Hr. unread. unfold selector_copy. copy_fields. Qed.
Definition meta_view (o : object_meta) : view cell meta_value :=
  m ← labels_view (Annotations o);
  mret {| mv_Namespace := Namespace o; mv_Name := Name o; mv_Generation := Generation o; mv_Annotations := m |}.
Definition meta_copy (o : object_meta) : mem cell object_meta :=
  l ← copy_labels (Annotations o); mret {| Namespace := Namespace o; Name := Name o; Generation := Generation o; Annotations := l |}.
Lemma meta_copies : copies meta_copy meta_view.
Proof. intros h a x Hr. unfold meta_view in Hr. unread. unfold meta_copy. copy_fields. Qed.
#[export] Instance machinery : MetaV1 :=
  {| om_view := meta_view; om_local := _; v_Namespace := mv_Namespace; v_Name := mv_Name; v_Generation := mv_Generation;
     lm_view := mret; lm_local := _; ObjectMeta_copies := meta_copies; ListMeta_copies := ret_copies;
     LabelSelector_copies := selector_copies; Condition_copies := ret_copies |}.

(** A policy whose selector labels and rule share memory with other objects. *)
Definition cached : heap cell :=
  list_to_map [(0, LabelMap {["app" := "web"]}); (1, Strings ["10.0.0.0/8"; "192.0.2.0/24"]); (2, Ints [443%Z]);
    (3, ApiRules [{| hr_Name := "r"; hr_Action := "Deny"; hr_Mutations := None;
                     hr_Match := {| hm_Domains := None; hm_CIDRs := Some {| sl_arr := 1; sl_off := 1; sl_len := 1; sl_cap := 1 |};
                                    hm_Ports := Some {| sl_arr := 2; sl_off := 0; sl_len := 1; sl_cap := 1 |};
                                    hm_Methods := None; hm_PathPrefix := "" |} |}]);
    (4, Conditions []);
    (5, Objects [{| ho_TypeMeta := {| Kind := "EgressPolicy"; APIVersion := "ebfw.dvrkn.com/v1" |};
                    ho_ObjectMeta := {| Namespace := "default"; Name := "p"; Generation := 1; Annotations := Some 0 |};
                    ho_Spec := {| hs_PodSelector := {| hs_MatchLabels := Some 0; hs_MatchExpressions := None |}; hs_DefaultAction := "Deny";
                                  hs_Rules := Some {| sl_arr := 3; sl_off := 0; sl_len := 1; sl_cap := 1 |} |};
                    ho_Status := {| ht_ObservedGeneration := 0; ht_RuleCount := 0;
                                    ht_Conditions := Some {| sl_arr := 4; sl_off := 0; sl_len := 0; sl_cap := 0 |} |} |}])].

Lemma deep_copy_isolated_witness : ∃ x fp l' h' fp',
  deref TEgressPolicy 5 cached = Some (x, fp) ∧
  DeepCopyObject TEgressPolicy (Some 5) cached = Some (Some (TEgressPolicy, Some l'), h') ∧ deref TEgressPolicy l' h' = Some (x, fp') ∧
  deref TEgressPolicy 5 (<[l' := Objects []]> h') = Some (x, fp).
Proof.
  assert (is_Some (deref TEgressPolicy 5 cached)) as [[x fp] E] by (apply (bool_decide_unpack _); vm_compute; exact I).
  destruct (deep_copy_isolated TEgressPolicy 5 cached x fp E) as (_ & l' & h' & fp' & Hc & _ & E' & _ & Hsep).
  exists x, fp, l', h', fp'. repeat split; [done..|]. apply Hsep. intros k Hk. apply lookup_insert_ne. intros <-. apply Hk.
  by eapply deref_self.
Defined.
End Kube.
