(* ===== verification/Sharing.v ===== *)
(** * Shared memory from the informer cache to the policy

    [ToPolicy] hands the slices and maps of a resource on to the policy, [foldRule]
    copies a rule but not what it refers to, and [foldInto] allocates.  The
    functions are translated once more, on memory, and shown to give the values of
    their pure models ([Crd], [Policy], [Aggregate]) without writing to anything
    that existed before; then a whole [rebuild] and a whole [Reconcile] on the
    objects of the informer cache. *)

From S2P Require Import Prelude GoStrings Attr Policy Engine Aggregate PolicySource Crd Memory DeepCopy.

(** ** A policy in memory *)
Record HPolicy := { hp_PodSelector : option HSelector; hp_DefaultAction : string; hp_Rules : option slice }.

Section views.
Context `{MetaTypes}.
Definition preq_view (q : HRequirement) : view cell LabelSelectorRequirement :=
  vs ← elems (hq_Values q); mret {| Key := hq_Key q; Operator := hq_Operator q; Values := vs |}.
Definition psel_view (s : HSelector) : view cell LabelSelector :=
  ml ← labels_view (hs_MatchLabels s); es ← slice_view preq_view (hs_MatchExpressions s);
  mret {| MatchLabels := ml; MatchExpressions := es |}.
Definition subject_view (s : option HSelector) : view cell (option LabelSelector) :=
  match s with None => mret None | Some s => x ← psel_view s; mret (Some x) end.
Definition pod_view (p : HPodSelector) : view cell PodSelector :=
  ml ← labels_view (hd_Labels p); es ← slice_view preq_view (hd_MatchExpressions p);
  mret {| ps_Namespace := hd_Namespace p; ps_Name := hd_Name p; ps_UID := hd_UID p; ps_Labels := ml; ps_MatchExpressions := es |}.
Definition pmatch_view (m : PMatch) : view cell Match :=
  pod ← pod_view (pm_Pod m); ds ← elems (pm_Domains m); cs ← elems (pm_CIDRs m); ps ← elems (pm_Ports m); ms ← elems (pm_Methods m);
  mret {| m_Pod := pod; Domains := ds; CIDRs := cs; Ports := ps; Methods := ms; PathPrefix := pm_PathPrefix m |}.
Definition prule_view (r : PRule) : view cell Rule :=
  m ← pmatch_view (pr_Match r); mus ← elems (pr_Mutations r);
  mret {| r_Name := pr_Name r; r_Match := m; r_Action := pr_Action r; r_Mutations := mus |}.
Definition policy_view (p : HPolicy) : view cell Policy :=
  s ← subject_view (hp_PodSelector p); rs ← slice_view prule_view (hp_Rules p);
  mret {| p_PodSelector := s; DefaultAction := hp_DefaultAction p; Rules := rs |}.

#[export] Instance preq_local q : Local (preq_view q) := _.
#[export] Instance psel_local s : Local (psel_view s) := _.
#[export] Instance subject_local s : Local (subject_view s).
Proof. destruct s; apply _. Qed.
#[export] Instance pod_local p : Local (pod_view p) := _.
#[export] Instance pmatch_local m : Local (pmatch_view m) := _.
#[export] Instance prule_local r : Local (prule_view r) := _.
#[export] Instance policy_local p : Local (policy_view p) := _.
End views.

(** ** The conversion *)
Section conversion.
Context `{MetaTypes}.
Definition labelSelectorToPolicy_mem (sel : HSelector) : mem cell (option HSelector) :=
  ml ← observe (labels_view (hs_MatchLabels sel));
  reqs ← observe (elems (A := HRequirement) (hs_MatchExpressions sel));
  if bool_decide (ml = ∅) && bool_decide (reqs = []) then mret None
  else
    es ← of_list ((λ req, {| hq_Key := hq_Key req; hq_Operator := hq_Operator req; hq_Values := hq_Values req |}) <$> reqs);
    mret (Some {| hs_MatchLabels := hs_MatchLabels sel; hs_MatchExpressions := es |}).
(** [make([]uint16, 0, len(in))], then the ports in range. *)
Definition portsToUint16_mem (s : option slice) : mem cell (option slice) :=
  ps ← observe (elems (A := Z) s);
  if bool_decide (ps = []) then mret None
  else
    let out := portsToUint16 ps in
    l ← alloc (Ints (out ++ replicate (length ps - length out) 0%Z));
    mret (Some {| sl_arr := l; sl_off := 0; sl_len := length out; sl_cap := length ps |}).
Definition toRule_mem (r : HRule) : mem cell PRule :=
  ps ← portsToUint16_mem (hm_Ports (hr_Match r));
  ms ← observe (elems (A := ApiMutation) (hr_Mutations r));
  mus ← of_list (toMutation <$> ms);
  mret {| pr_Name := hr_Name r; pr_Action := hr_Action r; pr_Mutations := mus;
          pr_Match := {| pm_Pod := HPodSelector_zero; pm_Domains := hm_Domains (hr_Match r); pm_CIDRs := hm_CIDRs (hr_Match r);
                         pm_Ports := ps; pm_Methods := hm_Methods (hr_Match r); pm_PathPrefix := hm_PathPrefix (hr_Match r) |} |}.
Definition ToPolicy_mem (s : HSpec) : mem cell HPolicy :=
  sel ← labelSelectorToPolicy_mem (hs_PodSelector s);
  rs ← observe (elems (A := HRule) (hs_Rules s));
  prs ← mmapM toRule_mem rs;
  out ← of_list prs;
  mret {| hp_PodSelector := sel; hp_DefaultAction := hs_DefaultAction s; hp_Rules := out |}.

Lemma of_list_elems {A} `{!Elem cell A} D h (xs : list A) : yields D h (of_list xs) elems xs.
Proof.
  intros HD. destruct (of_list_yields D h (mret (M := view cell)) xs xs) as (s & h' & E & Hs & Hr); [apply _| |done|].
  { apply reads_mapM, Forall2_same_length_lookup. split; [done|]. intros i x y ? ?. simplify_eq. by apply reads_ret. }
  exists s, h'. split; [done|]. split; [done|]. apply reads_bind in Hr as (ys & Hy & Hr).
  apply reads_mapM in Hr. assert (ys = xs) as ->; [|done]. clear -Hr. induction Hr as [|y x ys xs Hy _ ->]; [done|]. by apply reads_ret in Hy as ->.
Qed.
Lemma requirement_reread D h q x : reads D h (requirement_view q) x →
  reads D h (preq_view q) {| Key := mr_Key x; Operator := mr_Operator x; Values := mr_Values x |}.
Proof. unfold requirement_view, preq_view. intros Hr. unread. reread. Qed.
Lemma Forall2_nil_iff {A B} (R : A → B → Prop) l k : Forall2 R l k → bool_decide (l = []) = bool_decide (k = []).
Proof. by destruct 1. Qed.
Lemma labelSelectorToPolicy_yields D h sel x :
  reads D h (selector_view sel) x → yields D h (labelSelectorToPolicy_mem sel) subject_view (labelSelectorToPolicy (Some x)).
Proof.
  intros Hr. unfold selector_view, slice_view in Hr. unread. unfold labelSelectorToPolicy_mem.
  eapply yields_observe; [eassumption|]. eapply yields_observe; [eassumption|].
  match goal with Hm : reads _ _ (vmapM _ _) _ |- _ => apply reads_mapM in Hm as HF end.
  cbn [labelSelectorToPolicy ms_MatchLabels ms_MatchExpressions]. rewrite (Forall2_nil_iff _ _ _ HF).
  destruct (_ && _); [by apply yields_ret, reads_ret|].
  eapply yields_bind; [apply (of_list_yields _ _ preq_view); [apply _|]|].
  - apply reads_mapM, Forall2_fmap, (Forall2_impl _ _ _ _ HF). intros q y Hq. apply requirement_reread in Hq. destruct q. exact Hq.
  - intros es h' Hs Hes. apply yields_ret. cbn [subject_view]. unfold psel_view. apply reads_bind. eexists. split; [|by apply reads_ret]. reread.
Qed.
Lemma portsToUint16_yields D h s ps : reads D h (elems s) ps → yields D h (portsToUint16_mem s) elems (portsToUint16 ps).
Proof.
  intros Hr. eapply yields_observe; [exact Hr|]. destruct (bool_decide_reflect (ps = [])) as [->|]; [by apply yields_ret, reads_ret|].
  set (out := portsToUint16 ps). eapply (yields_bind _ _ _ _ (λ l, array (A := Z) l)).
  - apply yields_alloc. intros l Hl Hd. apply (reads_array _ _ _ (out ++ replicate (length ps - length out) 0%Z)); [apply lookup_insert_eq|done].
  - intros l h' Hs Hl. apply yields_ret. cbn [elems sl_arr sl_off sl_len]. apply reads_bind. eexists. split; [exact Hl|].
    rewrite bool_decide_true by (rewrite length_app; lia). rewrite reads_ret, drop_0. apply take_app_length.
Qed.
Lemma toRule_yields D h r x : reads D h (rule_view r) x → yields D h (toRule_mem r) prule_view (toRule x).
Proof.
  intros Hr. unfold rule_view, match_view in Hr. unread. unfold toRule_mem.
  eapply yields_bind; [by apply portsToUint16_yields|]. intros ps h' Hs Hps.
  eapply yields_observe; [still|]. eapply yields_bind; [apply of_list_elems|]. intros mus h2 Hs2 Hmus.
  apply yields_ret. unfold prule_view, pmatch_view, pod_view. cbn [pr_Match pm_Pod pm_Domains pm_CIDRs pm_Ports pm_Methods pr_Mutations hd_Labels hd_MatchExpressions HPodSelector_zero].
  apply reads_bind. eexists. split; [|reread]. apply reads_bind. exists PodSelector_zero. split; [|reread].
  apply reads_bind. exists ∅. split; [by apply reads_ret|]. apply reads_bind. exists []. split; [|by apply reads_ret].
  apply reads_bind. exists []. split; by apply reads_ret.
Qed.
Lemma ToPolicy_yields D h s x : reads D h (spec_view s) x → yields D h (ToPolicy_mem s) policy_view (ToPolicy (Some x)).
Proof.
  intros Hr. unfold spec_view in Hr. unfold slice_view at 1 in Hr. unread. unfold ToPolicy_mem.
  eapply yields_bind; [by apply labelSelectorToPolicy_yields|]. intros sel h' Hs Hsel. eapply yields_observe; [still|].
  match goal with Hm : reads _ _ (vmapM rule_view _) ?rs |- _ =>
    apply reads_mapM in Hm as HF; eapply (yields_bind _ _ _ _ (vmapM prule_view) _ (toRule <$> rs)); [apply yields_mapM; [apply _|]|] end.
  { apply Forall2_fmap_r. eapply Forall2_impl; [exact HF|]. cbn beta. intros a b Hab h2 Hs2. apply toRule_yields. still. }
  intros prs h2 Hs2 Hprs. eapply yields_bind; [apply (of_list_yields _ _ prule_view); [apply _|exact Hprs]|].
  intros rs h3 Hs3 Hrs. apply yields_ret. reread.
Qed.
End conversion.

(** ** Folding and aggregation *)
Record HCluster := { hc_Name : string; hc_Policy : option HPolicy }.
Record HNamespaced := { hn_Namespace : string; hn_Name : string; hn_Policy : option HPolicy }.

Section aggregation.
Context `{MetaTypes}.
(** The two halves of [foldInto]: a new map when the subject has labels, a new slice
    when it has expressions. *)
Definition merge_labels (sl : gmap string string) (labels : option loc) : mem cell (option loc) :=
  if bool_decide (sl ≠ ∅) then pl ← observe (labels_view labels); l ← alloc (LabelMap (sl ∪ pl)); mret (Some l) else mret labels.
Definition append_exprs (se : list HRequirement) (exprs : option slice) : mem cell (option slice) :=
  if bool_decide (se ≠ []) then pe ← observe (elems exprs); of_list (pe ++ se) else mret exprs.
Definition foldInto_mem (s : option HSelector) (p : HPodSelector) : mem cell HPodSelector :=
  sub ← observe (subject_view s);
  if LabelSelector_Empty sub then mret p
  else match s with
  | None => mret p
  | Some s =>
      sl ← observe (labels_view (hs_MatchLabels s));
      labels ← merge_labels sl (hd_Labels p);
      se ← observe (elems (A := HRequirement) (hs_MatchExpressions s));
      exprs ← append_exprs se (hd_MatchExpressions p);
      mret {| hd_Namespace := hd_Namespace p; hd_Name := hd_Name p; hd_UID := hd_UID p; hd_Labels := labels; hd_MatchExpressions := exprs |}
  end.
Definition set_pod (r : PRule) (p : HPodSelector) : PRule :=
  {| pr_Name := pr_Name r; pr_Action := pr_Action r; pr_Mutations := pr_Mutations r;
     pr_Match := {| pm_Pod := p; pm_Domains := pm_Domains (pr_Match r); pm_CIDRs := pm_CIDRs (pr_Match r); pm_Ports := pm_Ports (pr_Match r);
                    pm_Methods := pm_Methods (pr_Match r); pm_PathPrefix := pm_PathPrefix (pr_Match r) |} |}.
Definition set_namespace (p : HPodSelector) (ns : string) : HPodSelector :=
  {| hd_Namespace := ns; hd_Name := hd_Name p; hd_UID := hd_UID p; hd_Labels := hd_Labels p; hd_MatchExpressions := hd_MatchExpressions p |}.
Definition foldRule_mem (r : PRule) (subject : option HSelector) (namespace : string) : mem cell PRule :=
  let out := if bool_decide (namespace ≠ "") then set_pod r (set_namespace (pm_Pod (pr_Match r)) namespace) else r in
  p ← foldInto_mem subject (pm_Pod (pr_Match out)); mret (set_pod out p).
Definition subjectCatchAll_mem (name : string) (subject : option HSelector) (namespace : string) : mem cell PRule :=
  let r := {| pr_Name := name; pr_Action := ActionDeny; pr_Mutations := None;
              pr_Match := {| pm_Pod := set_namespace HPodSelector_zero namespace; pm_Domains := None; pm_CIDRs := None; pm_Ports := None;
                             pm_Methods := None; pm_PathPrefix := "" |} |} in
  p ← foldInto_mem subject (pm_Pod (pr_Match r)); mret (set_pod r p).

Definition hcluster_less (a b : HCluster) : bool := String.ltb (hc_Name a) (hc_Name b).
Definition hns_less (a b : HNamespaced) : bool :=
  if bool_decide (hn_Namespace a ≠ hn_Namespace b)
  then String.ltb (hn_Namespace a) (hn_Namespace b) else String.ltb (hn_Name a) (hn_Name b).
Definition cluster_step_mem (st : list PRule * string * list PRule) (c : HCluster) : mem cell (list PRule * string * list PRule) :=
  let '(rules, def, catch) := st in
  match hc_Policy c with
  | None => mret st
  | Some p =>
      let sub := hp_PodSelector p in
      rs ← observe (elems (A := PRule) (hp_Rules p));
      folded ← mmapM (λ r, foldRule_mem r sub "") rs;
      pol ← observe (policy_view p);
      if bool_decide (EffectiveDefault (Some pol) = PostureDeny) then
        if LabelSelector_Empty (p_PodSelector pol) then mret (rules ++ folded, PostureDeny, catch)
        else r ← subjectCatchAll_mem ("cluster-default-deny/" +:+ hc_Name c) sub ""; mret (rules ++ folded, def, catch ++ [r])
      else mret (rules ++ folded, def, catch)
  end.
Definition ns_rules_step_mem (rules : list PRule) (n : HNamespaced) : mem cell (list PRule) :=
  match hn_Policy n with
  | None => mret rules
  | Some p =>
      rs ← observe (elems (A := PRule) (hp_Rules p));
      folded ← mmapM (λ r, foldRule_mem r (hp_PodSelector p) (hn_Namespace n)) rs;
      mret (rules ++ folded)
  end.
Definition ns_catch_step_mem (rules : list PRule) (n : HNamespaced) : mem cell (list PRule) :=
  match hn_Policy n with
  | None => mret rules
  | Some p =>
      pol ← observe (policy_view p);
      if bool_decide (EffectiveDefault (Some pol) ≠ PostureDeny) then mret rules
      else r ← subjectCatchAll_mem ("ns-default-deny/" +:+ hn_Namespace n +:+ "/" +:+ hn_Name n) (hp_PodSelector p) (hn_Namespace n); mret (rules ++ [r])
  end.
Definition Aggregate_mem (cluster : list HCluster) (namespaced : list HNamespaced) : mem cell HPolicy :=
  let cl := sort_slice hcluster_less cluster in
  let ns := sort_slice hns_less namespaced in
  st ← mfoldM cluster_step_mem ([], PostureAllow, []) cl;
  let '(rules, def, catch) := st in
  rules ← mfoldM ns_rules_step_mem rules ns;
  rules ← mfoldM ns_catch_step_mem (rules ++ catch) ns;
  out ← of_list rules;
  mret {| hp_PodSelector := None; hp_DefaultAction := def; hp_Rules := out |}.

(** *** The same values, on old memory left alone *)
Lemma merge_labels_yields D h sl labels pl :
  reads D h (labels_view labels) pl → yields D h (merge_labels sl labels) labels_view (if bool_decide (sl ≠ ∅) then sl ∪ pl else pl).
Proof.
  intros Hr. unfold merge_labels. case_bool_decide; [|by apply yields_ret]. eapply yields_observe; [exact Hr|].
  eapply (yields_bind _ _ _ _ (λ l, labels_view (Some l))); [|intros l h' _ Hl; by apply yields_ret].
  apply yields_alloc. intros l Hl Hd. apply reads_bind. eexists. split; [apply reads_read; split; [apply lookup_insert_eq|done]|by apply reads_of].
Qed.
Lemma append_exprs_yields D h se sv exprs pv :
  reads D h (vmapM preq_view se) sv → reads D h (slice_view preq_view exprs) pv →
  yields D h (append_exprs se exprs) (slice_view preq_view) (if bool_decide (sv ≠ []) then pv ++ sv else pv).
Proof.
  intros Hse Hp. apply reads_bind in Hp as (pe & Hpe & Hpv). apply reads_mapM in Hse as HF. unfold append_exprs.
  rewrite !bool_decide_not, (Forall2_nil_iff _ _ _ HF), <-!bool_decide_not.
  case_bool_decide; [|apply yields_ret; apply reads_bind; by exists pe]. eapply yields_observe; [exact Hpe|].
  apply of_list_yields; [apply _|]. apply reads_mapM, Forall2_app; [by apply reads_mapM|done].
Qed.
Lemma foldInto_yields D h s p sx px :
  reads D h (subject_view s) sx → reads D h (pod_view p) px → yields D h (foldInto_mem s p) pod_view (foldInto sx px).
Proof.
  intros Hs Hp. eapply yields_observe; [exact Hs|]. unfold foldInto. destruct (LabelSelector_Empty sx) eqn:Ee; [by apply yields_ret|].
  destruct s as [s|]; cbn [subject_view] in Hs; [|by apply reads_ret in Hs; subst]. unfold psel_view in Hs.
  apply reads_bind in Hs as (? & Hs & <-%reads_ret). apply reads_bind in Hs as (sl & Hsl & Hs). apply reads_bind in Hs as (sv & Hse & <-%reads_ret).
  apply reads_bind in Hse as (se & Hse & Hsv). unfold pod_view in Hp. unread.
  eapply yields_observe; [exact Hsl|]. eapply yields_bind; [by apply merge_labels_yields|].
  intros labels h1 Hs1 Hlabels. eapply yields_observe; [still|]. eapply yields_bind; [apply append_exprs_yields; still|].
  intros exprs h2 Hs2 Hexprs. apply yields_ret. reread.
Qed.
Lemma set_pod_reads D h r p rx px : reads D h (prule_view r) rx → reads D h (pod_view p) px → reads D h (prule_view (set_pod r p)) (with_pod rx px).
Proof.
  intros Hr Hp. unfold prule_view, pmatch_view in Hr. unread. unfold prule_view, pmatch_view.
  cbn [set_pod pr_Match pr_Mutations pm_Pod pm_Domains pm_CIDRs pm_Ports pm_Methods].
  apply reads_bind. eexists. split; [reread|]. reread.
Qed.
Lemma prule_pod D h r rx : reads D h (prule_view r) rx → reads D h (pod_view (pm_Pod (pr_Match r))) (m_Pod (r_Match rx)).
Proof. intros Hr. unfold prule_view, pmatch_view in Hr. unread. done. Qed.
Lemma set_namespace_reads D h p px ns : reads D h (pod_view p) px → reads D h (pod_view (set_namespace p ns)) (with_namespace px ns).
Proof. intros Hp. unfold pod_view in Hp. unread. unfold pod_view. cbn [set_namespace hd_Labels hd_MatchExpressions]. reread. Qed.
Lemma fold_pod_yields D h r rx s sx :
  reads D h (prule_view r) rx → reads D h (subject_view s) sx →
  yields D h (p ← foldInto_mem s (pm_Pod (pr_Match r)); mret (set_pod r p)) prule_view (with_pod rx (foldInto sx (m_Pod (r_Match rx)))).
Proof.
  intros Hr Hs. eapply yields_bind; [apply foldInto_yields; [done|by apply prule_pod]|]. intros p h' Hs' Hp.
  apply yields_ret, set_pod_reads; still.
Qed.
Lemma foldRule_yields D h r rx s sx ns :
  reads D h (prule_view r) rx → reads D h (subject_view s) sx → yields D h (foldRule_mem r s ns) prule_view (foldRule rx sx ns).
Proof.
  intros Hr Hs. apply fold_pod_yields; [|done]. unfold scope_rule. case_bool_decide; [|done].
  apply set_pod_reads; [done|]. by apply set_namespace_reads, prule_pod.
Qed.
Lemma subjectCatchAll_yields D h name s sx ns :
  reads D h (subject_view s) sx → yields D h (subjectCatchAll_mem name s ns) prule_view (subjectCatchAll name sx ns).
Proof.
  intros Hs. apply fold_pod_yields; [|done]. unfold prule_view, pmatch_view, pod_view, slice_view. 
  cbn [pr_Match pr_Mutations pm_Pod pm_Domains pm_CIDRs pm_Ports pm_Methods set_namespace HPodSelector_zero hd_Labels hd_MatchExpressions elems labels_view].
  reread_all.
Qed.

(** *** [Aggregate] *)
Definition cluster_view (c : HCluster) : view cell ClusterPolicy :=
  p ← match hc_Policy c with None => mret None | Some p => x ← policy_view p; mret (Some x) end;
  mret {| cp_Name := hc_Name c; cp_Policy := p |}.
Definition namespaced_view (n : HNamespaced) : view cell NamespacedPolicy :=
  p ← match hn_Policy n with None => mret None | Some p => x ← policy_view p; mret (Some x) end;
  mret {| np_Namespace := hn_Namespace n; np_Name := hn_Name n; np_Policy := p |}.
Definition loop_view (st : list PRule * string * list PRule) : view cell (list Rule * string * list Rule) :=
  rs ← vmapM prule_view st.1.1; cs ← vmapM prule_view st.2; mret (rs, st.1.2, cs).
#[export] Instance cluster_local c : Local (cluster_view c).
Proof. apply bind_local; [|apply _]. destruct (hc_Policy c); apply _. Qed.
#[export] Instance namespaced_local n : Local (namespaced_view n).
Proof. apply bind_local; [|apply _]. destruct (hn_Policy n); apply _. Qed.

Lemma reads_app {A V} D h (w : A → view cell V) l1 l2 x1 x2 :
  reads D h (vmapM w l1) x1 → reads D h (vmapM w l2) x2 → reads D h (vmapM w (l1 ++ l2)) (x1 ++ x2).
Proof. rewrite !reads_mapM. apply Forall2_app. Qed.
Lemma reads_single {A V} D h (w : A → view cell V) a x : reads D h (w a) x → reads D h (vmapM w [a]) [x].
Proof. rewrite reads_mapM. by repeat constructor. Qed.
Lemma policy_parts D h p px : reads D h (policy_view p) px →
  ∃ rs, reads D h (elems (hp_Rules p)) rs ∧ reads D h (vmapM prule_view rs) (Rules px) ∧ reads D h (subject_view (hp_PodSelector p)) (p_PodSelector px).
Proof. intros Hp. unfold policy_view, slice_view in Hp. unread. eauto. Qed.
Lemma fold_rules_yields D h rs rx s sx ns :
  reads D h (vmapM prule_view rs) rx → reads D h (subject_view s) sx →
  yields D h (mmapM (λ r, foldRule_mem r s ns) rs) (vmapM prule_view) ((λ r, foldRule r sx ns) <$> rx).
Proof.
  intros Hrs Hs. apply reads_mapM in Hrs. apply yields_mapM; [apply _|]. apply Forall2_fmap_r. eapply Forall2_impl; [exact Hrs|].
  cbn beta. intros r x Hr h' Hh. apply foldRule_yields; still.
Qed.
Lemma cluster_step_yields D h st x c cx :
  reads D h (loop_view st) x → reads D h (cluster_view c) cx → yields D h (cluster_step_mem st c) loop_view (cluster_step x cx).
Proof.
  intros Hst Hc. destruct st as [[rules def] catch]. unfold loop_view in Hst. cbn [fst snd] in Hst.
  apply reads_bind in Hst as (rx & Hrx & Hst). apply reads_bind in Hst as (kx & Hkx & <-%reads_ret).
  unfold cluster_view in Hc. apply reads_bind in Hc as (px & Hp & <-%reads_ret). unfold cluster_step_mem, cluster_step. cbn [cp_Policy cp_Name].
  destruct (hc_Policy c) as [p|]; [|apply reads_ret in Hp as <-; apply yields_ret; unfold loop_view; reread].
  apply reads_bind in Hp as (pol & Hpol & <-%reads_ret). destruct (policy_parts _ _ _ _ Hpol) as (rs & Hrs & Hrv & Hsub).
  eapply yields_observe; [exact Hrs|]. eapply yields_bind; [by apply fold_rules_yields|]. intros folded h1 Hs1 Hf.
  eapply yields_observe; [still|].
  assert (reads D h1 (vmapM prule_view (rules ++ folded)) (rx ++ ((λ r, foldRule r (p_PodSelector pol) "") <$> Rules pol))) as Hall by (apply reads_app; still).
  destruct (bool_decide (_ = _)); [destruct (LabelSelector_Empty _)|]; [apply yields_ret; unfold loop_view; cbn [fst snd]; reread| |apply yields_ret; unfold loop_view; cbn [fst snd]; reread].
  eapply yields_bind; [apply subjectCatchAll_yields; still|]. intros r h2 Hs2 Hr. apply yields_ret. unfold loop_view. cbn [fst snd].
  apply reads_single in Hr. assert (reads D h2 (vmapM prule_view (catch ++ [r])) (kx ++ [subjectCatchAll ("cluster-default-deny/" +:+ hc_Name c) (p_PodSelector pol) ""])) by (apply reads_app; still).
  reread.
Qed.
Lemma ns_rules_step_yields D h rules rx n nx :
  reads D h (vmapM prule_view rules) rx → reads D h (namespaced_view n) nx →
  yields D h (ns_rules_step_mem rules n) (vmapM prule_view) (ns_rules_step rx nx).
Proof.
  intros Hr Hn. unfold namespaced_view in Hn. apply reads_bind in Hn as (px & Hp & <-%reads_ret).
  unfold ns_rules_step_mem, ns_rules_step. cbn [np_Policy np_Namespace].
  destruct (hn_Policy n) as [p|]; [|apply reads_ret in Hp as <-; by apply yields_ret].
  apply reads_bind in Hp as (pol & Hpol & <-%reads_ret). destruct (policy_parts _ _ _ _ Hpol) as (rs & Hrs & Hrv & Hsub).
  eapply yields_observe; [exact Hrs|]. eapply yields_bind; [by apply fold_rules_yields|]. intros folded h1 Hs1 Hf.
  apply yields_ret, reads_app; still.
Qed.
Lemma ns_catch_step_yields D h rules rx n nx :
  reads D h (vmapM prule_view rules) rx → reads D h (namespaced_view n) nx →
  yields D h (ns_catch_step_mem rules n) (vmapM prule_view) (ns_catch_step rx nx).
Proof.
  intros Hr Hn. unfold namespaced_view in Hn. apply reads_bind in Hn as (px & Hp & <-%reads_ret).
  unfold ns_catch_step_mem, ns_catch_step. cbn [np_Policy np_Namespace np_Name].
  destruct (hn_Policy n) as [p|]; [|apply reads_ret in Hp as <-; by apply yields_ret].
  apply reads_bind in Hp as (pol & Hpol & <-%reads_ret). destruct (policy_parts _ _ _ _ Hpol) as (rs & Hrs & Hrv & Hsub).
  eapply yields_observe; [exact Hpol|]. destruct (bool_decide (_ ≠ _)); [by apply yields_ret|].
  eapply yields_bind; [by apply subjectCatchAll_yields|]. intros r h1 Hs1 Hr1. apply reads_single in Hr1. apply yields_ret, reads_app; still.
Qed.
Lemma sort_slice_Forall2 {A B} (R : A → B → Prop) less less' l k :
  (∀ a b x y, R a x → R b y → less a b = less' x y) → Forall2 R l k → Forall2 R (sort_slice less l) (sort_slice less' k).
Proof.
  intros Hless. induction 1 as [|a x l k Ha _ IH]; [constructor|]. cbn [sort_slice foldr]. fold (sort_slice less l) (sort_slice less' k).
  induction IH as [|b y l' k' Hb Hl IH']; cbn [insert_by]; [by repeat constructor|]. rewrite (Hless b a y x) by done.
  destruct (less' y x); by repeat constructor.
Qed.
Lemma Aggregate_yields D h cl clx ns nsx :
  reads D h (vmapM cluster_view cl) clx → reads D h (vmapM namespaced_view ns) nsx →
  yields D h (Aggregate_mem cl ns) policy_view (Aggregate clx nsx).
Proof.
  intros Hcl Hns. apply reads_mapM in Hcl, Hns.
  apply (sort_slice_Forall2 _ hcluster_less cluster_less) in Hcl; [|intros a b x y Ha Hb; unfold cluster_view in Ha, Hb; unread; done].
  apply (sort_slice_Forall2 _ hns_less ns_less) in Hns; [|intros a b x y Ha Hb; unfold namespaced_view in Ha, Hb; unread; done].
  unfold Aggregate_mem, Aggregate, aggregate_sorted.
  eapply yields_bind; [apply (yields_foldM _ _ _ loop_view cluster_step cluster_view); [apply _|intros; by apply cluster_step_yields|exact Hcl|unfold loop_view; cbn [fst snd]; reread_all]|].
  intros [[rules def] catch] h1 Hs1 Hst. destruct (fold_left cluster_step _ _) as [[rx dx] kx].
  unfold loop_view in Hst. cbn [fst snd] in Hst. unread. simplify_eq.
  eapply yields_bind; [apply (yields_foldM _ _ _ (vmapM prule_view) ns_rules_step namespaced_view); [apply _|intros; by apply ns_rules_step_yields| |done]|].
  { eapply Forall2_impl; [exact Hns|]. cbn beta. intros. still. }
  intros rules2 h2 Hs2 Hr2.
  eapply yields_bind; [apply (yields_foldM _ _ _ (vmapM prule_view) ns_catch_step namespaced_view); [apply _|intros; by apply ns_catch_step_yields| |apply reads_app; still]|].
  { eapply Forall2_impl; [exact Hns|]. cbn beta. intros. still. }
  intros rules3 h3 Hs3 Hr3. eapply yields_bind; [by apply (of_list_yields _ _ prule_view); [apply _|]|]. intros out h4 Hs4 Hout.
  apply yields_ret. unfold policy_view. cbn [hp_PodSelector subject_view hp_Rules]. reread_all.
Qed.
End aggregation.

(** ** [ScopeToNamespace] writes in place *)
Section scope.
Context `{MetaTypes}.
Definition ScopeToNamespace_mem (p : HPolicy) (namespace : string) : mem cell unit :=
  match hp_Rules p with
  | None => mret tt
  | Some s => update_loop (λ r, set_pod r (set_namespace (pm_Pod (pr_Match r)) namespace)) s 0 (sl_len s)
  end.
(** No rule refers to an array of rules. *)
Lemma labels_avoids h l xs p : h !! l = Some (PRules xs) → Avoids h l (labels_view p).
Proof.
  intros Hl. destruct p as [k|]; intros D m; [|intros <-%reads_ret; by apply reads_ret]. cbn [labels_view]. rewrite !reads_bind.
  intros (z & [Hz Hd]%reads_read & Hm%reads_of). exists z. rewrite reads_read, reads_of. split; [|done]. split; [done|].
  assert (k ≠ l) by (intros ->; simplify_eq). set_solver.
Qed.
Lemma prule_avoids h l xs r : h !! l = Some (PRules xs) → Avoids h l (prule_view r).
Proof.
  intros Hl. assert (∀ s, Avoids h l (elems (A := string) s)) by (intros; by eapply elems_avoids).
  assert (∀ s, Avoids h l (elems (A := Z) s)) by (intros; by eapply elems_avoids).
  assert (∀ s, Avoids h l (elems (A := Mutation) s)) by (intros; by eapply elems_avoids).
  assert (∀ s, Avoids h l (elems (A := HRequirement) s)) by (intros; by eapply elems_avoids).
  assert (∀ p, Avoids h l (labels_view p)) by (intros; by eapply labels_avoids).
  unfold prule_view, pmatch_view, pod_view, slice_view, preq_view. apply _.
Qed.
Lemma scope_rule_reads D h r x ns : reads D h (prule_view r) x →
  reads D h (prule_view (set_pod r (set_namespace (pm_Pod (pr_Match r)) ns))) (with_pod x (with_namespace (m_Pod (r_Match x)) ns)).
Proof. intros Hr. apply set_pod_reads; [done|]. by apply set_namespace_reads, prule_pod. Qed.
Lemma subject_avoids h l xs s : h !! l = Some (PRules xs) → Avoids h l (subject_view s).
Proof.
  intros Hl. destruct s as [s|]; cbn [subject_view]; [|apply _].
  assert (∀ s, Avoids h l (elems (A := string) s)) by (intros; by eapply elems_avoids).
  assert (∀ s, Avoids h l (elems (A := HRequirement) s)) by (intros; by eapply elems_avoids).
  assert (∀ p, Avoids h l (labels_view p)) by (intros; by eapply labels_avoids).
  unfold psel_view, slice_view, preq_view. apply _.
Qed.
(** Views that read no array of rules. *)
Definition avoids_rules {V} (h : heap cell) (v : view cell V) : Prop := ∀ l xs, h !! l = Some (PRules xs) → Avoids h l v.
(** The policy's own array of rules is written, and nothing the policy shares. *)
Lemma ScopeToNamespace_run D h p px ns :
  reads D h (policy_view p) px →
  ∃ h' px', ScopeToNamespace_mem p ns h = Some (tt, h') ∧ ScopeToNamespace (Some px) ns = Some px' ∧
    (∀ k, k ∈ D → h' !! k = h !! k) ∧ reads D h' (policy_view p) px' ∧
    (∀ V (v : view cell V) D' x, Local v → avoids_rules h v → reads D' h v x → reads D' h' v x).
Proof.
  intros Hp. unfold policy_view in Hp. apply reads_bind in Hp as (sx & Hsx & Hp). apply reads_bind in Hp as (rx & Hr & <-%reads_ret).
  unfold ScopeToNamespace_mem, ScopeToNamespace. cbn [fmap option_fmap option_map]. apply reads_bind in Hr as (rs & Hrs & Hrx).
  destruct (hp_Rules p) as [s|] eqn:Es; [|apply reads_ret in Hrs as <-; apply reads_ret in Hrx as <-; eexists h, _].
  2: { split; [done|]. split; [done|]. split; [done|]. split; [|done]. unfold policy_view. rewrite Es. cbn [fmap list_fmap Rules]. unfold slice_view. cbn [elems]. reread_all. }
  cbn [elems] in Hrs. apply reads_bind in Hrs as (xs & Hxs & Hrs). case_bool_decide as Hlen; [|by apply reads_of in Hrs]. apply reads_ret in Hrs as <-.
  apply reads_bind in Hxs as (z & [Hz Hd]%reads_read & Hproj%reads_of). destruct z as [| | | | | | | | | | | | |ys|]; simplify_eq/=. set (l := sl_arr s) in *.
  eexists _, _. split; [apply (update_loop_run _ s _ 0 h xs); [exact Hz|lia]|]. split; [done|]. fold l. rewrite Nat.add_0_r.
  set (set_ns := λ r, set_pod r _). set (xs' := take _ _ ++ _). split; [intros k Hk; apply lookup_insert_ne; set_solver|].
  assert (∀ V (v : view cell V) D' x, Local v → avoids_rules h v → reads D' h v x → reads D' (<[l := PRules xs']> h) v x) as Hkeep.
  { intros V v D' x Hv Ha Hx. apply (reads_weaken (D' ∪ {[l]})); [set_solver|]. apply reads_insert; [done|set_solver|by eapply Ha]. }
  split; [|exact Hkeep].
  unfold policy_view. rewrite Es. apply reads_bind. exists sx. split; [apply Hkeep; [apply _|by intros ? ?; apply subject_avoids|done]|].
  apply reads_bind. eexists. split; [|by apply reads_ret]. cbn [Rules]. apply reads_bind.
  exists (set_ns <$> take (sl_len s) (drop (sl_off s) xs)). split.
  - cbn [elems]. apply reads_bind. exists xs'. split; [apply reads_array; [apply lookup_insert_eq|done]|].
    unfold xs'. rewrite bool_decide_true by (rewrite !length_app, length_fmap, length_take, length_take, !length_drop; lia).
    rewrite reads_ret, drop_app_length', take_app_length'; [done|rewrite length_fmap, length_take, length_drop; lia|rewrite length_take; lia].
  - apply reads_mapM in Hrx. apply reads_mapM, Forall2_fmap. eapply Forall2_impl; [exact Hrx|]. cbn beta. intros r x Hr.
    apply scope_rule_reads, Hkeep; [apply _|by intros ? ?; apply prule_avoids|done].
Qed.
End scope.

(** ** From the informer cache *)
Section cache.
Context `{MetaV1}.
(** How the cache's client hands out an object: a copy made by its [DeepCopyObject]. *)
Definition copied_item (t : object_type) (l : loc) : mem cell HObject :=
  o ← DeepCopyObject t (Some l);
  match o with Some (_, Some l') => observe (variable l') | _ => λ _, None end.
(** The filtering loops of [rebuild]. *)
Definition accept_cluster_mem (acc : list HCluster) (cep : HObject) : mem cell (list HCluster) :=
  p ← ToPolicy_mem (ho_Spec cep); pol ← observe (policy_view p);
  match Validate (Some pol) with
  | Some _ => mret acc
  | None => om ← observe (om_view (ho_ObjectMeta cep)); mret (acc ++ [{| hc_Name := v_Name om; hc_Policy := Some p |}])
  end.
Definition accept_ns_mem (acc : list HNamespaced) (ep : HObject) : mem cell (list HNamespaced) :=
  p ← ToPolicy_mem (ho_Spec ep); pol ← observe (policy_view p);
  match Validate (Some pol) with
  | Some _ => mret acc
  | None => om ← observe (om_view (ho_ObjectMeta ep));
            mret (acc ++ [{| hn_Namespace := v_Namespace om; hn_Name := v_Name om; hn_Policy := Some p |}])
  end.
(** [rebuild] with the two [List] calls of the cache. *)
Definition rebuild_mem (list_cl list_ns : mem cell (list HObject)) : mem cell HPolicy :=
  cls ← list_cl; nss ← list_ns;
  cluster ← mfoldM accept_cluster_mem [] cls;
  namespaced ← mfoldM accept_ns_mem [] nss;
  Aggregate_mem cluster namespaced.

Definition as_cluster (x : PolicyObject) : ClusterEgressPolicy := {| cep_Name := v_Name (po_Meta x); cep_Spec := po_Spec x |}.
Definition as_namespaced (x : PolicyObject) : EgressPolicy :=
  {| ep_Namespace := v_Namespace (po_Meta x); ep_Name := v_Name (po_Meta x); ep_Spec := po_Spec x |}.

Lemma copied_item_yields D h t l x :
  t = TEgressPolicy ∨ t = TClusterEgressPolicy → reads ∅ h (pointer_view object_view l) x → yields D h (copied_item t l) object_view x.
Proof.
  intros Ht Hr HD. destruct (DeepCopyObject_spec t l h (inl x)) as (l' & h' & E & Hs & Hc).
  { destruct Ht as [-> | ->]; apply reads_bind; exists x; by rewrite reads_ret. }
  assert (reads (dom h) h' (pointer_view object_view l') x) as Hx.
  { destruct Ht as [-> | ->]; apply reads_bind in Hc as (y & Hy & [= ->]%reads_ret); done. }
  apply reads_bind in Hx as (o & Ho & Hx). exists o, h'. unfold copied_item, mbind, mem_bind. rewrite E, (observe_run (dom h) h' _ o) by done.
  split; [done|]. split; [done|]. by eapply reads_weaken.
Qed.
Lemma copied_items_yields D h t ls xs :
  t = TEgressPolicy ∨ t = TClusterEgressPolicy → reads ∅ h (vmapM (pointer_view object_view) ls) xs →
  yields D h (mmapM (copied_item t) ls) (vmapM object_view) xs.
Proof.
  intros Ht Hr. apply reads_mapM in Hr. apply yields_mapM; [apply _|]. eapply Forall2_impl; [exact Hr|]. cbn beta.
  intros l x Hl h' Hs. apply copied_item_yields; [done|still].
Qed.
Lemma fold_left_omap {A B} (f : A → option B) l acc : fold_left (λ acc a, acc ++ option_list (f a)) l acc = acc ++ omap f l.
Proof.
  revert acc. induction l as [|a l IH]; intros acc; simpl; [by rewrite app_nil_r|]. rewrite IH, <-app_assoc. by destruct (f a).
Qed.
Lemma omap_map {A B C} (f : B → option C) (g : A → B) (l : list A) : omap f (g <$> l) = omap (λ a, f (g a)) l.
Proof. induction l as [|a l IH]; simpl; [done|]. destruct (f (g a)); [f_equal|]; exact IH. Qed.
Lemma accept_cluster_yields D h os xs :
  reads D h (vmapM object_view os) xs →
  yields D h (mfoldM accept_cluster_mem [] os) (vmapM cluster_view) (accept_cluster (as_cluster <$> xs)).
Proof.
  intros Hr. apply reads_mapM in Hr. unfold accept_cluster. rewrite omap_map, <-(app_nil_l (omap _ xs)), <-fold_left_omap.
  apply (yields_foldM _ _ _ (vmapM cluster_view) _ object_view); [apply _| |done|by apply reads_ret].
  clear. intros h acc accx o x Hacc Ho. unfold object_view in Ho. apply reads_bind in Ho as (om & Hom & Ho). apply reads_bind in Ho as (sp & Hsp & Ho). unread.
  unfold accept_cluster_mem. eapply yields_bind; [by apply ToPolicy_yields|]. intros p h1 Hs1 Hp. eapply yields_observe; [exact Hp|].
  cbn [as_cluster cep_Spec cep_Name po_Spec po_Meta]. destruct (Validate _); [apply yields_ret; simpl; rewrite app_nil_r; still|].
  eapply yields_observe; [still|]. apply yields_ret, reads_app; [still|]. apply reads_single. unfold cluster_view. cbn [hc_Policy hc_Name]. reread_all.
Qed.
Lemma accept_ns_yields D h os xs :
  reads D h (vmapM object_view os) xs →
  yields D h (mfoldM accept_ns_mem [] os) (vmapM namespaced_view) (accept_ns (as_namespaced <$> xs)).
Proof.
  intros Hr. apply reads_mapM in Hr. unfold accept_ns. rewrite omap_map, <-(app_nil_l (omap _ xs)), <-fold_left_omap.
  apply (yields_foldM _ _ _ (vmapM namespaced_view) _ object_view); [apply _| |done|by apply reads_ret].
  clear. intros h acc accx o x Hacc Ho. unfold object_view in Ho. apply reads_bind in Ho as (om & Hom & Ho). apply reads_bind in Ho as (sp & Hsp & Ho). unread.
  unfold accept_ns_mem. eapply yields_bind; [by apply ToPolicy_yields|]. intros p h1 Hs1 Hp. eapply yields_observe; [exact Hp|].
  cbn [as_namespaced ep_Spec ep_Name ep_Namespace po_Spec po_Meta]. destruct (Validate _); [apply yields_ret; simpl; rewrite app_nil_r; still|].
  eapply yields_observe; [still|]. apply yields_ret, reads_app; [still|]. apply reads_single. unfold namespaced_view. cbn [hn_Policy hn_Name hn_Namespace]. reread_all.
Qed.
Lemma rebuild_yields list_cl list_ns cache_cl cache_ns h clx nsx :
  (∀ h, list_cl h = mmapM (copied_item TClusterEgressPolicy) cache_cl h) → (∀ h, list_ns h = mmapM (copied_item TEgressPolicy) cache_ns h) →
  reads ∅ h (vmapM (pointer_view object_view) cache_cl) clx → reads ∅ h (vmapM (pointer_view object_view) cache_ns) nsx →
  yields (dom h) h (rebuild_mem list_cl list_ns) policy_view (Aggregate (accept_cluster (as_cluster <$> clx)) (accept_ns (as_namespaced <$> nsx))).
Proof.
  intros Hlc Hln Hcl Hns.
  assert (∀ D h xs, reads ∅ h (vmapM (pointer_view object_view) cache_cl) xs → yields D h list_cl (vmapM object_view) xs) as Hc.
  { intros D h' xs Hr. unfold yields. rewrite Hlc. apply copied_items_yields; auto. }
  assert (∀ D h xs, reads ∅ h (vmapM (pointer_view object_view) cache_ns) xs → yields D h list_ns (vmapM object_view) xs) as Hn.
  { intros D h' xs Hr. unfold yields. rewrite Hln. apply copied_items_yields; auto. }
  eapply yields_bind; [by apply Hc|]. intros cls h1 Hs1 Hcls. eapply yields_bind; [apply Hn; still|]. intros nss h2 Hs2 Hnss.
  eapply yields_bind; [apply accept_cluster_yields; still|]. intros c h3 Hs3 Hcx. eapply yields_bind; [apply accept_ns_yields; still|].
  intros n h4 Hs4 Hnx. apply Aggregate_yields; still.
Qed.
End cache.

(** ** The operator *)
(** [meta.SetStatusCondition] on memory: it may write to the array of the conditions
    it is given or allocate another, and to nothing else. *)
Class StatusConditionsMem `{MetaTypes} `{StatusConditions} := {
  SetStatusCondition_mem : Condition → option slice → mem cell (option slice * bool);
  ssc_mem_spec cd s h cs fp : elems s h = Some (cs, fp) →
    ∃ s' h' fp', SetStatusCondition_mem cd s h = Some ((s', (SetStatusCondition cd cs).2), h') ∧
      elems s' h' = Some ((SetStatusCondition cd cs).1, fp') ∧
      (∀ k, k ∈ dom h → k ∉ fp → h' !! k = h !! k) ∧ (∀ k, k ∈ fp' → k ∈ fp ∨ k ∉ dom h)
}.

Section operator.
Context `{MetaV1} `{!StatusConditions} `{!StatusConditionsMem} (error_string : policy_error → string).
Definition refreshStatus_mem (st : HStatus) (generation ruleCount : Z) (validationErr : option policy_error) : mem cell (HStatus * bool) :=
  let changed1 := bool_decide (ht_ObservedGeneration st ≠ generation) in
  let changed2 := bool_decide (ht_RuleCount st ≠ ruleCount) in
  r ← SetStatusCondition_mem (accepted_condition error_string generation validationErr) (ht_Conditions st);
  mret ({| ht_ObservedGeneration := generation; ht_RuleCount := ruleCount; ht_Conditions := r.1 |}, changed1 || changed2 || r.2).
(** [Reconcile] of either kind after [get] has filled the local variable, or found
    nothing; the result is the status sent, if one is. *)
Definition reconcile_object (t : object_type) (obj : HObject) : mem cell (option HStatus) :=
  om ← observe (om_view (ho_ObjectMeta obj));
  p ← ToPolicy_mem (ho_Spec obj);
  (match t with TEgressPolicy => ScopeToNamespace_mem p (v_Namespace om) | _ => mret tt end);;
  pol ← observe (policy_view p);
  rules ← observe (elems (A := HRule) (hs_Rules (ho_Spec obj)));
  r ← refreshStatus_mem (ho_Status obj) (v_Generation om) (int32 (length rules)) (Validate (Some pol));
  mret (match r with (st, true) => Some st | (_, false) => None end).
Definition Reconcile_mem (t : object_type) (get : mem cell (option HObject)) : mem cell (option HStatus) :=
  o ← get; match o with None => mret None | Some obj => reconcile_object t obj end.
(** The same object for the pure model. *)
Definition as_meta (x : PolicyObject) : object_meta := {| Generation := v_Generation (po_Meta x); o_Status := po_Status x |}.
Definition Reconcile_value (t : object_type) (x : PolicyObject) : option EgressPolicyStatus :=
  match t with
  | TEgressPolicy => EgressPolicy_Reconcile error_string (Some (as_namespaced x, as_meta x))
  | _ => ClusterEgressPolicy_Reconcile error_string (Some (as_cluster x, as_meta x))
  end.
Lemma reads_slice_ret {A} `{!Elem cell A} D h s (xs : list A) : reads D h (slice_view (mret (M := view cell)) s) xs ↔ reads D h (elems s) xs.
Proof.
  unfold slice_view. rewrite reads_bind. split.
  - intros (ys & Hy & Hr). apply reads_mapM in Hr. assert (ys = xs) as ->; [|done].
    clear -Hr. induction Hr as [|y x ys xs Hy _ ->]; [done|]. by apply reads_ret in Hy as ->.
  - intros Hx. exists xs. split; [done|]. apply reads_mapM, Forall2_same_length_lookup. split; [done|]. intros i x y ? ?. simplify_eq. by apply reads_ret.
Qed.
Lemma refreshStatus_run D h st stx gen n err :
  D ⊆ dom h → reads D h (status_view st) stx →
  ∃ st' h', refreshStatus_mem st gen n err h = Some ((st', (refreshStatus error_string stx gen n err).2), h') ∧
    (∀ k, k ∈ D → h' !! k = h !! k) ∧ reads D h' (status_view st') (refreshStatus error_string stx gen n err).1.
Proof.
  intros HD Hr. unfold status_view in Hr. apply reads_bind in Hr as (cs & Hcs & <-%reads_ret). apply reads_slice_ret in Hcs as (fp & E & Hd).
  destruct (ssc_mem_spec (accepted_condition error_string gen err) _ h cs fp E) as (s' & h' & fp' & Hrun & E' & Hold & Hnew).
  unfold refreshStatus_mem, refreshStatus, mbind, mem_bind. rewrite Hrun. cbn [st_Conditions st_ObservedGeneration st_RuleCount].
  destruct (SetStatusCondition _ cs) as [cs' ch]. eexists _, _. split; [done|]. split; [intros k Hk; apply Hold; set_solver|].
  unfold status_view. cbn [fst snd ht_Conditions]. apply reads_bind. exists cs'. split; [|by apply reads_ret]. apply reads_slice_ret.
  exists fp'. split; [done|]. intros k Hk Hk'. destruct (Hnew k Hk); set_solver.
Qed.
Lemma same_on_dom (h h' : heap cell) : (∀ k, k ∈ dom h → h' !! k = h !! k) → h ⊆ h'.
Proof. intros Hk. apply map_subseteq_spec. intros k y Hy. rewrite Hk; [done|]. by apply elem_of_dom_2 in Hy. Qed.
(** The policy that is validated: the namespaced one is scoped in place. *)
Definition validated (t : object_type) (ns : string) (pol : Policy) : option Policy :=
  match t with TEgressPolicy => ScopeToNamespace (Some pol) ns | _ => Some pol end.
Lemma scope_run t D h p px ns :
  reads D h (policy_view p) px →
  ∃ h' px', (match t with TEgressPolicy => ScopeToNamespace_mem p ns | _ => mret tt end) h = Some (tt, h') ∧
    validated t ns px = Some px' ∧ (∀ k, k ∈ D → h' !! k = h !! k) ∧ reads D h' (policy_view p) px' ∧
    (∀ V (v : view cell V) D' x, Local v → avoids_rules h v → reads D' h v x → reads D' h' v x).
Proof. intros Hp. destruct t; [by apply ScopeToNamespace_run|by exists h, px..]. Qed.
Lemma reconcile_run t (h0 h : heap cell) o x :
  t = TEgressPolicy ∨ t = TClusterEgressPolicy → dom h0 ⊆ dom h → reads (dom h0) h (object_view o) x →
  ∃ r h', reconcile_object t o h = Some (r, h') ∧ (∀ k, k ∈ dom h0 → h' !! k = h !! k) ∧
    match r with None => Reconcile_value t x = None | Some st => ∃ stx, reads (dom h0) h' (status_view st) stx ∧ Reconcile_value t x = Some stx end.
Proof.
  intros Ht HD Hr. unfold object_view in Hr. apply reads_bind in Hr as (om & Hom & Hr). apply reads_bind in Hr as (sp & Hsp & Hr).
  apply reads_bind in Hr as (stx & Hst & <-%reads_ret).
  destruct (ToPolicy_yields (dom h0) h (ho_Spec o) sp Hsp HD) as (p & h1 & E1 & Hs1 & Hp).
  destruct (scope_run t (dom h0) h1 p _ (v_Namespace om) Hp) as (h2 & px & E2 & Hpx & Hs2 & Hp2 & Hkeep).
  assert (∃ rs, reads (dom h0) h2 (elems (A := HRule) (hs_Rules (ho_Spec o))) rs ∧ length rs = length (s_Rules sp)) as (rs & Hrs & Hlen).
  { unfold spec_view, slice_view in Hsp. apply reads_bind in Hsp as (? & _ & Hsp). apply reads_bind in Hsp as (rx & Hsl & <-%reads_ret).
    apply reads_bind in Hsl as (rs & Hrs & Hrx). apply reads_mapM, Forall2_length in Hrx. exists rs. split; [|done].
    apply Hkeep; [apply _|by intros l xs Hl; eapply elems_avoids|still]. }
  assert (reads (dom h0) h2 (status_view (ho_Status o)) stx) as Hst2.
  { apply Hkeep; [apply _| |still]. intros l xs Hl. unfold status_view, slice_view.
    assert (∀ s, Avoids h1 l (elems (A := Condition) s)) by (intros; by eapply elems_avoids). apply _. }
  assert (dom h0 ⊆ dom h2) as HD2.
  { intros k Hk. apply elem_of_dom. rewrite Hs2 by done. apply HD, elem_of_dom in Hk as [y Hy]. exists y. by eapply lookup_weaken. }
  destruct (refreshStatus_run (dom h0) h2 _ stx (v_Generation om) (int32 (length rs)) (Validate (Some px)) HD2 Hst2) as (st' & h3 & E3 & Hs3 & Hst3).
  unfold reconcile_object, mbind, mem_bind. rewrite (observe_run _ _ _ _ Hom), E1, E2, (observe_run _ _ _ _ Hp2), (observe_run _ _ _ _ Hrs), E3.
  eexists _, h3. split; [done|]. split.
  { intros k Hk. rewrite Hs3, Hs2 by done. apply HD, elem_of_dom in Hk as [y Hy]. rewrite Hy. by eapply lookup_weaken. }
  assert (Reconcile_value t {| po_TypeMeta := ho_TypeMeta o; po_Meta := om; po_Spec := sp; po_Status := stx |} =
    let '(st, changed) := refreshStatus error_string stx (v_Generation om) (int32 (length rs)) (Validate (Some px)) in if changed then Some st else None) as ->.
  { rewrite Hlen, <-Hpx. by destruct Ht as [-> | ->]. }
  destruct (refreshStatus _ _ _ _ _) as [st'' [|]]; cbn [fst snd] in *; [by exists st''|done].
Qed.
End operator.

(** ** What the program relies on *)

(** C17: a rebuild shares memory safely.  With a cache whose List hands out copies made
    by [DeepCopyObject], a whole [rebuild] (conversion, validation, folding and
    aggregation, sharing slices and maps as they do) terminates, writes to nothing
    that existed before, and its policy reads as the aggregate of the accepted
    resources; the policy does not reach the cache's memory, so it keeps its value
    whatever is done to the cached objects later. *)
Theorem rebuild_isolated `{MetaV1} list_cl list_ns cache_cl cache_ns h clx nsx :
  (∀ h, list_cl h = mmapM (copied_item TClusterEgressPolicy) cache_cl h) → (∀ h, list_ns h = mmapM (copied_item TEgressPolicy) cache_ns h) →
  reads ∅ h (vmapM (pointer_view object_view) cache_cl) clx → reads ∅ h (vmapM (pointer_view object_view) cache_ns) nsx →
  let agg := Aggregate (accept_cluster (as_cluster <$> clx)) (accept_ns (as_namespaced <$> nsx)) in
  ∃ p h', rebuild_mem list_cl list_ns h = Some (p, h') ∧ h ⊆ h' ∧ reads ∅ h' (policy_view p) agg ∧
    ∀ h2, (∀ k, k ∉ dom h → h2 !! k = h' !! k) → reads ∅ h2 (policy_view p) agg.
Proof.
  intros Hlc Hln Hcl Hns agg. destruct (rebuild_yields list_cl list_ns cache_cl cache_ns h clx nsx Hlc Hln Hcl Hns) as (p & h' & E & Hs & Hr); [done|].
  exists p, h'. split; [done|]. split; [done|]. split; [eapply reads_weaken; [|exact Hr]; set_solver|]. intros h2 Hsame.
  destruct Hr as (fp & Ev & Hd). exists fp. split; [|set_solver]. apply (local h'); [done|]. intros k Hk. apply Hsame. set_solver.
Qed.

(** C18: a reconcile leaves the cache alone.  Where the client's Get hands out a copy made
    by [DeepCopyObject], [Reconcile] terminates, changes nothing in the memory that
    existed before (though [ScopeToNamespace] and [SetStatusCondition] write in
    place), and the status it sends, if any, is the one the pure model computes from
    the cached object. *)
Theorem reconcile_isolated `{MetaV1} `{!StatusConditions} `{!StatusConditionsMem} error_string t get l h x :
  t = TEgressPolicy ∨ t = TClusterEgressPolicy →
  (∀ h, get h = (o ← copied_item t l; mret (Some o)) h) → reads ∅ h (pointer_view object_view l) x →
  ∃ r h', Reconcile_mem error_string t get h = Some (r, h') ∧ h ⊆ h' ∧ reads ∅ h' (pointer_view object_view l) x ∧
    match r with
    | None => Reconcile_value error_string t x = None
    | Some st => ∃ stx, reads (dom h) h' (status_view st) stx ∧ Reconcile_value error_string t x = Some stx
    end.
Proof.
  intros Ht Hget Hx. destruct (copied_item_yields (dom h) h t l x Ht Hx) as (o & h1 & E & Hs & Ho); [done|].
  destruct (reconcile_run error_string t h h1 o x Ht (subseteq_dom _ _ Hs) Ho) as (r & h' & E' & Hsame & Hr).
  assert (h ⊆ h') as Hs'.
  { apply same_on_dom. intros k Hk. rewrite Hsame by done. apply elem_of_dom in Hk as [y Hy]. rewrite Hy. by eapply lookup_weaken. }
  exists r, h'. split; [|split; [done|split; [still|done]]].
  unfold Reconcile_mem, mbind, mem_bind. rewrite Hget. unfold mbind, mem_bind. rewrite E. exact E'.
Qed.

(** ** Instances *)
Module KubeStatus.
Import Kube.
#[export] Existing Instance meta_conditions.
(** [meta.SetStatusCondition] overwrites an entry in place and appends a new one. *)
Definition set_condition_mem (cd : Condition) (s : option slice) : mem cell (option slice * bool) :=
  cs ← observe (elems s);
  let '(cs', changed) := set_condition cd cs in
  match s with
  | Some sl =>
      if bool_decide (length cs' = sl_len sl)
      then xs ← observe (array (sl_arr sl)); store (sl_arr sl) (inj (take (sl_off sl) xs ++ cs' ++ drop (sl_off sl + sl_len sl) xs));; mret (s, changed)
      else s' ← of_list cs'; mret (s', changed)
  | None => s' ← of_list cs'; mret (s', changed)
  end.
Lemma fresh_conditions (h : heap cell) (cs : list Condition) : ∃ s' h' fp', of_list cs h = Some (s', h') ∧ elems s' h' = Some (cs, fp') ∧
  (∀ k, k ∈ dom h → h' !! k = h !! k) ∧ (∀ k, k ∈ fp' → k ∉ dom h).
Proof.
  destruct (of_list_elems (dom h) h cs) as (s' & h' & E & Hs & (fp' & E' & Hd)); [done|]. exists s', h', fp'. split; [done|]. split; [done|].
  split; [|set_solver]. intros k [y Hy]%elem_of_dom. rewrite Hy. by eapply lookup_weaken.
Qed.
#[export] Program Instance conditions_mem : StatusConditionsMem := {| SetStatusCondition_mem := set_condition_mem |}.
Next Obligation.
  intros cd s h cs fp E. unfold set_condition_mem, mbind, mem_bind. rewrite (observe_run ∅ h _ cs) by (exists fp; split; [done|set_solver]).
  change (SetStatusCondition cd cs) with (set_condition cd cs). destruct (set_condition cd cs) as [cs' ch]. cbn [fst snd].
  destruct (fresh_conditions h cs') as (s' & h' & fp' & E1 & E2 & Hold & Hnew).
  assert (∀ (sx : option slice), ∃ s0 h0 fp0, (s'0 ← of_list cs'; mret (s'0, ch)) h = Some ((s0, ch), h0) ∧ elems s0 h0 = Some (cs', fp0) ∧
    (∀ k, k ∈ dom h → k ∉ fp → h0 !! k = h !! k) ∧ (∀ k, k ∈ fp0 → k ∈ fp ∨ k ∉ dom h)) as Hfresh.
  { intros _. exists s', h', fp'. unfold mbind, mem_bind. rewrite E1. split; [done|]. split; [done|]. split; [by auto|]. intros k Hk. right. by apply Hnew. }
  destruct s as [sl|]; [|by apply Hfresh]. case_bool_decide as Hlen; [|by apply Hfresh].
  assert (reads ∅ h (elems (Some sl)) cs) as Hr by (exists fp; split; [done|set_solver]).
  cbn [elems] in Hr. apply reads_bind in Hr as (xs & Hxs & Hr). case_bool_decide as Hb; [|by apply reads_of in Hr].
  rewrite (observe_run ∅ h _ xs) by done. apply reads_bind in Hxs as (z & [Hz _]%reads_read & _). unfold store.
  rewrite bool_decide_true by (by exists z). set (xs' := take _ _ ++ _). set (h2 := <[sl_arr sl := inj xs']> h).
  assert (fp = {[sl_arr sl]}) as ->.
  { cbn [elems] in E. unfold array, vread, mbind, view_bind in E. rewrite Hz in E. simpl in E. destruct z; simplify_eq/=. case_bool_decide; simplify_eq/=. set_solver. }
  exists (Some sl), h2, {[sl_arr sl]}. split; [done|]. split.
  - cbn [elems]. unfold array, vread, mbind, view_bind. unfold h2. rewrite lookup_insert_eq. simpl.
    rewrite bool_decide_true by (unfold xs'; rewrite !length_app, length_take, length_drop; lia). simpl. unfold xs'.
    rewrite drop_app_length', take_app_length'; [|lia|rewrite length_take; lia]. unfold mret, view_ret. do 2 f_equal. set_solver.
  - split; [|set_solver]. intros k _ Hk. apply lookup_insert_ne. set_solver.
Qed.

Lemma rebuild_isolated_witness : ∃ nsx p h',
  reads ∅ cached (vmapM (pointer_view object_view) [5]) nsx ∧ length nsx = 1 ∧
  rebuild_mem (mret []) (mmapM (copied_item TEgressPolicy) [5]) cached = Some (p, h') ∧
  reads ∅ (delete 1 h') (policy_view p) (Aggregate [] (accept_ns (as_namespaced <$> nsx))).
Proof.
  assert (is_Some (vmapM (pointer_view object_view) [5] cached)) as [[nsx fp] E] by (apply (bool_decide_unpack _); vm_compute; exact I).
  assert (reads ∅ cached (vmapM (pointer_view object_view) [5]) nsx) as Hr by (exists fp; split; [done|set_solver]).
  destruct (rebuild_isolated (mret (M := mem cell) []) (mmapM (copied_item TEgressPolicy) [5]) [] [5] cached [] nsx) as (p & h' & Hrun & _ & _ & Hkeep);
    [done|done|by apply reads_ret|done|].
  exists nsx, p, h'. split; [done|]. split; [by apply reads_mapM, Forall2_length in Hr|]. split; [done|].
  apply Hkeep. intros k Hk. apply lookup_delete_ne. intros <-. apply Hk. apply elem_of_dom. by eexists.
Defined.

Lemma reconcile_isolated_witness : ∃ x r h',
  reads ∅ cached (pointer_view object_view 5) x ∧
  Reconcile_mem (λ _, "invalid") TEgressPolicy (o ← copied_item TEgressPolicy 5; mret (Some o)) cached = Some (r, h') ∧
  h' !! 4 = cached !! 4 ∧ reads ∅ h' (pointer_view object_view 5) x.
Proof.
  assert (is_Some (pointer_view object_view 5 cached)) as [[x fp] E] by (apply (bool_decide_unpack _); vm_compute; exact I).
  assert (reads ∅ cached (pointer_view object_view 5) x) as Hr by (exists fp; split; [done|set_solver]).
  destruct (reconcile_isolated (λ _, "invalid") TEgressPolicy (o ← copied_item TEgressPolicy 5; mret (M := mem cell) (Some o)) 5 cached x) as (r & h' & Hrun & Hs & Hx & _);
    [by left|done|done|].
  exists x, r, h'. split; [done|]. split; [done|]. split; [|done].
  assert (is_Some (cached !! 4)) as [y Hy] by (apply (bool_decide_unpack _); vm_compute; exact I). rewrite Hy. by eapply lookup_weaken.
Defined.
End KubeStatus.
