(* ===== verification/Consumers.v ===== *)
(** * Who consumes a policy

    The three consumers of a [policy.PolicySource] (the annotating sink, the map
    programmer and the DNS learner) all build their engine from [Snapshot], then
    [Subscribe], then swap the engine on every policy received that compiles.
    [PolicyFeed] is the contract they rely on; the file source, the CRD source (with
    rebuilds one at a time) and the empty source implement it, and the theorem about
    consumers is proved from the contract alone. *)

From S2P Require Import Prelude GoStrings GoNet Attr Policy Engine Aggregate PolicySource Crd L7 Output.

(** ** The contract *)
(** [feed_step] is anything that happens to the source: a change, another
    subscriber, a receive.  What it does to a channel: nothing new while the policy
    stays, or the new policy as the latest one; what was received stays. *)
Class PolicyFeed := {
  feed : Type;
  feed_op : Type;
  feed_step : feed → feed_op → feed;
  feed_Snapshot : feed → Policy;
  feed_Subscribe : feed → feed;
  feed_subs : feed → list chan;
  feed_receive : nat → feed_op;
  feed_ok : feed → Prop;
  feed_step_ok s o : feed_ok s → feed_ok (feed_step s o);
  feed_Subscribe_spec s : feed_ok s →
    feed_ok (feed_Subscribe s) ∧ feed_Snapshot (feed_Subscribe s) = feed_Snapshot s ∧ feed_subs (feed_Subscribe s) = feed_subs s ++ [make_chan];
  feed_valid s : feed_ok s → valid_policy (feed_Snapshot s);
  feed_delivers s o i c : feed_ok s → feed_subs s !! i = Some c →
    ∃ c', feed_subs (feed_step s o) !! i = Some c' ∧ received c `prefix_of` received c' ∧
      (feed_Snapshot (feed_step s o) = feed_Snapshot s ∧ visible c' = visible c ∨ last (visible c') = Some (feed_Snapshot (feed_step s o)));
  feed_receive_spec s i : feed_subs (feed_step s (feed_receive i)) = alter receive i (feed_subs s) ∧ feed_Snapshot (feed_step s (feed_receive i)) = feed_Snapshot s
}.

(** ** A consumer *)
(** The engine of a consumer that took [snap] and has received [ps]. *)
Definition consumer_engine `{UnicodeCase} (e0 : engine) (ps : list Policy) : engine := foldl (λ e p, sink_update e (Some p)) e0 ps.

Section consumer.
Context `{UnicodeCase} `{PolicyFeed}.
Definition feed_run (ops : list feed_op) (s : feed) : feed := foldl feed_step s ops.
Lemma feed_run_ok ops s : feed_ok s → feed_ok (feed_run ops s).
Proof. revert s. induction ops as [|o ops IH]; intros s Hs; [done|]. by apply IH, feed_step_ok. Qed.
(** A channel since its subscription at a state with policy [p0]. *)
Lemma feed_run_delivers p0 ops s i c :
  feed_ok s → feed_subs s !! i = Some c → (visible c = [] ∧ feed_Snapshot s = p0) ∨ last (visible c) = Some (feed_Snapshot s) →
  ∃ c', feed_subs (feed_run ops s) !! i = Some c' ∧
    ((visible c' = [] ∧ feed_Snapshot (feed_run ops s) = p0) ∨ last (visible c') = Some (feed_Snapshot (feed_run ops s))).
Proof.
  revert s c. induction ops as [|o ops IH]; intros s c Hok Hc Hs; [by exists c|].
  destruct (feed_delivers s o i c Hok Hc) as (c' & Hc' & _ & Hd). apply (IH _ c'); [by apply feed_step_ok|done|].
  destruct Hd as [[E Ev]|?]; [|by right]. rewrite E, Ev. destruct Hs; [by left|by right].
Qed.

Lemma consumer_runs_current s0 between after e0 c :
  feed_ok s0 → NewEngine (Some (feed_Snapshot s0)) = Ok e0 →
  let s1 := feed_run between s0 in
  let s2 := feed_run after (feed_Subscribe s1) in
  feed_subs s2 !! length (feed_subs s1) = Some c → slot c = None →
  (received c = [] → feed_Snapshot s1 = feed_Snapshot s0) →
  NewEngine (Some (feed_Snapshot s2)) = Ok (consumer_engine e0 (received c)).
Proof.
  cbn zeta. intros Hok He0 Hc Hslot Hwin. set (s1 := feed_run between s0) in *.
  assert (feed_ok s1) as Hok1 by (by apply feed_run_ok). destruct (feed_Subscribe_spec s1 Hok1) as (Hok2 & Hsnap & Hsubs).
  destruct (feed_run_delivers (feed_Snapshot s1) after (feed_Subscribe s1) (length (feed_subs s1)) make_chan) as (c' & Hc' & Hv);
    [done|by rewrite Hsubs, list_lookup_middle|by left|].
  rewrite Hc in Hc'. injection Hc' as <-. unfold visible in Hv. rewrite Hslot in Hv. cbn [option_list] in Hv. rewrite app_nil_r in Hv.
  unfold consumer_engine. destruct Hv as [[Hr ->]|Hl].
  - rewrite Hr. cbn [foldl]. by rewrite Hwin.
  - apply last_Some in Hl as [l Hl]. rewrite Hl, foldl_app. cbn [foldl]. unfold sink_update at 1.
    destruct (NewEngine_valid (feed_Snapshot (feed_run after (feed_Subscribe s1)))) as [e He]; [by apply feed_valid, feed_run_ok|]. by rewrite He.
Qed.

(** Every consumer ends up with the current policy: after [Snapshot], [Subscribe]
    and any further activity of the source and of all subscribers, a consumer that
    has emptied its channel runs an engine compiled from the source's current policy,
    provided it has received something or the policy did not change between its
    [Snapshot] and its [Subscribe]. *)
Theorem consumer_current s0 between after e0 c :
  feed_ok s0 → NewEngine (Some (feed_Snapshot s0)) = Ok e0 →
  let s1 := feed_run between s0 in
  let s2 := feed_run after (feed_Subscribe s1) in
  feed_subs s2 !! length (feed_subs s1) = Some c → slot c = None →
  (received c = [] → feed_Snapshot s1 = feed_Snapshot s0) →
  NewEngine (Some (feed_Snapshot s2)) = Ok (consumer_engine e0 (received c)).
Proof. apply consumer_runs_current. Qed.
End consumer.

(** ** The sources *)
Lemma alter_receive_lookup (cs : list chan) i j c :
  cs !! i = Some c → ∃ c', alter receive j cs !! i = Some c' ∧ received c `prefix_of` received c' ∧ visible c' = visible c.
Proof.
  intros Hc. destruct (decide (j = i)) as [->|Hne].
  - exists (receive c). split; [by rewrite list_lookup_alter_eq, Hc|]. split; [apply receive_received|apply receive_visible].
  - exists c. split; [by rewrite list_lookup_alter_ne|done].
Qed.
Lemma broadcast_lookup sched p (cs : list chan) i c : cs !! i = Some c → ∃ c', broadcast sched p cs !! i = Some c' ∧ received c `prefix_of` received c' ∧ last (visible c') = Some p.
Proof.
  intros Hc. unfold broadcast. exists (deliver (sched i).1 (sched i).2 p c). split; [by rewrite list_lookup_imap, Hc|]. split; [apply deliver_received|].
  destruct (deliver_visible (sched i).1 (sched i).2 p c) as (l & -> & _). by rewrite last_snoc.
Qed.

Program Definition file_feed `{UnicodeCase} (Unmarshal : bytes → option Policy) : PolicyFeed := {|
  feed := fileSource; feed_op := source_op; feed_step := source_step Unmarshal; feed_Snapshot := Snapshot;
  feed_Subscribe := Subscribe; feed_subs := subs; feed_receive := ReceiverRuns; feed_ok fs := valid_policy (cur fs)
|}.
Next Obligation.
  intros ? U s o Hs. destruct o as [t| |i]; cbn [source_step]; [|done..]. rewrite watch_tick_eq. case_bool_decide; [done|].
  destruct (loadPolicyFile _ _) as [p| | |] eqn:E; cbn [cur]; try done. by eapply loadPolicyFile_valid.
Qed.
Next Obligation. done. Qed.
Next Obligation. done. Qed.
Next Obligation.
  intros ? U s o i c _ Hc. unfold Snapshot. destruct o as [t| |j]; cbn [source_step].
  - rewrite watch_tick_eq. case_bool_decide; [exists c; auto|]. destruct (loadPolicyFile _ _) as [p| | |]; cbn [cur subs]; [|exists c; auto..].
    destruct (broadcast_lookup (t_sched t) p _ _ _ Hc) as (c' & ? & ? & ?). exists c'. auto.
  - exists c. split; [|split; [done|by left]]. cbn [subs Subscribe]. by apply lookup_app_l_Some.
  - destruct (alter_receive_lookup _ _ j _ Hc) as (c' & ? & ? & ?). exists c'. auto.
Qed.
Next Obligation. done. Qed.

(** The CRD source when its rebuilds do not overlap. *)
Inductive crd_atomic := CacheChange (cl : list ClusterEgressPolicy) (ns : list EgressPolicy) | WholeRebuild (sched : nat → bool * bool)
  | CrdSubscriber | CrdReceiver (i : nat).
Definition crd_atomic_step (st : source_state) (o : crd_atomic) : source_state :=
  match o with
  | CacheChange cl ns => crd_step st (CacheIs cl ns)
  | WholeRebuild sched => foldl crd_step st (rebuild 0 sched)
  | CrdSubscriber => crd_step st CrdSubscribe
  | CrdReceiver i => crd_step st (CrdReceive i)
  end.
Lemma crd_run_ok ops st : source_ok st → source_ok (foldl crd_step st ops).
Proof. revert st. induction ops as [|o ops IH]; intros st Hst; [done|]. by apply IH, crd_step_ok. Qed.
Program Definition crd_feed : PolicyFeed := {|
  feed := source_state; feed_op := crd_atomic; feed_step := crd_atomic_step; feed_Snapshot := Source_Snapshot;
  feed_Subscribe := Source_Subscribe; feed_subs := src_subs; feed_receive := CrdReceiver; feed_ok st := source_ok st ∧ threads st = ∅
|}.
Next Obligation.
  intros st o [Hok Ht]. destruct o as [cl ns|sched| |i]; cbn [crd_atomic_step].
  - split; [by apply crd_step_ok|done].
  - split; [by apply crd_run_ok|]. rewrite rebuild_result by (by rewrite Ht). done.
  - split; [by apply crd_step_ok|done].
  - split; [by apply crd_step_ok|done].
Qed.
Next Obligation. intros st [Hok Ht]. split; [|done]. split; [by apply (crd_step_ok st CrdSubscribe)|done]. Qed.
Next Obligation. intros st [[Hv _] _]. done. Qed.
Next Obligation.
  intros st o i c [_ Ht] Hc. destruct o as [cl ns|sched| |j]; cbn [crd_atomic_step].
  - exists c. auto.
  - rewrite rebuild_result by (by rewrite Ht). cbn zeta. cbn [src_cur src_subs].
    destruct (broadcast_lookup sched (Aggregate (accept_cluster (cache_cl st)) (accept_ns (cache_ns st))) _ _ _ Hc) as (c' & ? & ? & ?). exists c'. auto.
  - exists c. split; [|split; [done|by left]]. cbn [crd_step Source_Subscribe src_subs]. by apply lookup_app_l_Some.
  - cbn [crd_step src_cur src_subs]. destruct (alter_receive_lookup _ _ j _ Hc) as (c' & ? & ? & ?). exists c'. auto.
Qed.
Next Obligation. done. Qed.

(** The empty source: its channels are made anew and never written. *)
Program Definition empty_feed : PolicyFeed := {|
  feed := list chan; feed_op := nat; feed_step cs i := alter receive i cs; feed_Snapshot _ := emptySource_Snapshot;
  feed_Subscribe cs := cs ++ [make_chan]; feed_subs cs := cs; feed_receive i := i; feed_ok _ := True
|}.
Next Obligation. done. Qed.
Next Obligation. done. Qed.
Next Obligation. cbn. intros. by apply Validate_None; vm_compute. Qed.
Next Obligation. intros cs j i c _ Hc. destruct (alter_receive_lookup _ _ j _ Hc) as (c' & ? & ? & ?). exists c'. auto. Qed.
Next Obligation. done. Qed.

(** ** The annotating sink *)
(** Its mode label, the engine behind its atomic pointer, and the gauge it sets. *)
Record sink := { sk_mode : string; sk_eng : engine; policyRules : Z }.
Section sink.
Context `{UnicodeCase}.
Definition NewSink (snap : Policy) (mode : string) : go engine_error sink :=
  eng ← NewEngine (Some snap);
  Ok {| sk_mode := mode; sk_eng := eng; policyRules := Z.of_nat (length (Rules snap)) |}.
(** One policy received by [watch]; a nil one that compiles would be dereferenced. *)
Definition sink_watch (s : sink) (p : option Policy) : go engine_error sink :=
  match NewEngine p with
  | Ok eng =>
      match p with
      | Some p => Ok {| sk_mode := sk_mode s; sk_eng := eng; policyRules := Z.of_nat (length (Rules p)) |}
      | None => Panic
      end
  | Err _ => Ok s
  | Panic => Panic
  | OutOfFuel => OutOfFuel
  end.
(** [Emit]: the event passed on and the labels (action, mode) of the decision counter. *)
Definition sink_emit (s : sink) (e : Event) : Event * option (string * string) :=
  let '(e, act) := sink_Emit (sk_eng s) e in (e, (λ a, (a, sk_mode s)) <$> act).

Lemma NewEngine_cases p : (∃ e, NewEngine (Some p) = Ok e) ∨ ∃ err, NewEngine (Some p) = Err err.
Proof.
  destruct (Validate (Some p)) as [err|] eqn:E; [right|left; by apply NewEngine_valid, Validate_None].
  unfold NewEngine. cbn [from_option id]. rewrite E. by eexists.
Qed.

(** The sink over its life: built from a policy that compiles, after any
    sequence of policies received it runs the engine every consumer runs, its gauge
    is the number of rules of that engine's policy, an invalid update having changed
    neither, and it never fails. *)
Theorem sink_follows snap mode e0 ps :
  NewEngine (Some snap) = Ok e0 →
  ∃ s0 s, NewSink snap mode = Ok s0 ∧ foldl (λ r p, s ← r; sink_watch s (Some p)) (Ok s0) ps = Ok s ∧
    sk_mode s = mode ∧ sk_eng s = consumer_engine e0 ps ∧ policyRules s = Z.of_nat (length (Rules (e_policy (sk_eng s)))).
Proof.
  intros He0. unfold NewSink. rewrite He0. cbn [mbind go_bind]. eexists. cut (∀ s0, sk_mode s0 = mode → policyRules s0 = Z.of_nat (length (Rules (e_policy (sk_eng s0)))) →
    ∃ s, foldl (λ r p, s ← r; sink_watch s (Some p)) (Ok s0) ps = Ok s ∧ sk_mode s = mode ∧ sk_eng s = consumer_engine (sk_eng s0) ps ∧
      policyRules s = Z.of_nat (length (Rules (e_policy (sk_eng s))))).
  { intros Hs. destruct (Hs {| sk_mode := mode; sk_eng := e0; policyRules := Z.of_nat (length (Rules snap)) |}) as (s & ? & ? & ? & ?);
      [done|cbn; by rewrite (proj1 (NewEngine_ok _ _ He0))|]. exists s. split; [done|]. done. }
  unfold consumer_engine. induction ps as [|p ps IH]; intros s0 Hm Hr; [by exists s0|]. cbn [foldl mbind go_bind].
  unfold sink_watch at 2, sink_update at 2. destruct (NewEngine (Some p)) as [e|err| |] eqn:E; [| |by destruct (NewEngine_cases p) as [[? ?]|[? ?]]; congruence..].
  - apply IH; [done|]. cbn. by rewrite (proj1 (NewEngine_ok _ _ E)).
  - by apply IH.
Qed.
End sink.

(** ** Concrete runs *)
(** A source with two rules; a version with three is polled. *)
Definition ex_source : fileSource :=
  match NewFileSource toy_yaml "p.yaml" (Some [x02]) (Some 4%Z) with Ok fs => fs | _ => {| cur := Policy_zero; subs := []; last_mod := 0 |} end.
Definition ex_compiled (p : Policy) : engine :=
  match NewEngine (H := ascii_case) (Some p) with Ok e => e | _ => {| e_policy := p; e_rules := []; e_def := "" |} end.
Definition ex_feed : PolicyFeed := file_feed (H := ascii_case) toy_yaml.
Definition ex_chan (between after : list source_op) : option chan :=
  let s1 := feed_run (H0 := ex_feed) between ex_source in
  subs (feed_run (H0 := ex_feed) after (Subscribe s1)) !! length (subs s1).
Lemma consumer_current_witness : ∃ c,
  ex_chan [] [poll 5 (Some [x03]); ReceiverRuns 0] = Some c ∧ length (received c) = 1 ∧
  NewEngine (H := ascii_case) (Some (cur (feed_run (H0 := ex_feed) [poll 5 (Some [x03]); ReceiverRuns 0] (Subscribe ex_source)))) =
    Ok (consumer_engine (H := ascii_case) (ex_compiled (cur ex_source)) (received c)).
Proof.
  destruct (ex_chan [] [poll 5 (Some [x03]); ReceiverRuns 0]) as [c|] eqn:E; [|by vm_compute in E]. exists c. split; [done|].
  assert (c = default make_chan (ex_chan [] [poll 5 (Some [x03]); ReceiverRuns 0])) as Hc by (by rewrite E).
  split; [rewrite Hc; by vm_compute|].
  apply (consumer_current (H := ascii_case) (H0 := ex_feed) ex_source [] [poll 5 (Some [x03]); ReceiverRuns 0]).
  - by apply Validate_None; vm_compute.
  - by vm_compute.
  - exact E.
  - rewrite Hc. by vm_compute.
  - done.
Defined.
Lemma sink_follows_witness : ∃ s0 s,
  NewSink (H := ascii_case) (cur ex_source) "log" = Ok s0 ∧
  foldl (λ r p, s ← r; sink_watch (H := ascii_case) s (Some p)) (Ok s0) (option_list (toy_yaml [x01]) ++ option_list (toy_yaml [x03])) = Ok s ∧
  sk_mode s = "log".
Proof.
  destruct (sink_follows (H := ascii_case) (cur ex_source) "log" (ex_compiled (cur ex_source)) (option_list (toy_yaml [x01]) ++ option_list (toy_yaml [x03])))
    as (s0 & s & H1 & H2 & H3 & _); [by vm_compute|]. exists s0, s. split; [exact H1|]. split; [exact H2|exact H3].
Defined.
(** A version that is loaded between a consumer's [Snapshot] and its [Subscribe]
    never reaches it: its channel stays empty, its engine stays the old one. *)
Example subscription_window :
  ex_chan [poll 5 (Some [x03])] [ReceiverRuns 0; poll 5 (Some [x03])] = Some make_chan ∧
  length (Rules (e_policy (consumer_engine (H := ascii_case) (ex_compiled (cur ex_source)) []))) = 2 ∧
  length (Rules (cur (feed_run (H0 := ex_feed) [poll 5 (Some [x03])] ex_source))) = 3.
Proof. by vm_compute. Qed.
