(* ===== verification/Pipeline.v ===== *)
(** * From a custom resource to a dropped packet

    The agent's parts in a row: the informer caches, the CRD source, the channel to
    the programmer, [Programmer.Run], the kernel maps and the packet hook.  The
    theorems say that nodes with the same objects in their caches run the same
    policy, and that a packet is dropped exactly when the resources say so. *)

From S2P Require Import Prelude GoStrings GoNet NetBits Attr Policy Engine Aggregate Datapath Hooks Programmer Enforcement PolicySource Crd L7 Output Consumers DnsLearn EgressMon System.

(** ** The source is up to date with its caches *)
Definition current (st : source_state) : Prop := src_cur st = Aggregate (accept_cluster (cache_cl st)) (accept_ns (cache_ns st)).
Lemma rebuild_current i sched st : threads st !! i = None → current (foldl crd_step st (rebuild i sched)).
Proof. intros Hi. unfold current. by rewrite rebuild_result. Qed.
(** Only a change of the caches or the store of an older rebuild ends this. *)
Lemma atomic_current st o : threads st = ∅ → current st → (∀ cl ns, o ≠ CacheChange cl ns) → current (crd_atomic_step st o).
Proof.
  intros Ht Hc Ho. destruct o as [cl ns|sched| |i]; cbn [crd_atomic_step]; [by destruct (Ho cl ns)| |done..].
  apply rebuild_current. by rewrite Ht.
Qed.

(** ** The rounds of [Run] *)
Section rounds.
Context `{UnicodeCase} `{Kernel}.
Definition received_by (evs : list run_event) : list (option Policy) :=
  omap (λ ev, match ev with EvPolicy pol _ => Some pol | _ => None end) evs.
Definition going (ev : run_event) : Prop := match ev with EvPolicy _ _ | EvTick _ => True | EvClosed | EvDone => False end.
Definition round_of (eng : engine) (order : nat → list (Z * PodInfo)) : round := {| rd_eng := eng; rd_pods := order 0; rd_order := order |}.
(** The calls of [apply] for the events: one per tick and per policy that compiles. *)
Fixpoint run_rounds (eng : engine) (evs : list run_event) : list round :=
  match evs with
  | [] => []
  | EvPolicy pol order :: evs => match NewEngine pol with Ok ne => round_of ne order :: run_rounds ne evs | _ => run_rounds eng evs end
  | EvTick order :: evs => round_of eng order :: run_rounds eng evs
  | _ :: _ => []
  end.
Lemma run_rounds_spec evs p eng : Forall going evs →
  foldl run_step (Running p eng) evs =
    Running (apply_rounds p (run_rounds eng evs)) (foldl (λ e pol, sink_update e pol) eng (received_by evs)).
Proof.
  intros Hg. revert p eng. induction Hg as [|ev evs Hev _ IH]; intros p eng; [done|]. destruct ev as [pol order|order| |]; [| |done..]; cbn [foldl run_step run_rounds].
  - unfold received_by. cbn [omap list_omap foldl]. unfold sink_update at 2. destruct (NewEngine pol) as [ne| | |]; by rewrite IH.
  - by rewrite IH.
Qed.
(** The last [apply] was with the engine in force. *)
Lemma run_rounds_last evs eng order : Forall going evs → ∃ rds order',
  round_of eng order :: run_rounds eng evs = rds ++ [round_of (foldl (λ e pol, sink_update e pol) eng (received_by evs)) order'].
Proof.
  intros Hg. revert eng order. induction Hg as [|ev evs Hev _ IH]; intros eng order; [by exists [], order|].
  destruct ev as [pol order1|order1| |]; [| |done..]; cbn [run_rounds].
  - unfold received_by. cbn [omap list_omap foldl]. unfold sink_update at 2. destruct (NewEngine pol) as [ne| | |].
    1: destruct (IH ne order1) as (rds & order' & Hr); exists (round_of eng order :: rds), order'; by rewrite Hr.
    all: destruct (IH eng order) as (rds & order' & Hr); exists rds, order'; by rewrite Hr.
  - destruct (IH eng order1) as (rds & order' & Hr). exists (round_of eng order :: rds), order'. by rewrite Hr.
Qed.
Lemma room_perm p l l' pol : l ≡ₚ l' → room p l pol → room p l' pol.
Proof.
  intros Hp. unfold room, default_domain, cidr_domain.
  assert (list_to_set (0%Z :: (Rules pol ≫= default_keys l)) = (list_to_set (0%Z :: (Rules pol ≫= default_keys l')) : gset Z)) as ->.
  { apply set_eq. intros cg. rewrite !elem_of_list_to_set, !elem_of_cons, !list_elem_of_bind. by setoid_rewrite (default_keys_perm l l' _ _ Hp). }
  assert (list_to_set (Rules pol ≫= (λ r, omap lpm_prefix (cidr_keys l r))) =
    (list_to_set (Rules pol ≫= (λ r, omap lpm_prefix (cidr_keys l' r))) : gset (list bool))) as ->; [|done].
  apply set_eq. intros q. rewrite !elem_of_list_to_set, !list_elem_of_bind. setoid_rewrite list_elem_of_omap. by setoid_rewrite (cidr_keys_perm l l' _ _ Hp).
Qed.
End rounds.

Lemma put_cfg_owned `{Kernel} cv p p1 : put_cfg cv p = Some p1 → prog_inv p → owned p → prog_inv p1 ∧ owned p1.
Proof. unfold put_cfg. intros (s & _ & ->)%fmap_Some Hinv Hown. split; [exact Hinv|]. intros k. specialize (Hown k). by destruct k. Qed.

(** ** Nodes agree *)
Lemma accept_cluster_names l : cp_Name <$> accept_cluster l `sublist_of` cep_Name <$> l.
Proof.
  induction l as [|x l IH]; [constructor|]. unfold accept_cluster. cbn [omap list_omap fmap list_fmap].
  destruct (Validate _); cbn [fmap list_fmap]; [by apply sublist_cons|by apply sublist_skip].
Qed.
Lemma accept_ns_names l : (λ n, (np_Namespace n, np_Name n)) <$> accept_ns l `sublist_of` (λ e, (ep_Namespace e, ep_Name e)) <$> l.
Proof.
  induction l as [|x l IH]; [constructor|]. unfold accept_ns. cbn [omap list_omap fmap list_fmap].
  destruct (Validate _); cbn [fmap list_fmap]; [by apply sublist_cons|by apply sublist_skip].
Qed.
(** All nodes run one policy: agents whose sources are up to date with caches
    listing the same objects, in whatever order the informers hold them, have equal
    policies, so their engines give every flow the same verdict; the API server keeps
    names distinct. *)
Theorem nodes_agree `{UnicodeCase} st st' f :
  current st → current st' → cache_cl st ≡ₚ cache_cl st' → cache_ns st ≡ₚ cache_ns st' →
  NoDup (cep_Name <$> cache_cl st) → NoDup ((λ e, (ep_Namespace e, ep_Name e)) <$> cache_ns st) →
  Source_Snapshot st = Source_Snapshot st' ∧
  ∃ e, NewEngine (Some (Source_Snapshot st)) = Ok e ∧ NewEngine (Some (Source_Snapshot st')) = Ok e ∧ Evaluate e f = policy_verdict (Source_Snapshot st) f.
Proof.
  intros Hc Hc' Hcl Hns Hdc Hdn. unfold Source_Snapshot.
  assert (src_cur st = src_cur st') as E.
  { rewrite Hc, Hc'. unfold Aggregate at 2. symmetry. apply Aggregate_same.
    - eapply sublist_NoDup; [exact Hdc|apply accept_cluster_names].
    - eapply sublist_NoDup; [exact Hdn|apply accept_ns_names].
    - unfold accept_cluster. by rewrite Hcl.
    - unfold accept_ns. by rewrite Hns. }
  split; [done|]. rewrite <-E, Hc. destruct (NewEngine_valid (Aggregate (accept_cluster (cache_cl st)) (accept_ns (cache_ns st)))) as [e He]; [apply valid_accepted|].
  exists e. split; [done|]. split; [done|]. by rewrite (Evaluate_policy_verdict _ _ _ He).
Qed.

(** ** End to end *)
Section end_to_end.
Context `{UnicodeCase} `{Kernel} (reserve : list event → bool).
#[local] Existing Instance crd_feed.
(** What [Run] does to a packet once the policy in force is the aggregate. *)
Lemma run_drops a cl ns snap e0 p p1 order evs rds rd pods s da dp f :
  let eng := foldl (λ e pol, sink_update e pol) e0 (received_by evs) in
  NewEngine snap = Ok e0 → NewEngine (Some (Aggregate cl ns)) = Ok eng →
  Forall cluster_ok cl → Forall ns_ok ns → Forall (λ c, policy_explicit a (cp_Policy c)) cl → Forall (λ n, policy_explicit a (np_Policy n)) ns →
  dryRun p = false → put_cfg {| Enabled := 1; DryRun := 0 |} p = Some p1 → prog_inv p → owned p → Forall going evs →
  round_of e0 order :: run_rounds e0 evs = rds ++ [rd] → rounds_ok p1 (rds ++ [rd]) → rd_pods rd ≡ₚ map_to_list pods →
  ∃ p', Run p snap order evs = Running p' eng ∧
    (good_pods pods → enforceable s da dp → packet_flow pods (skb_cgroup s) da dp f →
     not_evicted p' (map_to_list pods) (Aggregate cl ns) (skb_cgroup s) da dp →
     ((egress reserve (maps p') s).1 = false ↔ v_Action (agg_verdict (sort_slice cluster_less cl) (sort_slice ns_less ns) f) = ActionDeny)).
Proof.
  cbn zeta. intros He0 Heng Hcl Hns Hec Hen Hdry Hcfg Hinv Hown Hg Hrds Hrok Hpods. set (eng := foldl _ e0 _) in *.
  assert (Run p snap order evs = Running (apply_rounds p1 (rds ++ [rd])) eng) as HRun.
  { unfold Run. rewrite Hdry. cbn [b2u8]. rewrite Hcfg, He0, run_rounds_spec, <-Hrds by done. done. }
  eexists. split; [exact HRun|]. intros Hgood Hs Hflow Hev.
  pose proof (Run_inv p snap order evs) as Hri. rewrite HRun, Hdry in Hri. cbn [run_inv b2u8] in Hri.
  destruct (put_cfg_owned _ p p1 Hcfg Hinv Hown) as [Hinv1 Hown1].
  apply rounds_ok_app in Hrok as (Hrok & Ho & Hroom). apply rounds_inv in Hrok as [Hinv2 Hown2]; [|done|done].
  destruct (run_rounds_last evs e0 order Hg) as (rds' & order' & Hrl). rewrite Hrds in Hrl. apply app_inj_tail in Hrl as [<- ->].
  assert (apply_rounds p1 (rds ++ [round_of eng order']) = apply (apply_rounds p1 rds) eng order') as Hlast by (unfold apply_rounds; by rewrite foldl_app).
  fold eng in Hev, Hri |- *. rewrite Hlast in *. cbn [rd_eng rd_order rd_pods round_of] in *. fold eng in Hroom. rewrite (proj1 (NewEngine_ok _ _ Heng)) in Hroom.
  assert (verdict_for (maps (apply (apply_rounds p1 rds) eng order')) (skb_cgroup s) da dp =
    actionByte (v_Action (agg_verdict (sort_slice cluster_less cl) (sort_slice ns_less ns) f))) as Hv.
  { apply (aggregate_enforced a cl ns (apply_rounds p1 rds) pods); try done; [intros i; by rewrite Ho|by eapply room_perm]. }
  rewrite egress_drops. unfold enforce_enabled. rewrite Hri. cbn [Enabled DryRun]. split.
  - intros (_ & da' & dp' & Hs' & Hd). destruct (enforceable_unique _ _ _ _ _ Hs Hs') as [<- <-]. rewrite Hv in Hd. by apply actionByte_deny.
  - intros Hd. split; [done|]. exists da, dp. split; [done|]. rewrite Hv. by apply actionByte_deny.
Qed.
(** A custom resource decides the packet: the agent subscribes its programmer to
    the CRD source; after any activity of the API server and the source, once the
    source is up to date, the channel is drained and the maps have room, and when the
    explicit rules of the accepted resources are destination rules of one action, the
    packet hook drops an enforceable packet of a known pod exactly when the documented
    precedence over the accepted resources denies it. *)
Theorem resource_to_packet s0 between after e0 c p p1 order evs rds rd a pods s da dp f :
  feed_ok s0 → NewEngine (Some (Source_Snapshot s0)) = Ok e0 →
  let s1 := feed_run between s0 in
  let s2 := feed_run after (Source_Subscribe s1) in
  src_subs s2 !! length (src_subs s1) = Some c → slot c = None → (received c = [] → Source_Snapshot s1 = Source_Snapshot s0) →
  current s2 → Forall (λ ep, ep_Namespace ep ≠ "") (cache_ns s2) →
  Forall (λ c, policy_explicit a (cp_Policy c)) (accept_cluster (cache_cl s2)) → Forall (λ n, policy_explicit a (np_Policy n)) (accept_ns (cache_ns s2)) →
  dryRun p = false → put_cfg {| Enabled := 1; DryRun := 0 |} p = Some p1 → prog_inv p → owned p →
  Forall going evs → received_by evs = Some <$> received c →
  round_of e0 order :: run_rounds e0 evs = rds ++ [rd] → rounds_ok p1 (rds ++ [rd]) → rd_pods rd ≡ₚ map_to_list pods →
  ∃ p' eng, Run p (Some (Source_Snapshot s0)) order evs = Running p' eng ∧
    (good_pods pods → enforceable s da dp → packet_flow pods (skb_cgroup s) da dp f →
     not_evicted p' (map_to_list pods) (src_cur s2) (skb_cgroup s) da dp →
     ((egress reserve (maps p') s).1 = false ↔
      v_Action (agg_verdict (sort_slice cluster_less (accept_cluster (cache_cl s2))) (sort_slice ns_less (accept_ns (cache_ns s2))) f) = ActionDeny)).
Proof.
  cbn zeta. intros Hok He0 Hc Hslot Hwin Hcur Hns Hec Hen Hdry Hcfg Hinv Hown Hg Hrec Hrds Hrok Hpods.
  pose proof (consumer_runs_current s0 between after e0 c Hok He0 Hc Hslot Hwin) as Heng. cbn [feed_Snapshot feed_Subscribe crd_feed] in Heng.
  unfold Source_Snapshot in Heng at 1. rewrite Hcur in Heng |- *.
  assert (foldl (λ e pol, sink_update e pol) e0 (received_by evs) = consumer_engine e0 (received c)) as Hf by (by rewrite Hrec, foldl_map).
  rewrite <-Hf in Heng.
  destruct (run_drops a _ _ (Some (Source_Snapshot s0)) e0 p p1 order evs rds rd pods s da dp f He0 Heng (accept_cluster_ok _) (accept_ns_ok _ Hns)
    Hec Hen Hdry Hcfg Hinv Hown Hg Hrds Hrok Hpods) as (p' & HRun & Hd).
  eexists p', _. split; [exact HRun|exact Hd].
Qed.
End end_to_end.

(** ** Concrete runs *)
Definition ex_cep (name cidr : string) : ClusterEgressPolicy :=
  {| cep_Name := name;
     cep_Spec := {| s_PodSelector := {| ms_MatchLabels := ∅; ms_MatchExpressions := [] |}; s_DefaultAction := "";
                    s_Rules := [{| ar_Name := "r"; ar_Action := ActionDeny; ar_Mutations := [];
                                   ar_Match := {| am_Domains := []; am_CIDRs := [cidr]; am_Ports := []; am_Methods := []; am_PathPrefix := "" |} |}] |} |}.
Definition ex_node (cl : list ClusterEgressPolicy) : source_state := foldl crd_step (crd_init cl []) (rebuild 0 never).
Lemma nodes_agree_witness :
  Source_Snapshot (ex_node [ex_cep "a" "203.0.113.0/24"; ex_cep "b" "198.51.100.0/24"]) =
  Source_Snapshot (ex_node [ex_cep "b" "198.51.100.0/24"; ex_cep "a" "203.0.113.0/24"]).
Proof.
  apply (nodes_agree (H := ascii_case) _ _ (packet "203.0.113.9" 443)).
  - by apply rebuild_current.
  - by apply rebuild_current.
  - apply Permutation_swap.
  - done.
  - apply (bool_decide_unpack _). by vm_compute.
  - constructor.
Defined.

Definition ex_after : list crd_atomic := [CacheChange [ex_cep "block" "203.0.113.0/24"] []; WholeRebuild never; CrdReceiver 0].
Definition ex_merged : Policy := Aggregate (accept_cluster [ex_cep "block" "203.0.113.0/24"]) [].
Definition ex_events : list run_event := [EvPolicy (Some ex_merged) ex_order; EvTick ex_order].
Definition ex_enabled : @programmer linux := default fresh (put_cfg (H := linux) {| Enabled := 1; DryRun := 0 |} fresh).
Lemma ex_enabled_ok : put_cfg (H := linux) {| Enabled := 1; DryRun := 0 |} fresh = Some ex_enabled.
Proof.
  unfold ex_enabled, put_cfg. destruct (k_cfg_array (Kernel := linux) 0%Z {| Enabled := 1; DryRun := 0 |} (Cfg (maps fresh))) as [s Hs]; [|by rewrite Hs].
  cbn. by rewrite lookup_singleton_eq.
Qed.
Lemma resource_to_packet_witness : ∃ p' eng,
  Run (H := linux) (H0 := ascii_case) fresh (Some (Source_Snapshot (ex_node []))) ex_order ex_events = Running p' eng ∧
  (egress (H := linux) (λ _, true) (maps p') ex_syn).1 = false.
Proof.
  pose (s2 := feed_run (H0 := crd_feed) ex_after (Source_Subscribe (ex_node []))).
  destruct (src_subs s2 !! 0) as [c|] eqn:Ec; [|by vm_compute in Ec].
  assert (c = default make_chan (src_subs s2 !! 0)) as Hc by (by rewrite Ec).
  destruct (resource_to_packet (H := ascii_case) (H0 := linux) (λ _, true) (ex_node []) [] ex_after
    (engine_of (Source_Snapshot (ex_node []))) c fresh ex_enabled ex_order ex_events
    [round_of (engine_of (Source_Snapshot (ex_node []))) ex_order; round_of (engine_of ex_merged) ex_order] (round_of (engine_of ex_merged) ex_order)
    actDeny ex_pods ex_syn [xcb; x00; x71; x09] [x01; xbb] (packet "203.0.113.9" 443)) as (p' & eng & HRun & Hd).
  - split; [apply crd_run_ok, crd_init_ok|by vm_compute].
  - by vm_compute.
  - exact Ec.
  - rewrite Hc. by vm_compute.
  - done.
  - by vm_compute.
  - constructor.
  - apply Forall_singleton. cbn. apply Forall_singleton. split; [by vm_compute|done].
  - constructor.
  - done.
  - apply ex_enabled_ok.
  - apply fresh_inv.
  - apply fresh_owned.
  - by repeat constructor.
  - rewrite Hc. by vm_compute.
  - by vm_compute.
  - cbn [app rounds_ok]. split_and!; try done; apply room_b_spec; by vm_compute.
  - done.
  - exists p', eng. split; [exact HRun|].
    assert (p' = match Run (H := linux) (H0 := ascii_case) fresh (Some (Source_Snapshot (ex_node []))) ex_order ex_events with Running p _ => p | _ => fresh end) as Hp'
      by (by rewrite HRun).
    apply Hd; [apply ex_good_pods| | | |by vm_compute].
    + eexists. split; [by vm_compute|]. split; [done|]. split; [by vm_compute; lia|]. split; [done|]. split; [done|]. left. split; [done|]. vm_compute. lia.
    + apply (ex_packet_flow "203.0.113.9" 443); [by vm_compute|done|lia].
    + rewrite Hp'. apply kept_b_spec. by vm_compute.
Defined.
