(* ===== verification/AgentRun.v ===== *)
(** * The agent, running

    The policy source, the map programmer, the DNS learner and the kernel maps as one
    concurrent system: the source changes, delivers and is received from at any time,
    [Programmer.Run] subscribes and re-programs call by call, the learner's map calls
    come in between.  The source is any [PolicyFeed].  The theorems say that the agent
    can always settle by its own steps, and that once settled the packet hook decides
    as the source's policy; for the CRD source, as the accepted resources. *)

From S2P Require Import Prelude GoStrings GoNet NetBits Attr Policy Engine Aggregate Datapath Hooks Programmer Enforcement DnsLearn EgressMon System Moments PolicySource Crd L7 Output Consumers Pipeline.

(** ** State and steps *)
Section agent.
Context `{UnicodeCase} `{Kernel} `{PolicyFeed}.
(** [ag_sub] is the programmer's subscription and [ag_done] the number of policies of
    its channel it has dealt with.  [ag_at] (the policy at the subscription), [ag_from],
    [ag_pods] and [ag_since] (state, pods and labels since the last call of [apply])
    record the past. *)
Record agent := {
  ag_src : feed; ag_sub : option nat; ag_at : Policy; ag_done : nat; ag_eng : engine;
  ag_from : fine; ag_pods : gmap Z PodInfo; ag_since : list label; ag_fine : fine
}.
Definition at_source (st : agent) (s : feed) : agent :=
  {| ag_src := s; ag_sub := ag_sub st; ag_at := ag_at st; ag_done := ag_done st; ag_eng := ag_eng st;
     ag_from := ag_from st; ag_pods := ag_pods st; ag_since := ag_since st; ag_fine := ag_fine st |}.
(** [ch := src.Subscribe()]. *)
Definition subscribed (st : agent) : agent :=
  {| ag_src := feed_Subscribe (ag_src st); ag_sub := Some (length (feed_subs (ag_src st))); ag_at := feed_Snapshot (ag_src st);
     ag_done := ag_done st; ag_eng := ag_eng st; ag_from := ag_from st; ag_pods := ag_pods st; ag_since := ag_since st; ag_fine := ag_fine st |}.
(** [p.apply(eng)] begins. *)
Definition applying (st : agent) (done : nat) (eng : engine) (pods : gmap Z PodInfo) (order : nat → list (Z * PodInfo)) : agent :=
  {| ag_src := ag_src st; ag_sub := ag_sub st; ag_at := ag_at st; ag_done := done; ag_eng := eng;
     ag_from := ag_fine st; ag_pods := pods; ag_since := []; ag_fine := begun (ag_fine st) (e_policy eng) order |}.
Definition skipped (st : agent) : agent :=
  {| ag_src := ag_src st; ag_sub := ag_sub st; ag_at := ag_at st; ag_done := S (ag_done st); ag_eng := ag_eng st;
     ag_from := ag_from st; ag_pods := ag_pods st; ag_since := ag_since st; ag_fine := ag_fine st |}.
Definition called (st : agent) (l : label) (f : fine) : agent :=
  {| ag_src := ag_src st; ag_sub := ag_sub st; ag_at := ag_at st; ag_done := ag_done st; ag_eng := ag_eng st;
     ag_from := ag_from st; ag_pods := ag_pods st; ag_since := ag_since st ++ [l]; ag_fine := f |}.

Inductive agent_label := ASource (o : feed_op) | ASubscribe | APolicy (p : Policy) | AInvalid (p : Policy) | ATick | ACall (l : label).
(** The next policy of the programmer's channel. *)
Definition next_policy (st : agent) (p : Policy) : Prop :=
  ∃ i c, ag_sub st = Some i ∧ feed_subs (ag_src st) !! i = Some c ∧ received c !! ag_done st = Some p.
Inductive agent_step : agent → agent_label → agent → Prop :=
  | AgSource st o : agent_step st (ASource o) (at_source st (feed_step (ag_src st) o))
  | AgSubscribe st : fn_phase (ag_fine st) = Idle → ag_sub st = None → agent_step st ASubscribe (subscribed st)
  | AgPolicy st p e pods order :
      fn_phase (ag_fine st) = Idle → next_policy st p → NewEngine (Some p) = Ok e → (∀ i, order i ≡ₚ map_to_list pods) →
      agent_step st (APolicy p) (applying st (S (ag_done st)) e pods order)
  | AgInvalid st p err :
      fn_phase (ag_fine st) = Idle → next_policy st p → NewEngine (Some p) = Err err → agent_step st (AInvalid p) (skipped st)
  | AgTick st pods order :
      fn_phase (ag_fine st) = Idle → is_Some (ag_sub st) → (∀ i, order i ≡ₚ map_to_list pods) →
      agent_step st ATick (applying st (ag_done st) (ag_eng st) pods order)
  | AgCall st l f : fine_step (ag_fine st) l f → l ≠ Begin → agent_step st (ACall l) (called st l f).
Inductive agent_run (st : agent) : list agent_label → agent → Prop :=
  | agent_refl : agent_run st [] st
  | agent_snoc ls st1 l st2 : agent_run st ls st1 → agent_step st1 l st2 → agent_run st (ls ++ [l]) st2.
(** [Run] has enabled enforcement, built its engine and begun the first [apply]; the
    learner may have been at work already. *)
Definition starts (s : feed) (e : engine) (f : fine) (pods : gmap Z PodInfo) (order : nat → list (Z * PodInfo)) : agent :=
  {| ag_src := s; ag_sub := None; ag_at := feed_Snapshot s; ag_done := 0; ag_eng := e;
     ag_from := f; ag_pods := pods; ag_since := []; ag_fine := begun f (e_policy e) order |}.

(** ** The invariant *)
Definition well_owned (f : fine) : Prop := keys_ok f ∧ ∀ k, is_Some (lookup_probe (maps (fn_prog f)) k) → owner f k.
Definition chan_inv (e0 : engine) (st : agent) : Prop :=
  match ag_sub st with
  | None => ag_done st = 0 ∧ ag_eng st = e0
  | Some i => ∃ c, feed_subs (ag_src st) !! i = Some c ∧ ag_done st ≤ length (received c) ∧
      ag_eng st = consumer_engine e0 (take (ag_done st) (received c)) ∧
      ((visible c = [] ∧ feed_Snapshot (ag_src st) = ag_at st) ∨ last (visible c) = Some (feed_Snapshot (ag_src st)))
  end.
Record agent_inv (e0 : engine) (st : agent) : Prop := {
  ai_src : feed_ok (ag_src st);
  ai_chan : chan_inv e0 st;
  ai_eng : NewEngine (Some (e_policy (ag_eng st))) = Ok (ag_eng st);
  ai_from : fn_phase (ag_from st) = Idle ∧ well_owned (ag_from st);
  ai_run : ∃ order, (∀ i, order i ≡ₚ map_to_list (ag_pods st)) ∧
    fine_run (begun (ag_from st) (e_policy (ag_eng st)) order) (ag_since st) (ag_fine st) ∧ Begin ∉ ag_since st;
  ai_cfg : km_contents (Cfg (maps (fn_prog (ag_fine st)))) !! 0%Z = Some {| Enabled := 1; DryRun := 0 |}
}.

Lemma keys_ok_run f ls f' : fine_run f ls f' → keys_ok f → keys_ok f'.
Proof. induction 1 as [|ls f1 l f2 _ IH Hs]; [done|]. intros Hk. by eapply keys_ok_step; [apply IH|]. Qed.
Lemma begun_step f pol order : fn_phase f = Idle → fine_step f Begin (begun f pol order).
Proof. apply FBegin. Qed.
Lemma well_owned_run f pol order ls f' : fn_phase f = Idle → well_owned f → fine_run (begun f pol order) ls f' → well_owned f'.
Proof.
  intros Hid [Hk Ho] Hrun. assert (fine_run f (Begin :: ls) f') as Hr by (eapply fine_cons; [by apply begun_step|done]).
  split; [by eapply keys_ok_run|by eapply owner_run].
Qed.
Lemma consumer_engine_snoc e0 ps p : consumer_engine e0 (ps ++ [p]) = sink_update (consumer_engine e0 ps) (Some p).
Proof. unfold consumer_engine. by rewrite foldl_app. Qed.
Lemma compiled_self p e : NewEngine (Some p) = Ok e → NewEngine (Some (e_policy e)) = Ok e.
Proof. intros He. by rewrite (proj1 (NewEngine_ok _ _ He)). Qed.

(** Dealing with the next policy keeps the channel's part. *)
Lemma chan_next e0 st st' p :
  chan_inv e0 st → next_policy st p → ag_src st' = ag_src st → ag_sub st' = ag_sub st → ag_at st' = ag_at st →
  ag_done st' = S (ag_done st) → ag_eng st' = sink_update (ag_eng st) (Some p) → chan_inv e0 st'.
Proof.
  unfold chan_inv. intros Hc (i & c & Hsub & Hi & Hp) -> -> -> -> ->. rewrite Hsub in *. destruct Hc as (c' & Hc' & Hd & Heng & Hv).
  rewrite Hi in Hc'. injection Hc' as <-. exists c. split; [done|]. split; [by apply lookup_lt_Some in Hp|]. split; [|done].
  by rewrite (take_S_r _ _ p), consumer_engine_snoc, <-Heng.
Qed.
Lemma chan_source e0 st o : feed_ok (ag_src st) → chan_inv e0 st → chan_inv e0 (at_source st (feed_step (ag_src st) o)).
Proof.
  unfold chan_inv. cbn [at_source ag_src ag_sub ag_at ag_done ag_eng]. intros Hok. destruct (ag_sub st) as [i|]; [|done].
  intros (c & Hc & Hd & Heng & Hv). destruct (feed_delivers (ag_src st) o i c Hok Hc) as (c' & Hc' & Hpre & Hs).
  exists c'. split; [done|]. destruct Hpre as [l Hl]. rewrite Hl, length_app, take_app_le by done. split; [lia|]. split; [done|].
  destruct Hs as [[-> ->]|?]; [done|by right].
Qed.
Lemma chan_subscribe e0 st : feed_ok (ag_src st) → ag_sub st = None → chan_inv e0 st → chan_inv e0 (subscribed st).
Proof.
  unfold chan_inv. cbn [subscribed ag_src ag_sub ag_at ag_done ag_eng]. intros Hok -> [Hd ->].
  destruct (feed_Subscribe_spec (ag_src st) Hok) as (_ & -> & ->). exists make_chan. split; [by apply list_lookup_middle|].
  rewrite Hd. split; [done|]. split; [done|]. by left.
Qed.
Lemma applying_inv e0 st done e pods order :
  agent_inv e0 st → fn_phase (ag_fine st) = Idle → (∀ i, order i ≡ₚ map_to_list pods) → NewEngine (Some (e_policy e)) = Ok e →
  chan_inv e0 (applying st done e pods order) → agent_inv e0 (applying st done e pods order).
Proof.
  intros [Hs _ _ [Hid Hw] (ord & _ & Hrun & _) Hcfg] Hph Ho He Hc. split; try done; cbn [applying ag_from ag_fine ag_since ag_eng ag_pods].
  - split; [done|]. exact (well_owned_run _ _ _ _ _ Hid Hw Hrun).
  - exists order. split; [done|]. split; [constructor|by apply not_elem_of_nil].
Qed.
Lemma agent_step_inv e0 st l st' : agent_inv e0 st → agent_step st l st' → agent_inv e0 st'.
Proof.
  intros Hinv Hstep. pose proof Hinv as [Hs Hc He Hf Hr Hcfg].
  destruct Hstep as [st o|st Hph Hsub|st p e pods order Hph Hp Hne Ho|st p err Hph Hp Hne|st pods order Hph Hsub Ho|st l f Hst Hl].
  - split; try done; [by apply feed_step_ok|by apply chan_source].
  - split; try done; [by apply feed_Subscribe_spec|by apply chan_subscribe].
  - apply applying_inv; [done..|by eapply compiled_self|]. eapply chan_next; [done..|]. unfold sink_update. by rewrite Hne.
  - split; try done. eapply chan_next; [done..|]. unfold sink_update. by rewrite Hne.
  - by apply applying_inv.
  - split; try done.
    + destruct Hr as (order & Ho & Hrun & Hb). exists order. split; [done|]. split; [by eapply fine_snoc|]. cbn [called ag_since]. set_solver.
    + cbn [called ag_fine]. by rewrite (cfg_step _ _ _ Hst).
Qed.
Lemma starts_inv s e f pods order :
  feed_ok s → NewEngine (Some (feed_Snapshot s)) = Ok e → fn_phase f = Idle → well_owned f → (∀ i, order i ≡ₚ map_to_list pods) →
  km_contents (Cfg (maps (fn_prog f))) !! 0%Z = Some {| Enabled := 1; DryRun := 0 |} → agent_inv e (starts s e f pods order).
Proof.
  intros Hs He Hid Hw Ho Hcfg. split; try done; [by eapply compiled_self|]. exists order. split; [done|]. split; [constructor|by apply not_elem_of_nil].
Qed.
Lemma agent_run_inv e0 st ls st' : agent_run st ls st' → agent_inv e0 st → agent_inv e0 st'.
Proof. induction 1 as [|ls st1 l st2 _ IH Hs]; [done|]. intros Hi. by eapply agent_step_inv; [apply IH|]. Qed.

(** The programmer that [Run] starts with. *)
Definition enabled_fine (p1 : programmer) (es : gmap verdictKey Z) (pending : option (verdictKey * Z)) : fine :=
  {| fn_prog := p1; fn_phase := Idle; fn_entries := es; fn_pending := pending |}.
Lemma stale_covers p k : stale p k = true → covers (prev_of p) k.
Proof.
  destruct k as [vk|q|cg]; cbn [stale covers prev_of ks_Verdict ks_CIDR ks_Default]; rewrite ?andb_true_iff, ?bool_decide_eq_true; [done| |tauto].
  intros (key & Hk%elem_of_elements & Hq)%list_elem_of_omap. eauto.
Qed.
Lemma enabled_well_owned p p1 es pending :
  put_cfg {| Enabled := 1; DryRun := 0 |} p = Some p1 → prog_inv p → owned p →
  well_owned (enabled_fine p1 es pending) ∧ km_contents (Cfg (maps p1)) !! 0%Z = Some {| Enabled := 1; DryRun := 0 |}.
Proof.
  intros Hcfg Hinv Hown. destruct (put_cfg_owned _ _ _ Hcfg Hinv Hown) as [Hi Ho]. split; [split; [done|]|].
  - intros k Hk. destruct (Ho k Hk) as [->|Hs%stale_covers]; [by left|]. right. by left.
  - unfold put_cfg in Hcfg. apply fmap_Some in Hcfg as (s & Hs & ->). by apply (km_put_key _ _ _ _ Hs).
Qed.

(** ** Settled *)
(** Between two runs of [apply], with everything delivered dealt with. *)
Definition settled (st : agent) : Prop :=
  fn_phase (ag_fine st) = Idle ∧
  ∃ i c, ag_sub st = Some i ∧ feed_subs (ag_src st) !! i = Some c ∧ slot c = None ∧ ag_done st = length (received c).
(** It has received a policy, or the policy did not change before it subscribed. *)
Definition in_time (st : agent) : Prop :=
  ag_done st = 0 → match ag_sub st with None => feed_Snapshot (ag_src st) | Some _ => ag_at st end = e_policy (ag_eng st).
(** The learner had no entry at the packet's lookups when the last [apply] began, and
    has made no call on them since. *)
Definition learner_clear (st : agent) (cg : Z) (da dp : bytes) : Prop :=
  ∀ k, k ∈ probes cg da dp → ¬ learner_owns (ag_from st) k ∧ untouched (ag_since st) k.

Lemma settled_engine e0 st : agent_inv e0 st → settled st → in_time st → NewEngine (Some (feed_Snapshot (ag_src st))) = Ok (ag_eng st).
Proof.
  intros [Hs Hc He _ _ _] (_ & i & c & Hsub & Hi & Hslot & Hd) Ht. unfold chan_inv in Hc. rewrite Hsub in Hc.
  destruct Hc as (c' & Hc' & _ & Heng & Hv). rewrite Hi in Hc'. injection Hc' as <-. rewrite Hd, firstn_all in Heng.
  unfold visible in Hv. rewrite Hslot in Hv. cbn [option_list] in Hv. rewrite app_nil_r in Hv. destruct Hv as [[Hr ->]|Hl].
  - unfold in_time in Ht. rewrite Hsub in Ht. rewrite Ht; [done|]. by rewrite Hd, Hr.
  - apply last_Some in Hl as [l Hl]. rewrite Heng, Hl, consumer_engine_snoc. unfold sink_update.
    destruct (NewEngine_valid (feed_Snapshot (ag_src st))) as [e He']; [by apply feed_valid|]. by rewrite He'.
Qed.
Lemma covers_stale p k : covers (prev_of p) k → k = PD 0 ∨ stale p k = true.
Proof.
  destruct k as [vk|q|cg]; cbn [stale covers prev_of ks_Verdict ks_CIDR ks_Default]; rewrite ?andb_true_iff, ?bool_decide_eq_true; [by right|..].
  - intros (key & Hk & Hq). right. apply list_elem_of_omap. exists key. by rewrite elem_of_elements.
  - intros Hk. destruct (decide (cg = 0%Z)) as [->|]; [by left|by right].
Qed.
Lemma well_owned_at f cg da dp :
  fn_phase f = Idle → well_owned f → (∀ k, k ∈ probes cg da dp → ¬ learner_owns f k) → owned_at (fn_prog f) cg da dp.
Proof.
  intros Hid [_ Ho] Hl k Hk Hs. destruct (Ho k Hs) as [?|[Hp|?%Hl]]; [by left| |done|done].
  unfold programmer_owns in Hp. rewrite Hid in Hp. by apply covers_stale.
Qed.
(** The verdict that a settled agent's maps give. *)
Lemma settled_decides e0 st cg da dp :
  agent_inv e0 st → settled st → in_time st → learner_clear st cg da dp →
  let pol := feed_Snapshot (ag_src st) in
  room (fn_prog (ag_from st)) (map_to_list (ag_pods st)) pol → verdicts_fit (moment_domain (fn_prog (ag_from st)) (map_to_list (ag_pods st)) pol (ag_since st)) →
  verdict_for (maps (fn_prog (ag_fine st))) cg da dp =
    default ACTION_ALLOW (first (desired (map_to_list (ag_pods st)) pol) (probes cg da dp)).
Proof.
  cbn zeta. intros Hinv Hset Ht Hl Hroom Hev. pose proof (settled_engine e0 st Hinv Hset Ht) as Heng.
  pose proof Hinv as [_ _ _ [Hid Hw] (order & Ho & Hrun & Hb) _]. rewrite (proj1 (NewEngine_ok _ _ Heng)) in Hrun.
  apply (settled_verdict_kept (ag_from st) _ _ order Ho (proj1 (proj1 Hw)) Hroom (ag_since st)); try done.
  - by destruct Hset.
  - intros k Hk. by apply Hl.
  - apply well_owned_at; [done..|]. intros k Hk. by apply Hl.
Qed.
Lemma settled_drops (reserve : list event → bool) e0 st s da dp a :
  agent_inv e0 st → enforceable s da dp → verdict_for (maps (fn_prog (ag_fine st))) (skb_cgroup s) da dp = actionByte a →
  (egress reserve (maps (fn_prog (ag_fine st))) s).1 = false ↔ a = ActionDeny.
Proof.
  intros Hinv Hs Hv. rewrite egress_drops. unfold enforce_enabled. rewrite (ai_cfg e0 st Hinv). cbn [Enabled DryRun]. split.
  - intros (_ & da' & dp' & Hs' & Hd). destruct (enforceable_unique _ _ _ _ _ Hs Hs') as [<- <-]. rewrite Hv in Hd. by apply actionByte_deny.
  - intros ->. split; [done|]. exists da, dp. split; [done|]. rewrite Hv. by apply actionByte_deny.
Qed.

(** ** Settling *)
Definition own_call (l : label) : Prop := match l with Prog _ | Tau => True | Begin | Learn _ => False end.
(** The steps of the programmer's goroutine; [i] is its subscription. *)
Definition own_step (i : nat) (l : agent_label) : Prop :=
  match l with
  | ASource o => o = feed_receive i
  | ASubscribe | APolicy _ | AInvalid _ | ATick => True
  | ACall l => own_call l
  end.
Definition same_learner (f f' : fine) : Prop := fn_entries f' = fn_entries f ∧ fn_pending f' = fn_pending f.
Lemma same_learner_owns f f' k : same_learner f f' → learner_owns f' k ↔ learner_owns f k.
Proof. unfold learner_owns. by intros [-> ->]. Qed.

Lemma agent_trans st ls1 st1 ls2 st2 : agent_run st ls1 st1 → agent_run st1 ls2 st2 → agent_run st (ls1 ++ ls2) st2.
Proof.
  intros H1' H2'. induction H2' as [|ls st2 l st3 _ IH Hs]; [by rewrite app_nil_r|]. rewrite (assoc app). by eapply agent_snoc.
Qed.
Lemma agent_one st l st' : agent_step st l st' → agent_run st [l] st'.
Proof. intros Hs. apply (agent_snoc _ [] st); [constructor|done]. Qed.
Lemma agent_cons st l st1 ls st2 : agent_step st l st1 → agent_run st1 ls st2 → agent_run st (l :: ls) st2.
Proof. intros Hs Hr. apply (agent_trans st [l] st1); [by apply agent_one|done]. Qed.
(** Calls of the maps are steps of the agent. *)
Definition calling (st : agent) (ls : list label) (f : fine) : agent :=
  {| ag_src := ag_src st; ag_sub := ag_sub st; ag_at := ag_at st; ag_done := ag_done st; ag_eng := ag_eng st;
     ag_from := ag_from st; ag_pods := ag_pods st; ag_since := ag_since st ++ ls; ag_fine := f |}.
Lemma agent_calls st ls f : fine_run (ag_fine st) ls f → Forall own_call ls → agent_run st (ACall <$> ls) (calling st ls f).
Proof.
  induction 1 as [|ls f1 l f2 _ IH Hs]; intros Hown.
  { unfold calling. rewrite app_nil_r. destruct st. constructor. }
  apply Forall_app in Hown as [Hown [Hl _]%Forall_cons]. rewrite fmap_app. eapply agent_snoc; [by apply IH|].
  replace (calling st (ls ++ [l]) f2) with (called (calling st ls f1) l f2) by (unfold called, calling; cbn; by rewrite (assoc_L (++))).
  apply AgCall; [done|by intros ->].
Qed.
(** A run of [apply] comes to its end by its own calls. *)
Lemma deletes_finish todo f new : fn_phase f = Deleting todo new →
  ∃ ls f', fine_run f ls f' ∧ Forall own_call ls ∧ fn_phase f' = Idle ∧ same_learner f f'.
Proof.
  revert f. induction todo as [|op todo IH]; intros f Hph.
  - exists [Tau]. eexists. split; [apply fine_one; by apply FDone|]. split; [by repeat constructor|done].
  - destruct (IH (prog_step f (set_maps (fn_prog f) (exec_del (maps (fn_prog f)) op)) (Deleting todo new)) eq_refl) as (ls & f' & Hr & Ho & Hid & Hl).
    exists (Prog op :: ls), f'. split; [eapply fine_cons; [by apply FDelete|exact Hr]|]. split; [by constructor|done].
Qed.
Lemma apply_finish f : ∃ ls f', fine_run f ls f' ∧ Forall own_call ls ∧ fn_phase f' = Idle ∧ same_learner f f'.
Proof.
  destruct (fn_phase f) as [|todo new|todo new] eqn:Hph; [|revert f new Hph|by eapply deletes_finish].
  { exists [], f. split; [constructor|]. by split. }
  induction todo as [|op todo IH]; intros f new Hph.
  - destruct (deletes_finish (reconcile_ops (prev_of (fn_prog f)) new)
      (prog_step f (fn_prog f) (Deleting (reconcile_ops (prev_of (fn_prog f)) new) new)) new eq_refl) as (ls & f' & Hr & Ho & Hid & Hl).
    exists (Tau :: ls), f'. split; [eapply fine_cons; [by apply FReconcile|exact Hr]|]. split; [by constructor|done].
  - pose (mk := exec_rec (maps (fn_prog f), new) op).
    destruct (IH (prog_step f (set_maps (fn_prog f) mk.1) (Writing todo mk.2)) _ eq_refl) as (ls & f' & Hr & Ho & Hid & Hl).
    exists (Prog op :: ls), f'. split; [eapply fine_cons; [by apply FPut|exact Hr]|]. split; [by constructor|done].
Qed.

(** What settling keeps of [st]. *)
Definition same_world (st st' : agent) : Prop :=
  feed_Snapshot (ag_src st') = feed_Snapshot (ag_src st) ∧ same_learner (ag_fine st) (ag_fine st').
Lemma same_world_trans st st1 st2 : same_world st st1 → same_world st1 st2 → same_world st st2.
Proof. unfold same_world, same_learner. intros (-> & -> & ->) (-> & -> & ->). done. Qed.
Lemma finish_calls st : ∃ cs st', agent_run st (ACall <$> cs) st' ∧ Forall own_call cs ∧ fn_phase (ag_fine st') = Idle ∧ same_world st st' ∧
  ag_src st' = ag_src st ∧ ag_sub st' = ag_sub st ∧ ag_done st' = ag_done st ∧ ag_pods st' = ag_pods st ∧ ag_from st' = ag_from st ∧
  ag_since st' = ag_since st ++ cs.
Proof.
  destruct (apply_finish (ag_fine st)) as (ls & f & Hr & Ho & Hid & Hl). exists ls, (calling st ls f). split; [by apply agent_calls|]. done.
Qed.
Lemma own_calls i cs : Forall own_call cs → Forall (own_step i) (ACall <$> cs).
Proof. intros Hcs. by apply Forall_fmap. Qed.
(** The policies received are dealt with one after the other. *)
Lemma catch_up n (pods : gmap Z PodInfo) e0 st i c : agent_inv e0 st →
  fn_phase (ag_fine st) = Idle → ag_sub st = Some i → feed_subs (ag_src st) !! i = Some c → slot c = None → length (received c) = ag_done st + n →
  ∃ ls st', agent_run st ls st' ∧ Forall (own_step i) ls ∧ settled st' ∧ same_world st st' ∧ ag_sub st' = Some i.
Proof.
  revert st. induction n as [|n IH]; intros st Hinv Hid Hsub Hc Hslot Hlen.
  { exists [], st. split; [constructor|]. split; [done|]. split; [|done]. split; [done|]. exists i, c. repeat split; [done..|lia]. }
  destruct (lookup_lt_is_Some_2 (received c) (ag_done st)) as [p Hp]; [lia|].
  assert (next_policy st p) as Hnext by (by exists i, c).
  destruct (NewEngine_cases p) as [[e He]|[err He]].
  - pose proof (AgPolicy st p e pods (λ _, map_to_list pods) Hid Hnext He (λ _, reflexivity _)) as Hstep.
    set (st1 := applying st (S (ag_done st)) e pods (λ _, map_to_list pods)) in *.
    destruct (finish_calls st1) as (ls1 & st2 & Hr1 & Ho1 & Hid2 & Hw & Hsrc & Hsub2 & Hd & _).
    destruct (IH st2) as (ls2 & st3 & Hr2 & Ho2 & Hset & Hw2 & ?); [|done|by rewrite Hsub2|by rewrite Hsrc|done|rewrite Hd; unfold st1; cbn [applying ag_done]; lia|].
    { eapply agent_run_inv; [exact Hr1|]. by eapply agent_step_inv. }
    exists (APolicy p :: (ACall <$> ls1) ++ ls2), st3. split; [eapply agent_cons; [exact Hstep|by eapply agent_trans]|].
    split; [constructor; [done|]; apply Forall_app; split; [by apply own_calls|done]|]. split; [done|]. split; [|done]. by eapply same_world_trans; [|exact Hw2].
  - pose proof (AgInvalid st p err Hid Hnext He) as Hstep. destruct (IH (skipped st)) as (ls & st' & Hr & Ho & Hset & Hw & ?); try done.
    { by eapply agent_step_inv. }
    { cbn [skipped ag_done]. lia. }
    exists (AInvalid p :: ls), st'. split; [by eapply agent_cons|]. split; [by constructor|done].
Qed.
Lemma subscribe_drain e0 st : agent_inv e0 st → fn_phase (ag_fine st) = Idle →
  ∃ i c ls st', agent_run st ls st' ∧ Forall (own_step i) ls ∧ agent_inv e0 st' ∧ fn_phase (ag_fine st') = Idle ∧ same_world st st' ∧
    ag_sub st' = Some i ∧ feed_subs (ag_src st') !! i = Some c ∧ slot c = None ∧ ag_done st' ≤ length (received c).
Proof.
  intros Hinv Hid.
  assert (∃ i ls st1, agent_run st ls st1 ∧ Forall (own_step i) ls ∧ fn_phase (ag_fine st1) = Idle ∧ same_world st st1 ∧ ag_sub st1 = Some i)
    as (i & ls & st1 & Hr & Ho & Hid1 & Hw & Hsub).
  { destruct (ag_sub st) as [i|] eqn:E; [exists i, [], st; split; [constructor|done]|].
    exists (length (feed_subs (ag_src st))), [ASubscribe], (subscribed st). split; [apply agent_one; by apply AgSubscribe|].
    split; [by repeat constructor|]. split; [done|]. split; [|done]. split; [|done]. by apply feed_Subscribe_spec, (ai_src e0). }
  pose proof (agent_run_inv e0 _ _ _ Hr Hinv) as Hinv1. pose proof (AgSource st1 (feed_receive i)) as Hstep.
  pose proof (agent_step_inv e0 _ _ _ Hinv1 Hstep) as Hinv2. pose proof (ai_chan e0 st1 Hinv1) as Hc. unfold chan_inv in Hc. rewrite Hsub in Hc.
  destruct Hc as (c & Hc & Hd & _). destruct (feed_receive_spec (ag_src st1) i) as [Hsubs Hsnap].
  exists i, (receive c), (ls ++ [ASource (feed_receive i)]), (at_source st1 (feed_step (ag_src st1) (feed_receive i))).
  split; [by eapply agent_snoc|]. split; [apply Forall_app; split; [done|by repeat constructor]|]. split; [done|]. split; [done|].
  split; [by eapply same_world_trans|]. split; [done|]. cbn [at_source ag_src ag_done]. split; [by rewrite Hsubs, list_lookup_alter_eq, Hc|].
  split; [unfold receive; by destruct (slot c) eqn:E|]. destruct (receive_received c) as [l ->]. rewrite length_app. lia.
Qed.
(** From any state the programmer's goroutine, left alone, settles; its last [apply]
    is with the pods known now. *)
Lemma agent_can_settle e0 st (pods : gmap Z PodInfo) : agent_inv e0 st →
  ∃ i ls st', agent_run st ls st' ∧ Forall (own_step i) ls ∧ settled st' ∧ ag_pods st' = pods ∧
    feed_Snapshot (ag_src st') = feed_Snapshot (ag_src st) ∧ same_learner (ag_fine st) (ag_from st') ∧ Forall own_call (ag_since st').
Proof.
  intros Hinv. destruct (finish_calls st) as (ls1 & st1 & Hr1 & Ho1 & Hid1 & Hw1 & _). pose proof (agent_run_inv e0 _ _ _ Hr1 Hinv) as Hinv1.
  destruct (subscribe_drain e0 st1 Hinv1 Hid1) as (i & c & ls2 & st2 & Hr2 & Ho2 & Hinv2 & Hid2 & Hw2 & Hsub & Hc & Hslot & Hd).
  destruct (catch_up (length (received c) - ag_done st2) pods e0 st2 i c) as (ls3 & st3 & Hr3 & Ho3 & Hset & Hw3 & Hsub3); [done..|lia|].
  destruct Hset as [Hid3 (i' & c' & Hi' & Hc' & Hslot' & Hd')].
  pose proof (AgTick st3 pods (λ _, map_to_list pods) Hid3 ltac:(by rewrite Hi') (λ _, reflexivity _)) as Hstep.
  destruct (finish_calls (applying st3 (ag_done st3) (ag_eng st3) pods (λ _, map_to_list pods))) as
    (ls5 & st5 & Hr5 & Ho5 & Hid5 & Hw5 & Hsrc & Hsub5 & Hd5 & Hpods & Hfrom & Hsince).
  pose proof (same_world_trans _ _ _ Hw1 (same_world_trans _ _ _ Hw2 Hw3)) as [Hsnap Hl].
  exists i, ((ACall <$> ls1) ++ ls2 ++ ls3 ++ ATick :: (ACall <$> ls5)), st5. split_and!; [| | |exact Hpods| |by rewrite Hfrom|by rewrite Hsince].
  - eapply agent_trans; [exact Hr1|]. eapply agent_trans; [exact Hr2|]. eapply agent_trans; [exact Hr3|]. by eapply agent_cons.
  - rewrite !Forall_app, Forall_cons. repeat (split; [done || by apply own_calls|]). by apply own_calls.
  - split; [done|]. exists i', c'. by rewrite Hsub5, Hsrc, Hd5.
  - by rewrite Hsrc, <-Hsnap.
Qed.
Lemma own_in_time i st ls st' : agent_run st ls st' → Forall (own_step i) ls → in_time st → in_time st'.
Proof.
  unfold in_time. induction 1 as [|ls st1 l st2 _ IH Hs]; [done|]. rewrite Forall_app, Forall_singleton. intros [Ho Hl] Ht. specialize (IH Ho Ht).
  destruct Hs as [st1 o|st1 Hph Hsub|st1 p e pods order|st1 p err|st1 pods order Hph Hsub|st1 l f]; try done.
  - cbn in Hl. subst o. cbn [at_source ag_done ag_sub ag_src ag_at ag_eng]. destruct (feed_receive_spec (ag_src st1) i) as [_ ->]. exact IH.
  - by rewrite Hsub in IH.
Qed.
Lemma own_untouched cs k : Forall own_call cs → untouched cs k.
Proof. rewrite Forall_forall. intros Ho op Hop. by destruct (Ho _ Hop). Qed.

(** ** What the agent promises *)
(** C6: the agent can always settle, and then decides as the source's policy: from any
    state of a run (started with enforcement on, not dry-run, on maps the programmer
    owns) in which the source, the learner and the programmer take their steps in any
    order, the programmer's goroutine left alone comes, without a step of anyone else,
    to a state in which it has dealt with everything delivered and its last
    re-programming used the pods known now.  If it was in time (it has received a
    policy, or the policy did not change between its snapshot and its subscription),
    its engine is the source's policy; and then the packet hook drops an enforceable
    packet of a known pod exactly when that policy denies it, provided that the learner
    has no entry at the packet's lookups, that the maps have room for the policy (the
    kernel evicts nothing from the verdict map), and that the maps can express it: each
    rule is representable, and at the packet's lookups the more specific of two rules
    that disagree comes first. *)
Theorem agent_settles (reserve : list event → bool) s0 e0 p p1 es pending pods0 order0 ls st (pods : gmap Z PodInfo) :
  feed_ok s0 → NewEngine (Some (feed_Snapshot s0)) = Ok e0 → (∀ i, order0 i ≡ₚ map_to_list pods0) →
  put_cfg {| Enabled := 1; DryRun := 0 |} p = Some p1 → prog_inv p → owned p →
  agent_run (starts s0 e0 (enabled_fine p1 es pending) pods0 order0) ls st →
  ∃ i ls' st', agent_run st ls' st' ∧ Forall (own_step i) ls' ∧ settled st' ∧ feed_Snapshot (ag_src st') = feed_Snapshot (ag_src st) ∧
    ag_pods st' = pods ∧
    (in_time st → let pol := feed_Snapshot (ag_src st) in
     NewEngine (Some pol) = Ok (ag_eng st') ∧
     ∀ s da dp f, enforceable s da dp → good_pods pods → packet_flow pods (skb_cgroup s) da dp f →
       (∀ k, k ∈ probes (skb_cgroup s) da dp → ¬ learner_owns (ag_fine st) k) →
       room (fn_prog (ag_from st')) (map_to_list pods) pol → verdicts_fit (moment_domain (fn_prog (ag_from st')) (map_to_list pods) pol (ag_since st')) →
       Forall (λ r, representable r = true) (Rules pol) → specific_first (writes pods) rule_act (probes (skb_cgroup s) da dp) (Rules pol) →
       ((egress reserve (maps (fn_prog (ag_fine st'))) s).1 = false ↔ v_Action (policy_verdict pol f) = ActionDeny)).
Proof.
  intros Hs0 He0 Ho Hcfg Hinv Hown Hrun. destruct (enabled_well_owned p p1 es pending Hcfg Hinv Hown) as [Hw Hc].
  assert (agent_inv e0 st) as Hi by (by eapply agent_run_inv, starts_inv; [exact Hrun|..]).
  destruct (agent_can_settle e0 st pods Hi) as (i & ls' & st' & Hr & Hls & Hset & Hpods & Hsnap & Hl & Hsince).
  exists i, ls', st'. repeat (split; [done|]). cbn zeta. intros Ht. pose proof (own_in_time i _ _ _ Hr Hls Ht) as Ht'.
  pose proof (agent_run_inv e0 _ _ _ Hr Hi) as Hi'. rewrite <-Hsnap. split; [by eapply settled_engine|].
  intros s da dp f Hs Hgood Hf Hnl Hroom Hev Hrep Hsf. apply (settled_drops reserve e0 st' s da dp); [done..|].
  rewrite (settled_decides e0 st' (skb_cgroup s) da dp); rewrite ?Hpods; try done.
  - by rewrite (desired_engine pods _ _ _ _ f Hgood Hf Hrep Hsf).
  - intros k Hk. split; [|by apply own_untouched]. by rewrite (same_learner_owns _ _ _ Hl); apply Hnl.
Qed.
(** ** Shutdown *)
(** [Run] returns from its [select], so between two runs of [apply], and its deferred
    [disable] runs; the learner may go on. *)
Definition stopped (f : fine) : fine := prog_step f (disable (fn_prog f)) (fn_phase f).
Lemma cfg_run f ls f' : fine_run f ls f' → Cfg (maps (fn_prog f')) = Cfg (maps (fn_prog f)).
Proof. induction 1 as [|ls f1 l f2 _ IH Hs]; [done|]. by rewrite (cfg_step _ _ _ Hs). Qed.
(** The agent fails open while others still run: after [Run] has returned, from any
    state between two re-programmings, no packet is dropped and no connect refused,
    whatever map calls are still made. *)
Theorem agent_stops_open (reserve : list event → bool) s0 e0 p p1 es pending pods0 order0 ls st ls' f :
  feed_ok s0 → NewEngine (Some (feed_Snapshot s0)) = Ok e0 → (∀ i, order0 i ≡ₚ map_to_list pods0) →
  put_cfg {| Enabled := 1; DryRun := 0 |} p = Some p1 → prog_inv p → owned p →
  agent_run (starts s0 e0 (enabled_fine p1 es pending) pods0 order0) ls st → fn_phase (ag_fine st) = Idle →
  fine_run (stopped (ag_fine st)) ls' f →
  (∀ s, (egress reserve (maps (fn_prog f)) s).1 = true) ∧ ∀ proto cg da dp, (connect4 reserve (maps (fn_prog f)) proto cg da dp).1 = true.
Proof.
  intros Hs0 He0 Ho Hcfg Hinv Hown Hrun _ Hstop. destruct (enabled_well_owned p p1 es pending Hcfg Hinv Hown) as [Hw Hc].
  assert (agent_inv e0 st) as Hi by (by eapply agent_run_inv, starts_inv; [exact Hrun|..]).
  assert (enforce_enabled (maps (fn_prog f)) = None) as Hoff.
  { unfold enforce_enabled. rewrite (cfg_run _ _ _ Hstop). apply disable_disables. by rewrite (ai_cfg e0 st Hi). }
  split.
  - intros s. apply not_false_is_true. rewrite egress_drops. intros [He _]. congruence.
  - intros proto cg da dp. unfold connect4. rewrite Hoff. by case_bool_decide.
Qed.
End agent.

Section resources.
Context `{UnicodeCase} `{Kernel}.
#[local] Existing Instance crd_feed.
End resources.

(** ** Concrete runs *)
Lemma own_labels `{Kernel} p pol order : Forall own_call (apply_labels p pol order).
Proof. apply Forall_forall. by intros l [->|[op ->]]%apply_labels_own. Qed.
(** A node with no resources starts; a resource is created, the source rebuilds and
    delivers, and while the programmer re-programs the learner puts an entry of its own. *)
Definition ex_crd : PolicyFeed := crd_feed.
#[local] Existing Instance ascii_case.
#[local] Existing Instance linux.
#[local] Existing Instance ex_crd.
Definition ex_engine0 : engine := engine_of (Source_Snapshot (ex_node [])).
Definition ex_engine1 : engine := engine_of ex_merged.
Definition ex_begin : agent := starts (ex_node [] : feed) ex_engine0 (enabled_fine ex_enabled ∅ None) ex_pods ex_order.
Definition ex_programmer1 : programmer := apply ex_enabled ex_engine0 ex_order.
Definition ex_agent1 : agent :=
  calling ex_begin (apply_labels ex_enabled (e_policy ex_engine0) ex_order) (at_phase ex_programmer1 ∅ Idle).
Definition ex_agent2 : agent :=
  foldl (λ st o, at_source st (feed_step (ag_src st) o)) (subscribed ex_agent1) (ex_after : list feed_op).
Definition ex_other : verdictKey := vkey 7 [xc6; x33; x64; x07] any_port.
Definition ex_agent3 : agent := applying ex_agent2 1 ex_engine1 ex_pods ex_order.
Definition ex_programmer2 : programmer :=
  set_maps ex_programmer1 (default (maps ex_programmer1) (exec (PutV ex_other actAllow) (maps ex_programmer1))).
Definition ex_learning : list label := [Learn (PutV ex_other actAllow); Tau].
Definition ex_agent4 : agent :=
  {| ag_src := ag_src ex_agent3; ag_sub := ag_sub ex_agent3; ag_at := ag_at ex_agent3; ag_done := 1; ag_eng := ex_engine1;
     ag_from := ag_from ex_agent3; ag_pods := ex_pods; ag_since := ex_learning;
     ag_fine := begun (at_phase ex_programmer2 {[ex_other := 60%Z]} Idle) (e_policy ex_engine1) ex_order |}.
Definition ex_agent5 : agent :=
  calling ex_agent4 (apply_labels ex_programmer2 (e_policy ex_engine1) ex_order)
    (at_phase (apply ex_programmer2 ex_engine1 ex_order) {[ex_other := 60%Z]} Idle).
Lemma ex_source_run (os : list feed_op) st : agent_run st (ASource <$> os) (foldl (λ st o, at_source st (feed_step (ag_src st) o)) st os).
Proof. revert st. induction os as [|o os IH]; intros st; [constructor|]. eapply agent_cons; [apply AgSource|apply IH]. Qed.
Lemma ex_agent_run : ∃ ls, agent_run ex_begin ls ex_agent5.
Proof.
  eexists. eapply agent_trans; [apply agent_calls; [|apply own_labels]; apply (apply_run ex_enabled ∅ ex_engine0 ex_order)|].
  eapply agent_cons; [by apply AgSubscribe|]. eapply agent_trans; [apply (ex_source_run ex_after)|].
  eapply agent_cons.
  { apply (AgPolicy _ ex_merged ex_engine1 ex_pods ex_order); [done| |by vm_compute|done].
    destruct (src_subs (ag_src ex_agent2) !! 0) as [c|] eqn:Ec; [|by vm_compute in Ec]. exists 0, c. split; [by vm_compute|]. split; [exact Ec|].
    assert (c = default make_chan (src_subs (ag_src ex_agent2) !! 0)) as -> by (by rewrite Ec). by vm_compute. }
  eapply agent_cons; [apply AgCall; [by apply (FLearn _ ex_other actAllow 60)|done]|].
  eapply agent_cons; [apply AgCall; [by apply (FRemember _ ex_other 60)|done]|].
  apply (agent_calls ex_agent4); [|apply own_labels]. apply (apply_run ex_programmer2 {[ex_other := 60%Z]} ex_engine1 ex_order).
Qed.
Lemma ex_crd_ok : feed_ok (ex_node [] : feed).
Proof. split; [apply crd_run_ok, crd_init_ok|by vm_compute]. Qed.
Lemma ex_settled : settled ex_agent5.
Proof.
  split; [done|]. destruct (src_subs (ag_src ex_agent2) !! 0) as [c|] eqn:Ec; [|by vm_compute in Ec].
  assert (c = default make_chan (src_subs (ag_src ex_agent2) !! 0)) as Hc by (by rewrite Ec).
  exists 0, c. split; [by vm_compute|]. split; [exact Ec|]. rewrite Hc. split; by vm_compute.
Qed.
Lemma ex_clear : learner_clear ex_agent5 7 [xcb; x00; x71; x09] [x01; xbb].
Proof.
  intros k Hk. split.
  - intros (vk & _ & [Hs|[? ?]]); [|done]. cbn in Hs. rewrite lookup_empty in Hs. by destruct Hs.
  - intros op Hop [v Hv]. change (ag_since ex_agent5) with (ex_learning ++ apply_labels ex_programmer2 (e_policy ex_engine1) ex_order) in Hop.
    apply elem_of_app in Hop as [Hop|[?|[? ?]]%apply_labels_own]; [|done..]. unfold ex_learning in Hop.
    apply elem_of_cons in Hop as [[= ->]|Hop]; [|apply list_elem_of_singleton in Hop; done].
    cbn [op_effect] in Hv. injection Hv as <- _. apply probes_daddr in Hk. by vm_compute in Hk.
Qed.
Lemma agent_settles_witness : ∃ i ls' st',
  agent_run ex_begin ls' st' ∧ Forall (own_step i) ls' ∧ settled st' ∧ NewEngine (Some (Source_Snapshot (ex_node []))) = Ok (ag_eng st').
Proof.
  destruct (agent_settles (H1 := ex_crd) (λ _, true) (ex_node []) ex_engine0 fresh ex_enabled ∅ None ex_pods ex_order [] ex_begin ex_pods)
    as (i & ls' & st' & Hr & Ho & Hset & _ & _ & Hd).
  - exact ex_crd_ok.
  - by vm_compute.
  - done.
  - apply ex_enabled_ok.
  - apply fresh_inv.
  - apply fresh_owned.
  - constructor.
  - exists i, ls', st'. split; [exact Hr|]. split; [exact Ho|]. split; [exact Hset|]. apply Hd. intros _. by vm_compute.
Defined.
