(* ===== verification/Cluster.v ===== *)
(** * The operator's control loop and the nodes

    Policies live in the API server; the operator's reconcilers read them from an
    informer cache and write the status back; the agents read them from caches of
    their own.  A step of [cluster_step] is a user's write, the delivery of an object
    to the cache, or one call of [Reconcile] by a worker.  What the API server does is
    its documented convention: a write gets a resource version not used before, a new
    spec a new generation, a status update changes the status alone and is refused
    when the version it is based on is not the stored one; only the operator writes
    status.  The theorems: a status that names the current generation is right, the
    control loop can always settle and then stays quiet after at most one write per
    object, and the nodes run exactly the policies whose status says Accepted. *)

From S2P Require Import Prelude GoStrings Policy Aggregate PolicySource Crd.

Inductive key := NsKey (ns name : string) | ClKey (name : string).
#[export] Instance key_eq_dec : EqDecision key.
Proof. solve_decision. Defined.
#[export] Program Instance key_countable : Countable key :=
  inj_countable (λ k, match k with NsKey ns name => inl (ns, name) | ClKey name => inr name end)
    (λ x, Some (match x with inl (ns, name) => NsKey ns name | inr name => ClKey name end)) _.
Next Obligation. by intros []. Qed.

(** An object as stored, and the operator beside it. *)
Record object := { ob_spec : EgressPolicySpec; ob_gen : Z; ob_rv : Z; ob_status : EgressPolicyStatus }.
Definition new_status : EgressPolicyStatus := {| st_ObservedGeneration := 0; st_RuleCount := 0; st_Conditions := [] |}.
Record cluster := { server : gmap key object; revision : Z; cache : gmap key object; queue : gset key }.
Inductive act := User | Informer (k : key) | Wrote (k : key) | Skipped (k : key) | Failed (k : key).

Section control.
Context `{StatusConditions} (error_string : policy_error → string).
(** [Reconcile] of the kind's controller on what the cache gives. *)
Definition reconcile_key (k : key) (got : option object) : option EgressPolicyStatus :=
  let meta o := {| Generation := ob_gen o; o_Status := ob_status o |} in
  match k with
  | NsKey ns name => EgressPolicy_Reconcile error_string ((λ o, ({| ep_Namespace := ns; ep_Name := name; ep_Spec := ob_spec o |}, meta o)) <$> got)
  | ClKey name => ClusterEgressPolicy_Reconcile error_string ((λ o, ({| cep_Name := name; cep_Spec := ob_spec o |}, meta o)) <$> got)
  end.

(** A write by the API server. *)
Definition store (st : cluster) (k : key) (spec : EgressPolicySpec) (gen : Z) (status : EgressPolicyStatus) : cluster :=
  {| server := <[k := {| ob_spec := spec; ob_gen := gen; ob_rv := revision st + 1; ob_status := status |}]> (server st);
     revision := revision st + 1; cache := cache st; queue := queue st |}.
Definition done_with (st : cluster) (k : key) : cluster :=
  {| server := server st; revision := revision st; cache := cache st; queue := queue st ∖ {[k]} |}.
Inductive cluster_step : cluster → act → cluster → Prop :=
  | Create st k spec : server st !! k = None → cluster_step st User (store st k spec 1 new_status)
  | Edit st k o spec : server st !! k = Some o → cluster_step st User (store st k spec (ob_gen o + 1) (ob_status o))
  | Touch st k o : server st !! k = Some o → cluster_step st User (store st k (ob_spec o) (ob_gen o) (ob_status o))
  | Remove st k :
      cluster_step st User {| server := delete k (server st); revision := revision st + 1; cache := cache st; queue := queue st |}
  | Deliver st k :
      cluster_step st (Informer k)
        {| server := server st; revision := revision st; cache := partial_alter (λ _, server st !! k) k (cache st); queue := {[k]} ∪ queue st |}
  | NothingToDo st k : k ∈ queue st → reconcile_key k (cache st !! k) = None → cluster_step st (Skipped k) (done_with st k)
  | StatusWritten st k c o s :
      k ∈ queue st → cache st !! k = Some c → reconcile_key k (Some c) = Some s → server st !! k = Some o → ob_rv c = ob_rv o →
      cluster_step st (Wrote k) (done_with (store st k (ob_spec o) (ob_gen o) s) k)
  | Requeued st k : k ∈ queue st → cluster_step st (Failed k) st.
Inductive cluster_run (st : cluster) : list act → cluster → Prop :=
  | run_refl : cluster_run st [] st
  | run_snoc ls st1 l st2 : cluster_run st ls st1 → cluster_step st1 l st2 → cluster_run st (ls ++ [l]) st2.

(** ** What a reconcile leaves *)
Definition validation (spec : EgressPolicySpec) : option policy_error := Validate (Some (ToPolicy (Some spec))).
(** The status describes the object's current spec. *)
Definition describes (o : object) : Prop :=
  st_ObservedGeneration (ob_status o) = ob_gen o ∧ st_RuleCount (ob_status o) = int32 (length (s_Rules (ob_spec o))) ∧
  Exists (λ c, c = accepted_condition error_string (ob_gen o) (validation (ob_spec o))) (st_Conditions (ob_status o)).
Definition settled (k : key) (o : object) : Prop := reconcile_key k (Some o) = None.
Lemma reconcile_key_with k o :
  reconcile_key k (Some o) = Reconcile_with error_string (validation (ob_spec o)) (length (s_Rules (ob_spec o))) {| Generation := ob_gen o; o_Status := ob_status o |}.
Proof. destruct k; cbn [reconcile_key fmap option_fmap option_map EgressPolicy_Reconcile ClusterEgressPolicy_Reconcile ep_Spec ep_Namespace]; [by rewrite Validate_scoped|done]. Qed.
Lemma settled_describes k o : settled k o → describes o.
Proof.
  unfold settled, describes. rewrite reconcile_key_with. intros Hn.
  destruct (Reconcile_with_spec error_string (validation (ob_spec o)) (length (s_Rules (ob_spec o))) {| Generation := ob_gen o; o_Status := ob_status o |})
    as (Hc & _ & Hg & Hr). rewrite Hn in Hc, Hg, Hr. done.
Qed.
Lemma reconcile_settles k o s rv :
  reconcile_key k (Some o) = Some s →
  settled k {| ob_spec := ob_spec o; ob_gen := ob_gen o; ob_rv := rv; ob_status := s |} ∧ st_ObservedGeneration s = ob_gen o.
Proof.
  unfold settled. rewrite !reconcile_key_with. intros Hs. cbn [ob_spec ob_gen ob_status].
  destruct (Reconcile_with_spec error_string (validation (ob_spec o)) (length (s_Rules (ob_spec o))) {| Generation := ob_gen o; o_Status := ob_status o |})
    as (_ & Hn & Hg & _). rewrite Hs in Hn, Hg. done.
Qed.
Lemma settled_rv k o rv : settled k o → settled k {| ob_spec := ob_spec o; ob_gen := ob_gen o; ob_rv := rv; ob_status := ob_status o |}.
Proof. unfold settled. by rewrite !reconcile_key_with. Qed.

(** ** The invariant *)
Record cluster_inv (st : cluster) : Prop := {
  inv_server k o : server st !! k = Some o →
    (ob_rv o ≤ revision st)%Z ∧ (st_ObservedGeneration (ob_status o) ≤ ob_gen o)%Z ∧ (st_ObservedGeneration (ob_status o) = ob_gen o → settled k o);
  inv_cache k c : cache st !! k = Some c → (ob_rv c ≤ revision st)%Z ∧ ∀ o, server st !! k = Some o → ob_rv c = ob_rv o → c = o
}.
Lemma store_inv st k spec gen s :
  cluster_inv st → (st_ObservedGeneration s ≤ gen)%Z →
  (st_ObservedGeneration s = gen → ∀ rv, settled k {| ob_spec := spec; ob_gen := gen; ob_rv := rv; ob_status := s |}) → cluster_inv (store st k spec gen s).
Proof.
  intros [Hs Hc] Hle Hset. split; cbn [store server cache revision].
  - intros k' o. destruct (decide (k' = k)) as [->|Hn].
    + rewrite lookup_insert_eq. intros [= <-]. cbn [ob_rv ob_status ob_gen]. split; [lia|]. split; [done|]. intros E. by apply Hset.
    + rewrite lookup_insert_ne by done. intros (? & ? & ?)%Hs. split; [lia|done].
  - intros k' c (? & Heq)%Hc. split; [lia|]. intros o. destruct (decide (k' = k)) as [->|Hn].
    + rewrite lookup_insert_eq. intros [= <-]. cbn [ob_rv]. lia.
    + rewrite lookup_insert_ne by done. apply Heq.
Qed.
Lemma done_with_inv st k : cluster_inv st → cluster_inv (done_with st k).
Proof. by intros [Hs Hc]. Qed.
Lemma cluster_step_inv st l st' : cluster_inv st → cluster_step st l st' → cluster_inv st'.
Proof.
  intros Hi Hstep. pose proof Hi as [Hs Hc]. destruct Hstep as [st k spec Hk|st k o spec Hk|st k o Hk|st k|st k|st k Hq Hr|st k c o s Hq Hca Hr Hk Hrv|st k Hq].
  - by apply store_inv.
  - destruct (Hs k o Hk) as (_ & Hle & _). apply store_inv; [done|lia|lia].
  - destruct (Hs k o Hk) as (_ & Hle & Hset). apply store_inv; [done..|]. intros E rv. by apply settled_rv, Hset.
  - split; cbn [server cache revision].
    + intros k' o [_ Ho]%lookup_delete_Some. destruct (Hs k' o Ho) as (? & ? & ?). split; [lia|done].
    + intros k' c Hk. destruct (Hc k' c Hk) as [? Heq]. split; [lia|]. intros o [_ Ho]%lookup_delete_Some. by apply Heq.
  - split; cbn [server cache revision]; [done|]. intros k' c. rewrite lookup_partial_alter. case_decide as E; [subst k'|apply Hc].
    intros Hk. split; [by apply (Hs k c)|]. intros o Ho _. congruence.
  - by apply done_with_inv.
  - apply done_with_inv. rewrite (proj2 (Hc k c Hca) o Hk Hrv) in Hr. destruct (reconcile_settles k o s 0 Hr) as [_ Hg].
    apply store_inv; [done|lia|]. intros _ rv. by eapply reconcile_settles.
  - done.
Qed.
Lemma cluster_run_inv st ls st' : cluster_inv st → cluster_run st ls st' → cluster_inv st'.
Proof. intros Hi. induction 1 as [|ls st1 l st2 _ IH Hs]; [done|]. by eapply cluster_step_inv. Qed.

(** ** Without user writes *)
Definition writes (ls : list act) : list key := omap (λ l, match l with Wrote k => Some k | _ => None end) ls.
(** The same objects, their statuses aside. *)
Definition same_specs (m m' : gmap key object) : Prop := (λ o, (ob_spec o, ob_gen o)) <$> m' = (λ o, (ob_spec o, ob_gen o)) <$> m.
Lemma same_specs_dom m m' : same_specs m m' → dom m' = dom m.
Proof. unfold same_specs. intros E. by rewrite <-(dom_fmap_L (λ o, (ob_spec o, ob_gen o)) m'), E, dom_fmap_L. Qed.
Lemma same_specs_insert m k o s rv : m !! k = Some o → same_specs m (<[k := {| ob_spec := ob_spec o; ob_gen := ob_gen o; ob_rv := rv; ob_status := s |}]> m).
Proof. intros Hk. unfold same_specs. rewrite fmap_insert. cbn [ob_spec ob_gen]. apply insert_id. by rewrite lookup_fmap, Hk. Qed.

(** One step of the operator: a write is of an object that was not settled and is
    settled now; any other step leaves the server alone. *)
Lemma operator_step st l st' : cluster_inv st → cluster_step st l st' → l ≠ User →
  match l with
  | Wrote k => ∃ o o', server st !! k = Some o ∧ ¬ settled k o ∧ settled k o' ∧ server st' = <[k := o']> (server st) ∧ same_specs (server st) (server st')
  | _ => server st' = server st
  end.
Proof.
  intros [Hs Hc] Hstep Hl. destruct Hstep as [| | | |st k|st k Hq Hr|st k c o s Hq Hca Hr Hk Hrv|st k Hq]; try done.
  rewrite (proj2 (Hc k c Hca) o Hk Hrv) in Hr. exists o. eexists. split; [done|]. split; [unfold settled; by rewrite Hr|].
  split; [|split; [done|by apply same_specs_insert]]. by eapply reconcile_settles.
Qed.
Lemma operator_run st ls st' : cluster_inv st → cluster_run st ls st' → User ∉ ls →
  same_specs (server st) (server st') ∧ NoDup (writes ls) ∧
  (∀ k, k ∈ writes ls → ∃ o, server st' !! k = Some o ∧ settled k o) ∧
  (∀ k o, server st !! k = Some o → settled k o → k ∉ writes ls ∧ server st' !! k = Some o).
Proof.
  intros Hi Hrun. induction Hrun as [|ls st1 l st2 Hrun IH Hstep]; intros Hu.
  { split; [done|]. split; [constructor|]. split; [by intros k ?%not_elem_of_nil|]. intros k o Ho _. split; [apply not_elem_of_nil|done]. }
  destruct IH as (Hsame & Hnd & Hset & Hkeep); [set_solver|]. assert (l ≠ User) as Hl by set_solver.
  pose proof (operator_step _ _ _ (cluster_run_inv _ _ _ Hi Hrun) Hstep Hl) as Hop. unfold writes in *. rewrite omap_app.
  destruct l as [|k|k|k|k]; [done| | | |]; cbn [omap list_omap]; rewrite ?app_nil_r; try (rewrite Hop; by split).
  destruct Hop as (o & o' & Ho & Hns & Hs' & E & Hsp).
  assert (k ∉ omap (λ l, match l with Wrote k => Some k | _ => None end) ls) as Hnew.
  { intros (o1 & Ho1 & ?)%Hset. congruence. }
  split; [unfold same_specs in *; congruence|]. split; [apply NoDup_app; split; [done|]; split; [|apply NoDup_singleton]; set_solver|]. split.
  - intros k' [Hk'| ->%list_elem_of_singleton]%elem_of_app; rewrite E.
    + rewrite lookup_insert_ne by (intros ->; done). by apply Hset.
    + exists o'. by rewrite lookup_insert_eq.
  - intros k' o1 Ho1 Hs1. destruct (Hkeep k' o1 Ho1 Hs1) as [Hn1 Hl1]. assert (k' ≠ k) as Hne by (intros ->; congruence).
    split; [rewrite elem_of_app, list_elem_of_singleton; tauto|]. by rewrite E, lookup_insert_ne.
Qed.
Lemma cluster_trans st ls1 st1 ls2 st2 : cluster_run st ls1 st1 → cluster_run st1 ls2 st2 → cluster_run st (ls1 ++ ls2) st2.
Proof.
  intros H1 H2. induction H2 as [|ls st2 l st3 _ IH Hs]; [by rewrite app_nil_r|]. rewrite (assoc app). by eapply run_snoc.
Qed.
(** A delivery and a call of [Reconcile] settle an object. *)
Lemma settle_one st k o : server st !! k = Some o → ∃ ls st' o',
  cluster_run st ls st' ∧ User ∉ ls ∧ server st' !! k = Some o' ∧ settled k o'.
Proof.
  intros Hk. set (st1 := {| server := server st; revision := revision st; cache := partial_alter (λ _, server st !! k) k (cache st); queue := {[k]} ∪ queue st |}).
  assert (cluster_run st [Informer k] st1) as H1 by (apply (run_snoc _ [] st); [constructor|apply Deliver]).
  assert (k ∈ queue st1) as Hq by set_solver. assert (cache st1 !! k = Some o) as Hca by (cbn; by rewrite lookup_partial_alter_eq).
  destruct (reconcile_key k (Some o)) as [s|] eqn:Hr.
  - eexists [Informer k; Wrote k], _, _. split; [eapply (run_snoc _ [Informer k]); [done|by apply (StatusWritten st1 k o o s)]|].
    split; [set_solver|]. cbn [done_with store server st1]. rewrite lookup_insert_eq. split; [done|]. by eapply reconcile_settles.
  - eexists [Informer k; Skipped k], _, o. split; [eapply (run_snoc _ [Informer k]); [done|apply (NothingToDo st1 k); [done|by rewrite Hca]]|].
    split; [set_solver|]. done.
Qed.
Lemma settle_all (ks : list key) st : cluster_inv st → (∀ k, k ∈ ks → is_Some (server st !! k)) → ∃ ls st',
  cluster_run st ls st' ∧ User ∉ ls ∧ ∀ k, k ∈ ks → ∃ o, server st' !! k = Some o ∧ settled k o.
Proof.
  intros Hi. induction ks as [|k ks IH]; intros Hks; [exists [], st; split; [constructor|]; split; [apply not_elem_of_nil|by intros k ?%not_elem_of_nil]|].
  destruct IH as (ls1 & st1 & Hr1 & Hu1 & Hs1); [intros; apply Hks; by right|].
  destruct (operator_run _ _ _ Hi Hr1 Hu1) as (Hsame & _ & _).
  assert (is_Some (server st1 !! k)) as [o Ho].
  { apply elem_of_dom. rewrite (same_specs_dom _ _ Hsame). apply elem_of_dom, Hks. by left. }
  destruct (settle_one st1 k o Ho) as (ls2 & st2 & o2 & Hr2 & Hu2 & Ho2 & Hs2).
  destruct (operator_run _ _ _ (cluster_run_inv _ _ _ Hi Hr1) Hr2 Hu2) as (_ & _ & _ & Hkeep).
  exists (ls1 ++ ls2), st2. split; [by eapply cluster_trans|]. split; [set_solver|].
  intros k' [->|Hk']%elem_of_cons; [eauto|]. destruct (Hs1 k' Hk') as (o' & Ho' & Hset). exists o'. split; [|done]. by apply Hkeep.
Qed.
End control.

(** ** Theorems *)
(** Nothing stored yet; [r] is the first resource version. *)
Definition empty_cluster (r : Z) : cluster := {| server := ∅; revision := r; cache := ∅; queue := ∅ |}.
Lemma empty_inv `{StatusConditions} error_string r : cluster_inv error_string (empty_cluster r).
Proof. split; intros k o Ho; cbn in Ho; by rewrite lookup_empty in Ho. Qed.

(** A status that is up to date is right: however users' writes, late deliveries
    to the operator's cache, reconciles, conflicts and retries interleave, an object
    whose status names its current generation has the rule count and the Accepted
    condition of its current spec. *)
Theorem status_honest `{StatusConditions} error_string r ls st k o :
  cluster_run error_string (empty_cluster r) ls st → server st !! k = Some o →
  st_ObservedGeneration (ob_status o) = ob_gen o → describes error_string o.
Proof.
  intros Hrun Ho Hg. destruct (cluster_run_inv _ _ _ _ (empty_inv error_string r) Hrun) as [Hs _].
  destruct (Hs k o Ho) as (_ & _ & Hset). by apply (settled_describes error_string k), Hset.
Qed.

(** C30: the control loop comes to rest: from every reachable state the operator can,
    without any write by a user, bring every status up to date with the specs
    unchanged; and in any run without user writes it writes each object's status at
    most once, and never that of an object that needs no change. *)
Theorem control_loop_settles `{StatusConditions} error_string r ls0 st :
  cluster_run error_string (empty_cluster r) ls0 st →
  (∃ ls st', cluster_run error_string st ls st' ∧ User ∉ ls ∧ same_specs (server st) (server st') ∧
     ∀ k o, server st' !! k = Some o → describes error_string o ∧ settled error_string k o) ∧
  (∀ ls st', cluster_run error_string st ls st' → User ∉ ls →
     NoDup (writes ls) ∧ (∀ k, k ∈ writes ls → is_Some (server st !! k)) ∧
     ((∀ k o, server st !! k = Some o → settled error_string k o) → writes ls = [] ∧ server st' = server st)).
Proof.
  intros Hrun. pose proof (cluster_run_inv _ _ _ _ (empty_inv error_string r) Hrun) as Hi. split.
  - destruct (settle_all error_string (elements (dom (server st))) st Hi) as (ls & st' & Hr & Hu & Hset).
    { intros k Hk. by apply elem_of_dom, elem_of_elements. }
    destruct (operator_run _ _ _ _ Hi Hr Hu) as (Hsame & _). exists ls, st'. split_and!; try done. intros k o Ho.
    destruct (Hset k) as (o' & Ho' & Hs).
    { apply elem_of_elements. rewrite <-(same_specs_dom _ _ Hsame). by eapply elem_of_dom_2. }
    simplify_eq. split; [|done]. by eapply settled_describes.
  - intros ls st' Hr Hu. destruct (operator_run _ _ _ _ Hi Hr Hu) as (Hsame & Hnd & Hset & Hkeep).
    pose proof (same_specs_dom _ _ Hsame) as Hdom.
    assert (∀ k, k ∈ writes ls → is_Some (server st !! k)) as Hin.
    { intros k (o & Ho & _)%Hset. apply elem_of_dom. rewrite <-Hdom. by eapply elem_of_dom_2. }
    split; [done|]. split; [done|]. intros Hall. split.
    + destruct (writes ls) as [|k ws]; [done|]. destruct (Hin k) as [o Ho]; [left|]. destruct (Hkeep k o Ho (Hall k o Ho)) as [Hn _]. destruct Hn. left.
    + apply map_eq. intros k. destruct (server st !! k) as [o|] eqn:Ho; [by apply Hkeep; [|apply Hall]|].
      apply not_elem_of_dom. rewrite Hdom. by apply not_elem_of_dom.
Qed.

(** *** The nodes *)
(** The objects of each kind, as an informer lists them. *)
Definition ns_objects (m : gmap key object) : list EgressPolicy :=
  omap (λ ko, match ko.1 with NsKey ns name => Some {| ep_Namespace := ns; ep_Name := name; ep_Spec := ob_spec ko.2 |} | ClKey _ => None end) (map_to_list m).
Definition cl_objects (m : gmap key object) : list ClusterEgressPolicy :=
  omap (λ ko, match ko.1 with ClKey name => Some {| cep_Name := name; cep_Spec := ob_spec ko.2 |} | NsKey _ _ => None end) (map_to_list m).
(** The policy of an object in the aggregate of an agent. *)
Definition in_aggregate (src : source_state) (k : key) (spec : EgressPolicySpec) : Prop :=
  let p := Some (ToPolicy (Some spec)) in
  match k with
  | NsKey ns name => {| np_Namespace := ns; np_Name := name; np_Policy := p |} ∈ accept_ns (cache_ns src)
  | ClKey name => {| cp_Name := name; cp_Policy := p |} ∈ accept_cluster (cache_cl src)
  end.
Lemma in_aggregate_valid src m k o :
  cache_ns src ≡ₚ ns_objects m → cache_cl src ≡ₚ cl_objects m → m !! k = Some o →
  in_aggregate src k (ob_spec o) ↔ Validate (Some (ToPolicy (Some (ob_spec o)))) = None.
Proof.
  intros Hns Hcl Ho. unfold in_aggregate. destruct k as [ns name|name].
  - unfold accept_ns. rewrite Hns, list_elem_of_omap. split.
    + intros (ep & _ & He). destruct (Validate (Some (ToPolicy (Some (ep_Spec ep))))) eqn:E; [done|].
      apply (inj Some), (f_equal np_Policy) in He. cbn [np_Policy] in He. by rewrite <-He.
    + intros Hv. exists {| ep_Namespace := ns; ep_Name := name; ep_Spec := ob_spec o |}. cbn [ep_Spec]. rewrite Hv. split; [|done].
      unfold ns_objects. apply list_elem_of_omap. exists (NsKey ns name, o). split; [by apply elem_of_map_to_list|done].
  - unfold accept_cluster. rewrite Hcl, list_elem_of_omap. split.
    + intros (ep & _ & He). destruct (Validate (Some (ToPolicy (Some (cep_Spec ep))))) eqn:E; [done|].
      apply (inj Some), (f_equal cp_Policy) in He. cbn [cp_Policy] in He. by rewrite <-He.
    + intros Hv. exists {| cep_Name := name; cep_Spec := ob_spec o |}. cbn [cep_Spec]. rewrite Hv. split; [|done].
      unfold cl_objects. apply list_elem_of_omap. exists (ClKey name, o). split; [by apply elem_of_map_to_list|done].
Qed.
(** C29: Accepted means enforced on every node: once an object's status is up to date,
    its Accepted condition for the current generation is True exactly when every
    agent whose cache holds the server's objects takes its policy into the aggregate,
    and otherwise carries the validation error. *)
Theorem accepted_is_enforced `{StatusConditions} error_string r ls st k o src :
  cluster_run error_string (empty_cluster r) ls st → server st !! k = Some o →
  st_ObservedGeneration (ob_status o) = ob_gen o →
  cache_ns src ≡ₚ ns_objects (server st) → cache_cl src ≡ₚ cl_objects (server st) →
  ∃ c, Exists (λ c', c' = c) (st_Conditions (ob_status o)) ∧ cd_Type c = condTypeAccepted ∧ cd_ObservedGeneration c = ob_gen o ∧
    (cd_Status c = true ↔ in_aggregate src k (ob_spec o)) ∧
    (∀ err, Validate (Some (ToPolicy (Some (ob_spec o)))) = Some err → cd_Message c = error_string err).
Proof.
  intros Hrun Ho Hg Hns Hcl. destruct (cluster_run_inv _ _ _ _ (empty_inv error_string r) Hrun) as [Hs _].
  destruct (Hs k o Ho) as (_ & _ & Hset). destruct (settled_describes error_string k o (Hset Hg)) as (_ & _ & Hc). unfold validation in Hc.
  eexists. split; [exact Hc|]. rewrite (in_aggregate_valid src (server st) k o Hns Hcl Ho).
  destruct (Validate _) as [err|]; cbn [accepted_condition cd_Type cd_ObservedGeneration cd_Status cd_Message]; split_and!; try done; naive_solver.
Qed.

(** ** Concrete runs *)
Definition ex_key : key := NsKey "b" "q".
Definition ex_msg : policy_error → string := λ _, "invalid".
Definition ex_created : cluster := store (empty_cluster 0) ex_key (ex_spec [443%Z] "Bogus") 1 new_status.
Definition ex_delivered : cluster :=
  {| server := server ex_created; revision := revision ex_created; cache := partial_alter (λ _, server ex_created !! ex_key) ex_key (cache ex_created);
     queue := {[ex_key]} ∪ queue ex_created |}.
Definition ex_obj : object := {| ob_spec := ex_spec [443%Z] "Bogus"; ob_gen := 1; ob_rv := 1; ob_status := new_status |}.
Definition ex_written : EgressPolicyStatus := default new_status (reconcile_key (H := meta_conditions) ex_msg ex_key (Some ex_obj)).
Definition ex_stamped : cluster := done_with (store ex_delivered ex_key (ex_spec [443%Z] "Bogus") 1 ex_written) ex_key.
Lemma ex_stamped_run : cluster_run (H := meta_conditions) ex_msg (empty_cluster 0) [User; Informer ex_key; Wrote ex_key] ex_stamped.
Proof.
  apply (run_snoc _ _ [User; Informer ex_key] ex_delivered); [apply (run_snoc _ _ [User] ex_created); [apply (run_snoc _ _ [] (empty_cluster 0)); [constructor|]|]|].
  - by apply (Create (H := meta_conditions)).
  - apply (Deliver (H := meta_conditions)).
  - by apply (StatusWritten (H := meta_conditions) ex_msg ex_delivered ex_key ex_obj ex_obj ex_written).
Qed.
Definition ex_stamped_obj : object := {| ob_spec := ex_spec [443%Z] "Bogus"; ob_gen := 1; ob_rv := 2; ob_status := ex_written |}.
Lemma status_honest_witness : describes ex_msg ex_stamped_obj.
Proof.
  apply (status_honest (H := meta_conditions) ex_msg 0 [User; Informer ex_key; Wrote ex_key] ex_stamped ex_key).
  - exact ex_stamped_run.
  - by vm_compute.
  - by vm_compute.
Defined.
Lemma control_loop_settles_witness : ∃ ls st',
  cluster_run (H := meta_conditions) ex_msg ex_created ls st' ∧ User ∉ ls ∧ same_specs (server ex_created) (server st') ∧
  ∀ k o, server st' !! k = Some o → describes ex_msg o ∧ settled (H := meta_conditions) ex_msg k o.
Proof.
  apply (control_loop_settles (H := meta_conditions) ex_msg 0 [User] ex_created).
  apply (run_snoc _ _ [] (empty_cluster 0)); [constructor|]. by apply (Create (H := meta_conditions)).
Defined.
Lemma accepted_is_enforced_witness : ∃ c,
  Exists (λ c', c' = c) (st_Conditions ex_written) ∧ cd_Type c = condTypeAccepted ∧
  (cd_Status c = true ↔ in_aggregate (crd_init [] (ns_objects (server ex_stamped))) ex_key (ex_spec [443%Z] "Bogus")).
Proof.
  destruct (accepted_is_enforced (H := meta_conditions) ex_msg 0 [User; Informer ex_key; Wrote ex_key] ex_stamped ex_key ex_stamped_obj
    (crd_init [] (ns_objects (server ex_stamped)))) as (c & Hc & Ht & _ & Hs & _).
  - exact ex_stamped_run.
  - by vm_compute.
  - by vm_compute.
  - done.
  - by vm_compute.
  - exists c. split; [exact Hc|]. split; [exact Ht|exact Hs].
Defined.
(** A write based on an old version is refused: after an edit the operator's copy no
    longer has the stored version, and the only step left for the worker is to fail
    and try again. *)
Example stale_copy_refused :
  let st := store ex_delivered ex_key (ex_spec [80%Z] "Deny") 2 new_status in
  cluster_step (H := meta_conditions) ex_msg ex_delivered User st ∧
  ∀ l st', cluster_step (H := meta_conditions) ex_msg st l st' → l ≠ Wrote ex_key ∧ l ≠ Skipped ex_key.
Proof.
  cbn zeta. split; [by apply (Edit (H := meta_conditions) ex_msg ex_delivered ex_key ex_obj)|].
  intros l st' Hs. split; intros ->.
  - inversion Hs as [| | | | | |? ? c o s ? Hca ? Ho Hrv|]; subst. by vm_compute in Hca, Ho; simplify_eq.
  - inversion Hs as [| | | | |? ? Hq Hr| |]; subst. by vm_compute in Hr.
Qed.
