(* ===== verification/Metrics.v ===== *)
(** * Metrics ([internal/metrics/metrics.go])

    The registered metrics with their label names, what one effect of a monitor
    increments on its way through the sinks, and the counters after a run of the
    monitor, against the numbers [observed] of [ConnectLog] reads off the samples.  The
    Prometheus client panics when a series is asked for with the wrong number of
    label values, or a name is registered twice. *)

From S2P Require Import Prelude GoStrings GoNet Attr Policy Engine Datapath Config L7 PolicySource Crd Output Consumers DnsLearn TlsParse EgressMon ConnectLog.

Inductive metric_kind := CounterVec | Gauge.
Record metric := { mt_name : string; mt_kind : metric_kind; mt_labels : list string }.
Definition EventsTotal : metric := {| mt_name := "ebfw_events_total"; mt_kind := CounterVec; mt_labels := ["kind"] |}.
Definition FilteredTotal : metric := {| mt_name := "ebfw_filtered_total"; mt_kind := CounterVec; mt_labels := ["kind"] |}.
Definition AttributionTotal : metric := {| mt_name := "ebfw_attribution_total"; mt_kind := CounterVec; mt_labels := ["result"] |}.
Definition UprobesAttached : metric := {| mt_name := "ebfw_uprobe_attached"; mt_kind := Gauge; mt_labels := [] |}.
Definition EnforcementDecisionsTotal : metric :=
  {| mt_name := "ebfw_enforcement_decisions_total"; mt_kind := CounterVec; mt_labels := ["action"; "mode"] |}.
Definition PolicyRules : metric := {| mt_name := "ebfw_policy_rules"; mt_kind := Gauge; mt_labels := [] |}.
Definition EnforcementDropsTotal : metric := {| mt_name := "ebfw_enforcement_drops_total"; mt_kind := CounterVec; mt_labels := ["kind"] |}.
Definition DNSLearnedIPs : metric := {| mt_name := "ebfw_dns_learned_ips"; mt_kind := Gauge; mt_labels := [] |}.
Definition registered : list metric :=
  [EventsTotal; FilteredTotal; AttributionTotal; UprobesAttached; EnforcementDecisionsTotal; PolicyRules; EnforcementDropsTotal; DNSLearnedIPs].
(** [promauto]: a second registration of a name panics. *)
Definition register_all (ms : list metric) : go unit (gset string) :=
  foldl (λ r m, seen ← r; if bool_decide (mt_name m ∈ seen) then Panic else Ok ({[mt_name m]} ∪ seen)) (Ok ∅) ms.

(** [WithLabelValues(vs...).Inc()]. *)
Definition series : Type := string * list string.
Definition Inc (m : metric) (vs : list string) (s : gmap series Z) : go unit (gmap series Z) :=
  if bool_decide (length vs = length (mt_labels m))
  then Ok (<[(mt_name m, vs) := (default 0 (s !! (mt_name m, vs)) + 1)%Z]> s) else Panic.

(** [Serve]: the log lines, for the error [ListenAndServe] ends with, if it does. *)
Inductive serve_end := ServerClosed | ServerFailed (e : string).
Definition Serve (addr : string) (served : option serve_end) : list string :=
  if bool_decide (addr = "") then ["ebfw metrics: disabled (no address)"]
  else ("ebfw metrics: serving /metrics on " +:+ addr) ::
       match served with Some (ServerFailed e) => ["ebfw metrics: server stopped: " +:+ e] | _ => [] end.

(** ** From effects to counters *)
Section effects.
Context `{UnicodeCase}.
(** [record] of the output sinks. *)
Definition inc_record (e : Event) (s : gmap series Z) : go unit (gmap series Z) :=
  s ← Inc EventsTotal [Kind e] s;
  Inc AttributionTotal [if Known (ev_Pod e) then "hit" else "miss"] s.
(** One effect, with the annotating sink in front of the output, if there is one. *)
Definition inc_effect (sk : option sink) (x : effect) (s : gmap series Z) : go unit (gmap series Z) :=
  match x with
  | DropCounted k => Inc EnforcementDropsTotal [k] s
  | FilteredCounted k => Inc FilteredTotal [k] s
  | Emitted e =>
      match sk with
      | None => inc_record e s
      | Some sk =>
          let '(e, labels) := sink_emit sk e in
          s ← (match labels with Some (action, mode) => Inc EnforcementDecisionsTotal [action; mode] s | None => Ok s end : go unit (gmap series Z));
          inc_record e s
      end
  end.
Definition counters (sk : option sink) (xs : list effect) : go unit (gmap series Z) :=
  foldl (λ r x, s ← r; inc_effect sk x s) (Ok ∅) xs.

(** ** Accounting *)
Definition value (s : gmap series Z) (m : metric) (vs : list string) : Z := default 0%Z (s !! (mt_name m, vs)).
Definition count (P : effect → bool) (xs : list effect) : Z := Z.of_nat (length (List.filter P xs)).
Definition emitted_kind (k : string) (x : effect) : bool := match x with Emitted e => bool_decide (Kind e = k) | _ => false end.
Definition filtered_kind (k : string) (x : effect) : bool := match x with FilteredCounted k' => bool_decide (k' = k) | _ => false end.
Definition dropped_kind (k : string) (x : effect) : bool := match x with DropCounted k' => bool_decide (k' = k) | _ => false end.
Definition emitted_pod (known : bool) (x : effect) : bool := match x with Emitted e => bool_decide (Known (ev_Pod e) = known) | _ => false end.
Definition decided (sk : option sink) (act : string) (x : effect) : bool :=
  match x, sk with
  | Emitted e, Some sk => bool_decide ((sink_Emit (sk_eng sk) e).2 = Some act)
  | _, _ => false
  end.

Lemma Inc_value m m' vs vs' s s' :
  Inc m vs s = Ok s' → value s' m' vs' = (value s m' vs' + if bool_decide ((mt_name m, vs) = (mt_name m', vs')) then 1 else 0)%Z.
Proof.
  unfold Inc, value. case_bool_decide; [|done]. intros [= <-]. case_bool_decide as E.
  - rewrite E, lookup_insert_eq. done.
  - rewrite lookup_insert_ne by done. lia.
Qed.
Lemma count_snoc P xs x : count P (xs ++ [x]) = (count P xs + if P x then 1 else 0)%Z.
Proof. unfold count. rewrite List.filter_app, length_app. cbn [List.filter]. destruct (P x); cbn [length]; lia. Qed.
Lemma sink_emit_event eng e : Kind (sink_Emit eng e).1 = Kind e ∧ ev_Pod (sink_Emit eng e).1 = ev_Pod e.
Proof. unfold sink_Emit. destruct (connection_level _); [|done]. repeat case_bool_decide; done. Qed.

(** The series an effect increments. *)
Definition decision_series (sk : option sink) (e : Event) : list series :=
  match sk with
  | Some sk => from_option (λ a, [(mt_name EnforcementDecisionsTotal, [a; sk_mode sk])]) [] (sink_Emit (sk_eng sk) e).2
  | None => []
  end.
Definition series_of (sk : option sink) (x : effect) : list series :=
  match x with
  | DropCounted k => [(mt_name EnforcementDropsTotal, [k])]
  | FilteredCounted k => [(mt_name FilteredTotal, [k])]
  | Emitted e =>
      decision_series sk e ++
      [(mt_name EventsTotal, [Kind e]); (mt_name AttributionTotal, [if Known (ev_Pod e) then "hit" else "miss"])]
  end.
Definition hits (k : series) (l : list series) : Z := Z.of_nat (length (List.filter (λ k', bool_decide (k' = k)) l)).
Lemma Inc_ok m vs s : length vs = length (mt_labels m) → ∃ s', Inc m vs s = Ok s' ∧
  ∀ m' vs', value s' m' vs' = (value s m' vs' + hits (mt_name m', vs') [(mt_name m, vs)])%Z.
Proof.
  intros Hl. destruct (Inc m vs s) as [s'| | |] eqn:E; [|by unfold Inc in E; rewrite bool_decide_true in E by done..]. exists s'. split; [done|].
  intros m' vs'. rewrite (Inc_value _ _ _ _ _ _ E). unfold hits. cbn [List.filter].
  destruct (decide ((mt_name m, vs) = (mt_name m', vs'))); [by rewrite !bool_decide_true by done|by rewrite !bool_decide_false by done].
Qed.
Lemma hits_one n n' v v' : n = n' → hits (n, [v]) [(n', [v'])] = if bool_decide (v' = v) then 1%Z else 0%Z.
Proof. intros ->. unfold hits. cbn [List.filter]. rewrite (bool_decide_ext _ (v' = v)) by naive_solver. by case_bool_decide. Qed.
Lemma hits_none n vs n' vs' : n' ≠ n → hits (n, vs) [(n', vs')] = 0%Z.
Proof. intros Hn. unfold hits. cbn [List.filter]. by rewrite bool_decide_false by naive_solver. Qed.
Lemma hits_app k l l' : hits k (l ++ l') = (hits k l + hits k l')%Z.
Proof. unfold hits. rewrite List.filter_app, length_app. lia. Qed.
Lemma hits_cons k x y l : hits k (x :: y :: l) = (hits k [x] + hits k (y :: l))%Z.
Proof. apply (hits_app k [x]). Qed.
Lemma inc_record_ok e s : ∃ s', inc_record e s = Ok s' ∧ ∀ m vs, value s' m vs = (value s m vs + hits (mt_name m, vs) (series_of None (Emitted e)))%Z.
Proof.
  unfold inc_record. destruct (Inc_ok EventsTotal [Kind e] s eq_refl) as (s1 & -> & H1). cbn [mbind go_bind].
  destruct (Inc_ok AttributionTotal [if Known (ev_Pod e) then "hit" else "miss"] s1 eq_refl) as (s2 & -> & H2). exists s2. split; [done|].
  intros m vs. rewrite H2, H1. cbn [series_of decision_series app]. by rewrite hits_cons, Z.add_assoc.
Qed.
Lemma inc_effect_ok sk x s : ∃ s', inc_effect sk x s = Ok s' ∧ ∀ m vs, value s' m vs = (value s m vs + hits (mt_name m, vs) (series_of sk x))%Z.
Proof.
  destruct x as [k|k|e]; cbn [inc_effect series_of]; [by apply Inc_ok|by apply Inc_ok|].
  destruct sk as [sk|]; [|apply inc_record_ok]. unfold sink_emit. destruct (sink_emit_event (sk_eng sk) e) as [HK HP].
  destruct (sink_Emit (sk_eng sk) e) as [e' [act|]] eqn:Es; unfold decision_series; rewrite ?Es; cbn [fst snd fmap option_fmap option_map from_option app] in *.
  - destruct (Inc_ok EnforcementDecisionsTotal [act; sk_mode sk] s eq_refl) as (s1 & -> & H1). cbn [mbind go_bind].
    destruct (inc_record_ok e' s1) as (s2 & -> & H2). exists s2. split; [done|]. intros m vs. rewrite H2, H1. cbn [series_of decision_series app].
    by rewrite HK, HP, (hits_cons _ _ _ [_]), !Z.add_assoc.
  - cbn [mbind go_bind]. destruct (inc_record_ok e' s) as (s2 & -> & H2). exists s2. split; [done|]. intros m vs. rewrite H2. cbn [series_of decision_series app]. by rewrite HK, HP.
Qed.
Lemma counters_ok sk xs : ∃ s, counters sk xs = Ok s ∧ ∀ m vs, value s m vs = hits (mt_name m, vs) (xs ≫= series_of sk).
Proof.
  unfold counters. induction xs as [|x xs IH] using rev_ind; [by exists ∅|].
  destruct IH as (s & Hs & Hv). rewrite foldl_app, Hs. cbn [foldl mbind go_bind].
  destruct (inc_effect_ok sk x s) as (s' & -> & Hv'). exists s'. split; [done|]. intros m vs. rewrite Hv', Hv, bind_app, hits_app.
  cbn. by rewrite app_nil_r.
Qed.
Lemma hits_count k (P : effect → bool) sk xs :
  (∀ x, hits k (series_of sk x) = if P x then 1%Z else 0%Z) → hits k (xs ≫= series_of sk) = count P xs.
Proof.
  intros HP. induction xs as [|x xs IH] using rev_ind; [done|]. rewrite bind_app, hits_app, IH, count_snoc. f_equal.
  cbn. by rewrite app_nil_r, HP.
Qed.

Lemma hits_decisions n vs sk e : mt_name EnforcementDecisionsTotal ≠ n → hits (n, vs) (decision_series sk e) = 0%Z.
Proof. intros Hn. destruct sk as [sk|]; [|done]. cbn [decision_series]. destruct (sink_Emit _ _).2; [by apply hits_none|done]. Qed.
Lemma hits_decided sk e act :
  hits (mt_name EnforcementDecisionsTotal, [act; sk_mode sk]) (decision_series (Some sk) e) = if decided (Some sk) act (Emitted e) then 1%Z else 0%Z.
Proof.
  cbn [decision_series decided]. destruct (sink_Emit _ _).2 as [a|]; [|done]. cbn [from_option]. unfold hits. cbn [List.filter].
  destruct (decide (a = act)) as [->|Hne]; [by rewrite !bool_decide_true by done|by rewrite !bool_decide_false by naive_solver].
Qed.
(** Evaluate [hits] on the series of one effect. *)
Ltac hits_effect :=
  cbn [series_of]; rewrite ?hits_app, ?hits_cons; rewrite ?hits_decisions by done;
  repeat first [rewrite hits_one by done|rewrite hits_none by done].

(** The counters after any effects. *)
Lemma counters_account sk xs :
  ∃ s, counters sk xs = Ok s ∧
    (∀ k, value s EventsTotal [k] = count (emitted_kind k) xs ∧ value s FilteredTotal [k] = count (filtered_kind k) xs ∧
          value s EnforcementDropsTotal [k] = count (dropped_kind k) xs) ∧
    value s AttributionTotal ["hit"] = count (emitted_pod true) xs ∧ value s AttributionTotal ["miss"] = count (emitted_pod false) xs ∧
    (∀ sk' act, sk = Some sk' → value s EnforcementDecisionsTotal [act; sk_mode sk'] = count (decided sk act) xs).
Proof.
  destruct (counters_ok sk xs) as (s & Hs & Hv). exists s. split; [done|].
  split_and!; [intros k; split_and!|..|intros sk' act ->]; rewrite Hv; apply hits_count; intros [k'|k'|e]; hits_effect; try done.
  - cbn [emitted_kind]. by case_bool_decide.
  - cbn [emitted_pod]. by destruct (Known _).
  - cbn [emitted_pod]. by destruct (Known _).
  - rewrite hits_decided. by destruct (decided _ _ _).
Qed.

(** *** Counted from the samples *)
Lemma count_ext (P Q : effect → bool) xs : (∀ x, P x = Q x) → count P xs = count Q xs.
Proof. intros HPQ. unfold count. induction xs as [|x xs IH]; [done|]. cbn [List.filter]. rewrite HPQ. destruct (Q x); cbn [length]; lia. Qed.
Lemma count_anon (P : effect → bool) xs : (∀ x, P (anon x) = P x) → count P xs = count P (anon <$> xs).
Proof. intros HP. unfold count. induction xs as [|x xs IH]; [done|]. cbn [fmap list_fmap List.filter]. rewrite HP. destruct (P x); cbn [length]; lia. Qed.
Lemma count_app P xs ys : count P (xs ++ ys) = (count P xs + count P ys)%Z.
Proof. unfold count. rewrite List.filter_app, length_app. lia. Qed.
Lemma count_none P xs : Forall (λ x, P x = false) xs → count P xs = 0%Z.
Proof. unfold count. induction 1 as [|x xs Hx _ IH]; [done|]. cbn [List.filter]. by rewrite Hx. Qed.
(** A denied sample of a kind, by the numbers of [struct event]. *)
Definition denied_sample (k : string) (s : sample) : bool :=
  sm_denied s && match sm_type s with
                 | 1%Z => bool_decide (k = "connect") | 3%Z => bool_decide (k = "tls") | 4%Z => bool_decide (k = "http") | _ => false
                 end.
(** The action an event is shown with: its own, or else the engine's. *)
Definition shown_action (eng : engine) (e : Event) : string :=
  if bool_decide (Action e = "") then v_Action (Evaluate eng (flowFromEvent e)) else Action e.
Definition shown_as (sk : sink) (act : string) (x : effect) : bool :=
  match x with
  | Emitted e => bool_decide (Kind e ∈ ["connect"; "tls"; "http"; "https"]) && bool_decide (shown_action (sk_eng sk) e = act)
  | _ => false
  end.
Lemma decided_shown sk act x : decided (Some sk) act x = shown_as sk act x.
Proof.
  destruct x as [k|k|e]; [done..|]. cbn [decided shown_as]. unfold sink_Emit, connection_level, shown_action.
  change [KindConnect; KindTLS; KindHTTP; KindHTTPS] with ["connect"; "tls"; "http"; "https"].
  destruct (bool_decide (Kind e ∈ _)); [|done]. cbn [andb]. destruct (bool_decide_reflect (Action e = "")) as [|Ha]; cbn [snd].
  - apply bool_decide_ext. split; [by intros [= <-]|by intros <-].
  - assert (Action (if bool_decide (v_Action (Evaluate (sk_eng sk) (flowFromEvent e)) = Action e)
      then with_verdict e (Action e) (v_Rule (Evaluate (sk_eng sk) (flowFromEvent e))) else e) = Action e) as -> by (by destruct (bool_decide _)).
    apply bool_decide_ext. split; [by intros [= <-]|by intros <-].
Qed.
Section samples.
Context `{PodResolver} (dns : DnsParser) (f : Filter) (inspect : Inspection) (enforcing : bool).
Lemma count_dropped_one k new s : count (dropped_kind k) (observed_one dns f inspect enforcing new s) = if denied_sample k s then 1%Z else 0%Z.
Proof.
  assert (∀ c (xs : list effect), Forall (λ x, dropped_kind k x = false) xs →
    count (dropped_kind k) ((if sm_denied s then [DropCounted c] else []) ++ xs) = if sm_denied s && bool_decide (k = c) then 1%Z else 0%Z) as Hone.
  { intros c xs Hxs. rewrite count_app, (count_none _ xs) by done. destruct (sm_denied s); [|done]. unfold count. cbn.
    rewrite (bool_decide_ext (c = k) (k = c)) by done. by case_bool_decide. }
  unfold observed_one, denied_sample, shown.
  destruct (sm_type s) as [|[[|[]|]|[[]|[]|]|]|]; try (by rewrite andb_false_r); try apply Hone.
  - destruct (ServerName _); repeat constructor. by destruct (_ || _).
  - destruct (ParseRequest _); repeat constructor. by destruct (_ || _).
  - rewrite andb_false_r. apply count_none, Forall_fmap, Forall_true. intros q. cbn. by destruct (SkipDomain _ _).
  - destruct (SkipIP _ _); [by repeat constructor|]. destruct (_ || _); by repeat constructor.
Qed.
Lemma count_dropped k before raws :
  count (dropped_kind k) (observed dns f inspect enforcing before raws) = Z.of_nat (length (List.filter (denied_sample k) (omap read_sample raws))).
Proof.
  revert before. induction raws as [|raw raws IH]; intros before; [done|]. cbn [observed omap list_omap].
  destruct (read_sample raw) as [s|]; [|apply IH]. rewrite count_app, count_dropped_one, IH. cbn [List.filter].
  destruct (denied_sample k s); cbn [length]; lia.
Qed.

(** C35: the counters account for what the monitor saw: a fresh monitor in front of the
    counting sinks (with or without the annotating sink) handles every sequence of
    samples without asking a counter for wrong labels; afterwards the drop counter of a
    kind is the number of denied samples of that type; the event and filter counters
    are the numbers of events shown and of names and addresses the filter skipped, as
    read off the samples; the hits and misses are the numbers of events with and
    without a known pod; and each decision counter is the
    number of connection-level events whose action (the kernel's, or else the engine's
    verdict on the event) it names. *)
Theorem metrics_account sk raws r :
  let obs := observed dns f inspect enforcing [] raws in
  ∃ m s, monitor_run dns f inspect enforcing raws {| seen := ∅; pods := r; trace := [] |} = Ok m ∧ counters sk (trace m) = Ok s ∧ anon <$> trace m = obs ∧
    (∀ k, value s EnforcementDropsTotal [k] = Z.of_nat (length (List.filter (denied_sample k) (omap read_sample raws)))) ∧
    (∀ k, value s EventsTotal [k] = count (emitted_kind k) obs ∧ value s FilteredTotal [k] = count (filtered_kind k) obs) ∧
    value s AttributionTotal ["hit"] = count (emitted_pod true) (trace m) ∧
    value s AttributionTotal ["miss"] = count (emitted_pod false) (trace m) ∧
    (∀ sk' act, sk = Some sk' → value s EnforcementDecisionsTotal [act; sk_mode sk'] = count (shown_as sk' act) (trace m)).
Proof.
  cbn zeta. destruct (fresh_reports dns f inspect enforcing raws r) as (m & Hm & Hobs).
  destruct (counters_account sk (trace m)) as (s & Hs & Hk & Hh & Hmi & Hd). exists m, s. repeat (split; [done|]). split_and!; try done.
  - intros k. destruct (Hk k) as (_ & _ & ->). rewrite (count_anon (dropped_kind k)), Hobs by (by intros []). apply count_dropped.
  - intros k. destruct (Hk k) as (-> & -> & _). rewrite (count_anon (emitted_kind k)), (count_anon (filtered_kind k)), Hobs by (by intros []). done.
  - intros sk' act ->. rewrite (Hd sk' act eq_refl). apply count_ext, decided_shown.
Qed.
End samples.
End effects.

(** ** The learner's gauge *)
Section gauge.
Context `{UnicodeCase} `{Kernel} `{PodResolver} (dns : DnsParser).
(** [DNSLearnedIPs.Set] ends an answer that was not dropped early and every sweep. *)
Definition gauge_step (sg : learner_state * Z) (ev : learner_event) : go engine_error (learner_state * Z) :=
  let '(st, g) := sg in
  st' ← learner_step dns st ev;
  match ev with
  | Answer now raw =>
      '(pl, _) ← answer_plan dns (ls_eng st) raw (ls_pods st);
      Ok (st', match pl with Some _ => entryCount (ls_learner st') | None => g end)
  | PolicyUpdate _ => Ok (st', g)
  | SweepTick _ => Ok (st', entryCount (ls_learner st'))
  end.
Definition gauge_run (evs : list learner_event) (sg : learner_state * Z) : go engine_error (learner_state * Z) :=
  foldl (λ r ev, sg ← r; gauge_step sg ev) (Ok sg) evs.

(** An answer that is dropped early leaves the entries alone. *)
Lemma gauge_step_exact st ev st' :
  learner_step dns st ev = Ok st' → gauge_step (st, entryCount (ls_learner st)) ev = Ok (st', entryCount (ls_learner st')).
Proof.
  intros Hst. unfold gauge_step. rewrite Hst. cbn [mbind go_bind]. destruct ev as [now raw|q|now]; cbn [learner_step] in Hst; [| |done].
  - unfold handle in Hst. destruct (answer_plan dns (ls_eng st) raw (ls_pods st)) as [[[pl|] r]| | |]; cbn [mbind go_bind] in Hst |- *; try done.
    by injection Hst as <-.
  - by destruct (NewEngine q); injection Hst as <-.
Qed.
(** The gauge is the number of learned entries: from a learner whose engine is
    compiled, any sequence of answers, policy updates and sweeps ends without failure,
    and the gauge with the number of entries the learner then has. *)
Theorem gauge_exact P evs st :
  compiled_from P st → Forall (update_ok P) evs →
  ∃ st', learner_run dns evs st = Ok st' ∧ gauge_run evs (st, entryCount (ls_learner st)) = Ok (st', entryCount (ls_learner st')).
Proof.
  intros Hc Hu. revert st Hc. induction Hu as [|ev evs Hev _ IH]; intros st Hc; [by exists st|].
  destruct (learner_step_ok dns P 0 st ev Hc Hev) as (st1 & Hst & Hc1 & _). unfold learner_run, gauge_run. cbn [foldl mbind go_bind].
  rewrite Hst, (gauge_step_exact st ev st1 Hst). by apply IH.
Qed.

(** The two goroutines at the granularity of the mutex: an answer stores its entries
    one by one, counts, and sets the gauge; a sweep deletes and counts under one lock
    and then sets the gauge. *)
Inductive set_pos := NoSet | ToSet (n : Z).
Record gauge_state := { gs_entries : gmap verdictKey Z; gs_gauge : Z; gs_handle : set_pos; gs_sweep : set_pos }.
Inductive gauge_call := Store (k : verdictKey) (exp : Z) | Count | HandleSets | Sweep (now : Z) | SweepSets.
Definition gauge_calls (st : gauge_state) (c : gauge_call) : option gauge_state :=
  match c, gs_handle st, gs_sweep st with
  | Store k exp, NoSet, s => Some {| gs_entries := <[k := exp]> (gs_entries st); gs_gauge := gs_gauge st; gs_handle := NoSet; gs_sweep := s |}
  | Count, NoSet, s => Some {| gs_entries := gs_entries st; gs_gauge := gs_gauge st; gs_handle := ToSet (Z.of_nat (size (gs_entries st))); gs_sweep := s |}
  | HandleSets, ToSet n, s => Some {| gs_entries := gs_entries st; gs_gauge := n; gs_handle := NoSet; gs_sweep := s |}
  | Sweep now, h, NoSet =>
      let es := filter (λ kv, ¬ (kv.2 < now)%Z) (gs_entries st) in
      Some {| gs_entries := es; gs_gauge := gs_gauge st; gs_handle := h; gs_sweep := ToSet (Z.of_nat (size es)) |}
  | SweepSets, h, ToSet n => Some {| gs_entries := gs_entries st; gs_gauge := n; gs_handle := h; gs_sweep := NoSet |}
  | _, _, _ => None
  end.
End gauge.
(** The counts are taken under the lock and set outside it: an answer that counts
    before a sweep and sets after it leaves a gauge that no entry accounts for, until
    the next event. *)
Example gauge_overtaken : ∃ st,
  foldl (λ o c, st ← o; gauge_calls st c) (Some {| gs_entries := ∅; gs_gauge := 0; gs_handle := NoSet; gs_sweep := NoSet |})
    [Store (vkey 7 [xcb; x00; x71; x09] [x00; x00]) 5; Count; Sweep 10; SweepSets; HandleSets] = Some st ∧
  size (gs_entries st) = 0 ∧ gs_gauge st = 1%Z ∧ gs_handle st = NoSet ∧ gs_sweep st = NoSet.
Proof. eexists. split; [reflexivity|]. split; [by vm_compute|done]. Qed.
