(* ===== verification/SinkRun.v ===== *)
(** * Many producers, one sink

    The egress monitor and the HTTPS capture emit from their own goroutines, the
    policy watcher swaps the engine of the annotating sink meanwhile.  Here a step is
    one action of a goroutine: [Emit] up to the lock (the engine loaded, the verdict
    stamped, the counters bumped, for JSON the record built with its time), the lock,
    one [Write], the unlock.  [Renderer] is what the output sinks promise: the writes
    of an event.  The theorems say that what is written is always a sequence of whole
    events, each producer's in its order, and that the producers can always finish. *)

From S2P Require Import Prelude GoStrings GoNet Attr Policy Engine Config L7 PolicySource Crd Output Consumers DnsLearn EgressMon Metrics.

(** ** What a sink writes *)
Class Renderer := {
  writes_of : string → Event → list string;
  text_of : string → Event → string;
  writes_text now e : foldr String.append "" (writes_of now e) = text_of now e
}.
Lemma foldr_append_app l1 l2 : foldr String.append "" (l1 ++ l2) = foldr String.append "" l1 +:+ foldr String.append "" l2.
Proof. induction l1 as [|s l1 IH]; [done|]. simpl. by rewrite IH, str_app_assoc. Qed.
(** [textSink]: one [Fprintf] for the event and one for each header. *)
Definition text_writes (e : Event) : list string :=
  option_list ((λ l, l +:+ newline) <$> event_line e) ++ ((λ h, header_line h +:+ newline) <$> ev_Headers e).
Program Definition textSink : Renderer := {| writes_of _ e := text_writes e; text_of _ e := text_Emit e |}.
Next Obligation.
  intros now e. unfold text_writes, text_Emit. rewrite foldr_append_app. f_equal.
  - destruct (event_line e); simpl; [by rewrite str_app_nil_r|done].
  - induction (ev_Headers e) as [|h hs IH]; [done|]. cbn [fmap list_fmap foldr]. rewrite IH. by rewrite str_app_assoc.
Qed.
(** [jsonSink]: one [Encode], which writes the document and a newline together, or
    nothing when the document cannot be encoded. *)
Program Definition jsonSink (encode : jsonEvent → option string) : Renderer :=
  {| writes_of now e := option_list ((λ d, d +:+ newline) <$> encode (json_Emit now e));
     text_of now e := from_option (λ d, d +:+ newline) "" (encode (json_Emit now e)) |}.
Next Obligation. intros encode now e. simpl. destruct (encode _); simpl; [by rewrite str_app_nil_r|done]. Qed.
(** [New]. *)
Definition NewRenderer (encode : jsonEvent → option string) (fmt : string) : Renderer :=
  match New fmt with JsonFormat => jsonSink encode | TextFormat => textSink end.

(** ** Goroutines *)
Section sinks.
Context `{UnicodeCase} `{Renderer}.
(** One call of [Emit]: who calls, with what, the engine it loaded and its time. *)
Record item := { it_prod : nat; it_event : Event; it_eng : option engine; it_now : string }.
(** The event that reaches the output sink. *)
Definition item_event (it : item) : Event := match it_eng it with Some eng => (sink_Emit eng (it_event it)).1 | None => it_event it end.
Definition item_writes (it : item) : list string := writes_of (it_now it) (item_event it).
Definition item_text (it : item) : string := text_of (it_now it) (item_event it).
(** Between two calls, before the lock, and with the lock and writes to make. *)
Inductive emit_pos := Ready | Waiting (it : item) | Printing (it : item) (ws : list string).
Record producer := { pr_todo : list Event; pr_pos : emit_pos }.
(** [ss_log] records the calls in the order they took the lock. *)
Record sinks := {
  ss_sink : option sink; ss_mu : option nat; ss_out : string; ss_counts : list series; ss_prods : list producer; ss_log : list item
}.
Definition with_prod (st : sinks) (j : nat) (pr : producer) (mu : option nat) (out : string) (counts : list series) (log : list item) : sinks :=
  {| ss_sink := ss_sink st; ss_mu := mu; ss_out := out; ss_counts := counts; ss_prods := <[j := pr]> (ss_prods st); ss_log := log |}.

Inductive sink_label := SEmit (j : nat) | SLock (j : nat) | SWrite (j : nat) | SUnlock (j : nat) | SPolicy (p : Policy).
Inductive sink_step : sinks → sink_label → sinks → Prop :=
  | SkEmit st j e todo now :
      ss_prods st !! j = Some {| pr_todo := e :: todo; pr_pos := Ready |} →
      let it := {| it_prod := j; it_event := e; it_eng := sk_eng <$> ss_sink st; it_now := now |} in
      sink_step st (SEmit j) (with_prod st j {| pr_todo := todo; pr_pos := Waiting it |} (ss_mu st) (ss_out st)
        (ss_counts st ++ series_of (ss_sink st) (Emitted e)) (ss_log st))
  | SkLock st j todo it :
      ss_prods st !! j = Some {| pr_todo := todo; pr_pos := Waiting it |} → ss_mu st = None →
      sink_step st (SLock j) (with_prod st j {| pr_todo := todo; pr_pos := Printing it (item_writes it) |} (Some j) (ss_out st)
        (ss_counts st) (ss_log st ++ [it]))
  | SkWrite st j todo it w ws :
      ss_prods st !! j = Some {| pr_todo := todo; pr_pos := Printing it (w :: ws) |} →
      sink_step st (SWrite j) (with_prod st j {| pr_todo := todo; pr_pos := Printing it ws |} (ss_mu st) (ss_out st +:+ w) (ss_counts st) (ss_log st))
  | SkUnlock st j todo it :
      ss_prods st !! j = Some {| pr_todo := todo; pr_pos := Printing it [] |} →
      sink_step st (SUnlock j) (with_prod st j {| pr_todo := todo; pr_pos := Ready |} None (ss_out st) (ss_counts st) (ss_log st))
  | SkPolicy st p sk sk' :
      ss_sink st = Some sk → sink_watch sk (Some p) = Ok sk' →
      sink_step st (SPolicy p) {| ss_sink := Some sk'; ss_mu := ss_mu st; ss_out := ss_out st; ss_counts := ss_counts st; ss_prods := ss_prods st; ss_log := ss_log st |}.
Inductive sink_run (st : sinks) : list sink_label → sinks → Prop :=
  | sink_refl : sink_run st [] st
  | sink_snoc ls st1 l st2 : sink_run st ls st1 → sink_step st1 l st2 → sink_run st (ls ++ [l]) st2.
Definition sinks_start (sk : option sink) (evs : list (list Event)) : sinks :=
  {| ss_sink := sk; ss_mu := None; ss_out := ""; ss_counts := []; ss_prods := (λ es, {| pr_todo := es; pr_pos := Ready |}) <$> evs; ss_log := [] |}.

(** ** The invariant *)
Definition waiting (pr : producer) : option item := match pr_pos pr with Waiting it => Some it | _ => None end.
Definition calls_by (j : nat) (log : list item) : list Event := it_event <$> filter (λ it, it_prod it = j) log.
Definition texts (log : list item) : string := foldr String.append "" (item_text <$> log).
Definition policies (ls : list sink_label) : list Policy := omap (λ l, match l with SPolicy p => Some p | _ => None end) ls.
(** The engines that were in force so far. *)
Definition was_in_force (sk : option sink) (ls : list sink_label) (it : item) : Prop :=
  ∃ ps, ps `prefix_of` policies ls ∧ it_eng it = (λ s, consumer_engine (sk_eng s) ps) <$> sk.
(** Whose lock it is, and how far its holder's text has come. *)
Definition out_inv (st : sinks) : Prop :=
  match ss_mu st with
  | None => ss_out st = texts (ss_log st) ∧ ∀ j pr it ws, ss_prods st !! j = Some pr → pr_pos pr ≠ Printing it ws
  | Some j => ∃ todo it done ws log, ss_prods st !! j = Some {| pr_todo := todo; pr_pos := Printing it ws |} ∧
      ss_log st = log ++ [it] ∧ item_writes it = done ++ ws ∧ ss_out st = texts log +:+ foldr String.append "" done ∧
      ∀ j' pr it ws, ss_prods st !! j' = Some pr → pr_pos pr = Printing it ws → j' = j
  end.
Definition order_inv (evs : list (list Event)) (st : sinks) : Prop :=
  ∀ j, (λ pr, calls_by j (ss_log st) ++ option_list (it_event <$> waiting pr) ++ pr_todo pr) <$> ss_prods st !! j = evs !! j.
Definition items_of (st : sinks) : list item := ss_log st ++ omap waiting (ss_prods st).

Lemma texts_snoc log it : texts (log ++ [it]) = texts log +:+ item_text it.
Proof. unfold texts. rewrite fmap_app, foldr_append_app. cbn. by rewrite str_app_nil_r. Qed.
Lemma out_step st l st' : out_inv st → sink_step st l st' → out_inv st'.
Proof.
  intros Hout Hstep. destruct Hstep as [st j e todo now Hj it|st j todo it Hj Hmu|st j todo it w ws Hj|st j todo it Hj|st p sk sk' _ _]; [| | | |exact Hout];
    pose proof (lookup_lt_Some _ _ _ Hj) as Hlt; unfold out_inv in *; cbn [with_prod ss_mu ss_out ss_prods ss_log].
  - assert (∀ j' pr it' ws, <[j:={| pr_todo := todo; pr_pos := Waiting it |}]> (ss_prods st) !! j' = Some pr → pr_pos pr = Printing it' ws →
      j ≠ j' ∧ ss_prods st !! j' = Some pr) as Hother.
    { intros j' pr it' ws. destruct (decide (j = j')) as [<-|Hn]; [rewrite list_lookup_insert_eq by done; intros [= <-]; done|]. by rewrite list_lookup_insert_ne. }
    destruct (ss_mu st) as [k|].
    + destruct Hout as (todo' & it' & done & ws & log & Hk & Hl & Hw & Ho & Hex). exists todo', it', done, ws, log.
      split; [rewrite list_lookup_insert_ne; [done|congruence]|]. repeat (split; [done|]). intros j' pr it'' ws' Hj' Hp. destruct (Hother _ _ _ _ Hj' Hp). by eapply Hex.
    + destruct Hout as [Ho Hno]. split; [done|]. intros j' pr it' ws Hj' Hp. destruct (Hother _ _ _ _ Hj' Hp). by eapply Hno.
  - rewrite Hmu in Hout. destruct Hout as [Ho Hno]. exists todo, it, [], (item_writes it), (ss_log st).
    split; [by rewrite list_lookup_insert_eq|]. repeat (split; [done|]). split; [by rewrite Ho; cbn; rewrite str_app_nil_r|].
    intros j' pr it' ws' Hj' Hp. destruct (decide (j = j')) as [|Hn]; [done|]. rewrite list_lookup_insert_ne in Hj' by done. by destruct (Hno _ _ _ _ Hj' Hp).
  - destruct (ss_mu st) as [k|]; [|by destruct Hout as [_ Hno]; destruct (Hno _ _ _ _ Hj eq_refl)].
    destruct Hout as (todo' & it' & done & ws' & log & Hk & Hl & Hw & Ho & Hex). pose proof (Hex _ _ _ _ Hj eq_refl) as <-. rewrite Hj in Hk. simplify_eq.
    exists todo', it', (done ++ [w]), ws, log. split; [by rewrite list_lookup_insert_eq|]. split; [done|]. split; [by rewrite Hw, <-app_assoc|].
    split; [rewrite foldr_append_app, str_app_assoc, Ho; cbn; by rewrite str_app_nil_r|].
    intros j' pr it'' ws'' Hj' Hp. destruct (decide (j = j')) as [|Hn]; [done|]. rewrite list_lookup_insert_ne in Hj' by done. by eapply Hex.
  - destruct (ss_mu st) as [k|]; [|by destruct Hout as [_ Hno]; destruct (Hno _ _ _ _ Hj eq_refl)].
    destruct Hout as (todo' & it' & done & ws' & log & Hk & Hl & Hw & Ho & Hex). pose proof (Hex _ _ _ _ Hj eq_refl) as <-. rewrite Hj in Hk. simplify_eq.
    split; [rewrite Ho, Hl, texts_snoc; f_equal; unfold item_text; rewrite <-writes_text; change (writes_of _ _) with (item_writes it'); by rewrite Hw, app_nil_r|].
    intros j' pr it'' ws'' Hj' Hp. destruct (decide (j = j')) as [<-|Hn]; [rewrite list_lookup_insert_eq in Hj' by done; by simplify_eq|].
    rewrite list_lookup_insert_ne in Hj' by done. destruct Hn. by erewrite (Hex j').
Qed.

(** Each call is its producer's. *)
Definition prods_inv (st : sinks) : Prop := ∀ j pr it, ss_prods st !! j = Some pr → waiting pr = Some it → it_prod it = j.
Lemma calls_by_snoc j log it : calls_by j (log ++ [it]) = calls_by j log ++ if bool_decide (it_prod it = j) then [it_event it] else [].
Proof.
  unfold calls_by. rewrite filter_app, fmap_app. f_equal. rewrite filter_cons. case_bool_decide; [by rewrite decide_True by done|by rewrite decide_False by done].
Qed.
Lemma prods_step st l st' : prods_inv st → sink_step st l st' → prods_inv st'.
Proof.
  intros Hinv Hstep. destruct Hstep as [st j e todo now Hj it|st j todo it Hj Hmu|st j todo it w ws Hj|st j todo it Hj|st p sk sk' _ _]; [| | | |exact Hinv];
    pose proof (lookup_lt_Some _ _ _ Hj) as Hlt; intros j' pr it'; cbn [with_prod ss_prods];
    (destruct (decide (j = j')) as [<-|Hn]; [rewrite list_lookup_insert_eq by done; intros [= <-]|rewrite list_lookup_insert_ne by done; apply Hinv]); try done.
  intros [= <-]. done.
Qed.
Lemma order_step evs st l st' : prods_inv st → order_inv evs st → sink_step st l st' → order_inv evs st'.
Proof.
  intros Hp Hinv Hstep. destruct Hstep as [st j e todo now Hj it|st j todo it Hj Hmu|st j todo it w ws Hj|st j todo it Hj|st p sk sk' _ _]; [| | | |exact Hinv];
    pose proof (lookup_lt_Some _ _ _ Hj) as Hlt; intros j'; rewrite <-(Hinv j'); cbn [with_prod ss_prods ss_log];
    (destruct (decide (j = j')) as [<-|Hn]; [rewrite list_lookup_insert_eq, Hj by done|rewrite list_lookup_insert_ne by done]); try done.
  - pose proof (Hp _ _ it Hj eq_refl) as Hit. cbn. rewrite calls_by_snoc, bool_decide_true by done. by rewrite <-app_assoc.
  - pose proof (Hp _ _ it Hj eq_refl) as Hit. rewrite calls_by_snoc, bool_decide_false by congruence. by rewrite app_nil_r.
Qed.

(** The calls between their start and the lock, when a producer moves on. *)
Lemma waiting_insert (ps : list producer) j pr pr' :
  ps !! j = Some pr → option_list (waiting pr) ++ omap waiting (<[j := pr']> ps) ≡ₚ option_list (waiting pr') ++ omap waiting ps.
Proof.
  intros Hj. pose proof (lookup_lt_Some _ _ _ Hj) as Hlt. rewrite insert_take_drop by done. rewrite <-(take_drop_middle ps j pr Hj) at 3.
  rewrite !omap_app. cbn [omap list_omap]. destruct (waiting pr), (waiting pr'); cbn [option_list app]; rewrite <-?Permutation_middle; [apply Permutation_swap|done..].
Qed.
Lemma items_step st l st' : sink_step st l st' →
  items_of st' ≡ₚ items_of st ∧ ss_counts st' = ss_counts st ∨
  ∃ j e now, l = SEmit j ∧ items_of st' ≡ₚ {| it_prod := j; it_event := e; it_eng := sk_eng <$> ss_sink st; it_now := now |} :: items_of st ∧
    ss_counts st' = ss_counts st ++ series_of (ss_sink st) (Emitted e).
Proof.
  unfold items_of. destruct 1 as [st j e todo now Hj it|st j todo it Hj Hmu|st j todo it w ws Hj|st j todo it Hj|st p sk sk' _ _];
    cbn [with_prod ss_log ss_prods ss_counts]; try pose proof (waiting_insert _ _ _) as Hw.
  - right. exists j, e, now. split; [done|]. split; [|done]. rewrite Permutation_middle. apply Permutation_app_head.
    apply (waiting_insert _ _ _ {| pr_todo := todo; pr_pos := Waiting it |} Hj).
  - left. split; [|done]. rewrite <-app_assoc. apply Permutation_app_head. apply (waiting_insert _ _ _ {| pr_todo := todo; pr_pos := Printing it (item_writes it) |} Hj).
  - left. split; [|done]. apply Permutation_app_head. apply (waiting_insert _ _ _ {| pr_todo := todo; pr_pos := Printing it ws |} Hj).
  - left. split; [|done]. apply Permutation_app_head. apply (waiting_insert _ _ _ {| pr_todo := todo; pr_pos := Ready |} Hj).
  - by left.
Qed.
(** The engine, the verdicts and the counters. *)
Definition item_series (mode : string) (it : item) : list series :=
  series_of ((λ eng, {| sk_mode := mode; sk_eng := eng; policyRules := 0 |}) <$> it_eng it) (Emitted (it_event it)).
Definition policy_inv (sk : option sink) (ls : list sink_label) (st : sinks) : Prop :=
  sk_eng <$> ss_sink st = (λ s, consumer_engine (sk_eng s) (policies ls)) <$> sk ∧ sk_mode <$> ss_sink st = sk_mode <$> sk ∧
  Forall (was_in_force sk ls) (items_of st) ∧ ss_counts st ≡ₚ items_of st ≫= item_series (from_option sk_mode "" sk).
Lemma Forall_perm {A} (P : A → Prop) l l' : l' ≡ₚ l → Forall P l → Forall P l'.
Proof. intros Hp. rewrite !Forall_forall. intros HP x Hx. apply HP. by rewrite <-Hp. Qed.
Lemma bind_perm {A B} (f : A → list B) l l' : l ≡ₚ l' → l ≫= f ≡ₚ l' ≫= f.
Proof. by intros ->. Qed.
Lemma was_in_force_mono sk ls l it : was_in_force sk ls it → was_in_force sk (ls ++ [l]) it.
Proof. intros (ps & Hps & He). exists ps. split; [|done]. unfold policies. rewrite omap_app. by apply prefix_app_r. Qed.
Lemma sink_watch_spec s p s' : sink_watch s (Some p) = Ok s' → sk_eng s' = sink_update (sk_eng s) (Some p) ∧ sk_mode s' = sk_mode s.
Proof. unfold sink_watch, sink_update. destruct (NewEngine (Some p)); by intros [= <-]. Qed.
Lemma item_series_now sk j e now :
  item_series (from_option sk_mode "" sk) {| it_prod := j; it_event := e; it_eng := sk_eng <$> sk; it_now := now |} = series_of sk (Emitted e).
Proof. by destruct sk. Qed.
Lemma sink_step_eng st l st' : sink_step st l st' →
  ss_sink st' = ss_sink st ∧ (∀ p, l ≠ SPolicy p) ∨ ∃ p sk sk', l = SPolicy p ∧ ss_sink st = Some sk ∧ ss_sink st' = Some sk' ∧ sink_watch sk (Some p) = Ok sk'.
Proof. destruct 1; [by left..|]. right. by eexists _, _, _. Qed.
Lemma policy_step sk ls st l st' : policy_inv sk ls st → sink_step st l st' → policy_inv sk (ls ++ [l]) st'.
Proof.
  intros (He & Hm & Hf & Hc) Hstep. unfold policy_inv.
  assert (sk_eng <$> ss_sink st' = (λ s, consumer_engine (sk_eng s) (policies (ls ++ [l]))) <$> sk ∧ sk_mode <$> ss_sink st' = sk_mode <$> sk) as [He' Hm'].
  { unfold policies. rewrite omap_app. destruct (sink_step_eng _ _ _ Hstep) as [[-> Hl]|(p & s & s' & -> & Hs & -> & (Heng & Hmode)%sink_watch_spec)].
    - destruct l; cbn; rewrite ?app_nil_r; try done. by destruct (Hl p).
    - rewrite Hs in *. destruct sk as [s0|]; [|done]. cbn in He, Hm |- *. injection He as He. injection Hm as Hm.
      unfold consumer_engine, policies in *. by rewrite foldl_app, <-He, Heng, Hmode, Hm. }
  split; [done|]. split; [done|].
  destruct (items_step _ _ _ Hstep) as [[Hit Hcnt]|(j & e & now & -> & Hit & Hcnt)].
  - split; [apply (Forall_perm _ _ _ Hit); eapply Forall_impl; [exact Hf|]; intros it; apply was_in_force_mono|].
    rewrite Hcnt, Hc. by apply bind_perm.
  - split.
    + apply (Forall_perm _ _ _ Hit). constructor; [|eapply Forall_impl; [exact Hf|]; intros it; apply was_in_force_mono].
      exists (policies ls). split; [|done]. unfold policies. rewrite omap_app. by apply prefix_app_r.
    + etrans; [|by apply bind_perm]. cbn [mbind list_bind]. rewrite Hcnt, Hc, Permutation_app_comm. apply Permutation_app_tail.
      assert (from_option sk_mode "" sk = from_option sk_mode "" (ss_sink st)) as -> by (by destruct sk, (ss_sink st); simplify_eq/=; congruence).
      by rewrite item_series_now.
Qed.

(** ** Finishing *)
Definition finished (st : sinks) : Prop := Forall (λ pr, pr_todo pr = [] ∧ pr_pos pr = Ready) (ss_prods st).
Definition weight (pr : producer) : nat := 2 * length (pr_todo pr) + match pr_pos pr with Waiting _ => 1 | _ => 0 end.
Lemma sum_insert {A} (f : A → nat) l j x y : l !! j = Some x → sum_list_with f (<[j := y]> l) + f x = sum_list_with f l + f y.
Proof.
  intros Hj. pose proof (lookup_lt_Some _ _ _ Hj) as Hlt. rewrite insert_take_drop by done. rewrite <-(take_drop_middle l j x Hj) at 3.
  rewrite !sum_list_with_app. cbn. lia.
Qed.
Lemma weight_insert l j x y : l !! j = Some x → weight y < weight x → sum_list_with weight (<[j := y]> l) < sum_list_with weight l.
Proof. intros Hj Hlt. pose proof (sum_insert weight l j x y Hj). lia. Qed.
Lemma sink_trans st ls1 st1 ls2 st2 : sink_run st ls1 st1 → sink_run st1 ls2 st2 → sink_run st (ls1 ++ ls2) st2.
Proof. intros H1' H2'. induction H2' as [|ls st2 l st3 _ IH Hs]; [by rewrite app_nil_r|]. rewrite (assoc app). by eapply sink_snoc. Qed.
Lemma sink_cons st l st1 ls st2 : sink_step st l st1 → sink_run st1 ls st2 → sink_run st (l :: ls) st2.
Proof. intros Hs. apply (sink_trans st [l] st1). apply (sink_snoc _ [] st); [constructor|done]. Qed.
Definition no_policy (l : sink_label) : Prop := ∀ p, l ≠ SPolicy p.
(** Whoever has the lock writes the rest and gives it back. *)
Lemma holder_finishes j todo it ws st : ss_prods st !! j = Some {| pr_todo := todo; pr_pos := Printing it ws |} →
  ∃ ls st', sink_run st ls st' ∧ Forall no_policy ls ∧ ss_mu st' = None ∧ ss_prods st' = <[j := {| pr_todo := todo; pr_pos := Ready |}]> (ss_prods st).
Proof.
  revert st. induction ws as [|w ws IH]; intros st Hj; pose proof (lookup_lt_Some _ _ _ Hj) as Hlt.
  - eexists [SUnlock j], _. split; [eapply sink_cons; [by eapply SkUnlock|constructor]|]. split; [by repeat constructor|done].
  - pose proof (SkWrite st j todo it w ws Hj) as Hs. set (st1 := with_prod _ _ _ _ _ _ _) in Hs.
    destruct (IH st1) as (ls & st' & Hr & Hn & Hmu & Hp); [by apply list_lookup_insert_eq|].
    exists (SWrite j :: ls), st'. split; [by eapply sink_cons|]. split; [by constructor|]. split; [done|]. rewrite Hp. apply list_insert_insert_eq.
Qed.
Lemma can_finish_free n st : sum_list_with weight (ss_prods st) ≤ n → ss_mu st = None → (∀ j pr it ws, ss_prods st !! j = Some pr → pr_pos pr ≠ Printing it ws) →
  ∃ ls st', sink_run st ls st' ∧ Forall no_policy ls ∧ finished st'.
Proof.
  revert st. induction n as [n IH] using lt_wf_ind. intros st Hn Hmu Hno.
  destruct (decide (Exists (λ pr, weight pr ≠ 0) (ss_prods st))) as [(pr & (j & Hj)%list_elem_of_lookup & Hw)%list.Exists_exists|Hall].
  2: { exists [], st. split; [constructor|]. split; [done|]. apply not_Exists_Forall in Hall; [|apply _]. unfold finished. rewrite Forall_forall in Hall |- *.
       intros pr Hpr. specialize (Hall pr Hpr). apply list_elem_of_lookup in Hpr as [j Hj]. unfold weight in Hall.
       destruct pr as [[|e todo] [|it|it ws]]; cbn in Hall; try (by destruct (Hno _ _ it ws Hj)); [done|lia..]. }
  pose proof (lookup_lt_Some _ _ _ Hj) as Hlt. destruct pr as [todo [|it|it ws]]; [destruct todo as [|e todo]; [done|]| |by destruct (Hno _ _ it ws Hj)].
  - pose proof (SkEmit st j e todo "" Hj) as Hs. cbn zeta in Hs. set (st1 := with_prod _ _ _ _ _ _ _) in Hs.
    assert (sum_list_with weight (ss_prods st1) < sum_list_with weight (ss_prods st)) as Hsum by (apply (weight_insert _ j _ _ Hj); cbn; lia).
    destruct (IH (sum_list_with weight (ss_prods st1))) with (st := st1) as (ls & st' & Hr & Hnp & Hf); [lia|done|done| |].
    { intros j' pr it' ws. unfold st1. cbn [with_prod ss_prods]. destruct (decide (j = j')) as [<-|Hne]; [rewrite list_lookup_insert_eq by done; by intros [= <-]|].
      rewrite list_lookup_insert_ne by done. apply Hno. }
    exists (SEmit j :: ls), st'. split; [by eapply sink_cons|]. split; [by constructor|done].
  - pose proof (SkLock st j todo it Hj Hmu) as Hs. set (st1 := with_prod _ _ _ _ _ _ _) in Hs.
    destruct (holder_finishes j todo it (item_writes it) st1) as (ls1 & st2 & Hr1 & Hn1 & Hmu2 & Hp2); [by apply list_lookup_insert_eq|].
    unfold st1 in Hp2. cbn [with_prod ss_prods] in Hp2. rewrite list_insert_insert_eq in Hp2.
    assert (sum_list_with weight (ss_prods st2) < sum_list_with weight (ss_prods st)) as Hsum by (rewrite Hp2; apply (weight_insert _ j _ _ Hj); cbn; lia).
    destruct (IH (sum_list_with weight (ss_prods st2))) with (st := st2) as (ls & st' & Hr & Hnp & Hf); [lia|done|done| |].
    { intros j' pr it' ws. rewrite Hp2. destruct (decide (j = j')) as [<-|Hne]; [rewrite list_lookup_insert_eq by done; by intros [= <-]|].
      rewrite list_lookup_insert_ne by done. apply Hno. }
    exists (SLock j :: ls1 ++ ls), st'. split; [eapply sink_cons; [exact Hs|by eapply sink_trans]|]. split; [constructor; [done|by apply Forall_app]|done].
Qed.
Lemma can_finish st : out_inv st → ∃ ls st', sink_run st ls st' ∧ Forall no_policy ls ∧ finished st'.
Proof.
  unfold out_inv. destruct (ss_mu st) as [j|] eqn:Hmu.
  - intros (todo & it & done & ws & log & Hj & _ & _ & _ & Hex). destruct (holder_finishes j todo it ws st Hj) as (ls1 & st1 & Hr1 & Hn1 & Hmu1 & Hp1).
    destruct (can_finish_free (sum_list_with weight (ss_prods st1)) st1) as (ls & st' & Hr & Hn & Hf); [done|done| |].
    { intros j' pr it' ws'. rewrite Hp1. pose proof (lookup_lt_Some _ _ _ Hj). destruct (decide (j = j')) as [<-|Hne]; [rewrite list_lookup_insert_eq by done; by intros [= <-]|].
      rewrite list_lookup_insert_ne by done. intros Hj' Hp. by destruct Hne; erewrite (Hex j'). }
    exists (ls1 ++ ls), st'. split; [by eapply sink_trans|]. split; [by apply Forall_app|done].
  - intros [_ Hno]. by eapply can_finish_free.
Qed.

(** ** What the sinks promise *)
Lemma sinks_inv sk evs ls st : sink_run (sinks_start sk evs) ls st → out_inv st ∧ prods_inv st ∧ order_inv evs st ∧ policy_inv sk ls st.
Proof.
  induction 1 as [|ls st1 l st2 _ (Ho & Hp & Hor & Hpo) Hs].
  - split_and!.
    + split; [done|]. intros j pr it ws. cbn. rewrite list_lookup_fmap, fmap_Some. by intros (es & _ & ->).
    + intros j pr it. cbn. rewrite list_lookup_fmap, fmap_Some. by intros (es & _ & ->).
    + intros j. cbn. rewrite list_lookup_fmap. by destruct (evs !! j).
    + assert (items_of (sinks_start sk evs) = []) as Hi.
      { unfold items_of. cbn [sinks_start ss_log ss_prods]. induction evs as [|es evs IH]; [done|]. exact IH. }
      unfold policy_inv. rewrite Hi. split_and!; [by destruct sk|done|done|done].
  - split; [by eapply out_step|]. split; [by eapply prods_step|]. split; [by eapply order_step|by eapply policy_step].
Qed.
(** C15: events come out whole and in order: however the producers and the policy
    watcher interleave, the output is at every moment the texts of the calls of [Emit]
    in the order they took the lock, the last one possibly in part; each producer's
    calls are in the order it made them; each verdict is that of an engine that was in
    force; the counters hold the series of the calls begun; and the producers can
    always finish without anyone else, after which every event was written once. *)
Theorem sink_serializes sk evs ls st :
  sink_run (sinks_start sk evs) ls st →
  (∃ log partial rest, ss_out st = texts log +:+ partial ∧
    (ss_log st = log ∧ partial = "" ∨ ∃ it, ss_log st = log ++ [it] ∧ item_text it = partial +:+ rest)) ∧
  (∀ j es, evs !! j = Some es → calls_by j (ss_log st) `prefix_of` es) ∧
  Forall (was_in_force sk ls) (ss_log st) ∧
  ss_counts st ≡ₚ items_of st ≫= item_series (from_option sk_mode "" sk) ∧
  (finished st → ss_out st = texts (ss_log st) ∧ items_of st = ss_log st ∧ ∀ j es, evs !! j = Some es → calls_by j (ss_log st) = es) ∧
  ∃ ls' st', sink_run st ls' st' ∧ Forall no_policy ls' ∧ finished st'.
Proof.
  intros (Ho & Hp & Hor & (_ & _ & Hf & Hc))%sinks_inv. split_and!; [| | |done| |by apply can_finish].
  - unfold out_inv in Ho. destruct (ss_mu st) as [j|].
    + destruct Ho as (todo & it & done & ws & log & _ & Hl & Hw & Hout & _). exists log, (foldr String.append "" done), (foldr String.append "" ws).
      split; [done|]. right. exists it. split; [done|]. unfold item_text. rewrite <-writes_text. change (writes_of _ _) with (item_writes it).
      by rewrite Hw, foldr_append_app.
    + destruct Ho as [Hout _]. exists (ss_log st), "", "". rewrite str_app_nil_r. auto.
  - intros j es Hj. specialize (Hor j). rewrite Hj in Hor. apply fmap_Some in Hor as (pr & _ & ->). by eexists.
  - by apply Forall_app in Hf as [? _].
  - intros Hfin. unfold finished in Hfin. rewrite Forall_forall in Hfin. split_and!.
    + unfold out_inv in Ho. destruct (ss_mu st) as [j|]; [|by destruct Ho]. destruct Ho as (todo & it & done & ws & log & Hj & _).
      apply list_elem_of_lookup_2 in Hj. by destruct (Hfin _ Hj).
    + unfold items_of. replace (omap waiting (ss_prods st)) with (@nil item); [by rewrite app_nil_r|]. clear Ho Hp Hor Hf Hc. induction (ss_prods st) as [|pr prs IH]; [done|].
      destruct (Hfin pr ltac:(left)) as [_ Hpos]. cbn. unfold waiting at 1. rewrite Hpos. apply IH. intros pr' Hpr'. apply Hfin. by right.
    + intros j es Hj. specialize (Hor j). rewrite Hj in Hor. apply fmap_Some in Hor as (pr & Hpr & ->). apply list_elem_of_lookup_2 in Hpr.
      destruct (Hfin _ Hpr) as [Ht Hpos]. unfold waiting. by rewrite Ht, Hpos, app_nil_r.
Qed.
End sinks.

(** ** Concrete runs *)
Definition ex_connect : Event := with_verdict {| Kind := KindConnect; Src := "10.0.0.1"; Dst := "203.0.113.9"; ev_Port := 443; ev_Domain := ""; DNSType := "";
  ev_Method := ""; ev_Path := ""; ev_Headers := []; PID := 0; Comm := ""; ev_Pod := PodInfo_zero; Action := ""; ev_Rule := "" |} "" "".
Definition ex_request : Event := {| Kind := KindHTTPS; Src := ""; Dst := ""; ev_Port := 0; ev_Domain := "a.example"; DNSType := "";
  ev_Method := "GET"; ev_Path := "/p"; ev_Headers := [{| h_Name := "x-id"; h_Value := "7" |}]; PID := 12; Comm := "curl"; ev_Pod := PodInfo_zero; Action := ""; ev_Rule := "" |}.
(** The HTTPS capture calls [Emit] first, the egress monitor takes the lock first. *)
Definition ex_first : item := {| it_prod := 0; it_event := ex_request; it_eng := None; it_now := "t1" |}.
Definition ex_second : item := {| it_prod := 1; it_event := ex_connect; it_eng := None; it_now := "t2" |}.
#[local] Existing Instance ascii_case.
Section ex.
Context `{Renderer}.
Definition ex_between : sinks :=
  {| ss_sink := None; ss_mu := None; ss_out := ""; ss_counts := [] ++ series_of None (Emitted ex_request) ++ series_of None (Emitted ex_connect);
     ss_prods := [{| pr_todo := []; pr_pos := Waiting ex_first |}; {| pr_todo := []; pr_pos := Waiting ex_second |}]; ss_log := [] |}.
Lemma ex_between_run : sink_run (sinks_start None [[ex_request]; [ex_connect]]) [SEmit 0; SEmit 1] ex_between.
Proof. eapply sink_cons; [by apply (SkEmit _ 0 ex_request [] "t1")|]. eapply sink_cons; [by apply (SkEmit _ 1 ex_connect [] "t2")|]. constructor. Qed.
End ex.
Definition ex_text : string :=
  "CONNECT  10.0.0.1 -> 203.0.113.9:443" +:+ newline +:+ "HTTPS  [pid=12 curl] GET a.example/p" +:+ newline +:+ "           x-id: 7" +:+ newline.
Definition ex_counts : list series := series_of None (Emitted ex_request) ++ series_of None (Emitted ex_connect).
Definition ex_half : sinks :=
  {| ss_sink := None; ss_mu := None; ss_out := "CONNECT  10.0.0.1 -> 203.0.113.9:443" +:+ newline; ss_counts := ex_counts;
     ss_prods := [{| pr_todo := []; pr_pos := Waiting ex_first |}; {| pr_todo := []; pr_pos := Ready |}]; ss_log := [ex_second] |}.
Definition ex_whole : sinks :=
  {| ss_sink := None; ss_mu := None; ss_out := ex_text; ss_counts := ex_counts;
     ss_prods := [{| pr_todo := []; pr_pos := Ready |}; {| pr_todo := []; pr_pos := Ready |}]; ss_log := [ex_second; ex_first] |}.
Lemma ex_half_run : sink_run (H0 := textSink) (ex_between) [SLock 1; SWrite 1; SUnlock 1] ex_half.
Proof.
  eapply sink_cons; [by apply (SkLock _ 1 [] ex_second)|]. eapply sink_cons; [by eapply (SkWrite _ 1 [] ex_second)|].
  eapply sink_cons; [by apply (SkUnlock _ 1 [] ex_second)|]. constructor.
Qed.
Lemma ex_whole_run : sink_run (H0 := textSink) ex_half [SLock 0; SWrite 0; SWrite 0; SUnlock 0] ex_whole.
Proof.
  eapply sink_cons; [by apply (SkLock _ 0 [] ex_first)|]. eapply sink_cons; [by eapply (SkWrite _ 0 [] ex_first)|].
  eapply sink_cons; [by eapply (SkWrite _ 0 [] ex_first)|]. eapply sink_cons; [by apply (SkUnlock _ 0 [] ex_first)|]. constructor.
Qed.
Lemma ex_text_run : ∃ ls, sink_run (H0 := textSink) (sinks_start None [[ex_request]; [ex_connect]]) ls ex_whole.
Proof. eexists. eapply sink_trans; [apply ex_between_run|]. eapply sink_trans; [apply ex_half_run|apply ex_whole_run]. Qed.
Lemma sink_serializes_witness : ∃ ls,
  sink_run (H0 := textSink) (sinks_start None [[ex_request]; [ex_connect]]) ls ex_whole ∧
  ex_text = texts (H0 := textSink) (ss_log ex_whole) ∧ calls_by 0 (ss_log ex_whole) = [ex_request].
Proof.
  destruct ex_text_run as [ls Hr]. exists ls. split; [exact Hr|].
  destruct (sink_serializes (H := ascii_case) (H0 := textSink) None [[ex_request]; [ex_connect]] ls ex_whole Hr) as (_ & _ & _ & _ & Hf & _).
  destruct Hf as (Ht & _ & Hc); [by repeat constructor|]. split; [exact Ht|]. apply Hc. reflexivity.
Defined.
(** The JSON sink takes the time of an event before the lock: its lines can be out of
    the order of their times. *)
Example timestamps_reorder : ∃ ls st,
  sink_run (H0 := jsonSink (λ je, Some (TS je))) (sinks_start None [[ex_request]; [ex_connect]]) ls st ∧
  ss_out st = "t2" +:+ newline +:+ "t1" +:+ newline.
Proof.
  eexists _, _. split; [eapply sink_trans; [apply ex_between_run|]|].
  - eapply sink_cons; [by apply (SkLock _ 1 [] ex_second)|]. eapply sink_cons; [by eapply (SkWrite _ 1 [] ex_second)|].
    eapply sink_cons; [by apply (SkUnlock _ 1 [] ex_second)|]. eapply sink_cons; [by apply (SkLock _ 0 [] ex_first)|].
    eapply sink_cons; [by eapply (SkWrite _ 0 [] ex_first)|]. eapply sink_cons; [by apply (SkUnlock _ 0 [] ex_first)|]. constructor.
  - by vm_compute.
Qed.
