(* ===== verification/SslSnoop.v ===== *)
(** * HTTPS request capture ([internal/sslsnoop/sslsnoop.go])

    The tracker decodes one sample per SSL_write: its state is the map from SSL
    pointer to connection, with the connection's mode and HTTP/2 decoder.  The
    discovery of libssl copies is a scan over the answers of [/proc] and [stat],
    and one pass of the attach loop. *)

From S2P Require Import Prelude GoStrings GoNet Attr Policy Config L7 Output DnsLearn EgressMon.
From Stdlib Require Import Ascii.
From Stdlib Require String.

(** ** Tracker *)
Definition commLen : nat := 16.
Definition ssl_hdrLen : nat := 40.
Definition maxConns : Z := 16384.

Inductive connMode := modeUnknown | modeHTTP1 | modeHTTP2 | modeIgnore.
Definition cstr (b : bytes) : string :=
  String.string_of_list_byte (match list_find (λ x, x = x00) b with Some (i, _) => take i b | None => b end).

Section tracker.
Context `{UnicodeCase} `{PodResolver} (hpack : Hpack).
(** [h2 = None] is the nil pointer. *)
Record connState := { mode : connMode; h2 : option (H2Conn hpack) }.
Record tracker := { conns : gmap Z connState; t_pods : rst; t_trace : list effect }.
Definition newTracker (r : rst) : tracker := {| conns := ∅; t_pods := r; t_trace := [] |}.

Definition https_event (headers : bool) (pid : Z) (comm : string) (pod : PodInfo) (r : Request) : Event :=
  {| Kind := KindHTTPS; Src := ""; Dst := ""; ev_Port := 0; ev_Domain := r_Host r; DNSType := ""; ev_Method := r_Method r;
     ev_Path := r_Path r; ev_Headers := if headers then r_Headers r else []; PID := pid; Comm := comm; ev_Pod := pod;
     Action := ""; ev_Rule := "" |}.
Definition emit (f : Filter) (inspect : Inspection) (pid : Z) (comm : string) (cg : Z) (t : tracker) (r : Request) : tracker :=
  if SkipDomain f (r_Host r) then {| conns := conns t; t_pods := t_pods t; t_trace := t_trace t ++ [FilteredCounted KindHTTPS] |}
  else
    let '(pod, rs) := by_cgroup cg (t_pods t) in
    {| conns := conns t; t_pods := rs; t_trace := t_trace t ++ [Emitted (https_event (Headers inspect) pid comm pod r)] |}.

Definition set_conn (ssl : Z) (c : connState) (t : tracker) : tracker :=
  {| conns := <[ssl := c]> (conns t); t_pods := t_pods t; t_trace := t_trace t |}.
(** The connection of a pointer; a new one resets a full map first. *)
Definition get_conn (ssl : Z) (t : tracker) : connState * tracker :=
  match conns t !! ssl with
  | Some c => (c, t)
  | None =>
      let m := if (maxConns <=? Z.of_nat (size (conns t)))%Z then ∅ else conns t in
      let c := {| mode := modeUnknown; h2 := None |} in
      (c, {| conns := <[ssl := c]> m; t_pods := t_pods t; t_trace := t_trace t |})
  end.

(** [c.h2.Feed(data)] on the connection, and an [emit] per request. *)
Definition feed_emit (f : Filter) (inspect : Inspection) (pid : Z) (comm : string) (cg ssl : Z) (h : option (H2Conn hpack))
    (data : bytes) (t : tracker) : go unit tracker :=
  match h with
  | None => Panic
  | Some h =>
      '(rs, h') ← Feed h data;
      Ok (foldl (emit f inspect pid comm cg) (set_conn ssl {| mode := modeHTTP2; h2 := Some h' |} t) rs)
  end.
Definition ssl_handle (f : Filter) (inspect : Inspection) (raw : bytes) (t : tracker) : go unit tracker :=
  if bool_decide (length raw < ssl_hdrLen) then Ok t
  else
    b ← gslice 0 4 raw; let pid := le_get b in
    b ← gslice 4 8 raw; let dlen := le_get b in
    b ← gslice 8 (8 + commLen) raw; let comm := cstr b in
    b ← gslice 24 32 raw; let ssl := le_get b in
    b ← gslice 32 40 raw; let cg := le_get b in
    if bool_decide (dlen = 0%Z) || bool_decide (Z.of_nat (length raw) < Z.of_nat ssl_hdrLen + dlen)%Z then Ok t
    else
      data ← gslice ssl_hdrLen (ssl_hdrLen + Z.to_nat dlen) raw;
      let '(c, t) := get_conn ssl t in
      match mode c with
      | modeUnknown =>
          if bool_decide (take (length H2Preface) data = H2Preface) then
            feed_emit f inspect pid comm cg ssl (Some (NewH2Conn hpack)) data t
          else match ParseRequest data with
               | Some r => Ok (emit f inspect pid comm cg (set_conn ssl {| mode := modeHTTP1; h2 := h2 c |} t) r)
               | None => Ok (set_conn ssl {| mode := modeIgnore; h2 := h2 c |} t)
               end
      | modeHTTP1 =>
          match ParseRequest data with
          | Some r => Ok (emit f inspect pid comm cg t r)
          | None => Ok t
          end
      | modeHTTP2 => feed_emit f inspect pid comm cg ssl (h2 c) data t
      | modeIgnore => Ok t
      end.
Definition ssl_run (f : Filter) (inspect : Inspection) (raws : list bytes) (t : tracker) : go unit tracker :=
  foldl (λ r raw, r ≫= ssl_handle f inspect raw) (Ok t) raws.
End tracker.
Arguments mode {_} _.
Arguments h2 {_} _.

(** ** Discovery *)
Definition libssl_bases : list string :=
  ["/usr/lib"; "/lib"; "/usr/lib64"; "/lib64"; "/usr/lib/aarch64-linux-gnu"; "/usr/lib/x86_64-linux-gnu";
   "/lib/aarch64-linux-gnu"; "/lib/x86_64-linux-gnu"].
Definition libssl_names : list string := ["libssl.so.3"; "libssl.so.1.1"].
Definition libsslCandidates (root : string) : list string :=
  b ← libssl_bases; n ← libssl_names; [root +:+ b +:+ "/" +:+ n].

(** [strconv.Atoi]: an optional sign and decimal digits, in the range of [int]. *)
Definition Atoi (s : string) : option Z :=
  let digits l := match l with
                  | [] => None
                  | _ => foldl (λ acc c, a ← acc; d ← digit_val c; Some (a * 10 + d)%Z) (Some 0%Z) l
                  end in
  let in_range z := if bool_decide (- 2 ^ 63 ≤ z < 2 ^ 63)%Z then Some z else None in
  match chars s with
  | "-"%char :: l => d ← digits l; in_range (- d)%Z
  | "+"%char :: l => d ← digits l; in_range d
  | l => d ← digits l; in_range d
  end.

Section discover.
(** [os.Readlink] of the mount namespace and [syscall.Stat] (device and inode). *)
Context (Readlink : string → option string) (Stat : string → option (Z * Z)).
Definition stat_key (st : Z * Z) : string := pretty (st.1) +:+ ":" +:+ pretty (st.2).
Definition add_candidate (out : gmap string string) (cand : string) : gmap string string :=
  match Stat cand with
  | None => out
  | Some st => match out !! stat_key st with Some _ => out | None => <[stat_key st := cand]> out end
  end.
Definition scan_proc (acc : gmap string string * gset string) (name : string) : gmap string string * gset string :=
  let '(out, seenMnt) := acc in
  match Atoi name with
  | None => acc
  | Some pid =>
      match Readlink ("/proc/" +:+ pretty pid +:+ "/ns/mnt") with
      | None => acc
      | Some mnt =>
          if bool_decide (mnt ∈ seenMnt) then acc
          else (foldl add_candidate out (libsslCandidates ("/proc/" +:+ pretty pid +:+ "/root")), {[mnt]} ∪ seenMnt)
      end
  end.
(** [procs]: the names under /proc, or an error. *)
Definition discoverLibssl (procs : option (list string)) : gmap string string :=
  match procs with None => ∅ | Some ps => (foldl scan_proc (∅, ∅) ps).1 end.
End discover.

(** One pass of [discoverLoop]: [attach path] says whether opening the executable
    and placing the uprobe succeed; the gauge counts the probes placed. *)
Record uprobes := { attached : gmap string string; failed : gset string; uprobesAttached : Z }.
Definition attach_step (attach : string → bool) (key path : string) (u : uprobes) : uprobes :=
  match attached u !! key with
  | Some _ => u
  | None =>
      if attach path
      then {| attached := <[key := path]> (attached u); failed := failed u ∖ {[key]}; uprobesAttached := uprobesAttached u + 1 |}
      else {| attached := attached u; failed := {[key]} ∪ failed u; uprobesAttached := uprobesAttached u |}
  end.
Definition discover_pass (attach : string → bool) (found : gmap string string) (u : uprobes) : uprobes :=
  map_fold (attach_step attach) u found.

(** ** The tracker's invariant *)
Section tracker_facts.
Context `{UnicodeCase} `{PodResolver} (hpack : Hpack).

(** An HTTP/2 connection has a decoder, what it buffers and the map are bounded. *)
Definition buffer_ok (h : H2Conn hpack) : Prop := (Z.of_nat (length (buf h)) < 2 ^ 24 + 8)%Z.
Definition conn_ok (c : connState hpack) : Prop := (mode c = modeHTTP2 → is_Some (h2 c)) ∧ from_option buffer_ok True (h2 c).
Definition tracker_ok (t : tracker hpack) : Prop :=
  map_Forall (λ _, conn_ok) (conns hpack t) ∧ (Z.of_nat (size (conns hpack t)) ≤ maxConns)%Z.

Lemma emit_conns f inspect pid comm cg t r : conns hpack (emit hpack f inspect pid comm cg t r) = conns hpack t.
Proof. unfold emit. destruct (SkipDomain _ _); [done|]. by destruct (by_cgroup _ _). Qed.
Lemma emits_conns f inspect pid comm cg rs t : conns hpack (foldl (emit hpack f inspect pid comm cg) t rs) = conns hpack t.
Proof. revert t. induction rs as [|r rs IH]; intros t; [done|]. cbn [foldl]. by rewrite IH, emit_conns. Qed.
Lemma tracker_ok_conns t t' : conns hpack t' = conns hpack t → tracker_ok t → tracker_ok t'.
Proof. unfold tracker_ok. by intros ->. Qed.
Lemma set_conn_ok ssl c t : is_Some (conns hpack t !! ssl) → conn_ok c → tracker_ok t → tracker_ok (set_conn hpack ssl c t).
Proof.
  intros [c0 Hc0] Hc [Ht Hs]. split; cbn [set_conn conns].
  - by apply map_Forall_insert_2.
  - by rewrite map_size_insert_Some by eauto.
Qed.
Lemma get_conn_ok ssl t :
  tracker_ok t →
  let '(c, t') := get_conn hpack ssl t in
  conns hpack t' !! ssl = Some c ∧ conn_ok c ∧ tracker_ok t'.
Proof.
  intros [Ht Hs]. unfold get_conn. destruct (conns hpack t !! ssl) as [c|] eqn:E.
  { split_and!; [done|by eapply Ht|done]. }
  cbn [conns]. rewrite lookup_insert_eq. split_and!; [done..|]. split; cbn [conns].
  - apply map_Forall_insert_2; [done|]. destruct (_ <=? _)%Z; [apply map_Forall_empty|done].
  - destruct (Z.leb_spec maxConns (Z.of_nat (size (conns hpack t)))) as [Hle|Hlt].
    + rewrite map_size_insert_None, map_size_empty by apply lookup_empty. unfold maxConns. lia.
    + rewrite map_size_insert_None by done. lia.
Qed.
Lemma feed_emit_ok f inspect pid comm cg ssl h data t :
  is_Some (conns hpack t !! ssl) → tracker_ok t →
  ∃ t', feed_emit hpack f inspect pid comm cg ssl (Some h) data t = Ok t' ∧ tracker_ok t'.
Proof.
  intros Hc Ht. unfold feed_emit. destruct (Feed_bounded hpack h data) as (rs & h' & -> & Hb). cbn [mbind go_bind].
  eexists. split; [done|]. eapply tracker_ok_conns; [apply emits_conns|]. apply set_conn_ok; [done| |done]. split; [intros _; cbn [h2]; eauto|exact Hb].
Qed.

(** The sample the probe writes for [data]. *)
Definition ssl_sample (pid : Z) (comm : bytes) (ssl cg : Z) (data rest : bytes) : bytes :=
  le_put 4 pid ++ le_put 4 (Z.of_nat (length data)) ++ comm ++ le_put 8 ssl ++ le_put 8 cg ++ data ++ rest.
(** What the handler does once the header is read. *)
Definition on_data (f : Filter) (inspect : Inspection) (pid : Z) (comm : string) (ssl cg : Z) (data : bytes) (t : tracker hpack) : go unit (tracker hpack) :=
  let '(c, t) := get_conn hpack ssl t in
  match mode c with
  | modeUnknown =>
      if bool_decide (take (length H2Preface) data = H2Preface) then
        feed_emit hpack f inspect pid comm cg ssl (Some (NewH2Conn hpack)) data t
      else match ParseRequest data with
           | Some r => Ok (emit hpack f inspect pid comm cg (set_conn hpack ssl {| mode := modeHTTP1; h2 := h2 c |} t) r)
           | None => Ok (set_conn hpack ssl {| mode := modeIgnore; h2 := h2 c |} t)
           end
  | modeHTTP1 => match ParseRequest data with Some r => Ok (emit hpack f inspect pid comm cg t r) | None => Ok t end
  | modeHTTP2 => feed_emit hpack f inspect pid comm cg ssl (h2 c) data t
  | modeIgnore => Ok t
  end.
Lemma ssl_handle_eq f inspect raw t :
  let dlen := le_get (take 4 (drop 4 raw)) in
  ssl_handle hpack f inspect raw t =
    if bool_decide (length raw < ssl_hdrLen) || bool_decide (dlen = 0%Z) ||
       bool_decide (Z.of_nat (length raw) < Z.of_nat ssl_hdrLen + dlen)%Z then Ok t
    else on_data f inspect (le_get (take 4 raw)) (cstr (take 16 (drop 8 raw))) (le_get (take 8 (drop 24 raw)))
           (le_get (take 8 (drop 32 raw))) (take (Z.to_nat dlen) (drop ssl_hdrLen raw)) t.
Proof.
  cbn zeta. unfold ssl_handle. case_bool_decide as Hl; [done|]. unfold ssl_hdrLen, commLen in *.
  rewrite !gslice_ok by lia. cbn [mbind go_bind orb]. rewrite drop_0.
  change (4 - 0) with 4. change (8 - 4) with 4. change (8 + 16 - 8) with 16. change (32 - 24) with 8. change (40 - 32) with 8.
  pose proof (le_get_range (take 4 (drop 4 raw))) as Hd.
  destruct (_ || _) eqn:E; [done|]. apply orb_false_iff in E as [_ E%bool_decide_eq_false].
  rewrite gslice_ok by lia. cbn [mbind go_bind]. unfold on_data.
  by replace (40 + Z.to_nat (le_get (take 4 (drop 4 raw))) - 40) with (Z.to_nat (le_get (take 4 (drop 4 raw)))) by lia.
Qed.
Lemma on_data_ok f inspect pid comm ssl cg data t :
  tracker_ok t → ∃ t', on_data f inspect pid comm ssl cg data t = Ok t' ∧ tracker_ok t'.
Proof.
  intros Ht. unfold on_data. pose proof (get_conn_ok ssl t Ht) as Hg. destruct (get_conn hpack ssl t) as [c t1].
  destruct Hg as (Hc & Hok & Ht1). assert (is_Some (conns hpack t1 !! ssl)) as Hs by eauto. destruct Hok as [Hok Hbuf].
  destruct (mode c) eqn:Em.
  - case_bool_decide; [by apply feed_emit_ok|].
    destruct (ParseRequest data); eexists; (split; [done|]); [eapply tracker_ok_conns; [apply emit_conns|]|]; by apply set_conn_ok.
  - destruct (ParseRequest data); eexists; (split; [done|]); [|done]. eapply tracker_ok_conns; [apply emit_conns|done].
  - destruct Hok as [h Hh]; [done|]. rewrite Hh. by apply feed_emit_ok.
  - eauto.
Qed.
Lemma newTracker_ok r : tracker_ok (newTracker hpack r).
Proof. split; [apply map_Forall_empty|]. cbn [conns newTracker]. by rewrite map_size_empty. Qed.
Lemma ssl_run_ok f inspect raws t : tracker_ok t → ∃ t', ssl_run hpack f inspect raws t = Ok t' ∧ tracker_ok t'.
Proof.
  unfold ssl_run. revert t. induction raws as [|raw raws IH]; intros t Ht; [eauto|]. cbn [foldl mbind go_bind].
  rewrite ssl_handle_eq. destruct (_ || _); [by apply IH|].
  edestruct on_data_ok as (t1 & -> & Ht1); [exact Ht|]. by apply IH.
Qed.
End tracker_facts.

(** C36: the HTTPS tracker survives every input and stays bounded: from a new tracker,
    any sequence of samples is handled without a panic (an HTTP/2 connection always
    has its decoder), with at most 16384 connections remembered at any time, each
    buffering fewer bytes than a maximal frame with its header, 2^24 + 8. *)
Theorem tracker_invariant `{UnicodeCase} `{PodResolver} hpack f inspect raws r :
  ∃ t, ssl_run hpack f inspect raws (newTracker hpack r) = Ok t ∧
    (Z.of_nat (size (conns hpack t)) ≤ maxConns)%Z ∧
    ∀ ssl c, conns hpack t !! ssl = Some c →
      (mode c = modeHTTP2 → is_Some (h2 c)) ∧ ∀ h, h2 c = Some h → (Z.of_nat (length (buf h)) < 2 ^ 24 + 8)%Z.
Proof.
  destruct (ssl_run_ok hpack f inspect raws _ (newTracker_ok hpack r)) as (t & Ht & Hok & Hs).
  exists t. split_and!; [done..|]. intros ssl c Hc. destruct (Hok ssl c Hc) as [Hm Hb]. split; [exact Hm|]. intros h Hh. by rewrite Hh in Hb.
Qed.

(** ** Split writes *)
Section split.
Context `{UnicodeCase} `{PodResolver} (hpack : Hpack).

(** Read one field of a sample. *)
Ltac sample_field :=
  unfold ssl_sample in *;
  match goal with raw := _ |- _ => unfold raw end;
  repeat (erewrite take_skip; [|first [eassumption|reflexivity]|lia]; cbn [Nat.sub]);
  rewrite take_here by lia; apply take_ge; lia.

Lemma ssl_handle_sample f inspect pid comm ssl cg data rest t :
  (0 ≤ pid < 2 ^ 32)%Z → length comm = 16 → (0 ≤ ssl < 2 ^ 64)%Z → (0 ≤ cg < 2 ^ 64)%Z →
  data ≠ [] → (Z.of_nat (length data) < 2 ^ 32)%Z →
  ssl_handle hpack f inspect (ssl_sample pid comm ssl cg data rest) t = on_data hpack f inspect pid (cstr comm) ssl cg data t.
Proof.
  intros Hpid Hcomm Hssl Hcg Hne Hlen. rewrite ssl_handle_eq. change ssl_hdrLen with 40.
  pose proof (length_le_put 4 pid) as H4. pose proof (length_le_put 4 (Z.of_nat (length data))) as H4'.
  pose proof (length_le_put 8 ssl) as H8. pose proof (length_le_put 8 cg) as H8'.
  assert (length data ≠ 0) by (by destruct data). set (raw := ssl_sample pid comm ssl cg data rest).
  assert (length raw = 40 + length data + length rest) as Hraw.
  { unfold raw, ssl_sample. rewrite !length_app, H4, H4', Hcomm, H8, H8'. lia. }
  assert (take 4 raw = le_put 4 pid) as -> by (unfold raw, ssl_sample; by rewrite take_app_length').
  assert (take 4 (drop 4 raw) = le_put 4 (Z.of_nat (length data))) as -> by sample_field.
  assert (take 16 (drop 8 raw) = comm) as -> by sample_field.
  assert (take 8 (drop 24 raw) = le_put 8 ssl) as -> by sample_field.
  assert (take 8 (drop 32 raw) = le_put 8 cg) as -> by sample_field.
  rewrite !le_get_put, !Z.mod_small, Nat2Z.id by lia.
  assert (take (length data) (drop 40 raw) = data) as -> by sample_field.
  by rewrite Hraw, !bool_decide_false by lia.
Qed.

Lemma emit_set_conn f inspect pid comm cg ssl c t r :
  emit hpack f inspect pid comm cg (set_conn hpack ssl c t) r = set_conn hpack ssl c (emit hpack f inspect pid comm cg t r).
Proof. unfold emit, set_conn. destruct (SkipDomain _ _); [done|]. cbn [t_pods]. by destruct (by_cgroup _ _). Qed.
Lemma emits_set_conn f inspect pid comm cg ssl c rs t :
  foldl (emit hpack f inspect pid comm cg) (set_conn hpack ssl c t) rs = set_conn hpack ssl c (foldl (emit hpack f inspect pid comm cg) t rs).
Proof. revert t. induction rs as [|r rs IH]; intros t; [done|]. cbn [foldl]. by rewrite emit_set_conn, IH. Qed.
Lemma set_conn_twice ssl c c' t : set_conn hpack ssl c (set_conn hpack ssl c' t) = set_conn hpack ssl c t.
Proof. unfold set_conn. cbn [conns t_pods t_trace]. by rewrite insert_insert_eq. Qed.

Lemma on_data_h2 f inspect pid comm ssl cg data t h :
  conns hpack t !! ssl = Some {| mode := modeHTTP2; h2 := Some h |} →
  on_data hpack f inspect pid comm ssl cg data t = feed_emit hpack f inspect pid comm cg ssl (Some h) data t.
Proof. intros Hc. unfold on_data, get_conn. by rewrite Hc. Qed.
Lemma on_data_split f inspect pid comm ssl cg x y t h :
  conns hpack t !! ssl = Some {| mode := modeHTTP2; h2 := Some h |} →
  on_data hpack f inspect pid comm ssl cg (x ++ y) t =
    (on_data hpack f inspect pid comm ssl cg x t ≫= on_data hpack f inspect pid comm ssl cg y).
Proof.
  intros Hc. rewrite !(on_data_h2 _ _ _ _ _ _ _ t h) by done. unfold feed_emit.
  destruct (Feed_spec hpack h x) as (rs1 & h1 & -> & _ & Hy). rewrite Hy. cbn [mbind go_bind].
  rewrite (on_data_h2 _ _ _ _ _ _ _ _ h1) by (rewrite emits_conns; apply lookup_insert_eq). unfold feed_emit.
  destruct (Feed h1 y) as [[rs2 h2']| | |]; cbn [mbind go_bind]; [|done..].
  by rewrite foldl_app, !emits_set_conn, set_conn_twice.
Qed.
End split.

(** HTTPS requests are found however the application splits its writes: on a
    connection already known to be HTTP/2, two SSL_write samples carrying [x] and
    [y] leave the tracker, its trace of reported requests included, exactly as
    one sample carrying [x ++ y]. *)
Theorem split_writes `{UnicodeCase} `{PodResolver} hpack f inspect pid comm ssl cg x y r1 r2 r3 t h :
  (0 ≤ pid < 2 ^ 32)%Z → length comm = 16 → (0 ≤ ssl < 2 ^ 64)%Z → (0 ≤ cg < 2 ^ 64)%Z →
  x ≠ [] → y ≠ [] → (Z.of_nat (length (x ++ y)) < 2 ^ 32)%Z →
  conns hpack t !! ssl = Some {| mode := modeHTTP2; h2 := Some h |} →
  ssl_run hpack f inspect [ssl_sample pid comm ssl cg x r1; ssl_sample pid comm ssl cg y r2] t =
  ssl_handle hpack f inspect (ssl_sample pid comm ssl cg (x ++ y) r3) t.
Proof.
  intros Hpid Hcomm Hssl Hcg Hx Hy Hlen Hc. rewrite length_app in Hlen.
  rewrite (ssl_handle_sample _ _ _ _ _ _ _ (x ++ y)) by (done || (rewrite ?length_app; lia) || (by destruct x)).
  unfold ssl_run. cbn [foldl mbind go_bind]. rewrite ssl_handle_sample by (done || lia).
  erewrite on_data_split by exact Hc.
  destruct (on_data hpack f inspect pid (cstr comm) ssl cg x t); cbn [mbind go_bind]; [|done..].
  by apply ssl_handle_sample; (done || lia).
Qed.

(** ** Examples *)
Definition ex_comm : bytes := String.list_byte_of_string "curl" ++ replicate 12 x00.
Definition empty_tracker : tracker (H0 := no_pods) toy_hpack := newTracker (H0 := no_pods) toy_hpack (tt : @rst no_pods).
Definition ssl_trace (raws : list bytes) : option (list effect) :=
  match ssl_run (H := ascii_case) (H0 := no_pods) toy_hpack default_filter all_inspection raws empty_tracker with
  | Ok t => Some (t_trace (H0 := no_pods) toy_hpack t) | _ => None end.
Definition h2_open : tracker (H0 := no_pods) toy_hpack :=
  set_conn (H0 := no_pods) toy_hpack 5 {| mode := modeHTTP2; h2 := Some {| buf := []; dec := 0 : hst toy_hpack; preface := true |} |} empty_tracker.
Lemma split_writes_witness :
  let s := h2_frame x01 x04 ex_block in
  ssl_run (H := ascii_case) (H0 := no_pods) toy_hpack default_filter all_inspection
    [ssl_sample 9 ex_comm 5 7 (take 20 s) []; ssl_sample 9 ex_comm 5 7 (drop 20 s) [x00]] h2_open =
  ssl_handle (H := ascii_case) (H0 := no_pods) toy_hpack default_filter all_inspection (ssl_sample 9 ex_comm 5 7 (take 20 s ++ drop 20 s) []) h2_open.
Proof.
  cbn zeta. eapply (split_writes (H := ascii_case) (H0 := no_pods) toy_hpack).
  1-4: by vm_compute.
  1,2: by vm_compute.
  1: by vm_compute.
  by vm_compute.
Defined.
(** An HTTP/1.1 request after the preface-less first write of another connection
    that had the same SSL pointer is never reported, also from another process. *)
Example pointer_reuse_hides_requests :
  let get := String.list_byte_of_string (put_request "GET" "/" "1.1" [{| h_Name := "Host"; h_Value := "a.example" |}] "") in
  ssl_trace [ssl_sample 9 ex_comm 5 7 get []] ≠ Some [] ∧
  ssl_trace [ssl_sample 8 ex_comm 5 6 [x00] []; ssl_sample 9 ex_comm 5 7 get []] = Some [].
Proof. by vm_compute. Qed.

(** ** Discovery attaches each library once *)
(** A pass keeps every probe it has, attaches each new library that can be
    attached, and leaves the others to be tried again. *)
Lemma discover_pass_spec attach found u key :
  attached (discover_pass attach found u) !! key =
    match attached u !! key with
    | Some p => Some p
    | None => path ← found !! key; if attach path then Some path else None
    end.
Proof.
  unfold discover_pass. revert key.
  apply (map_fold_weak_ind (λ u' found, ∀ key, attached u' !! key =
    match attached u !! key with
    | Some p => Some p
    | None => path ← found !! key; if attach path then Some path else None
    end)).
  - intros key. rewrite lookup_empty. by destruct (attached u !! key).
  - intros k path m u' Hk Ha key. unfold attach_step. rewrite (Ha k), Hk.
    destruct (attached u !! k) as [p|] eqn:Eu; cbn [mbind option_bind].
    + destruct (decide (key = k)) as [->|Hne]; [by rewrite Ha, Eu|]. by rewrite Ha, lookup_insert_ne.
    + destruct (decide (key = k)) as [->|Hne].
      * rewrite Eu, lookup_insert_eq. cbn [mbind option_bind].
        destruct (attach path); cbn [attached]; [by rewrite lookup_insert_eq|]. by rewrite Ha, Eu, Hk.
      * rewrite lookup_insert_ne by done. destruct (attach path); cbn [attached]; [rewrite lookup_insert_ne by done|]; apply Ha.
Qed.

Lemma discover_pass_gauge attach found u :
  uprobesAttached u = Z.of_nat (size (attached u)) →
  uprobesAttached (discover_pass attach found u) = Z.of_nat (size (attached (discover_pass attach found u))).
Proof.
  intros Hu. unfold discover_pass. apply (map_fold_weak_ind (λ u' _, uprobesAttached u' = Z.of_nat (size (attached u')))); [done|].
  intros k path m u' _ IH. unfold attach_step. destruct (attached u' !! k) eqn:E; [done|]. destruct (attach path); [|done].
  cbn [attached uprobesAttached]. rewrite map_size_insert_None by done. lia.
Qed.

(** Every path found belongs to the inode it is filed under. *)
Lemma discoverLibssl_sound Readlink Stat procs key path :
  discoverLibssl Readlink Stat procs !! key = Some path → ∃ st, Stat path = Some st ∧ key = stat_key st.
Proof.
  set (sound := λ m : gmap string string, ∀ key path, m !! key = Some path → ∃ st, Stat path = Some st ∧ key = stat_key st).
  assert (∀ cands m, sound m → sound (foldl (add_candidate Stat) m cands)) as Hadd.
  { induction cands as [|c cands IH]; intros m Hm; [done|]. apply IH. unfold add_candidate.
    destruct (Stat c) as [st|] eqn:E; [|done]. destruct (m !! stat_key st); [done|].
    intros k p [[<- <-]|[_ Hp]]%lookup_insert_Some; [by eexists|by apply Hm]. }
  unfold discoverLibssl. destruct procs as [ps|]; [|by rewrite lookup_empty].
  enough (∀ acc, sound acc.1 → sound (foldl (scan_proc Readlink Stat) acc ps).1) as Hs by (apply (Hs (∅, ∅)); done).
  induction ps as [|p ps IH]; intros acc Hacc; [done|]. apply IH. destruct acc as [out seenMnt]. unfold scan_proc.
  destruct (Atoi p); [|done]. destruct (Readlink _); [|done]. case_bool_decide; [done|]. by apply Hadd.
Qed.
