(* ===== verification/Uprobe.v ===== *)
(** * The SSL_write uprobe ([bpf/sslsnoop.bpf.c]) and its reader

    The program copies up to 4096 bytes of the plaintext into one record; the agent
    reads the record back ([tracker.handle]).  A call of [SSL_write] is its
    arguments, the calling task, and what [bpf_probe_read_user] finds at [buf]. *)

From S2P Require Import Prelude GoStrings GoNet Attr Policy Config L7 Output DnsLearn EgressMon SslSnoop.
From Stdlib Require String.

Definition MAX_DATA : nat := 4096.
Record ssl_call := {
  sc_pid_tgid : Z; sc_comm : bytes; sc_cgroup : Z; sc_ssl : Z; sc_buf : Z; sc_num : Z;
  sc_memory : option bytes (** the readable bytes at [buf], [None] when the address faults *)
}.
Record ssl_event := { se_pid : Z; se_data_len : Z; se_comm : bytes; se_ssl : Z; se_cgroup : Z; se_data : bytes }.
(** [bpf_probe_read_user(dst, n, buf)]. *)
Definition probe_read_user (c : ssl_call) (n : nat) : option bytes :=
  m ← sc_memory c; if bool_decide (n ≤ length m) then Some (take n m) else None.
(** The program: [None] when nothing is submitted. *)
Definition ssl_write (reserve : bool) (c : ssl_call) : option ssl_event :=
  if bool_decide (sc_num c ≤ 0)%Z || bool_decide (sc_buf c = 0%Z) then None
  else if negb reserve then None
  else
    let n := Nat.min (Z.to_nat (wrap 32 (sc_num c))) MAX_DATA in
    let read := if bool_decide (n = 0) then None else probe_read_user c n in
    Some {| se_pid := wrap 32 (Z.shiftr (sc_pid_tgid c) 32); se_data_len := from_option (λ _, Z.of_nat n) 0%Z read; se_comm := sc_comm c;
            se_ssl := sc_ssl c; se_cgroup := sc_cgroup c; se_data := default [] read |}.
(** The bytes of the record; [rest] is what the buffer held before. *)
Definition put_ssl_event (e : ssl_event) (rest : bytes) : bytes :=
  le_put 4 (se_pid e) ++ le_put 4 (se_data_len e) ++ se_comm e ++ le_put 8 (se_ssl e) ++ le_put 8 (se_cgroup e) ++ se_data e ++ rest.

(** ** What the agent sees of a call *)
(** A call whose buffer of [sc_num] bytes is readable. *)
Record call_ok (c : ssl_call) (data : bytes) : Prop := {
  call_num : sc_num c = Z.of_nat (length data) ∧ (0 < sc_num c < 2 ^ 31)%Z;
  call_buf : sc_buf c ≠ 0%Z ∧ ∃ more, sc_memory c = Some (data ++ more);
  call_comm : length (sc_comm c) = 16;
  call_ids : (0 ≤ sc_ssl c < 2 ^ 64)%Z ∧ (0 ≤ sc_cgroup c < 2 ^ 64)%Z
}.
Lemma ssl_write_sample c data rest :
  call_ok c data →
  (λ e, put_ssl_event e rest) <$> ssl_write true c =
    Some (ssl_sample (wrap 32 (Z.shiftr (sc_pid_tgid c) 32)) (sc_comm c) (sc_ssl c) (sc_cgroup c) (take MAX_DATA data) rest).
Proof.
  intros [[Hn Hnum] [Hb [more Hm]] Hc _]. unfold ssl_write. rewrite !bool_decide_false by (done || lia). cbn [orb negb fmap option_fmap option_map].
  assert (wrap 32 (sc_num c) = Z.of_nat (length data)) as -> by (unfold wrap; rewrite Hn, Z.mod_small; lia).
  rewrite Nat2Z.id. rewrite bool_decide_false by (unfold MAX_DATA; lia). unfold probe_read_user. rewrite Hm. cbn [mbind option_bind].
  rewrite bool_decide_true by (rewrite length_app; lia). cbn [from_option default].
  rewrite take_app_le by lia. f_equal. unfold put_ssl_event, ssl_sample. cbn [se_pid se_data_len se_comm se_ssl se_cgroup se_data].
  assert (take (length data `min` MAX_DATA) data = take MAX_DATA data) as ->.
  { destruct (decide (length data ≤ MAX_DATA)) as [Hl|Hl]; [by rewrite Nat.min_l, !take_ge by lia|by rewrite Nat.min_r by lia]. }
  by rewrite length_take, Nat.min_comm.
Qed.

Section stream.
Context `{UnicodeCase} `{PodResolver} (hpack : Hpack) (f : Filter) (inspect : Inspection).
(** The records of calls, each with the buffer's old contents. *)
Definition records (calls : list (ssl_call * bytes)) : list bytes :=
  omap (λ cr, (λ e, put_ssl_event e cr.2) <$> ssl_write true cr.1) calls.
Definition same_stream (pid : Z) (comm : bytes) (ssl cg : Z) (c : ssl_call) : Prop :=
  wrap 32 (Z.shiftr (sc_pid_tgid c) 32) = pid ∧ sc_comm c = comm ∧ sc_ssl c = ssl ∧ sc_cgroup c = cg.

Lemma on_data_conn pid comm ssl cg data t h t' :
  conns hpack t !! ssl = Some {| mode := modeHTTP2; h2 := Some h |} → on_data hpack f inspect pid comm ssl cg data t = Ok t' →
  ∃ h', conns hpack t' !! ssl = Some {| mode := modeHTTP2; h2 := Some h' |}.
Proof.
  intros Hc. rewrite (on_data_h2 hpack _ _ _ _ _ _ _ _ h) by done. unfold feed_emit.
  destruct (Feed_spec hpack h data) as (rs & h1 & -> & _). cbn [mbind go_bind]. intros [= <-]. exists h1.
  rewrite emits_conns. apply lookup_insert_eq.
Qed.

(** C23: HTTPS requests are found however the application writes them: on a connection
    already tracked in HTTP/2 mode, when every SSL_write passes at most 4096 bytes, the probe's
    records, read back by the agent, leave the tracker, the requests reported
    included, exactly as if the whole stream had come in one piece. *)
Theorem uprobe_stream pid comm ssl cg calls datas t h :
  calls ≠ [] → Forall2 (λ cr data, call_ok cr.1 data ∧ same_stream pid comm ssl cg cr.1 ∧ length data ≤ MAX_DATA) calls datas →
  conns hpack t !! ssl = Some {| mode := modeHTTP2; h2 := Some h |} →
  ssl_run hpack f inspect (records calls) t = on_data hpack f inspect pid (cstr comm) ssl cg (concat datas) t.
Proof.
  intros Hne HF. revert Hne t h. induction HF as [|[c rest] data calls datas (Hok & (Hp & Hco & Hs & Hg) & Hlen) HF IH]; [done|]. intros _ t h Hc.
  assert (records ((c, rest) :: calls) = ssl_sample pid comm ssl cg data rest :: records calls) as ->.
  { unfold records. cbn [omap list_omap fst snd]. rewrite (ssl_write_sample c data rest) by done.
    cbn [fst] in Hp, Hco, Hs, Hg. by rewrite Hp, Hco, Hs, Hg, take_ge by done. }
  cbn [fst] in Hp, Hco, Hs, Hg.
  destruct Hok as [[Hn Hnum] _ Hcomm [Hssl Hcg]]. cbn [fst] in Hn, Hnum, Hcomm, Hssl, Hcg. cbn [concat].
  assert (ssl_handle hpack f inspect (ssl_sample pid comm ssl cg data rest) t = on_data hpack f inspect pid (cstr comm) ssl cg data t) as Hh.
  { apply ssl_handle_sample; [subst pid; unfold wrap; apply Z.mod_pos_bound; lia|by rewrite <-Hco|by rewrite <-Hs|by rewrite <-Hg|intros ->; simpl in Hn; lia|lia]. }
  unfold ssl_run in *. cbn [foldl mbind go_bind]. rewrite Hh. destruct calls as [|cr calls].
  { inversion HF; subst. cbn [records omap list_omap foldl concat]. by rewrite app_nil_r. }
  rewrite (on_data_split hpack f inspect pid (cstr comm) ssl cg data (concat datas) t h Hc).
  destruct (on_data hpack f inspect pid (cstr comm) ssl cg data t) as [t1|e| |] eqn:E.
  2-4: exfalso; rewrite (on_data_h2 hpack _ _ _ _ _ _ _ _ h) in E by done; unfold feed_emit in E;
    destruct (Feed_spec hpack h data) as (rs & h1 & Hf & _); rewrite Hf in E; done.
  destruct (on_data_conn _ _ _ _ _ _ _ _ Hc E) as [h1 Hc1]. cbn [mbind go_bind]. by apply (IH ltac:(done) t1 h1).
Qed.
End stream.

(** ** Concrete calls *)
Definition ex_call (data : bytes) : ssl_call :=
  {| sc_pid_tgid := Z.shiftl 9 32; sc_comm := ex_comm; sc_cgroup := 7; sc_ssl := 5; sc_buf := 4096; sc_num := Z.of_nat (length data);
     sc_memory := Some data |}.
Definition ex_request : bytes := h2_frame x01 x04 ex_block.
Definition ex_calls : list (ssl_call * bytes) := [(ex_call (take 20 ex_request), []); (ex_call (drop 20 ex_request), [x00])].
Lemma ex_call_ok data : data ≠ [] → length data ≤ MAX_DATA → call_ok (ex_call data) data.
Proof.
  intros Hne Hl. assert (length data ≠ 0) by (by destruct data). unfold MAX_DATA in Hl. split; cbn; [lia| |done|lia].
  split; [done|]. exists []. by rewrite app_nil_r.
Qed.
Lemma uprobe_stream_witness :
  ssl_run (H := ascii_case) (H0 := no_pods) toy_hpack default_filter all_inspection (records ex_calls) h2_open =
  on_data (H := ascii_case) (H0 := no_pods) toy_hpack default_filter all_inspection 9 (cstr ex_comm) 5 7 ex_request h2_open.
Proof.
  replace ex_request with (concat [take 20 ex_request; drop 20 ex_request]) by (cbn [concat]; by rewrite app_nil_r, take_drop).
  eapply (uprobe_stream (H := ascii_case) (H0 := no_pods) toy_hpack default_filter all_inspection 9 ex_comm 5 7 ex_calls); [done| |by vm_compute].
  assert (∀ data, data ≠ [] → length data ≤ 100 → call_ok (ex_call data) data ∧ same_stream 9 ex_comm 5 7 (ex_call data) ∧ length data ≤ MAX_DATA) as Hc.
  { intros data Hne Hl. unfold MAX_DATA. split; [apply ex_call_ok; [done|unfold MAX_DATA; lia]|]. split; [done|lia]. }
  apply Forall2_cons. split; [apply Hc; [by vm_compute|by apply (bool_decide_unpack _); vm_compute]|].
  apply Forall2_cons. split; [apply Hc; [by vm_compute|by apply (bool_decide_unpack _); vm_compute]|constructor].
Defined.
(** A write of more than 4096 bytes loses its tail, and with it the place in the
    stream: the next request is taken for the missing bytes and never reported,
    though in a write of its own it is. *)
Example long_write_hides_requests :
  let body := replicate 5000 x00 in
  let upload := [x00; x13; x88; x00; x00; x00; x00; x00; x01] ++ body in
  let reported calls := match ssl_run (H := ascii_case) (H0 := no_pods) toy_hpack default_filter all_inspection (records calls) h2_open with
                        | Ok t => Some (length (t_trace (H0 := no_pods) toy_hpack t)) | _ => None end in
  reported [(ex_call ex_request, [])] = Some 1 ∧ reported [(ex_call upload, []); (ex_call ex_request, [])] = Some 0 ∧
  reported [(ex_call (take 4000 upload), []); (ex_call (drop 4000 upload), []); (ex_call ex_request, [])] = Some 1.
Proof. by vm_compute. Qed.
