(* ===== verification/Runs.v ===== *)
(** * The long-running functions

    [egress.Run], [sslsnoop.Run] with its discovery loop, [crdsource.New] and
    [attr.NewK8sEnricher]: what each opens, starts, returns and closes.  The kernel
    and the API server answer each opening with success or an error; the reads of a
    ring buffer are the list of its answers so far. *)

From S2P Require Import Prelude GoStrings GoNet Lifecycle Attr Policy Engine Aggregate Config L7 Output PolicySource Crd DnsLearn EgressMon SslSnoop.
From Stdlib Require Import Ascii.

(** What the kernel answers; a verifier error carries its log. *)
Inductive os_error := VerifierError (log : string) | OtherError (text : string).

(** ** [egress.Run] *)
Module Egress.
Inductive hook := CGroupInetEgress | CGroupInetIngress | CGroupInet4Connect.
Inductive resource := Objects | CgroupLink (h : hook) | RingbufReader.
#[export] Instance hook_eq_dec : EqDecision hook.
Proof. solve_decision. Defined.
#[export] Instance resource_eq_dec : EqDecision resource.
Proof. solve_decision. Defined.
(** The goroutines, with what they are given of the policy source and the
    configuration. *)
Inductive goroutine (src : Type) :=
  | RunProgrammer (s : src) (dryRun : bool)
  | RunLearner (s : src)
  | CloseOnDone.
Arguments RunProgrammer {_} _ _. Arguments RunLearner {_} _. Arguments CloseOnDone {_}.
Inductive run_error :=
  | LoadVerifier (log : string)
  | LoadFailed (text : string)
  | AttachFailed (h : hook) (path : string) (e : os_error)
  | ReaderFailed (e : os_error).
Definition load_error (e : os_error) : run_error :=
  match e with VerifierError log => LoadVerifier log | OtherError t => LoadFailed t end.

Section run.
Context `{UnicodeCase} `{PodResolver} (dns : DnsParser) {src : Type} (env : resource → option os_error).
Definition code : Type → Type := scoped resource (goroutine src) run_error monitor.
Definition attach (cfg : Config) (h : hook) : code unit :=
  acquire (AttachFailed h (Cgroup cfg) <$> env (CgroupLink h)) (CgroupLink h).
Definition enforcement (cfg : Config) (s : src) : code unit :=
  _ ← start (RunProgrammer s (e_DryRun (Enforce cfg)));
  _ ← attach cfg CGroupInetIngress;
  _ ← start (RunLearner s);
  attach cfg CGroupInet4Connect.
Definition Run (cfg : Config) (f : Filter) (source : option src) (reads : list read_result) : code unit :=
  _ ← acquire (load_error <$> env Objects) Objects;
  _ ← attach cfg CGroupInetEgress;
  _ ← (match source with Some s => enforcement cfg s | None => mret tt end : code unit);
  _ ← acquire (ReaderFailed <$> env RingbufReader) RingbufReader;
  _ ← start CloseOnDone;
  read_loop (handleEvent dns f (Inspect cfg) (bool_decide (is_Some source))) reads.

(** The order in which things are opened and started. *)
Definition plan (cfg : Config) (source : option src) : list (plan_step resource (goroutine src)) :=
  [Open Objects; Open (CgroupLink CGroupInetEgress)] ++
  match source with
  | Some s => [Go (RunProgrammer s (e_DryRun (Enforce cfg))); Open (CgroupLink CGroupInetIngress); Go (RunLearner s);
               Open (CgroupLink CGroupInet4Connect)]
  | None => []
  end ++
  [Open RingbufReader; Go CloseOnDone].
Definition failure (cfg : Config) (r : resource) : option run_error :=
  e ← env r;
  Some match r with
       | Objects => load_error e
       | CgroupLink h => AttachFailed h (Cgroup cfg) e
       | RingbufReader => ReaderFailed e
       end.

Lemma egress_plan cfg f source reads fr :
  Run cfg f source reads fr =
    (_ ← exec_plan (failure cfg) (plan cfg source);
     read_loop (handleEvent dns f (Inspect cfg) (bool_decide (is_Some source))) reads : code unit) fr.
Proof.
  unfold Run, plan, enforcement, attach, failure.
  destruct source; cbn [app exec_plan foldr exec_step]; unfold mbind, scoped_bind, acquire, start; cbn [local defers actions];
    repeat (destruct (env _); cbn [fmap option_fmap option_map mbind option_bind local defers actions]; try done).
Qed.

(** C16: the egress monitor's start, life and end: whatever the kernel answers, [Run]
    opens the objects, the egress hook, in enforce mode the ingress and connect
    hooks, and the reader, in that order, stops at the first that fails and returns
    its error having handled nothing; otherwise it handles exactly the samples read
    before the reader is closed, in order, past any read error, and returns nil
    exactly when the reader is closed.  The programmer and the learner are started
    in enforce mode only, before the connect hook.  When it has returned everything
    it opened is closed again, last opened first; until then all of it is held. *)
Theorem egress_Run_spec cfg f source reads m :
  let ex := run (Run cfg f source reads) m in
  plan_loop_spec (handleEvent dns f (Inspect cfg) (bool_decide (is_Some source))) (failure cfg) (plan cfg source) reads m ex ∧
  held (ex_actions ex) = Some (match ex_outcome ex with Running => reverse (opens (plan cfg source)) | _ => [] end) ∧
  ex_outcome ex ≠ Panicked.
Proof.
  cbn zeta. destruct (monitor_run_extends dns f (Inspect cfg) (bool_decide (is_Some source)) (samples reads) m) as (m' & Hm & _).
  assert (plan_loop_spec (handleEvent dns f (Inspect cfg) (bool_decide (is_Some source))) (failure cfg) (plan cfg source) reads m
            (run (Run cfg f source reads) m)) as Hs.
  { apply run_plan_loop with m'; [intros; apply egress_plan|exact Hm]. }
  split; [exact Hs|]. split; [by eapply plan_loop_held|]. revert Hs. unfold plan_loop_spec.
  destruct (plan_error _ _); [by intros [-> _]|]. intros [_ Hex]. case_bool_decide; by destruct Hex as [-> _].
Qed.
End run.
End Egress.

(** ** [sslsnoop.Run] *)
Module Ssl.
Inductive resource := Objects | RingbufReader.
#[export] Instance resource_eq_dec : EqDecision resource.
Proof. solve_decision. Defined.
Inductive goroutine := CloseOnDone | DiscoverLoop.
Inductive run_error := LoadVerifier (log : string) | LoadFailed (text : string) | ReaderFailed (e : os_error).
Definition load_error (e : os_error) : run_error :=
  match e with VerifierError log => LoadVerifier log | OtherError t => LoadFailed t end.

Section run.
Context `{UnicodeCase} `{PodResolver} (hpack : Hpack) (env : resource → option os_error).
Definition Run (cfg : Config) (f : Filter) (reads : list read_result) : scoped resource goroutine run_error (tracker hpack) unit :=
  _ ← acquire (load_error <$> env Objects) Objects;
  _ ← acquire (ReaderFailed <$> env RingbufReader) RingbufReader;
  _ ← start CloseOnDone;
  _ ← start DiscoverLoop;
  read_loop (ssl_handle hpack f (Inspect cfg)) reads.
Definition plan : list (plan_step resource goroutine) := [Open Objects; Open RingbufReader; Go CloseOnDone; Go DiscoverLoop].
Definition failure (r : resource) : option run_error :=
  e ← env r; Some (match r with Objects => load_error e | RingbufReader => ReaderFailed e end).
Lemma ssl_plan cfg f reads fr :
  Run cfg f reads fr =
    (_ ← exec_plan failure plan; read_loop (ssl_handle hpack f (Inspect cfg)) reads : scoped resource goroutine run_error (tracker hpack) unit) fr.
Proof.
  unfold Run, plan, failure. cbn [exec_plan foldr exec_step]. unfold mbind, scoped_bind, acquire, start. cbn [local defers actions].
  repeat (destruct (env _); cbn [fmap option_fmap option_map mbind option_bind local defers actions]; try done).
Qed.

(** The HTTPS capture's start, life and end: it fails only on loading the program or
    opening the reader, with what it opened closed again; otherwise it decodes
    exactly the samples read before the reader is closed, in order and past read
    errors, with at most [maxConns] connections tracked whatever they hold, and
    returns nil exactly when the reader is closed. *)
Theorem ssl_Run_spec cfg f reads r :
  let ex := run (Run cfg f reads) (newTracker hpack r) in
  plan_loop_spec (ssl_handle hpack f (Inspect cfg)) failure plan reads (newTracker hpack r) ex ∧
  held (ex_actions ex) = Some (match ex_outcome ex with Running => [RingbufReader; Objects] | _ => [] end) ∧
  tracker_ok hpack (ex_local ex) ∧ ex_outcome ex ≠ Panicked.
Proof.
  cbn zeta. destruct (ssl_run_ok hpack f (Inspect cfg) (samples reads) _ (newTracker_ok hpack r)) as (t' & Ht & Hok).
  assert (plan_loop_spec (ssl_handle hpack f (Inspect cfg)) failure plan reads (newTracker hpack r)
            (run (Run cfg f reads) (newTracker hpack r))) as Hs.
  { apply run_plan_loop with t'; [intros; apply ssl_plan|exact Ht]. }
  split; [exact Hs|]. split; [by rewrite (plan_loop_held _ _ _ _ _ _ Hs); destruct (ex_outcome _)|]. revert Hs. unfold plan_loop_spec.
  destruct (plan_error _ _); [by intros (-> & _ & ->)|]. unfold ssl_run in Ht. rewrite Ht. intros [[= <-] Hex].
  case_bool_decide; by destruct Hex as [-> _].
Qed.
End run.

(** [discoverLoop] over its passes so far (what is found, and what attaches). *)
Definition no_uprobes : uprobes := {| attached := ∅; failed := ∅; uprobesAttached := 0 |}.
Definition discoverLoop (passes : list (gmap string string * (string → bool))) : uprobes :=
  foldl (λ u pass, discover_pass pass.2 pass.1 u) no_uprobes passes.
(** What its deferred function closes. *)
Definition closed_links (u : uprobes) : list string := (map_to_list (attached u)).*1.

(** Every library found in some pass in which it attaches has exactly one probe,
    placed in the first such pass, and no other has one; the gauge is their number;
    each is closed once at the end. *)
Theorem discoverLoop_spec passes :
  let u := discoverLoop passes in
  (∀ key, attached u !! key = head (omap (λ pass : gmap string string * (string → bool), path ← pass.1 !! key; if pass.2 path then Some path else None) passes)) ∧
  uprobesAttached u = Z.of_nat (size (attached u)) ∧
  NoDup (closed_links u) ∧ (∀ key, key ∈ closed_links u ↔ is_Some (attached u !! key)).
Proof.
  cbn zeta. split; [|split].
  - intros key. unfold discoverLoop. induction passes as [|[found attach] passes IH] using rev_ind; [done|].
    rewrite foldl_app. cbn [foldl fst snd]. rewrite discover_pass_spec, IH, omap_app. cbn [omap list_omap fst snd].
    destruct (omap _ passes); [|done]. cbn [head app]. destruct (found !! key) as [q|]; [|done]. cbn [mbind option_bind]. by destruct (attach q).
  - unfold discoverLoop. assert (uprobesAttached no_uprobes = Z.of_nat (size (attached no_uprobes))) as H0 by done.
    revert H0. generalize no_uprobes. induction passes as [|[] passes IH]; intros u Hu; [done|]. by apply IH, discover_pass_gauge.
  - split; [apply NoDup_fst_map_to_list|]. intros key. unfold closed_links. rewrite list_elem_of_fmap. split.
    + intros ([k p] & -> & Hp%elem_of_map_to_list). by eexists.
    + intros [p Hp]. exists (key, p). split; [done|]. by apply elem_of_map_to_list.
Qed.
End Ssl.

(** ** [crdsource.New] *)
Module Crds.
Inductive kind := KindEgressPolicy | KindClusterEgressPolicy.
Record api := { cache_error : option string; syncs : bool; informer_error : kind → option string; handler_error : kind → option string }.
Inductive new_error := CreateCache (e : string) | CacheSyncFailed | GetInformer (e : string) | AddEventHandler (e : string).
Inductive goroutine := CacheStart.
Definition code : Type → Type := scoped Empty_set goroutine new_error source_state.
Definition check (e : option new_error) : code unit := match e with Some e => leave (Return (Some e)) | None => mret tt end.
(** [New]'s own [rebuild] as thread [i], each of its two lists succeeding or not. *)
Definition own_rebuild (i : nat) (cl_listed ns_listed : bool) (sched : nat → bool * bool) : list crd_op :=
  [Spawn i; Advance i cl_listed sched; Advance i ns_listed sched; Advance i true sched; Advance i true sched].
(** The informers' goroutines run meanwhile: [Some o] is a step of theirs, [None]
    one of [New]'s. *)
Fixpoint interleave (own : list crd_op) (script : list (option crd_op)) : list crd_op :=
  match script, own with
  | [], _ => own
  | None :: script, o :: own => o :: interleave own script
  | None :: script, [] => interleave [] script
  | Some o :: script, _ => o :: interleave own script
  end.
Definition New (env : api) (own : list crd_op) (script : list (option crd_op)) : code unit :=
  _ ← check (CreateCache <$> cache_error env);
  _ ← start CacheStart;
  _ ← check (if syncs env then None else Some CacheSyncFailed);
  _ ← check (GetInformer <$> informer_error env KindEgressPolicy);
  _ ← check (AddEventHandler <$> handler_error env KindEgressPolicy);
  _ ← check (GetInformer <$> informer_error env KindClusterEgressPolicy);
  _ ← check (AddEventHandler <$> handler_error env KindClusterEgressPolicy);
  update (λ st, Ok (foldl crd_step st (interleave own script))).
(** The source [New] returns for the objects the caches hold once synced. *)
Definition New_source (env : api) (cl : list ClusterEgressPolicy) (ns : list EgressPolicy) (own : list crd_op)
    (script : list (option crd_op)) : option source_state :=
  let ex := run (New env own script) (crd_init cl ns) in
  match ex_outcome ex with Returned None => Some (ex_local ex) | _ => None end.

Definition api_ok (env : api) : Prop :=
  cache_error env = None ∧ syncs env = true ∧ ∀ k, informer_error env k = None ∧ handler_error env k = None.
Lemma New_cases env own script cl ns :
  match New_source env cl ns own script with
  | Some st => api_ok env ∧ st = foldl crd_step (crd_init cl ns) (interleave own script)
  | None => ¬ api_ok env
  end.
Proof.
  unfold New_source, run, New, mbind, scoped_bind, api_ok, check.
  destruct (cache_error env); [naive_solver|]. destruct (syncs env); [|naive_solver]. cbn.
  destruct (informer_error env KindEgressPolicy) eqn:E1; cbn; [intros (_ & _ & Hk); destruct (Hk KindEgressPolicy); congruence|].
  destruct (handler_error env KindEgressPolicy) eqn:E2; cbn; [intros (_ & _ & Hk); destruct (Hk KindEgressPolicy); congruence|].
  destruct (informer_error env KindClusterEgressPolicy) eqn:E3; cbn; [intros (_ & _ & Hk); destruct (Hk KindClusterEgressPolicy); congruence|].
  destruct (handler_error env KindClusterEgressPolicy) eqn:E4; cbn; [intros (_ & _ & Hk); destruct (Hk KindClusterEgressPolicy); congruence|].
  split; [|done]. split_and!; [done..|]. by intros [].
Qed.
Lemma New_ok env own script cl ns : from_option source_ok True (New_source env cl ns own script).
Proof.
  pose proof (New_cases env own script cl ns) as Hn. destruct (New_source env cl ns own script); [|done]. destruct Hn as [_ ->].
  assert (source_ok (crd_init cl ns)) as Hok by apply crd_init_ok. cbn [from_option]. revert Hok. generalize (crd_init cl ns).
  generalize (interleave own script). intros ops. induction ops as [|o ops IH]; intros st Hok; [done|]. by apply IH, crd_step_ok.
Qed.

(** While the objects do not change, every thread works on the same lists. *)
Definition thread_fresh (cl : list ClusterEgressPolicy) (agg : Policy) (t : thread) : Prop :=
  match t with Starting => True | ListedCluster cl' => cl' = cl | Aggregated a | Stored a => a = agg end.
Record steady (cl : list ClusterEgressPolicy) (ns : list EgressPolicy) (st : source_state) : Prop := {
  steady_cl : cache_cl st = cl;
  steady_ns : cache_ns st = ns;
  steady_threads : map_Forall (λ _, thread_fresh cl (Aggregate (accept_cluster cl) (accept_ns ns))) (threads st)
}.
Definition others (i : nat) (o : crd_op) : Prop :=
  match o with CacheIs _ _ => False | Spawn j | Advance j _ _ => j ≠ i | CrdSubscribe | CrdReceive _ => True end.
(** How far [New]'s own rebuild has come, from what is left of it. *)
Definition own_state (i : nat) (cl : list ClusterEgressPolicy) (agg : Policy) (left : nat) (st : source_state) : Prop :=
  match left with
  | 5 => threads st !! i = None
  | 4 => threads st !! i = Some Starting
  | 3 => threads st !! i = Some (ListedCluster cl)
  | 2 => threads st !! i = Some (Aggregated agg)
  | 1 => threads st !! i = Some (Stored agg) ∧ src_cur st = agg
  | 0 => threads st !! i = None ∧ src_cur st = agg
  | _ => False
  end.

Lemma with_thread_steady cl ns st i t :
  steady cl ns st → from_option (thread_fresh cl (Aggregate (accept_cluster cl) (accept_ns ns))) True t → steady cl ns (with_thread st i t).
Proof.
  intros [Hcl Hns Ht] Hi. split; [done..|]. cbn [with_thread threads]. intros j u. rewrite lookup_partial_alter.
  case_decide; [|by apply Ht]. by intros ->.
Qed.
Lemma steady_step cl ns st o : steady cl ns st → (∀ cl' ns', o ≠ CacheIs cl' ns') → steady cl ns (crd_step st o).
Proof.
  intros Hst Ho. destruct o as [cl' ns'|i|i listed sched| |i]; cbn [crd_step]; [by destruct (Ho cl' ns')| | |by destruct Hst..].
  - destruct (threads st !! i); [done|]. by apply with_thread_steady.
  - unfold advance. destruct (threads st !! i) as [t|] eqn:E; [|done].
    pose proof (steady_threads _ _ _ Hst i t E) as Hi. destruct Hst as [Hcl Hns Ht]. cbn beta in Hi.
    destruct t as [|cl'|agg|agg]; cbn [thread_fresh] in Hi; apply with_thread_steady; try done; destruct listed; try done; cbn; by subst.
Qed.
(** What another thread stores is the same policy. *)
Lemma others_step i cl ns left st o :
  steady cl ns st → others i o → own_state i cl (Aggregate (accept_cluster cl) (accept_ns ns)) left st →
  own_state i cl (Aggregate (accept_cluster cl) (accept_ns ns)) left (crd_step st o).
Proof.
  intros Hst Ho Hown.
  assert (threads (crd_step st o) !! i = threads st !! i) as Hti.
  { destruct o as [cl' ns'|j|j listed sched| |j]; cbn [crd_step others] in *; try done.
    - destruct (threads st !! j); [done|]. cbn. by rewrite lookup_partial_alter_ne.
    - unfold advance. destruct (threads st !! j) as [[]|]; cbn; try done; by rewrite lookup_partial_alter_ne. }
  assert (src_cur (crd_step st o) = src_cur st ∨ src_cur (crd_step st o) = Aggregate (accept_cluster cl) (accept_ns ns)) as Hcur.
  { destruct o as [cl' ns'|j|j listed sched| |j]; cbn [crd_step others] in *; try (by left).
    - by destruct (threads st !! j); left.
    - unfold advance. destruct (threads st !! j) as [t|] eqn:E; [|by left]. pose proof (steady_threads _ _ _ Hst j t E) as Hj.
      destruct t; cbn in *; by (left + right). }
  unfold own_state in *. do 6 (destruct left as [|left]; [destruct Hcur as [Hc|Hc]; rewrite ?Hc, ?Hti; intuition|]). done.
Qed.
Lemma own_step i cl ns left sched st :
  steady cl ns st → own_state i cl (Aggregate (accept_cluster cl) (accept_ns ns)) (S left) st →
  let o := if Nat.eqb left 4 then Spawn i else Advance i true sched in
  steady cl ns (crd_step st o) ∧ own_state i cl (Aggregate (accept_cluster cl) (accept_ns ns)) left (crd_step st o).
Proof.
  intros Hst Hown. cbn zeta. split; [apply steady_step; [done|]; by destruct (Nat.eqb left 4)|].
  destruct Hst as [<- <- Ht].
  do 5 (destruct left as [|left]; [cbn in Hown |- *; try match type of Hown with _ ∧ _ => destruct Hown as [Hown ?] end; unfold advance; rewrite ?Hown; cbn; by rewrite lookup_partial_alter_eq|]).
  done.
Qed.
Lemma interleave_done i sched cl ns script left st :
  left ≤ 5 → Forall (from_option (others i) True) script → steady cl ns st →
  own_state i cl (Aggregate (accept_cluster cl) (accept_ns ns)) left st →
  let st' := foldl crd_step st (interleave (drop (5 - left) (own_rebuild i true true sched)) script) in
  steady cl ns st' ∧ own_state i cl (Aggregate (accept_cluster cl) (accept_ns ns)) 0 st'.
Proof.
  intros Hl Hs. revert left st Hl. induction Hs as [|[o|] script Ho Hs IH]; intros left st Hl Hst Hown; cbn zeta.
  - cbn [interleave]. induction left as [|left IHl] in st, Hl, Hst, Hown |- *; [done|].
    destruct (own_step i cl ns left sched st Hst Hown) as [Hst1 Hown1].
    specialize (IHl _ ltac:(lia) Hst1 Hown1). do 5 (destruct left as [|left]; [exact IHl|]). lia.
  - cbn [interleave foldl]. apply IH; [done|apply steady_step; [done|]; intros ?? ->; done|by apply others_step].
  - destruct left as [|left]; [by apply (IH 0)|].
    destruct (own_step i cl ns left sched st Hst Hown) as [Hst1 Hown1]. specialize (IH left _ ltac:(lia) Hst1 Hown1).
    do 5 (destruct left as [|left]; [exact IH|]). lia.
Qed.

(** [crdsource.New] gives a source exactly when the cache can be created, syncs,
    and both kinds' informers and handlers register; and on return its snapshot is
    meaningful: however the informers' own rebuilds interleave with [New]'s, as long
    as the objects do not change meanwhile the snapshot is the aggregate of all the
    accepted objects, which compiles. *)
Theorem crd_New_spec `{UnicodeCase} env cl ns i sched script :
  Forall (from_option (others i) True) script →
  match New_source env cl ns (own_rebuild i true true sched) script with
  | Some st =>
      api_ok env ∧ src_cur st = Aggregate (accept_cluster cl) (accept_ns ns) ∧ ∃ e, NewEngine (Some (src_cur st)) = Ok e
  | None => ¬ api_ok env
  end.
Proof.
  intros Hs. pose proof (New_cases env (own_rebuild i true true sched) script cl ns) as Hn.
  pose proof (New_ok env (own_rebuild i true true sched) script cl ns) as Hok.
  destruct (New_source env cl ns _ script) as [st|]; [|done]. destruct Hn as [Henv ->]. split; [done|]. split.
  - destruct (interleave_done i sched cl ns script 5 (crd_init cl ns)) as [_ [_ Hc]]; [lia|done| |done|exact Hc].
    split; [done..|apply map_Forall_empty].
  - apply NewEngine_valid, Hok.
Qed.
(** The informer's rebuild of another thread runs in between. *)
Definition ex_api : api := {| cache_error := None; syncs := true; informer_error := λ _, None; handler_error := λ _, None |}.
Definition ex_script : list (option crd_op) :=
  [Some (Spawn 1); None; Some (Advance 1 true never); None; None; Some (Advance 1 true never); Some (Advance 1 true never); None; Some CrdSubscribe].
Lemma crd_New_spec_witness :
  match New_source ex_api [] [ex_ep "p" ActionDeny] (own_rebuild 0 true true never) ex_script with
  | Some st => length (Rules (src_cur st)) = 1 ∧ ∃ e, NewEngine (H := ascii_case) (Some (src_cur st)) = Ok e
  | None => False
  end.
Proof.
  pose proof (crd_New_spec (H := ascii_case) ex_api [] [ex_ep "p" ActionDeny] 0 never ex_script) as Hs.
  destruct (New_source _ _ _ _ _) as [st|] eqn:E; [|by vm_compute in E].
  destruct Hs as (_ & Hc & He); [by repeat constructor|]. split; [rewrite Hc; by vm_compute|exact He].
Defined.
End Crds.

(** ** [attr.NewK8sEnricher] *)
Module Enrichment.
Record k8s_env := { in_cluster_error : option string; client_error : option string; indexer_error : option string }.
Inductive enricher_error := InClusterConfig (e : string) | KubeClient (e : string) | AddUIDIndexer (e : string).
(** The informer of the enricher: the node it was made for and the field selector
    of its list options. *)
Record k8sEnricher := { ke_node : string; ke_selector : string }.
#[global] Instance k8sEnricher_eq_dec : EqDecision k8sEnricher.
Proof. solve_decision. Defined.
Definition uidIndex (o : object) : list string := match o with PodObj p => [p_UID p] | OtherObj => [] end.
Definition field_selector (nodeName : string) : string :=
  if bool_decide (nodeName ≠ "") then "spec.nodeName=" +:+ nodeName else "".
(** [None] is the no-op enricher. *)
Definition NewK8sEnricher (env : k8s_env) (nodeName : string) : option k8sEnricher * option enricher_error :=
  match in_cluster_error env with
  | Some e => (None, Some (InClusterConfig e))
  | None =>
      match client_error env with
      | Some e => (None, Some (KubeClient e))
      | None =>
          match indexer_error env with
          | Some e => (None, Some (AddUIDIndexer e))
          | None => (Some {| ke_node := nodeName; ke_selector := field_selector nodeName |}, None)
          end
      end
  end.

(** What the code relies on of client-go and the API server: a list restricted by
    a field selector, and an index over what the informer holds.  A node name has
    none of the selector syntax's own characters. *)
Definition node_name (n : string) : Prop := n ≠ "" ∧ Forall (λ c, c ∉ [","; "="; "!"; "\"]%char) (chars n).
Class PodInformer := {
  Listed : string → list object → list object;
  Listed_all objs : Listed "" objs = objs;
  Listed_node n objs o : node_name n →
    o ∈ Listed ("spec.nodeName=" +:+ n) objs ↔ o ∈ objs ∧ match o with PodObj p => p_NodeName p = n | OtherObj => False end;
  ByIndex : (object → list string) → list object → string → option (list object);
  ByIndex_spec f store v : ∃ objs, ByIndex f store v = Some objs ∧ ∀ o, o ∈ objs ↔ o ∈ store ∧ v ∈ f o
}.
(** The [Enricher] once the informer has synced with the cluster's objects. *)
Definition synced_enricher `{PodInformer} (e : option k8sEnricher) (cluster : list object) : Enricher :=
  match e with
  | None => nopEnricher
  | Some e => k8s_Enrich (ByIndex uidIndex (Listed (ke_selector e) cluster))
  end.

(** Name enrichment is best effort and exact: without a cluster, a client or the
    index it is the no-op enricher with an error to log; otherwise, once synced, a
    UID is answered exactly when a pod of this node (of any node when none is
    named) has it, with that pod's namespace, name, node and labels. *)
Theorem enricher_spec `{PodInformer} env nodeName cluster uid :
  (nodeName = "" ∨ node_name nodeName) →
  (∀ p q, PodObj p ∈ cluster → PodObj q ∈ cluster → p_UID p = p_UID q → p = q) →
  let '(e, err) := NewK8sEnricher env nodeName in
  match err with
  | Some _ => synced_enricher e cluster uid = None
  | None =>
      (in_cluster_error env = None ∧ client_error env = None ∧ indexer_error env = None) ∧
      ∀ ns name node labels, synced_enricher e cluster uid = Some (ns, name, node, labels) ↔
        ∃ p, PodObj p ∈ cluster ∧ p_UID p = uid ∧ (nodeName = "" ∨ p_NodeName p = nodeName) ∧
             ns = p_Namespace p ∧ name = p_Name p ∧ node = p_NodeName p ∧ labels = p_Labels p
  end.
Proof.
  intros Hn Huniq. unfold NewK8sEnricher. destruct (in_cluster_error env); [done|]. destruct (client_error env); [done|].
  destruct (indexer_error env); [done|]. split; [done|]. intros ns name node labels. cbn [synced_enricher ke_selector].
  assert (∀ o, o ∈ Listed (field_selector nodeName) cluster ↔
            o ∈ cluster ∧ (nodeName = "" ∨ match o with PodObj p => p_NodeName p = nodeName | OtherObj => False end)) as Hl.
  { intros o. unfold field_selector. destruct Hn as [-> |Hn].
    - rewrite bool_decide_false by (by intros []). rewrite Listed_all. naive_solver.
    - rewrite bool_decide_true by apply Hn. rewrite Listed_node by done. destruct Hn. naive_solver. }
  unfold k8s_Enrich. destruct (ByIndex_spec uidIndex (Listed (field_selector nodeName) cluster) uid) as (objs & -> & Hobjs).
  setoid_rewrite Hl in Hobjs. split.
  - destruct objs as [|[p|] objs]; [done| |done]. intros [= <- <- <- <-]. exists p.
    destruct (proj1 (Hobjs (PodObj p))) as [[Hp Hnode] Hu]; [by left|]. apply list_elem_of_singleton in Hu. done.
  - intros (p & Hp & Hu & Hnode & -> & -> & -> & ->).
    assert (PodObj p ∈ objs) as Hin by (apply Hobjs; split; [done|by apply list_elem_of_singleton]).
    destruct objs as [|o objs]; [by apply elem_of_nil in Hin|].
    destruct (proj1 (Hobjs o)) as [[Ho _] Hu']; [by left|]. destruct o as [q|]; [|by apply elem_of_nil in Hu'].
    apply list_elem_of_singleton in Hu'. by rewrite (Huniq q p) by (done || congruence).
Qed.

(** An informer over a list. *)
Definition node_label (o : object) : option string :=
  match o with PodObj p => Some ("spec.nodeName=" +:+ p_NodeName p) | OtherObj => None end.
Definition list_select (sel : string) (objs : list object) : list object :=
  if bool_decide (sel = "") then objs
  else filter (λ o, node_label o = Some sel) objs.
Program Definition list_informer : PodInformer :=
  {| Listed := list_select; ByIndex f store v := Some (filter (λ o, v ∈ f o) store) |}.
Next Obligation. done. Qed.
Next Obligation.
  intros n objs o _. unfold list_select. rewrite bool_decide_false by done. rewrite list_elem_of_filter.
  destruct o as [p|]; cbn [node_label]; [|naive_solver]. split; [intros [E ?]|intros [? ->]; done]. split; [done|]. by simplify_eq.
Qed.
Next Obligation. intros f store v. eexists. split; [done|]. intros o. rewrite list_elem_of_filter. naive_solver. Qed.
Definition ex_pod (uid name node : string) : Pod :=
  {| p_UID := uid; p_Namespace := "shop"; p_Name := name; p_NodeName := node; p_Labels := ∅ |}.
Definition ex_cluster : list object := [PodObj (ex_pod "u1" "web-0" "n1"); PodObj (ex_pod "u2" "db-0" "n2")].
Definition in_cluster : k8s_env := {| in_cluster_error := None; client_error := None; indexer_error := None |}.
Lemma enricher_spec_witness :
  synced_enricher (H := list_informer) (NewK8sEnricher in_cluster "n1").1 ex_cluster "u1" = Some ("shop", "web-0", "n1", ∅) ∧
  (∀ ns name node labels, synced_enricher (H := list_informer) (NewK8sEnricher in_cluster "n1").1 ex_cluster "u2" ≠ Some (ns, name, node, labels)).
Proof.
  assert (∀ p q, PodObj p ∈ ex_cluster → PodObj q ∈ ex_cluster → p_UID p = p_UID q → p = q) as Hu.
  { intros p q. unfold ex_cluster. rewrite !elem_of_cons. by intros [[= ->]|[[= ->]|Hp]] [[= ->]|[[= ->]|Hq]] E; try discriminate E; try apply elem_of_nil in Hp; try apply elem_of_nil in Hq. }
  assert ("n1" = "" ∨ node_name "n1") as Hn by (right; split; [done|]; apply (bool_decide_unpack _); by vm_compute).
  pose proof (enricher_spec (H := list_informer) in_cluster "n1" ex_cluster "u1" Hn Hu) as [_ H1].
  pose proof (enricher_spec (H := list_informer) in_cluster "n1" ex_cluster "u2" Hn Hu) as [_ H2]. split.
  - apply H1. exists (ex_pod "u1" "web-0" "n1"). split; [by left|]. split; [done|]. split; [by right|done].
  - intros ns name node labels (p & Hp & Hid & [?|Hnode] & _)%H2; [done|]. unfold ex_cluster in Hp.
    rewrite !elem_of_cons in Hp. destruct Hp as [[= ->]|[[= ->]|Hp%elem_of_nil]]; done.
Defined.
End Enrichment.
