(* ===== verification/Cli.v ===== *)
(** * The policy test command ([internal/cli/policytest.go])

    Argument parsing as the [flag] package does it, flow specifications, and the
    verdict table.  Decoding YAML and JSON are parameters; the terminal, standard
    input and the policy file are inputs. *)

From S2P Require Import Prelude GoStrings GoFlag GoNet Attr Policy Engine Aggregate L7 Output PolicySource.
From Stdlib Require Import Ascii.

(** ** Flow specifications *)
Record flowSpec := {
  fs_Namespace : string; fs_Name : string; fs_UID : string; fs_Labels : gmap string string; fs_Dst : string; fs_Port : Z;
  fs_Domain : string; fs_Method : string; fs_Path : string
}.
Definition flowSpec_zero : flowSpec :=
  {| fs_Namespace := ""; fs_Name := ""; fs_UID := ""; fs_Labels := ∅; fs_Dst := ""; fs_Port := 0; fs_Domain := ""; fs_Method := ""; fs_Path := "" |}.

Definition toFlow (s : flowSpec) : Flow :=
  {| f_Pod := {| Namespace := fs_Namespace s; Name := fs_Name s; pi_UID := fs_UID s; Container := ""; pi_QoS := ""; Node := ""; Labels := ∅ |};
     f_Labels := fs_Labels s; DstIP := if bool_decide (fs_Dst s ≠ "") then ParseIP (fs_Dst s) else [];
     Port := fs_Port s; Domain := fs_Domain s; Method := fs_Method s; Path := fs_Path s |}.

Definition describe (s : flowSpec) : string :=
  TrimSpace
    ((if bool_decide (fs_Namespace s ≠ "") || bool_decide (fs_Name s ≠ "") then "pod=" +:+ fs_Namespace s +:+ "/" +:+ fs_Name s +:+ " " else "") +:+
     (if bool_decide (fs_Domain s ≠ "") then "domain=" +:+ fs_Domain s +:+ " " else "") +:+
     (if bool_decide (fs_Dst s ≠ "") then "dst=" +:+ fs_Dst s +:+ " " else "") +:+
     (if bool_decide (fs_Port s ≠ 0%Z) then "port=" +:+ pretty (fs_Port s) +:+ " " else "") +:+
     (if bool_decide (fs_Method s ≠ "") || bool_decide (fs_Path s ≠ "") then fs_Method s +:+ " " +:+ fs_Path s +:+ " " else "")).

(** [strconv.ParseUint(v, 10, 16)]. *)
Definition add_digit (acc : option Z) (c : ascii) : option Z := a ← acc; d ← digit_val c; Some (a * 10 + d)%Z.
Definition ParseUint16 (v : string) : option Z :=
  match chars v with
  | [] => None
  | l => n ← foldl add_digit (Some 0%Z) l; if bool_decide (n ≤ 65535)%Z then Some n else None
  end.

Inductive cli_error := BadToken (tok : string) | BadPort (v : string) | UnknownKey (k : string) | BadJSON (line : string) | TokenTooLong | NoFlows.
Definition set_field (sp : flowSpec) (k v : string) : go cli_error flowSpec :=
  let '{| fs_Namespace := ns; fs_Name := nm; fs_UID := u; fs_Labels := ls; fs_Dst := d; fs_Port := p; fs_Domain := dom; fs_Method := me; fs_Path := pa |} := sp in
  let mk ns nm u ls d p dom me pa :=
    Ok {| fs_Namespace := ns; fs_Name := nm; fs_UID := u; fs_Labels := ls; fs_Dst := d; fs_Port := p; fs_Domain := dom; fs_Method := me; fs_Path := pa |} in
  if bool_decide (k = "pod") then
    match Cut "/"%char v with
    | Some (ns', nm') => mk ns' nm' u ls d p dom me pa
    | None => mk ns v u ls d p dom me pa
    end
  else if bool_decide (k = "namespace") || bool_decide (k = "ns") then mk v nm u ls d p dom me pa
  else if bool_decide (k = "name") then mk ns v u ls d p dom me pa
  else if bool_decide (k = "uid") then mk ns nm v ls d p dom me pa
  else if bool_decide (k = "dst") || bool_decide (k = "ip") then mk ns nm u ls v p dom me pa
  else if bool_decide (k = "port") then
    match ParseUint16 v with
    | None => Err (BadPort v)
    | Some n => mk ns nm u ls d n dom me pa
    end
  else if bool_decide (k = "domain") || bool_decide (k = "host") || bool_decide (k = "sni") then mk ns nm u ls d p v me pa
  else if bool_decide (k = "method") then mk ns nm u ls d p dom v pa
  else if bool_decide (k = "path") then mk ns nm u ls d p dom me v
  else if HasPrefix k "label." then mk ns nm u (<[TrimPrefix k "label." := v]> ls) d p dom me pa
  else Err (UnknownKey k).
Definition parse_token (sp : flowSpec) (tok : string) : go cli_error flowSpec :=
  match Cut "="%char tok with
  | None => Err (BadToken tok)
  | Some (k, v) => set_field sp k v
  end.
Definition parseFlowSpec (s : string) : go cli_error flowSpec :=
  foldl (λ r tok, sp ← r; parse_token sp tok) (Ok flowSpec_zero) (Fields s).

(** ** Collecting the flows *)
Definition maxStdinLine : Z := 1048576.
(** The scanner's lines and whether it stopped on an oversized one. *)
Fixpoint stdin_lines (ws : list (list ascii)) : list string * bool :=
  match ws with
  | [] | [[]] => ([], false)
  | w :: ws => if (Z.of_nat (length w) <? maxStdinLine)%Z
               then let '(ls, long) := stdin_lines ws in (of_chars (dropCR w) :: ls, long) else ([], true)
  end.
Section cli.
Context `{UnicodeCase} (json_flow : string → option flowSpec) (Unmarshal : bytes → option Policy).
Fixpoint json_specs (lines : list string) : go cli_error (list flowSpec) :=
  match lines with
  | [] => Ok []
  | l :: lines =>
      let line := TrimSpace l in
      if bool_decide (line = "") then json_specs lines
      else match json_flow line with
           | None => Err (BadJSON line)
           | Some sp => sps ← json_specs lines; Ok (sp :: sps)
           end
  end.
Fixpoint flow_specs (flows : list string) : go cli_error (list flowSpec) :=
  match flows with
  | [] => Ok []
  | f :: flows => sp ← parseFlowSpec f; sps ← flow_specs flows; Ok (sp :: sps)
  end.
(** [stdin]: [None] is an interactive terminal. *)
Definition collectSpecs (flows : list string) (stdin : option string) : go cli_error (list flowSpec) :=
  match flows with
  | _ :: _ => flow_specs flows
  | [] =>
      match stdin with
      | None => Err NoFlows
      | Some input =>
          let '(ls, long) := stdin_lines (split_chars LF (chars input)) in
          sps ← json_specs ls;
          if long then Err TokenTooLong else if bool_decide (sps = []) then Err NoFlows else Ok sps
      end
  end.

(** ** Arguments *)
(** The two flags, neither boolean. *)
Record flags := { fl_policy : string; fl_flows : list string }.
Definition set_flag (name value : string) (f : flags) : option flags :=
  if bool_decide (name = "policy") then Some {| fl_policy := value; fl_flows := fl_flows f |}
  else if bool_decide (name = "flow") then Some {| fl_policy := fl_policy f; fl_flows := fl_flows f ++ [value] |}
  else None.
Definition policytest_flags : FlagSet flags :=
  {| fs_bool name := if bool_decide (name ∈ ["policy"; "flow"]) then Some false else None; fs_set := set_flag |}.
(** With [ContinueOnError] every error, the help request included, is [None]. *)
Definition parse_flags (f : flags) (args : list string) : option flags :=
  match Parse policytest_flags args f with Ok (f, _) => Some f | _ => None end.

(** ** The command *)
(** A row of the table: action, rule column, description. *)
Definition row : Type := string * string * string.
Definition verdict_row (eng : engine) (sp : flowSpec) : row :=
  let v := Evaluate eng (toFlow sp) in
  (v_Action v, if bool_decide (v_Rule v = "") then "(default)" else v_Rule v, describe sp).
(** The exit code and the rows printed. *)
Definition policyTest (env_policy : string) (ReadFile : string → option bytes) (stdin : option string) (args : list string) : Z * list row :=
  match parse_flags {| fl_policy := env_policy; fl_flows := [] |} args with
  | None => (2%Z, [])
  | Some f =>
      if bool_decide (fl_policy f = "") then (2%Z, [])
      else match loadPolicyFile Unmarshal (ReadFile (fl_policy f)) with
           | Ok p =>
               match NewEngine (Some p) with
               | Ok eng =>
                   match collectSpecs (fl_flows f) stdin with
                   | Ok specs => (0%Z, verdict_row eng <$> specs)
                   | _ => (2%Z, [])
                   end
               | _ => (1%Z, [])
               end
           | _ => (1%Z, [])
           end
  end.
Definition PolicyMain (env_policy : string) (ReadFile : string → option bytes) (stdin : option string) (args : list string) : Z * list row :=
  match args with
  | [] => (2%Z, [])
  | a :: args =>
      if bool_decide (a = "test") then policyTest env_policy ReadFile stdin args
      else if bool_decide (a ∈ ["-h"; "--help"; "help"]) then (0%Z, [])
      else (2%Z, [])
  end.
End cli.

(** ** Tokens *)
(** A character that starts no white-space rune. *)
Definition plain (c : ascii) : Prop := Forall (λ p, head p ≠ Some c) space_chars.
Definition plain_str (s : string) : Prop := Forall plain (chars s).

Lemma space_width_plain c l : plain c → space_width space_chars (c :: l) = 0.
Proof.
  intros Hc. unfold space_width. rewrite (proj2 (list_find_None _ _)); [done|].
  assert (Forall (λ p, p ≠ []) space_chars) as Hne by (apply (bool_decide_unpack _); by vm_compute).
  eapply Forall_impl; [apply Forall_and; split; [exact Hc|exact Hne]|]. cbn beta. intros p [Hp Hn] Hpre. apply Hp.
  unfold prefix_of_list in Hpre. apply bool_decide_eq_true in Hpre. destruct p as [|a p]; [done|]. simpl in Hpre. by simplify_eq.
Qed.
Lemma fields_run w fuel cur rest :
  Forall plain w → length w ≤ fuel →
  fields_chars fuel cur (w ++ rest) = fields_chars (fuel - length w) (reverse w ++ cur) rest.
Proof.
  revert fuel cur. induction w as [|c w IH]; intros [|fuel] cur Hw Hl; simpl in Hl; try lia; [done|by rewrite Nat.sub_0_r|].
  apply Forall_cons in Hw as [Hc Hw]. cbn [app length Nat.sub]. cbn [fields_chars]. rewrite space_width_plain by done.
  rewrite IH by (done || lia). by rewrite reverse_cons, <-(assoc_L (++)).
Qed.
(** Tokens, each followed by a space. *)
Definition put_tokens (ts : list string) : string := foldr (λ t s, t +:+ String " " s) "" ts.
Lemma fields_put ts fuel :
  Forall (λ t, plain_str t ∧ t ≠ "") ts → length (chars (put_tokens ts)) ≤ fuel →
  of_chars <$> fields_chars fuel [] (chars (put_tokens ts)) = ts.
Proof.
  revert fuel. induction ts as [|t ts IH]; intros fuel Hts Hl; [by destruct fuel|].
  apply Forall_cons in Hts as [[Hp Hne] Hts]. change (put_tokens (t :: ts)) with (t +:+ String " " (put_tokens ts)) in *.
  rewrite chars_app, chars_String, length_app, length_cons in Hl. rewrite chars_app, chars_String, fields_run by (done || lia).
  rewrite app_nil_r. destruct (fuel - length (chars t)) as [|fuel'] eqn:Ef; [lia|]. cbn [fields_chars].
  change (space_width space_chars (" "%char :: chars (put_tokens ts))) with 1. cbn [drop].
  assert (chars t ≠ []) as Hct by (intros E; apply Hne, chars_inj; done).
  assert (reverse (chars t) ≠ []) as Hrt by (intros E; apply Hct; rewrite <-(reverse_involutive (chars t)), E; done).
  rewrite fmap_app, IH by (done || lia). destruct (reverse (chars t)) as [|c l] eqn:Er; [done|].
  cbn [fmap list_fmap app]. rewrite <-Er, reverse_involutive, of_chars_chars. done.
Qed.
Lemma Fields_put ts : Forall (λ t, plain_str t ∧ t ≠ "") ts → Fields (put_tokens ts) = ts.
Proof. intros. by apply fields_put. Qed.

(** ** Ports *)
Lemma add_digit_pretty x s :
  (0 < x)%N → foldl add_digit (Some 0%Z) (chars (pretty_N_go x s)) = foldl add_digit (Some (Z.of_N x)) (chars s).
Proof.
  revert s. induction (N.lt_wf_0 x) as [x _ IH]; intros s Hx. rewrite pretty_N_go_step by lia.
  assert (∀ a, add_digit (Some a) (pretty_N_char (x `mod` 10)) = Some (a * 10 + Z.of_N (x `mod` 10))%Z) as Hd.
  { intros a. unfold add_digit. cbn [mbind option_bind].
    assert (x `mod` 10 < 10)%N as Hm by (apply N.mod_lt; lia). revert Hm. generalize (x `mod` 10)%N. intros m Hm.
    assert (m = 0 ∨ m = 1 ∨ m = 2 ∨ m = 3 ∨ m = 4 ∨ m = 5 ∨ m = 6 ∨ m = 7 ∨ m = 8 ∨ m = 9)%N as Hc by lia.
    by destruct_or! Hc; subst m. }
  pose proof (N.div_mod x 10 ltac:(lia)) as Hdm.
  destruct (decide (x `div` 10 = 0)%N) as [Hz|Hz].
  - rewrite Hz, pretty_N_go_0, chars_String. cbn [foldl]. rewrite Hd. do 2 f_equal. lia.
  - rewrite IH; [|by apply N.div_lt; lia|by apply N.neq_0_lt_0]. rewrite chars_String. cbn [foldl]. rewrite Hd. do 2 f_equal. lia.
Qed.
Lemma ParseUint16_pretty z : (0 ≤ z ≤ 65535)%Z → ParseUint16 (pretty z) = Some z.
Proof.
  intros Hz. unfold ParseUint16. destruct (decide (z = 0%Z)) as [->|Hne]; [by vm_compute|].
  assert (pretty z = pretty_N_go (Z.to_N z) "") as ->.
  { destruct z as [|p|p]; [lia| |lia]. done. }
  pose proof (add_digit_pretty (Z.to_N z) "" ltac:(lia)) as Hf.
  destruct (chars (pretty_N_go (Z.to_N z) "")) as [|c l]; [simpl in Hf; injection Hf; lia|].
  rewrite Hf. cbn [chars foldl mbind option_bind String.list_ascii_of_string]. rewrite Z2N.id by lia. by rewrite bool_decide_true by lia.
Qed.

(** ** Rendering a flow specification *)
Definition token (k v : string) : string := k +:+ String "=" v.
Definition label_token (kv : string * string) : string := token ("label." +:+ kv.1) kv.2.
Definition spec_tokens (sp : flowSpec) : list string :=
  [token "namespace" (fs_Namespace sp); token "name" (fs_Name sp); token "uid" (fs_UID sp); token "dst" (fs_Dst sp);
   token "port" (pretty (fs_Port sp)); token "domain" (fs_Domain sp); token "method" (fs_Method sp); token "path" (fs_Path sp)] ++
  (label_token <$> reverse (map_to_list (fs_Labels sp))).
Definition spec_ok (sp : flowSpec) : Prop :=
  Forall plain_str [fs_Namespace sp; fs_Name sp; fs_UID sp; fs_Dst sp; fs_Domain sp; fs_Method sp; fs_Path sp] ∧
  map_Forall (λ k v, plain_str k ∧ plain_str v ∧ "="%char ∉ chars k) (fs_Labels sp) ∧ (0 ≤ fs_Port sp ≤ 65535)%Z.
#[export] Instance plain_dec c : Decision (plain c).
Proof. unfold plain. apply _. Defined.
#[export] Instance plain_str_dec s : Decision (plain_str s).
Proof. unfold plain_str. apply _. Defined.
#[export] Instance spec_ok_dec sp : Decision (spec_ok sp).
Proof. unfold spec_ok. apply _. Defined.

Lemma plain_str_app s t : plain_str s → plain_str t → plain_str (s +:+ t).
Proof. unfold plain_str. rewrite chars_app, Forall_app. done. Qed.
Lemma plain_pretty z : (0 ≤ z ≤ 65535)%Z → plain_str (pretty z).
Proof.
  intros Hz. assert (∀ c, is_Some (digit_val c) → plain c) as Hd.
  { assert (∀ c, digit_val c = None ∨ plain c) as Hc by (apply (ascii_check (λ c, digit_val c = None ∨ plain c)); by vm_compute).
    intros c Hs. destruct (Hc c) as [E|]; [|done]. rewrite E in Hs. by destruct Hs. }
  pose proof (ParseUint16_pretty z Hz) as Hp. unfold ParseUint16 in Hp. unfold plain_str.
  destruct (chars (pretty z)) as [|c0 l0]; [constructor|].
  assert (∀ l, foldl add_digit None l = None) as Hnone by (induction l; done).
  assert (∀ l a n, foldl add_digit (Some a) l = Some n → Forall plain l) as Hl.
  { induction l as [|c l IH]; intros a n Hf; [constructor|]. cbn [foldl] in Hf. unfold add_digit in Hf at 2. cbn [mbind option_bind] in Hf.
    destruct (digit_val c) as [d|] eqn:Ed; cbn [mbind option_bind] in Hf; [|by rewrite Hnone in Hf].
    constructor; [by apply Hd|by eapply IH]. }
  destruct (foldl add_digit (Some 0%Z) (c0 :: l0)) as [n|] eqn:E; [|done]. by eapply Hl.
Qed.
Lemma plain_lit s : bool_decide (plain_str s) = true → plain_str s.
Proof. apply bool_decide_eq_true. Qed.

Lemma plain_token k v : plain_str k → plain_str v → plain_str (token k v) ∧ token k v ≠ "".
Proof.
  intros Hk Hv. split; [|by destruct k]. apply plain_str_app; [done|].
  change (String "=" v) with ("=" +:+ v). apply plain_str_app; [by apply plain_lit; vm_compute|done].
Qed.
Lemma spec_tokens_plain sp : spec_ok sp → Forall (λ t, plain_str t ∧ t ≠ "") (spec_tokens sp).
Proof.
  intros (Hf & Hl & Hp). unfold spec_tokens. rewrite Forall_app. split.
  - repeat (apply Forall_cons in Hf as [? Hf]). pose proof (plain_pretty _ Hp).
    repeat (apply Forall_cons; split; [apply plain_token; [by apply plain_lit; vm_compute|done]|]). constructor.
  - apply Forall_fmap, Forall_reverse, Forall_forall. intros [k v] Hkv%elem_of_map_to_list. cbn beta.
    destruct (Hl k v Hkv) as (Hk & Hv & _). apply plain_token; [|done]. apply plain_str_app; [by apply plain_lit; vm_compute|done].
Qed.

Lemma parse_token_eq sp k v : "="%char ∉ chars k → parse_token sp (token k v) = set_field sp k v.
Proof. intros. unfold parse_token, token. by rewrite Cut_app. Qed.
Definition with_labels (sp : flowSpec) (ls : gmap string string) : flowSpec :=
  {| fs_Namespace := fs_Namespace sp; fs_Name := fs_Name sp; fs_UID := fs_UID sp; fs_Labels := ls; fs_Dst := fs_Dst sp;
     fs_Port := fs_Port sp; fs_Domain := fs_Domain sp; fs_Method := fs_Method sp; fs_Path := fs_Path sp |}.
Lemma parse_label sp k v :
  "="%char ∉ chars k → parse_token sp (label_token (k, v)) = Ok (with_labels sp (<[k := v]> (fs_Labels sp))).
Proof.
  intros Hk. unfold label_token. cbn [fst snd]. rewrite parse_token_eq.
  2: { rewrite chars_app, not_elem_of_app. split; [|done]. apply (bool_decide_unpack _). by vm_compute. }
  destruct sp. unfold set_field. cbn zeta. rewrite !(bool_decide_false (_ +:+ k = _)) by done. cbn [orb].
  rewrite (proj2 (HasPrefix_spec _ _)) by (by exists k). by rewrite TrimPrefix_app.
Qed.
Lemma parse_labels l sp :
  Forall (λ kv, "="%char ∉ chars kv.1) l →
  foldl (λ r tok, sp ← r; parse_token sp tok) (Ok sp) (label_token <$> reverse l) =
    Ok (with_labels sp (foldr (λ kv, insert kv.1 kv.2) (fs_Labels sp) l)).
Proof.
  induction 1 as [|[k v] l Hk _ IH]; [by destruct sp|]. rewrite reverse_cons, fmap_app, foldl_app, IH.
  cbn [fmap list_fmap foldl mbind go_bind foldr fst snd]. by rewrite parse_label.
Qed.

Ltac next_field E := rewrite parse_token_eq, E by (apply (bool_decide_unpack _); by vm_compute); cbn [mbind go_bind].
(** The fields filled in one after the other. *)
Lemma set_field_keys ns nm u d p dom me pa :
  (0 ≤ p ≤ 65535)%Z →
  let spec := Build_flowSpec in
  set_field (spec "" "" "" ∅ "" 0%Z "" "" "") "namespace" ns = Ok (spec ns "" "" ∅ "" 0%Z "" "" "") ∧
  set_field (spec ns "" "" ∅ "" 0%Z "" "" "") "name" nm = Ok (spec ns nm "" ∅ "" 0%Z "" "" "") ∧
  set_field (spec ns nm "" ∅ "" 0%Z "" "" "") "uid" u = Ok (spec ns nm u ∅ "" 0%Z "" "" "") ∧
  set_field (spec ns nm u ∅ "" 0%Z "" "" "") "dst" d = Ok (spec ns nm u ∅ d 0%Z "" "" "") ∧
  set_field (spec ns nm u ∅ d 0%Z "" "" "") "port" (pretty p) = Ok (spec ns nm u ∅ d p "" "" "") ∧
  set_field (spec ns nm u ∅ d p "" "" "") "domain" dom = Ok (spec ns nm u ∅ d p dom "" "") ∧
  set_field (spec ns nm u ∅ d p dom "" "") "method" me = Ok (spec ns nm u ∅ d p dom me "") ∧
  set_field (spec ns nm u ∅ d p dom me "") "path" pa = Ok (spec ns nm u ∅ d p dom me pa).
Proof.
  intros Hp. cbn zeta. split_and!; try reflexivity.
  unfold set_field. rewrite ParseUint16_pretty by done. reflexivity.
Qed.

(** A flow specification reads back as written: for every specification whose
    values contain no white space, whose label keys contain no equals sign and
    whose port is a [uint16], parsing its rendering gives the same specification,
    labels included. *)
Theorem parseFlowSpec_roundtrip sp : spec_ok sp → parseFlowSpec (put_tokens (spec_tokens sp)) = Ok sp.
Proof.
  intros Hok. unfold parseFlowSpec. rewrite Fields_put by (by apply spec_tokens_plain).
  destruct Hok as (_ & Hl & Hp). unfold spec_tokens. rewrite foldl_app. cbn [foldl mbind go_bind].
  assert (foldl (λ r tok, sp ← r; parse_token sp tok) (Ok flowSpec_zero)
    [token "namespace" (fs_Namespace sp); token "name" (fs_Name sp); token "uid" (fs_UID sp); token "dst" (fs_Dst sp);
     token "port" (pretty (fs_Port sp)); token "domain" (fs_Domain sp); token "method" (fs_Method sp); token "path" (fs_Path sp)] =
    Ok (with_labels sp ∅)) as Hb.
  { unfold flowSpec_zero. cbn [foldl mbind go_bind].
    destruct (set_field_keys (fs_Namespace sp) (fs_Name sp) (fs_UID sp) (fs_Dst sp) (fs_Port sp) (fs_Domain sp) (fs_Method sp) (fs_Path sp) Hp)
      as (E1 & E2 & E3 & E4 & E5 & E6 & E7 & E8).
    next_field E1. next_field E2. next_field E3. next_field E4. next_field E5. next_field E6. next_field E7.
    by next_field E8. }
  cbn [foldl mbind go_bind] in Hb. rewrite Hb, parse_labels.
  - unfold with_labels. cbn. do 2 f_equal. destruct sp. cbn. f_equal. apply (list_to_map_to_list fs_Labels0).
  - apply Forall_forall. intros [k v] Hkv%elem_of_map_to_list. apply (Hl k v Hkv).
Qed.

(** ** The flow of an event *)
(** The event carries what the specification says: its pod has the namespace, name, UID
    and labels given (whatever its container, QoS class and node), its destination is the
    same address, its port, domain, method and path are those given. *)
Definition carries (sp : flowSpec) (e : Event) : Prop :=
  Namespace (ev_Pod e) = fs_Namespace sp ∧ Name (ev_Pod e) = fs_Name sp ∧ pi_UID (ev_Pod e) = fs_UID sp ∧ Labels (ev_Pod e) = fs_Labels sp ∧
  ParseIP (Dst e) = ParseIP (fs_Dst sp) ∧ ev_Port e = fs_Port sp ∧ (0 ≤ ev_Port e < 65536)%Z ∧
  ev_Domain e = fs_Domain sp ∧ ev_Method e = fs_Method sp ∧ ev_Path e = fs_Path sp.
(** A verdict depends on no other field of the pod. *)
Definition same_flow (f g : Flow) : Prop :=
  Namespace (f_Pod f) = Namespace (f_Pod g) ∧ Name (f_Pod f) = Name (f_Pod g) ∧ pi_UID (f_Pod f) = pi_UID (f_Pod g) ∧ f_Labels f = f_Labels g ∧
  DstIP f = DstIP g ∧ Port f = Port g ∧ Domain f = Domain g ∧ Method f = Method g ∧ Path f = Path g.
Lemma Evaluate_same_flow `{UnicodeCase} eng f g : same_flow f g → Evaluate eng f = Evaluate eng g.
Proof.
  intros (H1 & H2 & H3 & H4 & H5 & H6 & H7 & H8 & H9). unfold Evaluate.
  assert (∀ r, matches r f = matches r g) as Hm.
  { intros r. unfold matches, PodSelector_matches. by rewrite H1, H2, H3, H4, H5, H6, H7, H8, H9. }
  rewrite (first_ext _ (λ r, if matches r g then Some {| v_Action := c_action r; v_Rule := c_name r; v_Mutations := c_muts r |} else None)); [done|].
  intros r _. by rewrite Hm.
Qed.
Lemma parse_nonempty d : (if bool_decide (d ≠ "") then ParseIP d else []) = ParseIP d.
Proof. case_bool_decide as Hd; [done|]. assert (d = "") as -> by (by destruct (decide (d = ""))). by vm_compute. Qed.
Lemma carries_same sp e : carries sp e → same_flow (flowFromEvent e) (toFlow sp).
Proof.
  intros (H1 & H2 & H3 & H4 & H5 & H6 & H7 & H8 & H9 & H10). unfold same_flow, flowFromEvent, toFlow.
  cbn [f_Pod f_Labels DstIP Port Domain Method Path Namespace Name pi_UID]. rewrite !parse_nonempty. split_and!; try done.
  rewrite <-H6. unfold wrap. by apply Z.mod_small.
Qed.

(** C40: the test command predicts what log mode shows: when it exits with 0, the
    policy file loaded and compiled, every flow specification was understood, and
    for each one the printed action is the one the agent's annotating sink, with
    the same policy, puts on any connection-level event without an action of its own
    that carries what was specified (the pod's namespace, name, UID and labels, the
    destination address, port, domain, method and path; whatever the pod's container,
    QoS class and node), the rule column naming the event's rule. *)
Theorem policy_test_predicts `{UnicodeCase} json_flow Unmarshal env_policy ReadFile stdin args code rows :
  policyTest json_flow Unmarshal env_policy ReadFile stdin args = (code, rows) → code = 0%Z →
  ∃ f p eng specs,
    parse_flags {| fl_policy := env_policy; fl_flows := [] |} args = Some f ∧
    loadPolicyFile Unmarshal (ReadFile (fl_policy f)) = Ok p ∧ NewEngine (Some p) = Ok eng ∧
    collectSpecs json_flow (fl_flows f) stdin = Ok specs ∧
    Forall2 (λ sp r, r.2 = describe sp ∧
      ∀ e, Kind e ∈ ["connect"; "tls"; "http"; "https"] → Action e = "" → carries sp e →
        let e' := (sink_Emit eng e).1 in
        r.1.1 = Action e' ∧ r.1.2 = if bool_decide (ev_Rule e' = "") then "(default)" else ev_Rule e') specs rows.
Proof.
  unfold policyTest. intros Ht ->. destruct (parse_flags _ args) as [f|]; [|done]. revert Ht. case_bool_decide; [done|].
  destruct (loadPolicyFile Unmarshal (ReadFile (fl_policy f))) as [p| | |] eqn:Ep; try done.
  destruct (NewEngine (Some p)) as [eng| | |] eqn:Ee; try done.
  destruct (collectSpecs json_flow (fl_flows f) stdin) as [specs| | |] eqn:Es; try done.
  intros [= <-]. exists f, p, eng, specs. split_and!; [done..|]. apply Forall2_fmap_r, Forall_Forall2_diag, Forall_forall.
  intros sp _. unfold verdict_row. cbn [fst snd]. split; [done|]. intros e Hk Ha Hf%carries_same%(Evaluate_same_flow eng).
  assert (connection_level (Kind e) = true) as Hc by (by apply bool_decide_eq_true).
  unfold sink_Emit. rewrite Hc, Hf, (bool_decide_true (Action e = "")) by done. done.
Qed.
(** A policy that loads always compiles: exit code 1 means the file is bad. *)
Lemma policyTest_engine_total `{UnicodeCase} Unmarshal data p : loadPolicyFile Unmarshal data = Ok p → ∃ e, NewEngine (Some p) = Ok e.
Proof. intros Hp. by eapply NewEngine_valid, loadPolicyFile_valid. Qed.

Definition ex_args : list string := ["--flow"; "pod=b/w dst=203.0.113.9 port=443"; "-policy=p.yaml"; "-flow=domain=x.y"; "--"; "ignored"].
Definition ex_test : Z * list row :=
  policyTest (H := ascii_case) (λ _, None) toy_yaml "" (λ _, Some [x02]) None ex_args.
Example ex_test_rows : ex_test = (0%Z, [("Deny", "r", "pod=b/w dst=203.0.113.9 port=443"); ("Allow", "(default)", "domain=x.y")]).
Proof. by vm_compute. Qed.
(** A rule on pods labelled app=web and port 443; a connect of such a pod. *)
Definition ex_web_policy : Policy :=
  {| p_PodSelector := None; DefaultAction := PostureAllow;
     Rules := [ex_rule "web" {| m_Pod := {| ps_Namespace := ""; ps_Name := ""; ps_UID := ""; ps_Labels := {["app" := "web"]}; ps_MatchExpressions := [] |};
                               Domains := []; CIDRs := ["203.0.113.0/24"]; Ports := [443%Z]; Methods := []; PathPrefix := "" |} ActionDeny] |}.
Definition ex_web_args : list string := ["--flow"; "namespace=b name=w-0 label.app=web dst=203.0.113.9 port=443"; "-policy=p.yaml"].
Definition ex_web_event : Event :=
  {| Kind := "connect"; Src := "10.0.0.5"; Dst := "203.0.113.9"; ev_Port := 443; ev_Domain := ""; DNSType := ""; ev_Method := ""; ev_Path := "";
     ev_Headers := []; PID := 0; Comm := "";
     ev_Pod := {| Namespace := "b"; Name := "w-0"; pi_UID := ""; Container := "c"; pi_QoS := "burstable"; Node := "n"; Labels := {["app" := "web"]} |};
     Action := ""; ev_Rule := "" |}.
Lemma policy_test_predicts_witness : ∃ eng,
  NewEngine (H := ascii_case) (Some ex_web_policy) = Ok eng ∧
  (policyTest (H := ascii_case) (λ _, None) (λ _, Some ex_web_policy) "" (λ _, Some []) None ex_web_args).2 =
    [("Deny", "web", "pod=b/w-0 dst=203.0.113.9 port=443")] ∧
  Action (sink_Emit (H := ascii_case) eng ex_web_event).1 = "Deny" ∧ ev_Rule (sink_Emit (H := ascii_case) eng ex_web_event).1 = "web".
Proof.
  destruct (policy_test_predicts (H := ascii_case) (λ _, None) (λ _, Some ex_web_policy) "" (λ _, Some []) None ex_web_args
    0 [("Deny", "web", "pod=b/w-0 dst=203.0.113.9 port=443")]) as (f & p & eng & specs & Hf & Hp & He & Hs & HF).
  1: by vm_compute.
  1: done.
  assert (f = {| fl_policy := "p.yaml"; fl_flows := ["namespace=b name=w-0 label.app=web dst=203.0.113.9 port=443"] |}) as ->.
  { vm_compute in Hf. by injection Hf as <-. }
  vm_compute in Hp. injection Hp as <-. exists eng. split; [exact He|]. split; [by vm_compute|].
  assert (specs = [{| fs_Namespace := "b"; fs_Name := "w-0"; fs_UID := ""; fs_Labels := {["app" := "web"]}; fs_Dst := "203.0.113.9"; fs_Port := 443;
    fs_Domain := ""; fs_Method := ""; fs_Path := "" |}]) as ->.
  { vm_compute in Hs. by injection Hs as <-. }
  apply Forall2_cons_1 in HF as [[_ Hev] _]. destruct (Hev ex_web_event) as [Ha Hr].
  - left.
  - done.
  - split_and!; try done; by vm_compute.
  - cbn [fst snd] in Ha, Hr. rewrite <-Ha. split; [done|]. revert Hr. case_bool_decide; [done|]. by intros <-.
Defined.
Lemma ex_spec_roundtrip :
  let sp := {| fs_Namespace := "b"; fs_Name := ""; fs_UID := "u"; fs_Labels := {["app" := "web=1"]}; fs_Dst := "::1"; fs_Port := 65535;
               fs_Domain := "a.b"; fs_Method := "GET"; fs_Path := "/x" |} in
  parseFlowSpec (put_tokens (spec_tokens sp)) = Ok sp.
Proof. apply parseFlowSpec_roundtrip, (bool_decide_unpack _). by vm_compute. Qed.
