(* ===== verification/Agent.v ===== *)
(** * The agent ([main.go])

    [policySource] and [setupEnforcement]: which sink the events go through and
    whether the kernel datapath is programmed.  The CRD source is available or not
    ([rest.InClusterConfig] and [crdsource.New]); the policy file is what the disk
    holds; [log.Fatalf] is an error.  Then [main] itself: the ways it exits before
    the monitors start, what it opens and starts, and the wait for its two
    workers as a transition system. *)

From S2P Require Import Prelude GoStrings GoFlag GoNet Lifecycle Attr Policy Engine Aggregate Config L7 Output PolicySource Crd DnsLearn EgressMon SslSnoop Cli Runs.

Inductive policy_source :=
  | CrdSource (s : source_state)
  | FileSource (fs : fileSource)
  | EmptySource.
Definition source_Snapshot (s : policy_source) : Policy :=
  match s with CrdSource s => src_cur s | FileSource fs => Snapshot fs | EmptySource => emptySource_Snapshot end.
Inductive startup_error := FatalPolicy (e : load_error) | FatalEngine (e : engine_error) | FatalMode (mode : string).
(** Where events go: the plain sink, or the one that annotates with an engine. *)
Inductive sink_kind := Plain | Annotating (eng : engine).

Section startup.
Context `{UnicodeCase} (Unmarshal : bytes → option Policy) (crd : option source_state) (data : option bytes) (stat : option Z).

Definition file_or_empty (cfg : Config) : go startup_error policy_source :=
  if bool_decide (PolicyPath (Enforce cfg) = "") then Ok EmptySource
  else match NewFileSource Unmarshal (PolicyPath (Enforce cfg)) data stat with
       | Ok fs => Ok (FileSource fs)
       | Err e => Err (FatalPolicy e)
       | Panic => Panic
       | OutOfFuel => OutOfFuel
       end.
Definition policySource (cfg : Config) : go startup_error policy_source :=
  if bool_decide (Source (Enforce cfg) = "crd") then
    match crd with
    | Some s => Ok (CrdSource s)
    | None => file_or_empty cfg
    end
  else file_or_empty cfg.
(** The sink and, in enforce mode only, the source that programs the datapath. *)
Definition setupEnforcement (cfg : Config) : go startup_error (sink_kind * option policy_source) :=
  let mode := Mode (Enforce cfg) in
  if bool_decide (mode = "") || bool_decide (mode = "off") then Ok (Plain, None)
  else if bool_decide (mode ≠ "log") && bool_decide (mode ≠ "enforce") then Err (FatalMode mode)
  else
    src ← policySource cfg;
    match NewEngine (Some (source_Snapshot src)) with
    | Ok eng => Ok (Annotating eng, if bool_decide (mode = "enforce") then Some src else None)
    | Err e => Err (FatalEngine e)
    | Panic => Panic
    | OutOfFuel => OutOfFuel
    end.

(** ** Theorems *)
Lemma NewFileSource_cases path :
  path ≠ "" →
  (∃ fs, NewFileSource Unmarshal path data stat = Ok fs ∧ loadPolicyFile Unmarshal data = Ok (cur fs)) ∨
  (∃ e, NewFileSource Unmarshal path data stat = Err e ∧ loadPolicyFile Unmarshal data = Err e).
Proof.
  intros Hp. unfold NewFileSource. rewrite bool_decide_false by done. unfold loadPolicyFile.
  destruct data as [d|]; [|right; by eexists]. destruct (Unmarshal d) as [p|]; [|right; by eexists].
  destruct (Validate (Some p)); [right; by eexists|]. left. by eexists.
Qed.
Lemma policySource_cases cfg :
  from_option source_ok True crd →
  (∃ src, policySource cfg = Ok src ∧ ∃ e, NewEngine (Some (source_Snapshot src)) = Ok e) ∨
  (∃ e, policySource cfg = Err (FatalPolicy e) ∧ (Source (Enforce cfg) = "crd" → crd = None) ∧
        PolicyPath (Enforce cfg) ≠ "" ∧ loadPolicyFile Unmarshal data = Err e).
Proof.
  intros Hcrd.
  assert (policySource cfg = file_or_empty cfg ∧ (Source (Enforce cfg) = "crd" → crd = None) ∨
          ∃ s, policySource cfg = Ok (CrdSource s) ∧ source_ok s) as [[-> Hs]|(s & -> & Hs)].
  { unfold policySource. case_bool_decide; [|by left]. destruct crd as [s|]; [right; eauto|by left]. }
  - unfold file_or_empty. case_bool_decide.
    { left. eexists. split; [done|]. apply NewEngine_valid, Validate_None. by vm_compute. }
    destruct (NewFileSource_cases (PolicyPath (Enforce cfg))) as [(fs & -> & Hl)|(e & -> & Hl)]; [done|left|right; eauto 10].
    eexists. split; [done|]. apply NewEngine_valid. by eapply loadPolicyFile_valid.
  - left. eexists. split; [done|]. apply NewEngine_valid, Hs.
Qed.

(** Start-up is loud about misconfiguration and quiet otherwise: the agent
    refuses to start exactly on an unknown mode, or when a mode is on, the CRD
    source is not in use and the named policy file does not load; it never fails
    on an engine; events are annotated with the engine of the source's snapshot in
    log and enforce mode; and the kernel is programmed only in enforce mode. *)
Theorem startup_spec cfg :
  from_option source_ok True crd →
  let mode := Mode (Enforce cfg) in
  match setupEnforcement cfg with
  | Ok (Plain, src) => (mode = "" ∨ mode = "off") ∧ src = None
  | Ok (Annotating eng, src) =>
      (mode = "log" ∧ src = None ∨ mode = "enforce" ∧ is_Some src) ∧
      ∃ s, policySource cfg = Ok s ∧ NewEngine (Some (source_Snapshot s)) = Ok eng ∧ from_option (λ s', s' = s) True src
  | Err (FatalMode m) => m = mode ∧ mode ∉ [""; "off"; "log"; "enforce"]
  | Err (FatalPolicy e) =>
      mode ∈ ["log"; "enforce"] ∧ (Source (Enforce cfg) = "crd" → crd = None) ∧
      PolicyPath (Enforce cfg) ≠ "" ∧ loadPolicyFile Unmarshal data = Err e
  | _ => False
  end.
Proof.
  intros Hcrd. cbn zeta. unfold setupEnforcement. generalize (Mode (Enforce cfg)). intros mode.
  destruct (decide (mode = "")) as [->|H1]; [simpl; auto|]. destruct (decide (mode = "off")) as [->|H2]; [simpl; auto|].
  rewrite (bool_decide_false (mode = "")), (bool_decide_false (mode = "off")) by done. cbn [orb].
  destruct (decide (mode = "log" ∨ mode = "enforce")) as [Hon|Hoff].
  2: { rewrite !bool_decide_true by naive_solver. split; [done|set_solver]. }
  replace (bool_decide (mode ≠ "log") && bool_decide (mode ≠ "enforce")) with false by (by destruct Hon as [-> | ->]).
  destruct (policySource_cases cfg Hcrd) as [(src & -> & eng & He)|(e & -> & Hs)]; cbn [mbind go_bind].
  - rewrite He. split; [|by exists src; destruct (bool_decide (mode = "enforce"))].
    destruct Hon as [-> | ->]; [left|right]; simpl; eauto.
  - split; [set_solver|done].
Qed.
End startup.

(** With nothing configured the agent only observes. *)
Example startup_default :
  setupEnforcement (H := ascii_case) (λ _, None) None None None (FromEnv (H := ascii_case) (λ _, "") Config.Default) = Ok (Plain, None).
Proof. by vm_compute. Qed.
Definition ex_env (k : string) : string :=
  if bool_decide (k = "EBFW_ENFORCE_MODE") then " Enforce" else if bool_decide (k = "EBFW_POLICY_SOURCE") then "crd"
  else if bool_decide (k = "EBFW_POLICY") then "p.yaml" else "".
Lemma startup_spec_witness :
  match setupEnforcement (H := ascii_case) toy_yaml (Some (crd_init [] [])) (Some [x00]) None (FromEnv (H := ascii_case) ex_env Config.Default) with
  | Ok (Annotating _, src) => is_Some src
  | _ => False
  end.
Proof.
  pose proof (startup_spec (H := ascii_case) toy_yaml (Some (crd_init [] [])) (Some [x00]) None (FromEnv (H := ascii_case) ex_env Config.Default)) as Hs.
  destruct (setupEnforcement _ _ _ _ _) as [[[|eng] src]|[e|e|e]| |] eqn:E.
  2: { destruct Hs as [[[Hm _]|[_ Hm]] _]; [by split; [apply Validate_None; vm_compute|apply map_Forall_empty]|by vm_compute in Hm|exact Hm]. }
  all: by vm_compute in E.
Defined.

(** ** The workers *)
(** [wg.Wait] over the HTTPS capture and the egress monitor, which share a context
    that a signal or the monitor's failure cancels. *)
Inductive worker := Idle | Alive | Ended (failed : bool).
#[export] Instance worker_eq_dec : EqDecision worker.
Proof. solve_decision. Defined.
Record workers := { cancelled : bool; ssl_worker : worker; monitor_worker : worker }.
Inductive worker_event := Signal | SslEnds (failed : bool) | MonitorEnds (failed : bool).
(** [Run] returns nil only after its reader was closed, which is what the
    cancelled context does; [None] is an event that cannot happen. *)
Definition may_end (failed : bool) (ws : workers) : bool := failed || cancelled ws.
Definition worker_step (ws : workers) (ev : worker_event) : option workers :=
  match ev with
  | Signal => Some {| cancelled := true; ssl_worker := ssl_worker ws; monitor_worker := monitor_worker ws |}
  | SslEnds failed =>
      if bool_decide (ssl_worker ws = Alive) && may_end failed ws
      then Some {| cancelled := cancelled ws; ssl_worker := Ended failed; monitor_worker := monitor_worker ws |} else None
  | MonitorEnds failed =>
      if bool_decide (monitor_worker ws = Alive) && may_end failed ws
      then Some {| cancelled := cancelled ws || failed; ssl_worker := ssl_worker ws; monitor_worker := Ended failed |} else None
  end.
Definition workers_start (paths : bool) : workers :=
  {| cancelled := false; ssl_worker := if paths then Alive else Idle; monitor_worker := Alive |}.
Definition workers_run (paths : bool) (evs : list worker_event) : option workers :=
  foldl (λ ws ev, ws ← ws; worker_step ws ev) (Some (workers_start paths)) evs.
Definition wait_done (ws : workers) : bool := bool_decide (ssl_worker ws ≠ Alive) && bool_decide (monitor_worker ws ≠ Alive).
Definition waited (paths : bool) (evs : list worker_event) : bool := from_option wait_done false (workers_run paths evs).

(** ** [main] *)
Inductive main_resource := ResolverOpen (cgroup : string) (enricher : option Enrichment.k8sEnricher) | SignalContext.
#[export] Instance main_resource_eq_dec : EqDecision main_resource.
Proof. solve_decision. Defined.
Inductive main_goroutine :=
  | MetricsServe (addr : string)
  | SslRun (cfg : Config) (f : Filter) (sink : sink_kind)
  | EgressRun (cfg : Config) (f : Filter) (sink : sink_kind) (src : option policy_source).
Definition main_flags (name value : string) (_ : string) : option string := if bool_decide (name = "config") then Some value else None.
Definition agent_flags : FlagSet string :=
  {| fs_bool name := if bool_decide (name = "config") then Some false else None; fs_set := main_flags |}.

Section main.
Context `{UnicodeCase} (policy_yaml : bytes → option Policy) (config_yaml : bytes → Config → option Config)
  (json_flow : string → option flowSpec) (getenv : string → string) (ReadFile : string → option bytes) (ModTime : string → option Z)
  (stdin : option string) (memlock_error : bool) (k8s : Enrichment.k8s_env) (api : Crds.api) (cl : list ClusterEgressPolicy)
  (ns : list EgressPolicy) (own : list crd_op) (script : list (option crd_op)).
(** The CRD source, for what the API server answers. *)
Definition crd_source : option source_state :=
  match Enrichment.in_cluster_error k8s with Some _ => None | None => Crds.New_source api cl ns own script end.
Definition main_code : Type → Type := scoped main_resource main_goroutine unit unit.
(** [log.Fatalf]. *)
Definition fatal {A} : main_code A := leave (Exit 1).
Definition or_fatal {E A} (r : go E A) : main_code A := match r with Ok a => mret a | Panic => leave Crash | _ => fatal end.
Definition configure (path : string) : go config_error (Config * Filter) :=
  cfg ← Load ReadFile config_yaml path;
  let cfg := FromEnv getenv cfg in
  f ← NewFilter cfg;
  Ok (cfg, f).
Definition setup (cfg : Config) : go startup_error (sink_kind * option policy_source) :=
  setupEnforcement policy_yaml crd_source (ReadFile (PolicyPath (Enforce cfg))) (ModTime (PolicyPath (Enforce cfg))) cfg.
Definition serve_flows (evs : list worker_event) (cfg : Config) (f : Filter) (sink : sink_kind) (src : option policy_source) : main_code unit :=
  _ ← when (Paths (Inspect cfg)) (start (SslRun cfg f sink));
  _ ← start (EgressRun cfg f sink src);
  if waited (Paths (Inspect cfg)) evs then mret tt else leave Blocked.
Definition agent (evs : list worker_event) (cfgPath : string) : main_code unit :=
  cf ← or_fatal (configure cfgPath);
  if memlock_error then fatal
  else
    _ ← acquire None (ResolverOpen (Cgroup cf.1) (Enrichment.NewK8sEnricher k8s (NodeName cf.1)).1);
    _ ← start (MetricsServe (MetricsAddr cf.1));
    _ ← acquire None SignalContext;
    ss ← or_fatal (setup cf.1);
    serve_flows evs cf.1 cf.2 ss.1 ss.2.
Definition main (args : list string) (evs : list worker_event) : main_code unit :=
  if bool_decide (head args = Some "policy")
  then leave (Exit (PolicyMain json_flow policy_yaml (getenv "EBFW_POLICY") ReadFile stdin (tail args)).1)
  else match Parse agent_flags args (getenv "EBFW_CONFIG") with
       | Ok (cfgPath, _) => agent evs cfgPath
       | Err e => leave (Exit (exit_code e))
       | Panic | OutOfFuel => leave Crash
       end.

Lemma crd_source_ok : from_option source_ok True crd_source.
Proof. unfold crd_source. destruct (Enrichment.in_cluster_error k8s); [done|]. apply Crds.New_ok. Qed.
Lemma configure_returns path : (∃ c f, configure path = Ok (c, f)) ∨ ∃ e, configure path = Err e.
Proof.
  assert (∀ c, (∃ f, NewFilter c = Ok f) ∨ ∃ e, NewFilter c = Err e) as Hf.
  { intros c. unfold NewFilter. pose proof (filter_cidrs_total (Exclude_CIDRs (c_Exclude c))) as Ht.
    destruct (filter_cidrs _); cbn [mbind go_bind]; eauto; done. }
  unfold configure, Load. case_bool_decide; [|destruct (ReadFile path) as [d|]; [destruct (config_yaml d Default) as [c|]|]; [|by eauto..]];
    cbn [mbind go_bind]; match goal with |- context [NewFilter ?c] => destruct (Hf c) as [[f ->]|[e ->]] end; eauto.
Qed.

(** C20: what the agent does for any arguments, environment, files and cluster.  With
    [policy] as the first argument it exits with the code of the policy tester on
    the other arguments and starts nothing.  With any other arguments it never
    panics; it exits before starting a monitor exactly for an argument error (0 for
    help, 2 otherwise), or, with code 1, a configuration or filter that does not load,
    a refused memory lock, an unknown mode, or a policy file that is needed and does
    not load; otherwise it runs the egress monitor, the HTTPS capture iff path
    inspection is on, with a policy source for the kernel exactly in enforce mode,
    returns when both have ended, and by then has closed its resolver and signal
    handling. *)
Theorem agent_main_spec args evs :
  let ex := run (main args evs) tt in
  let parsed := Parse agent_flags args (getenv "EBFW_CONFIG") in
  (head args = Some "policy" →
     ex_outcome ex = Exited (PolicyMain json_flow policy_yaml (getenv "EBFW_POLICY") ReadFile stdin (tail args)).1 ∧ started (ex_actions ex) = []) ∧
  (head args ≠ Some "policy" →
  match ex_outcome ex with
  | Exited c =>
      (∀ g, g ∈ started (ex_actions ex) → ∃ addr, g = MetricsServe addr) ∧
      ((∃ e, parsed = Err e ∧ c = exit_code e) ∨
       c = 1%Z ∧ ∃ path rest, parsed = Ok (path, rest) ∧
         ((∃ e, configure path = Err e) ∨
          ∃ cfg f, configure path = Ok (cfg, f) ∧
            (memlock_error = true ∨ Mode (Enforce cfg) ∉ [""; "off"; "log"; "enforce"] ∨
             Mode (Enforce cfg) ∈ ["log"; "enforce"] ∧ (Source (Enforce cfg) = "crd" → crd_source = None) ∧
               PolicyPath (Enforce cfg) ≠ "" ∧ ∃ e, loadPolicyFile policy_yaml (ReadFile (PolicyPath (Enforce cfg))) = Err e)))
  | Panicked => False
  | o =>
      ∃ path rest cfg f sink src,
        parsed = Ok (path, rest) ∧ configure path = Ok (cfg, f) ∧ memlock_error = false ∧ setup cfg = Ok (sink, src) ∧
        (is_Some src ↔ Mode (Enforce cfg) = "enforce") ∧
        started (ex_actions ex) = MetricsServe (MetricsAddr cfg) ::
          (if Paths (Inspect cfg) then [SslRun cfg f sink] else []) ++ [EgressRun cfg f sink src] ∧
        (if waited (Paths (Inspect cfg)) evs
         then o = Returned None ∧ held (ex_actions ex) = Some []
         else o = Running ∧ held (ex_actions ex) =
                Some [SignalContext; ResolverOpen (Cgroup cfg) (Enrichment.NewK8sEnricher k8s (NodeName cfg)).1])
  end).
Proof.
  cbn zeta. unfold main. case_bool_decide as Hpol; [by cbn|]. split; [done|]. intros _.
  pose proof (Parse_returns agent_flags args (getenv "EBFW_CONFIG")) as Hp.
  destruct (Parse agent_flags args _) as [[path rest]|e| |]; [|cbn; split; [intros g []%elem_of_nil|left; eauto]|done..]. clear Hp.
  unfold run, agent, or_fatal, mbind, scoped_bind.
  destruct (configure_returns path) as [(cfg & f & Hc)|[e Hc]]; rewrite Hc; cbn [mret scoped_ret fst snd].
  2: { cbn. split; [intros g []%elem_of_nil|]. right. eauto 10. }
  destruct memlock_error eqn:Em.
  { cbn. split; [intros g []%elem_of_nil|]. right. split; [done|]. exists path, rest. split; [done|]. right. eauto 10. }
  cbn [acquire start defers actions local app].
  pose proof (startup_spec policy_yaml crd_source (ReadFile (PolicyPath (Enforce cfg))) (ModTime (PolicyPath (Enforce cfg))) cfg crd_source_ok) as Hs.
  cbn zeta in Hs. fold (setup cfg) in Hs.
  destruct (setup cfg) as [[sink src]|e| |] eqn:Es; cbn [mret scoped_ret fst snd fatal leave].
  - unfold serve_flows, when, mbind, scoped_bind.
    assert (is_Some src ↔ Mode (Enforce cfg) = "enforce") as Hsrc.
    { destruct sink as [|eng]; [destruct Hs as [[-> | ->] ->]|destruct Hs as [[[-> ->]|[-> ?]] _]]; split; try done; by intros []. }
    destruct (Paths (Inspect cfg)) eqn:Epaths; cbn [start mret scoped_ret defers actions local app];
      destruct (waited _ evs) eqn:Ew; cbn [leave mret scoped_ret ex_outcome ex_actions closings defers actions];
      (exists path, rest, cfg, f, sink, src; rewrite Epaths, Ew; do 4 (split; [done|]); split; [exact Hsrc|]; do 2 (split; [done|]); (done || by apply held_closings)).
  - split; [intros g [->|[]%elem_of_nil]%elem_of_cons; eauto|]. right. split; [done|]. exists path, rest. split; [done|].
    right. exists cfg, f. split; [done|]. right. destruct e; [right|done|left]; naive_solver.
  - done.
  - done.
Qed.
End main.

(** ** The workers' fates *)
Lemma workers_run_snoc paths evs ev : workers_run paths (evs ++ [ev]) = (ws ← workers_run paths evs; worker_step ws ev).
Proof. unfold workers_run. by rewrite foldl_app. Qed.
Definition workers_ok (ws : workers) : Prop := if cancelled ws then monitor_worker ws ≠ Idle else monitor_worker ws = Alive.
Lemma workers_run_ok paths evs ws : workers_run paths evs = Some ws → workers_ok ws.
Proof.
  revert ws. induction evs as [|ev evs IH] using rev_ind; intros ws; [by intros [= <-]|].
  rewrite workers_run_snoc. destruct (workers_run paths evs) as [ws0|]; cbn [mbind option_bind]; [|done]. specialize (IH ws0 eq_refl).
  unfold workers_ok, worker_step, may_end in *. destruct ev as [|failed|failed]; [intros [= <-]; cbn; by destruct (cancelled ws0); [|rewrite IH]| |].
  - case_bool_decide; [|done]. cbn [andb]. destruct (failed || _); [|done]. by intros [= <-].
  - case_bool_decide; [|done]. cbn [andb]. destruct failed, (cancelled ws0) eqn:E; cbn [orb]; intros [= <-]; done.
Qed.
(** Alive workers of a cancelled agent end, in either order. *)
Definition winding_down (ws : workers) : list worker_event :=
  (if bool_decide (ssl_worker ws = Alive) then [SslEnds false] else []) ++ (if bool_decide (monitor_worker ws = Alive) then [MonitorEnds false] else []).

(** C34: the agent lives and dies with its egress monitor: as long as no signal came
    and the monitor did not fail, the monitor runs and [main] waits, also when the
    HTTPS capture has failed; once the monitor fails or a signal comes, the context
    stays cancelled, no worker can outlive it (each can end without error) and then
    [main] returns. *)
Theorem agent_follows_monitor paths evs ws :
  workers_run paths evs = Some ws →
  (cancelled ws = true ↔ Exists (λ ev, ev = Signal ∨ ev = MonitorEnds true) evs) ∧
  (cancelled ws = false → monitor_worker ws = Alive ∧ waited paths evs = false) ∧
  (cancelled ws = true → waited paths (evs ++ winding_down ws) = true).
Proof.
  intros Hws. pose proof (workers_run_ok _ _ _ Hws) as Hok. split; [|split].
  - clear Hok. revert ws Hws. induction evs as [|ev evs IH] using rev_ind; intros ws.
    { intros [= <-]. rewrite Exists_nil. done. }
    rewrite workers_run_snoc, Exists_app, Exists_cons, Exists_nil.
    destruct (workers_run paths evs) as [ws0|]; cbn [mbind option_bind]; [|done]. rewrite <-(IH ws0) by done. unfold worker_step, may_end.
    destruct ev as [|failed|failed]; [intros [= <-]; cbn; intuition| |].
    + case_bool_decide; [|done]. cbn [andb]. destruct (failed || _); [|done]. intros [= <-]. cbn. intuition congruence.
    + case_bool_decide; [|done]. cbn [andb]. destruct failed, (cancelled ws0) eqn:E; cbn [orb]; intros [= <-]; cbn; rewrite ?E; intuition congruence.
  - unfold workers_ok in Hok. intros Hc. rewrite Hc in Hok. split; [done|]. unfold waited. rewrite Hws. cbn. unfold wait_done. rewrite Hok.
    by rewrite andb_comm.
  - intros Hc. unfold workers_ok in Hok. rewrite Hc in Hok. unfold waited, workers_run. rewrite foldl_app. fold (workers_run paths evs). rewrite Hws.
    unfold winding_down. destruct ws as [c s m]. cbn in *. subst c.
    destruct s, m; done.
Qed.
Lemma agent_follows_monitor_witness :
  ∃ ws, workers_run true [SslEnds true; MonitorEnds true] = Some ws ∧ cancelled ws = true ∧ waited true [SslEnds true; MonitorEnds true] = true ∧
    waited true [SslEnds true] = false.
Proof.
  destruct (workers_run true [SslEnds true]) as [ws1|] eqn:E1; [|by vm_compute in E1].
  destruct (workers_run true [SslEnds true; MonitorEnds true]) as [ws|] eqn:E; [|by vm_compute in E]. exists ws. split; [done|].
  destruct (agent_follows_monitor true _ ws E) as (Hc & _ & Hw). destruct (agent_follows_monitor true _ ws1 E1) as (Hc1 & Hw1 & _).
  assert (cancelled ws = true) as Hcw by (apply Hc; right; left; by right). split; [done|]. split.
  - specialize (Hw Hcw). vm_compute in E. by injection E as <-.
  - apply Hw1. vm_compute in E1. by injection E1 as <-.
Defined.
(** Off any cluster. *)
Definition no_k8s : Enrichment.k8s_env := {| Enrichment.in_cluster_error := Some "no cluster"; Enrichment.client_error := None; Enrichment.indexer_error := None |}.
Definition no_api : Crds.api := {| Crds.cache_error := None; Crds.syncs := false; Crds.informer_error := λ _, None; Crds.handler_error := λ _, None |}.
(** The policy tester's own usage error, and a misspelt flag of the agent. *)
Lemma agent_main_spec_witness :
  let go args := run (main (H := ascii_case) toy_yaml (λ _ _, None) (λ _, None) (λ _, "") (λ _, None) (λ _, None) None false no_k8s no_api [] [] [] [] args []) tt in
  (ex_outcome (go ["policy"; "test"]) = Exited 2 ∧ started (ex_actions (go ["policy"; "test"])) = []) ∧
  ∃ c, ex_outcome (go ["-confg"; "x"]) = Exited c ∧ ∀ g, g ∈ started (ex_actions (go ["-confg"; "x"])) → ∃ addr, g = MetricsServe addr.
Proof.
  cbn zeta. split.
  - destruct (agent_main_spec (H := ascii_case) toy_yaml (λ _ _, None) (λ _, None) (λ _, "") (λ _, None) (λ _, None) None false no_k8s no_api [] [] [] [] ["policy"; "test"] []) as [Hp _].
    destruct (Hp eq_refl) as [Ho Hs]. split; [|exact Hs]. rewrite Ho. f_equal.
  - eexists. split; [vm_compute; reflexivity|].
    destruct (agent_main_spec (H := ascii_case) toy_yaml (λ _ _, None) (λ _, None) (λ _, "") (λ _, None) (λ _, None) None false no_k8s no_api [] [] [] [] ["-confg"; "x"] []) as [_ Hp].
    specialize (Hp ltac:(discriminate)). revert Hp. cbn zeta.
    match goal with |- match ex_outcome ?e with _ => _ end → _ => assert (ex_outcome e = Exited 2) as -> by (vm_compute; reflexivity) end.
    intros [Hg _]. exact Hg.
Defined.
(** An agent with no configuration file and a single process, ended by a signal. *)
Example main_default_run :
  let ex := run (main (H := ascii_case) toy_yaml (λ _ _, None) (λ _, None) (λ _, "") (λ _, None) (λ _, None) None false no_k8s no_api [] [] [] [] [] [Signal; MonitorEnds false; SslEnds false]) tt in
  ex_outcome ex = Returned None ∧ length (started (ex_actions ex)) = 3.
Proof. by vm_compute. Qed.
