(* ===== verification/Operator.v ===== *)
(** * The operator command ([cmd/operator/main.go])

    Flags, the TLS options of the two servers, and the sequence that builds and
    starts the controller manager.  The TLS options are Go slices that share their
    backing array as the code lets them: [append] writes in place while there is
    capacity.  The flags that the logging library adds, its options, the certificate
    watchers and the manager are parameters. *)

From S2P Require Import Prelude GoStrings GoFlag.
From Stdlib Require Import Ascii.

(** ** Slices *)
Section slices.
Context {A : Type}.
Record slice := { s_array : nat; s_len : nat; s_cap : nat }.
Definition nil_slice : slice := {| s_array := 0; s_len := 0; s_cap := 0 |}.
(** The arrays allocated so far; a slot past what was written holds nothing. *)
Definition heap : Type := list (list A).
Definition elems (h : heap) (s : slice) : list A := take (s_len s) (default [] (h !! s_array s)).
(** [append(s, x)]: in place while the capacity allows it, else a copy in a new
    array of the capacity [grow] chooses for it. *)
Definition append (grow : nat → nat) (h : heap) (s : slice) (x : A) : heap * slice :=
  if bool_decide (s_len s < s_cap s)
  then (alter (λ a, take (s_len s) a ++ x :: drop (S (s_len s)) a) (s_array s) h, {| s_array := s_array s; s_len := S (s_len s); s_cap := s_cap s |})
  else (h ++ [elems h s ++ [x]], {| s_array := length h; s_len := S (s_len s); s_cap := grow (S (s_len s)) |}).
End slices.
Arguments heap : clear implicits.

(** ** [filepath.Join] *)
(** One element of a path being cleaned, the result so far reversed. *)
Definition clean_step (rooted : bool) (out : list string) (seg : string) : list string :=
  if bool_decide (seg ∈ [""; "."]) then out
  else if bool_decide (seg = "..") then
    match out with
    | last :: out' => if bool_decide (last = "..") then seg :: out else out'
    | [] => if rooted then [] else [seg]
    end
  else seg :: out.
Definition Clean (path : string) : string :=
  let rooted := HasPrefix path "/" in
  let out := reverse (foldl (clean_step rooted) [] (Split "/"%char path)) in
  if rooted then "/" +:+ String.concat "/" out
  else if bool_decide (out = []) then "." else String.concat "/" out.
Definition Join (a b : string) : string :=
  if bool_decide (a = "") then if bool_decide (b = "") then "" else Clean b
  else if bool_decide (b = "") then Clean a else Clean (a +:+ "/" +:+ b).

(** ** Flags *)
Record options := {
  metricsAddr : string; probeAddr : string; enableLeaderElection : bool; secureMetrics : bool;
  webhookCertPath : string; webhookCertName : string; webhookCertKey : string;
  metricsCertPath : string; metricsCertName : string; metricsCertKey : string; enableHTTP2 : bool
}.
Definition default_options : options :=
  {| metricsAddr := "0"; probeAddr := ":8081"; enableLeaderElection := false; secureMetrics := true;
     webhookCertPath := ""; webhookCertName := "tls.crt"; webhookCertKey := "tls.key";
     metricsCertPath := ""; metricsCertName := "tls.crt"; metricsCertKey := "tls.key"; enableHTTP2 := false |}.
Definition string_flags : list string :=
  ["metrics-bind-address"; "health-probe-bind-address"; "webhook-cert-path"; "webhook-cert-name"; "webhook-cert-key";
   "metrics-cert-path"; "metrics-cert-name"; "metrics-cert-key"].
Definition bool_flags : list string := ["leader-elect"; "metrics-secure"; "enable-http2"].
Definition set_string (name v : string) (o : options) : options :=
  let pick s old := if bool_decide (name = s) then v else old in
  {| metricsAddr := pick "metrics-bind-address" (metricsAddr o); probeAddr := pick "health-probe-bind-address" (probeAddr o);
     enableLeaderElection := enableLeaderElection o; secureMetrics := secureMetrics o;
     webhookCertPath := pick "webhook-cert-path" (webhookCertPath o); webhookCertName := pick "webhook-cert-name" (webhookCertName o);
     webhookCertKey := pick "webhook-cert-key" (webhookCertKey o); metricsCertPath := pick "metrics-cert-path" (metricsCertPath o);
     metricsCertName := pick "metrics-cert-name" (metricsCertName o); metricsCertKey := pick "metrics-cert-key" (metricsCertKey o);
     enableHTTP2 := enableHTTP2 o |}.
Definition set_bool (name : string) (v : bool) (o : options) : options :=
  let pick s old := if bool_decide (name = s) then v else old in
  {| metricsAddr := metricsAddr o; probeAddr := probeAddr o; enableLeaderElection := pick "leader-elect" (enableLeaderElection o);
     secureMetrics := pick "metrics-secure" (secureMetrics o); webhookCertPath := webhookCertPath o; webhookCertName := webhookCertName o;
     webhookCertKey := webhookCertKey o; metricsCertPath := metricsCertPath o; metricsCertName := metricsCertName o;
     metricsCertKey := metricsCertKey o; enableHTTP2 := pick "enable-http2" (enableHTTP2 o) |}.
(** The command line: the operator's own flags, then those of the logger. *)
Definition operator_flags {Z} (zap : FlagSet Z) : FlagSet (options * Z) :=
  {| fs_bool name :=
       if bool_decide (name ∈ string_flags) then Some false else if bool_decide (name ∈ bool_flags) then Some true else fs_bool zap name;
     fs_set name v oz :=
       if bool_decide (name ∈ string_flags) then Some (set_string name v oz.1, oz.2)
       else if bool_decide (name ∈ bool_flags) then b ← ParseBool v; Some (set_bool name b oz.1, oz.2)
       else z ← fs_set zap name v oz.2; Some (oz.1, z) |}.

(** ** The servers' TLS options *)
Inductive tls_option := DisableHTTP2 | WebhookCertificate | MetricsCertificate.
#[export] Instance tls_option_eq_dec : EqDecision tls_option.
Proof. solve_decision. Defined.
(** What an option does to a server's [tls.Config]: [None] protocols are the
    library's defaults, no certificate callback the server's own. *)
Record tls_config := { NextProtos : option (list string); GetCertificate : option tls_option }.
Definition apply_option (c : tls_config) (o : tls_option) : tls_config :=
  match o with
  | DisableHTTP2 => {| NextProtos := Some ["http/1.1"]; GetCertificate := GetCertificate c |}
  | cert => {| NextProtos := NextProtos c; GetCertificate := Some cert |}
  end.
Definition server_tls (opts : list tls_option) : tls_config := foldl apply_option {| NextProtos := None; GetCertificate := None |} opts.

(** ** The manager *)
Inductive controller := EgressPolicyController | ClusterEgressPolicyController.
(** What [SetupWithManager] asks for: the kind it watches and the controller's name. *)
Definition SetupWithManager (c : controller) : string * string :=
  match c with
  | EgressPolicyController => ("EgressPolicy", "egresspolicy")
  | ClusterEgressPolicyController => ("ClusterEgressPolicy", "clusteregresspolicy")
  end.
(** The scheme: group, version and kind of the types the process knows.  The [init]
    functions of [api/v1] register theirs, [main]'s adds them to client-go's. *)
Definition GroupVersion : string * string := ("ebfw.dvrkn.com", "v1").
Definition register_cluster (kinds : list string) : list string := kinds ++ ["ClusterEgressPolicy"; "ClusterEgressPolicyList"].
Definition register_namespaced (kinds : list string) : list string := kinds ++ ["EgressPolicy"; "EgressPolicyList"].
Definition SchemeBuilder : list string := register_namespaced (register_cluster []).
Definition AddToScheme (scheme : gset (string * string * string)) : gset (string * string * string) :=
  scheme ∪ list_to_set ((λ kind, (GroupVersion, kind)) <$> SchemeBuilder).
Definition operator_scheme (clientgo : gset (string * string * string)) : gset (string * string * string) := AddToScheme clientgo.
Inductive check := Healthz | Readyz.
Record manager := {
  m_metricsAddr : string; m_secureServing : bool; m_authFilter : bool; m_metricsTLS : list tls_option; m_webhookTLS : list tls_option;
  m_probeAddr : string; m_leaderElection : bool; m_leaderElectionID : string;
  m_controllers : list controller; m_watchers : list tls_option; m_checks : list check
}.
(** What can fail on the way. *)
Inductive stage :=
  | WebhookWatcher (cert key : string) | MetricsWatcher (cert key : string) | GetConfig | NewManager
  | SetupController (c : controller) | AddWatcher (o : tls_option) | AddCheck (c : check) | StartManager.

Section operator.
Context (grow : nat → nat) (fails : stage → bool).
(** [os.Exit(1)] unless the stage succeeds. *)
Definition must (s : stage) : go Z unit := if fails s then Err 1%Z else Ok tt.
Definition must_when (b : bool) (s : stage) : go Z unit := if b then must s else Ok tt.
(** The two slices of TLS options, webhook first, over their heap. *)
Definition tls_slices (o : options) : go Z (heap tls_option * slice * slice) :=
  let '(h, tlsOpts) := if enableHTTP2 o then ([], nil_slice) else append grow [] nil_slice DisableHTTP2 in
  let webhook := bool_decide (webhookCertPath o ≠ "") in
  let metrics := bool_decide (metricsCertPath o ≠ "") in
  _ ← must_when webhook (WebhookWatcher (Join (webhookCertPath o) (webhookCertName o)) (Join (webhookCertPath o) (webhookCertKey o)));
  let '(h, webhookTLSOpts) := if webhook then append grow h tlsOpts WebhookCertificate else (h, tlsOpts) in
  _ ← must_when metrics (MetricsWatcher (Join (metricsCertPath o) (metricsCertName o)) (Join (metricsCertPath o) (metricsCertKey o)));
  let '(h, metricsTLSOpts) := if metrics then append grow h tlsOpts MetricsCertificate else (h, tlsOpts) in
  Ok (h, webhookTLSOpts, metricsTLSOpts).
Definition setup_manager (o : options) : go Z manager :=
  let webhook := bool_decide (webhookCertPath o ≠ "") in
  let metrics := bool_decide (metricsCertPath o ≠ "") in
  '(h, webhookTLSOpts, metricsTLSOpts) ← tls_slices o;
  _ ← must GetConfig;
  _ ← must NewManager;
  _ ← must (SetupController EgressPolicyController);
  _ ← must (SetupController ClusterEgressPolicyController);
  _ ← must_when metrics (AddWatcher MetricsCertificate);
  _ ← must_when webhook (AddWatcher WebhookCertificate);
  _ ← must (AddCheck Healthz);
  _ ← must (AddCheck Readyz);
  Ok {| m_metricsAddr := metricsAddr o; m_secureServing := secureMetrics o; m_authFilter := secureMetrics o;
        m_metricsTLS := elems h metricsTLSOpts; m_webhookTLS := elems h webhookTLSOpts; m_probeAddr := probeAddr o;
        m_leaderElection := enableLeaderElection o; m_leaderElectionID := "d49b2fb4.dvrkn.com";
        m_controllers := [EgressPolicyController; ClusterEgressPolicyController];
        m_watchers := (if metrics then [MetricsCertificate] else []) ++ (if webhook then [WebhookCertificate] else []);
        m_checks := [Healthz; Readyz] |}.
(** [main]: the manager that ran until it was told to stop, or the exit code. *)
Definition operator_main {Z'} (zap : FlagSet Z') (zap_default : Z') (args : list string) : go Z manager :=
  match Parse (operator_flags zap) args (default_options, zap_default) with
  | Ok ((o, _), _) => mgr ← setup_manager o; _ ← must StartManager; Ok mgr
  | Err e => Err (exit_code e)
  | Panic => Panic
  | OutOfFuel => OutOfFuel
  end.
End operator.

(** ** Theorems *)
Section operator_facts.
Context (grow : nat → nat) (fails : stage → bool).
(** Everything that has to succeed for these options, in order. *)
Definition needed (o : options) : list stage :=
  (if bool_decide (webhookCertPath o ≠ "")
   then [WebhookWatcher (Join (webhookCertPath o) (webhookCertName o)) (Join (webhookCertPath o) (webhookCertKey o))] else []) ++
  (if bool_decide (metricsCertPath o ≠ "")
   then [MetricsWatcher (Join (metricsCertPath o) (metricsCertName o)) (Join (metricsCertPath o) (metricsCertKey o))] else []) ++
  [GetConfig; NewManager; SetupController EgressPolicyController; SetupController ClusterEgressPolicyController] ++
  (if bool_decide (metricsCertPath o ≠ "") then [AddWatcher MetricsCertificate] else []) ++
  (if bool_decide (webhookCertPath o ≠ "") then [AddWatcher WebhookCertificate] else []) ++
  [AddCheck Healthz; AddCheck Readyz].
Definition intended_tls (o : options) (path : string) (cert : tls_option) : list tls_option :=
  (if enableHTTP2 o then [] else [DisableHTTP2]) ++ (if bool_decide (path ≠ "") then [cert] else []).

(** The one way the servers' options interfere: the first append left room in the
    shared array and both servers append to it. *)
Definition overwritten (o : options) : Prop :=
  1 < grow 1 ∧ enableHTTP2 o = false ∧ webhookCertPath o ≠ "" ∧ metricsCertPath o ≠ "".
#[export] Instance overwritten_dec o : Decision (overwritten o).
Proof. unfold overwritten. apply _. Defined.
Definition webhook_cert (o : options) : tls_option := if decide (overwritten o) then MetricsCertificate else WebhookCertificate.

Lemma tls_slices_eq o :
  tls_slices grow fails o =
    (_ ← must_when fails (bool_decide (webhookCertPath o ≠ ""))
           (WebhookWatcher (Join (webhookCertPath o) (webhookCertName o)) (Join (webhookCertPath o) (webhookCertKey o)));
     _ ← must_when fails (bool_decide (metricsCertPath o ≠ ""))
           (MetricsWatcher (Join (metricsCertPath o) (metricsCertName o)) (Join (metricsCertPath o) (metricsCertKey o)));
     tls_slices grow (λ _, false) o) ∧
  ∃ h w m, tls_slices grow (λ _, false) o = Ok (h, w, m) ∧
    elems h w = intended_tls o (webhookCertPath o) (webhook_cert o) ∧ elems h m = intended_tls o (metricsCertPath o) MetricsCertificate.
Proof.
  unfold tls_slices, intended_tls, webhook_cert, overwritten.
  generalize (WebhookWatcher (Join (webhookCertPath o) (webhookCertName o)) (Join (webhookCertPath o) (webhookCertKey o))).
  generalize (MetricsWatcher (Join (metricsCertPath o) (metricsCertName o)) (Join (metricsCertPath o) (metricsCertKey o))). intros ms ws.
  destruct (decide (1 < grow 1 ∧ _)) as [(Hg & -> & Hw & Hm)|Hn].
  { rewrite !bool_decide_true by done. unfold append. cbn [s_len s_cap nil_slice s_array].
    change (bool_decide (0 < 0)) with false. cbn iota. cbn [s_len s_cap s_array]. rewrite bool_decide_true by done.
    split; [unfold must_when, must; by destruct (fails ws), (fails ms)|by do 3 eexists]. }
  rewrite <-(bool_decide_eq_true (webhookCertPath o ≠ "")), <-(bool_decide_eq_true (metricsCertPath o ≠ "")), <-(bool_decide_eq_true (1 < grow 1)) in Hn. revert Hn.
  destruct (enableHTTP2 o), (bool_decide (webhookCertPath o ≠ "")), (bool_decide (metricsCertPath o ≠ ""));
    unfold append; cbn [s_len s_cap nil_slice s_array]; change (bool_decide (0 < 0)) with false; cbn iota; cbn [s_len s_cap s_array];
    try (destruct (bool_decide (1 < grow 1)) eqn:Eg); intros Hn; try (exfalso; by apply Hn);
    (split; [unfold must_when, must; by destruct (fails ws), (fails ms)|by do 3 eexists]).
Qed.
Lemma setup_manager_spec o :
  match setup_manager grow fails o with
  | Ok mgr =>
      Forall (λ s, fails s = false) (needed o) ∧ m_controllers mgr = [EgressPolicyController; ClusterEgressPolicyController] ∧
      m_checks mgr = [Healthz; Readyz] ∧ m_webhookTLS mgr = intended_tls o (webhookCertPath o) (webhook_cert o) ∧
      m_metricsTLS mgr = intended_tls o (metricsCertPath o) MetricsCertificate ∧
      (m_authFilter mgr = secureMetrics o ∧ m_secureServing mgr = secureMetrics o ∧ m_metricsAddr mgr = metricsAddr o ∧
       m_probeAddr mgr = probeAddr o ∧ m_leaderElection mgr = enableLeaderElection o) ∧
      (∀ c, c ∈ m_watchers mgr ↔ c = MetricsCertificate ∧ metricsCertPath o ≠ "" ∨ c = WebhookCertificate ∧ webhookCertPath o ≠ "")
  | Err c => c = 1%Z ∧ Exists (λ s, fails s = true) (needed o)
  | _ => False
  end.
Proof.
  destruct (tls_slices_eq o) as (E & h & w & m & E' & Hw & Hm).
  unfold setup_manager. rewrite E, E'. clear E E'. unfold needed.
  generalize (WebhookWatcher (Join (webhookCertPath o) (webhookCertName o)) (Join (webhookCertPath o) (webhookCertKey o))).
  generalize (MetricsWatcher (Join (metricsCertPath o) (metricsCertName o)) (Join (metricsCertPath o) (metricsCertKey o))). intros ms ws.
  unfold must_when, must. do 2 case_bool_decide; cbn [mbind go_bind app];
    repeat (match goal with |- context [if fails ?s then _ else _] =>
              destruct (fails s) eqn:?; cbn [mbind go_bind]; [split; [done|]; repeat first [by apply Exists_cons_hd|apply Exists_cons_tl]|] end);
    (split; [by repeat constructor|]); cbn; do 5 (split; [done|]); intros c; rewrite ?elem_of_cons, ?elem_of_nil; naive_solver.
Qed.

(** Every controller watches a kind of the scheme whose list is there too, under a
    name of its own (controller-runtime refuses a second controller of a name). *)
Lemma controllers_registered clientgo c c' :
  (GroupVersion, (SetupWithManager c).1) ∈ operator_scheme clientgo ∧ (GroupVersion, (SetupWithManager c).1 +:+ "List") ∈ operator_scheme clientgo ∧
  ((SetupWithManager c).2 = (SetupWithManager c').2 → c = c').
Proof.
  unfold operator_scheme, AddToScheme. rewrite !elem_of_union, !elem_of_list_to_set, !list_elem_of_fmap.
  split; [right; eexists; split; [done|]; destruct c; set_solver|]. split; [right; eexists; split; [done|]; destruct c; set_solver|]. by destruct c, c'.
Qed.
(** What a command line of the operator's own flags means: the last value given to
    a flag, else the flag's default. *)
Definition last_value (nvs : list (string * string)) (name default : string) : string :=
  from_option snd default (last (filter (λ nv, nv.1 = name) nvs)).
Definition meant (nvs : list (string * string)) : options :=
  let text := last_value nvs in
  let on name default := bool_decide (last_value nvs name default = "true") in
  {| metricsAddr := text "metrics-bind-address" "0"; probeAddr := text "health-probe-bind-address" ":8081";
     enableLeaderElection := on "leader-elect" "false"; secureMetrics := on "metrics-secure" "true";
     webhookCertPath := text "webhook-cert-path" ""; webhookCertName := text "webhook-cert-name" "tls.crt";
     webhookCertKey := text "webhook-cert-key" "tls.key"; metricsCertPath := text "metrics-cert-path" "";
     metricsCertName := text "metrics-cert-name" "tls.crt"; metricsCertKey := text "metrics-cert-key" "tls.key";
     enableHTTP2 := on "enable-http2" "false" |}.
(** A flag of the operator with a value it takes. *)
Definition documented (nv : string * string) : Prop :=
  nv.1 ∈ ["metrics-bind-address"; "health-probe-bind-address"; "webhook-cert-path"; "webhook-cert-name"; "webhook-cert-key";
          "metrics-cert-path"; "metrics-cert-name"; "metrics-cert-key"] ∨
  nv.1 ∈ ["leader-elect"; "metrics-secure"; "enable-http2"] ∧ nv.2 ∈ ["true"; "false"].

Lemma last_value_snoc nvs n v name d : last_value (nvs ++ [(n, v)]) name d = if bool_decide (n = name) then v else last_value nvs name d.
Proof.
  unfold last_value. rewrite list.filter_app. cbn [filter list_filter fst snd]. destruct (decide (n = name)) as [->|Hn].
  - rewrite bool_decide_true by done. by rewrite last_snoc.
  - rewrite bool_decide_false by done. by rewrite app_nil_r.
Qed.
Lemma documented_flag {Z'} (zap : FlagSet Z') nv : documented nv → flag_name nv.1 ∧ is_Some (fs_bool (operator_flags zap) nv.1).
Proof.
  destruct nv as [n v]. intros [Hn|[Hn _]]; cbn [fst] in *;
    repeat (apply elem_of_cons in Hn as [->|Hn]; [split; [vm_compute; set_solver|by eexists]|]); by apply elem_of_nil in Hn.
Qed.
Lemma assigns_meant {Z'} (zap : FlagSet Z') z nvs :
  Forall documented nvs → assigns (operator_flags zap) nvs (default_options, z) = Ok (meant nvs, z).
Proof.
  induction nvs as [|[n v] nvs IH] using rev_ind; [done|]. intros [Hd [Hn _]%Forall_cons_1]%Forall_app.
  unfold assigns in *. rewrite foldl_app, IH by done. cbn [foldl mbind go_bind fst snd]. clear IH Hd.
  unfold meant. rewrite !last_value_snoc. unfold assign.
  destruct Hn as [Hn|[Hn Hv]]; cbn [fst snd] in *;
    repeat (apply elem_of_cons in Hn as [->|Hn];
      [try (apply elem_of_cons in Hv as [->|Hv]; [|apply list_elem_of_singleton in Hv as ->]); reflexivity|]); by apply elem_of_nil in Hn.
Qed.

(** C21: the operator comes up as its flags say.  A command line of documented flags
    gives every option the last value named, else its default.  For every command
    line the operator exits (0 or 2 from the flags, 1 exactly when something it needs
    fails) or runs a manager with both controllers and both probes at the addresses
    and with the leader election of its options, whose metrics endpoint is
    authenticated exactly when it is served securely, whose servers speak HTTP/1.1
    only unless HTTP/2 was enabled, and where each server presents its own
    certificate, with one exception: when HTTP/2 is off, both certificate paths are
    set and the runtime gave the first [append] more room than the one element it
    needs, the webhook server presents the metrics certificate. *)
Theorem operator_spec {Z'} (zap : FlagSet Z') zap_default args :
  let parsed := Parse (operator_flags zap) args (default_options, zap_default) in
  (∀ nvs, Forall documented nvs → args = put_flag <$> nvs → parsed = Ok ((meant nvs, zap_default), [])) ∧
  match operator_main grow fails zap zap_default args with
  | Ok mgr =>
      ∃ o z rest, parsed = Ok ((o, z), rest) ∧ Forall (λ s, fails s = false) (needed o ++ [StartManager]) ∧
        m_controllers mgr = [EgressPolicyController; ClusterEgressPolicyController] ∧ m_checks mgr = [Healthz; Readyz] ∧
        (let protos := if enableHTTP2 o then None else Some ["http/1.1"] in
         let cert path c := if bool_decide (path ≠ "") then Some c else None in
         let own := if decide (overwritten o) then MetricsCertificate else WebhookCertificate in
         server_tls (m_webhookTLS mgr) = {| NextProtos := protos; GetCertificate := cert (webhookCertPath o) own |} ∧
         server_tls (m_metricsTLS mgr) = {| NextProtos := protos; GetCertificate := cert (metricsCertPath o) MetricsCertificate |}) ∧
        m_authFilter mgr = secureMetrics o ∧ m_secureServing mgr = secureMetrics o ∧ m_metricsAddr mgr = metricsAddr o ∧
        m_probeAddr mgr = probeAddr o ∧ m_leaderElection mgr = enableLeaderElection o
  | Err c =>
      (∃ e, parsed = Err e ∧ c = exit_code e) ∨
      c = 1%Z ∧ ∃ o z rest, parsed = Ok ((o, z), rest) ∧ Exists (λ s, fails s = true) (needed o ++ [StartManager])
  | _ => False
  end.
Proof.
  cbn zeta. split.
  { intros nvs Hd ->. rewrite Parse_put_flags by (eapply Forall_impl; [exact Hd|]; apply documented_flag). by rewrite assigns_meant. }
  unfold operator_main. pose proof (Parse_returns (operator_flags zap) args (default_options, zap_default)) as Hr.
  destruct (Parse _ args _) as [[[o z] rest]|e| |]; [|left; eauto|done..]. clear Hr.
  pose proof (setup_manager_spec o) as Hm. destruct (setup_manager grow fails o) as [mgr|c| |]; cbn [mbind go_bind]; [| |done..].
  - unfold must. destruct (fails StartManager) eqn:Es.
    { right. split; [done|]. exists o, z, rest. split; [done|]. apply Exists_app. right. by apply Exists_cons_hd. }
    destruct Hm as (Hf & Hc & Hk & Hw & Hmt & Ha & _). exists o, z, rest. split; [done|].
    split; [apply Forall_app; split; [done|by repeat constructor]|]. rewrite Hw, Hmt. do 2 (split; [done|]).
    split; [|exact Ha]. unfold intended_tls, webhook_cert.
    by destruct (enableHTTP2 o), (decide (overwritten o)), (bool_decide (webhookCertPath o ≠ "")), (bool_decide (metricsCertPath o ≠ "")).
  - destruct Hm as [-> He]. right. split; [done|]. exists o, z, rest. split; [done|]. apply Exists_app. by left.
Qed.
End operator_facts.

(** The growth of Go's runtime for the first pointer-sized elements. *)
Definition go_grow (n : nat) : nat := if bool_decide (n ≤ 1) then n else 2 * n.
Definition no_zap : FlagSet unit := {| fs_bool _ := None; fs_set _ _ _ := None |}.
Definition cert_flags : list (string * string) :=
  [("webhook-cert-path", "/tmp/x"); ("webhook-cert-path", "/tmp/w"); ("metrics-cert-path", "/tmp/m"); ("leader-elect", "true")].
Definition cert_args : list string := put_flag <$> cert_flags.
Lemma operator_spec_witness :
  ∃ mgr, operator_main go_grow (λ _, false) no_zap tt cert_args = Ok mgr ∧
    Parse (operator_flags no_zap) cert_args (default_options, tt) = Ok ((meant cert_flags, tt), []) ∧
    webhookCertPath (meant cert_flags) = "/tmp/w" ∧ m_leaderElection mgr = true ∧ m_metricsAddr mgr = "0" ∧ m_authFilter mgr = true ∧
    server_tls (m_webhookTLS mgr) = {| NextProtos := Some ["http/1.1"]; GetCertificate := Some WebhookCertificate |} ∧
    server_tls (m_metricsTLS mgr) = {| NextProtos := Some ["http/1.1"]; GetCertificate := Some MetricsCertificate |}.
Proof.
  destruct (operator_spec go_grow (λ _, false) no_zap tt cert_args) as [Hmeant Hs].
  assert (Forall documented cert_flags) as Hd.
  { do 3 (apply Forall_cons; split; [left; set_solver|]). apply Forall_cons. split; [right; set_solver|done]. }
  specialize (Hmeant cert_flags Hd eq_refl).
  destruct (operator_main _ _ _ _ _) as [mgr|c| |] eqn:E; [|by vm_compute in E..]. exists mgr. split; [done|]. split; [done|].
  destruct Hs as (o & z & rest & Hp & _ & _ & _ & Htls & Ha & _ & Hm & _ & Hl). rewrite Hmeant in Hp. injection Hp as <- <- <-.
  split; [reflexivity|]. rewrite Hl, Hm, Ha. do 3 (split; [reflexivity|]). exact Htls.
Defined.
(** The two option slices share their first array: with a runtime that allocates
    spare capacity, the second append overwrites the first one's element and the
    webhook server presents the metrics certificate. *)
Example shared_options_need_exact_growth :
  match operator_main (λ n, 2 * n) (λ _, false) no_zap tt cert_args with
  | Ok mgr => GetCertificate (server_tls (m_webhookTLS mgr)) = Some MetricsCertificate
  | _ => False
  end.
Proof. by vm_compute. Qed.
Example clean_paths : Join "/tmp//k8s/" "../tls.crt" = "/tmp/tls.crt" ∧ Join "" "" = "" ∧ Join "a" ".." = ".".
Proof. by vm_compute. Qed.
